(* ===== verification/_CoqProject ===== *)
-Q . S2P
Prelude.v
RustStd.v
Effects.v
Threads.v
Omniqueue.v
Queue.v
InMemory.v
InMemoryDyn.v
InMemoryTests.v
InMemoryTimed.v
InMemoryConcurrent.v
RedisCodec.v
RedisApi.v
RedisDriver.v
RedisConfig.v
RedisSpec.v
RedisFallback.v
RedisStreams.v
RedisMain.v
RedisReceiveAll.v
RedisProgress.v
RedisStreamsProgress.v
RedisLedger.v
RedisClients.v
RedisConcurrent.v
RedisStreamsConcurrent.v
RedisDeployment.v
Sqs.v
Aqs.v
Rabbit.v
Gcp.v
