(* ===== verification/Prelude.v ===== *)
(** * omniqueue: a verification library

    omniqueue is an abstraction over message queues.  A program sends and
    receives raw payloads through the traits of [omniqueue/src/queue] and
    [omniqueue/src/scheduled]; the modules of [omniqueue/src/backends]
    implement them over an in-process channel, redis, Amazon SQS, Azure Queue
    Storage, RabbitMQ and Google Cloud Pub/Sub.  This library models the
    crate's own code (paths below are relative to [src/omniqueue/src]) and
    proves what its parts promise.

    ** How code becomes definitions

    An [async fn] is a [prog E A] (file [Effects]): the tree of the calls [E]
    it makes to code outside the repository, with its continuation for every
    reply, ending in a value, a panic, or the exhaustion of fuel.  [let? x :=
    p in k] is [let x = p.await?; k], [let* x := p in k] is the same without
    the [?].  A method on [&mut self] returns the new [self].  Pure code that
    may panic is an [outcome].  Nothing is assumed of client libraries beyond
    what a theorem names: each backend has a type of calls ([memE], [redisE],
    [sqsE], [aqsE], [rabbitE], [gcpE]), theorems quantify over the handler
    that answers them, and where they rely on its documented behaviour this
    is an [env_doc] that the handler is [Lawful] for.  [returns h view p s Q]
    is total correctness: the program returns, without panic, blocking or
    exhaustion, and [Q] holds of the observed state and the value.  [wp] is
    the calculus in which such statements are proved, once for all lawful
    handlers.  Each [env_doc] that theorems rely on has an executable handler
    that is proved lawful, and the witnesses run the theorems on it.

    ** The files

    - [Prelude]: bytes, automation, the list lemmas that several files share.
    - [RustStd]: results, panics, 64-bit integers with their overflow
      behaviour, decimal text, UTF-8 and [String], slices, the order of byte
      strings, [Duration], [SystemTime] and [Instant].
    - [Effects]: programs, handlers, [wp], [Lawful].
    - [Threads]: programs as threads that interleave call by call, start, end
      and crash; the books of what a system holds ([books], with a product of
      the books of its parts), what it is for a program to pay for what it
      takes out ([pays]), and the balance of any run ([steps_balanced]).
    - [Omniqueue]: [lib.rs] ([QueueError], [QueuePayload] and its three
      implementations; serde_json is a class).
    - [Queue]: [queue/*.rs], [scheduled/mod.rs], [builder.rs], [macros.rs]:
      the traits as classes, the bodies of their default methods, deliveries,
      the [Dyn...] wrappers, the builder; the interface [AckOnce] between
      deliveries and the ackers of the backends.
    - [InMemory]: [backends/in_memory.rs]; [InMemoryDyn]: the same behind the
      dynamic builder and wrappers; [InMemoryTests]: its unit tests, as
      programs; [InMemoryTimed]: the one that waits for a scheduled
      message, on a runtime with threads and a clock; [InMemoryConcurrent]:
      the users of one channel as threads.
    - [RedisCodec]: the list entry format of [backends/redis/mod.rs].
    - [RedisApi]: the redis server as the backend sees it: calls, observable
      database, documented behaviour of each command, once for a server whose
      replies may get lost ([redis_doc true]) and once for a server that
      answers ([redis_doc false]), and an executable server for each.  Its
      definitions model no code of the repository.
    - [RedisDriver]: what the repository adds to the redis client:
      [redis/cluster.rs], [redis/sentinel.rs] and the two versions of the
      reply of [XAUTOCLAIM] ([redis/streams.rs]).
    - [RedisConfig]: configuration, producer and consumer data of redis.
    - [RedisSpec]: the abstract queue [mqueue] (waiting, received and not
      settled, given up) and [RedisQueue], the interface through which an
      implementation of the main queue is proved to refine it.
    - [RedisFallback]: [backends/redis/fallback.rs], the queue in two lists.
    - [RedisStreams]: [backends/redis/streams.rs], the queue in a stream.
    - [RedisMain]: the rest of [backends/redis/mod.rs]: builder, background
      tasks, delayed messages, redriving, eviction policy check.
    - [RedisReceiveAll]: [receive_all] of both implementations against the
      abstract queue.
    - [RedisProgress]: what the rounds of the background tasks lead to, for
      the two lists and for the delayed set; [RedisStreamsProgress]: the same
      for the stream.
    - [RedisLedger]: the books of the delayed set, the dead-letter queue, the
      two lists and the stream; [RedisClients]: what threads of a queue may
      run, and that it pays, through the interfaces [MainBooks] and
      [MainQueue] to the main queue; [RedisConcurrent] implements them with
      lists, [RedisStreamsConcurrent] with a stream.  The programs of the
      threads are those of [RedisFallback], [RedisStreams] and [RedisMain].
    - [RedisDeployment]: the builder put together with what it has built, in
      several processes.
    - [Sqs], [Aqs], [Rabbit], [Gcp]: [backends/sqs.rs],
      [backends/azure_queue_storage.rs], [backends/rabbitmq.rs],
      [backends/gcp_pubsub.rs].

    A definition has the name of the function it models.  Where a file
    models several components with methods of the same name, each has a
    [Module] ([Producer], [MemAcker], [Consumer], [Builder], [DynBuilder],
    [Delivery], [DynProducer], ...).  A record's fields are those of the
    struct; where names would clash they carry a prefix ([rp_] for
    [RedisProducer], [rc_] for [RedisConsumer], [cfg_] for configurations).
    Connection pools and handles of background tasks are not data of a record:
    they are what a call is made through.

    ** What is proved

    - Concurrency: [RedisConcurrent.at_least_once] and
      [RedisStreamsConcurrent.streams_at_least_once].  Under every
      interleaving of any number of clients and background tasks, with lost
      replies and crashes, a message that was sent or scheduled is in the
      queue until an ack of it is started.  Each operation is proved, once, to
      pay for the entries that it takes out with the copies that it has put in
      ([pays]); the sum over the threads is the invariant of the interleaving.
      An ack of a stream names an ID; its payload is the one that the history
      of the stream shows for it, which documented calls keep unique.
      In memory no reply is lost, and the accounts are exact
      ([InMemoryConcurrent.in_memory_exactly_once]): nothing is lost, doubled
      or invented.
    - Composition: [RedisDeployment.deployment_at_least_once] is the same for
      what processes make with their own builders, and for the background
      tasks that building has spawned.
    - Types: [RedisConcurrent.entries_well_formed] and
      [RedisStreamsConcurrent.stream_entries_well_formed].  For any property of
      payloads, when only such payloads are put into a queue, all its parts
      hold well-formed entries of such payloads in every interleaving: no
      payload comes out that has not been put in.
    - Bounds: [RedisConcurrent.receives_bounded] and
      [RedisStreamsConcurrent.stream_receives_bounded].  In every interleaving
      the count of receives of each entry stays within the configured maximum.
      A lost reply can leave two entries of one message; each has its count.
    - Progress, on a server that answers, once the time has come: messages
      that have been received and not settled come back or are given up
      ([RedisProgress.unsettled_come_back],
      [RedisStreamsProgress.stream_unsettled_come_back]), and delayed messages
      come out, in order ([RedisProgress.due_messages_come_out]); each says
      how many rounds of the background task are enough.  That the time has
      come is knowledge about the clock, or about the reply of [XAUTOCLAIM],
      beyond what is documented of a server at any time ([restrict],
      [overdue], [limit_is], [clock_from], [all_idle]).
    - Refinement: the two redis implementations refine one abstract queue
      with a count of receives and a dead-letter queue
      ([RedisFallback.fallback_refines_mqueue],
      [RedisStreams.streams_refine_mqueue], both through the class
      [RedisQueue]); the in-memory backend refines a FIFO queue
      ([InMemory.in_memory_refines_fifo]), and so does what its dynamic
      builder makes, with batches and with repeated attempts to settle a
      delivery ([InMemoryDyn.dynamic_pair_refines_fifo]).
    - No message is lost, on a server whose replies may get lost at any call:
      re-enqueueing ([RedisFallback.reenqueue_conserves],
      [RedisStreams.streams_reenqueue_conserves]), the endless background
      task ([RedisFallback.background_task_keeps_running]), the delayed set
      ([RedisMain.delayed_never_early_never_lost]) and redriving
      ([RedisMain.redrive_dlq_moves_all], which also terminates).
    - Exact effect of the operations, errors included: send, receive, ack,
      nack and re-enqueueing of the list queue, scheduling and one round of
      the delayed task, the batches of SQS and Pub/Sub (where success is tied
      to the confirmation of each message), the default batch methods on redis
      ([RedisMain.redis_batch_prefix]), [receive_all] of the in-memory, RabbitMQ, Azure and redis
      ([RedisReceiveAll.redis_receive_all]) backends.
    - Connections: however calls of one sentinel manager interleave, and
      wherever they are cancelled, its client is used by one at a time, and
      the lock is never left taken
      ([RedisDriver.sentinel_client_exclusive]); both versions of the reply of
      [XAUTOCLAIM] are read ([RedisDriver.autoclaim_reply_versions]).
    - The unit tests of the in-memory backend pass in every environment that
      keeps to tokio's documentation ([InMemoryTests.in_memory_tests_pass]);
      the test of scheduled messages passes however it and the task that it
      spawns are scheduled, while the runtime keeps them waiting for less
      than the delay ([InMemoryTimed.test_scheduled_passes]).
    - Formats: what [internal_from_list] accepts, returns and panics on, and
      the round trips of list entries and stream entries.
    - At most one settlement: [InMemoryDyn.dynamic_pair_refines_fifo] and
      [Rabbit.rabbit_one_attempt], both through [DynAcker], whose ackers meet
      [AckOnce]; [RedisFallback.fallback_ack], [RedisFallback.fallback_nack]
      and [Sqs.sqs_ack_at_most_once] for ackers that promise less.
    - The wrappers hand everything through ([Queue.dyn_consumer_clamps],
      [Queue.dynamic_builder_same_backend], and the theorems that go through
      them: [InMemoryDyn.dynamic_pair_refines_fifo],
      [RedisMain.redis_batch_prefix], [Rabbit.rabbit_one_attempt]), and
      the redis builder returns a pair that fits together
      ([RedisMain.builder_pair_fits]).
    - Behaviour one might not expect, as theorems: the dynamic redis builder
      drops settings, entries in the format of old versions with a [#] in the
      payload panic, a negative deadline kills the background task, the
      stream payload key [num_receives] loses payloads, a message that waits
      for longer than the deadline before it is received is delivered again
      although it is acked in time
      ([RedisProgress.deadline_counts_from_sending]), a nack writes to the
      dead-letter queue before it checks anything, a poison entry keeps the
      delayed lock, failed entries of an SQS batch are ignored, a failed nack
      cannot be retried with the in-memory backend nor anything with RabbitMQ.

    ** Fuel and bounds

    [usize] and [u64] are [N] with their bound written out where the code can
    reach it; [oc] says whether the build has overflow checks, and
    [delivery_size] is [size_of::<Delivery>()] in the capacity check of
    [Vec::with_capacity].  Loops that end take fuel, and theorems say how
    much is enough: [redrive_dlq] more rounds than there are messages, the
    polling loop of Azure's [receive_all] [deadline / period + 2] rounds,
    [receive_all] of the in-memory and RabbitMQ backends [max_messages]
    iterations (supplied by the definitions).  The loops of the background
    tasks never end; they are cut after [fuel] rounds, and theorems hold for
    every [fuel].  Clocks are assumed within 2^62 seconds of 1970.

    ** What is not modelled

    [Debug], tracing spans and log lines have no effect on the queue.  The
    exhaustion of a connection pool is an error that the server's
    documentation allows at any call, not a count of connections.  A pipeline
    of redis commands ends at its first error: that a server which refuses one
    of them may still execute those behind it is left out.  What
    interleavings are proved to keep is safety.  Progress is stated for the
    background tasks on their own, on a server that answers: that a message
    is delivered in the end while clients interleave with them needs
    assumptions of fairness about the runtime.  Time is part of the model
    where the code reads a clock or waits ([InMemoryTests], [InMemoryTimed],
    the receive loops, the delayed set); the interleavings of
    [InMemoryConcurrent] leave out how it passes.  [in_memory_receive_all] and
    [rabbit_receive_all] say what one call of [receive_all] does with what is
    there when it starts: nothing arrives meanwhile.  What arrives meanwhile is
    in [InMemoryConcurrent] (any interleaving, without time) and, for the test
    of scheduled messages, in [InMemoryTimed].  The integration tests run
    against live services. *)
From stdpp Require Export base tactics gmap strings list fin_maps.
From Stdlib Require Export NArith ZArith Lia.
From Stdlib Require Export Strings.Byte.

(** ** Bytes *)

Abbreviation byte := Byte.byte.
Abbreviation bytes := (list Byte.byte).

#[export] Instance byte_eq_decision : EqDecision byte := Byte.byte_eq_dec.

#[export] Instance byte_countable : Countable byte :=
  inj_countable Byte.to_N Byte.of_N Byte.of_to_N.

(** The numeric value of a byte, 0 to 255. *)
Definition byte_N (b : byte) : N := Byte.to_N b.

Lemma byte_N_inj (a b : byte) : byte_N a = byte_N b → a = b.
Proof.
  intros H. pose proof (Byte.of_to_N a) as Ha. pose proof (Byte.of_to_N b) as Hb.
  unfold byte_N in H. rewrite H in Ha. congruence.
Qed.

Lemma byte_N_bound (a : byte) : (byte_N a < 256)%N.
Proof. pose proof (Byte.to_N_bounded a). unfold byte_N. lia. Qed.

(** The bytes of an ASCII string literal. *)
Definition bstr (s : string) : bytes := String.list_byte_of_string s.

(** ** Automation *)

(** The rewriting and resolution databases that the components extend. *)
Create HintDb omni discriminated.
Create Rewrite HintDb omni.

(** Case analysis on the scrutinee of a match in a hypothesis or the goal,
    followed by the clean-up that every case needs. *)
Ltac split_match :=
  match goal with
  | |- context [match ?x with _ => _ end] =>
      lazymatch x with context [match _ with _ => _ end] => fail | _ => destruct x eqn:? end
  | H : context [match ?x with _ => _ end] |- _ =>
      lazymatch x with context [match _ with _ => _ end] => fail | _ => destruct x eqn:? end
  end; simplify_eq/=.

Ltac split_matches := repeat split_match.

(** Turns the boolean comparisons of the code into propositions. *)
Ltac bool_prop :=
  repeat match goal with
  | H : (_ <? _)%N = true |- _ => apply N.ltb_lt in H
  | H : (_ <? _)%N = false |- _ => apply N.ltb_ge in H
  | H : (_ <=? _)%N = true |- _ => apply N.leb_le in H
  | H : (_ <=? _)%N = false |- _ => apply N.leb_gt in H
  | H : (_ =? _)%N = true |- _ => apply N.eqb_eq in H
  | H : (_ =? _)%N = false |- _ => apply N.eqb_neq in H
  | H : (_ <? _)%Z = true |- _ => apply Z.ltb_lt in H
  | H : (_ <? _)%Z = false |- _ => apply Z.ltb_ge in H
  | H : (_ <=? _)%Z = true |- _ => apply Z.leb_le in H
  | H : (_ <=? _)%Z = false |- _ => apply Z.leb_gt in H
  | H : (_ <? _)%nat = true |- _ => apply Nat.ltb_lt in H
  | H : (_ <? _)%nat = false |- _ => apply Nat.ltb_ge in H
  | H : (_ <=? _)%nat = true |- _ => apply Nat.leb_le in H
  | H : (_ <=? _)%nat = false |- _ => apply Nat.leb_gt in H
  | H : (_ && _)%bool = true |- _ => apply andb_true_iff in H as [? ?]
  end.

(** ** Lists *)

Section lists.
Context {A : Type}.
Implicit Types l k : list A.

(** Removes the first occurrence of [x]: what [LREM key 1 x] removes. *)
Fixpoint remove_first `{EqDecision A} (x : A) l : list A :=
  match l with
  | [] => []
  | y :: l' => if decide (x = y) then l' else y :: remove_first x l'
  end.

Lemma remove_first_head `{EqDecision A} x l : remove_first x (x :: l) = l.
Proof. simpl. by rewrite decide_True. Qed.

Lemma remove_first_notin `{EqDecision A} x l : x ∉ l → remove_first x l = l.
Proof.
  induction l as [|y l IH]; intros Hx; simpl; [done|].
  rewrite decide_False by set_solver. f_equal. set_solver.
Qed.

Lemma remove_first_app_notin `{EqDecision A} x k l :
  x ∉ k → remove_first x (k ++ l) = k ++ remove_first x l.
Proof.
  induction k as [|y k IH]; intros Hx; simpl; [done|].
  rewrite decide_False by set_solver. f_equal. set_solver.
Qed.

Lemma remove_first_middle `{EqDecision A} x k l :
  x ∉ k → remove_first x (k ++ x :: l) = k ++ l.
Proof. intros. by rewrite remove_first_app_notin, remove_first_head. Qed.

Lemma remove_first_sublist `{EqDecision A} x l : remove_first x l `sublist_of` l.
Proof.
  induction l as [|y l IH]; simpl; [done|].
  case_decide; [by apply sublist_cons|by apply sublist_skip].
Qed.

Lemma remove_first_NoDup `{EqDecision A} x l : NoDup l → NoDup (remove_first x l).
Proof. intros H. eapply sublist_NoDup; [done|]. apply remove_first_sublist. Qed.

Lemma remove_first_elem_ne `{EqDecision A} x y l :
  x ≠ y → y ∈ remove_first x l ↔ y ∈ l.
Proof.
  intros Hne. induction l as [|z l IH]; simpl; [done|].
  case_decide as Hd; rewrite !elem_of_cons, ?IH; naive_solver.
Qed.

Lemma remove_first_NoDup_notin `{EqDecision A} x l :
  NoDup l → x ∉ remove_first x l.
Proof.
  induction 1 as [|y l Hy Hl IH]; simpl; [set_solver|].
  case_decide as Hd; [by rewrite Hd|]. rewrite elem_of_cons. naive_solver.
Qed.

Lemma remove_first_perm `{EqDecision A} x l : x ∈ l → l ≡ₚ x :: remove_first x l.
Proof.
  induction l as [|y l IH]; simpl; [by rewrite elem_of_nil|]. intros Hx.
  case_decide as Hd; [by subst|]. rewrite (IH ltac:(set_solver)) at 1. constructor.
Qed.

(** Removing one element of a batch leaves room for the rest of the batch. *)
Lemma remove_first_submseteq `{EqDecision A} x k l :
  x :: k ⊆+ l → k ⊆+ remove_first x l.
Proof.
  intros H. assert (x ∈ l) as Hx by (eapply elem_of_submseteq; [|exact H]; by left).
  rewrite (remove_first_perm x l Hx) in H. by apply (submseteq_app_inv_l _ _ [x]).
Qed.

Lemma filter_all (P : A → Prop) `{∀ x, Decision (P x)} l : Forall P l → filter P l = l.
Proof. induction 1 as [|x l Hx _ IH]; [done|]. by rewrite filter_cons_True, IH. Qed.

Lemma filter_none (P : A → Prop) `{∀ x, Decision (P x)} l :
  Forall (λ x, ¬ P x) l → filter P l = [].
Proof. induction 1 as [|x l Hx _ IH]; [done|]. by rewrite filter_cons_False, IH. Qed.

Lemma filter_same (P1 P2 : A → Prop) `{∀ x, Decision (P1 x), ∀ x, Decision (P2 x)} l :
  Forall (λ x, P1 x ↔ P2 x) l → filter P1 l = filter P2 l.
Proof.
  induction 1 as [|x l Hx _ IH]; [done|]. destruct (decide (P1 x)).
  - rewrite !filter_cons_True by tauto. by f_equal.
  - by rewrite !filter_cons_False by tauto.
Qed.

(** Removing, one after the other, the elements of a prefix removes the
    prefix: the loop [for payload in old { LREM key 1 payload }] run on a
    batch that was read from the head of the list. *)
Lemma remove_prefix `{EqDecision A} k l :
  foldl (λ acc x, remove_first x acc) (k ++ l) k = l.
Proof. induction k as [|x k IH]; simpl; [done|]. by rewrite decide_True. Qed.

(** The last element of a list read from its tail. *)
Lemma last_reverse_cons l x : last l = Some x ↔ ∃ k, l = k ++ [x].
Proof. apply last_Some. Qed.

(** Trading [D0] for [D2] when [X] has been added and [C] taken out. *)
Lemma Permutation_exchange (E X C F D0 D2 : list A) :
  E ++ X ≡ₚ C ++ F → C ++ D0 ≡ₚ X ++ D2 → E ++ D0 ≡ₚ F ++ D2.
Proof.
  intros H1 H2. apply (Permutation_app_inv_l X).
  transitivity ((E ++ X) ++ D0); [solve_Permutation|]. rewrite H1.
  transitivity (F ++ (C ++ D0)); [solve_Permutation|]. rewrite H2. solve_Permutation.
Qed.
End lists.

#[export] Hint Resolve remove_first_NoDup remove_first_sublist : omni.
