(* ===== verification/RustStd.v ===== *)
(** * The parts of Rust's core and standard library that omniqueue uses

    Results and panics, 64-bit integers and their decimal text, UTF-8,
    slices, byte-string order, [Duration] and [SystemTime].  Each definition
    follows the documented behaviour of the function it is named after. *)
From S2P Require Import Prelude.

Open Scope N_scope.

(** ** [Result] and panics *)

Inductive result (A E : Type) : Type :=
| Ok (a : A)
| Err (e : E).
Arguments Ok {A E} a.
Arguments Err {A E} e.

Definition map_err {A E F} (f : E → F) (r : result A E) : result A F :=
  match r with Ok a => Ok a | Err e => Err (f e) end.
Definition result_map {A B E} (f : A → B) (r : result A E) : result B E :=
  match r with Ok a => Ok (f a) | Err e => Err e end.
Definition and_then {A B E} (r : result A E) (f : A → result B E) : result B E :=
  match r with Ok a => f a | Err e => Err e end.
Definition ok_or {A E} (o : option A) (e : E) : result A E :=
  match o with Some a => Ok a | None => Err e end.

(** [iter.collect::<Result<Vec<_>, _>>()]: all values, or the first error. *)
Fixpoint collect_results {A E} (l : list (result A E)) : result (list A) E :=
  match l with
  | [] => Ok []
  | Ok a :: l' => result_map (cons a) (collect_results l')
  | Err e :: _ => Err e
  end.

Lemma collect_results_Ok {A E} (l : list (result A E)) xs :
  collect_results l = Ok xs ↔ l = Ok <$> xs.
Proof.
  split.
  - revert xs. induction l as [|[a|e] l IH]; intros xs; simpl; [by intros [= <-]| |done].
    destruct (collect_results l) as [ys|e]; simpl; [|done].
    intros [= <-]. simpl. f_equal. by apply IH.
  - intros ->. induction xs as [|x xs IH]; csimpl; [done|]. by rewrite IH.
Qed.

Lemma collect_results_Err {A E} (l : list (result A E)) e :
  collect_results l = Err e ↔ ∃ xs k, l = (Ok <$> xs) ++ Err e :: k.
Proof.
  split.
  - induction l as [|[a|e'] l IH]; simpl; [done| |].
    + destruct (collect_results l) as [ys|e'']; simpl; [done|].
      intros [= ->]. destruct IH as (xs&k&->); [done|]. by exists (a :: xs), k.
    + intros [= ->]. by exists [], l.
  - intros (xs&k&->). induction xs as [|x xs IH]; csimpl; [done|]. by rewrite IH.
Qed.

Lemma collect_fmap_Ok {A B E} (f : A → result B E) l xs :
  collect_results (f <$> l) = Ok xs ↔ Forall2 (λ a x, f a = Ok x) l xs.
Proof.
  split.
  - revert xs. induction l as [|a l IH]; intros xs; csimpl; [by intros [= <-]|].
    destruct (f a) as [x|e] eqn:Ha; [|done].
    destruct (collect_results (f <$> l)) as [ys|e]; simpl; [|done].
    intros [= <-]. auto.
  - induction 1 as [|a x l xs Ha _ IH]; csimpl; [done|]. by rewrite Ha, IH.
Qed.

Lemma collect_fmap_Err {A B E} (f : A → result B E) l e :
  collect_results (f <$> l) = Err e ↔
  ∃ good bad rest, l = good ++ bad :: rest ∧ f bad = Err e ∧ Forall (λ a, ∃ x, f a = Ok x) good.
Proof.
  split.
  - induction l as [|a l IH]; csimpl; [done|].
    destruct (f a) as [x|e'] eqn:Ha.
    + destruct (collect_results (f <$> l)) as [ys|e'']; simpl; [done|].
      intros [= ->]. destruct IH as (good&bad&rest&->&Hb&Hg); [done|].
      exists (a :: good), bad, rest. split_and!; [done..|]. constructor; eauto.
    + intros [= ->]. by exists [], a, l.
  - intros (good&bad&rest&->&Hb&Hg). induction Hg as [|a good [x Ha] _ IH]; csimpl.
    + by rewrite Hb.
    + by rewrite Ha, IH.
Qed.

(** A computation of safe Rust that may panic. *)
Inductive outcome (A : Type) : Type :=
| Done (a : A)
| Panics.
Arguments Done {A} a.
Arguments Panics {A}.

Definition outcome_bind {A B} (o : outcome A) (f : A → outcome B) : outcome B :=
  match o with Done a => f a | Panics => Panics end.

(** [let x = e?;] inside a function whose result is a [Result]. *)
Definition outcome_try {A B E} (o : outcome (result A E)) (f : A → outcome (result B E))
    : outcome (result B E) :=
  match o with
  | Done (Ok a) => f a
  | Done (Err e) => Done (Err e)
  | Panics => Panics
  end.

(** [iter.map(f).collect::<Result<Vec<_>>>()] of an [f] that may panic: it
    runs [f] up to the first error. *)
Fixpoint outcome_collect {A E} (l : list (outcome (result A E))) : outcome (result (list A) E) :=
  match l with
  | [] => Done (Ok [])
  | o :: l' => outcome_try o (λ a, outcome_try (outcome_collect l') (λ xs, Done (Ok (a :: xs))))
  end.

Lemma outcome_collect_Ok {A B E} (f : A → outcome (result B E)) l xs :
  outcome_collect (f <$> l) = Done (Ok xs) ↔ Forall2 (λ a b, f a = Done (Ok b)) l xs.
Proof.
  revert xs. induction l as [|a l IH]; intros xs; cbn [fmap list_fmap outcome_collect].
  - split; [by intros [= <-]|by inversion 1].
  - split.
    + destruct (f a) as [[b|e]|] eqn:Ha; cbn [outcome_try]; [|done..].
      destruct (outcome_collect (f <$> l)) as [[ys|e]|] eqn:Hl; cbn [outcome_try]; [|done..].
      intros [= <-]. constructor; [done|]. by apply IH.
    + inversion 1 as [|? b ? ys Ha Hl]; subst. apply IH in Hl. by rewrite Ha, Hl.
Qed.

(** ** Machine integers ([usize] and [u64] have 64 bits) *)

Definition USIZE_MAX : N := 2 ^ 64 - 1.
Definition ISIZE_MAX : N := 2 ^ 63 - 1.
Definition is_usize (n : N) : Prop := n <= USIZE_MAX.

(** [a + b] on [usize]: with overflow checks (debug profile) it panics,
    without them (release profile) it wraps around. *)
Definition usize_add (overflow_checks : bool) (a b : N) : outcome N :=
  if a + b <=? USIZE_MAX then Done (a + b)
  else if overflow_checks then Panics else Done ((a + b) mod 2 ^ 64).

Lemma usize_add_small oc a b : a + b <= USIZE_MAX → usize_add oc a b = Done (a + b).
Proof. intros H. unfold usize_add. apply N.leb_le in H. by rewrite H. Qed.

Lemma usize_add_bound oc a b m : usize_add oc a b = Done m → is_usize m.
Proof.
  unfold usize_add, is_usize. destruct (N.leb_spec (a + b) USIZE_MAX) as [H|H].
  - by intros [= <-].
  - destruct oc; [done|]. intros [= <-].
    pose proof (N.mod_upper_bound (a + b) (2 ^ 64)) as Hm. unfold USIZE_MAX. lia.
Qed.

(** [Vec::<T>::with_capacity(n)] panics when [n * size_of::<T>()] exceeds
    [isize::MAX]. *)
Definition vec_with_capacity (size_of n : N) : outcome unit :=
  if size_of * n <=? ISIZE_MAX then Done tt else Panics.

(** ** Decimal text *)

Inductive IntErrorKind := Empty | InvalidDigit | PosOverflow.

(** [(c as char).to_digit(10)] *)
Definition to_digit (c : byte) : option N :=
  let n := byte_N c in
  if (48 <=? n) && (n <=? 57) then Some (n - 48) else None.

Fixpoint parse_digits (acc : N) (l : bytes) : result N IntErrorKind :=
  match l with
  | [] => Ok acc
  | c :: l' =>
      match to_digit c with
      | None => Err InvalidDigit
      | Some x =>
          if acc * 10 + x <=? USIZE_MAX then parse_digits (acc * 10 + x) l'
          else Err PosOverflow
      end
  end.

(** [str::parse::<usize>]: one optional leading [+], then decimal digits. *)
Definition parse_usize (s : bytes) : result N IntErrorKind :=
  match s with
  | [] => Err Empty
  | c :: s' =>
      if decide (c = "+"%byte) then
        match s' with [] => Err InvalidDigit | _ => parse_digits 0 s' end
      else parse_digits 0 s
  end.

Definition digit_byte (d : N) : byte :=
  match Byte.of_N (48 + d) with Some b => b | None => "0"%byte end.

Fixpoint decimal_go (fuel : nat) (n : N) (acc : bytes) : bytes :=
  match fuel with
  | O => acc
  | S fuel' =>
      if n <? 10 then digit_byte n :: acc
      else decimal_go fuel' (n / 10) (digit_byte (n mod 10) :: acc)
  end.

(** [usize::to_string]; 20 digits are enough below [2 ^ 64]. *)
Definition usize_to_string (n : N) : bytes := decimal_go 20 n [].

Definition is_digit (c : byte) : Prop := 48 <= byte_N c <= 57.

Lemma byte_N_digit_byte d : d < 10 → byte_N (digit_byte d) = 48 + d.
Proof.
  intros H. unfold digit_byte, byte_N.
  destruct (Byte.of_N (48 + d)) as [b|] eqn:Hb.
  - by apply Byte.to_of_N in Hb.
  - apply Byte.of_N_None_iff in Hb. lia.
Qed.

Lemma to_digit_digit_byte d : d < 10 → to_digit (digit_byte d) = Some d.
Proof.
  intros H. unfold to_digit. rewrite byte_N_digit_byte by done.
  replace (48 <=? 48 + d) with true by (symmetry; apply N.leb_le; lia).
  replace (48 + d <=? 57) with true by (symmetry; apply N.leb_le; lia).
  simpl. f_equal. lia.
Qed.

Lemma digit_byte_is_digit d : d < 10 → is_digit (digit_byte d).
Proof. intros H. unfold is_digit. rewrite byte_N_digit_byte by done. lia. Qed.

Lemma decimal_go_app fuel n acc : decimal_go fuel n acc = decimal_go fuel n [] ++ acc.
Proof.
  revert n acc. induction fuel as [|f IH]; intros n acc; simpl; [done|].
  destruct (n <? 10); [done|].
  rewrite IH. rewrite (IH _ [_]). by rewrite <-app_assoc.
Qed.

Lemma decimal_go_digits fuel n : Forall is_digit (decimal_go fuel n []).
Proof.
  revert n. induction fuel as [|f IH]; intros n; simpl; [done|].
  destruct (N.ltb_spec n 10).
  - constructor; [by apply digit_byte_is_digit|done].
  - rewrite decimal_go_app. apply Forall_app. split; [apply IH|].
    constructor; [|done]. apply digit_byte_is_digit. by apply N.mod_lt.
Qed.

Lemma parse_digits_app a l k :
  parse_digits a (l ++ k) =
  match parse_digits a l with Ok b => parse_digits b k | Err e => Err e end.
Proof.
  revert a. induction l as [|c l IH]; intros a; simpl; [done|].
  destruct (to_digit c); [|done]. by destruct (_ <=? _).
Qed.

Lemma parse_digits_decimal_go fuel n :
  n < 10 ^ N.of_nat fuel → is_usize n → parse_digits 0 (decimal_go fuel n []) = Ok n.
Proof.
  revert n. induction fuel as [|f IH]; intros n Hn Hu.
  { simpl in *. replace n with 0; [done|]. change (10 ^ N.of_nat 0) with 1 in Hn. lia. }
  cbn [decimal_go]. destruct (N.ltb_spec n 10) as [Hlt|Hge].
  - cbn [parse_digits]. rewrite to_digit_digit_byte by done.
    apply N.leb_le in Hu. by rewrite N.mul_0_l, N.add_0_l, Hu.
  - rewrite decimal_go_app, parse_digits_app, IH.
    + cbn [parse_digits]. rewrite to_digit_digit_byte by (by apply N.mod_lt).
      replace (n / 10 * 10 + n mod 10) with n by (pose proof (N.div_mod n 10); lia).
      apply N.leb_le in Hu. by rewrite Hu.
    + replace (N.of_nat (S f)) with (N.succ (N.of_nat f)) in Hn by lia.
      rewrite N.pow_succ_r' in Hn. apply N.Div0.div_lt_upper_bound. lia.
    + unfold is_usize in *. pose proof (N.Div0.div_le_mono n (n * 10) 10).
      assert (n / 10 <= n) by (apply N.Div0.div_le_upper_bound; lia). lia.
Qed.

Lemma usize_to_string_digits n : Forall is_digit (usize_to_string n).
Proof. apply decimal_go_digits. Qed.

Lemma decimal_go_nonempty fuel n : decimal_go (S fuel) n [] ≠ [].
Proof.
  cbn [decimal_go]. destruct (n <? 10); [done|].
  rewrite decimal_go_app. by destruct (decimal_go _ _ []).
Qed.

Lemma usize_to_string_nonempty n : usize_to_string n ≠ [].
Proof. apply decimal_go_nonempty. Qed.

Lemma is_digit_not_plus c : is_digit c → c ≠ "+"%byte.
Proof. intros H ->. unfold is_digit in H. change (byte_N "+"%byte) with 43 in H. lia. Qed.

(** The text of a [usize] parses back to it. *)
Lemma parse_usize_to_string n : is_usize n → parse_usize (usize_to_string n) = Ok n.
Proof.
  intros Hn. unfold parse_usize.
  pose proof (usize_to_string_digits n) as Hd.
  destruct (usize_to_string n) as [|c s] eqn:Hs; [by apply usize_to_string_nonempty in Hs|].
  rewrite decide_False by (apply is_digit_not_plus; by inversion Hd).
  rewrite <-Hs. apply parse_digits_decimal_go; [|done].
  unfold is_usize, USIZE_MAX in Hn.
  assert (2 ^ 64 - 1 < 10 ^ N.of_nat 20) by done. lia.
Qed.

Lemma parse_digits_bound a l n : is_usize a → parse_digits a l = Ok n → is_usize n.
Proof.
  revert a. induction l as [|c l IH]; intros a Ha; simpl; [congruence|].
  destruct (to_digit c); [|done].
  destruct (N.leb_spec (a * 10 + n0) USIZE_MAX); [|done]. by apply IH.
Qed.

Lemma parse_usize_bound s n : parse_usize s = Ok n → is_usize n.
Proof.
  unfold parse_usize. destruct s as [|c s]; [done|].
  assert (is_usize 0) by done.
  destruct (decide _); [destruct s; [done|]|]; by apply parse_digits_bound.
Qed.

(** ** UTF-8 ([str::from_utf8] and [String::from_utf8]) *)

Definition in_range (lo hi : N) (b : byte) : bool := (lo <=? byte_N b) && (byte_N b <=? hi).
Definition cont (b : byte) : bool := in_range 128 191 b.

(** Well-formed UTF-8 byte sequences (Unicode table 3-7, which Rust's
    validation implements). *)
Fixpoint utf8_valid (s : bytes) : bool :=
  match s with
  | [] => true
  | a :: s1 =>
      if byte_N a <? 128 then utf8_valid s1
      else if in_range 194 223 a then
        match s1 with b :: s2 => cont b && utf8_valid s2 | _ => false end
      else if in_range 224 239 a then
        match s1 with
        | b :: c :: s3 =>
            (if byte_N a =? 224 then in_range 160 191 b
             else if byte_N a =? 237 then in_range 128 159 b else cont b)
            && cont c && utf8_valid s3
        | _ => false
        end
      else if in_range 240 244 a then
        match s1 with
        | b :: c :: d :: s4 =>
            (if byte_N a =? 240 then in_range 144 191 b
             else if byte_N a =? 244 then in_range 128 143 b else cont b)
            && cont c && cont d && utf8_valid s4
        | _ => false
        end
      else false
  end.

Definition is_ascii (s : bytes) : Prop := Forall (λ b, byte_N b < 128) s.

Lemma utf8_valid_ascii s : is_ascii s → utf8_valid s = true.
Proof.
  induction 1 as [|a s Ha _ IH]; [done|]. simpl.
  apply N.ltb_lt in Ha. by rewrite Ha.
Qed.

Lemma digits_ascii s : Forall is_digit s → is_ascii s.
Proof. intros H. eapply Forall_impl; [done|]. unfold is_digit. simpl. lia. Qed.

(** A Rust [String]: bytes that are valid UTF-8. *)
Record RString := mkRString { as_bytes : bytes; rstring_utf8 : utf8_valid as_bytes = true }.

Lemma RString_eq (s t : RString) : as_bytes s = as_bytes t → s = t.
Proof.
  destruct s as [s Hs], t as [t Ht]; simpl; intros ->. f_equal.
  apply (proof_irrel _ _).
Qed.

(** [String::from_utf8] *)
Definition from_utf8 (s : bytes) : option RString :=
  (if utf8_valid s as b return utf8_valid s = b → option RString
   then λ H, Some (mkRString s H) else λ _, None) eq_refl.

Lemma from_utf8_spec s :
  match from_utf8 s with
  | Some r => as_bytes r = s
  | None => utf8_valid s = false
  end.
Proof.
  unfold from_utf8. generalize (eq_refl (utf8_valid s)).
  generalize (utf8_valid s) at 2 3 as b. by intros [].
Qed.

Lemma from_utf8_Some s r : from_utf8 s = Some r ↔ as_bytes r = s.
Proof.
  pose proof (from_utf8_spec s) as Hs. destruct (from_utf8 s) as [t|]; split; intros H.
  - by injection H as <-.
  - f_equal. apply RString_eq. congruence.
  - done.
  - subst. by rewrite rstring_utf8 in Hs.
Qed.

Lemma from_utf8_None s : from_utf8 s = None ↔ utf8_valid s = false.
Proof.
  pose proof (from_utf8_spec s) as Hs. destruct (from_utf8 s) as [t|]; split; intros H; try done.
  subst. by rewrite rstring_utf8 in H.
Qed.

(** ** Slices *)

(** [iter().position(p)] *)
Fixpoint position {A} (p : A → bool) (l : list A) : option nat :=
  match l with
  | [] => None
  | x :: l' => if p x then Some O else S <$> position p l'
  end.

(** [&s[a..b]]: panics when [a > b] or [b > s.len()]. *)
Definition slice_range {A} (s : list A) (a b : nat) : outcome (list A) :=
  if (a <=? b)%nat && (b <=? length s)%nat then Done (take (b - a) (drop a s)) else Panics.
(** [&s[..b]] *)
Definition slice_to {A} (s : list A) (b : nat) : outcome (list A) := slice_range s 0 b.
(** [&s[a..]] *)
Definition slice_from {A} (s : list A) (a : nat) : outcome (list A) :=
  slice_range s a (length s).

Lemma position_None {A} (p : A → bool) l : position p l = None ↔ Forall (λ x, p x = false) l.
Proof.
  induction l as [|x l IH]; simpl; [by split|].
  destruct (p x) eqn:Hx; simpl; split.
  - done.
  - intros H; inversion H; congruence.
  - intros H. constructor; [done|]. apply IH. by destruct (position p l).
  - intros H. inversion H; subst. by destruct IH as [_ ->].
Qed.

Lemma position_Some {A} (p : A → bool) l i :
  position p l = Some i ↔
  ∃ k x m, l = k ++ x :: m ∧ length k = i ∧ p x = true ∧ Forall (λ x, p x = false) k.
Proof.
  revert i. induction l as [|y l IH]; intros i; simpl.
  { split; [done|]. intros (k&x&m&Hl&_). by destruct k. }
  destruct (p y) eqn:Hy; split.
  - intros [= <-]. by exists [], y, l.
  - intros ([|z k]&x&m&[=]&<-&Hx&Hk); subst; [done|]. inversion Hk; congruence.
  - destruct (position p l) as [j|] eqn:Hj; [|done]. intros [= <-].
    destruct (proj1 (IH j) eq_refl) as (k&x&m&->&<-&Hx&Hk).
    exists (y :: k), x, m. split_and!; auto.
  - intros ([|z k]&x&m&[=]&<-&Hx&Hk); subst; [congruence|].
    inversion Hk; subst. rewrite (proj2 (IH (length k))); [done|].
    exists k, x, m. done.
Qed.

Lemma position_app {A} (p : A → bool) k x m :
  Forall (λ x, p x = false) k → p x = true → position p (k ++ x :: m) = Some (length k).
Proof. intros. apply position_Some. by exists k, x, m. Qed.

Lemma slice_to_app {A} (k m : list A) : slice_to (k ++ m) (length k) = Done k.
Proof.
  unfold slice_to, slice_range. rewrite length_app. simpl.
  replace (length k <=? length k + length m)%nat with true by (symmetry; apply Nat.leb_le; lia).
  rewrite Nat.sub_0_r, drop_0. by rewrite take_app_length.
Qed.

Lemma slice_from_app {A} (k m : list A) : slice_from (k ++ m) (length k) = Done m.
Proof.
  unfold slice_from, slice_range. rewrite length_app.
  replace (length k <=? length k + length m)%nat with true by (symmetry; apply Nat.leb_le; lia).
  rewrite Nat.leb_refl. simpl. rewrite drop_app_length. f_equal.
  apply take_ge. lia.
Qed.

Lemma slice_range_app {A} (k m n : list A) :
  slice_range (k ++ m ++ n) (length k) (length k + length m) = Done m.
Proof.
  unfold slice_range. rewrite !length_app.
  replace (length k <=? _)%nat with true by (symmetry; apply Nat.leb_le; lia).
  replace (length k + length m <=? _)%nat with true by (symmetry; apply Nat.leb_le; lia).
  simpl. rewrite drop_app_length. replace (_ - _)%nat with (length m) by lia.
  by rewrite take_app_length.
Qed.

Lemma slice_range_crossed {A} (s : list A) a b : (b < a)%nat → slice_range s a b = Panics.
Proof. intros H. unfold slice_range. by apply Nat.leb_gt in H as ->. Qed.

(** [a <= b] on [Vec<u8>]: lexicographic order. *)
Fixpoint bytes_le (a b : bytes) : bool :=
  match a, b with
  | [], _ => true
  | _ :: _, [] => false
  | x :: a', y :: b' =>
      if byte_N x <? byte_N y then true
      else if byte_N y <? byte_N x then false else bytes_le a' b'
  end.

Lemma bytes_le_refl a : bytes_le a a = true.
Proof. induction a as [|x a IH]; simpl; [done|]. by rewrite !N.ltb_irrefl. Qed.

Lemma bytes_le_total a b : bytes_le a b = true ∨ bytes_le b a = true.
Proof.
  revert b. induction a as [|x a IH]; intros [|y b]; simpl; auto.
  destruct (N.ltb_spec (byte_N x) (byte_N y)); [by left|].
  destruct (N.ltb_spec (byte_N y) (byte_N x)); [by right|]. apply IH.
Qed.

Lemma bytes_le_trans a b c : bytes_le a b = true → bytes_le b c = true → bytes_le a c = true.
Proof.
  revert b c. induction a as [|x a IH]; intros [|y b] [|z c]; simpl; try done.
  destruct (N.ltb_spec (byte_N x) (byte_N y)), (N.ltb_spec (byte_N y) (byte_N x)),
    (N.ltb_spec (byte_N y) (byte_N z)), (N.ltb_spec (byte_N z) (byte_N y)),
    (N.ltb_spec (byte_N x) (byte_N z)), (N.ltb_spec (byte_N z) (byte_N x));
    try done; try lia. apply IH.
Qed.

(** [slice.chunks(n)] *)
Fixpoint chunks_go {A} (fuel n : nat) (l : list A) : list (list A) :=
  match fuel, l with
  | O, _ => []
  | _, [] => []
  | S fuel', _ => take n l :: chunks_go fuel' n (drop n l)
  end.
Definition chunks {A} (n : nat) (l : list A) : list (list A) := chunks_go (length l) n l.

Lemma chunks_go_concat {A} fuel n (l : list A) :
  (0 < n)%nat → (length l <= fuel)%nat → concat (chunks_go fuel n l) = l.
Proof.
  intros Hn. revert l. induction fuel as [|f IH]; intros l Hl.
  { destruct l; simpl in *; [done|lia]. }
  destruct l as [|x l]; [done|]. cbn [chunks_go concat].
  rewrite IH; [apply take_drop|]. rewrite length_drop. simpl in *. lia.
Qed.

Lemma chunks_concat {A} n (l : list A) : (0 < n)%nat → concat (chunks n l) = l.
Proof. intros. by apply chunks_go_concat. Qed.

Lemma chunks_size {A} n (l : list A) :
  (0 < n)%nat → Forall (λ c, 0 < length c <= n)%nat (chunks n l).
Proof.
  intros Hn. unfold chunks. generalize (length l) as fuel. intros fuel. revert l.
  induction fuel as [|f IH]; intros l; [by destruct l|].
  destruct l as [|x l]; [done|]. cbn [chunks_go]. constructor; [|apply IH].
  rewrite length_take. simpl. lia.
Qed.

(** ** Time *)

Definition NANOS_PER_SEC : N := 1000000000.

(** [std::time::Duration]: whole seconds and less than a second of
    nanoseconds. *)
Record Duration := mkDuration { secs : N; subsec_nanos : N }.
Definition Duration_ZERO : Duration := mkDuration 0 0.
Definition from_secs (s : N) : Duration := mkDuration s 0.
Definition from_millis (ms : N) : Duration := mkDuration (ms / 1000) (ms mod 1000 * 1000000).
Definition is_duration (d : Duration) : Prop :=
  secs d < 2 ^ 64 ∧ subsec_nanos d < NANOS_PER_SEC.
Definition as_secs (d : Duration) : N := secs d.
Definition as_millis (d : Duration) : N := secs d * 1000 + subsec_nanos d / 1000000.
Definition as_nanos (d : Duration) : N := secs d * NANOS_PER_SEC + subsec_nanos d.

#[export] Instance Duration_eq_decision : EqDecision Duration.
Proof. solve_decision. Defined.

Lemma as_millis_from_millis ms : as_millis (from_millis ms) = ms.
Proof.
  unfold as_millis, from_millis. simpl. rewrite N.div_mul by done.
  pose proof (N.div_mod ms 1000). lia.
Qed.

(** [TryInto] between unsigned and signed integers: fails above the bound. *)
Definition try_into (bound n : N) : option N := if n <=? bound then Some n else None.
Definition I32_MAX : N := 2 ^ 31 - 1.
Definition U32_MAX : N := 2 ^ 32 - 1.
Definition U8_MAX : N := 255.

(** [std::time::SystemTime]: nanoseconds since the Unix epoch.  On Unix the
    whole seconds are an [i64]; arithmetic outside that range panics. *)
Abbreviation SystemTime := Z.
Definition UNIX_EPOCH : SystemTime := 0%Z.
Definition systime_in_range (t : Z) : bool :=
  ((- 2 ^ 63 <=? t / 1000000000) && (t / 1000000000 <? 2 ^ 63))%Z.
Definition systime_add (t : SystemTime) (d : Duration) : outcome SystemTime :=
  let r := (t + Z.of_N (as_nanos d))%Z in if systime_in_range r then Done r else Panics.
Definition systime_sub (t : SystemTime) (d : Duration) : outcome SystemTime :=
  let r := (t - Z.of_N (as_nanos d))%Z in if systime_in_range r then Done r else Panics.
(** [t.duration_since(UNIX_EPOCH)]: an error when [t] is earlier. *)
Definition duration_since_epoch (t : SystemTime) : option Duration :=
  if (t <? 0)%Z then None
  else Some (mkDuration (Z.to_N (t / 1000000000)) (Z.to_N (t mod 1000000000))).

(** The error of [duration_since]. *)
Definition systime_error : string := "second time provided was later than self".

(** [{duration:?}] of a duration of at least one second: seconds, the
    fraction without its trailing zeros, and the unit. *)
Fixpoint strip_zeros (l : bytes) : bytes :=
  match l with
  | [] => []
  | c :: l' =>
      match strip_zeros l' with
      | [] => if bool_decide (c = "0"%byte) then [] else [c]
      | k => c :: k
      end
  end.
Definition debug_duration (d : Duration) : bytes :=
  let digits := usize_to_string (subsec_nanos d) in
  let frac := strip_zeros (replicate (9 - length digits) "0"%byte ++ digits) in
  usize_to_string (secs d) ++ match frac with [] => [] | _ => "."%byte :: frac end ++ ["s"%byte].

(** [std::time::Instant]: nanoseconds since some origin; [t + d] panics when
    the seconds leave an [i64]. *)
Abbreviation Instant := N.
Definition instant_add (t : Instant) (d : Duration) : outcome Instant :=
  let r := t + as_nanos d in if r <? 2 ^ 63 * NANOS_PER_SEC then Done r else Panics.
