(* ===== verification/Effects.v ===== *)
(** * Effectful programs

    An [async fn] of the code is a [prog E A]: a finite tree whose nodes are
    the calls [E X] it makes to code outside the repository (a client
    library, a channel, the clock) and whose branches are the replies.  The
    environment that answers the calls is always a parameter: a [handler]
    runs a program, and an [env_doc] is the documented behaviour that a
    handler may be assumed to have.  [wp] is the total-correctness
    precondition of a program against every documented behaviour. *)
From S2P Require Import Prelude RustStd.

(** ** Programs *)

Inductive prog (E : Type → Type) (A : Type) : Type :=
| Ret (a : A)
| Panic
| OutOfFuel
| Vis {X : Type} (e : E X) (k : X → prog E A).
Arguments Ret {E A} a.
Arguments Panic {E A}.
Arguments OutOfFuel {E A}.
Arguments Vis {E A X} e k.

Definition call {E X} (e : E X) : prog E X := Vis e Ret.

Fixpoint bind {E A B} (p : prog E A) (f : A → prog E B) : prog E B :=
  match p with
  | Ret a => f a
  | Panic => Panic
  | OutOfFuel => OutOfFuel
  | Vis e k => Vis e (λ x, bind (k x) f)
  end.

(** [let x = p.await?;] *)
Definition bind_ok {E A B F} (p : prog E (result A F)) (f : A → prog E (result B F))
    : prog E (result B F) :=
  bind p (λ r, match r with Ok a => f a | Err e => Ret (Err e) end).

(** A pure computation that may panic, inside a program. *)
Definition lift {E A} (o : outcome A) : prog E A :=
  match o with Done a => Ret a | Panics => Panic end.

Declare Scope prog_scope.
Delimit Scope prog_scope with prog.
Bind Scope prog_scope with prog.

(** [let* x := p in k] is [let x = p.await; k]; [let? x := p in k] is
    [let x = p.await?; k]. *)
Notation "'let*' x ':=' p 'in' k" := (bind p (λ x, k))
  (at level 10, x binder, p at level 100, k at level 200) : prog_scope.
Notation "'let?' x ':=' p 'in' k" := (bind_ok p (λ x, k))
  (at level 10, x binder, p at level 100, k at level 200) : prog_scope.
Open Scope prog_scope.

(** A loop with fuel: [body] either goes on with a new state or leaves. *)
Fixpoint loop {E I A} (fuel : nat) (body : I → prog E (I + A)) (i : I) : prog E A :=
  match fuel with
  | O => OutOfFuel
  | S fuel' =>
      let* r := body i in
      match r with inl i' => loop fuel' body i' | inr a => Ret a end
  end.

(** [for x in l { body(x).await?; }] *)
Fixpoint for_each {E A F} (body : A → prog E (result unit F)) (l : list A)
    : prog E (result unit F) :=
  match l with
  | [] => Ret (Ok tt)
  | x :: l' => let? _ := body x in for_each body l'
  end.

(** ** Running a program *)

(** The environment: the state after a call and its reply, or [None] when
    the call blocks. *)
Definition handler (E : Type → Type) (S : Type) := ∀ X, E X → S → option (S * X).

Inductive ran (S A : Type) : Type :=
| Returned (s : S) (a : A)
| Panicked (s : S)
| Exhausted (s : S)
| Blocked (s : S).
Arguments Returned {S A} s a.
Arguments Panicked {S A} s.
Arguments Exhausted {S A} s.
Arguments Blocked {S A} s.

Fixpoint run {E S A} (h : handler E S) (p : prog E A) (s : S) : ran S A :=
  match p with
  | Ret a => Returned s a
  | Panic => Panicked s
  | OutOfFuel => Exhausted s
  | Vis e k => match h _ e s with Some (s', x) => run h (k x) s' | None => Blocked s end
  end.

(** The calls made during a run, oldest first. *)
Fixpoint calls {E S A} (h : handler E S) (p : prog E A) (s : S) : list {X & E X} :=
  match p with
  | Vis e k =>
      existT _ e :: match h _ e s with Some (s', x) => calls h (k x) s' | None => [] end
  | _ => []
  end.

Lemma run_call {E S X} (h : handler E S) (e : E X) s :
  run h (call e) s = match h X e s with Some (s', x) => Returned s' x | None => Blocked s end.
Proof. done. Qed.

Lemma run_bind {E S A B} (h : handler E S) (p : prog E A) (f : A → prog E B) s :
  run h (bind p f) s =
  match run h p s with
  | Returned s' a => run h (f a) s'
  | Panicked s' => Panicked s'
  | Exhausted s' => Exhausted s'
  | Blocked s' => Blocked s'
  end.
Proof.
  revert s. induction p as [a| | |X e k IH]; intros s; simpl; try done.
  destruct (h X e s) as [[s' x]|]; [apply IH|done].
Qed.

Lemma calls_bind {E S A B} (h : handler E S) (p : prog E A) (f : A → prog E B) s :
  calls h (bind p f) s =
  calls h p s ++ match run h p s with Returned s' a => calls h (f a) s' | _ => [] end.
Proof.
  revert s. induction p as [a| | |X e k IH]; intros s; simpl; try done.
  destruct (h X e s) as [[s' x]|]; [|done]. by rewrite IH.
Qed.

Lemma calls_call {E S X} (h : handler E S) (e : E X) s : calls h (call e) s = [existT X e].
Proof. simpl. by destruct (h X e s) as [[]|]. Qed.

(** ** Documented behaviour and preconditions *)

(** What is documented about an environment whose observable state is a [D]:
    [ready e d] says that the call does not block in [d], and
    [doc e d d' x] that it may reply [x] and leave [d']. *)
Record env_doc (E : Type → Type) (D : Type) := EnvDoc {
  ready : ∀ X, E X → D → Prop;
  doc : ∀ X, E X → D → D → X → Prop;
}.
Arguments EnvDoc {E D}.
Arguments ready {E D} _ {X}.
Arguments doc {E D} _ {X}.

Section wp.
Context {E : Type → Type} {D : Type} (R : env_doc E D).

(** Whatever the environment does within its documentation, [p] started in
    [d] returns, without panicking, blocking or running out of fuel, and
    the state and value it returns satisfy [Q]. *)
Fixpoint wp {A} (p : prog E A) (d : D) (Q : D → A → Prop) : Prop :=
  match p with
  | Ret a => Q d a
  | Panic => False
  | OutOfFuel => False
  | Vis e k => ready R e d ∧ ∀ d' x, doc R e d d' x → wp (k x) d' Q
  end.

Lemma wp_mono {A} (p : prog E A) d (Q Q' : D → A → Prop) :
  wp p d Q → (∀ d' a, Q d' a → Q' d' a) → wp p d Q'.
Proof.
  intros Hp HQ. revert d Hp. induction p as [a| | |X e k IH]; intros d; simpl; auto.
  intros [Hr Hk]. split; [done|]. intros d' x Hx. by apply IH, Hk.
Qed.

Lemma wp_bind {A B} (p : prog E A) (f : A → prog E B) d Q :
  wp (bind p f) d Q ↔ wp p d (λ d' a, wp (f a) d' Q).
Proof.
  revert d. induction p as [a| | |X e k IH]; intros d; simpl; try done.
  split; intros [Hr Hk]; (split; [done|]); intros d' x Hx; apply IH, Hk, Hx.
Qed.

Lemma wp_bind_ok {A B F} (p : prog E (result A F)) (f : A → prog E (result B F)) d Q :
  wp (bind_ok p f) d Q ↔
  wp p d (λ d' r, match r with Ok a => wp (f a) d' Q | Err e => Q d' (Err e) end).
Proof.
  unfold bind_ok. rewrite wp_bind.
  split; intros H; eapply wp_mono; eauto; by intros d' [a|e].
Qed.

Lemma wp_Ret {A} (a : A) d (Q : D → A → Prop) : wp (Ret a) d Q ↔ Q d a.
Proof. done. Qed.

Lemma wp_call {X} (e : E X) d Q :
  wp (call e) d Q ↔ ready R e d ∧ ∀ d' x, doc R e d d' x → Q d' x.
Proof. done. Qed.

(** One iteration of a [for] loop at a time: [I done rest] is the loop's
    invariant. *)
Lemma wp_for_each {A F} (body : A → prog E (result unit F)) (I : list A → D → Prop)
    (Q : D → result unit F → Prop) l d :
  I l d →
  (∀ x l' d', I (x :: l') d' →
     wp (body x) d' (λ d'' r, match r with Ok _ => I l' d'' | Err e => Q d'' (Err e) end)) →
  (∀ d', I [] d' → Q d' (Ok tt)) →
  wp (for_each body l) d Q.
Proof.
  intros Hl Hbody Hend. revert d Hl. induction l as [|x l IH]; intros d Hl; simpl; [auto|].
  apply wp_bind_ok. eapply wp_mono; [by apply Hbody|]. intros d' [[]|e]; auto.
Qed.

(** A loop terminates when every iteration either leaves or decreases a
    measure bounded by the fuel. *)
Lemma wp_loop {I A} (body : I → prog E (I + A)) (Inv : nat → I → D → Prop)
    (Q : D → A → Prop) fuel i d n :
  (n < fuel)%nat → Inv n i d →
  (∀ n i d, Inv n i d →
     wp (body i) d (λ d' r, match r with
                            | inl i' => ∃ m, (m < n)%nat ∧ Inv m i' d'
                            | inr a => Q d' a end)) →
  wp (loop fuel body i) d Q.
Proof.
  intros Hf Hi Hbody. revert n i d Hf Hi.
  induction fuel as [|fuel IH]; intros n i d Hf Hi; [lia|]. simpl.
  apply wp_bind. eapply wp_mono; [by apply Hbody|].
  intros d' [i'|a]; [|done]. intros (m&Hm&Hinv). eapply IH; [|done]. lia.
Qed.
End wp.

(** An environment of which more is known than is documented. *)
Definition restrict {E : Type → Type} {D : Type} (R : env_doc E D)
    (known : ∀ X, E X → D → D → X → Prop) : env_doc E D :=
  EnvDoc (@ready E D R) (λ X e d d' x, doc R e d d' x ∧ known X e d d' x).

(** What holds in every documented environment holds in it. *)
Lemma wp_restrict {E : Type → Type} {D A} (R : env_doc E D) known (p : prog E A) d Q :
  wp R p d Q → wp (restrict R known) p d Q.
Proof.
  revert d. induction p as [a| | |X e k IH]; intros d; simpl; try done.
  intros [Hr Hk]. split; [done|]. intros d' x [Hx _]. by apply IH, Hk.
Qed.

(** And so does, besides, what all that is known to happen in it keeps true. *)
Lemma wp_restrict_inv {E : Type → Type} {D A} (R : env_doc E D) known (I : D → Prop)
    (p : prog E A) d Q :
  (∀ X e d d' x, doc R e d d' x → known X e d d' x → I d → I d') →
  I d → wp R p d Q → wp (restrict R known) p d (λ d' a, Q d' a ∧ I d').
Proof.
  intros HI. revert d. induction p as [a| | |X e k IH]; intros d Hd; simpl; try done.
  intros [Hr Hk]. split; [done|]. intros d' x [Hx Hkn]. apply IH; [|by apply Hk].
  by eapply HI.
Qed.

(** ** Lawful environments *)

(** A handler over any state [S] with an observation [view : S → D] that
    behaves as documented. *)
Class Lawful {E : Type → Type} {S D : Type} (R : env_doc E D) (h : handler E S)
    (view : S → D) : Prop := {
  lawful_sound : ∀ X (e : E X) s s' x,
    h X e s = Some (s', x) → doc R e (view s) (view s') x;
  lawful_live : ∀ X (e : E X) s, ready R e (view s) → is_Some (h X e s);
}.

(** [p] started in [s] returns, and the observed state and the value it
    returns satisfy [Q]. *)
Definition returns {E S D A} (h : handler E S) (view : S → D) (p : prog E A) (s : S)
    (Q : D → A → Prop) : Prop :=
  ∃ s' a, run h p s = Returned s' a ∧ Q (view s') a.

(** What [wp] proves holds in every lawful environment. *)
Lemma wp_sound {E S D A} (R : env_doc E D) (h : handler E S) (view : S → D)
    `{!Lawful R h view} (p : prog E A) s Q :
  wp R p (view s) Q → returns h view p s Q.
Proof.
  unfold returns. revert s. induction p as [a| | |X e k IH]; intros s; simpl; try done.
  { intros HQ. by exists s, a. }
  intros [Hr Hk]. destruct (lawful_live X e s Hr) as [[s' x] Hx].
  rewrite Hx. apply IH, Hk. by apply lawful_sound.
Qed.

(** A loop whose body always asks for another round never ends; [P n] is what
    is known after [n] rounds. *)
Lemma run_loop_rounds {E S A} (h : handler E S) (body : unit → prog E (unit + A))
    (P : nat → S → Prop) fuel s n :
  (∀ n s1, P n s1 → ∃ s2, run h (body tt) s1 = Returned s2 (inl tt) ∧ P (Datatypes.S n) s2) →
  P n s → ∃ s', run h (loop fuel body tt) s = Exhausted s' ∧ P (fuel + n)%nat s'.
Proof.
  intros Hbody. revert n s. induction fuel as [|fuel IH]; intros n s Hs; simpl; [eauto|].
  destruct (Hbody n s Hs) as (s2&Hr&Hs2). rewrite run_bind, Hr.
  destruct (IH _ _ Hs2) as (s'&Hs'&HP). exists s'. by rewrite Nat.add_succ_r in HP.
Qed.

Lemma run_loop_forever {E S A} (h : handler E S) (body : unit → prog E (unit + A))
    (P : S → Prop) fuel s :
  (∀ s1, P s1 → ∃ s2, run h (body tt) s1 = Returned s2 (inl tt) ∧ P s2) →
  P s → ∃ s', run h (loop fuel body tt) s = Exhausted s' ∧ P s'.
Proof. intros Hbody. by apply (run_loop_rounds h body (λ _, P) fuel s O). Qed.

Lemma returns_mono {E S D A} (h : handler E S) (view : S → D) (p : prog E A) s
    (Q Q' : D → A → Prop) :
  returns h view p s Q → (∀ d a, Q d a → Q' d a) → returns h view p s Q'.
Proof. intros (s'&a&Hr&HQ) H. exists s', a. auto. Qed.

Lemma returns_bind {E S D A B} (h : handler E S) (view : S → D) (p : prog E A)
    (f : A → prog E B) s Q :
  returns h view (bind p f) s Q ↔
  ∃ s' a, run h p s = Returned s' a ∧ returns h view (f a) s' Q.
Proof.
  unfold returns. rewrite run_bind. split.
  - intros (s'&b&Hr&HQ). destruct (run h p s) as [s1 a| | |] eqn:Hp; try done. eauto 10.
  - intros (s1&a&->&s'&b&Hr&HQ). eauto.
Qed.

(** From a run in a lawful environment to the precondition. *)
Ltac start_wp :=
  match goal with
  | H : Lawful ?R ?h ?view |- returns ?h ?view _ ?s _ =>
      refine (wp_sound R h view _ s _ _); generalize dependent (view s)
  end.

(** Symbolic execution of [wp] goals. *)
Ltac wp_simpl := rewrite ?wp_bind_ok, ?wp_bind, ?wp_call.

(** Calls stay folded under simplification; [wp_call] and [run_call] open
    them. *)
#[global] Opaque call.
