(* ===== verification/Threads.v ===== *)
(** * Programs that run concurrently

    Threads run programs of the same environment, interleaved call by call;
    a thread may be started at any time and may crash between any two calls.
    [books] are an account of what the shared state holds: a program is
    proved on its own, call by call, to pay for all that it takes out
    ([pays]), and then every interleaving of such programs loses nothing
    ([steps_balanced]).  Accounts of parts of the state compose
    ([books_prod]). *)
From S2P Require Import Prelude RustStd Effects.

(** ** Accounts *)

(** Of a state: an invariant that the calls preserve, facts that are assumed
    of every state of a run, and the items that it holds.  Of a call: whether
    programs may make it, the items that it may take out, and those that it
    has certainly put there when it replies [x]. *)
Record books (E : Type → Type) (D I : Type) := Books {
  ok : D → Prop;
  known : D → Prop;
  holdings : D → list I;
  allowed : ∀ X, E X → Prop;
  cost : ∀ X, E X → list I;
  gain : ∀ X, E X → X → list I;
}.
Arguments Books {E D I}.
Arguments ok {E D I} _ _.
Arguments known {E D I} _ _.
Arguments holdings {E D I} _ _.
Arguments allowed {E D I} _ {X} _.
Arguments cost {E D I} _ {X} _.
Arguments gain {E D I} _ {X} _ _.

Section books.
Context {E : Type → Type} {D I : Type} (R : env_doc E D) (soft : I → Prop).

(** The documented calls agree with the account.  An item that is not [soft]
    is unique to whoever owns it: a call that pays one finds it there. *)
Class Sound (B : books E D I) : Prop := call_sound X (e : E X) d d' x :
  ok B d → known B d → known B d' → allowed B e →
  (∀ i, i ∈ cost B e → soft i ∨ i ∈ holdings B d) →
  doc R e d d' x →
  ok B d' ∧ holdings B d ++ gain B e x ⊆+ holdings B d' ++ cost B e.

(** An account of soft items only. *)
Class Soft (B : books E D I) : Prop := {
  soft_holdings d i : i ∈ holdings B d → soft i;
  soft_cost X (e : E X) i : i ∈ cost B e → soft i;
}.

Definition books_prod (A B : books E D I) : books E D I := {|
  ok d := ok A d ∧ ok B d;
  known d := known A d ∧ known B d;
  holdings d := holdings A d ++ holdings B d;
  allowed X e := allowed A e ∧ allowed B e;
  cost X e := cost A e ++ cost B e;
  gain X e x := gain A e x ++ gain B e x;
|}.

(** Sums of what two parts hold. *)
Lemma submseteq_swap {T} (a1 b1 a2 b2 c1 d1 c2 d2 : list T) :
  a1 ++ b1 ⊆+ c1 ++ d1 → a2 ++ b2 ⊆+ c2 ++ d2 →
  (a1 ++ a2) ++ (b1 ++ b2) ⊆+ (c1 ++ c2) ++ (d1 ++ d2).
Proof.
  intros H1 H2. transitivity ((a1 ++ b1) ++ (a2 ++ b2)).
  { apply Permutation_submseteq. solve_Permutation. }
  transitivity ((c1 ++ d1) ++ (c2 ++ d2)); [exact (submseteq_app _ _ _ _ H1 H2)|].
  apply Permutation_submseteq. solve_Permutation.
Qed.

#[export] Instance books_prod_sound A B :
  Sound A → Sound B → Soft B → Sound (books_prod A B).
Proof.
  intros HA HB HS X e d d' x [Hok1 Hok2] [Hk1 Hk2] [Hk1' Hk2'] [Ha1 Ha2] Hfirm Hdoc.
  simpl in *. destruct (HA X e d d' x) as [Hok1' Hsub1]; try done.
  { intros i Hi. destruct (Hfirm i) as [?|[?|?]%elem_of_app]; auto.
    - apply elem_of_app. auto.
    - left. by eapply soft_holdings. }
  destruct (HB X e d d' x) as [Hok2' Hsub2]; try done.
  { intros i Hi. left. by eapply soft_cost. }
  split; [done|]. by apply submseteq_swap.
Qed.

#[export] Instance books_prod_soft A B : Soft A → Soft B → Soft (books_prod A B).
Proof.
  intros HA HB. split; simpl.
  - intros d i [Hi|Hi]%elem_of_app; by eapply soft_holdings in Hi.
  - intros X e i [Hi|Hi]%elem_of_app; by eapply soft_cost in Hi.
Qed.
End books.
Arguments books_prod {E D I} A B.
Infix "⊗" := books_prod (at level 35, right associativity).

(** ** Programs that pay *)

Section pays.
Context {E : Type → Type} {D I : Type} (R : env_doc E D) (B : books E D I).

(** The replies that a call may get in a state that is as it should be. *)
Definition possible {X} (e : E X) (x : X) : Prop :=
  ∃ d d', ok B d ∧ known B d ∧ known B d' ∧ doc R e d d' x.

(** The program owns the credit [m], pays for its calls, and when it returns
    [a] it has the credit [Q a] left.  A program that panics stops there. *)
Fixpoint pays {A} (p : prog E A) (m : list I) (Q : A → list I) : Prop :=
  match p with
  | Ret a => Q a ⊆+ m
  | Panic | OutOfFuel => True
  | Vis e k => allowed B e ∧ ∃ m', cost B e ++ m' ⊆+ m ∧
      ∀ x, possible e x → pays (k x) (gain B e x ++ m') Q
  end.

Lemma pays_mono {A} (p : prog E A) m m' Q Q' :
  pays p m Q → m ⊆+ m' → (∀ a, Q' a ⊆+ Q a) → pays p m' Q'.
Proof.
  revert m m'. induction p as [a| | |X e k IH]; intros m m'; simpl; try done.
  - intros Ha Hm HQ. by rewrite HQ, Ha.
  - intros (He&m1&Hm1&Hk) Hm HQ. split; [done|]. exists m1.
    split; [by rewrite Hm1|]. eauto.
Qed.

Lemma pays_bind {A C} (p : prog E A) (f : A → prog E C) m Q1 Q2 :
  pays p m Q1 → (∀ a, pays (f a) (Q1 a) Q2) → pays (bind p f) m Q2.
Proof.
  intros Hp Hf. revert m Hp. induction p as [a| | |X e k IH]; intros m; simpl; try done.
  - intros Ha. eapply pays_mono; [apply Hf|exact Ha|]. reflexivity.
  - intros (He&m1&Hm1&Hk). split; [done|]. exists m1. split; eauto.
Qed.

Lemma pays_bind_ok {A C F} (p : prog E (result A F)) (f : A → prog E (result C F))
    m (Q1 : A → list I) Q2 :
  pays p m (λ r, match r with Ok a => Q1 a | Err e => Q2 (Err e) end) →
  (∀ a, pays (f a) (Q1 a) Q2) → pays (bind_ok p f) m Q2.
Proof. intros Hp Hf. eapply pays_bind; [exact Hp|]. intros [a|e]; [apply Hf|]. simpl. reflexivity. Qed.

Lemma pays_assoc {A C F} (p : prog E A) (g : A → prog E C) (f : C → prog E F) m Q :
  pays (bind p (λ x, bind (g x) f)) m Q → pays (bind (bind p g) f) m Q.
Proof.
  revert m. induction p as [a| | |X e k IH]; intros m; simpl; try done.
  intros (He&m1&Hm1&Hk). split; [done|]. exists m1. split; eauto.
Qed.

Lemma pays_assoc_ok {A C G F} (p : prog E (result A F)) (g : A → prog E (result C F))
    (f : C → prog E (result G F)) m Q :
  pays (bind_ok p (λ x, bind_ok (g x) f)) m Q → pays (bind_ok (bind_ok p g) f) m Q.
Proof.
  unfold bind_ok. revert m. induction p as [[a|e]| | |X e k IH]; intros m; simpl; try done.
  intros (He&m1&Hm1&Hk). split; [done|]. exists m1. split; eauto.
Qed.

Lemma pays_nil {A} (a : A) m Q : Q a = [] → pays (Ret a) m Q.
Proof. simpl. intros ->. apply submseteq_nil_l. Qed.

Lemma pays_lift {A C} (o : outcome A) (f : A → prog E C) m Q :
  (∀ a, o = Done a → pays (f a) m Q) → pays (bind (lift o) f) m Q.
Proof. intros Hf. destruct o as [a|]; [by apply Hf|done]. Qed.

(** [r?] for a result [r]. *)
Lemma pays_ret {A C F} (r : result A F) (f : A → prog E (result C F)) m Q :
  (∀ a, r = Ok a → pays (f a) m Q) → (∀ e, Q (Err e) = []) → pays (bind_ok (Ret r) f) m Q.
Proof. intros Hf HQ. destruct r as [a|e]; [by apply Hf|by apply pays_nil]. Qed.

(** A call and what follows it. *)
Lemma pays_call {X A} (e : E X) (f : X → prog E A) m m' Q :
  allowed B e → cost B e ++ m' ⊆+ m →
  (∀ x, possible e x → pays (f x) (gain B e x ++ m') Q) →
  pays (bind (call e) f) m Q.
Proof. intros He Hm Hf. split; [done|]. by exists m'. Qed.

Lemma pays_call_free {X A} (e : E X) (f : X → prog E A) m Q :
  allowed B e → cost B e = [] → (∀ x, possible e x → pays (f x) m Q) →
  pays (bind (call e) f) m Q.
Proof.
  intros He Hc Hf. apply (pays_call _ _ _ m); [done|by rewrite Hc|]. intros x Hx.
  eapply pays_mono; [by apply Hf| |by intros]. by apply submseteq_inserts_l.
Qed.

(** A program keeps what it is lent. *)
Lemma pays_frame {A} (p : prog E A) m F Q :
  pays p m Q → pays p (m ++ F) (λ a, Q a ++ F).
Proof.
  revert m. induction p as [a| | |X e k IH]; intros m; simpl; try done.
  - intros Ha. by apply submseteq_skips_r.
  - intros (He&m1&Hm1&Hk). split; [done|]. exists (m1 ++ F). rewrite app_assoc.
    split; [by apply submseteq_skips_r|]. intros x Hx. rewrite app_assoc. auto.
Qed.

Lemma pays_bind_free {A C} (p : prog E A) (f : A → prog E C) m Q :
  pays p [] (λ _, []) → (∀ a, pays (f a) m Q) → pays (bind p f) m Q.
Proof.
  intros Hp Hf. apply (pays_bind _ _ _ (λ _, m)); [|done].
  by apply (pays_frame _ [] m (λ _, [])).
Qed.

Lemma pays_bind_ok_free {A C F} (p : prog E (result A F))
    (f : A → prog E (result C F)) m Q :
  pays p [] (λ _, []) → (∀ a, pays (f a) m Q) → (∀ e, Q (Err e) = []) →
  pays (bind_ok p f) m Q.
Proof.
  intros Hp Hf HQ. apply pays_bind_free; [done|]. intros [a|e]; [apply Hf|].
  by apply pays_nil.
Qed.

(** A call whose error is wrapped by [map_err]. *)
Lemma pays_wrapped {Y Z F} (e : E (result Y Z)) (g : Z → F) m m'
    (Q : result Y F → list I) :
  allowed B e → cost B e ++ m' ⊆+ m →
  (∀ y, possible e (Ok y) → Q (Ok y) ⊆+ gain B e (Ok y) ++ m') →
  (∀ err, Q (Err err) ⊆+ m') →
  pays (bind (call e) (λ r, Ret (map_err g r))) m Q.
Proof.
  intros He Hm HOk HErr. apply (pays_call _ _ _ m'); [done..|].
  intros [y|err] Hx; simpl; [by apply HOk|]. rewrite HErr. by apply submseteq_inserts_l.
Qed.

Lemma pays_wrapped_free {Y Z F} (e : E (result Y Z)) (g : Z → F) m :
  allowed B e → cost B e = [] → pays (bind (call e) (λ r, Ret (map_err g r))) m (λ _, []).
Proof.
  intros He Hc. apply (pays_wrapped _ _ _ []); [done|by rewrite Hc; apply submseteq_nil_l|..];
    intros; apply submseteq_nil_l.
Qed.

(** A call behind [?] that is free, and what follows with the reply it may
    get. *)
Lemma pays_wrapped_ok {Y Z A F} (e : E (result Y Z)) (g : Z → F)
    (f : Y → prog E (result A F)) m Q :
  allowed B e → cost B e = [] → (∀ y, possible e (Ok y) → pays (f y) m Q) →
  (∀ err, Q (Err err) = []) →
  pays (bind_ok (bind (call e) (λ r, Ret (map_err g r))) f) m Q.
Proof.
  intros He Hc Hf HQ. unfold bind_ok. apply pays_assoc, pays_call_free; [done..|].
  intros [y|err] Hx; simpl; [by apply Hf|]. rewrite HQ. apply submseteq_nil_l.
Qed.

Lemma pays_loop {J A} fuel (body : J → prog E (J + A)) i Q :
  (∀ i, pays (body i) [] (λ r, match r with inl _ => [] | inr a => Q a end)) →
  pays (loop fuel body i) [] Q.
Proof.
  intros Hb. revert i. induction fuel as [|fuel IH]; intros i; simpl; [done|].
  eapply pays_bind; [apply Hb|]. intros [i'|a]; [apply IH|]. simpl. reflexivity.
Qed.

(** [J x] is known of the elements that the loop goes over. *)
Lemma pays_for_each {A F} (J : A → Prop) (body : A → prog E (result unit F)) l :
  Forall J l → (∀ x, J x → pays (body x) [] (λ _, [])) → pays (for_each body l) [] (λ _, []).
Proof.
  intros Hl Hb. induction Hl as [|x l Hx _ IH]; simpl; [done|].
  eapply pays_bind_ok with (Q1 := λ _, []); [|by intros []].
  eapply pays_mono; [by apply Hb|done|]. intros [[]|e]; reflexivity.
Qed.
End pays.

(** ** Interleavings *)

Section threads.
Context {E : Type → Type} {D O A : Type} (R : env_doc E D).
(** What may be started, and the program that it runs. *)
Context (program : O → prog E A) (fits : O → Prop).

Definition thread : Type := O * prog E A.

Record system := mkSystem { shared : D; threads : list thread }.

(** An event of a call shows the shared state after it. *)
Inductive event :=
| EvStart (o : O)
| EvCall (d : D)
| EvDone (o : O) (r : A)
| EvCrash.

(** One step of one thread.  A thread whose program panics stays where it
    is. *)
Inductive step : system → event → system → Prop :=
| step_start o d ts :
    fits o → step (mkSystem d ts) (EvStart o) (mkSystem d (ts ++ [(o, program o)]))
| step_call o X (e : E X) k x d d' ts1 ts2 :
    doc R e d d' x →
    step (mkSystem d (ts1 ++ (o, Vis e k) :: ts2)) (EvCall d')
      (mkSystem d' (ts1 ++ (o, k x) :: ts2))
| step_done o r d ts1 ts2 :
    step (mkSystem d (ts1 ++ (o, Ret r) :: ts2)) (EvDone o r) (mkSystem d (ts1 ++ ts2))
| step_crash t d ts1 ts2 :
    step (mkSystem d (ts1 ++ t :: ts2)) EvCrash (mkSystem d (ts1 ++ ts2)).

Inductive steps (s : system) : list event → system → Prop :=
| steps_nil : steps s [] s
| steps_snoc tr s1 ev s2 : steps s tr s1 → step s1 ev s2 → steps s (tr ++ [ev]) s2.

(** The states that a run from [d0] goes through. *)
Definition state_of (ev : event) : list D := match ev with EvCall d => [d] | _ => [] end.
Definition states (d0 : D) (tr : list event) : list D := d0 :: (tr ≫= state_of).

Lemma states_snoc d0 tr ev : states d0 (tr ++ [ev]) = states d0 tr ++ state_of ev.
Proof. unfold states. rewrite bind_app. simpl. by rewrite app_nil_r. Qed.

Lemma shared_states d0 ts tr s : steps (mkSystem d0 ts) tr s → shared s ∈ states d0 tr.
Proof.
  induction 1 as [|tr s1 ev s2 Hs IH Hstep]; [by left|]. rewrite states_snoc.
  apply elem_of_app. inversion Hstep; subst; simpl in *; auto. right. by left.
Qed.

(** A property of the shared state that every documented call preserves. *)
Lemma steps_invariant (J : D → Prop) d0 ts tr s :
  (∀ X (e : E X) d d' x, J d → doc R e d d' x → J d') →
  J d0 → steps (mkSystem d0 ts) tr s → Forall J (states d0 tr) ∧ J (shared s).
Proof.
  intros HJ H0 Hs. induction Hs as [|tr s1 ev s2 Hs IH Hstep]; [by repeat constructor|].
  destruct IH as [IH1 IH2]. rewrite states_snoc, Forall_app.
  inversion Hstep; subst; simpl in *; try done.
  split_and!; [done|constructor; [|done]|]; by eapply HJ.
Qed.

(** What is started in a run. *)
Definition started (tr : list event) : list O :=
  omap (λ ev, if ev is EvStart o then Some o else None) tr.

Lemma started_app tr1 tr2 : started (tr1 ++ tr2) = started tr1 ++ started tr2.
Proof. apply omap_app. Qed.

(** A thread that runs alone is one of the interleavings; it only makes
    calls, and starts nothing. *)
Lemma steps_run_calls {S} (h : handler E S) (view : S → D) `{!Lawful R h view}
    s0 tr ts1 ts2 o p s s' r :
  steps s0 tr (mkSystem (view s) (ts1 ++ (o, p) :: ts2)) → run h p s = Returned s' r →
  ∃ ds, steps s0 (tr ++ (EvCall <$> ds)) (mkSystem (view s') (ts1 ++ (o, Ret r) :: ts2)).
Proof.
  revert tr s. induction p as [a| | |X e k IH]; intros tr s Hs Hr; simpl in Hr; try done.
  - injection Hr as <- <-. exists []. by rewrite app_nil_r.
  - destruct (h X e s) as [[s1 x]|] eqn:He; [|done]. apply lawful_sound in He.
    destruct (IH x (tr ++ [EvCall (view s1)]) s1) as (ds&Hn); [|done|].
    { eapply steps_snoc; [exact Hs|]. by apply step_call. }
    exists (view s1 :: ds). by rewrite <-app_assoc in Hn.
Qed.

Lemma started_calls ds : started (EvCall <$> ds) = [].
Proof. by induction ds. Qed.

Lemma steps_run {S} (h : handler E S) (view : S → D) `{!Lawful R h view}
    s0 tr ts1 ts2 o p s s' r :
  steps s0 tr (mkSystem (view s) (ts1 ++ (o, p) :: ts2)) → run h p s = Returned s' r →
  ∃ tr', started tr' = [] ∧
    steps s0 (tr ++ tr') (mkSystem (view s') (ts1 ++ (o, Ret r) :: ts2)).
Proof.
  intros Hs Hr. destruct (steps_run_calls h view s0 tr ts1 ts2 o p s s' r Hs Hr) as [ds Hn].
  exists (EvCall <$> ds). by rewrite started_calls.
Qed.

(** ** The books balance *)

Context {I : Type} (soft : I → Prop) (B : books E D I) `{!Sound R soft B}.
(** What a program is given when it is started, and what it owes when it is
    done. *)
Context (granted : O → list I) (owed : O → A → list I).

Definition all_owed (tr : list event) : list I :=
  tr ≫= λ ev, if ev is EvDone o r then owed o r else [].
Definition all_granted (tr : list event) : list I :=
  tr ≫= λ ev, if ev is EvStart o then granted o else [].

(** What the threads have earned and not yet spent is in the shared state. *)
Definition balanced (d0 : D) (tr : list event) (s : system) : Prop :=
  ok B (shared s) ∧ (∀ i, i ∈ all_granted tr → soft i) ∧
  ∃ credits : list (list I),
    Forall2 (λ (t : thread) m, pays R B t.2 m (owed t.1)) (threads s) credits ∧
    holdings B d0 ++ all_owed tr ++ concat credits ⊆+ holdings B (shared s) ++ all_granted tr.

Lemma Forall2_middle {T U} (P : T → U → Prop) l1 x l2 k :
  Forall2 P (l1 ++ x :: l2) k →
  ∃ k1 y k2, k = k1 ++ y :: k2 ∧ Forall2 P l1 k1 ∧ P x y ∧ Forall2 P l2 k2.
Proof.
  intros (k1&k'&H1&H2&->)%Forall2_app_inv_l. inversion H2; subst. by eexists _, _, _.
Qed.

Lemma trace_snoc tr ev :
  all_owed (tr ++ [ev]) = all_owed tr ++ (if ev is EvDone o r then owed o r else []) ∧
  all_granted (tr ++ [ev]) = all_granted tr ++ (if ev is EvStart o then granted o else []).
Proof. unfold all_owed, all_granted. rewrite !bind_app. simpl. by rewrite !app_nil_r. Qed.

(** The arithmetic of a call that pays [w] and earns [g]. *)
Lemma submseteq_trade {T} (X C1 C2 m m' w g M M' G : list T) :
  X ++ C1 ++ m ++ C2 ⊆+ M ++ G → w ++ m' ⊆+ m → M ++ g ⊆+ M' ++ w →
  X ++ C1 ++ (g ++ m') ++ C2 ⊆+ M' ++ G.
Proof.
  intros HX Hm HM. apply (submseteq_app_inv_l _ _ w).
  transitivity ((X ++ C1 ++ (w ++ m') ++ C2) ++ g); [apply Permutation_submseteq; solve_Permutation|].
  transitivity ((X ++ C1 ++ m ++ C2) ++ g).
  { apply submseteq_skips_r. do 2 apply submseteq_skips_l. by apply submseteq_skips_r. }
  transitivity ((M ++ G) ++ g); [by apply submseteq_skips_r|].
  transitivity ((M ++ g) ++ G); [apply Permutation_submseteq; solve_Permutation|].
  transitivity ((M' ++ w) ++ G); [by apply submseteq_skips_r|].
  apply Permutation_submseteq. solve_Permutation.
Qed.

(** A call pays from the credit of its thread, which the shared state or the
    grants cover. *)
Lemma step_call_balanced d0 tr o X (e : E X) k x d d' ts1 ts2 :
  balanced d0 tr (mkSystem d (ts1 ++ (o, Vis e k) :: ts2)) →
  known B d → known B d' → doc R e d d' x →
  balanced d0 (tr ++ [EvCall d']) (mkSystem d' (ts1 ++ (o, k x) :: ts2)).
Proof.
  intros (Hok&Hsoft&credits&Hts&Hsub) Hk Hk' Hdoc. unfold balanced.
  destruct (trace_snoc tr (EvCall d')) as [-> ->]. simpl in *. rewrite !app_nil_r.
  apply Forall2_middle in Hts as (m1&m&m2&->&H1&(He&m'&Hm&Hpay)&H2).
  rewrite concat_app in Hsub. simpl in Hsub. rewrite (app_assoc (holdings B d0)) in Hsub.
  destruct (call_sound R soft X e d d' x) as [Hok' Hlaw]; try done.
  { intros i Hi. assert (i ∈ holdings B d ++ all_granted tr) as [Hi'|Hi']%elem_of_app; [|auto..].
    eapply elem_of_submseteq; [|exact Hsub]. rewrite !elem_of_app. right; right; left.
    eapply elem_of_submseteq; [|exact Hm]. rewrite elem_of_app. auto. }
  split_and!; [done|done|]. exists (m1 ++ (gain B e x ++ m') :: m2). split.
  { apply Forall2_app; [done|]. constructor; [|done]. apply Hpay. by exists d, d'. }
  rewrite concat_app. simpl. rewrite (app_assoc (holdings B d0)).
  eapply submseteq_trade; [exact Hsub|exact Hm|exact Hlaw].
Qed.

Context (Hpays : ∀ o, fits o → pays R B (program o) (granted o) (owed o)).
Context (Hgrants : ∀ o i, i ∈ granted o → soft i).

Lemma step_balanced d0 tr s ev s' :
  balanced d0 tr s → known B (shared s) → known B (shared s') → step s ev s' →
  balanced d0 (tr ++ [ev]) s'.
Proof.
  intros Hbal Hk Hk' Hstep.
  inversion Hstep as [o d ts Hfits|o X e k x d d' ts1 ts2 Hdoc|o r d ts1 ts2|t d ts1 ts2];
    subst; simpl in *; [|by eapply step_call_balanced| |];
    destruct Hbal as (Hok&Hsoft&credits&Hts&Hsub); unfold balanced;
    (split; [done|]); match goal with |- context [tr ++ [?ev]] =>
      destruct (trace_snoc tr ev) as [-> ->] end; simpl in *; rewrite ?app_nil_r.
  - split; [intros i [?|?]%elem_of_app; eauto|]. exists (credits ++ [granted o]). split.
    { apply Forall2_app; [done|]. constructor; [|done]. by apply Hpays. }
    rewrite concat_app. simpl. rewrite app_nil_r, !app_assoc.
    apply submseteq_skips_r. by rewrite <-app_assoc.
  - split; [done|]. apply Forall2_middle in Hts as (m1&m&m2&->&H1&Hr&H2). simpl in Hr.
    exists (m1 ++ m2). split; [by apply Forall2_app|].
    etrans; [|exact Hsub]. rewrite !concat_app. simpl. rewrite <-app_assoc.
    do 2 apply submseteq_skips_l. etrans; [|apply submseteq_skips_l, submseteq_skips_r, Hr].
    apply Permutation_submseteq. solve_Permutation.
  - split; [done|]. apply Forall2_middle in Hts as (m1&m&m2&->&H1&_&H2).
    exists (m1 ++ m2). split; [by apply Forall2_app|].
    etrans; [|exact Hsub]. rewrite !concat_app. simpl.
    do 3 apply submseteq_skips_l. by apply submseteq_inserts_l.
Qed.

(** Whatever is interleaved, nothing is lost: what the shared state held at
    the start and what the finished programs owed is there, except for what
    was granted. *)
Lemma steps_balanced d0 tr s :
  ok B d0 → steps (mkSystem d0 []) tr s → Forall (known B) (states d0 tr) →
  ok B (shared s) ∧
  holdings B d0 ++ all_owed tr ⊆+ holdings B (shared s) ++ all_granted tr.
Proof.
  intros H0 Hsteps Hknown.
  assert (balanced d0 tr s) as (Hok&_&credits&_&Hsub).
  { remember (mkSystem d0 []) as s0 eqn:Hs0.
    induction Hsteps as [|tr s1 ev s2 Hs IH Hstep]; subst.
    - split_and!; [done|by intros ? []%not_elem_of_nil|]. exists []. by split; [constructor|].
    - pose proof Hknown as Hall. rewrite states_snoc, Forall_app in Hall.
      destruct Hall as [Hall _]. eapply step_balanced; [by apply IH|..|exact Hstep].
      + apply shared_states in Hs. rewrite Forall_forall in Hall. auto.
      + pose proof (steps_snoc _ _ _ _ _ Hs Hstep) as Hs'. apply shared_states in Hs'.
        rewrite Forall_forall in Hknown. auto. }
  split; [done|]. etrans; [|exact Hsub]. apply submseteq_skips_l. by apply submseteq_inserts_r.
Qed.
End threads.

(** Starting less leaves fewer runs. *)
Lemma steps_mono {E : Type → Type} {D O A : Type} (R : env_doc E D) (program : O → prog E A)
    (fits fits' : O → Prop) s tr s' :
  (∀ o, fits o → fits' o) → steps R program fits s tr s' → steps R program fits' s tr s'.
Proof.
  intros Hf. induction 1 as [|tr s1 ev s2 Hs IH Hstep]; [constructor|].
  eapply steps_snoc; [exact IH|]. inversion Hstep; subst; constructor; auto.
Qed.

(** A run starts nothing but what it starts. *)
Lemma steps_only {E : Type → Type} {D O A : Type} (R : env_doc E D) (program : O → prog E A)
    (fits : O → Prop) s tr s' :
  steps R program fits s tr s' →
  steps R program (λ o, fits o ∧ o ∈ started tr) s tr s'.
Proof.
  induction 1 as [|tr s1 ev s2 Hs IH Hstep]; [constructor|].
  eapply steps_snoc; [|inversion Hstep; subst; constructor; try done].
  - eapply steps_mono; [|exact IH]. intros o [Ho Hin]. split; [done|].
    rewrite started_app. apply elem_of_app. by left.
  - split; [done|]. rewrite started_app. apply elem_of_app. right. by left.
Qed.

Arguments mkSystem {E D O A} _ _.
Arguments EvStart {D O A} _.
Arguments EvCall {D O A} _.
Arguments EvDone {D O A} _ _.
Arguments EvCrash {D O A}.
Arguments shared {E D O A} _.
Arguments threads {E D O A} _.
