(* ===== verification/Omniqueue.v ===== *)
(** * The crate root ([omniqueue/src/lib.rs])

    [QueueError], the [QueuePayload] trait with its three implementations,
    and the interfaces to [serde_json], whose text is a parameter. *)
From S2P Require Import Prelude RustStd.

(** [dyn std::error::Error]: its [Display] text and its [source()]. *)
Inductive StdError := StdErr (display : string) (source : option StdError).

Definition display (e : StdError) : string := let 'StdErr s _ := e in s.
Definition error_source (e : StdError) : option StdError := let 'StdErr _ o := e in o.

(** [Box::<dyn Error>::from(&str)] *)
Definition boxed (s : string) : StdError := StdErr s None.

(** [std::num::ParseIntError] *)
Definition parse_int_error (k : IntErrorKind) : StdError :=
  boxed match k with
        | Empty => "cannot parse integer from empty string"
        | InvalidDigit => "invalid digit found in string"
        | PosOverflow => "number too large to fit in target type"
        end.

(** [std::num::TryFromIntError] *)
Definition try_from_int_error : StdError :=
  boxed "out of range integral type conversion attempted".

(** [std::string::FromUtf8Error]; its text is not looked at. *)
Definition from_utf8_error : StdError := boxed "invalid utf-8 sequence".

Inductive QueueError :=
| CannotCreateHalf
| CannotAckOrNackTwice
| NoData
| Serde (e : StdError)
| PayloadTooLarge (actual limit : N)
| Generic (e : StdError)
| Unsupported (s : string).

Abbreviation Result A := (result A QueueError).

Module QueueError.
(** [QueueError::generic] *)
Definition generic (e : StdError) : QueueError := Generic e.
End QueueError.

(** ** [serde_json] *)

(** A type [P] that [serde_json] serializes, to bytes and to a [String]. *)
Class Serialize (P : Type) := {
  to_vec : P → result bytes StdError;
  to_string : P → result RString StdError;
}.

(** [serde_json]'s documentation: both give the same JSON text. *)
Class SerializeOk (P : Type) `{Serialize P} : Prop :=
  to_string_to_vec : ∀ p : P, to_vec p = result_map as_bytes (to_string p).

Class DeserializeOwned (T : Type) := from_slice : bytes → result T StdError.

(** ** [QueuePayload] *)

Class QueuePayload (P : Type) := {
  to_bytes_naive : P → Result bytes;
  from_bytes_naive : bytes → Result P;
}.

Module VecPayload.
Definition to_bytes_naive (p : bytes) : Result bytes := Ok p.
Definition from_bytes_naive (b : bytes) : Result bytes := Ok b.
End VecPayload.

Module StringPayload.
Definition to_bytes_naive (p : RString) : Result bytes := Ok (as_bytes p).
Definition from_bytes_naive (b : bytes) : Result RString :=
  map_err QueueError.generic (ok_or (from_utf8 b) from_utf8_error).
End StringPayload.

Module JsonPayload.
Section json.
Context {Value : Type} `{Serialize Value, DeserializeOwned Value}.
Definition to_bytes_naive (p : Value) : Result bytes := map_err Serde (to_vec p).
Definition from_bytes_naive (b : bytes) : Result Value := map_err Serde (from_slice b).
End json.
End JsonPayload.

#[export] Instance vec_payload : QueuePayload bytes :=
  {| to_bytes_naive := VecPayload.to_bytes_naive;
     from_bytes_naive := VecPayload.from_bytes_naive |}.
#[export] Instance string_payload : QueuePayload RString :=
  {| to_bytes_naive := StringPayload.to_bytes_naive;
     from_bytes_naive := StringPayload.from_bytes_naive |}.
Definition json_payload {Value} `{Serialize Value, DeserializeOwned Value} : QueuePayload Value :=
  {| to_bytes_naive := JsonPayload.to_bytes_naive;
     from_bytes_naive := JsonPayload.from_bytes_naive |}.

(** A payload type whose two conversions are inverse to each other. *)
Class PayloadRoundtrip (P : Type) `{QueuePayload P} : Prop := {
  payload_from_to : ∀ (p : P) b, to_bytes_naive p = Ok b → from_bytes_naive b = Ok p;
  payload_to_from : ∀ b (p : P), from_bytes_naive b = Ok p → to_bytes_naive p = Ok b;
}.

#[export] Instance vec_roundtrip : PayloadRoundtrip bytes.
Proof. split; naive_solver. Qed.

Lemma string_from_bytes_Ok b (r : RString) :
  StringPayload.from_bytes_naive b = Ok r ↔ as_bytes r = b.
Proof.
  unfold StringPayload.from_bytes_naive. pose proof (from_utf8_Some b r) as Hs.
  destruct (from_utf8 b) as [t|]; simpl; naive_solver.
Qed.

Lemma string_from_bytes_Err b e :
  StringPayload.from_bytes_naive b = Err e ↔
  utf8_valid b = false ∧ e = Generic from_utf8_error.
Proof.
  unfold StringPayload.from_bytes_naive. rewrite <-from_utf8_None.
  destruct (from_utf8 b); simpl; naive_solver.
Qed.

#[export] Instance string_roundtrip : PayloadRoundtrip RString.
Proof.
  split; simpl; unfold StringPayload.to_bytes_naive.
  - intros p b [= <-]. by apply string_from_bytes_Ok.
  - intros b p Hp. by apply string_from_bytes_Ok in Hp as <-.
Qed.

#[export] Hint Rewrite string_from_bytes_Ok : omni.

(** A batch of values is serialized as a whole, or the first value that does
    not serialize gives the error. *)
Definition unserializable {V} `{Serialize V} (vs : list V) (e : QueueError) : Prop :=
  ∃ good bad rest err, vs = good ++ bad :: rest ∧
    Forall (λ v, ∃ b, to_vec v = Ok b) good ∧ to_vec bad = Err err ∧ e = Serde err.

Lemma collect_json {V} `{Serialize V} (vs : list V) :
  match collect_results ((λ v, map_err Serde (to_vec v)) <$> vs) with
  | Ok texts => Forall2 (λ v b, to_vec v = Ok b) vs texts
  | Err e => unserializable vs e
  end.
Proof.
  destruct (collect_results _) as [texts|e] eqn:Hc.
  - apply collect_fmap_Ok in Hc. eapply Forall2_impl; [exact Hc|].
    intros v b Hv. simpl in Hv. by destruct (to_vec v); simplify_eq/=.
  - apply collect_fmap_Err in Hc as (good&bad&rest&->&Hb&Hg).
    destruct (to_vec bad) as [|err] eqn:Hbad; simplify_eq/=.
    exists good, bad, rest, err. split_and!; [done| |done|done].
    eapply Forall_impl; [exact Hg|]. intros v [b Hv]. simpl in Hv.
    destruct (to_vec v) as [b'|]; simplify_eq/=; eauto.
Qed.
