(* ===== verification/Queue.v ===== *)
(** * The queue traits ([omniqueue/src/queue], [scheduled], [builder.rs])

    Traits are classes, with the bodies of their default methods as
    definitions; [Box<dyn ...>] wrappers are records of closures, or an
    existential package where methods take [&mut self].  A method that
    mutates [self] returns the new [self]. *)
From S2P Require Import Prelude RustStd Effects Omniqueue.

(** ** Ackers ([queue/acker.rs]) *)

Class Acker (E : Type → Type) (A : Type) := {
  ack : A → prog E (A * Result unit);
  nack : A → prog E (A * Result unit);
  set_ack_deadline : A → Duration → prog E (A * Result unit);
}.

(** [DynAckerInner<C>] implements [ErasedAcker] by delegation. *)
Record DynAckerInner (C : Type) := mkDynAckerInner { acker_inner : C }.
Arguments mkDynAckerInner {C}.
Arguments acker_inner {C}.

#[export] Instance ErasedAcker {E C} `{Acker E C} : Acker E (DynAckerInner C) := {|
  ack a := let* '(c, r) := ack (acker_inner a) in Ret (mkDynAckerInner c, r);
  nack a := let* '(c, r) := nack (acker_inner a) in Ret (mkDynAckerInner c, r);
  set_ack_deadline a d :=
    let* '(c, r) := set_ack_deadline (acker_inner a) d in Ret (mkDynAckerInner c, r);
|}.

(** [DynAcker(SyncWrapper<Box<dyn ErasedAcker>>)] *)
Record DynAcker (E : Type → Type) := mkDynAcker {
  erased : Type;
  erased_acker : Acker E erased;
  erased_inner : erased;
}.
Arguments mkDynAcker {E} _ _ _.
Arguments erased {E}.
Arguments erased_acker {E}.
Arguments erased_inner {E}.

Definition DynAcker_new {E C} `{Acker E C} (inner : C) : DynAcker E :=
  mkDynAcker (DynAckerInner C) _ (mkDynAckerInner inner).

#[export] Instance DynAcker_acker {E} : Acker E (DynAcker E) := {|
  ack d := let* '(c, r) := @ack _ _ (erased_acker d) (erased_inner d) in
           Ret (mkDynAcker (erased d) (erased_acker d) c, r);
  nack d := let* '(c, r) := @nack _ _ (erased_acker d) (erased_inner d) in
            Ret (mkDynAcker (erased d) (erased_acker d) c, r);
  set_ack_deadline d t :=
    let* '(c, r) := @set_ack_deadline _ _ (erased_acker d) (erased_inner d) t in
    Ret (mkDynAcker (erased d) (erased_acker d) c, r);
|}.

(** ** Deliveries ([queue/mod.rs]) *)

Record Delivery (E : Type → Type) := mkDelivery {
  d_payload : option bytes;
  d_acker : DynAcker E;
}.
Arguments mkDelivery {E}.
Arguments d_payload {E}.
Arguments d_acker {E}.

Module Delivery.
Section delivery.
Context {E : Type → Type}.
Implicit Types d : Delivery E.

Definition new {A} `{Acker E A} (p : bytes) (acker : A) : Delivery E :=
  mkDelivery (Some p) (DynAcker_new acker).

(** [ack(self)]: on failure the delivery comes back with the error. *)
Definition ack d : prog E (result unit (QueueError * Delivery E)) :=
  let* '(a, r) := Queue.ack (d_acker d) in
  Ret (map_err (λ e, (e, mkDelivery (d_payload d) a)) r).

Definition nack d : prog E (result unit (QueueError * Delivery E)) :=
  let* '(a, r) := Queue.nack (d_acker d) in
  Ret (map_err (λ e, (e, mkDelivery (d_payload d) a)) r).

(** Feature [beta]. *)
Definition set_ack_deadline d (t : Duration) : prog E (Delivery E * Result unit) :=
  let* '(a, r) := Queue.set_ack_deadline (d_acker d) t in
  Ret (mkDelivery (d_payload d) a, r).

Definition take_payload d : option bytes * Delivery E :=
  (d_payload d, mkDelivery None (d_acker d)).

Definition borrow_payload d : option bytes := d_payload d.

Definition payload_serde_json {T} `{DeserializeOwned T} d : Result (option T) :=
  match d_payload d with
  | None => Ok None
  | Some b => map_err Serde (result_map Some (from_slice b))
  end.
End delivery.
End Delivery.

(** ** Producers ([queue/producer.rs]) *)

Class QueueProducer (E : Type → Type) (P : Type) := {
  Payload : Type;
  producer_payload :: QueuePayload Payload;
  send_raw : P → Payload → prog E (Result unit);
  redrive_dlq : P → prog E (Result unit);
  send_raw_batch : P → list Payload → prog E (Result unit);
  send_bytes : P → bytes → prog E (Result unit);
  send_bytes_batch : P → list bytes → prog E (Result unit);
  send_serde_json : ∀ {V} `{Serialize V}, P → V → prog E (Result unit);
  send_serde_json_batch : ∀ {V} `{Serialize V}, P → list V → prog E (Result unit);
}.

(** The default bodies of the trait's methods, over the methods they call. *)
Module ProducerDefaults.
Section defaults.
Context {E : Type → Type} {P Pay : Type} `{QueuePayload Pay}.

Definition send_raw_batch (send_raw : P → Pay → prog E (Result unit))
    (self : P) (payloads : list Pay) : prog E (Result unit) :=
  for_each (send_raw self) payloads.

Definition send_bytes (send_raw : P → Pay → prog E (Result unit))
    (self : P) (payload : bytes) : prog E (Result unit) :=
  let? p := Ret (from_bytes_naive payload) in send_raw self p.

Definition send_bytes_batch (send_raw_batch : P → list Pay → prog E (Result unit))
    (self : P) (payloads : list bytes) : prog E (Result unit) :=
  let? ps := Ret (collect_results (from_bytes_naive <$> payloads)) in
  send_raw_batch self ps.

Definition send_serde_json (send_bytes : P → bytes → prog E (Result unit))
    {V} `{Serialize V} (self : P) (v : V) : prog E (Result unit) :=
  let? payload := Ret (map_err Serde (to_vec v)) in send_bytes self payload.

Definition send_serde_json_batch (send_raw_batch : P → list Pay → prog E (Result unit))
    {V} `{Serialize V} (self : P) (payloads : list V) : prog E (Result unit) :=
  let? ps := Ret (collect_results
    ((λ v, and_then (map_err Serde (to_vec v)) from_bytes_naive) <$> payloads)) in
  send_raw_batch self ps.
End defaults.
End ProducerDefaults.

(** [omni_delegate!] ([macros.rs]): in an impl of the trait, each method that
    is named defers to the inherent method of the same name. *)
Module Delegate.
Section arms.
Context {E : Type → Type} {P Pay : Type}.

Definition send_raw (inherent : P → Pay → prog E (Result unit)) : P → Pay → prog E (Result unit) :=
  λ self payload, inherent self payload.
Definition send_serde_json (inherent : ∀ V (_ : Serialize V), P → V → prog E (Result unit)) :
    ∀ V (_ : Serialize V), P → V → prog E (Result unit) :=
  λ V _ self payload, inherent V _ self payload.
Definition send_raw_scheduled (inherent : P → Pay → Duration → prog E (Result unit)) :
    P → Pay → Duration → prog E (Result unit) :=
  λ self payload delay, inherent self payload delay.
Definition send_serde_json_scheduled
    (inherent : ∀ V (_ : Serialize V), P → V → Duration → prog E (Result unit)) :
    ∀ V (_ : Serialize V), P → V → Duration → prog E (Result unit) :=
  λ V _ self payload delay, inherent V _ self payload delay.
Definition redrive_dlq (inherent : P → prog E (Result unit)) : P → prog E (Result unit) :=
  λ self, inherent self.
End arms.

Section producer.
Context {E : Type → Type} {P Pay : Type} `{QueuePayload Pay}.

(** [omni_delegate!(send_raw, send_serde_json, redrive_dlq)] beside methods
    for batches. *)
Definition producer_with (raw : P → Pay → prog E (Result unit))
    (json : ∀ V (_ : Serialize V), P → V → prog E (Result unit))
    (redrive : P → prog E (Result unit))
    (raw_batch : P → list Pay → prog E (Result unit))
    (json_batch : ∀ V (_ : Serialize V), P → list V → prog E (Result unit))
    : QueueProducer E P := {|
  Payload := Pay;
  Queue.send_raw := send_raw raw;
  Queue.redrive_dlq := redrive_dlq redrive;
  send_raw_batch := raw_batch;
  send_bytes := ProducerDefaults.send_bytes raw;
  send_bytes_batch := ProducerDefaults.send_bytes_batch raw_batch;
  Queue.send_serde_json := send_serde_json json;
  send_serde_json_batch := json_batch;
|}.

(** The same where the methods for batches keep their default bodies. *)
Definition producer (raw : P → Pay → prog E (Result unit))
    (json : ∀ V (_ : Serialize V), P → V → prog E (Result unit))
    (redrive : P → prog E (Result unit)) : QueueProducer E P :=
  let raw_batch := ProducerDefaults.send_raw_batch raw in
  producer_with raw json redrive raw_batch
    (λ V _, ProducerDefaults.send_serde_json_batch raw_batch).
End producer.
End Delegate.

(** [DynProducer(Box<dyn ErasedQueueProducer>)] *)
Record DynProducer (E : Type → Type) := mkDynProducer {
  erased_send_raw : bytes → prog E (Result unit);
  erased_redrive_dlq : prog E (Result unit);
}.
Arguments mkDynProducer {E}.
Arguments erased_send_raw {E}.
Arguments erased_redrive_dlq {E}.

Module DynProducer.
Section dyn.
Context {E : Type → Type}.

(** [DynProducer::new]; [DynProducerInner] forwards to [inner]. *)
Definition new {P} `{QueueProducer E P} (inner : P) : DynProducer E :=
  mkDynProducer (λ payload, Queue.send_bytes inner payload) (Queue.redrive_dlq inner).

Definition send_raw (self : DynProducer E) (payload : bytes) : prog E (Result unit) :=
  erased_send_raw self payload.

Definition send_serde_json {V} `{Serialize V} (self : DynProducer E) (v : V)
    : prog E (Result unit) :=
  let? payload := Ret (map_err Serde (to_vec v)) in send_raw self payload.

Definition redrive_dlq (self : DynProducer E) : prog E (Result unit) :=
  erased_redrive_dlq self.
End dyn.
End DynProducer.

(** [omni_delegate!(send_raw, send_serde_json, redrive_dlq)]; the other
    methods keep their default bodies. *)
#[export] Instance DynProducer_producer {E} : QueueProducer E (DynProducer E) :=
  Delegate.producer DynProducer.send_raw (@DynProducer.send_serde_json E) DynProducer.redrive_dlq.

(** The trait's [into_dyn]. *)
Definition producer_into_dyn {E P} `{QueueProducer E P} (self : P) : DynProducer E :=
  DynProducer.new self.

(** ** Scheduled producers ([scheduled/mod.rs]) *)

Class ScheduledQueueProducer (E : Type → Type) (P : Type) `{QueueProducer E P} := {
  send_raw_scheduled : P → Payload → Duration → prog E (Result unit);
  send_bytes_scheduled : P → bytes → Duration → prog E (Result unit);
  send_serde_json_scheduled : ∀ {V} `{Serialize V}, P → V → Duration → prog E (Result unit);
}.

Module ScheduledDefaults.
Section defaults.
Context {E : Type → Type} {P Pay : Type} `{QueuePayload Pay}.

Definition send_bytes_scheduled
    (send_raw_scheduled : P → Pay → Duration → prog E (Result unit))
    (self : P) (payload : bytes) (delay : Duration) : prog E (Result unit) :=
  let? p := Ret (from_bytes_naive payload) in send_raw_scheduled self p delay.

Definition send_serde_json_scheduled
    (send_bytes_scheduled : P → bytes → Duration → prog E (Result unit))
    {V} `{Serialize V} (self : P) (v : V) (delay : Duration) : prog E (Result unit) :=
  let? payload := Ret (map_err Serde (to_vec v)) in
  send_bytes_scheduled self payload delay.
End defaults.
End ScheduledDefaults.

(** [omni_delegate!(send_raw_scheduled, send_serde_json_scheduled)] *)
Definition delegate_scheduled {E P} `{QP : QueueProducer E P}
    (raw : P → Payload → Duration → prog E (Result unit))
    (json : ∀ V (_ : Serialize V), P → V → Duration → prog E (Result unit))
    : ScheduledQueueProducer E P := {|
  send_raw_scheduled := Delegate.send_raw_scheduled raw;
  send_bytes_scheduled := ScheduledDefaults.send_bytes_scheduled raw;
  send_serde_json_scheduled := Delegate.send_serde_json_scheduled json;
|}.

(** [DynScheduledProducer(Box<dyn ErasedScheduledQueueProducer>)] *)
Record DynScheduledProducer (E : Type → Type) := mkDynScheduledProducer {
  sched_base : DynProducer E;
  erased_send_raw_scheduled : bytes → Duration → prog E (Result unit);
}.
Arguments mkDynScheduledProducer {E}.
Arguments sched_base {E}.
Arguments erased_send_raw_scheduled {E}.

Module DynScheduledProducer.
Section dyn.
Context {E : Type → Type}.
Implicit Types self : DynScheduledProducer E.

Definition new {P} `{ScheduledQueueProducer E P} (inner : P) : DynScheduledProducer E :=
  mkDynScheduledProducer
    (mkDynProducer (λ payload, Queue.send_bytes inner payload) (Queue.redrive_dlq inner))
    (λ payload delay, Queue.send_bytes_scheduled inner payload delay).

Definition send_raw self (payload : bytes) : prog E (Result unit) :=
  erased_send_raw (sched_base self) payload.

Definition send_serde_json {V} `{Serialize V} self (v : V) : prog E (Result unit) :=
  let? payload := Ret (map_err Serde (to_vec v)) in send_raw self payload.

Definition send_raw_scheduled self (payload : bytes) (delay : Duration)
    : prog E (Result unit) :=
  erased_send_raw_scheduled self payload delay.

Definition send_serde_json_scheduled {V} `{Serialize V} self (v : V) (delay : Duration)
    : prog E (Result unit) :=
  let? payload := Ret (map_err Serde (to_vec v)) in
  erased_send_raw_scheduled self payload delay.

Definition redrive_dlq self : prog E (Result unit) := erased_redrive_dlq (sched_base self).
End dyn.
End DynScheduledProducer.

(** The trait's [into_dyn_scheduled]. *)
Definition into_dyn_scheduled {E P} `{ScheduledQueueProducer E P} (self : P)
    : DynScheduledProducer E := DynScheduledProducer.new self.

#[export] Instance DynScheduledProducer_producer {E} :
    QueueProducer E (DynScheduledProducer E) :=
  Delegate.producer DynScheduledProducer.send_raw (@DynScheduledProducer.send_serde_json E)
    DynScheduledProducer.redrive_dlq.

#[export] Instance DynScheduledProducer_scheduled {E} :
    ScheduledQueueProducer E (DynScheduledProducer E) :=
  delegate_scheduled (DynScheduledProducer.send_raw_scheduled :
      DynScheduledProducer E → @Payload _ _ DynScheduledProducer_producer → Duration → _)
    (@DynScheduledProducer.send_serde_json_scheduled E).

(** ** Consumers ([queue/consumer.rs]) *)

Class QueueConsumer (E : Type → Type) (C : Type) := {
  receive : C → prog E (Result (Delivery E));
  receive_all : C → N → Duration → prog E (Result (list (Delivery E)));
  max_messages : C → option N;
}.

(** [NonZeroUsize::new] *)
Definition NonZeroUsize_new (n : N) : option N := if (n =? 0)%N then None else Some n.

(** The trait's default [max_messages]. *)
Definition default_max_messages {C} (self : C) : option N := None.

(** [omni_delegate!(receive, receive_all)] beside a [max_messages]. *)
Module DelegateConsumer.
Section arms.
Context {E : Type → Type} {C : Type}.

Definition receive (inherent : C → prog E (Result (Delivery E)))
    : C → prog E (Result (Delivery E)) := λ self, inherent self.
Definition receive_all (inherent : C → N → Duration → prog E (Result (list (Delivery E))))
    : C → N → Duration → prog E (Result (list (Delivery E))) :=
  λ self max_messages deadline, inherent self max_messages deadline.

Definition consumer_with (one : C → prog E (Result (Delivery E)))
    (all : C → N → Duration → prog E (Result (list (Delivery E)))) (max : C → option N)
    : QueueConsumer E C := {|
  Queue.receive := receive one;
  Queue.receive_all := receive_all all;
  max_messages := max;
|}.
End arms.

(** The same where [max_messages] keeps its default body. *)
Definition consumer {E C} (one : C → prog E (Result (Delivery E)))
    (all : C → N → Duration → prog E (Result (list (Delivery E)))) : QueueConsumer E C :=
  consumer_with one all default_max_messages.
End DelegateConsumer.

Record DynConsumer (E : Type → Type) := mkDynConsumer {
  erased_receive : prog E (Result (Delivery E));
  erased_receive_all : N → Duration → prog E (Result (list (Delivery E)));
  erased_max_messages : option N;
}.
Arguments mkDynConsumer {E}.
Arguments erased_receive {E}.
Arguments erased_receive_all {E}.
Arguments erased_max_messages {E}.

(** [DynConsumerInner<C>]: every delivery is rebuilt from its payload and
    acker. *)
Module DynConsumerInner.
Section inner.
Context {E : Type → Type} {C} `{QueueConsumer E C}.

Definition rewrap (d : Delivery E) : Delivery E :=
  let '(p, d') := Delivery.take_payload d in mkDelivery p (d_acker d').

Definition receive (self : C) : prog E (Result (Delivery E)) :=
  let? d := Queue.receive self in Ret (Ok (rewrap d)).

Definition receive_all (self : C) (max_messages : N) (deadline : Duration)
    : prog E (Result (list (Delivery E))) :=
  let? xs := Queue.receive_all self max_messages deadline in
  Ret (Ok (rewrap <$> xs)).

Definition max_messages (self : C) : option N := Queue.max_messages self.
End inner.
End DynConsumerInner.

Module DynConsumer.
Section dyn.
Context {E : Type → Type}.
Implicit Types self : DynConsumer E.

Definition new {C} `{QueueConsumer E C} (inner : C) : DynConsumer E :=
  mkDynConsumer (DynConsumerInner.receive inner) (DynConsumerInner.receive_all inner)
    (DynConsumerInner.max_messages inner).

Definition receive self : prog E (Result (Delivery E)) := erased_receive self.

Definition max_messages self : option N := erased_max_messages self.

(** Clamps [max_messages] to what the backend permits. *)
Definition receive_all self (n : N) (deadline : Duration)
    : prog E (Result (list (Delivery E))) :=
  let n := match max_messages self with
           | Some backend_max => N.min n backend_max
           | None => n
           end in
  erased_receive_all self n deadline.
End dyn.
End DynConsumer.

#[export] Instance DynConsumer_consumer {E} : QueueConsumer E (DynConsumer E) :=
  DelegateConsumer.consumer_with DynConsumer.receive DynConsumer.receive_all
    DynConsumer.max_messages.

(** ** Builders ([builder.rs], [queue/mod.rs]) *)

Class QueueBackend (E : Type → Type) (Q : Type) := {
  Config : Type;
  Producer : Type;
  Consumer : Type;
  backend_producer :: QueueProducer E Producer;
  backend_consumer :: QueueConsumer E Consumer;
  new_pair : Config → prog E (Result (Producer * Consumer));
  producing_half : Config → prog E (Result Producer);
  consuming_half : Config → prog E (Result Consumer);
}.

Inductive BuilderKind := Static | Dynamic.

Record QueueBuilder (E : Type → Type) (Q : Type) `{QueueBackend E Q} (S : BuilderKind) :=
  mkQueueBuilder { builder_config : Config }.
Arguments mkQueueBuilder {E Q _ S}.
Arguments builder_config {E Q _ S}.

Module QueueBuilder.
Section builder.
Context {E : Type → Type} {Q : Type} `{QueueBackend E Q}.

Definition new (c : Config) : QueueBuilder E Q Static := mkQueueBuilder c.
Definition build_pair (b : QueueBuilder E Q Static) : prog E (Result (Producer * Consumer)) :=
  new_pair (builder_config b).
Definition build_producer (b : QueueBuilder E Q Static) : prog E (Result Producer) :=
  producing_half (builder_config b).
Definition build_consumer (b : QueueBuilder E Q Static) : prog E (Result Consumer) :=
  consuming_half (builder_config b).
Definition make_dynamic (b : QueueBuilder E Q Static) : QueueBuilder E Q Dynamic :=
  mkQueueBuilder (builder_config b).

Definition dyn_build_pair (b : QueueBuilder E Q Dynamic)
    : prog E (Result (DynProducer E * DynConsumer E)) :=
  let? '(p, c) := new_pair (builder_config b) in
  Ret (Ok (DynProducer.new p, DynConsumer.new c)).
Definition dyn_build_producer (b : QueueBuilder E Q Dynamic)
    : prog E (Result (DynProducer E)) :=
  let? p := producing_half (builder_config b) in Ret (Ok (DynProducer.new p)).
Definition dyn_build_consumer (b : QueueBuilder E Q Dynamic)
    : prog E (Result (DynConsumer E)) :=
  let? c := consuming_half (builder_config b) in Ret (Ok (DynConsumer.new c)).
End builder.
End QueueBuilder.

(** The trait's [into_dyn] for consumers, and its override on [DynConsumer]. *)
Definition consumer_into_dyn {E C} `{QueueConsumer E C} (self : C) : DynConsumer E :=
  DynConsumer.new self.
Definition dyn_consumer_into_dyn {E} (self : DynConsumer E) : DynConsumer E := self.

(** ** Settling a delivery at most once

    The interface that a backend's acker promises: once it has been settled,
    it answers every later [ack] or [nack] with [CannotAckOrNackTwice] and
    makes no call. *)
Inductive settle_op := OpAck | OpNack.

Definition settle {E A} `{Acker E A} (op : settle_op) (a : A) : prog E (A * Result unit) :=
  match op with OpAck => ack a | OpNack => nack a end.

Fixpoint settle_all {E A} `{Acker E A} (ops : list settle_op) (a : A)
    : prog E (list (Result unit)) :=
  match ops with
  | [] => Ret []
  | op :: ops' =>
      let* '(a', r) := settle op a in
      let* rs := settle_all ops' a' in Ret (r :: rs)
  end.

Class AckOnce (E : Type → Type) (A : Type) `{Acker E A} := {
  settled : A → Prop;
  settle_success : ∀ S (h : handler E S) op a s s' a',
    run h (settle op a) s = Returned s' (a', Ok tt) → settled a';
  settle_again : ∀ op a,
    settled a → settle op a = Ret (a, Err CannotAckOrNackTwice);
}.

(** ** Lemmas *)

Section run_lemmas.
Context {E : Type → Type} {S : Type} (h : handler E S).

Lemma run_bind_ok {A B F} (p : prog E (result A F)) (f : A → prog E (result B F)) s :
  run h (bind_ok p f) s =
  match run h p s with
  | Returned s' (Ok a) => run h (f a) s'
  | Returned s' (Err e) => Returned s' (Err e)
  | Panicked s' => Panicked s'
  | Exhausted s' => Exhausted s'
  | Blocked s' => Blocked s'
  end.
Proof. unfold bind_ok. rewrite run_bind. by destruct (run h p s) as [s' [a|e]| | |]. Qed.

Lemma run_bind_Ret {A} (p : prog E A) s : run h (bind p Ret) s = run h p s.
Proof. rewrite run_bind. by destruct (run h p s). Qed.

Lemma run_bind_ok_Ok {A F} (f : A → A) (p : prog E (result A F)) s :
  (∀ a, f a = a) → run h (bind_ok p (λ a, Ret (Ok (f a)))) s = run h p s.
Proof.
  intros Hf. rewrite run_bind_ok. destruct (run h p s) as [s' [a|e]| | |]; simpl; try done.
  by rewrite Hf.
Qed.

Lemma run_for_each_app {A F} (body : A → prog E (result unit F)) l k s :
  run h (for_each body (l ++ k)) s =
  match run h (for_each body l) s with
  | Returned s' (Ok _) => run h (for_each body k) s'
  | Returned s' (Err e) => Returned s' (Err e)
  | Panicked s' => Panicked s'
  | Exhausted s' => Exhausted s'
  | Blocked s' => Blocked s'
  end.
Proof.
  revert s. induction l as [|x l IH]; intros s; simpl; [done|].
  rewrite !run_bind_ok. destruct (run h (body x) s) as [s' [[]|e]| | |]; try done.
Qed.

(** A [for] loop fails exactly when one iteration does, and it stops there. *)
Lemma run_for_each_Err {A F} (body : A → prog E (result unit F)) l s s' e :
  run h (for_each body l) s = Returned s' (Err e) ↔
  ∃ k x m s1, l = k ++ x :: m ∧ run h (for_each body k) s = Returned s1 (Ok tt) ∧
    run h (body x) s1 = Returned s' (Err e).
Proof.
  split.
  - revert s. induction l as [|x l IH]; intros s; simpl; [done|]. rewrite run_bind_ok.
    destruct (run h (body x) s) as [s1 [[]|e']| | |] eqn:Hx; try done.
    + intros (k&y&m&s2&->&Hk&Hy)%IH. exists (x :: k), y, m, s2. split_and!; [done| |done].
      simpl. by rewrite run_bind_ok, Hx.
    + intros [= -> ->]. by exists [], x, l, s.
  - intros (k&x&m&s1&->&Hk&Hx). rewrite run_for_each_app, Hk. simpl.
    by rewrite run_bind_ok, Hx.
Qed.
End run_lemmas.

Lemma run_bind_inv {E S A B} (h : handler E S) (p : prog E A) (f : A → prog E B) s s' b :
  run h (bind p f) s = Returned s' b →
  ∃ s1 a, run h p s = Returned s1 a ∧ run h (f a) s1 = Returned s' b.
Proof. rewrite run_bind. destruct (run h p s); naive_solver. Qed.

Lemma run_bind_ok_inv {E S A B F} (h : handler E S) (p : prog E (result A F))
    (f : A → prog E (result B F)) s s' b :
  run h (bind_ok p f) s = Returned s' (Ok b) →
  ∃ s1 a, run h p s = Returned s1 (Ok a) ∧ run h (f a) s1 = Returned s' (Ok b).
Proof. rewrite run_bind_ok. destruct (run h p s) as [? []| | |]; naive_solver. Qed.

Lemma rewrap_id {E} (d : Delivery E) : DynConsumerInner.rewrap d = d.
Proof. by destruct d. Qed.

Lemma fmap_rewrap_id {E} (ds : list (Delivery E)) : DynConsumerInner.rewrap <$> ds = ds.
Proof. rewrite <-(list_fmap_id ds) at 2. apply list_fmap_ext. intros. apply rewrap_id. Qed.

(** Type erasure changes nothing that [ack] and [nack] do. *)
Lemma run_settle_inner {E S A} `{Acker E A} (h : handler E S) op (a : A) s :
  run h (settle op (mkDynAckerInner a)) s =
  match run h (settle op a) s with
  | Returned s' (a', r) => Returned s' (mkDynAckerInner a', r)
  | Panicked s' => Panicked s'
  | Exhausted s' => Exhausted s'
  | Blocked s' => Blocked s'
  end.
Proof. destruct op; simpl; rewrite run_bind; by destruct (run h _ s) as [? []| | |]. Qed.

Lemma run_settle_dyn {E S T} (AT : Acker E T) (h : handler E S) op (a : T) s :
  run h (settle op (mkDynAcker T AT a)) s =
  match run h (settle op a) s with
  | Returned s' (a', r) => Returned s' (mkDynAcker T AT a', r)
  | Panicked s' => Panicked s'
  | Exhausted s' => Exhausted s'
  | Blocked s' => Blocked s'
  end.
Proof. destruct op; simpl; rewrite run_bind; by destruct (run h _ s) as [? []| | |]. Qed.

Lemma run_settle_all_dyn {E S A} `{Acker E A} (h : handler E S) ops (a : A) s :
  run h (settle_all ops (DynAcker_new a)) s = run h (settle_all ops a) s.
Proof.
  revert a s. induction ops as [|op ops IH]; intros a s; simpl; [done|].
  rewrite !run_bind. unfold DynAcker_new. rewrite run_settle_dyn, run_settle_inner.
  destruct (run h (settle op a) s) as [s1 [a1 r]| | |]; try done.
  rewrite !run_bind. by rewrite <-IH.
Qed.

Lemma calls_settle_all_dyn {E S A} `{Acker E A} (h : handler E S) ops (a : A) s :
  calls h (settle_all ops (DynAcker_new a)) s = calls h (settle_all ops a) s.
Proof.
  revert a s. induction ops as [|op ops IH]; intros a s; simpl; [done|].
  rewrite !calls_bind. unfold DynAcker_new. rewrite run_settle_dyn, run_settle_inner.
  assert (calls h (settle op (mkDynAcker (DynAckerInner A) _ (mkDynAckerInner a))) s =
    calls h (settle op a) s) as ->.
  { destruct op; simpl; rewrite !calls_bind, !run_bind;
      destruct (run h _ s) as [s1 [a1 r]| | |]; simpl; by rewrite ?app_nil_r. }
  destruct (run h (settle op a) s) as [s1 [a1 r]| | |]; try done.
  rewrite !calls_bind. rewrite <-(IH a1 s1), <-run_settle_all_dyn.
  by destruct (run h (settle_all ops _) s1).
Qed.

Lemma run_settle_all_settled {E S A} `{AckOnce E A} (h : handler E S) ops (a : A) s :
  settled a →
  run h (settle_all ops a) s = Returned s (replicate (length ops) (Err CannotAckOrNackTwice)).
Proof.
  intros Ha. induction ops as [|op ops IH]; simpl; [done|].
  rewrite run_bind, settle_again by done. simpl. by rewrite run_bind, IH.
Qed.

(** ** Properties *)

(** [send_bytes_batch] converts the whole batch before it sends anything:
    when a payload does not convert, the result is the first such error and
    not a single call is made; otherwise the converted batch is sent. *)
Theorem send_bytes_batch_converts_first {E P Pay} `{QueuePayload Pay}
    (batch : P → list Pay → prog E (Result unit)) self (payloads : list bytes) :
  (∃ e good bad rest,
     ProducerDefaults.send_bytes_batch batch self payloads = Ret (Err e) ∧
     payloads = good ++ bad :: rest ∧ from_bytes_naive (P := Pay) bad = Err e ∧
     Forall (λ b, ∃ p : Pay, from_bytes_naive b = Ok p) good) ∨
  (∃ ps, ProducerDefaults.send_bytes_batch batch self payloads = batch self ps ∧
     Forall2 (λ b p, from_bytes_naive b = Ok p) payloads ps).
Proof.
  unfold ProducerDefaults.send_bytes_batch, bind_ok. cbn [bind].
  destruct (collect_results (from_bytes_naive <$> payloads)) as [ps|e] eqn:Hc.
  - right. exists ps. split; [done|]. by apply collect_fmap_Ok.
  - left. apply collect_fmap_Err in Hc as (good&bad&rest&?&?&?). by exists e, good, bad, rest.
Qed.

(** [DynConsumer::receive_all] asks the backend for the requested number
    of messages clamped to the backend's maximum, and hands the backend's
    deliveries through unchanged; [receive] is the backend's. *)
Theorem dyn_consumer_clamps {E S C} `{QueueConsumer E C} (h : handler E S) (c : C) n d s :
  run h (DynConsumer.receive_all (DynConsumer.new c) n d) s =
    run h (receive_all c (match max_messages c with Some m => N.min n m | None => n end) d) s ∧
  run h (DynConsumer.receive (DynConsumer.new c)) s = run h (receive c) s.
Proof.
  split.
  - apply (run_bind_ok_Ok h). apply fmap_rewrap_id.
  - apply (run_bind_ok_Ok h). apply rewrap_id.
Qed.

(** [make_dynamic] changes nothing but the wrapping: building a dynamic
    pair makes the same calls as building a static one and fails with the
    same error. *)
Theorem dynamic_builder_same_backend {E S Q} `{QueueBackend E Q} (h : handler E S)
    (b : QueueBuilder E Q Static) s :
  run h (QueueBuilder.dyn_build_pair (QueueBuilder.make_dynamic b)) s =
  match run h (QueueBuilder.build_pair b) s with
  | Returned s' (Ok (p, c)) => Returned s' (Ok (DynProducer.new p, DynConsumer.new c))
  | Returned s' (Err e) => Returned s' (Err e)
  | Panicked s' => Panicked s'
  | Exhausted s' => Exhausted s'
  | Blocked s' => Blocked s'
  end.
Proof.
  unfold QueueBuilder.dyn_build_pair, QueueBuilder.build_pair. simpl.
  rewrite run_bind_ok. by destruct (run h _ s) as [s' [[p c]|e]| | |].
Qed.
