(* ===== verification/InMemory.v ===== *)
(** * The in-memory backend ([backends/in_memory.rs])

    Producer, consumer and acker over a [tokio] unbounded channel.  The
    channel, the timer and the spawning of tasks are [tokio]'s: calls to the
    environment, whose documented behaviour is [mem_doc]. *)
From S2P Require Import Prelude RustStd Effects Omniqueue Queue.

(** ** Calls *)

Abbreviation chan := nat.

(** The future given to [tokio::spawn] by [send_raw_scheduled]. *)
Record Task := DelayedSend { task_tx : chan; task_payload : bytes; task_delay : Duration }.

Inductive memE : Type → Type :=
| UnboundedChannel : memE chan
| Send (tx : chan) (v : bytes) : memE (result unit StdError)
| Recv (rx : chan) : memE (option bytes)
| TryRecv (rx : chan) : memE (result bytes StdError)
| TimeoutRecv (deadline : Duration) (rx : chan) : memE (result (option bytes) StdError)
| Spawn (t : Task) : memE unit
| Sleep (d : Duration) : memE unit
| InstantNow : memE N.

(** ** The backend *)

Record InMemoryProducer := mkProducer { p_tx : chan }.
Record InMemoryConsumer := mkConsumer { c_rx : chan; c_tx : chan }.
Record InMemoryAcker := mkAcker {
  a_tx : chan;
  payload_copy : option bytes;
  already_acked_or_nacked : bool;
}.

(** [InMemoryBackend::new_pair], [producing_half] and [consuming_half]. *)
Definition mem_new_pair (_ : unit) : prog memE (Result (InMemoryProducer * InMemoryConsumer)) :=
  let* c := call UnboundedChannel in
  Ret (Ok (mkProducer c, mkConsumer c c)).
Definition mem_producing_half (_ : unit) : prog memE (Result InMemoryProducer) :=
  Ret (Err CannotCreateHalf).
Definition mem_consuming_half (_ : unit) : prog memE (Result InMemoryConsumer) :=
  Ret (Err CannotCreateHalf).

Module Producer.
Definition send_raw (self : InMemoryProducer) (payload : bytes) : prog memE (Result unit) :=
  let* r := call (Send (p_tx self) payload) in Ret (map_err QueueError.generic r).

Definition send_serde_json {V} `{Serialize V} (self : InMemoryProducer) (v : V)
    : prog memE (Result unit) :=
  let? payload := Ret (map_err Serde (to_vec v)) in send_raw self payload.

Definition send_raw_scheduled (self : InMemoryProducer) (payload : bytes) (delay : Duration)
    : prog memE (Result unit) :=
  let* _ := call (Spawn (DelayedSend (p_tx self) payload delay)) in Ret (Ok tt).

(** The body of the spawned task; a failed send is only logged. *)
Definition delayed_send (t : Task) : prog memE unit :=
  let* _ := call (Sleep (task_delay t)) in
  let* _ := call (Send (task_tx t) (task_payload t)) in Ret tt.

Definition send_serde_json_scheduled {V} `{Serialize V} (self : InMemoryProducer) (v : V)
    (delay : Duration) : prog memE (Result unit) :=
  let? payload := Ret (map_err Serde (to_vec v)) in send_raw_scheduled self payload delay.

Definition redrive_dlq (self : InMemoryProducer) : prog memE (Result unit) :=
  Ret (Err (Unsupported "redrive_dlq is not supported by InMemoryBackend")).
End Producer.

#[export] Instance mem_producer : QueueProducer memE InMemoryProducer :=
  Delegate.producer Producer.send_raw (@Producer.send_serde_json) Producer.redrive_dlq.

#[export] Instance mem_scheduled : ScheduledQueueProducer memE InMemoryProducer :=
  delegate_scheduled (Producer.send_raw_scheduled : _ → @Payload _ _ mem_producer → _ → _)
    (@Producer.send_serde_json_scheduled).

Module MemAcker.
Definition ack (a : InMemoryAcker) : prog memE (InMemoryAcker * Result unit) :=
  if already_acked_or_nacked a then Ret (a, Err CannotAckOrNackTwice)
  else Ret (mkAcker (a_tx a) (payload_copy a) true, Ok tt).

Definition nack (a : InMemoryAcker) : prog memE (InMemoryAcker * Result unit) :=
  if already_acked_or_nacked a then Ret (a, Err CannotAckOrNackTwice)
  else
    let a' := mkAcker (a_tx a) None true in
    match payload_copy a with
    | None => Ret (a', Err CannotAckOrNackTwice)
    | Some p =>
        let* r := call (Send (a_tx a) p) in Ret (a', map_err QueueError.generic r)
    end.

Definition set_ack_deadline (a : InMemoryAcker) (d : Duration)
    : prog memE (InMemoryAcker * Result unit) :=
  Ret (a, Err (Unsupported "set_ack_deadline is not yet supported by InMemoryBackend")).
End MemAcker.

#[export] Instance mem_acker : Acker memE InMemoryAcker := {|
  ack := MemAcker.ack; nack := MemAcker.nack; set_ack_deadline := MemAcker.set_ack_deadline;
|}.

Module Consumer.
Section consumer.
(** [size_of::<Delivery>()] *)
Variable delivery_size : N.

Definition wrap_payload (self : InMemoryConsumer) (payload : bytes) : Delivery memE :=
  Delivery.new payload (mkAcker (c_tx self) (Some payload) false).

Definition receive (self : InMemoryConsumer) : prog memE (Result (Delivery memE)) :=
  let* o := call (Recv (c_rx self)) in
  let? payload := Ret (ok_or o (Generic (boxed "recv failed"))) in
  Ret (Ok (wrap_payload self payload)).

(** The body of [while let Ok(x) = self.rx.try_recv()]. *)
Definition fill (self : InMemoryConsumer) (n : N) (deadline : Duration) (start : N)
    (out : list (Delivery memE))
    : prog memE (list (Delivery memE) + list (Delivery memE)) :=
  let* r := call (TryRecv (c_rx self)) in
  match r with
  | Err _ => Ret (inr out)
  | Ok x =>
      let out := out ++ [wrap_payload self x] in
      if n <=? N.of_nat (length out) then Ret (inr out)
      else
        let* now := call InstantNow in
        if as_nanos deadline <=? now - start then Ret (inr out) else Ret (inl out)
  end.

(** The loop leaves after [n] deliveries: [n] rounds of fuel are enough. *)
Definition receive_all (self : InMemoryConsumer) (n : N) (deadline : Duration)
    : prog memE (Result (list (Delivery memE))) :=
  let* _ := lift (vec_with_capacity delivery_size n) in
  let* start := call InstantNow in
  let* r := call (TimeoutRecv deadline (c_rx self)) in
  match r with
  | Ok (Some x) =>
      let out := [wrap_payload self x] in
      if 1 <? n then
        let* out := loop (N.to_nat n) (fill self n deadline start) out in Ret (Ok out)
      else Ret (Ok out)
  | _ => Ret (Ok [])
  end.
End consumer.
End Consumer.

Definition mem_consumer (delivery_size : N) : QueueConsumer memE InMemoryConsumer :=
  DelegateConsumer.consumer Consumer.receive (Consumer.receive_all delivery_size).

Inductive InMemoryBackend := InMemory.

Definition mem_backend (delivery_size : N) : QueueBackend memE InMemoryBackend := {|
  Config := unit;
  Queue.Producer := InMemoryProducer;
  Queue.Consumer := InMemoryConsumer;
  backend_producer := mem_producer;
  backend_consumer := mem_consumer delivery_size;
  new_pair := mem_new_pair;
  producing_half := mem_producing_half;
  consuming_half := mem_consuming_half;
|}.

(** [InMemoryBackend::builder] *)
Definition mem_builder (delivery_size : N)
    : @QueueBuilder memE InMemoryBackend (mem_backend delivery_size) Static :=
  @QueueBuilder.new memE InMemoryBackend (mem_backend delivery_size) tt.

(** ** What [tokio] documents

    The observable state: each channel's buffered messages (oldest first) and
    whether its receiver still exists, the monotonic clock, and the tasks
    spawned so far. *)
Record mem := mkMem {
  chans : gmap chan (list bytes * bool);
  clock : N;
  tasks : list Task;
}.

Definition set_chan (c : chan) (buf : list bytes) (alive : bool) (d : mem) : mem :=
  mkMem (<[c := (buf, alive)]> (chans d)) (clock d) (tasks d).
Definition at_clock (t : N) (d : mem) : mem := mkMem (chans d) t (tasks d).

Definition mem_documented X (e : memE X) : mem → mem → X → Prop :=
  match e in memE X return mem → mem → X → Prop with
  | UnboundedChannel => λ d d' c, chans d !! c = None ∧ d' = set_chan c [] true d
  | Send c v => λ d d' r,
      match chans d !! c with
      | Some (buf, true) => r = Ok tt ∧ d' = set_chan c (buf ++ [v]) true d
      | _ => (∃ e, r = Err e) ∧ d' = d
      end
  | Recv c => λ d d' r,
      match chans d !! c with
      | Some (v :: buf, alive) => r = Some v ∧ d' = set_chan c buf alive d
      | _ => False
      end
  | TryRecv c => λ d d' r,
      match chans d !! c with
      | Some (v :: buf, alive) => r = Ok v ∧ d' = set_chan c buf alive d
      | _ => (∃ e, r = Err e) ∧ d' = d
      end
  | TimeoutRecv t c => λ d d' r,
      match chans d !! c with
      | Some (v :: buf, alive) => r = Ok (Some v) ∧ d' = set_chan c buf alive d
      | _ => (∃ e, r = Err e) ∧ d' = at_clock (clock d + as_nanos t) d
      end
  | Spawn t => λ d d' _, d' = mkMem (chans d) (clock d) (tasks d ++ [t])
  | Sleep t => λ d d' _, ∃ n, clock d + as_nanos t <= n ∧ d' = at_clock n d
  | InstantNow => λ d d' n, clock d <= n ∧ d' = at_clock n d
  end.

(** [recv().await] waits while the buffer is empty (the consumer keeps a
    sender, so the channel never closes); nothing else waits for a message. *)
Definition mem_ready X (e : memE X) (d : mem) : Prop :=
  match e with
  | Recv c => ∃ v buf alive, chans d !! c = Some (v :: buf, alive)
  | _ => True
  end.

Definition mem_doc : env_doc memE mem := EnvDoc mem_ready mem_documented.

(** An executable channel environment that behaves as documented. *)
Definition fresh_chan (m : gmap chan (list bytes * bool)) : chan :=
  S (map_fold (λ k _ n, Nat.max k n) O m).

Definition mem_serve X (e : memE X) (d : mem) : option (mem * X) :=
  match e in memE X return option (mem * X) with
  | UnboundedChannel => let c := fresh_chan (chans d) in Some (set_chan c [] true d, c)
  | Send c v =>
      match chans d !! c with
      | Some (buf, true) => Some (set_chan c (buf ++ [v]) true d, Ok tt)
      | _ => Some (d, Err (boxed "channel closed"))
      end
  | Recv c =>
      match chans d !! c with
      | Some (v :: buf, alive) => Some (set_chan c buf alive d, Some v)
      | _ => None
      end
  | TryRecv c =>
      match chans d !! c with
      | Some (v :: buf, alive) => Some (set_chan c buf alive d, Ok v)
      | _ => Some (d, Err (boxed "empty"))
      end
  | TimeoutRecv t c =>
      match chans d !! c with
      | Some (v :: buf, alive) => Some (set_chan c buf alive d, Ok (Some v))
      | _ => Some (at_clock (clock d + as_nanos t) d, Err (boxed "deadline has elapsed"))
      end
  | Spawn t => Some (mkMem (chans d) (clock d) (tasks d ++ [t]), tt)
  | Sleep t => Some (at_clock (clock d + as_nanos t) d, tt)
  | InstantNow => Some (at_clock (clock d + 1) d, clock d + 1)
  end.

(** ** Lemmas *)

Lemma fresh_chan_None m : m !! fresh_chan m = None.
Proof.
  unfold fresh_chan.
  assert (∀ k v, m !! k = Some v → (k <= map_fold (λ k _ n, Nat.max k n) O m)%nat) as Hle.
  { apply (map_fold_weak_ind (λ n m, ∀ k v, m !! k = Some v → (k <= n)%nat)).
    - intros k v. by rewrite lookup_empty.
    - intros i x m' n Hi IH k v Hk. destruct (decide (i = k)) as [->|Hne]; [lia|].
      rewrite lookup_insert_ne in Hk by done. apply IH in Hk. lia. }
  destruct (m !! _) as [v|] eqn:Hv; [|done]. apply Hle in Hv. lia.
Qed.

#[export] Instance mem_serve_lawful : Lawful mem_doc mem_serve id.
Proof.
  split.
  - intros X e d d' x. unfold id. simpl.
    destruct e; simpl; intros Hs; split_matches; simplify_eq/=; eauto using fresh_chan_None.
    all: first [eexists; split; [|reflexivity]; lia|split; [lia|done]].
  - intros X e d. unfold id. simpl.
    destruct e; simpl; intros Hr; split_matches; eauto.
    all: destruct Hr as (?&?&?&?); simplify_eq/=.
Qed.

Lemma set_chan_chans c buf alive d : chans (set_chan c buf alive d) !! c = Some (buf, alive).
Proof. apply lookup_insert_eq. Qed.

Lemma set_chan_twice c b1 a1 b2 a2 d :
  set_chan c b2 a2 (set_chan c b1 a1 d) = set_chan c b2 a2 d.
Proof. unfold set_chan. simpl. f_equal. apply insert_insert_eq. Qed.

#[export] Hint Rewrite set_chan_chans set_chan_twice : omni.

(** One call on a channel whose buffer is known. *)
Lemma wp_Send c v buf d Q :
  chans d !! c = Some (buf, true) →
  Q (set_chan c (buf ++ [v]) true d) (Ok tt) → wp mem_doc (call (Send c v)) d Q.
Proof.
  intros Hc HQ. apply wp_call. split; [done|]. simpl. rewrite Hc. by intros d' r [-> ->].
Qed.

Lemma wp_Send_closed c v buf d (Q : mem → result unit StdError → Prop) :
  chans d !! c = Some (buf, false) → (∀ e, Q d (Err e)) → wp mem_doc (call (Send c v)) d Q.
Proof.
  intros Hc HQ. apply wp_call. split; [done|]. simpl. rewrite Hc. by intros d' r [[e ->] ->].
Qed.

Lemma wp_Recv c v buf alive d Q :
  chans d !! c = Some (v :: buf, alive) →
  Q (set_chan c buf alive d) (Some v) → wp mem_doc (call (Recv c)) d Q.
Proof.
  intros Hc HQ. apply wp_call. simpl. rewrite Hc. split; [eauto|]. by intros d' r [-> ->].
Qed.

Lemma wp_InstantNow d (Q : mem → N → Prop) :
  (∀ n, clock d <= n → Q (at_clock n d) n) → wp mem_doc (call InstantNow) d Q.
Proof. intros HQ. apply wp_call. split; [done|]. simpl. intros d' n [Hn ->]. auto. Qed.

Lemma wp_TryRecv c buf alive d (Q : mem → result bytes StdError → Prop) :
  chans d !! c = Some (buf, alive) →
  match buf with
  | v :: buf' => Q (set_chan c buf' alive d) (Ok v)
  | [] => ∀ e, Q d (Err e)
  end → wp mem_doc (call (TryRecv c)) d Q.
Proof.
  intros Hc HQ. apply wp_call. split; [done|]. simpl. rewrite Hc.
  destruct buf; [by intros d' r [[e ->] ->]|by intros d' r [-> ->]].
Qed.

Lemma wp_TimeoutRecv t c buf alive d (Q : mem → result (option bytes) StdError → Prop) :
  chans d !! c = Some (buf, alive) →
  match buf with
  | v :: buf' => Q (set_chan c buf' alive d) (Ok (Some v))
  | [] => ∀ e, Q (at_clock (clock d + as_nanos t) d) (Err e)
  end → wp mem_doc (call (TimeoutRecv t c)) d Q.
Proof.
  intros Hc HQ. apply wp_call. split; [done|]. simpl. rewrite Hc.
  destruct buf; [by intros d' r [[e ->] ->]|by intros d' r [-> ->]].
Qed.

(** The payloads of deliveries, and deliveries that are as fresh as
    [wrap_payload] makes them. *)
Definition wraps (c : InMemoryConsumer) (ds : list (Delivery memE)) (vs : list bytes) : Prop :=
  ds = Consumer.wrap_payload c <$> vs.

#[export] Instance mem_acker_once : AckOnce memE InMemoryAcker.
Proof.
  refine {| settled a := already_acked_or_nacked a = true |}.
  - intros S h [] [tx [p|] []] s s' a'; simpl; intros Hr; simplify_eq/=; try done.
    unfold MemAcker.nack in Hr. simpl in Hr. rewrite run_bind, run_call in Hr.
    destruct (h _ (Send tx p) s) as [[s1 [[]|e]]|]; by simplify_eq/=.
  - by intros [] [tx p []] Ha; simplify_eq/=.
Defined.

(** ** The FIFO queue that the backend implements *)

(** A client that sends, or receives one message and settles it. *)
Inductive client_op := ClientSend (v : bytes) | ClientReceive (verdict : settle_op).

(** The abstract queue: [nack] puts the message back at the end. *)
Fixpoint fifo (ops : list client_op) (q : list bytes) : option (list bytes * list bytes) :=
  match ops with
  | [] => Some ([], q)
  | ClientSend v :: ops' => fifo ops' (q ++ [v])
  | ClientReceive verdict :: ops' =>
      match q with
      | [] => None
      | v :: q' =>
          let q'' := match verdict with OpAck => q' | OpNack => q' ++ [v] end in
          match fifo ops' q'' with
          | Some (outs, q3) => Some (v :: outs, q3)
          | None => None
          end
      end
  end.

Definition delivery_settle (op : settle_op) (d : Delivery memE) : prog memE (Result unit) :=
  let* r := match op with OpAck => Delivery.ack d | OpNack => Delivery.nack d end in
  Ret (map_err fst r).

(** The same client against the backend, collecting the payloads. *)
Fixpoint client (p : InMemoryProducer) (c : InMemoryConsumer) (ops : list client_op)
    : prog memE (Result (list (option bytes))) :=
  match ops with
  | [] => Ret (Ok [])
  | ClientSend v :: ops' => let? _ := Producer.send_raw p v in client p c ops'
  | ClientReceive verdict :: ops' =>
      let? d := Consumer.receive c in
      let? _ := delivery_settle verdict d in
      let? outs := client p c ops' in
      Ret (Ok (Delivery.borrow_payload d :: outs))
  end.

#[local] Arguments delivery_settle : simpl never.
#[local] Arguments Consumer.wrap_payload : simpl never.

Section specs.
Context {S : Type} (h : handler memE S) (view : S → mem) `{!Lawful mem_doc h view}.

Lemma wp_mem_settle v c verdict buf d (Q : mem → Result unit → Prop) :
  chans d !! c = Some (buf, true) →
  Q (match verdict with OpAck => d | OpNack => set_chan c (buf ++ [v]) true d end) (Ok tt) →
  wp mem_doc (delivery_settle verdict (Consumer.wrap_payload (mkConsumer c c) v)) d Q.
Proof.
  intros Hc HQ. destruct verdict; [done|].
  unfold delivery_settle, Delivery.nack. simpl.
  by apply wp_bind, wp_bind, wp_bind, wp_bind, wp_bind, (wp_Send _ _ buf).
Qed.

(** C20: the in-memory backend is a FIFO queue.  Whatever sequence of sends
    and of receives settled by [ack] or [nack] a client performs, it
    observes what the abstract FIFO queue observes, and the channel ends up
    holding that queue's contents; in particular nothing is lost,
    duplicated or reordered, and a nacked message goes to the end. *)
Theorem in_memory_refines_fifo s c ops q outs q' :
  chans (view s) !! c = Some (q, true) →
  fifo ops q = Some (outs, q') →
  returns h view (client (mkProducer c) (mkConsumer c c) ops) s
    (λ d' r, r = Ok (Some <$> outs) ∧ chans d' !! c = Some (q', true)).
Proof.
  intros Hc Hf. start_wp. clear s. intros d Hc. revert d q outs Hc Hf.
  induction ops as [|[v|verdict] ops IH]; intros d q outs Hc Hf; cbn [client fifo] in *.
  - by simplify_eq/=.
  - apply wp_bind_ok, wp_bind, (wp_Send _ _ q); [done|]. simpl.
    eapply IH; [|done]. apply set_chan_chans.
  - destruct q as [|v q]; [done|].
    destruct (fifo ops _) as [[outs1 q1]|] eqn:Hf1; [|done]. injection Hf as <- <-.
    apply wp_bind_ok, wp_bind, (wp_Recv _ v q true); [done|]. simpl.
    apply wp_bind_ok, wp_mem_settle with (buf := q); [apply set_chan_chans|].
    apply wp_bind_ok. eapply wp_mono.
    { eapply IH; [|exact Hf1]. destruct verdict; [apply set_chan_chans|].
      rewrite set_chan_twice. apply set_chan_chans. }
    intros d' r [-> Hd']. simpl. done.
Qed.

(** After [k] messages of [buf] have been taken from the state [d0]. *)
Definition filled (c : InMemoryConsumer) (buf : list bytes) (d0 : mem) (start : N) (k : nat)
    (out : list (Delivery memE)) (d : mem) : Prop :=
  (1 <= k <= length buf)%nat ∧ out = Consumer.wrap_payload c <$> take k buf ∧
  chans d = <[c_rx c := (drop k buf, true)]> (chans d0) ∧ start <= clock d.

Lemma filled_next c buf d0 start k out d x rest :
  filled c buf d0 start k out d → drop k buf = x :: rest →
  filled c buf d0 start (Datatypes.S k) (out ++ [Consumer.wrap_payload c x])
    (set_chan (c_rx c) rest true d).
Proof.
  intros ([H1 H2]&->&Hch&Hclk) Hdrop.
  assert (buf !! k = Some x) as Hx by (by rewrite <-(Nat.add_0_r k), <-lookup_drop, Hdrop).
  pose proof (lookup_lt_Some _ _ _ Hx) as Hlt. apply drop_S in Hx as HdropS.
  rewrite Hdrop in HdropS. injection HdropS as Hrest. unfold filled. split_and!; try done; try lia.
  - by rewrite (take_S_r _ _ x), fmap_app by done.
  - unfold set_chan. simpl. by rewrite Hch, insert_insert_eq, Hrest.
Qed.

(** One round of the loop: it goes on below the limit, or leaves at the
    limit, with an empty queue, or after the deadline. *)
Lemma wp_mem_fill c n deadline buf d0 start k out d :
  filled c buf d0 start k out d → N.of_nat k < n →
  wp mem_doc (Consumer.fill c n deadline start out) d (λ d' r,
    match r with
    | inl out' => N.of_nat (Datatypes.S k) < n ∧ filled c buf d0 start (Datatypes.S k) out' d'
    | inr out' => ∃ k', filled c buf d0 start k' out' d' ∧ N.of_nat k' <= n ∧
        (N.of_nat k' < N.min n (N.of_nat (length buf)) → start + as_nanos deadline <= clock d')
    end).
Proof.
  intros Hf Hkn. pose proof Hf as ([H1 H2]&Hout&Hch&Hclk). unfold Consumer.fill.
  apply wp_bind, (wp_TryRecv _ (drop k buf) true); [by rewrite Hch, lookup_insert_eq|].
  destruct (drop k buf) as [|x rest] eqn:Hdrop.
  { intros e. apply wp_Ret. exists k. split_and!; [done|lia|].
    pose proof (length_drop buf k) as Hlen. rewrite Hdrop in Hlen. simpl in Hlen. lia. }
  pose proof (filled_next _ _ _ _ _ _ _ _ _ Hf Hdrop) as Hnext.
  assert (length (out ++ [Consumer.wrap_payload c x]) = Datatypes.S k) as ->.
  { rewrite Hout, length_app, length_fmap, length_take. simpl. lia. }
  destruct (N.leb_spec n (N.of_nat (Datatypes.S k))).
  { apply wp_Ret. exists (Datatypes.S k). split_and!; [done|lia..]. }
  apply wp_bind, wp_InstantNow. intros now Hnow. destruct Hnext as (Hk'&Ho'&Hc'&Hs').
  assert (filled c buf d0 start (Datatypes.S k) (out ++ [Consumer.wrap_payload c x])
    (at_clock now (set_chan (c_rx c) rest true d))) as Hnext.
  { split_and!; [lia|lia|done|done|]. simpl in *. lia. }
  destruct (N.leb_spec (as_nanos deadline) (now - start)); apply wp_Ret; [|done].
  exists (Datatypes.S k). split; [done|]. split; [lia|]. intros _. simpl in *. lia.
Qed.

(** What [receive_all] takes. *)
Definition taken_all (n : N) (deadline : Duration) (buf : list bytes) (k : nat) (d d' : mem) : Prop :=
  (k <= length buf)%nat ∧ N.of_nat k <= N.max 1 n ∧ (buf ≠ [] → 1 <= k)%nat ∧
  (N.of_nat k < N.min (N.max 1 n) (N.of_nat (length buf)) →
   clock d + as_nanos deadline <= clock d').

Lemma wp_mem_receive_all delivery_size c n deadline buf d :
  chans d !! c_rx c = Some (buf, true) → delivery_size * n <= ISIZE_MAX →
  wp mem_doc (Consumer.receive_all delivery_size c n deadline) d (λ d' r,
    ∃ k, r = Ok (Consumer.wrap_payload c <$> take k buf) ∧
      chans d' = <[c_rx c := (drop k buf, true)]> (chans d) ∧ taken_all n deadline buf k d d').
Proof.
  intros Hc Hcap. unfold Consumer.receive_all, vec_with_capacity, taken_all.
  apply N.leb_le in Hcap. rewrite Hcap. cbn [lift bind].
  apply wp_bind, wp_InstantNow. intros start Hstart.
  apply wp_bind, (wp_TimeoutRecv _ _ buf true); [done|].
  destruct buf as [|v buf].
  { intros e. simpl. exists O. rewrite insert_id by done. split_and!; try done; simpl; lia. }
  destruct (N.ltb_spec 1 n) as [Hn|Hn]; simpl.
  2:{ exists 1%nat. simpl. rewrite ?drop_0, ?take_0. split_and!; try done; simpl; lia. }
  apply wp_bind, wp_loop with (λ m out d', ∃ k, m = (N.to_nat n - k)%nat ∧ N.of_nat k < n ∧
    filled c (v :: buf) d start k out d') (N.to_nat n - 1)%nat; [lia| |].
  - exists 1%nat. split_and!; [done|lia|]. unfold filled. simpl.
    split_and!; try done; lia.
  - intros m out d1 (k&->&Hkn&Hf). eapply wp_mono; [by eapply wp_mem_fill|].
    intros d2 [out'|out']; simpl.
    + intros [Hlt Hf']. exists (N.to_nat n - Datatypes.S k)%nat. split; [lia|]. eauto.
    + intros (k'&([Hk1 Hk2]&->&Hch&_)&Hle&Hearly). exists k'.
      split_and!; try done; lia.
Qed.

(** C28: [receive_all] returns a prefix of the queue, in order and each
    message as a fresh delivery, and leaves the rest.  It never returns
    more than [max(1, max_messages)] messages: one when [max_messages] is
    0.  It returns a message whenever there is one, and stops short of the
    limit only when the queue is empty or the deadline has passed. *)
Theorem in_memory_receive_all delivery_size s c n deadline buf :
  chans (view s) !! c_rx c = Some (buf, true) →
  delivery_size * n <= ISIZE_MAX →
  returns h view (Consumer.receive_all delivery_size c n deadline) s (λ d' r,
    ∃ k, r = Ok (Consumer.wrap_payload c <$> take k buf) ∧
      chans d' = <[c_rx c := (drop k buf, true)]> (chans (view s)) ∧
      (k <= length buf)%nat ∧ N.of_nat k <= N.max 1 n ∧
      (buf ≠ [] → 1 <= k)%nat ∧
      (N.of_nat k < N.min (N.max 1 n) (N.of_nat (length buf)) →
       clock (view s) + as_nanos deadline <= clock d')).
Proof. intros Hc Hcap. start_wp. intros d Hc. by apply wp_mem_receive_all. Qed.

(** A scheduled message is accepted without touching the channel: one
    task is spawned.  Running that task puts exactly this message at the
    end of the queue, and not before the delay has passed. *)
Theorem in_memory_scheduled s c payload delay s1 buf :
  returns h view (Producer.send_raw_scheduled (mkProducer c) payload delay) s
    (λ d' r, r = Ok tt ∧ chans d' = chans (view s) ∧
             tasks d' = tasks (view s) ++ [DelayedSend c payload delay]) ∧
  (chans (view s1) !! c = Some (buf, true) →
   returns h view (Producer.delayed_send (DelayedSend c payload delay)) s1
     (λ d' _, chans d' = <[c := (buf ++ [payload], true)]> (chans (view s1)) ∧
              clock (view s1) + as_nanos delay <= clock d')).
Proof.
  split.
  - start_wp. intros d. unfold Producer.send_raw_scheduled.
    apply wp_bind, wp_call. split; [done|]. by intros d' [] ->.
  - intros Hc. start_wp. intros d Hc. unfold Producer.delayed_send.
    apply wp_bind, wp_call. split; [done|]. intros d1 [] (n&Hn&->).
    apply wp_bind, (wp_Send _ _ buf); [done|]. simpl. done.
Qed.

(** [nack] after the consumer is gone fails and hands the delivery back,
    but it cannot be retried: the copy of the payload has been given away,
    and the second attempt fails with [CannotAckOrNackTwice]. *)
Theorem in_memory_nack_not_retryable s c v buf :
  chans (view s) !! c_tx c = Some (buf, false) →
  returns h view
    (let* r := Delivery.nack (Consumer.wrap_payload c v) in
     match r with
     | Ok _ => Ret None
     | Err (e1, d1) =>
         let* r2 := Delivery.nack d1 in
         Ret (Some (e1, match r2 with Ok _ => None | Err (e2, _) => Some e2 end))
     end) s
    (λ d' o, d' = view s ∧ ∃ e, o = Some (Generic e, Some CannotAckOrNackTwice)).
Proof.
  intros Hc. start_wp. intros d Hc.
  unfold Delivery.nack, Consumer.wrap_payload. simpl.
  do 4 apply wp_bind. apply wp_bind, (wp_Send_closed _ _ buf); [done|].
  intros e. simpl. split; [done|]. by exists e.
Qed.
End specs.

(** ** The hypotheses can hold *)

Definition mem0 : mem := mkMem {[ 0%nat := ([bstr "a"; bstr "b"; bstr "c"], true) ]} 5 [].
Definition mem0_closed : mem := mkMem {[ 0%nat := ([], false) ]} 5 [].

Lemma in_memory_refines_fifo_witness :
  returns mem_serve id
    (client (mkProducer 0) (mkConsumer 0 0) [ClientReceive OpNack; ClientSend (bstr "z")]) mem0
    (λ d' r, r = Ok (Some <$> [bstr "a"]) ∧
       chans d' !! 0%nat = Some ([bstr "b"; bstr "c"; bstr "a"; bstr "z"], true)).
Proof.
  apply (in_memory_refines_fifo mem_serve id mem0 0%nat
    [ClientReceive OpNack; ClientSend (bstr "z")] [bstr "a"; bstr "b"; bstr "c"]); done.
Defined.

Lemma in_memory_receive_all_witness :
  returns mem_serve id
    (Consumer.receive_all 40 (mkConsumer 0 0) 2 (from_secs 1)) mem0 (λ d' r,
    ∃ k, r = Ok (Consumer.wrap_payload (mkConsumer 0 0) <$>
                 take k [bstr "a"; bstr "b"; bstr "c"]) ∧
      chans d' = <[0%nat := (drop k [bstr "a"; bstr "b"; bstr "c"], true)]> (chans mem0) ∧
      (k <= 3)%nat ∧ N.of_nat k <= N.max 1 2 ∧
      ([bstr "a"; bstr "b"; bstr "c"] ≠ [] → 1 <= k)%nat ∧
      (N.of_nat k < N.min (N.max 1 2) 3 → clock mem0 + as_nanos (from_secs 1) <= clock d')).
Proof.
  apply (in_memory_receive_all mem_serve id 40 mem0 (mkConsumer 0 0) 2 (from_secs 1)
    [bstr "a"; bstr "b"; bstr "c"]); done.
Defined.

Lemma in_memory_scheduled_witness :
  returns mem_serve id (Producer.delayed_send (DelayedSend 0 (bstr "z") (from_secs 1))) mem0
    (λ d' _, chans d' = <[0%nat := ([bstr "a"; bstr "b"; bstr "c"; bstr "z"], true)]> (chans mem0) ∧
             clock mem0 + as_nanos (from_secs 1) <= clock d').
Proof.
  apply (in_memory_scheduled mem_serve id mem0 0%nat (bstr "z") (from_secs 1) mem0
    [bstr "a"; bstr "b"; bstr "c"]); done.
Defined.

Lemma in_memory_nack_not_retryable_witness :
  returns mem_serve id
    (let* r := Delivery.nack (Consumer.wrap_payload (mkConsumer 0 0) (bstr "a")) in
     match r with
     | Ok _ => Ret None
     | Err (e1, d1) =>
         let* r2 := Delivery.nack d1 in
         Ret (Some (e1, match r2 with Ok _ => None | Err (e2, _) => Some e2 end))
     end) mem0_closed
    (λ d' o, d' = id mem0_closed ∧ ∃ e, o = Some (Generic e, Some CannotAckOrNackTwice)).
Proof.
  apply (in_memory_nack_not_retryable mem_serve id mem0_closed (mkConsumer 0 0) (bstr "a") []).
  done.
Defined.
