(* ===== verification/InMemoryDyn.v ===== *)
(** * The in-memory backend behind the dynamic wrappers

    A client that builds a pair with [make_dynamic] and works through
    [DynProducer], [DynConsumer] and [DynAcker] ([queue/producer.rs],
    [queue/consumer.rs], [queue/acker.rs], [builder.rs]), with nothing but the
    trait methods, on the backend of [backends/in_memory.rs]. *)
From S2P Require Import Prelude RustStd Effects Omniqueue Queue InMemory.

(** ** A client of the traits *)

(** What is received is tried to be settled as often as the client likes, on
    its acker. *)
Inductive dyn_op :=
| DynSend (v : bytes)
| DynSendBatch (vs : list bytes)
| DynReceive (tries : list settle_op)
| DynReceiveAll (max_messages : N) (deadline : Duration) (tries : list settle_op).

(** The payload of a delivery, and what the attempts to settle it gave. *)
Abbreviation observation := (option bytes * list (Result unit))%type.

Fixpoint settle_each (tries : list settle_op) (ds : list (Delivery memE))
    : prog memE (list observation) :=
  match ds with
  | [] => Ret []
  | d :: ds' =>
      let* rs := settle_all tries (d_acker d) in
      let* os := settle_each tries ds' in Ret ((Delivery.borrow_payload d, rs) :: os)
  end.

Fixpoint dyn_client (p : DynProducer memE) (c : DynConsumer memE) (ops : list dyn_op)
    : prog memE (Result (list observation)) :=
  match ops with
  | [] => Ret (Ok [])
  | DynSend v :: ops' =>
      let? _ := @send_raw _ _ DynProducer_producer p v in dyn_client p c ops'
  | DynSendBatch vs :: ops' =>
      let? _ := @send_raw_batch _ _ DynProducer_producer p vs in dyn_client p c ops'
  | DynReceive tries :: ops' =>
      let? d := receive c in
      let* os := settle_each tries [d] in
      let? rest := dyn_client p c ops' in Ret (Ok (os ++ rest))
  | DynReceiveAll n deadline tries :: ops' =>
      let? ds := receive_all c n deadline in
      let* os := settle_each tries ds in
      let? rest := dyn_client p c ops' in Ret (Ok (os ++ rest))
  end.

Definition dyn_session (delivery_size : N) (ops : list dyn_op)
    : prog memE (Result (list observation)) :=
  let? '(p, c) := QueueBuilder.dyn_build_pair (QueueBuilder.make_dynamic (mem_builder delivery_size)) in
  dyn_client p c ops.

(** ** The queue that it sees *)

(** The first attempt settles the delivery, later ones are refused. *)
Definition answers (tries : list settle_op) : list (Result unit) :=
  match tries with
  | [] => []
  | _ :: later => Ok tt :: replicate (length later) (Err CannotAckOrNackTwice)
  end.

(** A nack puts the message back. *)
Definition put_back (tries : list settle_op) (v : bytes) : list bytes :=
  match tries with OpNack :: _ => [v] | _ => [] end.

Definition observed (tries : list settle_op) (v : bytes) : observation := (Some v, answers tries).

(** What the client may rely on when the queue holds [q]: whatever number of
    messages each [receive_all] takes, no operation waits for ever and in the
    end the observations and the queue satisfy [Q]. *)
Fixpoint fifo_promises (delivery_size : N) (ops : list dyn_op) (q : list bytes)
    (Q : list observation → list bytes → Prop) : Prop :=
  match ops with
  | [] => Q [] q
  | DynSend v :: ops' => fifo_promises delivery_size ops' (q ++ [v]) Q
  | DynSendBatch vs :: ops' => fifo_promises delivery_size ops' (q ++ vs) Q
  | DynReceive tries :: ops' =>
      match q with
      | [] => False
      | v :: q' => fifo_promises delivery_size ops' (q' ++ put_back tries v)
                     (λ os, Q (observed tries v :: os))
      end
  | DynReceiveAll n _ tries :: ops' =>
      (delivery_size * n <= ISIZE_MAX)%N ∧
      ∀ k, (k <= length q)%nat → (N.of_nat k <= N.max 1 n)%N → (q ≠ [] → 1 <= k)%nat →
        fifo_promises delivery_size ops' (drop k q ++ (take k q ≫= put_back tries))
          (λ os, Q ((observed tries <$> take k q) ++ os))
  end.

(** ** Lemmas *)

#[local] Arguments Consumer.wrap_payload : simpl never.

Lemma wp_settled_again tries (a : InMemoryAcker) d (Q : mem → list (Result unit) → Prop) :
  already_acked_or_nacked a = true →
  Q d (replicate (length tries) (Err CannotAckOrNackTwice)) →
  wp mem_doc (settle_all tries (DynAcker_new a)) d Q.
Proof.
  intros Ha. revert Q. induction tries as [|op tries IH]; intros Q HQ; [done|].
  cbn [settle_all]. apply wp_bind. unfold DynAcker_new.
  destruct a as [tx p b]. simpl in Ha. subst b.
  destruct op; simpl; apply wp_bind, IH, HQ.
Qed.

Lemma wp_settle_tries c v tries buf d (Q : mem → list (Result unit) → Prop) :
  chans d !! c = Some (buf, true) →
  (∀ d', chans d' !! c = Some (buf ++ put_back tries v, true) → Q d' (answers tries)) →
  wp mem_doc (settle_all tries (d_acker (Consumer.wrap_payload (mkConsumer c c) v))) d Q.
Proof.
  intros Hc HQ. destruct tries as [|op tries].
  { apply wp_Ret, HQ. by rewrite app_nil_r. }
  cbn [settle_all]. apply wp_bind. destruct op; simpl.
  - apply wp_bind, wp_settled_again; [done|]. apply HQ. by rewrite app_nil_r.
  - do 4 apply wp_bind. apply (wp_Send _ _ buf); [done|].
    apply wp_bind, wp_settled_again; [done|]. apply HQ, set_chan_chans.
Qed.

Lemma wp_settle_each c tries vs buf d (Q : mem → list observation → Prop) :
  chans d !! c = Some (buf, true) →
  (∀ d', chans d' !! c = Some (buf ++ (vs ≫= put_back tries), true) →
     Q d' (observed tries <$> vs)) →
  wp mem_doc (settle_each tries (Consumer.wrap_payload (mkConsumer c c) <$> vs)) d Q.
Proof.
  revert buf d Q. induction vs as [|v vs IH]; intros buf d Q Hc HQ; csimpl in *.
  { apply HQ. by rewrite app_nil_r. }
  apply wp_bind, (wp_settle_tries c v tries buf); [done|]. intros d1 Hc1.
  apply wp_bind, (IH (buf ++ put_back tries v)); [done|]. intros d2 Hc2.
  apply wp_Ret, HQ. by rewrite app_assoc.
Qed.

Lemma wp_dyn_send_batch c vs buf d (Q : mem → Result unit → Prop) :
  chans d !! c = Some (buf, true) →
  (∀ d', chans d' !! c = Some (buf ++ vs, true) → Q d' (Ok tt)) →
  wp mem_doc (@send_raw_batch _ _ DynProducer_producer (DynProducer.new (mkProducer c)) vs) d Q.
Proof.
  intros Hc HQ. apply wp_for_each with (λ rest d', ∃ done, vs = done ++ rest ∧
    chans d' !! c = Some (buf ++ done, true)).
  - exists []. by rewrite app_nil_r.
  - intros v rest d1 (done&->&Hd1). apply wp_bind, (wp_Send _ _ (buf ++ done)); [exact Hd1|].
    exists (done ++ [v]). split; [by rewrite <-app_assoc|].
    rewrite (app_assoc buf). apply set_chan_chans.
  - intros d1 (done&->&Hd1). apply HQ. by rewrite app_nil_r in *.
Qed.

Section pair.
Context (delivery_size : N) (c : chan).
#[local] Existing Instance mem_consumer.

Definition the_producer : DynProducer memE := DynProducer.new (mkProducer c).
Definition the_consumer : DynConsumer memE :=
  @DynConsumer.new memE _ (mem_consumer delivery_size) (mkConsumer c c).

Lemma wp_dyn_receive v buf d (Q : mem → Result (Delivery memE) → Prop) :
  chans d !! c = Some (v :: buf, true) →
  Q (set_chan c buf true d) (Ok (Consumer.wrap_payload (mkConsumer c c) v)) →
  wp mem_doc (receive the_consumer) d Q.
Proof.
  intros Hc HQ. apply wp_bind_ok, wp_bind, (wp_Recv _ v buf true); [done|]. simpl.
  unfold bind_ok. simpl. by rewrite rewrap_id.
Qed.

Lemma wp_dyn_receive_all n deadline buf d (Q : mem → Result (list (Delivery memE)) → Prop) :
  chans d !! c = Some (buf, true) → (delivery_size * n <= ISIZE_MAX)%N →
  (∀ d' k, chans d' !! c = Some (drop k buf, true) → (k <= length buf)%nat →
     (N.of_nat k <= N.max 1 n)%N → (buf ≠ [] → 1 <= k)%nat →
     Q d' (Ok (Consumer.wrap_payload (mkConsumer c c) <$> take k buf))) →
  wp mem_doc (receive_all the_consumer n deadline) d Q.
Proof.
  intros Hc Hcap HQ. apply wp_bind_ok. eapply wp_mono.
  { by apply (wp_mem_receive_all delivery_size (mkConsumer c c) n deadline buf). }
  intros d' r (k&->&Hch&Hk&Hmax&Hne&_). apply wp_Ret. rewrite fmap_rewrap_id.
  apply HQ; try done. by rewrite Hch, lookup_insert_eq.
Qed.

Lemma wp_dyn_client ops q d (Q : list observation → list bytes → Prop) :
  chans d !! c = Some (q, true) → fifo_promises delivery_size ops q Q →
  wp mem_doc (dyn_client the_producer the_consumer ops) d (λ d' r,
    ∃ os q', r = Ok os ∧ chans d' !! c = Some (q', true) ∧ Q os q').
Proof.
  revert q d Q. induction ops as [|[v|vs|tries|n deadline tries] ops IH]; intros q d Q Hc Hp;
    cbn [dyn_client fifo_promises] in *.
  - apply wp_Ret. eauto.
  - apply wp_bind_ok, wp_bind, (wp_Send _ _ q); [done|]. eapply IH; [|done]. apply set_chan_chans.
  - apply wp_bind_ok, (wp_dyn_send_batch _ _ q); [done|]. intros d' Hd'. by eapply IH.
  - destruct q as [|v q]; [done|]. apply wp_bind_ok, (wp_dyn_receive v q); [done|].
    apply wp_bind, (wp_settle_each c tries [v] q); [apply set_chan_chans|]. intros d' Hd'.
    simpl in Hd'. rewrite app_nil_r in Hd'. apply wp_bind_ok.
    eapply wp_mono; [by eapply IH|]. intros d2 r (os&q'&->&Hq'&HQ). apply wp_Ret. eauto.
  - destruct Hp as [Hcap Hp]. apply wp_bind_ok, (wp_dyn_receive_all _ _ q); [done..|].
    intros d1 k Hd1 Hk Hmax Hne. apply wp_bind, (wp_settle_each c tries (take k q) (drop k q)); [done|].
    intros d' Hd'. apply wp_bind_ok.
    eapply wp_mono; [eapply IH; [exact Hd'|by apply Hp]|].
    intros d2 r (os&q'&->&Hq'&HQ). apply wp_Ret. eauto.
Qed.
End pair.

(** ** The refinement *)

(** C25: the dynamic pair is a FIFO queue whose deliveries are settled once.
    A client builds a dynamic pair and sends, sends batches, receives single
    messages or several, and tries to settle what it gets as often as it
    likes, all through the wrappers.  On any channel that keeps to tokio's
    documentation it observes what a FIFO queue promises: messages come in
    the order of the sends; the first attempt on a delivery succeeds and
    decides, an ack removes the message and a nack puts it at the end; every
    later attempt fails with [CannotAckOrNackTwice] and does nothing. *)
Theorem dynamic_pair_refines_fifo {S : Type} (h : handler memE S) (view : S → mem)
    `{!Lawful mem_doc h view} delivery_size ops Q s :
  fifo_promises delivery_size ops [] Q →
  returns h view (dyn_session delivery_size ops) s (λ d r,
    ∃ c os q, r = Ok os ∧ chans (view s) !! c = None ∧ chans d !! c = Some (q, true) ∧ Q os q).
Proof.
  intros Hp. start_wp. intros d. unfold dyn_session.
  apply wp_bind_ok, wp_bind_ok, wp_bind, wp_call. split; [done|]. intros d1 c [Hc ->]. simpl.
  eapply wp_mono; [by apply (wp_dyn_client delivery_size c ops []); [apply set_chan_chans|]|].
  intros d' r (os&q&->&Hq&HQ). by exists c, os, q.
Qed.

(** ** A witness *)

(** Three messages; the first is nacked and then acked in vain, so that it is
    received once more, behind the others. *)
Lemma dynamic_pair_refines_fifo_witness :
  returns mem_serve id
    (dyn_session 40 [DynSend (bstr "a"); DynSendBatch [bstr "b"; bstr "c"];
       DynReceive [OpNack; OpAck]; DynReceiveAll 1 (from_secs 1) [OpAck; OpNack];
       DynReceive []; DynReceive [OpAck]]) (mkMem ∅ 5 [])
    (λ d r, ∃ c, chans d !! c = Some ([], true) ∧
      r = Ok [(Some (bstr "a"), [Ok tt; Err CannotAckOrNackTwice]);
              (Some (bstr "b"), [Ok tt; Err CannotAckOrNackTwice]);
              (Some (bstr "c"), []); (Some (bstr "a"), [Ok tt])]).
Proof.
  eapply returns_mono.
  - apply (dynamic_pair_refines_fifo mem_serve id 40 _ (λ os q, q = [] ∧
      os = [(Some (bstr "a"), [Ok tt; Err CannotAckOrNackTwice]);
            (Some (bstr "b"), [Ok tt; Err CannotAckOrNackTwice]);
            (Some (bstr "c"), []); (Some (bstr "a"), [Ok tt])])).
    simpl. split; [done|]. intros k Hk Hmax Hne.
    assert (k = 1%nat) as -> by (specialize (Hne ltac:(done)); lia). by split.
  - intros d r (c&os&q&->&_&Hq&->&->). by exists c.
Defined.
