(* ===== verification/InMemoryTests.v ===== *)
(** * The unit tests of the in-memory backend ([mod tests] of
    [backends/in_memory.rs])

    Each test is a program like the functions it calls: a failed assertion
    and an [unwrap] of an error panic, [now.elapsed()] reads the clock.  The
    theorem is that they pass, in every environment that keeps to [tokio]'s
    documentation and is not slow.  [test_scheduled], for which a spawned task
    must run while [receive_all] waits, is in [InMemoryTimed]. *)
From S2P Require Import Prelude RustStd Effects Omniqueue Queue InMemory.

(** ** Test vocabulary *)

Definition unwrap {E A F} (r : result A F) : prog E A :=
  match r with Ok a => Ret a | Err _ => Panic end.
Definition unwrap_some {E A} (o : option A) : prog E A :=
  match o with Some a => Ret a | None => Panic end.
Definition assert {E} (b : bool) : prog E unit := if b then Ret tt else Panic.
Definition assert_eq {E A} `{EqDecision A} (x y : A) : prog E unit := assert (bool_decide (x = y)).

(** [Vec::remove(0)] *)
Definition remove0 {E A} (xs : list A) : prog E (A * list A) :=
  match xs with x :: xs' => Ret (x, xs') | [] => Panic end.

(** [p.await.unwrap()] *)
Notation "'let!' x ':=' p 'in' k" := (bind (bind p unwrap) (λ x, k))
  (at level 10, x binder, p at level 100, k at level 200) : prog_scope.

(** [now.elapsed()], in nanoseconds. *)
Definition elapsed (now : N) : prog memE N := let* t := call InstantNow in Ret (t - now).

(** ** The tests *)

Record TypeA := mkTypeA { ta_a : Z }.
#[export] Instance TypeA_eq_dec : EqDecision TypeA.
Proof. solve_decision. Defined.

Record ExType := mkExType { ex_a : N }.
#[export] Instance ExType_eq_dec : EqDecision ExType.
Proof. solve_decision. Defined.

Section tests.
(** The derived instances of [serde]. *)
Context `{Serialize TypeA, DeserializeOwned TypeA, Serialize ExType, DeserializeOwned ExType}.
Variable delivery_size : N.

Definition build_pair : prog memE (Result (InMemoryProducer * InMemoryConsumer)) :=
  QueueBuilder.build_pair (mem_builder delivery_size).
Abbreviation receive_all := (Consumer.receive_all delivery_size).

(** [d.payload_serde_json::<T>().unwrap().unwrap()] *)
Definition json_payload_of {T} `{DeserializeOwned T} (d : Delivery memE) : prog memE T :=
  let* o := unwrap (Delivery.payload_serde_json d) in unwrap_some o.

Definition simple_queue_test : prog memE unit :=
  let! '(p, c) := build_pair in
  let! _ := send_serde_json p (mkTypeA 13) in
  let! d := Consumer.receive c in
  let* v := json_payload_of d in
  let* _ := assert_eq v (mkTypeA 13) in
  let* b := unwrap (to_vec (mkTypeA 14)) in
  let! _ := send_bytes p b in
  let! d := Consumer.receive c in
  let* b := unwrap_some (Delivery.borrow_payload d) in
  let* v := unwrap (from_slice b) in
  assert_eq v (mkTypeA 14).

(** [let d = xs.remove(0); assert_eq!(.., payload); d.ack().await.unwrap();] *)
Definition take_expecting (payload : ExType) (xs : list (Delivery memE))
    : prog memE (list (Delivery memE)) :=
  let* '(d, xs) := remove0 xs in
  let* v := json_payload_of d in
  let* _ := assert_eq v payload in
  let! _ := Delivery.ack d in
  Ret xs.

Definition test_send_recv_all_partial : prog memE unit :=
  let payload := mkExType 2 in
  let! '(p, c) := build_pair in
  let! _ := send_serde_json p payload in
  let deadline := from_secs 1 in
  let* now := call InstantNow in
  let! xs := receive_all c 2 deadline in
  let* _ := assert_eq (length xs) 1%nat in
  let* _ := take_expecting payload xs in
  let* t := elapsed now in
  assert (t <=? as_nanos deadline).

Definition test_send_recv_all_full : prog memE unit :=
  let payload1 := mkExType 1 in
  let payload2 := mkExType 2 in
  let! '(p, c) := build_pair in
  let! _ := send_serde_json p payload1 in
  let! _ := send_serde_json p payload2 in
  let deadline := from_secs 1 in
  let* now := call InstantNow in
  let! xs := receive_all c 2 deadline in
  let* _ := assert_eq (length xs) 2%nat in
  let* xs := take_expecting payload1 xs in
  let* _ := take_expecting payload2 xs in
  let* t := elapsed now in
  assert (t <? as_nanos deadline).

Definition test_send_recv_all_full_then_partial : prog memE unit :=
  let payload1 := mkExType 1 in
  let payload2 := mkExType 2 in
  let payload3 := mkExType 3 in
  let! '(p, c) := build_pair in
  let! _ := send_serde_json p payload1 in
  let! _ := send_serde_json p payload2 in
  let! _ := send_serde_json p payload3 in
  let deadline := from_secs 1 in
  let* now1 := call InstantNow in
  let! xs := receive_all c 2 deadline in
  let* _ := assert_eq (length xs) 2%nat in
  let* xs := take_expecting payload1 xs in
  let* _ := take_expecting payload2 xs in
  let* t := elapsed now1 in
  let* _ := assert (t <? as_nanos deadline) in
  let* now2 := call InstantNow in
  let! ys := receive_all c 2 deadline in
  let* _ := assert_eq (length ys) 1%nat in
  let* _ := take_expecting payload3 ys in
  let* t := elapsed now2 in
  assert (t <=? as_nanos deadline).

Definition test_send_recv_all_late_arriving_items : prog memE unit :=
  let! '(p, c) := build_pair in
  let deadline := from_secs 1 in
  let* now := call InstantNow in
  let! xs := receive_all c 2 deadline in
  let* elapsed := elapsed now in
  let* _ := assert_eq (length xs) 0%nat in
  let* _ := assert (as_nanos deadline <=? elapsed) in
  assert (elapsed <=? as_nanos deadline + as_nanos (from_millis 200)).

Definition tests : list (prog memE unit) :=
  [simple_queue_test; test_send_recv_all_partial; test_send_recv_all_full;
   test_send_recv_all_full_then_partial; test_send_recv_all_late_arriving_items].
End tests.

(** ** An environment that is not slow *)

(** [tokio]'s documentation, and at most [slack] nanoseconds pass between
    two readings of the clock, timeouts apart. *)
Definition prompt_documented (slack : N) X (e : memE X) (d d' : mem) (x : X) : Prop :=
  mem_documented X e d d' x ∧
  match e with InstantNow => clock d' <= clock d + slack | _ => True end.
Definition prompt_doc (slack : N) : env_doc memE mem :=
  EnvDoc mem_ready (prompt_documented slack).

Section rules.
Variable slack : N.
Abbreviation wp := (wp (prompt_doc slack)).

(** The channel [c] holds [buf], and the clock is in the interval. *)
Definition holding (c : chan) (buf : list bytes) (lo hi : N) (d : mem) : Prop :=
  chans d !! c = Some (buf, true) ∧ lo <= clock d <= hi.

Lemma wp_UnboundedChannel d (Q : mem → chan → Prop) :
  (∀ c d', holding c [] (clock d) (clock d) d' → Q d' c) → wp (call UnboundedChannel) d Q.
Proof.
  intros HQ. apply wp_call. split; [done|]. intros d' c [[Hc ->] _]. apply HQ.
  split; [apply set_chan_chans|]. simpl. lia.
Qed.

Lemma wp_prompt_Send c v buf lo hi d (Q : mem → result unit StdError → Prop) :
  holding c buf lo hi d → (∀ d', holding c (buf ++ [v]) lo hi d' → Q d' (Ok tt)) →
  wp (call (Send c v)) d Q.
Proof.
  intros [Hc Ht] HQ. apply wp_call. split; [done|]. intros d' r [Hd _]. simpl in Hd.
  rewrite Hc in Hd. destruct Hd as [-> ->]. apply HQ. split; [apply set_chan_chans|done].
Qed.

Lemma wp_prompt_Recv c v buf lo hi d (Q : mem → option bytes → Prop) :
  holding c (v :: buf) lo hi d → (∀ d', holding c buf lo hi d' → Q d' (Some v)) →
  wp (call (Recv c)) d Q.
Proof.
  intros [Hc Ht] HQ. apply wp_call. split; [by eexists _, _, _|]. intros d' r [Hd _].
  simpl in Hd. rewrite Hc in Hd. destruct Hd as [-> ->].
  apply HQ. split; [apply set_chan_chans|done].
Qed.

Lemma wp_prompt_TryRecv c buf lo hi d (Q : mem → result bytes StdError → Prop) :
  holding c buf lo hi d →
  match buf with
  | v :: buf' => ∀ d', holding c buf' lo hi d' → Q d' (Ok v)
  | [] => ∀ d' e, holding c [] lo hi d' → Q d' (Err e)
  end → wp (call (TryRecv c)) d Q.
Proof.
  intros [Hc Ht] HQ. apply wp_call. split; [done|]. intros d' r [Hd _]. simpl in Hd.
  rewrite Hc in Hd. destruct buf as [|v buf].
  - destruct Hd as [[e ->] ->]. by apply HQ.
  - destruct Hd as [-> ->]. apply HQ. split; [apply set_chan_chans|done].
Qed.

Lemma wp_prompt_TimeoutRecv t c buf lo hi d (Q : mem → result (option bytes) StdError → Prop) :
  holding c buf lo hi d →
  match buf with
  | v :: buf' => ∀ d', holding c buf' lo hi d' → Q d' (Ok (Some v))
  | [] => ∀ d' e, holding c [] (lo + as_nanos t) (hi + as_nanos t) d' → Q d' (Err e)
  end → wp (call (TimeoutRecv t c)) d Q.
Proof.
  intros [Hc Ht] HQ. apply wp_call. split; [done|]. intros d' r [Hd _]. simpl in Hd.
  rewrite Hc in Hd. destruct buf as [|v buf].
  - destruct Hd as [[e ->] ->]. apply HQ. split; [done|]. simpl. lia.
  - destruct Hd as [-> ->]. apply HQ. split; [apply set_chan_chans|done].
Qed.

Lemma wp_prompt_InstantNow c buf lo hi d (Q : mem → N → Prop) :
  holding c buf lo hi d →
  (∀ d' n, lo <= n <= hi + slack → holding c buf n n d' → Q d' n) →
  wp (call InstantNow) d Q.
Proof.
  intros [Hc Ht] HQ. apply wp_call. split; [done|]. intros d' n [[Hn ->] Hs]. simpl in Hs.
  apply HQ; [lia|]. split; [done|]. simpl. lia.
Qed.

(** ** What the tests call *)

Lemma wp_unwrap {A F} (p : prog memE (result A F)) d (Q : mem → A → Prop) :
  wp p d (λ d' r, match r with Ok a => Q d' a | Err _ => False end) → wp (bind p unwrap) d Q.
Proof. intros Hp. apply wp_bind. eapply wp_mono; [exact Hp|]. by intros d' []. Qed.

Lemma wp_assert_eq {A} `{EqDecision A} (x y : A) d (Q : mem → unit → Prop) :
  x = y → Q d tt → wp (assert_eq x y) d Q.
Proof. intros Hxy HQ. unfold assert_eq. by rewrite bool_decide_eq_true_2. Qed.

Lemma wp_assert (b : bool) d (Q : mem → unit → Prop) : b = true → Q d tt → wp (assert b) d Q.
Proof. by intros ->. Qed.

Lemma wp_prompt_elapsed c buf now lo hi d (Q : mem → N → Prop) :
  holding c buf lo hi d → now <= lo →
  (∀ d' t, lo - now <= t <= hi + slack - now → (∃ n, holding c buf n n d') → Q d' t) →
  wp (elapsed now) d Q.
Proof.
  intros Hd Hlo HQ. unfold elapsed. apply wp_bind. eapply wp_prompt_InstantNow; [exact Hd|].
  intros d' n Hn Hd'. apply HQ; [lia|by exists n].
Qed.

(** [receive_all] for two messages takes what is there, or waits for the
    deadline when nothing is. *)
Lemma wp_prompt_receive_all delivery_size c buf deadline lo hi d
    (Q : mem → Result (list (Delivery memE)) → Prop) :
  delivery_size * 2 <= ISIZE_MAX → holding c buf lo hi d →
  (∀ d', let wait := match buf with [] => as_nanos deadline | _ => 0 end in
     holding c (drop 2 buf) (lo + wait) (hi + slack + wait) d' →
     Q d' (Ok (Consumer.wrap_payload (mkConsumer c c) <$> take 2 buf))) →
  wp (Consumer.receive_all delivery_size (mkConsumer c c) 2 deadline) d Q.
Proof.
  intros Hcap Hd HQ. unfold Consumer.receive_all, vec_with_capacity.
  apply N.leb_le in Hcap. rewrite Hcap. cbn [lift bind].
  apply wp_bind. eapply wp_prompt_InstantNow; [exact Hd|]. intros d1 n1 Hn1 Hd1.
  assert (∀ w d', holding c (drop 2 buf) (n1 + w) (n1 + w) d' →
    holding c (drop 2 buf) (lo + w) (hi + slack + w) d') as Hwide.
  { intros w d' [Hc Ht]. split; [done|lia]. }
  apply wp_bind. eapply wp_prompt_TimeoutRecv; [exact Hd1|].
  destruct buf as [|v [|w buf]]; simpl in HQ, Hwide |- *.
  - intros d2 e Hd2. apply HQ, Hwide, Hd2.
  - intros d2 Hd2. apply wp_bind, wp_bind, wp_bind. eapply wp_prompt_TryRecv; [exact Hd2|].
    intros d3 e Hd3. simpl. apply HQ, Hwide. by rewrite N.add_0_r.
  - intros d2 Hd2. apply wp_bind, wp_bind, wp_bind. eapply wp_prompt_TryRecv; [exact Hd2|].
    intros d3 Hd3. simpl. apply HQ, Hwide. by rewrite N.add_0_r.
Qed.
End rules.

(** ** The tests pass *)

Section pass.
Context `{Serialize TypeA, DeserializeOwned TypeA, Serialize ExType, DeserializeOwned ExType}.
(** What [serde] documents of the derived instances. *)
Context (json_TypeA : ∀ a, (- 2 ^ 31 <= a < 2 ^ 31)%Z →
  ∃ b, to_vec (mkTypeA a) = Ok b ∧ from_slice b = Ok (mkTypeA a)).
Context (json_ExType : ∀ a, a < 2 ^ 8 →
  ∃ b, to_vec (mkExType a) = Ok b ∧ from_slice b = Ok (mkExType a)).
Variables (delivery_size slack : N).
Context (Hsize : delivery_size * 2 <= ISIZE_MAX) (Hslack : slack <= as_nanos (from_millis 100)).
Abbreviation wp := (wp (prompt_doc slack)).

(** A buffered text that is read back as the value. *)
Definition text {T} `{DeserializeOwned T} (v : T) (b : bytes) : Prop := from_slice b = Ok v.

Lemma wp_test_build {A} (f : InMemoryProducer * InMemoryConsumer → prog memE A) d
    (Q : mem → A → Prop) :
  (∀ c d', holding c [] (clock d) (clock d) d' → wp (f (mkProducer c, mkConsumer c c)) d' Q) →
  wp (bind (bind (build_pair delivery_size) unwrap) f) d Q.
Proof.
  intros Hf. apply wp_bind, wp_unwrap. unfold build_pair. simpl.
  apply wp_bind, wp_UnboundedChannel. intros c d' Hd. by apply Hf.
Qed.

Lemma wp_test_send {V A} `{Serialize V, DeserializeOwned V} (v : V) c buf lo hi d
    (f : unit → prog memE A) (Q : mem → A → Prop) :
  (∃ b, to_vec v = Ok b ∧ text v b) → holding c buf lo hi d →
  (∀ b d', text v b → holding c (buf ++ [b]) lo hi d' → wp (f tt) d' Q) →
  wp (bind (bind (send_serde_json (mkProducer c) v) unwrap) f) d Q.
Proof.
  intros (b&Hb&Ht) Hd Hf. apply wp_bind, wp_unwrap. simpl.
  unfold Delegate.send_serde_json, Producer.send_serde_json. rewrite Hb. simpl.
  apply wp_bind_ok. simpl. apply wp_bind. eapply wp_prompt_Send; [exact Hd|].
  intros d' Hd'. simpl. by apply (Hf b).
Qed.

Lemma wp_test_take {A} v b bs c buf lo hi d (f : list (Delivery memE) → prog memE A)
    (Q : mem → A → Prop) :
  text v b → holding c buf lo hi d →
  wp (f (Consumer.wrap_payload (mkConsumer c c) <$> bs)) d Q →
  wp (bind (take_expecting v (Consumer.wrap_payload (mkConsumer c c) <$> b :: bs)) f) d Q.
Proof.
  unfold text. intros Hv Hd Hf. apply wp_bind. unfold take_expecting, json_payload_of.
  simpl. unfold Delivery.payload_serde_json. simpl. rewrite Hv. simpl.
  apply wp_bind, wp_assert_eq; [done|]. exact Hf.
Qed.

Lemma test_times :
  as_nanos (from_secs 1) = 10 * as_nanos (from_millis 100) ∧
  as_nanos (from_millis 200) = 2 * as_nanos (from_millis 100) ∧
  0 < as_nanos (from_millis 100).
Proof. done. Qed.

(** One step of a test: [send] sends one more message, [receive_two] and
    [reading] also name the state in which the next step starts. *)
Ltac send d Hd b Hb :=
  eapply wp_test_send; [first [by apply json_TypeA|by apply json_ExType]|exact Hd|];
  clear d Hd; intros b d Hb Hd.
Ltac reading n Hn d Hd :=
  apply wp_bind; eapply wp_prompt_InstantNow; [exact Hd|];
  clear d Hd; intros d n Hn Hd.
Ltac receive_two d Hd :=
  apply wp_bind, wp_unwrap; eapply wp_prompt_receive_all; [exact Hsize|exact Hd|];
  clear d Hd; intros d wait Hd; cbn [app drop] in wait; subst wait; apply wp_bind, wp_assert_eq; [done|].
(** The check of the elapsed time. *)
Ltac in_time d Hd :=
  apply wp_bind; eapply wp_prompt_elapsed; [exact Hd|lia|]; clear d Hd;
  let t := fresh "t" in let Ht := fresh "Ht" in let n := fresh "n" in
  intros d t Ht [n Hd]; pose proof test_times;
  first [apply wp_bind, wp_assert|apply wp_assert];
  [first [apply N.ltb_lt|apply N.leb_le]; lia|].

Lemma wp_simple_queue_test d0 : wp (simple_queue_test delivery_size) d0 (λ _ _, True).
Proof.
  apply wp_test_build. intros c d Hd.
  send d Hd b1 Hb1. apply wp_bind, wp_unwrap, wp_bind.
  eapply wp_prompt_Recv; [exact Hd|]. clear d Hd. intros d Hd. simpl.
  apply wp_bind. unfold json_payload_of, Delivery.payload_serde_json. simpl.
  unfold text in Hb1. rewrite Hb1. simpl. apply wp_bind.
  destruct (json_TypeA 14) as (b2&Hb2&Ht); [done|]. rewrite Hb2. simpl.
  apply wp_bind, wp_unwrap. simpl. apply wp_bind. eapply wp_prompt_Send; [exact Hd|].
  clear d Hd. intros d Hd. simpl. apply wp_bind, wp_unwrap, wp_bind.
  eapply wp_prompt_Recv; [exact Hd|]. clear d Hd. intros d Hd. simpl.
  by rewrite Ht.
Qed.

Lemma wp_test_partial d0 : wp (test_send_recv_all_partial delivery_size) d0 (λ _ _, True).
Proof.
  apply wp_test_build. intros c d Hd.
  send d Hd b1 Hb1. reading now Hnow d Hd. receive_two d Hd.
  eapply (wp_test_take _ _ []); [exact Hb1|exact Hd|].
  in_time d Hd. done.
Qed.

Lemma wp_test_full d0 : wp (test_send_recv_all_full delivery_size) d0 (λ _ _, True).
Proof.
  apply wp_test_build. intros c d Hd.
  send d Hd b1 Hb1. send d Hd b2 Hb2. reading now Hnow d Hd. receive_two d Hd.
  eapply wp_test_take; [exact Hb1|exact Hd|].
  eapply (wp_test_take _ _ []); [exact Hb2|exact Hd|].
  in_time d Hd. done.
Qed.

Lemma wp_test_full_then_partial d0 :
  wp (test_send_recv_all_full_then_partial delivery_size) d0 (λ _ _, True).
Proof.
  apply wp_test_build. intros c d Hd.
  send d Hd b1 Hb1. send d Hd b2 Hb2. send d Hd b3 Hb3.
  reading now Hnow d Hd. receive_two d Hd.
  eapply wp_test_take; [exact Hb1|exact Hd|].
  eapply (wp_test_take _ _ []); [exact Hb2|exact Hd|].
  in_time d Hd. reading now2 Hnow2 d Hd. receive_two d Hd.
  eapply (wp_test_take _ _ []); [exact Hb3|exact Hd|].
  in_time d Hd. done.
Qed.

Lemma wp_test_late d0 :
  wp (test_send_recv_all_late_arriving_items delivery_size) d0 (λ _ _, True).
Proof.
  apply wp_test_build. intros c d Hd.
  reading now Hnow d Hd. apply wp_bind, wp_unwrap. eapply wp_prompt_receive_all; [exact Hsize|exact Hd|].
  clear d Hd. intros d wait Hd.
  apply wp_bind. eapply wp_prompt_elapsed; [exact Hd|lia|].
  clear d Hd. intros d t Ht _. subst wait. cbn [app] in Ht.
  apply wp_bind, wp_assert_eq; [done|].
  pose proof test_times.
  apply wp_bind, wp_assert; [apply N.leb_le; lia|].
  apply wp_assert; [apply N.leb_le; lia|done].
Qed.

Context {S : Type} (h : handler memE S) (view : S → mem) `{!Lawful (prompt_doc slack) h view}.

(** C31: the unit tests of the in-memory backend pass: in every environment
    that keeps to [tokio]'s documentation and takes at most 100 milliseconds
    from one reading of the clock to the next, each of them returns, with no
    assertion failing, no [unwrap] panicking and no receive blocking. *)
Theorem in_memory_tests_pass s :
  Forall (λ test : prog memE unit, returns h view test s (λ _ _, True)) (tests delivery_size).
Proof.
  assert (∀ test : prog memE unit, (∀ d, wp test d (λ _ _, True)) → returns h view test s (λ _ _, True)) as Hwp.
  { intros test Ht. start_wp. apply Ht. }
  repeat constructor; apply Hwp; auto using wp_simple_queue_test, wp_test_partial, wp_test_full,
    wp_test_full_then_partial, wp_test_late.
Qed.
End pass.

(** ** Witness *)

(** Decimal texts: what [serde] makes of one integer. *)
#[local] Instance TypeA_ser : Serialize TypeA :=
  {| to_vec v := Ok (usize_to_string (Z.to_N (ta_a v + 2 ^ 31)));
     to_string v := Err (boxed "not used") |}.
#[local] Instance TypeA_de : DeserializeOwned TypeA := λ b,
  map_err parse_int_error (result_map (λ n, mkTypeA (Z.of_N n - 2 ^ 31)) (parse_usize b)).
#[local] Instance ExType_ser : Serialize ExType :=
  {| to_vec v := Ok (usize_to_string (ex_a v)); to_string v := Err (boxed "not used") |}.
#[local] Instance ExType_de : DeserializeOwned ExType := λ b,
  map_err parse_int_error (result_map mkExType (parse_usize b)).

Lemma TypeA_serde a : (- 2 ^ 31 <= a < 2 ^ 31)%Z →
  ∃ b, to_vec (mkTypeA a) = Ok b ∧ from_slice b = Ok (mkTypeA a).
Proof.
  intros Ha. eexists. split; [reflexivity|]. unfold from_slice, TypeA_de. simpl.
  rewrite parse_usize_to_string by (unfold is_usize, USIZE_MAX; lia). simpl.
  do 2 f_equal. lia.
Qed.

Lemma ExType_serde a : a < 2 ^ 8 →
  ∃ b, to_vec (mkExType a) = Ok b ∧ from_slice b = Ok (mkExType a).
Proof.
  intros Ha. eexists. split; [reflexivity|]. unfold from_slice, ExType_de. simpl.
  by rewrite parse_usize_to_string by (unfold is_usize, USIZE_MAX; lia).
Qed.

#[local] Instance mem_serve_prompt : Lawful (prompt_doc 1) mem_serve id.
Proof.
  split; [|apply mem_serve_lawful]. intros X e d d' x He. split; [by apply mem_serve_lawful|].
  destruct e; try done. simpl in He. simplify_eq/=. lia.
Qed.

Lemma in_memory_tests_pass_witness :
  Forall (λ test : prog memE unit, returns mem_serve id test mem0 (λ _ _, True)) (tests 40).
Proof.
  apply (in_memory_tests_pass TypeA_serde ExType_serde 40 1 ltac:(by vm_compute) ltac:(by vm_compute)). exact _.
Defined.
