(* ===== verification/InMemoryTimed.v ===== *)
(** * The unit test of scheduled messages ([test_scheduled] of
    [backends/in_memory.rs])

    The test waits for a message that a spawned task sends after a delay, so
    that the two must run concurrently and in time.  The threads are the
    programs of the model, the test and [Producer.delayed_send]; the runtime
    polls whoever can go on, and its clock moves while nobody can, or while
    somebody is kept waiting.  The theorem is that the test passes however
    the threads are scheduled, unless they are kept waiting for too long. *)
From S2P Require Import Prelude RustStd Effects Omniqueue Queue InMemory InMemoryTests.
Open Scope N_scope.

(** ** The runtime *)

(** A program with the moment at which it has come to its next call. *)
Definition thread : Type := N * prog memE unit.

(** A call that has been waiting since [since]: sleeping ends when the time
    has come, a receive with a deadline when there is a message or the
    deadline has passed, and the clock shows the time. *)
Definition timed (since : N) X (e : memE X) (d d' : mem) : X → Prop :=
  match e in memE X return X → Prop with
  | Sleep t => λ _, since + as_nanos t <= clock d ∧ d' = d
  | InstantNow => λ n, n = clock d ∧ d' = d
  | TimeoutRecv t c => λ r,
      match chans d !! c with
      | Some (v :: buf, alive) => r = Ok (Some v) ∧ d' = set_chan c buf alive d
      | _ => since + as_nanos t <= clock d ∧ (∃ e, r = Err e) ∧ d' = d
      end
  | e => λ x, mem_ready _ e d ∧ mem_documented _ e d d' x
  end.

Definition thread_step (d : mem) (th : thread) (d' : mem) (th' : thread) : Prop :=
  match th.2 with
  | Vis e k => ∃ x, timed th.1 _ e d d' x ∧ th' = (clock d', k x)
  | _ => False
  end.

(** [lag] is how long threads that could go on may still be kept waiting, in
    nanoseconds; of the tasks that have been spawned, the first [started] have
    begun to run. *)
Record runtime := mkRuntime {
  store : mem;
  lag : N;
  main : thread;
  running : list thread;
  started : nat;
}.

(** Nobody can go on at the time [n]. *)
Definition idle_at (n : N) (s : runtime) : Prop :=
  tasks (store s) !! started s = None ∧
  ∀ th, th = main s ∨ th ∈ running s → ∀ d' th', ¬ thread_step (at_clock n (store s)) th d' th'.

Inductive rt_step (s : runtime) : runtime → Prop :=
| main_goes d' th' :
    thread_step (store s) (main s) d' th' →
    rt_step s (mkRuntime d' (lag s) th' (running s) (started s))
| task_goes l th r d' th' :
    running s = l ++ th :: r → thread_step (store s) th d' th' →
    rt_step s (mkRuntime d' (lag s) (main s) (l ++ th' :: r) (started s))
| task_starts t :
    tasks (store s) !! started s = Some t →
    rt_step s (mkRuntime (store s) (lag s) (main s)
      (running s ++ [(clock (store s), Producer.delayed_send t)]) (S (started s)))
| lags n :
    0 < n <= lag s →
    rt_step s (mkRuntime (at_clock (clock (store s) + n) (store s)) (lag s - n) (main s)
      (running s) (started s))
| waits n :
    clock (store s) < n → (∀ m, clock (store s) <= m < n → idle_at m s) →
    rt_step s (mkRuntime (at_clock n (store s)) (lag s) (main s) (running s) (started s)).

(** However the threads are scheduled, the main one returns. *)
Inductive passes (s : runtime) : Prop :=
| passed t : main s = (t, Ret tt) → passes s
| passes_on : (∃ s', rt_step s s') → (∀ s', rt_step s s' → passes s') → passes s.

(** A program on its own, with a runtime that has nothing else to do. *)
Definition launch (p : prog memE unit) (lag : N) (d : mem) : runtime :=
  mkRuntime d lag (clock d, p) [] (length (tasks d)).

(** ** The test *)

(** [Duration * u32] *)
Definition Duration_mul (d : Duration) (k : N) : outcome Duration :=
  let n := as_nanos d * k in
  if n / NANOS_PER_SEC <? 2 ^ 64 then Done (mkDuration (n / NANOS_PER_SEC) (n mod NANOS_PER_SEC))
  else Panics.

Section test.
Context `{Serialize TypeA, DeserializeOwned TypeA, Serialize ExType, DeserializeOwned ExType}.
Variable delivery_size : N.

Definition test_scheduled : prog memE unit :=
  let payload1 := mkExType 1 in
  let! '(p, c) := build_pair delivery_size in
  let delay := from_millis 100 in
  let* now := call InstantNow in
  let! _ := send_serde_json_scheduled p payload1 delay in
  let* deadline := lift (Duration_mul delay 2) in
  let! xs := Consumer.receive_all delivery_size c 1 deadline in
  let* delivery := unwrap_some (head xs) in
  let* t := elapsed now in
  let* _ := assert (as_nanos delay <=? t) in
  let* t := elapsed now in
  let* limit := lift (Duration_mul delay 2) in
  let* _ := assert (t <? as_nanos limit) in
  let* v := unwrap (Delivery.payload_serde_json delivery) in
  assert_eq (Some payload1) v.
End test.

(** ** Its calls

    What is left of the test, as it is seen between two of its calls: the next
    call, and what follows for the replies that may come.  [D] is the delay in
    nanoseconds, [v] the text that is sent, [now] the first reading of the
    clock. *)
Definition D : N := 100000000.
Definition delay : Duration := from_millis 100.

Section stages.
Variables (c : chan) (v : bytes) (now : N).

Definition next {X} (e : memE X) (P : X → prog memE unit → Prop) (p : prog memE unit) : Prop :=
  ∃ k, p = Vis e k ∧ ∀ x, P x (k x).

Definition reads_after (p : prog memE unit) : Prop :=
  next InstantNow (λ n p, n < now + 2 * D → p = Ret tt) p.
Definition reads_before (p : prog memE unit) : Prop :=
  next InstantNow (λ n p, now + D <= n → reads_after p) p.
Definition receives (p : prog memE unit) : Prop :=
  ∃ t, as_nanos t = 2 * D ∧ next (TimeoutRecv t c) (λ r p, r = Ok (Some v) → reads_before p) p.
Definition reads_start (p : prog memE unit) : Prop := next InstantNow (λ _, receives) p.
Definition spawns (p : prog memE unit) : Prop :=
  next (Spawn (DelayedSend c v delay)) (λ _, reads_start) p.
End stages.
Definition reads_now (c : chan) (v : bytes) (p : prog memE unit) : Prop :=
  next InstantNow (λ now, spawns c v now) p.
Definition builds (v : bytes) (p : prog memE unit) : Prop :=
  next UnboundedChannel (λ c, reads_now c v) p.

Section stages_of_test.
Context `{Serialize TypeA, DeserializeOwned TypeA, Serialize ExType, DeserializeOwned ExType}.

Ltac next_call := with_strategy transparent [call] (eexists; split; [reflexivity|]).

Lemma test_scheduled_builds delivery_size v :
  delivery_size <= ISIZE_MAX → to_vec (mkExType 1) = Ok v → from_slice v = Ok (mkExType 1) →
  builds v (test_scheduled delivery_size).
Proof.
  intros Hsize Hv Hback. unfold test_scheduled, builds, reads_now, spawns, reads_start.
  next_call. intros c. simpl. next_call. intros now. simpl.
  unfold Delegate.send_serde_json_scheduled, Producer.send_serde_json_scheduled. rewrite Hv. simpl.
  next_call. intros []. simpl. unfold Consumer.receive_all, vec_with_capacity.
  replace (delivery_size * 1 <=? ISIZE_MAX) with true by (symmetry; apply N.leb_le; lia).
  cbn [lift bind]. next_call. intros start. simpl. eexists. split; [|next_call; intros r Hr].
  { done. }
  rewrite Hr. simpl. next_call. intros n1 Hn1. simpl.
  unfold D in Hn1.
  replace (as_nanos (from_millis 100) <=? n1 - now) with true
    by (symmetry; apply N.leb_le; change (as_nanos (from_millis 100)) with 100000000; lia).
  cbn [assert bind]. next_call. intros n2 Hn2. simpl. unfold D in Hn2.
  match goal with |- context [assert ?b] => replace b with true end.
  2:{ symmetry. apply N.ltb_lt. change (as_nanos _) with 200000000. lia. }
  simpl. unfold Delivery.payload_serde_json. simpl. rewrite Hback. simpl.
  unfold assert_eq. by rewrite bool_decide_eq_true_2.
Qed.
End stages_of_test.

(** ** The invariant *)

Section invariant.
Variable v : bytes.

(** Where the message is, with the number of calls that it still takes to send
    it and the time that may still pass: not started, asleep, about to be
    sent, or sent. *)
Inductive errand (c : chan) (now : N) (s : runtime) : nat → N → Prop :=
| unstarted u :
    started s = O → running s = [] → chans (store s) !! c = Some ([], true) →
    clock (store s) + lag s < now + D → u = lag s →
    errand c now s 4 u
| asleep w u :
    started s = 1%nat → running s = [(w, Producer.delayed_send (DelayedSend c v delay))] →
    chans (store s) !! c = Some ([], true) →
    now <= w <= clock (store s) → w + lag s < now + D →
    u = lag s + (w + D - clock (store s)) →
    errand c now s 3 u
| awake t k u :
    started s = 1%nat → running s = [(t, Vis (Send c v) k)] → (∀ x, k x = Ret tt) →
    chans (store s) !! c = Some ([], true) → now + D <= clock (store s) →
    u = lag s → errand c now s 2 u
| sent t u :
    started s = 1%nat → running s = [(t, Ret tt)] →
    chans (store s) !! c = Some ([v], true) → now + D <= clock (store s) →
    u = lag s → errand c now s 1 u.

(** What the test waits for after the clock showed [now]. *)
Inductive awaiting (c : chan) (now : N) (th : thread) : nat → Prop :=
| awaiting_start : reads_start c v now th.2 → awaiting c now th 6
| awaiting_message : receives c v now th.2 → now <= th.1 → awaiting c now th 5.

Inductive finishing (now : N) (th : thread) : nat → Prop :=
| finishing_before : reads_before now th.2 → finishing now th 3
| finishing_after : reads_after now th.2 → finishing now th 2
| finishing_done : th.2 = Ret tt → finishing now th 1.

(** The whole, with the calls that are left and the time that may pass until
    the next. *)
Inductive inv (s : runtime) : nat → N → Prop :=
| inv_builds u :
    builds v (main s).2 → running s = [] → tasks (store s) = [] → started s = O →
    lag s < D → u = lag s → inv s 20 u
| inv_now c u :
    reads_now c v (main s).2 → running s = [] → tasks (store s) = [] → started s = O →
    chans (store s) !! c = Some ([], true) → lag s < D → u = lag s →
    inv s 19 u
| inv_spawns c now u :
    spawns c v now (main s).2 → running s = [] → tasks (store s) = [] → started s = O →
    chans (store s) !! c = Some ([], true) →
    now <= clock (store s) → clock (store s) + lag s < now + D → u = lag s → inv s 18 u
| inv_waits c now k l u :
    awaiting c now (main s) k → errand c now s l u → tasks (store s) = [DelayedSend c v delay] →
    now <= clock (store s) → clock (store s) + lag s < now + 2 * D → inv s (k + l) u
| inv_ends now k t u :
    finishing now (main s) k → running s = [(t, Ret tt)] → tasks (store s) !! started s = None →
    now + D <= clock (store s) → clock (store s) + lag s < now + 2 * D → u = lag s →
    inv s k u.

(** A step leads to fewer calls, or to less time. *)
Definition closer (k : nat) (u : N) (s : runtime) : Prop :=
  ∃ k' u', inv s k' u' ∧ ((k' < k)%nat ∨ k' = k ∧ u' < u).

Definition advances (k : nat) (u : N) (s : runtime) : Prop :=
  (∃ t, main s = (t, Ret tt)) ∨ (∃ s', rt_step s s') ∧ ∀ s', rt_step s s' → closer k u s'.

Lemma at_clock_same d : at_clock (clock d) d = d.
Proof. by destruct d. Qed.

(** While somebody can go on, nobody waits. *)
Lemma nobody_waits s n :
  (∃ d' th', thread_step (store s) (main s) d' th') ∨
  (∃ th d' th', th ∈ running s ∧ thread_step (store s) th d' th') ∨
  tasks (store s) !! started s ≠ None →
  clock (store s) < n → (∀ m, clock (store s) <= m < n → idle_at m s) → False.
Proof.
  intros Hgo Hn Hidle. destruct (Hidle (clock (store s)) ltac:(lia)) as [Ht Hth].
  rewrite at_clock_same in Hth.
  destruct Hgo as [(d'&th'&Hgo)|[(th&d'&th'&Hin&Hgo)|Hgo]]; [..|done].
  - exact (Hth (main s) ltac:(by left) d' th' Hgo).
  - exact (Hth th ltac:(by right) d' th' Hgo).
Qed.

Lemma closer_here s k u k' u' :
  inv s k' u' → (k' < k)%nat ∨ k' = k ∧ u' < u → closer k u s.
Proof. intros. by exists k', u'. Qed.

Lemma thread_next {X} (e : memE X) P d th d' th' :
  next e P th.2 → thread_step d th d' th' →
  ∃ x, timed th.1 X e d d' x ∧ th'.1 = clock d' ∧ P x th'.2.
Proof.
  destruct th as [t p]. intros (k&Hp&HP). simpl in Hp. subst p. intros (x&Hx&->). by exists x.
Qed.

Lemma thread_can {X} (e : memE X) P d th d' x :
  next e P th.2 → timed th.1 X e d d' x → ∃ d' th', thread_step d th d' th'.
Proof.
  destruct th as [t p]. intros (k&Hp&HP) Hx. simpl in Hp. subst p.
  exists d', (clock d', k x). by exists x.
Qed.

(** The test alone can go on: it makes its next call, or is kept waiting. *)
Lemma advances_alone s k u :
  (∀ th d' th', th ∈ running s → ¬ thread_step (store s) th d' th') →
  tasks (store s) !! started s = None →
  (∃ d' th', thread_step (store s) (main s) d' th') →
  (∀ d' th', thread_step (store s) (main s) d' th' →
     closer k u (mkRuntime d' (lag s) th' (running s) (started s))) →
  (∀ n, 0 < n <= lag s → closer k u (mkRuntime (at_clock (clock (store s) + n) (store s)) (lag s - n)
     (main s) (running s) (started s))) →
  advances k u s.
Proof.
  intros Hr Ht Hgo Hmain Hlag. right. split.
  { destruct Hgo as (d'&th'&Hgo). eexists. by apply main_goes. }
  intros s' Hs. destruct Hs as [d' th' Hs|l th r d' th' Hl Hs|t Hs|n Hn|n Hn Hidle].
  - by apply Hmain.
  - exfalso. apply (Hr th d' th'); [|done]. rewrite Hl.
    apply elem_of_app. right. by left.
  - congruence.
  - by apply Hlag.
  - exfalso. eapply nobody_waits; [by left|done..].
Qed.

Lemma advances_builds s :
  builds v (main s).2 → running s = [] → tasks (store s) = [] → started s = O → lag s < D →
  advances 20 (lag s) s.
Proof.
  intros Hp Hr Ht Hs Hlag. apply advances_alone; [by rewrite Hr; intros ??? ?%not_elem_of_nil|by rewrite Ht|..].
  - eapply (thread_can UnboundedChannel); [exact Hp|]. simpl. split; [done|].
    split; [apply fresh_chan_None|reflexivity].
  - intros d' th' Hstep. destruct (thread_next _ _ _ _ _ _ Hp Hstep) as (c&(_&_&->)&_&Hnow).
    eapply closer_here; [eapply (inv_now _ c); simpl; try done; apply set_chan_chans|left; lia].
  - intros n Hn. eapply closer_here; [apply inv_builds; simpl; try done; lia|right; simpl; lia].
Qed.

Lemma advances_now s c :
  reads_now c v (main s).2 → running s = [] → tasks (store s) = [] → started s = O →
  chans (store s) !! c = Some ([], true) → lag s < D → advances 19 (lag s) s.
Proof.
  intros Hp Hr Ht Hs Hc Hlag. apply advances_alone; [by rewrite Hr; intros ??? ?%not_elem_of_nil|by rewrite Ht|..].
  - by eapply (thread_can InstantNow); [exact Hp|].
  - intros d' th' Hstep. destruct (thread_next _ _ _ _ _ _ Hp Hstep) as (now&[-> ->]&_&Hsp).
    eapply closer_here; [eapply (inv_spawns _ c (clock (store s))); simpl; try done; lia|left; lia].
  - intros n Hn. eapply closer_here; [apply (inv_now _ c); simpl; try done; lia|right; simpl; lia].
Qed.

Lemma advances_spawns s c now :
  spawns c v now (main s).2 → running s = [] → tasks (store s) = [] → started s = O →
  chans (store s) !! c = Some ([], true) →
  now <= clock (store s) → clock (store s) + lag s < now + D → advances 18 (lag s) s.
Proof.
  intros Hp Hr Ht Hs Hc Hnow Hlag.
  apply advances_alone; [by rewrite Hr; intros ??? ?%not_elem_of_nil|by rewrite Ht|..].
  - eapply (thread_can _ _ _ _ _ tt); [exact Hp|]. by split.
  - intros d' th' Hstep. destruct (thread_next _ _ _ _ _ _ Hp Hstep) as ([]&(_&->)&_&Hstart).
    apply (closer_here _ _ _ (6 + 4) (lag s)); [apply (inv_waits _ c now); simpl|].
    + by apply awaiting_start.
    + by apply unstarted.
    + by rewrite Ht.
    + done.
    + unfold D in *. lia.
    + left. lia.
  - intros n Hn. eapply closer_here; [apply (inv_spawns _ c now); simpl; try done; lia|right; simpl; lia].
Qed.

Lemma advances_ends s now k t :
  finishing now (main s) k → running s = [(t, Ret tt)] → tasks (store s) !! started s = None →
  now + D <= clock (store s) → clock (store s) + lag s < now + 2 * D → advances k (lag s) s.
Proof.
  intros Hp Hr Ht Hlo Hhi.
  destruct (decide (k = 1%nat)) as [->|Hk].
  { left. destruct (main s) as [t' p] eqn:Hm. inversion Hp as [| |Hdone]. simpl in Hdone.
    subst p. eauto. }
  apply advances_alone; [rewrite Hr; by intros ??? ->%list_elem_of_singleton []|done|..].
  - destruct Hp as [Hp|Hp|Hp]; [| |done]; by eapply (thread_can InstantNow); [exact Hp|].
  - intros d' th' Hstep. destruct Hp as [Hp|Hp|Hp]; [..|done];
      destruct (thread_next _ _ _ _ _ _ Hp Hstep) as (n&[-> ->]&_&Hn); specialize (Hn ltac:(lia)).
    + apply (closer_here _ _ _ 2 (lag s)); [|left; lia].
      eapply (inv_ends _ now); simpl; try done. by apply finishing_after.
    + apply (closer_here _ _ _ 1 (lag s)); [|left; lia].
      eapply (inv_ends _ now); simpl; try done. by apply finishing_done.
  - intros n Hn. eapply closer_here; [eapply (inv_ends _ now); simpl; try done; lia|right; simpl; lia].
Qed.
(** ** While the test waits *)

Lemma delayed_send_calls c d :
  Producer.delayed_send (DelayedSend c v d) = Vis (Sleep d) (λ _, Vis (Send c v) (λ _, Ret tt)).
Proof. with_strategy transparent [call] (reflexivity). Qed.

Lemma singleton_split {A} (x : A) l y r : [x] = l ++ y :: r → l = [] ∧ y = x ∧ r = [].
Proof. destruct l as [|z [|]]; intros [=]; simplify_eq/=; done. Qed.

(** The errand does not look at the test. *)
Lemma errand_main c now s l u th :
  errand c now s l u → errand c now (mkRuntime (store s) (lag s) th (running s) (started s)) l u.
Proof. intros []; [eapply unstarted|eapply asleep|eapply awake|eapply sent]; done. Qed.

(** The spawned task makes a call. *)
Lemma errand_goes c now s l u before th after d' th' :
  errand c now s l u → running s = before ++ th :: after → thread_step (store s) th d' th' →
  clock d' = clock (store s) ∧ tasks d' = tasks (store s) ∧
  ∃ u', (0 < l)%nat ∧
    errand c now (mkRuntime d' (lag s) (main s) (before ++ th' :: after) (started s)) (pred l) u'.
Proof.
  intros He Hr Hstep. destruct He as [u Hs Hr' Hc Hlag Hu|w u Hs Hr' Hc Hw Hlag Hu|
    t k u Hs Hr' Hk Hc Hlo Hu|t u Hs Hr' Hc Hlo Hu]; rewrite Hr' in Hr;
    [by destruct before|apply singleton_split in Hr as (->&->&->)..].
  - rewrite delayed_send_calls in Hstep. destruct Hstep as ([]&[Ht ->]&->). split_and!; [done|done|].
    exists (lag s). split; [lia|]. eapply awake; simpl; try done.
    change (as_nanos delay) with D in Ht. simpl in Ht. lia.
  - destruct Hstep as (x&[_ Hsend]&->). simpl in Hsend. rewrite Hc in Hsend.
    destruct Hsend as [-> ->]. split_and!; [done|done|]. exists (lag s). split; [lia|].
    eapply sent; simpl; [done|by rewrite Hk|apply set_chan_chans|done|done].
  - done.
Qed.

(** Time passes while threads are kept waiting. *)
Lemma errand_lags c now s l u n :
  errand c now s l u → 0 < n <= lag s →
  ∃ u', u' < u ∧ errand c now (mkRuntime (at_clock (clock (store s) + n) (store s)) (lag s - n)
    (main s) (running s) (started s)) l u'.
Proof.
  intros He Hn. destruct He as [u Hs Hr Hc Hlag Hu|w u Hs Hr Hc Hw Hlag Hu|
    t k u Hs Hr Hk Hc Hlo Hu|t u Hs Hr Hc Hlo Hu].
  - exists (lag s - n). split; [lia|]. apply unstarted; simpl; try done; lia.
  - exists (lag s - n + (w + D - (clock (store s) + n))). split; [lia|].
    apply (asleep _ _ _ w); simpl; try done; lia.
  - exists (lag s - n). split; [lia|]. eapply awake; simpl; try done; lia.
  - exists (lag s - n). split; [lia|]. eapply sent; simpl; try done; lia.
Qed.

(** A message in the channel ends the wait, and there is one before the
    deadline of [receive_all]. *)
Lemma receives_step c now s l u d' th' :
  errand c now s l u → receives c v now (main s).2 → now <= (main s).1 →
  clock (store s) + lag s < now + 2 * D → thread_step (store s) (main s) d' th' →
  l = 1%nat ∧ clock d' = clock (store s) ∧ tasks d' = tasks (store s) ∧ reads_before now th'.2 ∧
    now + D <= clock (store s) ∧ started s = 1%nat ∧ ∃ t, running s = [(t, Ret tt)].
Proof.
  intros He (w&Hw&Hp) Hsince Hhi Hstep.
  destruct (thread_next _ _ _ _ _ _ Hp Hstep) as (r&Hr&_&Hnext). simpl in Hr.
  destruct He as [u Hs Hrun Hc Hlag Hu|w' u Hs Hrun Hc Hw' Hlag Hu|
    t k u Hs Hrun Hk Hc Hlo Hu|t u Hs Hrun Hc Hlo Hu]; rewrite Hc in Hr;
    [destruct Hr as [Hr _]; lia..|].
  destruct Hr as [-> ->]. eauto 10.
Qed.

(** The time passes until the sleeping task wakes up. *)
Lemma asleep_waits c now s w :
  receives c v now (main s).2 → now <= (main s).1 → started s = 1%nat →
  running s = [(w, Producer.delayed_send (DelayedSend c v delay))] →
  chans (store s) !! c = Some ([], true) → tasks (store s) = [DelayedSend c v delay] →
  w < now + D →
  (∃ s', rt_step s s') ∧
  ∀ n, clock (store s) < n → (∀ m, clock (store s) <= m < n → idle_at m s) → n <= w + D.
Proof.
  intros Hp Hsince Hs Hr Hc Ht Hw. rewrite delayed_send_calls in Hr.
  assert (∀ m, w + D <= m → ∃ d' th', thread_step (at_clock m (store s))
    (w, Vis (Sleep delay) (λ _, Vis (Send c v) (λ _, Ret tt))) d' th') as Hwake.
  { intros m Hm. do 2 eexists. exists tt. split; [|reflexivity]. by split. }
  split.
  - destruct (N.le_gt_cases (w + D) (clock (store s))) as [Hle|Hgt].
    { destruct (Hwake _ Hle) as (d'&th'&Hgo). rewrite at_clock_same in Hgo.
      eexists. by eapply (task_goes s [] _ []). }
    eexists. apply (waits s (w + D)); [done|]. intros m Hm. split; [by rewrite Hs, Ht|].
    intros th [->|Hin] d' th' Hstep.
    + destruct Hp as (t&Htt&Hp). destruct (thread_next _ _ _ _ _ _ Hp Hstep) as (r&Htm&_).
      simpl in Htm. rewrite Hc in Htm. destruct Htm as [Htm _]. lia.
    + rewrite Hr in Hin. apply list_elem_of_singleton in Hin as ->.
      destruct Hstep as (x&[Htm _]&_). change (as_nanos delay) with D in Htm. simpl in Htm. lia.
  - intros n Hlt Hidle. destruct (N.le_gt_cases n (w + D)) as [|Hgt]; [done|exfalso].
    set (m := N.max (clock (store s)) (w + D)).
    destruct (Hwake m ltac:(lia)) as (d'&th'&Hgo).
    destruct (Hidle m ltac:(lia)) as [_ Hno]. eapply Hno; [|exact Hgo].
    right. rewrite Hr. by left.
Qed.

(** Somebody goes on, or time passes. *)
Lemma waiting_goes c now s k l u :
  awaiting c now (main s) k → errand c now s l u → tasks (store s) = [DelayedSend c v delay] →
  now <= clock (store s) → clock (store s) + lag s < now + 2 * D →
  (∃ s', rt_step s s') ∧
  ∀ n, clock (store s) < n → (∀ m, clock (store s) <= m < n → idle_at m s) →
    k = 5%nat ∧ ∃ w, l = 3%nat ∧ started s = 1%nat ∧
      running s = [(w, Producer.delayed_send (DelayedSend c v delay))] ∧
      chans (store s) !! c = Some ([], true) ∧ now <= w <= clock (store s) ∧ w + lag s < now + D ∧
      u = lag s + (w + D - clock (store s)) ∧ n <= w + D.
Proof.
  intros Ha He Ht Hnow Hhi.
  assert (∀ n P, clock (store s) < n → (∀ m, clock (store s) <= m < n → idle_at m s) →
    (∃ d' th', thread_step (store s) (main s) d' th') ∨
    (∃ th d' th', th ∈ running s ∧ thread_step (store s) th d' th') ∨
    tasks (store s) !! started s ≠ None → P) as Hbusy.
  { intros n P Hn Hidle Hgo. exfalso. by eapply nobody_waits. }
  assert ((∃ d' th', thread_step (store s) (main s) d' th') → ∃ s', rt_step s s') as Hmain.
  { intros (d'&th'&Hs). eexists. by apply main_goes. }
  assert (∀ th d' th', running s = [th] → thread_step (store s) th d' th' →
    (∃ s', rt_step s s') ∧ ∃ th d' th', th ∈ running s ∧ thread_step (store s) th d' th') as Htask.
  { intros th d' th' Hr Hs. split; [eexists; by apply (task_goes s [] th [])|].
    exists th, d', th'. rewrite Hr. split; [by left|done]. }
  destruct Ha as [Hp|Hp Hsince].
  { assert (∃ d' th', thread_step (store s) (main s) d' th') as Hgo
      by (by eapply (thread_can InstantNow); [exact Hp|]).
    split; [by apply Hmain|]. intros n Hn Hidle. eapply Hbusy; eauto. }
  destruct He as [u Hs Hr Hc Hlag Hu|w u Hs Hr Hc Hw Hlag Hu|
    t k u Hs Hr Hk Hc Hlo Hu|t u Hs Hr Hc Hlo Hu].
  - split; [eexists; apply task_starts; by rewrite Hs, Ht|]. intros n Hn Hidle.
    eapply Hbusy; [done..|]. right; right. by rewrite Hs, Ht.
  - destruct (asleep_waits c now s w Hp Hsince Hs Hr Hc Ht ltac:(lia)) as [He Hn].
    split; [done|]. intros n Hlt Hidle. split; [done|]. exists w. split_and!; try done; try lia.
    by apply Hn.
  - destruct (Htask _ (set_chan c ([] ++ [v]) true (store s)) (clock (store s), k (Ok tt)) Hr) as [He Hgo].
    { exists (Ok tt). split; [|done]. split; [done|]. simpl. by rewrite Hc. }
    split; [exact He|]. intros n Hn Hidle. eapply Hbusy; eauto.
  - assert (∃ d' th', thread_step (store s) (main s) d' th') as Hgo.
    { destruct Hp as (w&Hw&Hp). eapply (thread_can _ _ _ _ _ (Ok (Some v))); [exact Hp|].
      simpl. by rewrite Hc. }
    split; [by apply Hmain|]. intros n Hn Hidle. eapply Hbusy; eauto.
Qed.

Lemma advances_waits s c now k l u :
  awaiting c now (main s) k → errand c now s l u → tasks (store s) = [DelayedSend c v delay] →
  now <= clock (store s) → clock (store s) + lag s < now + 2 * D → advances (k + l) u s.
Proof.
  intros Ha He Ht Hnow Hhi.
  destruct (waiting_goes _ _ _ _ _ _ Ha He Ht Hnow Hhi) as [Hgo Hwait]. right. split; [done|].
  intros s' Hs. destruct Hs as [d' th' Hs|before th after d' th' Hr Hs|t Hs|n Hn|n Hn Hidle].
  - destruct Ha as [Hp|Hp Hsince].
    + destruct (thread_next _ _ _ _ _ _ Hp Hs) as (n&[-> ->]&Hclk&Hrec).
      apply (closer_here _ _ _ (5 + l) u); [|left; lia].
      apply (inv_waits _ c now); simpl; try done; [|by apply errand_main].
      apply awaiting_message; [done|]. by rewrite Hclk.
    + destruct (receives_step _ _ _ _ _ _ _ He Hp Hsince Hhi Hs) as (->&Hclk&Htd&Hb&Hlo&Hst&t&Hr).
      apply (closer_here _ _ _ 3 (lag s)); [|left; lia].
      apply (inv_ends _ now _ t); simpl; rewrite ?Hclk, ?Htd, ?Ht, ?Hst; try done.
      by apply finishing_before.
  - destruct (errand_goes _ _ _ _ _ _ _ _ _ _ He Hr Hs) as (Hclk&Htd&u'&Hl&He').
    apply (closer_here _ _ _ (k + pred l) u'); [|left; lia].
    apply (inv_waits _ c now); simpl; rewrite ?Hclk, ?Htd; done.
  - destruct He as [u Hst Hr Hc Hlag Hu|w u Hst _ _ _ _ _|t' k' u Hst _ _ _ _ _|t' u Hst _ _ _ _];
      rewrite Hst, Ht in Hs; try done.
    injection Hs as <-.
    apply (closer_here _ _ _ (k + 3) (lag s + (clock (store s) + D - clock (store s))));
      [|left; lia].
    apply (inv_waits _ c now); simpl; try done.
    apply (asleep _ _ _ (clock (store s))); simpl; rewrite ?Hr, ?Hst; try done; lia.
  - destruct (errand_lags _ _ _ _ _ _ He Hn) as (u'&Hu&He').
    apply (closer_here _ _ _ (k + l) u'); [|by right].
    apply (inv_waits _ c now); simpl; try done; lia.
  - destruct (Hwait n Hn Hidle) as (->&w&->&Hst&Hr&Hc&Hw&Hlag&->&Hle).
    apply (closer_here _ _ _ (5 + 3) (lag s + (w + D - n))); [|right; lia].
    apply (inv_waits _ c now); simpl; try done; [apply (asleep _ _ _ w); simpl; try done; lia|lia..].
Qed.

Lemma inv_advances s k u : inv s k u → advances k u s.
Proof.
  intros [u' ????? ->|c u' ?????? ->|c now u' ??????? ->|c now k' l u' ?????|now k' t u' ????? ->].
  - by apply advances_builds.
  - by eapply advances_now.
  - by eapply advances_spawns.
  - by eapply advances_waits.
  - by eapply advances_ends.
Qed.

Lemma inv_passes s k u : inv s k u → passes s.
Proof.
  revert u s. induction (lt_wf k) as [k _ IHk]. intros u. induction (N.lt_wf_0 u) as [u _ IHu].
  intros s Hs. destruct (inv_advances _ _ _ Hs) as [[t Ht]|[Hex Hall]]; [by eapply passed|].
  apply passes_on; [done|]. intros s' Hs'.
  destruct (Hall s' Hs') as (k'&u'&Hinv&[Hk|[-> Hu]]); [by eapply IHk|by eapply IHu].
Qed.
End invariant.

(** C32: the unit test of scheduled messages passes: a message sent with a
    delay of 100 milliseconds is received, by a receive that waits for 200, not
    before the delay and before the 200 are over, however the test and the
    task that it spawns are scheduled, as long as they are not kept waiting
    for 100 milliseconds between them. *)
Theorem test_scheduled_passes
    `{Serialize TypeA, DeserializeOwned TypeA, Serialize ExType, DeserializeOwned ExType}
    delivery_size v lag d :
  delivery_size <= ISIZE_MAX → to_vec (mkExType 1) = Ok v → from_slice v = Ok (mkExType 1) →
  tasks d = [] → lag < as_nanos (from_millis 100) →
  passes (launch (test_scheduled delivery_size) lag d).
Proof.
  intros Hsize Hv Hback Ht Hlag. apply (inv_passes v _ 20 lag). apply inv_builds; simpl; try done.
  - by apply test_scheduled_builds.
  - by rewrite Ht.
Qed.

(** ** Witness *)

#[local] Existing Instances TypeA_ser TypeA_de ExType_ser ExType_de.

Lemma test_scheduled_passes_witness : passes (launch (test_scheduled 40) 20000000 mem0).
Proof.
  destruct (ExType_serde 1 eq_refl) as (v&Hv&Hback).
  exact (test_scheduled_passes 40 v 20000000 mem0 ltac:(by vm_compute) Hv Hback eq_refl eq_refl).
Defined.
