(* ===== verification/InMemoryConcurrent.v ===== *)
(** * Any number of users of one in-memory queue at once

    Producers, spawned tasks, consumers and ackers of one channel
    ([backends/in_memory.rs]) as threads, interleaved call by call, that may
    be cancelled at any point.  Unlike with a server, no reply is lost, so
    what goes in and what comes out can be accounted for exactly. *)
From S2P Require Import Prelude RustStd Effects Threads Omniqueue Queue InMemory.
Open Scope N_scope.

(** ** Exact accounts

    [contents] is what the shared state holds; [ins] and [outs] are what a
    call with its reply puts in and takes out. *)
Section flow.
Context {E : Type → Type} {D O A I : Type} (R : env_doc E D).
Context (ok : D → Prop) (contents : D → list I) (ins outs : ∀ X, E X → X → list I).

Class Flow : Prop := flow_call X (e : E X) d d' x :
  ok d → doc R e d d' x →
  ok d' ∧ contents d ++ ins X e x ≡ₚ outs X e x ++ contents d'.

(** A reply that the documentation allows. *)
Definition may_reply {X} (e : E X) (x : X) : Prop := ∃ d d', ok d ∧ doc R e d d' x.

(** The program has put in [i] and taken out [o] so far.  It never puts in
    more than it was [offered], and when it returns its account is as [Q]
    says. *)
Fixpoint accounts {B} (offered : list I) (p : prog E B) (i o : list I)
    (Q : B → list I → list I → Prop) : Prop :=
  i ⊆+ offered ∧
  match p with
  | Ret a => Q a i o
  | Panic | OutOfFuel => True
  | Vis e k => ∀ x, may_reply e x →
      accounts offered (k x) (i ++ ins _ e x) (o ++ outs _ e x) Q
  end.

Lemma accounts_bounded {B} offered (p : prog E B) i o Q : accounts offered p i o Q → i ⊆+ offered.
Proof. destruct p; by intros []. Qed.

Lemma accounts_bind {B C} offered (p : prog E B) (f : B → prog E C) i o Q :
  accounts offered p i o (λ a i' o', accounts offered (f a) i' o' Q) →
  accounts offered (bind p f) i o Q.
Proof.
  revert i o. induction p as [a| | |X e k IH]; intros i o; simpl; try done.
  - by intros [].
  - intros [Hi Hk]. split; [done|]. auto.
Qed.

Lemma accounts_call {X} offered (e : E X) i o Q :
  i ⊆+ offered →
  (∀ x, may_reply e x → i ++ ins _ e x ⊆+ offered ∧ Q x (i ++ ins _ e x) (o ++ outs _ e x)) →
  accounts offered (call e) i o Q.
Proof. intros Hi HQ. with_strategy transparent [call] simpl. auto. Qed.

Lemma accounts_mono {B} offered (p : prog E B) i o (Q Q' : B → list I → list I → Prop) :
  accounts offered p i o Q → (∀ a i' o', i' ⊆+ offered → Q a i' o' → Q' a i' o') →
  accounts offered p i o Q'.
Proof.
  intros Hp HQ. revert i o Hp. induction p as [a| | |X e k IH]; intros i o; simpl; try done.
  - intros [Hi Ha]. auto.
  - intros [Hi Hk]. split; [done|]. auto.
Qed.

Lemma accounts_loop {S B} offered fuel (body : S → prog E (S + B)) s i o
    (J : S → list I → list I → Prop) Q :
  J s i o →
  (∀ s i o, J s i o → accounts offered (body s) i o (λ r i' o',
     match r with inl s' => J s' i' o' | inr a => Q a i' o' end)) →
  accounts offered (loop fuel body s) i o Q.
Proof.
  intros HJ Hb. revert s i o HJ. induction fuel as [|fuel IH]; intros s i o HJ; simpl.
  - split; [|done]. by eapply accounts_bounded, Hb.
  - apply accounts_bind. eapply accounts_mono; [by apply Hb|].
    intros [s'|a] i' o' Hi Hs; [by apply IH|by split].
Qed.

(** *** The account of a run *)

Context (program : O → prog E A) (fits : O → Prop).
Context (offer : O → list I) (accepted given : O → A → list I).

(** What a thread's account says once it has returned. *)
Definition settled (op : O) (r : A) (i o : list I) : Prop :=
  i ≡ₚ accepted op r ∧ o ≡ₚ given op r.

Definition all_offered (tr : list (event (D := D) (A := A))) : list I :=
  tr ≫= λ ev, if ev is EvStart op then offer op else [].
Definition all_accepted (tr : list (event (D := D))) : list I :=
  tr ≫= λ ev, if ev is EvDone op r then accepted op r else [].
Definition all_given (tr : list (event (D := D))) : list I :=
  tr ≫= λ ev, if ev is EvDone op r then given op r else [].

(** The accounts of the threads that run, and of those that were cancelled,
    make up for what the shared state has more or less. *)
Definition accounted (d0 : D) (tr : list event) (s : system (E := E)) : Prop :=
  ok (shared s) ∧
  ∃ (ms : list (list I * list I)) (ci co : list I),
    Forall2 (λ t m, accounts (offer t.1) t.2 m.1 m.2 (settled t.1)) (threads s) ms ∧
    contents d0 ++ all_accepted tr ++ concat ms.*1 ++ ci ≡ₚ
      all_given tr ++ concat ms.*2 ++ co ++ contents (shared s) ∧
    all_accepted tr ++ concat (offer <$> (threads s).*1) ++ ci ⊆+ all_offered tr ∧
    ((EvCrash ∉ tr) → ci = [] ∧ co = []).

Context `{HF : !Flow}.
Hypothesis Hprogram : ∀ op, fits op → accounts (offer op) (program op) [] [] (settled op).

Lemma trace_parts tr ev :
  all_offered (tr ++ [ev]) = all_offered tr ++ (if ev is EvStart op then offer op else []) ∧
  all_accepted (tr ++ [ev]) = all_accepted tr ++ (if ev is EvDone op r then accepted op r else []) ∧
  all_given (tr ++ [ev]) = all_given tr ++ (if ev is EvDone op r then given op r else []).
Proof.
  unfold all_offered, all_accepted, all_given. rewrite !bind_app. simpl. by rewrite !app_nil_r.
Qed.

(** What a thread has put in replaces what it was offered. *)
Lemma trade_offer xs i op p ts1 ts2 (ci : list I) :
  i ⊆+ offer op →
  (xs ++ i) ++ concat (offer <$> (ts1 ++ ts2).*1) ++ ci ⊆+
    xs ++ concat (offer <$> (ts1 ++ (op, p) :: ts2 : list (O * prog E A)).*1) ++ ci.
Proof.
  intros Hi. rewrite !fmap_app, !concat_app. csimpl.
  transitivity (i ++ xs ++ (concat (offer <$> ts1.*1) ++ concat (offer <$> ts2.*1)) ++ ci);
    [apply Permutation_submseteq; solve_Permutation|].
  etrans; [by apply submseteq_skips_r, Hi|].
  apply Permutation_submseteq. solve_Permutation.
Qed.

Lemma step_accounted d0 tr s ev s' :
  accounted d0 tr s → step R program fits s ev s' → accounted d0 (tr ++ [ev]) s'.
Proof.
  intros (Hok&ms&ci&co&Hts&Hsum&Hoff&Hc) Hstep.
  destruct (trace_parts tr ev) as (Ho&Ha&Hg). unfold accounted. rewrite Ho, Ha, Hg.
  setoid_rewrite not_elem_of_app.
  inversion Hstep as [op d ts Hfits|op X e k x d d' ts1 ts2 Hdoc|op r d ts1 ts2|t d ts1 ts2];
    subst; simpl in *; rewrite ?app_nil_r.
  - split; [done|]. exists (ms ++ [([], [])]), ci, co. split_and!.
    + apply Forall2_app; [done|]. constructor; [by apply Hprogram|constructor].
    + rewrite !fmap_app, !concat_app. simpl. by rewrite !app_nil_r.
    + rewrite !fmap_app, concat_app. simpl. rewrite app_nil_r.
      etrans; [|by apply submseteq_skips_r, Hoff]. apply Permutation_submseteq. solve_Permutation.
    + intros [? _]. auto.
  - apply Forall2_middle in Hts as (m1&[i o]&m2&->&H1&[Hi Hk]&H2). simpl in *.
    destruct (flow_call X e d d' x Hok Hdoc) as [Hok' Hlaw]. split; [done|].
    exists (m1 ++ (i ++ ins X e x, o ++ outs X e x) :: m2), ci, co. split_and!.
    + apply Forall2_app; [done|]. constructor; [|done]. apply Hk. by exists d, d'.
    + rewrite !fmap_app, !concat_app in Hsum |- *. simpl in *.
      apply (Permutation_app_inv_l (contents d)).
      transitivity ((contents d0 ++ all_accepted tr ++ (concat m1.*1 ++ i ++ concat m2.*1) ++ ci) ++
        (contents d ++ ins X e x)); [solve_Permutation|].
      rewrite Hsum, Hlaw. solve_Permutation.
    + rewrite !fmap_app in *. done.
    + intros [? _]. auto.
  - apply Forall2_middle in Hts as (m1&[i o]&m2&->&H1&(Hi&Hi'&Ho')&H2). simpl in *.
    split; [done|]. exists (m1 ++ m2), ci, co. split_and!.
    + by apply Forall2_app.
    + rewrite !fmap_app, !concat_app in Hsum |- *. simpl in *. rewrite Hi', Ho' in Hsum.
      etrans; [|etrans; [exact Hsum|]]; solve_Permutation.
    + etrans; [|exact Hoff]. rewrite <-Hi'. by apply trade_offer.
    + intros [? _]. auto.
  - apply Forall2_middle in Hts as (m1&[i o]&m2&->&H1&Ht&H2). simpl in *.
    apply accounts_bounded in Ht.
    split; [done|]. exists (m1 ++ m2), (i ++ ci), (o ++ co). split_and!.
    + by apply Forall2_app.
    + rewrite !fmap_app, !concat_app in Hsum |- *. simpl in *.
      etrans; [|etrans; [exact Hsum|]]; solve_Permutation.
    + etrans; [|exact Hoff]. etrans; [|destruct t; by eapply trade_offer].
      apply Permutation_submseteq. simpl. solve_Permutation.
    + intros [_ []]. by left.
Qed.

Lemma steps_accounted d0 tr s :
  ok d0 → steps R program fits (mkSystem d0 []) tr s → accounted d0 tr s.
Proof.
  intros H0. induction 1 as [|tr s1 ev s2 Hs IH Hstep]; [|by eapply step_accounted].
  split; [done|]. exists [], [], []. split_and!; [constructor|by rewrite !app_nil_r|done|done].
Qed.

(** Nothing is there, or has come out, that was not there or offered. *)
Lemma nothing_invented d0 tr s :
  ok d0 → steps R program fits (mkSystem d0 []) tr s →
  all_given tr ++ contents (shared s) ⊆+ contents d0 ++ all_offered tr.
Proof.
  intros H0 Hs. destruct (steps_accounted d0 tr s H0 Hs) as (_&ms&ci&co&Hts&Hsum&Hoff&_).
  assert (concat ms.*1 ⊆+ concat (offer <$> (threads s).*1)) as Hms.
  { clear -Hts. induction Hts as [|t m ts ms Ht _ IH]; simpl; [done|].
    apply submseteq_app; [by eapply accounts_bounded|done]. }
  transitivity (contents d0 ++ all_accepted tr ++ concat ms.*1 ++ ci).
  - rewrite Hsum. rewrite (app_assoc (concat _)). apply submseteq_skips_l, submseteq_inserts_l. done.
  - apply submseteq_skips_l. etrans; [|exact Hoff]. apply submseteq_skips_l.
    by apply submseteq_skips_r.
Qed.

(** When everything has returned, nothing is lost either. *)
Lemma nothing_lost d0 tr s :
  ok d0 → steps R program fits (mkSystem d0 []) tr s → threads s = [] → (EvCrash ∉ tr) →
  contents d0 ++ all_accepted tr ≡ₚ all_given tr ++ contents (shared s).
Proof.
  intros H0 Hs Hend Hcrash.
  destruct (steps_accounted d0 tr s H0 Hs) as (_&ms&ci&co&Hts&Hsum&_&Hc).
  destruct (Hc Hcrash) as [-> ->]. rewrite Hend in Hts. apply Forall2_nil_inv_l in Hts as ->.
  simpl in Hsum. by rewrite !app_nil_r in Hsum.
Qed.
End flow.

(** ** One channel *)

(** Threads share the clock: it has moved on by any time when a timer of one
    of them ends.  The rest is as documented for calls that are answered one
    after the other. *)
Definition shared_documented X (e : memE X) : mem → mem → X → Prop :=
  match e in memE X return mem → mem → X → Prop with
  | TimeoutRecv t c => λ d d' r,
      match chans d !! c with
      | Some (v :: buf, alive) => r = Ok (Some v) ∧ d' = set_chan c buf alive d
      | _ => (∃ e, r = Err e) ∧ ∃ n, clock d <= n ∧ d' = at_clock n d
      end
  | Sleep t => λ d d' _, ∃ n, clock d <= n ∧ d' = at_clock n d
  | e => mem_documented _ e
  end.
Definition shared_doc : env_doc memE mem := EnvDoc mem_ready shared_documented.

#[export] Instance mem_serve_shared : Lawful shared_doc mem_serve id.
Proof.
  split.
  - intros X e d d' x Hs. apply (lawful_sound (R := mem_doc)) in Hs. unfold id in *.
    destruct e; try exact Hs; simpl in *.
    + destruct (chans d !! rx) as [[[] ?]|]; try done; destruct Hs as [He ->];
        (split; [done|]); eexists; (split; [|reflexivity]); lia.
    + destruct Hs as (n&Hn&->). exists n. split; [lia|done].
  - intros X e d Hr. by apply (lawful_live (R := mem_doc)).
Qed.

(** What waits in a queue, and the sends that have been scheduled. *)
Inductive content := Waiting (v : bytes) | Scheduled (t : Task).
Definition waiting_of (x : content) : option bytes := if x is Waiting v then Some v else None.
Definition scheduled_of (x : content) : option Task := if x is Scheduled t then Some t else None.

Section queue.
Context (delivery_size : N) (c : chan).

Definition buffer (d : mem) : list bytes :=
  match chans d !! c with Some (buf, _) => buf | None => [] end.
Definition mem_contents (d : mem) : list content :=
  (Waiting <$> buffer d) ++ (Scheduled <$> tasks d).

(** The consumer exists. *)
Definition open (d : mem) : Prop := ∃ buf, chans d !! c = Some (buf, true).

Definition mem_ins X (e : memE X) : X → list content :=
  match e in memE X return X → list content with
  | Send tx v => λ r, if r is Ok _ then if bool_decide (tx = c) then [Waiting v] else [] else []
  | Spawn t => λ _, [Scheduled t]
  | _ => λ _, []
  end.
Definition mem_outs X (e : memE X) : X → list content :=
  match e in memE X return X → list content with
  | Recv rx => λ o, if o is Some v then if bool_decide (rx = c) then [Waiting v] else [] else []
  | TryRecv rx => λ r, if r is Ok v then if bool_decide (rx = c) then [Waiting v] else [] else []
  | TimeoutRecv _ rx => λ r,
      if r is Ok (Some v) then if bool_decide (rx = c) then [Waiting v] else [] else []
  | _ => λ _, []
  end.

(** Taking a message from any channel, and putting one in. *)
Lemma take_flow d k v buf alive :
  open d → chans d !! k = Some (v :: buf, alive) →
  open (set_chan k buf alive d) ∧
  mem_contents d ++ [] ≡ₚ
    (if bool_decide (k = c) then [Waiting v] else []) ++ mem_contents (set_chan k buf alive d).
Proof.
  intros [b Hc] Hk. unfold open, mem_contents, buffer, set_chan. simpl. rewrite app_nil_r.
  case_bool_decide; subst.
  - rewrite Hk in Hc |- *. simplify_eq. rewrite lookup_insert_eq. by eauto.
  - rewrite lookup_insert_ne by done. rewrite Hc. by eauto.
Qed.

Lemma put_flow d k v buf alive :
  open d → chans d !! k = Some (buf, alive) →
  open (set_chan k (buf ++ [v]) alive d) ∧
  mem_contents d ++ (if bool_decide (k = c) then [Waiting v] else []) ≡ₚ
    mem_contents (set_chan k (buf ++ [v]) alive d).
Proof.
  intros [b Hc] Hk. unfold open, mem_contents, buffer, set_chan. simpl.
  case_bool_decide; subst.
  - rewrite Hk in Hc |- *. simplify_eq. rewrite lookup_insert_eq. split; [by eauto|].
    rewrite fmap_app. simpl. solve_Permutation.
  - rewrite lookup_insert_ne by done. rewrite Hc, app_nil_r. by eauto.
Qed.

Lemma same_flow d d' :
  chans d' = chans d → tasks d' = tasks d → open d →
  open d' ∧ mem_contents d ++ [] ≡ₚ mem_contents d'.
Proof.
  unfold open, mem_contents, buffer. intros -> -> Ho. split; [done|]. by rewrite app_nil_r.
Qed.

#[export] Instance mem_flow : Flow shared_doc open mem_contents mem_ins mem_outs.
Proof.
  intros X e d d' x Ho Hdoc. destruct e; simpl in Hdoc |- *.
  - destruct Hdoc as [Hnew ->]. destruct Ho as [buf Hc].
    assert (x ≠ c) by congruence. unfold open, mem_contents, buffer, set_chan. simpl.
    rewrite lookup_insert_ne by done. rewrite app_nil_r. eauto.
  - destruct (chans d !! tx) as [[buf []]|] eqn:Hk;
      [|destruct Hdoc as [[e ->] ->]; by apply same_flow..].
    destruct Hdoc as [-> ->]. by eapply put_flow.
  - destruct (chans d !! rx) as [[[|v buf] alive]|] eqn:Hk; [done| |done].
    destruct Hdoc as [-> ->]. by apply take_flow.
  - destruct (chans d !! rx) as [[[|v buf] alive]|] eqn:Hk;
      [destruct Hdoc as [[e ->] ->]; by apply same_flow| |destruct Hdoc as [[e ->] ->]; by apply same_flow].
    destruct Hdoc as [-> ->]. by apply take_flow.
  - destruct (chans d !! rx) as [[[|v buf] alive]|] eqn:Hk;
      [destruct Hdoc as ([e ->]&n&_&->); by apply same_flow| |destruct Hdoc as ([e ->]&n&_&->); by apply same_flow].
    destruct Hdoc as [-> ->]. by apply take_flow.
  - subst d'. split; [exact Ho|]. unfold mem_contents, buffer. simpl. by rewrite fmap_app, app_assoc.
  - destruct Hdoc as (n&_&->). by apply same_flow.
  - destruct Hdoc as [_ ->]. by apply same_flow.
Qed.

(** *** What may be started *)

Inductive operation :=
| OpSend (p : InMemoryProducer) (v : bytes)
| OpSendScheduled (p : InMemoryProducer) (v : bytes) (delay : Duration)
| OpTask (t : Task)
| OpReceive (cs : InMemoryConsumer)
| OpReceiveAll (cs : InMemoryConsumer) (max_messages : N) (deadline : Duration)
| OpSettle (verdict : settle_op) (a : InMemoryAcker).

Definition payloads (ds : list (Delivery memE)) : list bytes := omap Delivery.borrow_payload ds.

(** Each returns the payloads that it delivers. *)
Definition program (o : operation) : prog memE (Result (list bytes)) :=
  match o with
  | OpSend p v => let? _ := Producer.send_raw p v in Ret (Ok [])
  | OpSendScheduled p v delay => let? _ := Producer.send_raw_scheduled p v delay in Ret (Ok [])
  | OpTask t => let* _ := Producer.delayed_send t in Ret (Ok [])
  | OpReceive cs => let? d := Consumer.receive cs in Ret (Ok (payloads [d]))
  | OpReceiveAll cs n deadline =>
      let? ds := Consumer.receive_all delivery_size cs n deadline in Ret (Ok (payloads ds))
  | OpSettle verdict a =>
      let* '(_, r) := match verdict with OpAck => MemAcker.ack a | OpNack => MemAcker.nack a end in
      let? _ := Ret r in Ret (Ok [])
  end.

(** Producers, consumers, ackers and tasks of the channel. *)
Definition fits (o : operation) : Prop :=
  match o with
  | OpSend p _ | OpSendScheduled p _ _ => p_tx p = c
  | OpTask t => task_tx t = c
  | OpReceive cs | OpReceiveAll cs _ _ => c_rx cs = c
  | OpSettle _ a => a_tx a = c
  end.

Definition offer (o : operation) : list content :=
  match o with
  | OpSend _ v => [Waiting v]
  | OpSendScheduled p v delay => [Scheduled (DelayedSend (p_tx p) v delay)]
  | OpTask t => [Waiting (task_payload t)]
  | OpSettle OpNack a =>
      if already_acked_or_nacked a then [] else Waiting <$> option_list (payload_copy a)
  | _ => []
  end.
Definition accepted (o : operation) (r : Result (list bytes)) : list content :=
  if r is Ok _ then offer o else [].
Definition given (_ : operation) (r : Result (list bytes)) : list content :=
  if r is Ok vs then Waiting <$> vs else [].

Abbreviation accounted_for o := (accounts shared_doc open mem_ins mem_outs (offer o)).
Abbreviation settles o := (settled accepted given o).

(** *** Calls *)

(** A send on the channel succeeds. *)
Lemma sent_ok v r : may_reply shared_doc open (Send c v) r → r = Ok tt.
Proof. intros (d&d'&[buf Hc]&Hdoc). simpl in Hdoc. rewrite Hc in Hdoc. by destruct Hdoc. Qed.

Lemma accounts_then {X A} offered (e : memE X) (f : X → prog memE A) i o Q :
  i ⊆+ offered →
  (∀ x, may_reply shared_doc open e x →
     accounts shared_doc open mem_ins mem_outs offered (f x) (i ++ mem_ins X e x)
       (o ++ mem_outs X e x) Q) →
  accounts shared_doc open mem_ins mem_outs offered (bind (call e) f) i o Q.
Proof.
  intros Hi Hf. apply accounts_bind, accounts_call; [done|]. intros x Hx. split; [|by apply Hf].
  by eapply accounts_bounded, Hf.
Qed.

(** The end of a program whose account is right. *)
Lemma accounts_end {A} offered (a : A) i o (Q : A → list content → list content → Prop) :
  i ⊆+ offered → Q a i o → accounts shared_doc open mem_ins mem_outs offered (Ret a) i o Q.
Proof. by split. Qed.

(** *** Each operation accounts for what it is offered *)

Abbreviation delivered_all :=
  (λ (r : Result (list (Delivery memE))) (i o : list content),
     i = [] ∧ ∃ ds, r = Ok ds ∧ o = Waiting <$> payloads ds).

(** One round of the loop. *)
Lemma fill_accounts cs n deadline start ds :
  c_rx cs = c →
  accounts shared_doc open mem_ins mem_outs [] (Consumer.fill cs n deadline start ds)
    [] (Waiting <$> payloads ds) (λ r i o, i = [] ∧
      o = Waiting <$> payloads (match r with inl out | inr out => out end)).
Proof.
  intros Hc. unfold Consumer.fill.
  apply accounts_then; [done|]. intros [x|e] _; cbn [mem_ins mem_outs];
    [|by apply accounts_end; [|rewrite !app_nil_r]].
  rewrite bool_decide_eq_true_2 by done.
  assert ((Waiting <$> payloads ds) ++ [Waiting x] =
    Waiting <$> payloads (ds ++ [Consumer.wrap_payload cs x])) as ->.
  { unfold payloads. by rewrite omap_app, fmap_app. }
  destruct (n <=? _); [by apply accounts_end|].
  apply accounts_then; [done|]. intros now _. cbn [mem_ins mem_outs]. rewrite !app_nil_r.
  by destruct (_ <=? _); apply accounts_end.
Qed.

Lemma receive_all_accounts cs n deadline :
  c_rx cs = c →
  accounts shared_doc open mem_ins mem_outs [] (Consumer.receive_all delivery_size cs n deadline)
    [] [] delivered_all.
Proof.
  intros Hc. unfold Consumer.receive_all. apply accounts_bind.
  destruct (vec_with_capacity _ _); [|done]. apply accounts_end; [done|].
  apply accounts_then; [done|]. intros start _.
  apply accounts_then; [done|]. intros r _. cbn [mem_ins mem_outs app].
  destruct r as [[x|]|e]; [|by apply accounts_end; [|split; [|by exists []]]..].
  rewrite bool_decide_eq_true_2 by done.
  destruct (1 <? n); [|by apply accounts_end; [|split; [|by eexists]]].
  apply accounts_bind.
  apply accounts_loop with (J := λ ds i o, i = [] ∧ o = Waiting <$> payloads ds); [done|].
  intros ds i o [-> ->]. eapply accounts_mono; [by apply fill_accounts|].
  intros [out|out] i o Hi [-> ->]; [done|].
  apply accounts_end; [done|]. split; [done|]. by exists out.
Qed.

Lemma program_accounts o : fits o → accounted_for o (program o) [] [] (settles o).
Proof.
  destruct o as [p v|p v delay|t|cs|cs n deadline|[] a]; simpl; intros Hc.
  - apply accounts_bind. unfold Producer.send_raw. rewrite Hc.
    apply accounts_then; [apply submseteq_nil_l|]. intros r ->%sent_ok. simpl.
    rewrite bool_decide_eq_true_2 by done. by repeat split.
  - apply accounts_bind. unfold Producer.send_raw_scheduled.
    apply accounts_then; [apply submseteq_nil_l|]. intros [] _. by repeat split.
  - apply accounts_bind. unfold Producer.delayed_send. rewrite Hc.
    apply accounts_then; [apply submseteq_nil_l|]. intros [] _. simpl.
    apply accounts_then; [apply submseteq_nil_l|]. intros r ->%sent_ok. simpl.
    rewrite bool_decide_eq_true_2 by done. by repeat split.
  - apply accounts_bind. unfold Consumer.receive. apply accounts_then; [done|].
    intros [x|] _; simpl; [|by repeat split]. rewrite bool_decide_eq_true_2 by done.
    by repeat split.
  - apply accounts_bind. eapply accounts_mono; [by apply receive_all_accounts|].
    intros r i o Hi (->&ds&->&->). by repeat split.
  - apply accounts_bind. unfold MemAcker.ack.
    destruct (already_acked_or_nacked a); by repeat split.
  - apply accounts_bind. unfold MemAcker.nack.
    destruct (already_acked_or_nacked a) eqn:Ha; [by repeat split|].
    destruct (payload_copy a) as [v|] eqn:Hv; [|by repeat split]. rewrite Hc.
    apply accounts_then; [apply submseteq_nil_l|]. intros r ->%sent_ok. simpl.
    rewrite bool_decide_eq_true_2 by done. repeat split; unfold settled, accepted, offer; simpl; by rewrite ?Ha, ?Hv.
Qed.

(** *** Runs *)

(** From [d0], users of the channel have run as [tr] says. *)
Definition run_mem (d0 : mem)
    (tr : list (event (D := mem) (O := operation) (A := Result (list bytes)))) (s : system) : Prop :=
  steps shared_doc program fits (mkSystem d0 []) tr s.

(** The payloads that sends, finished tasks and nacks have put in, that
    operations which were started might have put in, and that have been
    delivered; and the sends that have been scheduled. *)
Abbreviation trace := (list (event (D := mem) (O := operation) (A := Result (list bytes)))).
Definition put_in (tr : trace) : list bytes := omap waiting_of (all_accepted accepted tr).
Definition offered_by (tr : trace) : list bytes := omap waiting_of (all_offered offer tr).
Definition delivered (tr : trace) : list bytes :=
  tr ≫= λ ev, if ev is EvDone _ (Ok vs) then vs else [].
Definition scheduled (tr : trace) : list Task := omap scheduled_of (all_accepted accepted tr).

Lemma given_delivered tr : all_given given tr = Waiting <$> delivered tr.
Proof.
  unfold all_given, delivered. induction tr as [|[|?|op [vs|e]|] tr IH]; simpl; try done.
  cbn [mbind list_bind]. rewrite fmap_app. by f_equal.
Qed.

Lemma waiting_contents d : omap waiting_of (mem_contents d) = buffer d.
Proof.
  unfold mem_contents. rewrite omap_app. assert (∀ ts, omap waiting_of (Scheduled <$> ts) = []) as ->.
  { by intros ts; induction ts. }
  rewrite app_nil_r. induction (buffer d) as [|v l IH]; csimpl; by rewrite ?IH.
Qed.

Lemma scheduled_contents d : omap scheduled_of (mem_contents d) = tasks d.
Proof.
  unfold mem_contents. rewrite omap_app. assert (∀ vs, omap scheduled_of (Waiting <$> vs) = []) as ->.
  { by intros vs; induction vs. }
  simpl. induction (tasks d) as [|t l IH]; csimpl; by rewrite ?IH.
Qed.

Lemma waiting_waiting (vs : list bytes) : omap waiting_of (Waiting <$> vs) = vs.
Proof. induction vs; csimpl; by f_equal. Qed.
Lemma scheduled_waiting (vs : list bytes) : omap scheduled_of (Waiting <$> vs) = [].
Proof. by induction vs. Qed.

(** Part of a list, seen through [omap]. *)
Lemma omap_submseteq {A B} (f : A → option B) l k : l ⊆+ k → omap f l ⊆+ omap f k.
Proof.
  intros (k'&->)%submseteq_Permutation. rewrite omap_app. by apply submseteq_inserts_r.
Qed.
End queue.

Section claims.
Context (delivery_size : N) (c : chan).

(** C21: nothing is lost, doubled or invented in memory.  Whatever producers,
    spawned tasks, consumers and ackers of one channel run, in whatever
    interleaving of their calls, while the consumer exists: at every moment,
    also with operations that were cancelled, what has been delivered and
    what waits was there at the start or has been offered by a send, a task
    or a nack, each time once.  And when all have returned and none was
    cancelled, the messages that were there and those that sends, tasks and
    nacks with success have put in are, counted, exactly the ones that have
    been delivered or wait, and the tasks that have been spawned are exactly
    those of the scheduled sends. *)
Theorem in_memory_exactly_once d0 tr s :
  open c d0 → run_mem delivery_size c d0 tr s →
  (delivered tr ++ buffer c (shared s) ⊆+ buffer c d0 ++ offered_by tr) ∧
  (threads s = [] → (EvCrash ∉ tr) →
     buffer c d0 ++ put_in tr ≡ₚ delivered tr ++ buffer c (shared s) ∧
     tasks d0 ++ scheduled tr ≡ₚ tasks (shared s)).
Proof.
  intros Ho Hrun. split.
  - pose proof (nothing_invented _ _ _ _ _ _ _ _ accepted given
      (program_accounts delivery_size c) d0 tr s Ho Hrun) as H.
    apply (omap_submseteq waiting_of) in H.
    by rewrite !omap_app, given_delivered, waiting_waiting, !waiting_contents in H.
  - intros Hend Hcrash.
    pose proof (nothing_lost _ _ _ _ _ _ _ _ accepted given
      (program_accounts delivery_size c) d0 tr s Ho Hrun Hend Hcrash) as H.
    rewrite given_delivered in H. split.
    + apply (omap_Permutation waiting_of) in H.
      by rewrite !omap_app, waiting_waiting, !waiting_contents in H.
    + apply (omap_Permutation scheduled_of) in H.
      by rewrite !omap_app, scheduled_waiting, !scheduled_contents in H.
Qed.
End claims.

(** ** Witness *)

(** A send, a receive, the nack of another delivery, and a scheduled send. *)
Definition send0 : operation := OpSend (mkProducer 0) (bstr "z").
Definition receive0 : operation := OpReceive (mkConsumer 0 0).
Definition nack0 : operation := OpSettle OpNack (mkAcker 0 (Some (bstr "y")) false).
Definition later0 : operation := OpSendScheduled (mkProducer 0) (bstr "w") (from_secs 3).
Definition prog0 (o : operation) : prog memE (Result (list bytes)) := program 40 o.
Definition run0 (o : operation) (d : mem) : mem :=
  match run mem_serve (prog0 o) d with Returned d' _ => d' | _ => d end.
Definition end0 : mem := run0 later0 (run0 nack0 (run0 receive0 (run0 send0 mem0))).

Lemma all_start (ops : list operation) :
  Forall (fits 0) ops →
  run_mem 40 0 mem0 (EvStart <$> ops) (mkSystem mem0 ((λ o, (o, prog0 o)) <$> ops)).
Proof.
  induction ops as [|o ops IH] using rev_ind; [intros _; constructor|].
  intros [Hops [Ho _]%Forall_cons]%Forall_app. rewrite !fmap_app.
  eapply steps_snoc; [by apply IH|]. by apply step_start.
Qed.

Lemma bind_calls {B} (f : event (D := mem) (O := operation) (A := Result (list bytes)) → list B)
    ds : (∀ d, f (EvCall d) = []) → (EvCall <$> ds) ≫= f = [].
Proof. intros Hf. induction ds as [|d ds IH]; [done|]. csimpl. by rewrite Hf, IH. Qed.

Lemma exactly_once_run :
  ∃ tr, delivered tr = [bstr "a"] ∧ put_in tr = [bstr "z"; bstr "y"] ∧
    (EvCrash ∉ tr) ∧ run_mem 40 0 mem0 tr (mkSystem end0 []).
Proof.
  pose proof (all_start [send0; receive0; nack0; later0]) as H0.
  specialize (H0 ltac:(by repeat constructor)). cbn [fmap list_fmap] in H0.
  unfold run_mem in H0.
  assert (∀ o vs d ts tr, run mem_serve (prog0 o) d = Returned (run0 o d) (Ok vs) →
    steps shared_doc (program 40) (fits 0) (mkSystem mem0 []) tr
      (mkSystem d ((o, prog0 o) :: ts)) →
    ∃ ds, steps shared_doc (program 40) (fits 0) (mkSystem mem0 [])
      ((tr ++ (EvCall <$> ds)) ++ [EvDone o (Ok vs)]) (mkSystem (run0 o d) ts)) as Hnext.
  { intros o vs d ts tr Hr H.
    destruct (steps_run_calls shared_doc _ _ mem_serve id _ tr [] ts o _ d _ _ H Hr) as [ds Hds].
    exists ds. eapply steps_snoc; [exact Hds|]. apply (step_done _ _ _ _ _ _ []). }
  eapply Hnext in H0 as [ds1 H1]; [|vm_compute; reflexivity].
  eapply Hnext in H1 as [ds2 H2]; [|vm_compute; reflexivity].
  eapply Hnext in H2 as [ds3 H3]; [|vm_compute; reflexivity].
  eapply Hnext in H3 as [ds4 H4]; [|vm_compute; reflexivity].
  eexists. split_and!; [| | |exact H4].
  - unfold delivered. rewrite !bind_app, !bind_calls by done. done.
  - unfold put_in, all_accepted. rewrite !bind_app, !bind_calls by done. done.
  - rewrite !not_elem_of_app, !not_elem_of_cons. split_and!; try done;
      try apply not_elem_of_nil; by intros (d&?&_)%list_elem_of_fmap.
Qed.

Lemma in_memory_exactly_once_witness :
  ∃ tr, delivered tr = [bstr "a"] ∧ put_in tr = [bstr "z"; bstr "y"] ∧
    buffer 0 mem0 ++ put_in tr ≡ₚ delivered tr ++ buffer 0 end0 ∧
    tasks mem0 ++ scheduled tr ≡ₚ tasks end0.
Proof.
  destruct exactly_once_run as (tr&Hd&Hp&Hc&Hrun). exists tr. split_and!; [done|done|..].
  all: by apply (proj2 (in_memory_exactly_once 40 0 mem0 tr (mkSystem end0 [])
    (ex_intro _ _ eq_refl) Hrun)).
Defined.
