(* ===== verification/RedisCodec.v ===== *)
(** * The list entry format of the redis backend ([redis/mod.rs])

    The fallback queue and the delayed set store a message as
    [<id>#<num_receives>|<payload>]: [internal_to_list_payload] writes it,
    [internal_from_list] reads it back and counts one more receive. *)
From S2P Require Import Prelude RustStd Omniqueue.

Record InternalPayload := mkInternalPayload { payload : bytes; num_receives : N }.

Module InternalPayload.
(** [InternalPayload::new] *)
Definition new (p : bytes) : InternalPayload := mkInternalPayload p 0.
End InternalPayload.

(** The owned copy has the same fields; [From] copies the payload. *)
Abbreviation InternalPayloadOwned := InternalPayload.
Definition into_owned (i : InternalPayload) : InternalPayloadOwned :=
  mkInternalPayload (payload i) (num_receives i).

Definition b_hash : byte := "#".
Definition b_bar : byte := "|".

Definition improper_key_format : QueueError := Generic (boxed "Improper key format").
Definition non_utf8_key_id : QueueError := Generic (boxed "Non-UTF8 key ID").

(** [oc]: whether the build has overflow checks. *)
Definition internal_from_list (oc : bool) (s : bytes) : outcome (Result InternalPayload) :=
  let count_sep_pos := position (λ b, bool_decide (b = b_hash)) s in
  outcome_try (Done (ok_or (position (λ b, bool_decide (b = b_bar)) s) improper_key_format))
    (λ payload_sep_pos,
  let id_end_pos :=
    match count_sep_pos with
    | Some c => if (c <? payload_sep_pos)%nat then c else payload_sep_pos
    | None => payload_sep_pos
    end in
  outcome_bind (slice_to s id_end_pos) (λ id,
  outcome_try (Done (if utf8_valid id then Ok tt else Err non_utf8_key_id)) (λ _,
  outcome_try
    (match count_sep_pos with
     | Some c =>
         outcome_bind (slice_range s (c + 1) payload_sep_pos) (λ digits,
         outcome_try (Done (if utf8_valid digits then Ok digits else Err improper_key_format))
           (λ digits,
         outcome_try (Done (map_err (λ _, improper_key_format) (parse_usize digits)))
           (λ n, outcome_bind (usize_add oc n 1) (λ n', Done (Ok n')))))
     | None => Done (Ok 1)
     end) (λ n,
  outcome_bind (slice_from s (payload_sep_pos + 1)) (λ p,
  Done (Ok (mkInternalPayload p n))))))).

(** [delayed_key_id()] is a fresh KSUID: the [id] argument. *)
Definition internal_to_list_payload (id : bytes) (i : InternalPayload) : bytes :=
  id ++ [b_hash] ++ usize_to_string (num_receives i) ++ [b_bar] ++ payload i.

(** ** The entry format as a grammar *)

Definition no_byte (c : byte) (s : bytes) : Prop := c ∉ s.

(** What may stand in front of the separators: a base62 KSUID is such. *)
Definition wf_id (id : bytes) : Prop :=
  no_byte b_hash id ∧ no_byte b_bar id ∧ utf8_valid id = true.

(** [entry s n p]: [s] is a well-formed entry with [n] prior receives and
    payload [p].  The count is optional; without it the whole entry must not
    contain a [#]. *)
Inductive entry : bytes → N → bytes → Prop :=
| entry_count id digits n p :
    wf_id id → parse_usize digits = Ok n →
    entry (id ++ b_hash :: digits ++ b_bar :: p) n p
| entry_legacy id p :
    wf_id id → no_byte b_hash p →
    entry (id ++ b_bar :: p) 0 p.

(** An entry of a version that wrote no count, whose payload has a [#]. *)
Definition legacy_hash (s : bytes) : Prop :=
  ∃ id p, s = id ++ b_bar :: p ∧ wf_id id ∧ b_hash ∈ p.

(** ** Lemmas *)

Lemma no_byte_position (c : byte) s :
  no_byte c s → Forall (λ b, bool_decide (b = c) = false) s.
Proof.
  intros H. apply Forall_forall. intros b Hb. apply bool_decide_eq_false. intros ->. done.
Qed.

Lemma no_byte_app c s t : no_byte c (s ++ t) ↔ no_byte c s ∧ no_byte c t.
Proof. unfold no_byte. rewrite elem_of_app. naive_solver. Qed.

Lemma no_byte_cons c b s : no_byte c (b :: s) ↔ c ≠ b ∧ no_byte c s.
Proof. unfold no_byte. rewrite elem_of_cons. naive_solver. Qed.

Lemma position_sep (c : byte) k m :
  no_byte c k → position (λ b, bool_decide (b = c)) (k ++ c :: m) = Some (length k).
Proof.
  intros. apply position_app; [by apply no_byte_position|]. by apply bool_decide_eq_true.
Qed.

Lemma position_no (c : byte) k : no_byte c k → position (λ b, bool_decide (b = c)) k = None.
Proof. intros. by apply position_None, no_byte_position. Qed.

(** Splitting at the first occurrence of a byte. *)
Lemma split_at_byte (c : byte) s :
  no_byte c s ∨ ∃ k m, s = k ++ c :: m ∧ no_byte c k.
Proof.
  induction s as [|b s IH]; [left; unfold no_byte; set_solver|].
  destruct (decide (c = b)) as [<-|Hne].
  { right. exists [], s. split; [done|]. unfold no_byte. set_solver. }
  destruct IH as [H|(k&m&->&Hk)].
  - left. by apply no_byte_cons.
  - right. exists (b :: k), m. split; [done|]. by apply no_byte_cons.
Qed.

Lemma is_digit_not_sep (c : byte) s :
  Forall is_digit s → ¬ is_digit c → no_byte c s.
Proof. intros Hs Hc Hin. rewrite Forall_forall in Hs. by apply Hc, Hs. Qed.

Lemma to_digit_Some c d : to_digit c = Some d → is_digit c.
Proof.
  unfold to_digit, is_digit. intros H. split_matches. bool_prop. lia.
Qed.

Lemma parse_digits_Ok a s n : parse_digits a s = Ok n → Forall is_digit s.
Proof.
  revert a. induction s as [|c s IH]; intros a; simpl; [done|].
  destruct (to_digit c) eqn:Hc; [|done]. destruct (_ <=? _)%N; [|done].
  intros H. constructor; [by eapply to_digit_Some|by eapply IH].
Qed.

(** Text that parses as a count has no separator and is ASCII. *)
Lemma parse_usize_Ok s n :
  parse_usize s = Ok n → no_byte b_hash s ∧ no_byte b_bar s ∧ utf8_valid s = true.
Proof.
  assert (∀ l, Forall is_digit l →
            no_byte b_hash l ∧ no_byte b_bar l ∧ utf8_valid l = true) as Hdig.
  { intros l Hl. split_and!.
    - apply is_digit_not_sep; [done|]. unfold is_digit, b_hash. vm_compute. tauto.
    - apply is_digit_not_sep; [done|]. unfold is_digit, b_bar. vm_compute. tauto.
    - by apply utf8_valid_ascii, digits_ascii. }
  unfold parse_usize. destruct s as [|c s]; [done|].
  destruct (decide (c = "+"%byte)) as [->|Hc].
  - destruct s as [|d s]; [done|]. intros H. apply parse_digits_Ok, Hdig in H as (?&?&?).
    rewrite !no_byte_cons. rewrite !no_byte_cons in H, H0. done.
  - intros H. by apply parse_digits_Ok, Hdig in H.
Qed.

(** What the parser computes on an entry with a count field, ... *)
Lemma from_list_count oc id digits p :
  no_byte b_hash id → no_byte b_bar id → no_byte b_bar digits →
  internal_from_list oc (id ++ b_hash :: digits ++ b_bar :: p) =
  if utf8_valid id then
    if utf8_valid digits then
      match parse_usize digits with
      | Ok n => outcome_bind (usize_add oc n 1) (λ n', Done (Ok (mkInternalPayload p n')))
      | Err _ => Done (Err improper_key_format)
      end
    else Done (Err improper_key_format)
  else Done (Err non_utf8_key_id).
Proof.
  intros Hh Hb Hd. unfold internal_from_list.
  rewrite (position_sep b_hash) by done.
  replace (id ++ b_hash :: digits ++ b_bar :: p)
    with ((id ++ b_hash :: digits) ++ b_bar :: p) by (by rewrite <-app_assoc).
  rewrite (position_sep b_bar) by (apply no_byte_app; rewrite no_byte_cons; done).
  rewrite length_app. cbn [length ok_or outcome_try].
  replace (length id <? _)%nat with true by (symmetry; apply Nat.ltb_lt; lia).
  rewrite <-app_assoc, <-app_comm_cons, slice_to_app. cbn [outcome_bind].
  destruct (utf8_valid id); cbn [outcome_try]; [|done].
  replace (id ++ b_hash :: digits ++ b_bar :: p)
    with ((id ++ [b_hash]) ++ digits ++ b_bar :: p) by (by rewrite <-app_assoc).
  replace (length id + 1)%nat with (length (id ++ [b_hash])) by (by rewrite length_app).
  replace (length id + S (length digits))%nat with (length (id ++ [b_hash]) + length digits)%nat
    by (rewrite length_app; simpl; lia).
  rewrite slice_range_app. cbn [outcome_bind].
  destruct (utf8_valid digits); cbn [outcome_try]; [|done].
  destruct (parse_usize digits) as [n|k]; cbn [map_err outcome_try]; [|done].
  destruct (usize_add oc n 1); cbn [outcome_bind outcome_try]; [|done].
  replace ((id ++ [b_hash]) ++ digits ++ b_bar :: p)
    with (((id ++ [b_hash]) ++ digits ++ [b_bar]) ++ p) by (by rewrite <-!app_assoc).
  replace (length (id ++ [b_hash]) + length digits + 1)%nat
    with (length ((id ++ [b_hash]) ++ digits ++ [b_bar])) by (rewrite !length_app; simpl; lia).
  by rewrite slice_from_app.
Qed.

(** ... on one without, ... *)
Lemma from_list_legacy oc id p :
  no_byte b_hash id → no_byte b_bar id → no_byte b_hash p →
  internal_from_list oc (id ++ b_bar :: p) =
  if utf8_valid id then Done (Ok (mkInternalPayload p 1)) else Done (Err non_utf8_key_id).
Proof.
  intros Hh Hb Hp. unfold internal_from_list.
  rewrite (position_no b_hash) by (by rewrite no_byte_app, no_byte_cons).
  rewrite (position_sep b_bar) by done. cbn [ok_or outcome_try].
  rewrite slice_to_app. cbn [outcome_bind].
  destruct (utf8_valid id); cbn [outcome_try]; [|done].
  replace (id ++ b_bar :: p) with ((id ++ [b_bar]) ++ p) by (by rewrite <-app_assoc).
  replace (length id + 1)%nat with (length (id ++ [b_bar])) by (by rewrite length_app).
  by rewrite slice_from_app.
Qed.

(** ... on one whose only [#] is behind the payload separator, ... *)
Lemma from_list_legacy_hash oc id p :
  no_byte b_hash id → no_byte b_bar id → b_hash ∈ p →
  internal_from_list oc (id ++ b_bar :: p) =
  if utf8_valid id then Panics else Done (Err non_utf8_key_id).
Proof.
  intros Hh Hb Hp. unfold internal_from_list.
  rewrite (position_sep b_bar) by done. cbn [ok_or outcome_try].
  destruct (split_at_byte b_hash p) as [Hno|(k&m&->&Hk)]; [done|].
  replace (id ++ b_bar :: k ++ b_hash :: m) with ((id ++ b_bar :: k) ++ b_hash :: m)
    by (by rewrite <-app_assoc).
  rewrite (position_sep b_hash) by (by rewrite no_byte_app, no_byte_cons).
  rewrite <-app_assoc, <-app_comm_cons, length_app. cbn [length].
  replace (_ <? _)%nat with false by (symmetry; apply Nat.ltb_ge; lia).
  rewrite slice_to_app. cbn [outcome_bind].
  destruct (utf8_valid id); cbn [outcome_try]; [|done].
  rewrite slice_range_crossed by lia. done.
Qed.

(** ... and on one with no payload separator. *)
Lemma from_list_no_bar oc s :
  no_byte b_bar s → internal_from_list oc s = Done (Err improper_key_format).
Proof. intros H. unfold internal_from_list. by rewrite (position_no b_bar). Qed.

(** Every byte string has one of these four shapes. *)
Inductive shape : bytes → Prop :=
| shape_count id digits p :
    no_byte b_hash id → no_byte b_bar id → no_byte b_bar digits →
    shape (id ++ b_hash :: digits ++ b_bar :: p)
| shape_legacy id p :
    no_byte b_hash id → no_byte b_bar id → no_byte b_hash p → shape (id ++ b_bar :: p)
| shape_legacy_hash id p :
    no_byte b_hash id → no_byte b_bar id → b_hash ∈ p → shape (id ++ b_bar :: p)
| shape_no_bar s : no_byte b_bar s → shape s.

Lemma shape_of s : shape s.
Proof.
  destruct (split_at_byte b_bar s) as [H|(k&p&->&Hk)]; [by apply shape_no_bar|].
  destruct (split_at_byte b_hash k) as [Hh|(id&digits&->&Hid)].
  - destruct (decide (b_hash ∈ p)) as [Hp|Hp]; [by apply shape_legacy_hash|].
    apply shape_legacy; [done|done|exact Hp].
  - rewrite <-app_assoc, <-app_comm_cons. apply no_byte_app in Hk as [? Hk].
    apply no_byte_cons in Hk as [_ Hk]. by apply shape_count.
Qed.

(** ** The parser against the grammar *)

Lemma entry_parse oc s n p :
  entry s n p →
  internal_from_list oc s =
  outcome_bind (usize_add oc n 1) (λ n', Done (Ok (mkInternalPayload p n'))).
Proof.
  intros [id digits n' p' (Hh&Hb&Hu) Hn|id p' (Hh&Hb&Hu) Hp].
  - destruct (parse_usize_Ok _ _ Hn) as (_&Hdb&Hdu).
    by rewrite from_list_count, Hu, Hdu, Hn.
  - by rewrite from_list_legacy, Hu.
Qed.

Lemma legacy_hash_parse oc s : legacy_hash s → internal_from_list oc s = Panics.
Proof.
  intros (id&p&->&(Hh&Hb&Hu)&Hp). by rewrite from_list_legacy_hash, Hu.
Qed.

(** The four ways the parser can answer. *)
Lemma from_list_cases oc s :
  (∃ n p, entry s n p) ∨ legacy_hash s ∨
  ∃ e, internal_from_list oc s = Done (Err e) ∧
       (e = improper_key_format ∨ e = non_utf8_key_id).
Proof.
  destruct (shape_of s) as [id digits p Hh Hb Hd|id p Hh Hb Hp|id p Hh Hb Hp|s Hs].
  - rewrite from_list_count by done.
    destruct (utf8_valid id) eqn:Hu; [|eauto 10].
    destruct (utf8_valid digits); [|eauto 10].
    destruct (parse_usize digits) eqn:Hn; [|eauto 10].
    left. do 2 eexists. by constructor.
  - rewrite from_list_legacy by done. destruct (utf8_valid id) eqn:Hu; [|eauto 10].
    left. do 2 eexists. by constructor.
  - rewrite from_list_legacy_hash by done. destruct (utf8_valid id) eqn:Hu; [|eauto 10].
    right; left. by exists id, p.
  - rewrite from_list_no_bar by done. eauto 10.
Qed.

(** C18: the parser accepts exactly the entries of the grammar
    [<id>[#<count>]|<payload>], returning the payload untouched and the count
    increased by one (a missing count is 0): nothing else is accepted, and
    every well-formed entry is. *)
Theorem internal_from_list_spec oc s p m :
  internal_from_list oc s = Done (Ok (mkInternalPayload p m)) ↔
  ∃ n, entry s n p ∧ usize_add oc n 1 = Done m.
Proof.
  split.
  - intros H. destruct (from_list_cases oc s) as [(n&q&He)|[Hl|(e&He&_)]].
    + rewrite (entry_parse _ _ _ _ He) in H.
      destruct (usize_add oc n 1) as [m'|] eqn:Hm; [|done].
      injection H as -> ->. eauto.
    + by rewrite (legacy_hash_parse _ _ Hl) in H.
    + by rewrite He in H.
  - intros (n&He&Hm). by rewrite (entry_parse _ _ _ _ He), Hm.
Qed.

(** C19: parsing panics in exactly two cases: on an entry without a count
    whose payload contains a [#] (the count is then sliced from behind the
    payload separator), and, in a build with overflow checks, on a count that
    is already [usize::MAX]. *)
Theorem internal_from_list_panics oc s :
  internal_from_list oc s = Panics ↔
  legacy_hash s ∨ oc = true ∧ ∃ p, entry s USIZE_MAX p.
Proof.
  split.
  - intros H. destruct (from_list_cases oc s) as [(n&q&He)|[Hl|(e&He&_)]].
    + right. rewrite (entry_parse _ _ _ _ He) in H.
      unfold usize_add in H. destruct (N.leb_spec (n + 1) USIZE_MAX); [done|].
      destruct oc; [|done]. split; [done|]. exists q.
      replace USIZE_MAX with n; [done|].
      assert (is_usize n).
      { destruct He; [by eapply parse_usize_bound|done]. }
      unfold is_usize in *. lia.
    + by left.
    + by rewrite He in H.
  - intros [Hl|(->&p&He)]; [by apply legacy_hash_parse|].
    by rewrite (entry_parse _ _ _ _ He).
Qed.

(** C17: whatever bytes the payload holds (separators included), an entry
    written by [internal_to_list_payload] with any identifier free of the
    separators is read back with the same payload and one more receive. *)
Theorem internal_list_roundtrip oc id p n :
  wf_id id → n < USIZE_MAX →
  internal_from_list oc (internal_to_list_payload id (mkInternalPayload p n)) =
  Done (Ok (mkInternalPayload p (n + 1))).
Proof.
  intros Hid Hn. apply internal_from_list_spec. exists n. split.
  - unfold internal_to_list_payload. simpl. constructor; [done|].
    apply parse_usize_to_string. unfold is_usize. lia.
  - apply usize_add_small. lia.
Qed.

Lemma internal_list_roundtrip_witness :
  wf_id (bstr "2Ab") ∧
  internal_from_list false (internal_to_list_payload (bstr "2Ab") (mkInternalPayload (bstr "a|#b") 4))
  = Done (Ok (mkInternalPayload (bstr "a|#b") (4 + 1))).
Proof.
  assert (wf_id (bstr "2Ab")) as H.
  { unfold wf_id, no_byte. split_and!; [| |done]; apply (bool_decide_unpack _); done. }
  split; [done|]. apply (internal_list_roundtrip false (bstr "2Ab") (bstr "a|#b") 4); [done|].
  done.
Defined.
