(* ===== verification/RedisApi.v ===== *)
(** * The redis server, as the backend sees it

    The calls that [backends/redis] makes (connection pool, redis commands,
    clock and KSUIDs), the documented behaviour of each ([redis_doc]) on an
    observable database [db], and an executable server that behaves as
    documented.  No code of the repository is modelled in this file: it is
    the interface that the theorems about the backend assume. *)
From S2P Require Import Prelude RustStd Effects Omniqueue.
From stdpp Require Export sorting.
Open Scope N_scope.

Abbreviation key := string.
(** Stream entry IDs are opaque to the backend; the server orders them. *)
Abbreviation entry_id := N.

(** [redis::Value]: the bulk strings that the code matches on, and every
    other value with what [from_redis_value::<Vec<u8>>] makes of it. *)
Inductive Value := BulkString (data : bytes) | OtherValue (as_vec : result bytes StdError).
Definition from_redis_value (v : Value) : result bytes StdError :=
  match v with BulkString b => Ok b | OtherValue r => r end.

(** [redis::streams::StreamId]: an entry as the client reads it. *)
Record StreamId := mkStreamId { sid : entry_id; smap : gmap string Value }.

(** A command of a [redis::pipe()]. *)
Inductive pipe_cmd :=
| PXadd (k : key) (fields : list (string * bytes))
| PXack (k : key) (group : string) (ids : list entry_id)
| PXdel (k : key) (ids : list entry_id).

Inductive redisE : Type → Type :=
| PoolGet : redisE (result unit StdError)
| Lpush (k : key) (vs : list bytes) : redisE (result unit StdError)
| Rpush (k : key) (v : bytes) : redisE (result unit StdError)
| Lrem (k : key) (count : Z) (v : bytes) : redisE (result unit StdError)
| Lrange (k : key) (start stop : Z) : redisE (result (list bytes) StdError)
| Brpoplpush (src dst : key) (timeout : Duration) : redisE (result (option bytes) StdError)
| Zadd (k : key) (member : bytes) (score : N) : redisE (result unit StdError)
| ZrangebyscoreLimit (k : key) (lo hi : N) (offset count : Z)
    : redisE (result (list bytes) StdError)
| Zrem (k : key) (members : list bytes) : redisE (result unit StdError)
| SetNxPx (k : key) (ms : N) : redisE (result (option string) StdError)
| Del (k : key) : redisE (result unit StdError)
| Xadd (k : key) (fields : list (string * bytes)) : redisE (result unit StdError)
| XreadGroup (k : key) (group consumer : string) (block count : N)
    : redisE (result (list (key * list StreamId)) StdError)
| Xautoclaim (k : key) (group consumer : string) (min_idle : Z) (count : N)
    : redisE (result (list StreamId) StdError)
| Xrange (k : key) (start stop : entry_id) : redisE (result (list StreamId) StdError)
| PipeCmd (c : pipe_cmd) : redisE (result unit StdError)
| ConfigGet (name : string) : redisE (result (list string) StdError)
| SystemTimeNow : redisE SystemTime
| KsuidNew : redisE bytes
| KsuidMsBefore (d : Duration) : redisE (outcome bytes)
| Sleep (d : Duration) : redisE unit.

(** ** The observable database *)

Record cgroup := mkCgroup { last_delivered : entry_id; pel : list entry_id }.
Record stream := mkStream {
  entries : list (entry_id * list (string * bytes));
  top_id : entry_id;
  groups : gmap string cgroup;
}.

Record db := mkDb {
  lists : gmap key (list bytes);
  zsets : gmap key (gmap bytes N);
  streams : gmap key stream;
  locks : gset key;
  issued : gset bytes;
  (** The last moment that the process read from its clock. *)
  read_clock : SystemTime;
}.

Definition list_at (k : key) (d : db) : list bytes := default [] (lists d !! k).
Definition zset_at (k : key) (d : db) : gmap bytes N := default ∅ (zsets d !! k).
Definition empty_stream : stream := mkStream [] 0 ∅.
Definition stream_at (k : key) (d : db) : stream := default empty_stream (streams d !! k).

(** A list that becomes empty disappears. *)
Definition set_list (k : key) (l : list bytes) (d : db) : db :=
  mkDb (match l with [] => delete k (lists d) | _ => <[k := l]> (lists d) end)
    (zsets d) (streams d) (locks d) (issued d) (read_clock d).
Definition set_zset (k : key) (z : gmap bytes N) (d : db) : db :=
  mkDb (lists d) (<[k := z]> (zsets d)) (streams d) (locks d) (issued d) (read_clock d).
Definition set_stream (k : key) (s : stream) (d : db) : db :=
  mkDb (lists d) (zsets d) (<[k := s]> (streams d)) (locks d) (issued d) (read_clock d).
Definition set_locks (l : gset key) (d : db) : db :=
  mkDb (lists d) (zsets d) (streams d) l (issued d) (read_clock d).
Definition set_issued (i : gset bytes) (d : db) : db :=
  mkDb (lists d) (zsets d) (streams d) (locks d) i (read_clock d).
Definition set_clock (t : SystemTime) (d : db) : db :=
  mkDb (lists d) (zsets d) (streams d) (locks d) (issued d) t.

(** [LRANGE]: inclusive bounds, negative ones count from the end. *)
Definition lrange (start stop : Z) (l : list bytes) : list bytes :=
  let n := Z.of_nat (length l) in
  let a := if (start <? 0)%Z then Z.max 0 (n + start) else start in
  let b := if (stop <? 0)%Z then (n + stop)%Z else Z.min stop (n - 1) in
  if (b <? a)%Z then [] else take (Z.to_nat (b - a + 1)) (drop (Z.to_nat a) l).

(** [LREM]: a positive count removes so many occurrences from the head on, a
    negative one from the tail on, and 0 all of them. *)
Definition lrem (count : Z) (v : bytes) (l : list bytes) : list bytes :=
  match count with
  | Z0 => filter (λ x, x ≠ v) l
  | Zpos n => Nat.iter (Pos.to_nat n) (remove_first v) l
  | Zneg n => reverse (Nat.iter (Pos.to_nat n) (remove_first v) (reverse l))
  end.

(** The client's view of an entry's fields: a repeated field keeps the last
    value. *)
Definition fields_map (fs : list (string * bytes)) : gmap string Value :=
  foldl (λ m f, <[f.1 := BulkString f.2]> m) ∅ fs.
Definition read_entry (e : entry_id * list (string * bytes)) : StreamId :=
  mkStreamId e.1 (fields_map e.2).

Definition entry_ids (s : stream) : list entry_id := (entries s).*1.
Definition undelivered (g : cgroup) (s : stream) : list (entry_id * list (string * bytes)) :=
  filter (λ e, last_delivered g < e.1) (entries s).
(** [COUNT n] of [XREADGROUP]; [COUNT 0] is no limit. *)
Definition count_limit {A} (count : N) (l : list A) : list A :=
  if count =? 0 then l else take (N.to_nat count) l.
Definition with_group (gn : string) (g : cgroup) (s : stream) : stream :=
  mkStream (entries s) (top_id s) (<[gn := g]> (groups s)).
Definition find_entries (P : list entry_id) (s : stream) : list (entry_id * list (string * bytes)) :=
  filter (λ e, e.1 ∈ P) (entries s).

Definition xadd (k : key) (fs : list (string * bytes)) (i : entry_id) (d : db) : db :=
  let s := stream_at k d in
  set_stream k (mkStream (entries s ++ [(i, fs)]) i (groups s)) d.
Definition xack (k : key) (gn : string) (ids : list entry_id) (d : db) : db :=
  let s := stream_at k d in
  match groups s !! gn with
  | None => d
  | Some g =>
      set_stream k (with_group gn
        (mkCgroup (last_delivered g) (filter (λ i, i ∉ ids) (pel g))) s) d
  end.
Definition xdel (k : key) (ids : list entry_id) (d : db) : db :=
  let s := stream_at k d in
  set_stream k (mkStream (filter (λ e, e.1 ∉ ids) (entries s)) (top_id s) (groups s)) d.

(** Base62 text: digits and letters. *)
Definition is_base62_byte (b : byte) : bool :=
  in_range 48 57 b || in_range 65 90 b || in_range 97 122 b.
Definition is_base62 (s : bytes) : Prop := Forall (λ b, is_base62_byte b = true) s.

(** ** Documented behaviour *)

(** Two servers are documented: one whose replies may get lost ([faulty]) and
    one that always answers.  A command takes effect atomically; when it
    fails for want of a reply, the effect may or may not have taken place;
    otherwise it fails only when it has no effect to take. *)
Definition fallible (faulty : bool) {Y} (eff : db → db → Y → Prop) (d d' : db)
    (r : result Y StdError) : Prop :=
  match r with
  | Ok y => eff d d' y
  | Err _ =>
      (faulty = true ∧ (d' = d ∨ ∃ y, eff d d' y)) ∨ (d' = d ∧ ∀ d1 y, ¬ eff d d1 y)
  end.

Definition becomes (f : db → db) : db → db → unit → Prop := λ d d' _, d' = f d.

Definition pipe_step (c : pipe_cmd) (d d' : db) : Prop :=
  match c with
  | PXadd k fs => ∃ i, top_id (stream_at k d) < i ∧ d' = xadd k fs i d
  | PXack k gn ids => d' = xack k gn ids d
  | PXdel k ids => d' = xdel k ids d
  end.

Fixpoint pipe_steps (cs : list pipe_cmd) (d d' : db) : Prop :=
  match cs with
  | [] => d' = d
  | c :: cs' => ∃ d1, pipe_step c d d1 ∧ pipe_steps cs' d1 d'
  end.

(** [ZRANGEBYSCORE key lo hi LIMIT 0 count] *)
Definition zrange_result (z : gmap bytes N) (lo hi : N) (count : nat) (l : list bytes) : Prop :=
  NoDup l ∧
  (∀ m, m ∈ l → ∃ sc, z !! m = Some sc ∧ lo <= sc <= hi) ∧
  length l = Nat.min count (length (filter (λ p, lo <= p.2 <= hi) (map_to_list z))) ∧
  StronglySorted (λ a b, default 0 (z !! a) <= default 0 (z !! b)) l ∧
  (∀ a b sc, a ∈ l → b ∉ l → z !! b = Some sc → lo <= sc <= hi → default 0 (z !! a) <= sc).

(** Deadlines, in seconds, that certainly are representable moments before
    now (10000 years), and that certainly are not (20000 years). *)
Definition SAFE_DEADLINE : N := 315360000000.
Definition WILD_DEADLINE : N := 632448000000.

(** What a clock may show: 2^62 seconds either side of 1970. *)
Definition clock_sane (t : SystemTime) : bool :=
  ((- 2 ^ 62 * 1000000000 <=? t) && (t <=? 2 ^ 62 * 1000000000))%Z.

Definition redis_documented (faulty : bool) X (e : redisE X) : db → db → X → Prop :=
  match e in redisE X return db → db → X → Prop with
  | PoolGet => fallible faulty (becomes id)
  | Lpush k vs => fallible faulty (becomes (λ d, set_list k (reverse vs ++ list_at k d) d))
  | Rpush k v => fallible faulty (becomes (λ d, set_list k (list_at k d ++ [v]) d))
  | Lrem k count v =>
      fallible faulty (becomes (λ d, set_list k (lrem count v (list_at k d)) d))
  | Lrange k a b => fallible faulty (λ d d' l, l = lrange a b (list_at k d) ∧ d' = d)
  | Brpoplpush src dst t =>
      fallible faulty (λ d d' o,
        match last (list_at src d) with
        | Some x =>
            o = Some x ∧
            let d1 := set_list src (removelast (list_at src d)) d in
            d' = set_list dst (x :: list_at dst d1) d1
        | None => as_nanos t ≠ 0 ∧ o = None ∧ d' = d
        end)
  | Zadd k m sc => fallible faulty (becomes (λ d, set_zset k (<[m := sc]> (zset_at k d)) d))
  | ZrangebyscoreLimit k lo hi offset count =>
      fallible faulty (λ d d' l, d' = d ∧
        (offset = 0%Z → (0 <= count)%Z → zrange_result (zset_at k d) lo hi (Z.to_nat count) l))
  | Zrem k ms =>
      fallible faulty (becomes (λ d, set_zset k (foldr delete (zset_at k d) ms) d))
  | SetNxPx k _ =>
      fallible faulty (λ d d' o,
        (o = Some "OK"%string ∧ d' = set_locks ({[k]} ∪ locks d) d) ∨
        (o = None ∧ k ∈ locks d ∧ d' = d))
  | Del k => fallible faulty (becomes (λ d, set_locks (locks d ∖ {[k]}) d))
  | Xadd k fs => fallible faulty (λ d d' _, pipe_step (PXadd k fs) d d')
  | XreadGroup k gn _ block count =>
      fallible faulty (λ d d' r, ∃ g, groups (stream_at k d) !! gn = Some g ∧
        let new := count_limit count (undelivered g (stream_at k d)) in
        match last new with
        | None => block ≠ 0 ∧ r = [] ∧ d' = d
        | Some e =>
            r = [(k, read_entry <$> new)] ∧
            d' = set_stream k (with_group gn (mkCgroup e.1 (pel g ++ new.*1)) (stream_at k d)) d
        end)
  | Xautoclaim k gn _ _ count =>
      fallible faulty (λ d d' r, ∃ g pel' chosen,
        groups (stream_at k d) !! gn = Some g ∧
        pel' `sublist_of` pel g ∧
        (∀ i, i ∈ pel g → i ∈ entry_ids (stream_at k d) → i ∈ pel') ∧
        chosen ⊆ pel' ∧
        r = read_entry <$> find_entries chosen (stream_at k d) ∧
        (length r <= N.to_nat count)%nat ∧
        d' = set_stream k (with_group gn (mkCgroup (last_delivered g) pel') (stream_at k d)) d)
  | Xrange k a b =>
      fallible faulty (λ d d' r, d' = d ∧
        r = read_entry <$> filter (λ e, a <= e.1 <= b) (entries (stream_at k d)))
  | PipeCmd c => fallible faulty (λ d d' _, pipe_step c d d')
  | ConfigGet _ => fallible faulty (λ d d' _, d' = d)
  | SystemTimeNow => λ d d' t, clock_sane t = true ∧ d' = set_clock t d
  | KsuidNew => λ d d' i, is_base62 i ∧ (i ∉ issued d) ∧ d' = set_issued ({[i]} ∪ issued d) d
  | KsuidMsBefore dl => λ d d' o,
      d' = d ∧ (as_secs dl <= SAFE_DEADLINE → ∃ i, o = Done i) ∧
      (WILD_DEADLINE < as_secs dl → o = Panics)
  | Sleep _ => λ d d' _, d' = d
  end.

(** Blocking pops wait while there is nothing to pop, for ever when the
    timeout is zero.  Nothing else waits. *)
Definition redis_ready X (e : redisE X) (d : db) : Prop :=
  match e with
  | Brpoplpush src _ t => as_nanos t ≠ 0 ∨ list_at src d ≠ []
  | XreadGroup k gn _ block count =>
      block ≠ 0 ∨
      match groups (stream_at k d) !! gn with
      | Some g => undelivered g (stream_at k d) ≠ []
      | None => True
      end
  | _ => True
  end.

Definition redis_doc (faulty : bool) : env_doc redisE db :=
  EnvDoc redis_ready (redis_documented faulty).

(** ** An executable server

    It answers like a redis server whose next replies are planned: a command
    succeeds ([Healthy]), fails without effect ([Lost]), or takes effect and
    then fails ([Applied]). *)
Inductive fault := Healthy | Lost | Applied.
Record server := mkServer { sdb : db; plan : list fault; wall : SystemTime; limit : bytes }.

Definition conn_error : StdError := boxed "connection reset by peer".

Definition answer {Y} (s : server) (eff : db → option (db * result Y StdError))
    : option (server * result Y StdError) :=
  let s' (d : db) := mkServer d (tail (plan s)) (wall s) (limit s) in
  match head (plan s) with
  | Some Lost => match eff (sdb s) with Some _ => Some (s' (sdb s), Err conn_error) | None => None end
  | Some Applied =>
      match eff (sdb s) with Some (d, _) => Some (s' d, Err conn_error) | None => None end
  | _ => match eff (sdb s) with Some (d, r) => Some (s' d, r) | None => None end
  end.

Definition score_le (a b : bytes * N) : Prop := a.2 <= b.2.
#[export] Instance score_le_dec : RelDecision score_le.
Proof. intros a b. unfold score_le. apply _. Defined.
#[export] Instance score_le_total : Total score_le.
Proof. intros a b. unfold score_le. lia. Qed.
#[export] Instance score_le_trans : Transitive score_le.
Proof. intros a b c. unfold score_le. lia. Qed.

Definition zrange (z : gmap bytes N) (lo hi : N) (count : nat) : list bytes :=
  (take count (merge_sort score_le (filter (λ p, lo <= p.2 <= hi) (map_to_list z)))).*1.

Definition pipe_exec (d : db) (c : pipe_cmd) : db :=
  match c with
  | PXadd k fs => xadd k fs (top_id (stream_at k d) + 1) d
  | PXack k gn ids => xack k gn ids d
  | PXdel k ids => xdel k ids d
  end.

(** Longer than every identifier issued so far. *)
Definition fresh_id (used : gset bytes) : bytes :=
  replicate (S (set_fold (λ i n, Nat.max (length i) n) O used)) "0"%byte.

Definition serve X (e : redisE X) (s : server) : option (server * X) :=
  let done d := Some (d, Ok tt) in
  match e in redisE X return option (server * X) with
  | PoolGet => answer s done
  | Lpush k vs => answer s (λ d, done (set_list k (reverse vs ++ list_at k d) d))
  | Rpush k v => answer s (λ d, done (set_list k (list_at k d ++ [v]) d))
  | Lrem k count v => answer s (λ d, done (set_list k (lrem count v (list_at k d)) d))
  | Lrange k a b => answer s (λ d, Some (d, Ok (lrange a b (list_at k d))))
  | Brpoplpush src dst t =>
      answer s (λ d,
        match last (list_at src d) with
        | Some x =>
            let d1 := set_list src (removelast (list_at src d)) d in
            Some (set_list dst (x :: list_at dst d1) d1, Ok (Some x))
        | None => if as_nanos t =? 0 then None else Some (d, Ok None)
        end)
  | Zadd k m sc => answer s (λ d, done (set_zset k (<[m := sc]> (zset_at k d)) d))
  | ZrangebyscoreLimit k lo hi _ count =>
      answer s (λ d, Some (d, Ok (zrange (zset_at k d) lo hi (Z.to_nat count))))
  | Zrem k ms => answer s (λ d, done (set_zset k (foldr delete (zset_at k d) ms) d))
  | SetNxPx k _ =>
      answer s (λ d, if decide (k ∈ locks d) then Some (d, Ok None)
                     else Some (set_locks ({[k]} ∪ locks d) d, Ok (Some "OK"%string)))
  | Del k => answer s (λ d, done (set_locks (locks d ∖ {[k]}) d))
  | Xadd k fs => answer s (λ d, done (pipe_exec d (PXadd k fs)))
  | XreadGroup k gn _ block count =>
      answer s (λ d,
        match groups (stream_at k d) !! gn with
        | None => Some (d, Err (boxed "NOGROUP"))
        | Some g =>
            let new := count_limit count (undelivered g (stream_at k d)) in
            match last new with
            | None => if block =? 0 then None else Some (d, Ok [])
            | Some x =>
                Some (set_stream k (with_group gn (mkCgroup x.1 (pel g ++ new.*1))
                        (stream_at k d)) d, Ok [(k, read_entry <$> new)])
            end
        end)
  | Xautoclaim k gn _ _ count =>
      answer s (λ d,
        match groups (stream_at k d) !! gn with
        | None => Some (d, Err (boxed "NOGROUP"))
        | Some g =>
            Some (set_stream k (with_group gn (mkCgroup (last_delivered g) (pel g))
                    (stream_at k d)) d,
                  Ok (read_entry <$>
                    (let found := find_entries (pel g) (stream_at k d) in
                     if decide (length found <= N.to_nat count)%nat then found else [])))
        end)
  | Xrange k a b =>
      answer s (λ d, Some (d, Ok (read_entry <$>
        filter (λ e, a <= e.1 <= b) (entries (stream_at k d)))))
  | PipeCmd c => answer s (λ d, done (pipe_exec d c))
  | ConfigGet n => answer s (λ d, Some (d, Ok [n; "noeviction"%string]))
  | SystemTimeNow =>
      let t := if clock_sane (wall s) then wall s else UNIX_EPOCH in
      Some (mkServer (set_clock t (sdb s)) (plan s) t (limit s), t)
  | KsuidNew =>
      let i := fresh_id (issued (sdb s)) in
      Some (mkServer (set_issued ({[i]} ∪ issued (sdb s)) (sdb s)) (plan s) (wall s) (limit s), i)
  | KsuidMsBefore dl => Some (s, if as_secs dl <=? WILD_DEADLINE then Done (limit s) else Panics)
  | Sleep _ => Some (s, tt)
  end.

(** ** Lemmas *)

Lemma fresh_id_fresh used : fresh_id used ∉ used.
Proof.
  intros Hin. unfold fresh_id in Hin.
  assert (∀ i, i ∈ used → (length i <= set_fold (λ i n, Nat.max (length i) n) O used)%nat) as Hle.
  { apply (set_fold_ind_L (λ n X, ∀ i, i ∈ X → (length i <= n)%nat)); [set_solver|].
    intros x X n Hx IH i Hi. apply elem_of_union in Hi as [Hi|Hi].
    - apply elem_of_singleton in Hi as ->. lia.
    - apply IH in Hi. lia. }
  apply Hle in Hin. rewrite length_replicate in Hin. lia.
Qed.

Lemma fresh_id_base62 used : is_base62 (fresh_id used).
Proof. unfold is_base62, fresh_id. by apply Forall_replicate. Qed.

Lemma pipe_exec_step d c : pipe_step c d (pipe_exec d c).
Proof. destruct c; simpl; [|done..]. eexists. split; [|done]. lia. Qed.

Lemma zrange_spec z lo hi count : zrange_result z lo hi count (zrange z lo hi count).
Proof.
  unfold zrange. set (due := filter _ _).
  assert (merge_sort score_le due ≡ₚ due) as Hperm by apply merge_sort_Permutation.
  assert (StronglySorted score_le (merge_sort score_le due)) as Hsort
    by apply (StronglySorted_merge_sort _).
  set (l := merge_sort score_le due) in *.
  assert (∀ m sc, (m, sc) ∈ l ↔ z !! m = Some sc ∧ lo <= sc <= hi) as Hl.
  { intros m sc. rewrite Hperm. unfold due. rewrite list_elem_of_filter, elem_of_map_to_list.
    simpl. tauto. }
  assert (NoDup l.*1) as Hnd.
  { apply NoDup_fmap_fst.
    - intros x y1 y2 H1 H2. apply Hl in H1 as [H1 _]. apply Hl in H2 as [H2 _]. congruence.
    - rewrite Hperm. apply NoDup_filter, NoDup_map_to_list. }
  assert (∀ p, p ∈ take count l → default 0 (z !! p.1) = p.2) as Hscore.
  { intros [m sc] Hp. assert ((m, sc) ∈ l) as Hin.
    { apply elem_of_take in Hp as (i&Hi&_). by eapply list_elem_of_lookup_2. }
    apply Hl in Hin as [Hz _]. simpl. by rewrite Hz. }
  assert (StronglySorted score_le (take count l)) as Hsort'.
  { eapply StronglySorted_app_1_l. by rewrite take_drop. }
  unfold zrange_result. split_and!.
  - rewrite fmap_take. eapply sublist_NoDup; [exact Hnd|]. apply sublist_take.
  - intros m Hm. apply list_elem_of_fmap in Hm as ([m' sc]&->&Hp).
    apply elem_of_take in Hp as (i&Hi&_). apply list_elem_of_lookup_2, Hl in Hi. eauto.
  - rewrite length_fmap, length_take. f_equal. by apply Permutation_length.
  - clear -Hscore Hsort'. induction Hsort' as [|p k Hk IH Hp]; simpl; constructor.
    + apply IH. intros q Hq. apply Hscore. by right.
    + apply Forall_fmap. rewrite Forall_forall in *. intros q Hq. simpl.
      rewrite !Hscore by (by constructor). by apply Hp.
  - intros a b sc Ha Hb Hz Hsc. apply list_elem_of_fmap in Ha as ([a' sa]&->&Ha).
    rewrite Hscore by done. simpl.
    assert ((b, sc) ∈ drop count l) as Hbl.
    { assert ((b, sc) ∈ l) as Hin by (by apply Hl).
      rewrite <-(take_drop count l) in Hin. apply elem_of_app in Hin as [Hin|Hin]; [|done].
      destruct Hb. apply list_elem_of_fmap. by exists (b, sc). }
    apply (StronglySorted_app_1_elem_of score_le (take count l) (drop count l)
      (a', sa) (b, sc)); [by rewrite take_drop|done|done].
Qed.

Lemma answer_sound {Y} faulty s (eff : db → option (db * result Y StdError))
    (R : db → db → Y → Prop) s' r :
  (faulty = false → plan s = []) →
  answer s eff = Some (s', r) →
  (∀ d' y, eff (sdb s) = Some (d', Ok y) → R (sdb s) d' y) →
  (∀ d' e, eff (sdb s) = Some (d', Err e) →
     d' = sdb s ∧ ∀ d1 y, ¬ R (sdb s) d1 y) →
  fallible faulty R (sdb s) (sdb s') r.
Proof.
  unfold answer. intros Hp Ha Hok Herr.
  destruct faulty; [|rewrite Hp in Ha by done; simpl in Ha];
  [destruct (head (plan s)) as [[]|]|];
    destruct (eff (sdb s)) as [[d [y|e]]|] eqn:He; simplify_eq/=; eauto 6;
    right; by eapply Herr.
Qed.

Lemma answer_live {Y} s (eff : db → option (db * result Y StdError)) :
  is_Some (eff (sdb s)) → is_Some (answer s eff).
Proof.
  unfold answer. intros [[d r] ->]. destruct (head (plan s)) as [[]|]; eauto.
Qed.

Lemma take_nil_inv {A} n (l : list A) : take n l = [] → n = O ∨ l = [].
Proof. destruct n, l; naive_solver. Qed.

Lemma count_limit_nil {A} count (l : list A) : count_limit count l = [] → l = [].
Proof.
  unfold count_limit. destruct (N.eqb_spec count 0); [done|].
  destruct (N.to_nat count) eqn:Hc; [lia|]. by destruct l.
Qed.

Lemma find_entries_nil s : find_entries [] s = [].
Proof.
  unfold find_entries. induction (entries s) as [|e l IH]; [done|].
  rewrite filter_cons_False; [done|]. set_solver.
Qed.

Lemma serve_sound faulty X (e : redisE X) s s' x :
  (faulty = false → plan s = []) →
  serve X e s = Some (s', x) → redis_documented faulty X e (sdb s) (sdb s') x.
Proof.
  intros Hp Hs. destruct e; simpl in Hs.
  19-21: simplify_eq/=; eauto using fresh_id_base62, fresh_id_fresh.
  18: { simplify_eq/=. by destruct (clock_sane (wall s)) eqn:Hw. }
  18: { unfold SAFE_DEADLINE, WILD_DEADLINE. split; [done|].
        destruct (N.leb_spec (as_secs d) 632448000000); split; try done; [eauto|lia..]. }
  all: eapply answer_sound; [exact Hp|exact Hs|..]; simpl; unfold becomes; intros;
    split_matches; simplify_eq/=; bool_prop; eauto using zrange_spec.
  1: by eexists; split; [|done]; lia.
  all: try apply pipe_exec_step.
  all: try (eexists; split; [reflexivity|]; simpl; by split_matches).
  all: try (split; [done|]; by intros ? ? (?&?&_)).
  all: try (split; [done|]; by intros ? ? (?&?&?&?&_)).
  + exists c, (pel c), (pel c). split_and!; try done. by rewrite length_fmap.
  + exists c, (pel c), []. split_and!; try done; [set_solver| |lia].
    by rewrite find_entries_nil.
Qed.

Lemma serve_live X (e : redisE X) s : redis_ready X e (sdb s) → is_Some (serve X e s).
Proof.
  intros Hr. destruct e; simpl; eauto; apply answer_live; simpl; eauto; simpl in Hr.
  + destruct (last _) eqn:Hl; [eauto|]. apply last_None in Hl. rewrite Hl in Hr.
    destruct (N.eqb_spec (as_nanos timeout) 0); [tauto|eauto].
  + case_decide; eauto.
  + destruct (groups _ !! _) as [g|]; [|eauto].
    destruct (last _) eqn:Hl; [eauto|]. destruct (N.eqb_spec block 0) as [->|]; [|eauto].
    apply last_None, count_limit_nil in Hl. tauto.
  + split_matches; eauto.
Qed.

(** The server that answers every command. *)
Definition serve_healthy X (e : redisE X) (s : server) : option (server * X) :=
  serve X e (mkServer (sdb s) [] (wall s) (limit s)).

#[export] Instance serve_lawful : Lawful (redis_doc true) serve sdb.
Proof. split; intros; [by apply serve_sound|by apply serve_live]. Qed.

#[export] Instance serve_healthy_lawful : Lawful (redis_doc false) serve_healthy sdb.
Proof.
  split; unfold serve_healthy; intros.
  - by eapply (serve_sound false _ _ (mkServer _ [] _ _)).
  - by apply serve_live.
Qed.

(** The same server at a time when [KsuidMsBefore] answers [L]. *)
Definition serve_late (L : bytes) X (e : redisE X) (s : server) : option (server * X) :=
  serve_healthy X e (mkServer (sdb s) [] (wall s) L).
