(* ===== verification/RedisDriver.v ===== *)
(** * What the redis backend gives to its client libraries

    The connection managers for clusters and for sentinels
    ([backends/redis/cluster.rs], [backends/redis/sentinel.rs]), which [bb8]'s
    pool calls, and the decoding of the reply of [XAUTOCLAIM]
    ([StreamAutoclaimReply] in [backends/redis/streams.rs]).  The values and
    errors of the redis crate, its conversions and its clients are
    parameters. *)
From S2P Require Import Prelude RustStd Effects RedisApi.

(** ** The redis crate *)

(** The kinds of error that the code names, and the others. *)
Inductive ErrorKind := ResponseError | TypeError | OtherKind (name : string).

#[export] Instance ErrorKind_eq_dec : EqDecision ErrorKind.
Proof. solve_decision. Defined.

(** [RedisError]: its [kind()] and [From<(ErrorKind, &str)>]. *)
Class RedisErrors (Error : Type) := {
  kind : Error → ErrorKind;
  error_from : ErrorKind → string → Error;
}.

Class FromRedisValue (RValue Error T : Type) := from_redis_value : RValue → result T Error.

(** [redis::streams::StreamClaimReply] *)
Record StreamClaimReply := mkClaimReply { claim_ids : list StreamId }.

(** ** [StreamAutoclaimReply] *)

Record StreamAutoclaimReply := mkAutoclaimReply { ids : list StreamId }.

Section autoclaim.
Context {RValue Error : Type} `{RedisErrors Error}.
Context `{!FromRedisValue RValue Error (unit * StreamClaimReply)}.
Context `{!FromRedisValue RValue Error (unit * StreamClaimReply * unit)}.

#[export] Instance autoclaim_from : FromRedisValue RValue Error StreamAutoclaimReply := λ v,
  match from_redis_value (T := unit * StreamClaimReply) v with
  | Ok res => Ok (mkAutoclaimReply (claim_ids res.2))
  | Err e =>
      if decide (kind e = TypeError) then
        result_map (λ ok : unit * StreamClaimReply * unit, mkAutoclaimReply (claim_ids ok.1.2))
          (from_redis_value v)
      else Err e
  end.

Lemma autoclaim_from_eq v :
  from_redis_value (T := StreamAutoclaimReply) v =
  match from_redis_value (T := unit * StreamClaimReply) v with
  | Ok res => Ok (mkAutoclaimReply (claim_ids res.2))
  | Err e =>
      if decide (kind e = TypeError) then
        result_map (λ ok : unit * StreamClaimReply * unit, mkAutoclaimReply (claim_ids ok.1.2))
          (from_redis_value v)
      else Err e
  end.
Proof. done. Qed.
End autoclaim.

(** What the redis crate documents of its conversions to tuples: an array of
    another size is a type error, one of the same size is converted member by
    member, and any value converts to [()]. *)
Class TupleConversions (RValue Error : Type) (array : list RValue → RValue)
    `{RedisErrors Error, !FromRedisValue RValue Error StreamClaimReply,
      !FromRedisValue RValue Error (unit * StreamClaimReply),
      !FromRedisValue RValue Error (unit * StreamClaimReply * unit)} : Prop := {
  pair_members a b :
    from_redis_value (array [a; b]) = result_map (pair tt) (from_redis_value b);
  pair_size l : length l ≠ 2%nat →
    ∃ e, from_redis_value (T := unit * StreamClaimReply) (array l) = Err e ∧ kind e = TypeError;
  triple_members a b c :
    from_redis_value (array [a; b; c]) =
    result_map (λ x, (tt, x, tt)) (from_redis_value b);
  triple_size l : length l ≠ 3%nat →
    ∃ e, from_redis_value (T := unit * StreamClaimReply * unit) (array l) = Err e ∧
      kind e = TypeError;
}.

(** ** The interface of the pool ([bb8::ManageConnection]) *)

Class ManageConnection (E : Type → Type) (M : Type) := {
  Connection : Type;
  Error : Type;
  connect : M → prog E (result Connection Error);
  is_valid : M → Connection → prog E (result unit Error);
  has_broken : M → Connection → bool;
}.

Definition PING : string := "PING".

Inductive MultipleNodeRoutingInfo := AllMasters.
Inductive ResponsePolicy := OneSucceeded.
Inductive RoutingInfo :=
  MultiNode (info : MultipleNodeRoutingInfo) (policy : option ResponsePolicy).
Inductive SentinelServerType := Master.

Section managers.
(** [Info] implements [IntoConnectionInfo]; [NodeInfo] is
    [SentinelNodeConnectionInfo]. *)
Context {Info NodeInfo Client Conn RValue RedisError : Type}.
Context `{RedisErrors RedisError, !FromRedisValue RValue RedisError string}.

(** The answer to a [PING]. *)
Definition check_pong (pong : string) : result unit RedisError :=
  if bool_decide (pong = "PONG"%string) then Ok tt
  else Err (error_from ResponseError "ping request").

(** ** [RedisClusterConnectionManager] *)

Inductive clusterE : Type → Type :=
| ClusterClientBuild (nodes : list Info) : clusterE (result Client RedisError)
| ClusterGetConnection (client : Client) : clusterE (result Conn RedisError)
| RouteCommand (conn : Conn) (cmd : string) (routing : RoutingInfo)
    : clusterE (result RValue RedisError).

Record RedisClusterConnectionManager := mkClusterManager { cluster_client : Client }.

Definition cluster_new (info : Info)
    : prog clusterE (result RedisClusterConnectionManager RedisError) :=
  let? client := call (ClusterClientBuild [info]) in Ret (Ok (mkClusterManager client)).

Definition ping_route : RoutingInfo := MultiNode AllMasters (Some OneSucceeded).

#[export] Instance cluster_manager : ManageConnection clusterE RedisClusterConnectionManager := {|
  connect self := call (ClusterGetConnection (cluster_client self));
  is_valid _ conn :=
    let* r := call (RouteCommand conn PING ping_route) in
    let? pong := Ret (and_then r from_redis_value) in
    Ret (check_pong pong);
  has_broken _ _ := false;
|}.

(** ** [RedisSentinelConnectionManager]

    The client is in a [tokio::sync::Mutex]: [lock().await] is [Lock], and
    the guard is dropped ([Unlock]) at the end of the statement. *)

Inductive sentinelE : Type → Type :=
| SentinelClientBuild (info : list Info) (service_name : string) (node : option NodeInfo)
    (server_type : SentinelServerType) : sentinelE (result Client RedisError)
| Lock : sentinelE unit
| SentinelGetConnection : sentinelE (result Conn RedisError)
| Unlock : sentinelE unit
| Query (conn : Conn) (cmd : string) : sentinelE (result RValue RedisError).

(** The manager shares its one client: building it puts the client behind the
    lock. *)
Inductive RedisSentinelConnectionManager := LockedSentinelClient (client : Client).

Definition sentinel_new (info : list Info) (service_name : string)
    (node_connection_info : option NodeInfo)
    : prog sentinelE (result RedisSentinelConnectionManager RedisError) :=
  let? client := call (SentinelClientBuild info service_name node_connection_info Master) in
  Ret (Ok (LockedSentinelClient client)).

#[export] Instance sentinel_manager
    : ManageConnection sentinelE RedisSentinelConnectionManager := {|
  connect _ :=
    let* _ := call Lock in
    let* r := call SentinelGetConnection in
    let* _ := call Unlock in
    Ret r;
  is_valid _ conn :=
    let* r := call (Query conn PING) in
    let? pong := Ret (and_then r from_redis_value) in
    Ret (check_pong pong);
  has_broken _ _ := false;
|}.
End managers.
Arguments clusterE _ _ _ _ _ : clear implicits.
Arguments sentinelE _ _ _ _ _ _ : clear implicits.

(** ** The two versions of the reply *)

Section replies.
Context {RValue Error : Type} (array : list RValue → RValue).
Context `{TupleConversions RValue Error array}.

(** Both versions of the reply of [XAUTOCLAIM] are understood: the reply
    of three members (since redis 7) gives the ids of its second member, and
    so does the reply of two members (before), unless converting that member
    is a type error, which is then reported as some type error; any other
    error is reported as it is, and an array of another size is a type
    error. *)
Theorem autoclaim_reply_versions cursor entries deleted :
  let decode v := from_redis_value (T := StreamAutoclaimReply) v in
  let claimed := from_redis_value (T := StreamClaimReply) entries in
  decode (array [cursor; entries; deleted]) =
    result_map (λ c, mkAutoclaimReply (claim_ids c)) claimed ∧
  (match claimed with
   | Ok c => decode (array [cursor; entries]) = Ok (mkAutoclaimReply (claim_ids c))
   | Err e =>
       if decide (kind e = TypeError)
       then ∃ e', decode (array [cursor; entries]) = Err e' ∧ kind e' = TypeError
       else decode (array [cursor; entries]) = Err e
   end) ∧
  (∀ l, length l ≠ 2%nat → length l ≠ 3%nat →
     ∃ e, decode (array l) = Err e ∧ kind e = TypeError).
Proof.
  intros decode claimed. unfold decode, claimed. split_and!.
  - rewrite autoclaim_from_eq.
    destruct (pair_size [cursor; entries; deleted]) as (e&->&He); [done|].
    rewrite decide_True, triple_members by done. by destruct (from_redis_value entries).
  - rewrite autoclaim_from_eq, pair_members.
    destruct (from_redis_value entries) as [c|e]; [done|]. simpl. case_decide; [|done].
    destruct (triple_size [cursor; entries]) as (e'&->&He'); [done|]. simpl. eauto.
  - intros l H2 H3. rewrite autoclaim_from_eq.
    destruct (pair_size l H2) as (e&->&He). rewrite decide_True by done.
    destruct (triple_size l H3) as (e'&->&He'). simpl. eauto.
Qed.
End replies.

(** ** Validity and exclusion *)

Section validity.
Context {Info NodeInfo Client Conn RValue RedisError S : Type}.
Context `{RedisErrors RedisError, !FromRedisValue RValue RedisError string}.

(** What a manager's [is_valid] makes of the reply to its [PING]. *)
Definition valid_after (r : result RValue RedisError) : result unit RedisError :=
  and_then r (λ v, and_then (from_redis_value v) check_pong).

Lemma valid_after_Ok r :
  valid_after r = Ok tt ↔ ∃ v, r = Ok v ∧ from_redis_value v = Ok "PONG"%string.
Proof.
  split; [|intros (v&->&Hv); simpl; by rewrite Hv].
  destruct r as [v|e]; simpl; [|done].
  destruct (from_redis_value v) as [s|e] eqn:Hv; simpl; [|done].
  unfold check_pong. case_bool_decide; [|done]. subst. eauto.
Qed.

Lemma cluster_is_valid (h : handler (clusterE Info Client Conn RValue RedisError) S)
    (m : RedisClusterConnectionManager) conn s s' r :
  h _ (RouteCommand conn PING ping_route) s = Some (s', r) →
  run h (is_valid m conn) s = Returned s' (valid_after r).
Proof.
  intros Hr. simpl. rewrite run_bind, run_call, Hr. unfold valid_after.
  destruct r as [v|e]; simpl; [|done]. by destruct (from_redis_value v).
Qed.

Lemma sentinel_is_valid (h : handler (sentinelE Info NodeInfo Client Conn RValue RedisError) S)
    (m : RedisSentinelConnectionManager) conn s s' r :
  h _ (Query conn PING) s = Some (s', r) →
  run h (is_valid m conn) s = Returned s' (valid_after r).
Proof.
  intros Hr. simpl. rewrite run_bind, run_call, Hr. unfold valid_after.
  destruct r as [v|e]; simpl; [|done]. by destruct (from_redis_value v).
Qed.
End validity.

(** The lock of the sentinel's client. *)
Section exclusion.
Context {Info NodeInfo Client Conn RValue RedisError D : Type}.
Context `{RedisErrors RedisError, !FromRedisValue RValue RedisError string}.
Abbreviation E := (sentinelE Info NodeInfo Client Conn RValue RedisError).

(** [tokio::sync::Mutex]: [lock] returns when nobody has the lock. *)
Class MutexDoc (R : env_doc E D) (held : D → bool) : Prop := {
  lock_doc d d' x : doc R Lock d d' x → held d = false ∧ held d' = true;
  unlock_doc d d' x : doc R Unlock d d' x → held d' = false;
  others_doc X (e : E X) d d' x :
    doc R e d d' x → match e with Lock | Unlock => True | _ => held d' = held d end;
}.

(** A program that uses the client only between [Lock] and [Unlock], and
    ends with the lock given back; [mine] when it has the lock. *)
Fixpoint brackets {A} (mine : bool) (p : prog E A) : Prop :=
  match p with
  | Vis e k =>
      match e with
      | Lock => mine = false ∧ ∀ x, brackets true (k x)
      | Unlock => mine = true ∧ ∀ x, brackets false (k x)
      | SentinelGetConnection => mine = true ∧ ∀ x, brackets true (k x)
      | _ => ∀ x, brackets mine (k x)
      end
  | _ => mine = false
  end.

(** The next call of the program uses the client. *)
Definition at_client {A} (p : prog E A) : bool :=
  match p with
  | Vis e _ => match e with SentinelGetConnection => true | _ => false end
  | _ => false
  end.

Lemma at_client_mine {A} mine (p : prog E A) :
  brackets mine p → at_client p = true → mine = true.
Proof. destruct p as [| | |X e k]; try done. by destruct e; simpl; try done; intros []. Qed.

(** What the pool runs on the shared manager. *)
Inductive pool_op := OpConnect | OpIsValid (conn : Conn).

Definition pool_program (m : RedisSentinelConnectionManager (Client := Client)) (o : pool_op)
    : prog E (option Conn) :=
  match o with
  | OpConnect => let* r := connect m in Ret (match r with Ok c => Some c | Err _ => None end)
  | OpIsValid c =>
      let* r := is_valid m c in Ret (match r with Ok _ => Some c | Err _ => None end)
  end.

Lemma pool_program_brackets m o : brackets false (pool_program m o).
Proof.
  with_strategy transparent [call] (destruct o as [|c]; simpl); [done|].
  intros [v|e]; [|done]. simpl. by destruct (from_redis_value v).
Qed.

(** A running call: what is left of it, and whether it has the guard of the
    lock.  [lock] hands the guard out and [Unlock] is its drop. *)
Record caller := mkCaller {
  caller_op : pool_op;
  rest : prog E (option Conn);
  guard : bool;
}.
Record pool := mkPool { pool_shared : D; callers : list caller }.

Definition guard_after {X} (e : E X) (g : bool) : bool :=
  match e with Lock => true | Unlock => false | _ => g end.

Context (R : env_doc E D) (held : D → bool) `{!MutexDoc R held}.
Context (m : RedisSentinelConnectionManager (Client := Client)).

(** Dropping a future drops the guard that it has. *)
Definition released (g : bool) (d d' : D) : Prop :=
  if g then doc R Unlock d d' tt else d' = d.

(** Calls start, go on by one call to the environment, end, and are
    cancelled, at any moment. *)
Inductive pool_step : pool → pool → Prop :=
| pool_start o d ts :
    pool_step (mkPool d ts) (mkPool d (ts ++ [mkCaller o (pool_program m o) false]))
| pool_call o g X (e : E X) k x d d' ts1 ts2 :
    doc R e d d' x →
    pool_step (mkPool d (ts1 ++ mkCaller o (Vis e k) g :: ts2))
      (mkPool d' (ts1 ++ mkCaller o (k x) (guard_after e g) :: ts2))
| pool_end o r g d d' ts1 ts2 :
    released g d d' →
    pool_step (mkPool d (ts1 ++ mkCaller o (Ret r) g :: ts2)) (mkPool d' (ts1 ++ ts2))
| pool_cancel t d d' ts1 ts2 :
    released (guard t) d d' →
    pool_step (mkPool d (ts1 ++ t :: ts2)) (mkPool d' (ts1 ++ ts2)).

Definition owners (flags : list bool) : nat := sum_list_with Nat.b2n flags.

(** The guard is where the lock says that it is. *)
Definition guarded (s : pool) : Prop :=
  Forall (λ t, brackets (guard t) (rest t)) (callers s) ∧
  owners (guard <$> callers s) = Nat.b2n (held (pool_shared s)).

Lemma owners_app l1 l2 : owners (l1 ++ l2) = (owners l1 + owners l2)%nat.
Proof. apply sum_list_with_app. Qed.

Lemma owners_middle l1 b l2 : owners (l1 ++ b :: l2) = (Nat.b2n b + owners (l1 ++ l2))%nat.
Proof. rewrite !owners_app. unfold owners. simpl. lia. Qed.

Lemma owners_some l : (1 <= owners l)%nat → ∃ i, l !! i = Some true.
Proof.
  induction l as [|[] l IH]; unfold owners; simpl; intros Hl; [lia|by exists O|].
  destruct IH as [i Hi]; [unfold owners; lia|]. by exists (S i).
Qed.

Lemma owners_unique l i j :
  (owners l <= 1)%nat → l !! i = Some true → l !! j = Some true → i = j.
Proof.
  assert (∀ k l, l !! k = Some true → (1 <= owners l)%nat) as Hpos.
  { intros k l' Hk. apply list_elem_of_split_length in Hk as (l1&l2&->&_).
    rewrite owners_middle. simpl. lia. }
  intros Hl Hi Hj. revert i j Hl Hi Hj.
  induction l as [|b l IH]; intros [|i] [|j] Hl Hi Hj; simplify_eq/=; try done.
  - apply Hpos in Hj. unfold owners in *. simpl in Hl. lia.
  - apply Hpos in Hi. unfold owners in *. simpl in Hl. lia.
  - f_equal. eapply IH; [|done..]. unfold owners in *. simpl in Hl. lia.
Qed.

Lemma call_guarded {A X} (e : E X) (k : X → prog E A) g x d d' :
  brackets g (Vis e k) → doc R e d d' x →
  brackets (guard_after e g) (k x) ∧
  (Nat.b2n (guard_after e g) + Nat.b2n (held d) = Nat.b2n g + Nat.b2n (held d'))%nat ∨
  (held d = false ∧ g = true).
Proof.
  intros Hb Hdoc. pose proof (others_doc X e d d' x Hdoc) as Ho. simpl in Hb.
  destruct e; try (left; split; [by apply Hb|simpl; by rewrite Ho]).
  - left. destruct Hb as [-> Hb]. apply lock_doc in Hdoc as [-> ->]. by split.
  - left. destruct Hb as [-> Hb]. simpl. rewrite Ho. by split.
  - destruct Hb as [-> Hb]. apply unlock_doc in Hdoc as ->. simpl.
    destruct (held d); [left; by split|by right].
Qed.

Lemma released_guarded t d d' ts1 ts2 :
  guarded (mkPool d (ts1 ++ t :: ts2)) → released (guard t) d d' →
  guarded (mkPool d' (ts1 ++ ts2)).
Proof.
  intros [Hb Ho] Hr. apply Forall_app in Hb as [Hb1 [_ Hb2]%Forall_cons].
  split; [by apply Forall_app|]. simpl in *.
  rewrite fmap_app, fmap_cons, owners_middle, <-fmap_app in Ho. unfold released in Hr.
  destruct (guard t); simpl in Ho; [|by subst].
  apply unlock_doc in Hr as ->. destruct (held d); simpl in *; lia.
Qed.

Lemma step_guarded s s' : guarded s → pool_step s s' → guarded s'.
Proof.
  intros Hs Hstep.
  destruct Hstep as [o d ts|o g X e k x d d' ts1 ts2 Hdoc|o r g d d' ts1 ts2 Hr|t d d' ts1 ts2 Hr];
    [|destruct Hs as [Hb Ho]|by apply (released_guarded (mkCaller o (Ret r) g) d)|
      by apply (released_guarded t d)].
  - destruct Hs as [Hb Ho]. split; simpl in *.
    + apply Forall_app. split; [done|]. constructor; [apply pool_program_brackets|constructor].
    + by rewrite fmap_app, (owners_middle _ false []), app_nil_r.
  - simpl in *. apply Forall_app in Hb as [Hb1 [Hb Hb2]%Forall_cons]. simpl in Hb.
    rewrite fmap_app, fmap_cons, owners_middle, <-fmap_app in Ho. simpl in Ho.
    destruct (call_guarded e k g x d d' Hb Hdoc) as [[Hb' Hh]|[Hh ->]];
      [|rewrite Hh in Ho; simpl in Ho; lia].
    split; simpl.
    + apply Forall_app. split; [done|]. by constructor.
    + rewrite fmap_app, fmap_cons, owners_middle, <-fmap_app. simpl. lia.
Qed.

Lemma steps_guarded d0 s : held d0 = false → rtc pool_step (mkPool d0 []) s → guarded s.
Proof.
  intros H0 Hsteps. assert (guarded (mkPool d0 [])) as Hg.
  { split; [constructor|]. simpl. by rewrite H0. }
  clear H0. induction Hsteps; [done|]. eauto using step_guarded.
Qed.

(** The next call of the program is not the one that waits for the lock. *)
Definition can_go {A} (p : prog E A) : bool :=
  match p with
  | Vis e _ => match e with Lock => false | _ => true end
  | _ => false
  end.

Lemma mine_can_go {A} (p : prog E A) : brackets true p → can_go p = true.
Proof. destruct p as [| | |X e k]; try done. by destruct e; simpl; try done; intros []. Qed.

(** C30: connections made at the same time.  Whatever calls of [connect] and
    [is_valid] the pool runs on one sentinel manager, in whatever
    interleaving, and wherever it cancels them: a call that is at the client,
    which needs the client for itself, has the lock; at most one call has it,
    so that at most one is at the client; and whenever the lock is taken, a
    running call has it that does not wait for it: no cancellation leaves it
    taken for ever. *)
Theorem sentinel_client_exclusive d0 s :
  held d0 = false → rtc pool_step (mkPool d0 []) s →
  (∀ t, t ∈ callers s → at_client (rest t) = true → guard t = true) ∧
  (∀ i j t u, callers s !! i = Some t → callers s !! j = Some u →
     guard t = true → guard u = true → i = j) ∧
  (∀ i j t u, callers s !! i = Some t → callers s !! j = Some u →
     at_client (rest t) = true → at_client (rest u) = true → i = j) ∧
  (held (pool_shared s) = true →
     ∃ t, t ∈ callers s ∧ guard t = true ∧ can_go (rest t) = true).
Proof.
  intros H0 Hsteps. destruct (steps_guarded d0 s H0 Hsteps) as [Hb Ho].
  rewrite Forall_forall in Hb.
  assert (∀ t, t ∈ callers s → at_client (rest t) = true → guard t = true) as Hat.
  { intros t Ht. apply at_client_mine. by apply Hb. }
  assert (∀ i j t u, callers s !! i = Some t → callers s !! j = Some u →
    guard t = true → guard u = true → i = j) as Huniq.
  { intros i j t u Hi Hj Ht Hu. apply (owners_unique (guard <$> callers s)).
    - rewrite Ho. destruct (held (pool_shared s)); simpl; lia.
    - by rewrite list_lookup_fmap, Hi, <-Ht.
    - by rewrite list_lookup_fmap, Hj, <-Hu. }
  split_and!; [done|done| |].
  - intros i j t u Hi Hj Ht Hu. eapply Huniq; [done..| |]; eauto using list_elem_of_lookup_2.
  - intros Hh. rewrite Hh in Ho. destruct (owners_some (guard <$> callers s)) as [i Hi];
      [rewrite Ho; simpl; lia|].
    rewrite list_lookup_fmap in Hi. apply fmap_Some in Hi as (t&Ht&Hg).
    apply list_elem_of_lookup_2 in Ht. exists t. split_and!; [done|done|].
    apply mine_can_go. rewrite Hg. by apply Hb.
Qed.
End exclusion.

(** ** Witnesses *)

(** Replies as small trees, with conversions as documented. *)
Inductive reply := REntries (l : list StreamId) | ROther (k : ErrorKind) | RArray (l : list reply).

#[local] Instance reply_errors : RedisErrors ErrorKind :=
  {| kind := id; error_from k _ := k |}.
#[local] Instance reply_claim : FromRedisValue reply ErrorKind StreamClaimReply := λ v,
  match v with
  | REntries l => Ok (mkClaimReply l)
  | ROther k => Err k
  | RArray _ => Err TypeError
  end.
#[local] Instance reply_pair : FromRedisValue reply ErrorKind (unit * StreamClaimReply) := λ v,
  match v with
  | RArray [_; b] => result_map (pair tt) (reply_claim b)
  | _ => Err TypeError
  end.
#[local] Instance reply_triple : FromRedisValue reply ErrorKind (unit * StreamClaimReply * unit) :=
  λ v, match v with
       | RArray [_; b; _] => result_map (λ x, (tt, x, tt)) (reply_claim b)
       | _ => Err TypeError
       end.

#[local] Instance reply_tuples : TupleConversions reply ErrorKind RArray.
Proof.
  split; try done; intros l Hl; exists TypeError; (split; [|done]).
  - by destruct l as [|? [|? [|? ?]]].
  - by destruct l as [|? [|? [|? [|? ?]]]].
Qed.

Definition entry0 : StreamId := mkStreamId 7 ∅.

Lemma autoclaim_reply_versions_witness :
  from_redis_value (RArray [ROther TypeError; REntries [entry0]; RArray []])
    = Ok (mkAutoclaimReply [entry0]) ∧
  from_redis_value (RArray [ROther TypeError; REntries [entry0]])
    = Ok (mkAutoclaimReply [entry0]) ∧
  ∃ e, from_redis_value (T := StreamAutoclaimReply) (RArray []) = Err e ∧ kind e = TypeError.
Proof.
  destruct (autoclaim_reply_versions RArray (ROther TypeError) (REntries [entry0]) (RArray []))
    as (H3&H2&Hn).
  split_and!; [exact H3|exact H2|by apply Hn].
Defined.

(** A lock, and two connections of which the first has it. *)
Abbreviation sentinel0 := (sentinelE unit unit unit unit unit ErrorKind).

Definition lock_documented X (e : sentinel0 X) (d d' : bool) (_ : X) : Prop :=
  match e with
  | Lock => d = false ∧ d' = true
  | Unlock => d' = false
  | _ => d' = d
  end.
Definition lock_docs : env_doc sentinel0 bool :=
  EnvDoc (λ X (e : sentinel0 X) d, match e with Lock => d = false | _ => True end)
    lock_documented.

#[local] Instance lock_docs_ok : MutexDoc lock_docs id.
Proof. split; try done. by intros X []. Qed.

#[local] Instance pong0 : FromRedisValue unit ErrorKind string := λ _, Ok "PONG"%string.

Definition manager0 : RedisSentinelConnectionManager := LockedSentinelClient tt.
Definition connecting : prog sentinel0 (option unit) := pool_program manager0 OpConnect.
Definition locked : prog sentinel0 (option unit) :=
  match connecting with Vis e k => match e in sentinelE _ _ _ _ _ _ X
    return (X → prog sentinel0 (option unit)) → _ with Lock => λ k, k tt | _ => λ _, Panic end k
  | _ => Panic end.

(** The first gets the lock and is cancelled with it; the second gets it
    then. *)
Lemma one_connects :
  rtc (pool_step lock_docs manager0) (mkPool false [])
    (mkPool true [mkCaller OpConnect connecting false; mkCaller OpConnect locked true]).
Proof.
  eapply rtc_l; [apply (pool_start _ _ OpConnect)|].
  eapply rtc_l; [apply (pool_start _ _ OpConnect)|].
  eapply rtc_l; [apply (pool_start _ _ OpConnect)|].
  eapply rtc_l; [exact (pool_call lock_docs manager0 OpConnect false unit Lock (λ _, locked) tt
    false true [] [mkCaller OpConnect connecting false; mkCaller OpConnect connecting false]
    (conj eq_refl eq_refl))|].
  eapply rtc_l; [exact (pool_cancel lock_docs manager0 (mkCaller OpConnect locked true) true false
    [] [mkCaller OpConnect connecting false; mkCaller OpConnect connecting false] eq_refl)|].
  eapply rtc_l; [exact (pool_call lock_docs manager0 OpConnect false unit Lock (λ _, locked) tt
    false true [mkCaller OpConnect connecting false] [] (conj eq_refl eq_refl))|].
  apply rtc_refl.
Qed.

Lemma sentinel_client_exclusive_witness :
  ∃ s, rtc (pool_step lock_docs manager0) (mkPool false []) s ∧
    pool_shared s = true ∧ length (callers s) = 2%nat ∧
    (∀ t, t ∈ callers s → at_client (rest t) = true → guard t = true) ∧
    ∃ t, t ∈ callers s ∧ guard t = true ∧ can_go (rest t) = true.
Proof.
  eexists. split; [exact one_connects|].
  destruct (sentinel_client_exclusive lock_docs id manager0 false _ eq_refl one_connects)
    as (H1&_&_&H2).
  split_and!; [done|done|exact H1|by apply H2].
Defined.
