(* ===== verification/RedisConfig.v ===== *)
(** * Shared data of the redis backend ([backends/redis/mod.rs])

    Configuration, producer and consumer records, and the calls that every
    operation makes through the connection pool. *)
From S2P Require Import Prelude RustStd Effects Omniqueue RedisCodec RedisApi.
Open Scope N_scope.

Record SentinelConfig := mkSentinelConfig {
  service_name : string;
  redis_tls_mode_secure : bool;
  redis_db : option Z;
  redis_username : option string;
  redis_password : option string;
  redis_use_resp3 : bool;
}.

Record DeadLetterQueueConfig := mkDlq { dlq_queue_key : key; max_receives : N }.

Definition max_retries_reached (c : DeadLetterQueueConfig) (num_receives : N) : bool :=
  max_receives c <=? num_receives.

Record RedisConfig := mkRedisConfig {
  dsn : string;
  max_connections : N;
  reinsert_on_nack : bool;
  cfg_queue_key : key;
  cfg_delayed_queue_key : key;
  cfg_delayed_lock_key : key;
  cfg_consumer_group : string;
  cfg_consumer_name : string;
  cfg_payload_key : string;
  cfg_ack_deadline_ms : Z;
  cfg_dlq_config : option DeadLetterQueueConfig;
  sentinel_config : option SentinelConfig;
}.

(** The pool and the handles of the background tasks are not data. *)
Record RedisProducer := mkRedisProducer {
  rp_queue_key : key;
  rp_delayed_queue_key : key;
  rp_payload_key : string;
  rp_use_redis_streams : bool;
  rp_dlq_config : option DeadLetterQueueConfig;
}.

Record RedisConsumer := mkRedisConsumer {
  rc_queue_key : key;
  rc_processing_queue_key : key;
  rc_consumer_group : string;
  rc_consumer_name : string;
  rc_payload_key : string;
  rc_use_redis_streams : bool;
  rc_dlq_config : option DeadLetterQueueConfig;
}.

(** [cmd.await.map_err(QueueError::generic)] *)
Definition command {Y} (e : redisE (result Y StdError)) : prog redisE (Result Y) :=
  let* r := call e in Ret (map_err QueueError.generic r).

(** [pool.get().await.map_err(QueueError::generic)] *)
Definition pool_get : prog redisE (Result unit) := command PoolGet.

(** [pipe.query_async(conn).await.map_err(QueueError::generic)].  A pipeline
    that is not atomic is a call for each of its commands: they reach the server
    one after the other, those of other connections may come between them, and
    an error ends it after some of them. *)
Definition pipeline (cs : list pipe_cmd) : prog redisE (Result unit) :=
  for_each (λ c, command (PipeCmd c)) cs.

Definition delayed_key_id : prog redisE bytes := call KsuidNew.

(** [internal_to_list_payload], drawing its identifier. *)
Definition to_list_payload (i : InternalPayload) : prog redisE bytes :=
  let* id := delayed_key_id in Ret (internal_to_list_payload id i).

(** ** Lemmas *)

Lemma base62_wf_id i : is_base62 i → wf_id i.
Proof.
  intros Hi. unfold wf_id, no_byte. split_and!.
  - intros Hin. unfold is_base62 in Hi. rewrite Forall_forall in Hi.
    apply Hi in Hin. by vm_compute in Hin.
  - intros Hin. unfold is_base62 in Hi. rewrite Forall_forall in Hi.
    apply Hi in Hin. by vm_compute in Hin.
  - apply utf8_valid_ascii. eapply Forall_impl; [exact Hi|]. intros b. simpl.
    unfold is_base62_byte, in_range. rewrite !orb_true_iff, !andb_true_iff, !N.leb_le. lia.
Qed.

Lemma list_at_set_list k l d : list_at k (set_list k l d) = l.
Proof.
  unfold list_at, set_list. simpl. destruct l; [by rewrite lookup_delete_eq|].
  by rewrite lookup_insert_eq.
Qed.

Lemma list_at_set_list_ne k k' l d : k ≠ k' → list_at k' (set_list k l d) = list_at k' d.
Proof.
  intros Hne. unfold list_at, set_list. simpl. f_equal.
  destruct l; [by rewrite lookup_delete_ne|by rewrite lookup_insert_ne].
Qed.

Lemma list_at_set_zset k k' z d : list_at k' (set_zset k z d) = list_at k' d.
Proof. done. Qed.
Lemma list_at_set_stream k k' s d : list_at k' (set_stream k s d) = list_at k' d.
Proof. done. Qed.
Lemma list_at_set_locks k l d : list_at k (set_locks l d) = list_at k d.
Proof. done. Qed.
Lemma list_at_set_issued k i d : list_at k (set_issued i d) = list_at k d.
Proof. done. Qed.
Lemma zset_at_set_zset k z d : zset_at k (set_zset k z d) = z.
Proof. unfold zset_at, set_zset. simpl. by rewrite lookup_insert_eq. Qed.
Lemma zset_at_set_list k k' l d : zset_at k' (set_list k l d) = zset_at k' d.
Proof. done. Qed.
Lemma stream_at_set_stream k s d : stream_at k (set_stream k s d) = s.
Proof. unfold stream_at, set_stream. simpl. by rewrite lookup_insert_eq. Qed.
Lemma stream_at_set_stream_ne k k' s d :
  k ≠ k' → stream_at k' (set_stream k s d) = stream_at k' d.
Proof. intros. unfold stream_at, set_stream. simpl. by rewrite lookup_insert_ne. Qed.

#[export] Hint Rewrite list_at_set_list list_at_set_zset list_at_set_stream list_at_set_locks
  list_at_set_issued zset_at_set_zset zset_at_set_list stream_at_set_stream : omni.

Section commands.
Context (faulty : bool).

(** A client call: success with its effect, or, from a faulty server,
    failure, with the effect or without. *)
Lemma wp_client {Y} (e : redisE (result Y StdError)) (eff : db → db → Y → Prop) d
    (Q : db → result Y StdError → Prop) :
  redis_documented faulty _ e = fallible faulty eff → redis_ready _ e d →
  (∃ d' y, eff d d' y) →
  (∀ d' y, eff d d' y → Q d' (Ok y)) →
  (∀ err, faulty = true → Q d (Err err)) →
  (∀ d' y err, faulty = true → eff d d' y → Q d' (Err err)) →
  wp (redis_doc faulty) (call e) d Q.
Proof.
  intros Hdoc Hready (d1&y1&Heff) Hok Hlost Happlied.
  apply wp_call. split; [done|]. intros d' r. simpl. rewrite Hdoc.
  destruct r as [y|err]; simpl; [auto|]. intros [[? [->|[y Hy]]]|[_ Hn]]; eauto.
  destruct (Hn _ _ Heff).
Qed.

(** The same behind [map_err(QueueError::generic)]. *)
Lemma wp_command {Y} (e : redisE (result Y StdError)) (eff : db → db → Y → Prop) d
    (Q : db → Result Y → Prop) :
  redis_documented faulty _ e = fallible faulty eff → redis_ready _ e d →
  (∃ d' y, eff d d' y) →
  (∀ d' y, eff d d' y → Q d' (Ok y)) →
  (∀ err, faulty = true → Q d (Err (Generic err))) →
  (∀ d' y err, faulty = true → eff d d' y → Q d' (Err (Generic err))) →
  wp (redis_doc faulty) (command e) d Q.
Proof. intros. unfold command. by apply wp_bind, wp_client with eff; simpl; eauto. Qed.

(** The same for a command whose effect is a function of the state. *)
Lemma wp_becomes (e : redisE (result unit StdError)) f d (Q : db → Result unit → Prop) :
  redis_documented faulty _ e = fallible faulty (becomes f) → redis_ready _ e d →
  Q (f d) (Ok tt) →
  (∀ err, faulty = true → Q d (Err (Generic err))) →
  (∀ err, faulty = true → Q (f d) (Err (Generic err))) →
  wp (redis_doc faulty) (command e) d Q.
Proof.
  intros Hdoc Hready Hok Hlost Happlied. eapply wp_command; [done|done|..].
  - by exists (f d), tt.
  - by intros d' [] ->.
  - done.
  - intros d' [] err ? ->. auto.
Qed.

Lemma wp_pipeline cs d (Q : db → Result unit → Prop) :
  (∀ d', pipe_steps cs d d' → Q d' (Ok tt)) →
  (∀ d' err n, faulty = true → pipe_steps (take n cs) d d' → Q d' (Err err)) →
  wp (redis_doc faulty) (pipeline cs) d Q.
Proof.
  unfold pipeline. revert d Q. induction cs as [|c cs IH]; intros d Q Hok Herr; [by apply Hok|].
  cbn [for_each]. apply wp_bind_ok. eapply wp_command; [done|done|..]; cbv beta.
  - exists (pipe_exec d c), tt. apply pipe_exec_step.
  - intros d1 [] H1. apply IH.
    + intros d' Hs. apply Hok. simpl. eauto.
    + intros d' err n Hf Hs. apply (Herr _ _ (Datatypes.S n)); [done|]. simpl. eauto.
  - intros err Hf. by apply (Herr _ _ O).
  - intros d1 [] err Hf H1. apply (Herr _ _ 1%nat); [done|]. simpl. eauto.
Qed.

Lemma wp_pool_get d (Q : db → Result unit → Prop) :
  Q d (Ok tt) → (∀ err, faulty = true → Q d (Err (Generic err))) →
  wp (redis_doc faulty) pool_get d Q.
Proof. intros. by eapply wp_becomes. Qed.

Lemma wp_to_list_payload i d (Q : db → bytes → Prop) :
  (∀ id, is_base62 id → id ∉ issued d →
     Q (set_issued ({[id]} ∪ issued d) d) (internal_to_list_payload id i)) →
  wp (redis_doc faulty) (to_list_payload i) d Q.
Proof.
  intros HQ. unfold to_list_payload, delayed_key_id. apply wp_bind, wp_call.
  split; [done|]. intros d' id (Hid&Hnew&->). by apply HQ.
Qed.
End commands.
