(* ===== verification/RedisSpec.v ===== *)
(** * What a redis queue promises

    The abstract queue that both implementations of the main queue, the
    lists of [fallback.rs] and the stream of [streams.rs], are proved to
    refine: messages waiting, messages received and not settled, and messages
    given up. *)
From S2P Require Import Prelude RustStd Effects Omniqueue Queue RedisCodec RedisApi RedisConfig.
Open Scope N_scope.

(** Whether a message received [n] times goes to the dead-letter queue. *)
Definition exhausted (c : option DeadLetterQueueConfig) (n : N) : option key :=
  match c with
  | Some c => if max_retries_reached c n then Some (dlq_queue_key c) else None
  | None => None
  end.

Definition dlq_at (c : option DeadLetterQueueConfig) (d : db) : list bytes :=
  match c with Some c => list_at (dlq_queue_key c) d | None => [] end.

(** Messages with their number of receives so far: those to be received (the
    last one first), those nacked and waiting for their deadline, and the
    payloads given up. *)
Record mqueue := mkMqueue {
  waiting : list (bytes * N);
  pending : list (bytes * N);
  dead : list bytes;
}.

(** A client that sends, or receives one message and settles it. *)
Inductive client_op := ClientSend (v : bytes) | ClientReceive (verdict : settle_op).

Definition settle_abs (c : option DeadLetterQueueConfig) (verdict : settle_op) (p : bytes) (n : N)
    (m : mqueue) : mqueue :=
  match verdict with
  | OpAck => m
  | OpNack =>
      match exhausted c (n + 1) with
      | Some _ => mkMqueue (waiting m) (pending m) (dead m ++ [p])
      | None => mkMqueue (waiting m) ((p, n) :: pending m) (dead m)
      end
  end.

Fixpoint mqueue_run (c : option DeadLetterQueueConfig) (ops : list client_op) (m : mqueue)
    : option (list bytes * mqueue) :=
  match ops with
  | [] => Some ([], m)
  | ClientSend v :: ops' =>
      mqueue_run c ops' (mkMqueue ((v, 0) :: waiting m) (pending m) (dead m))
  | ClientReceive verdict :: ops' =>
      match last (waiting m) with
      | None => None
      | Some (p, n) =>
          match mqueue_run c ops' (settle_abs c verdict p n
                  (mkMqueue (removelast (waiting m)) (pending m) (dead m))) with
          | Some (outs, m') => Some (p :: outs, m')
          | None => None
          end
      end
  end.

(** What becomes of messages that have not been settled when their deadline
    has passed: those that go back to the queue, with another receive, and the
    payloads that are given up. *)
Definition returned (c : option DeadLetterQueueConfig) (ms : list (bytes * N)) : list (bytes * N) :=
  omap (λ m, match exhausted c (m.2 + 1) with None => Some (m.1, m.2 + 1) | Some _ => None end) ms.
Definition discarded (c : option DeadLetterQueueConfig) (ms : list (bytes * N)) : list bytes :=
  omap (λ m, match exhausted c (m.2 + 1) with None => None | Some _ => Some m.1 end) ms.

Definition delivery_settle (op : settle_op) (d : Delivery redisE) : prog redisE (Result unit) :=
  let* r := match op with OpAck => Delivery.ack d | OpNack => Delivery.nack d end in
  Ret (map_err fst r).

(** The same client against an implementation. *)
Fixpoint client (send : bytes → prog redisE (Result unit)) (recv : prog redisE (Result (Delivery redisE)))
    (ops : list client_op) : prog redisE (Result (list (option bytes))) :=
  match ops with
  | [] => Ret (Ok [])
  | ClientSend v :: ops' => let? _ := send v in client send recv ops'
  | ClientReceive verdict :: ops' =>
      let? d := recv in
      let? _ := delivery_settle verdict d in
      let? outs := client send recv ops' in
      Ret (Ok (Delivery.borrow_payload d :: outs))
  end.

Lemma exhausted_Some c n dlq :
  exhausted c n = Some dlq → ∃ c', c = Some c' ∧ dlq = dlq_queue_key c'.
Proof. unfold exhausted. destruct c as [c|]; [|done]. case_match; naive_solver. Qed.

(** A message that goes back has been received as often as it may count. *)
Lemma returned_small c ms :
  Forall (λ x, x.2 + 1 < USIZE_MAX) ms → Forall (λ x, x.2 < USIZE_MAX) (returned c ms).
Proof.
  unfold returned. induction 1 as [|[p n] l Hn _ IH]; [done|]. csimpl.
  destruct (exhausted c (n + 1)); [done|]. by constructor.
Qed.

(** ** Implementing the queue *)

(** The interface between the main queue and its two implementations, on a
    server that answers: [rep d m] says that the database [d] represents the
    abstract queue [m]; sending and receiving do what they do there, and the
    delivery that is received settles as there. *)
Class RedisQueue (c : option DeadLetterQueueConfig) (send : bytes → prog redisE (Result unit))
    (recv : prog redisE (Result (Delivery redisE))) (rep : db → mqueue → Prop) : Prop := {
  rq_send v d m :
    rep d m →
    wp (redis_doc false) (send v) d (λ d' r,
      r = Ok tt ∧ rep d' (mkMqueue ((v, 0) :: waiting m) (pending m) (dead m)));
  rq_receive w p n pend dd d :
    rep d (mkMqueue (w ++ [(p, n)]) pend dd) →
    wp (redis_doc false) recv d (λ d' r, ∃ del, r = Ok del ∧
      Delivery.borrow_payload del = Some p ∧
      ∀ verdict, wp (redis_doc false) (delivery_settle verdict del) d' (λ d'' r',
        r' = Ok tt ∧ rep d'' (settle_abs c verdict p n (mkMqueue w pend dd))));
}.

Lemma client_refines `{RedisQueue c send recv rep} ops d m outs m' :
  rep d m → mqueue_run c ops m = Some (outs, m') →
  wp (redis_doc false) (client send recv ops) d (λ d' r, r = Ok (Some <$> outs) ∧ rep d' m').
Proof.
  revert d m outs. induction ops as [|[v|verdict] ops IH]; intros d m outs Hrep Hrun;
    cbn [client mqueue_run] in *.
  - by simplify_eq/=.
  - apply wp_bind_ok. eapply wp_mono; [by apply rq_send|].
    intros d' r [-> Hd']. by eapply IH.
  - destruct (last (waiting m)) as [[v n]|] eqn:Hlast; [|done].
    destruct (mqueue_run c ops _) as [[outs1 m1]|] eqn:Hrun1; [|done]. injection Hrun as <- <-.
    apply last_Some in Hlast as [w Hw]. rewrite Hw, removelast_last in Hrun1.
    destruct m as [wt pe dd]. simpl in *. subst wt.
    apply wp_bind_ok. eapply wp_mono; [by apply rq_receive|].
    intros d1 r (del&->&Hp&Hsettle). apply wp_bind_ok. eapply wp_mono; [apply Hsettle|].
    intros d2 r [-> Hd2]. apply wp_bind_ok. eapply wp_mono; [by eapply IH|].
    intros d3 r [-> Hd3]. simpl. by rewrite Hp.
Qed.
