(* ===== verification/RedisFallback.v ===== *)
(** * The list-based redis queue ([backends/redis/fallback.rs])

    Main, processing and dead-letter lists: messages enter the main list on
    the left, are moved from its right end to the processing list when
    received, and leave the processing list when acked, dead-lettered or
    re-enqueued. *)
From S2P Require Import Prelude RustStd Effects Omniqueue Queue RedisCodec RedisApi RedisConfig.
From S2P Require Import RedisSpec.
Open Scope N_scope.

Record RedisFallbackAcker := mkFallbackAcker {
  processing_queue_key : key;
  old_payload : bytes;
  already_acked_or_nacked : bool;
  acker_num_receives : N;
  acker_dlq_config : option DeadLetterQueueConfig;
}.

(** [Box<dyn Error>] made by [?] from a [QueueError] or from a client error. *)
Inductive BoxedError := FromQueue (e : QueueError) | FromClient (e : StdError).

Definition set_acked (a : RedisFallbackAcker) : RedisFallbackAcker :=
  mkFallbackAcker (processing_queue_key a) (old_payload a) true (acker_num_receives a)
    (acker_dlq_config a).

Section fallback.
(** Whether the build has overflow checks. *)
Variable oc : bool.

Definition send_raw (producer : RedisProducer) (payload : bytes) : prog redisE (Result unit) :=
  let? _ := pool_get in
  let* m := to_list_payload (InternalPayload.new payload) in
  command (Lpush (rp_queue_key producer) [m]).

Definition send_to_dlq (dlq_config : DeadLetterQueueConfig) (payload : bytes)
    : prog redisE (Result unit) :=
  let? _ := pool_get in
  command (Rpush (dlq_queue_key dlq_config) payload).

Definition ack (a : RedisFallbackAcker) : prog redisE (RedisFallbackAcker * Result unit) :=
  if already_acked_or_nacked a then Ret (a, Err CannotAckOrNackTwice)
  else
    let* r := (let? _ := pool_get in
               command (Lrem (processing_queue_key a) 1 (old_payload a))) in
    match r with
    | Ok _ => Ret (set_acked a, Ok tt)
    | Err e => Ret (a, Err e)
    end.

Definition nack_end (a : RedisFallbackAcker) : prog redisE (RedisFallbackAcker * Result unit) :=
  if already_acked_or_nacked a then Ret (a, Err CannotAckOrNackTwice)
  else Ret (set_acked a, Ok tt).

Definition nack (a : RedisFallbackAcker) : prog redisE (RedisFallbackAcker * Result unit) :=
  match acker_dlq_config a with
  | Some dlq_config =>
      if max_retries_reached dlq_config (acker_num_receives a) then
        let* parsed := lift (internal_from_list oc (old_payload a)) in
        let payload := match parsed with Ok i => payload i | Err _ => old_payload a end in
        let* r := send_to_dlq dlq_config payload in
        match r with
        | Ok _ => ack a
        | Err e => Ret (a, Err e)
        end
      else nack_end a
  | None => nack_end a
  end.

Definition set_ack_deadline (a : RedisFallbackAcker) (_ : Duration)
    : prog redisE (RedisFallbackAcker * Result unit) :=
  Ret (a, Err (Unsupported "set_ack_deadline is not yet supported by redis fallback backend")).

Definition fallback_acker : Acker redisE RedisFallbackAcker :=
  {| Queue.ack := ack; Queue.nack := nack; Queue.set_ack_deadline := set_ack_deadline |}.

#[local] Existing Instance fallback_acker.

Definition internal_to_delivery (i : InternalPayloadOwned) (consumer : RedisConsumer)
    (old_payload : bytes) : Delivery redisE :=
  Delivery.new (payload i)
    (mkFallbackAcker (rc_processing_queue_key consumer) old_payload false (num_receives i)
      (rc_dlq_config consumer)).

Definition receive_with_timeout (consumer : RedisConsumer) (timeout : Duration)
    : prog redisE (Result (option (Delivery redisE))) :=
  let? _ := pool_get in
  let? o := command (Brpoplpush (rc_queue_key consumer) (rc_processing_queue_key consumer)
                       timeout) in
  match o with
  | Some old_payload =>
      let? i := lift (internal_from_list oc old_payload) in
      Ret (Ok (Some (internal_to_delivery (into_owned i) consumer old_payload)))
  | None => Ret (Ok None)
  end.

Definition receive (consumer : RedisConsumer) : prog redisE (Result (Delivery redisE)) :=
  let? res := receive_with_timeout consumer Duration_ZERO in
  Ret (ok_or res (Generic (boxed "No data"))).

Definition receive_all (consumer : RedisConsumer) (deadline : Duration) (_max_messages : N)
    : prog redisE (Result (list (Delivery redisE))) :=
  let? delivery := receive_with_timeout consumer deadline in
  Ret (Ok (option_list delivery)).

(** The [map] over the keys draws one identifier per key. *)
Fixpoint to_list_payloads (ps : list bytes) : prog redisE (list bytes) :=
  match ps with
  | [] => Ret []
  | p :: ps' =>
      let* m := to_list_payload (InternalPayload.new p) in
      let* ms := to_list_payloads ps' in Ret (m :: ms)
  end.

Definition add_to_main_queue (keys : list InternalPayload) (main_queue_name : key)
    : prog redisE (Result unit) :=
  let* new_keys := to_list_payloads (payload <$> keys) in
  command (Lpush main_queue_name new_keys).

(** [?] in a function that returns a boxed error. *)
Definition try_client {Y} (e : redisE (result Y StdError)) : prog redisE (result Y BoxedError) :=
  let* r := call e in Ret (map_err FromClient r).
Definition try_queue {Y} (p : prog redisE (Result Y)) : prog redisE (result Y BoxedError) :=
  let* r := p in Ret (map_err FromQueue r).

Definition BATCH_SIZE : Z := 50.

(** The body of [for key in keys]. *)
Definition reenqueue_key (queue_key processing_queue_key : key) (validity_limit : bytes)
    (dlq_config : option DeadLetterQueueConfig) (k : bytes)
    : prog redisE (result unit BoxedError) :=
  if bytes_le k validity_limit then
    let? internal := try_queue (lift (internal_from_list oc k)) in
    let? _ :=
      match dlq_config with
      | Some c =>
          if max_retries_reached c (num_receives internal)
          then try_queue (send_to_dlq c (payload internal))
          else let* m := to_list_payload internal in try_client (Rpush queue_key m)
      | None => let* m := to_list_payload internal in try_client (Rpush queue_key m)
      end in
    try_client (Lrem processing_queue_key 1 k)
  else Ret (Ok tt).

Definition reenqueue_timed_out_messages (queue_key processing_queue_key : key)
    (ack_deadline : Duration) (dlq_config : option DeadLetterQueueConfig)
    : prog redisE (result unit BoxedError) :=
  let? _ := try_client PoolGet in
  let? keys := try_client (Lrange processing_queue_key (-1) (-1)) in
  let* o := call (KsuidMsBefore ack_deadline) in
  let* validity_limit := lift o in
  match keys with
  | k :: _ =>
      if bytes_le k validity_limit then
        let? keys := try_client (Lrange processing_queue_key (- BATCH_SIZE) (-1)) in
        for_each (reenqueue_key queue_key processing_queue_key validity_limit dlq_config) keys
      else let* _ := call (Sleep (from_millis 500)) in Ret (Ok tt)
  | [] => let* _ := call (Sleep (from_millis 500)) in Ret (Ok tt)
  end.

(** [Duration::from_millis(ack_deadline_ms as u64)]: a negative deadline
    wraps around. *)
Definition ack_deadline_of (ack_deadline_ms : Z) : Duration :=
  from_millis (Z.to_N (ack_deadline_ms mod 2 ^ 64)).

(** The endless loop, cut after [fuel] rounds. *)
Definition background_task_processing (fuel : nat) (queue_key processing_queue_key : key)
    (ack_deadline_ms : Z) (dlq_config : option DeadLetterQueueConfig)
    : prog redisE (Result unit) :=
  let ack_deadline := ack_deadline_of ack_deadline_ms in
  loop fuel (λ _ : unit,
    let* r := reenqueue_timed_out_messages queue_key processing_queue_key ack_deadline
                dlq_config in
    match r with
    | Err _ => let* _ := call (Sleep (from_millis 500)) in Ret (inl tt)
    | Ok _ => Ret (inl tt)
    end) tt.
End fallback.

(** ** What the lists hold *)

(** [raw] is an entry for the message [m.1], received [m.2] times so far. *)
Definition holds (raw : bytes) (m : bytes * N) : Prop := entry raw m.2 m.1.

(** What becomes of a state when a message is sent, taken, or dropped. *)
Definition sent (q : key) (v : bytes) (d d' : db) : Prop :=
  ∃ id, is_base62 id ∧ (id ∉ issued d) ∧
    d' = set_list q (internal_to_list_payload id (mkInternalPayload v 0) :: list_at q d)
           (set_issued ({[id]} ∪ issued d) d).

Definition claimed (q pq : key) (rest : list bytes) (raw : bytes) (d : db) : db :=
  let d1 := set_list q rest d in set_list pq (raw :: list_at pq d1) d1.

Definition dropped (pq : key) (raw : bytes) (d : db) : db :=
  set_list pq (remove_first raw (list_at pq d)) d.

Definition dead_lettered (dlq : key) (v : bytes) (d : db) : db :=
  set_list dlq (list_at dlq d ++ [v]) d.

(** A timed-out message goes to the dead-letter queue or back to the end of
    the main list that is read next. *)
Definition requeued (q : key) (c : option DeadLetterQueueConfig) (i : InternalPayload)
    (d d' : db) : Prop :=
  match exhausted c (num_receives i) with
  | Some dlq => d' = dead_lettered dlq (payload i) d
  | None => ∃ id, is_base62 id ∧ (id ∉ issued d) ∧
      d' = set_list q (list_at q d ++ [internal_to_list_payload id i])
             (set_issued ({[id]} ∪ issued d) d)
  end.

(** The payload of an entry; an entry that does not parse is its own. *)
Definition content (raw : bytes) : bytes :=
  match internal_from_list false raw with Done (Ok i) => payload i | _ => raw end.

(** Every message that the queue has, wherever it is. *)
Definition messages (q pq : key) (c : option DeadLetterQueueConfig) (d : db) : list bytes :=
  (content <$> list_at q d) ++ (content <$> list_at pq d) ++ dlq_at c d.

Definition distinct_keys (q pq : key) (c : option DeadLetterQueueConfig) : Prop :=
  q ≠ pq ∧ match c with Some c => dlq_queue_key c ≠ q ∧ dlq_queue_key c ≠ pq | None => True end.

(** ** Lemmas *)

Lemma holds_written id p n :
  is_base62 id → is_usize n → holds (internal_to_list_payload id (mkInternalPayload p n)) (p, n).
Proof.
  intros Hid Hn. unfold holds, internal_to_list_payload. simpl.
  constructor; [by apply base62_wf_id|]. by apply parse_usize_to_string.
Qed.

Lemma fallback_holds_parse oc raw p n :
  holds raw (p, n) → n < USIZE_MAX →
  internal_from_list oc raw = Done (Ok (mkInternalPayload p (n + 1))).
Proof.
  intros H Hn. apply entry_parse with (oc := oc) in H. simpl in H.
  by rewrite H, usize_add_small by lia.
Qed.

Lemma entry_usize raw n p : entry raw n p → is_usize n.
Proof. intros []; [by eapply parse_usize_bound|done]. Qed.

Lemma content_holds raw p n : holds raw (p, n) → content raw = p.
Proof.
  intros H. unfold content. apply entry_parse with (oc := false) in H. simpl in H.
  rewrite H. unfold usize_add. by destruct (_ <=? _).
Qed.

(** Parsing does not panic, then it finds the content or fails. *)
Lemma parse_content oc raw o :
  internal_from_list oc raw = Done o →
  match o with
  | Ok i => payload i = content raw ∧ is_usize (num_receives i)
  | Err _ => content raw = raw
  end.
Proof.
  intros Ho. unfold content.
  destruct (from_list_cases oc raw) as [(n&p&He)|[Hl|(e&He&_)]].
  - rewrite (entry_parse false _ _ _ He). rewrite (entry_parse oc _ _ _ He) in Ho.
    destruct (usize_add oc n 1) as [m|] eqn:Hm; [|done]. injection Ho as <-.
    apply usize_add_bound in Hm. split; [|done]. unfold usize_add.
    by destruct (n + 1 <=? USIZE_MAX).
  - rewrite (legacy_hash_parse oc) in Ho by done. done.
  - rewrite He in Ho. injection Ho as <-.
    destruct (from_list_cases false raw) as [(n&p&He')|[Hl|(e'&He'&_)]].
    + rewrite (entry_parse oc _ _ _ He') in He. by destruct (usize_add oc n 1).
    + by rewrite (legacy_hash_parse oc) in He.
    + by rewrite He'.
Qed.

Lemma list_at_lists k d d' : lists d' = lists d → list_at k d' = list_at k d.
Proof. unfold list_at. by intros ->. Qed.

Lemma messages_lists q pq c d d' : lists d' = lists d → messages q pq c d' = messages q pq c d.
Proof.
  intros H. unfold messages, dlq_at. rewrite !(list_at_lists _ d d') by done.
  destruct c; [|done]. by rewrite (list_at_lists _ d d').
Qed.

Lemma content_written id i :
  is_base62 id → is_usize (num_receives i) → content (internal_to_list_payload id i) = payload i.
Proof. intros. destruct i as [p n]. by eapply content_holds, holds_written. Qed.

Lemma exhausted_dlq_at q pq c n dlq :
  distinct_keys q pq c → exhausted c n = Some dlq →
  dlq ≠ q ∧ dlq ≠ pq ∧ ∀ d, dlq_at c d = list_at dlq d.
Proof. intros [_ Hc] (c'&->&->)%exhausted_Some. simpl in *. by destruct Hc. Qed.

Lemma dlq_at_set_list q pq c l d :
  distinct_keys q pq c → dlq_at c (set_list q l d) = dlq_at c d ∧
  dlq_at c (set_list pq l d) = dlq_at c d.
Proof.
  intros [_ Hc]. destruct c as [c|]; [|done]. destruct Hc. simpl.
  by rewrite !list_at_set_list_ne by done.
Qed.

(** Requeueing adds a message; dropping an entry removes one. *)
Lemma requeued_messages q pq c i k d d' :
  distinct_keys q pq c → payload i = content k → is_usize (num_receives i) →
  requeued q c i d d' →
  messages q pq c d' ≡ₚ content k :: messages q pq c d ∧ list_at pq d' = list_at pq d.
Proof.
  intros Hk Hp Hn. unfold requeued. destruct (exhausted c (num_receives i)) as [dlq|] eqn:Hx.
  - intros ->. destruct (exhausted_dlq_at _ _ _ _ _ Hk Hx) as (Hq&Hpq&Hd).
    unfold messages, dead_lettered. rewrite !Hd, list_at_set_list, !list_at_set_list_ne by done.
    split; [|done]. rewrite Hp, !app_assoc. symmetry. apply Permutation_cons_append.
  - intros (id&Hid&Hnew&->). destruct Hk as [Hqp Hc].
    unfold messages. rewrite (proj1 (dlq_at_set_list q pq c _ _ (conj Hqp Hc))).
    rewrite list_at_set_list, list_at_set_list_ne, !list_at_set_issued by done.
    split; [|done]. rewrite fmap_app. simpl. rewrite content_written, Hp by done.
    rewrite <-app_assoc. simpl. rewrite <-Permutation_middle. by destruct c.
Qed.

Lemma dropped_messages q pq c k d :
  distinct_keys q pq c → k ∈ list_at pq d →
  messages q pq c d ≡ₚ content k :: messages q pq c (dropped pq k d).
Proof.
  intros [Hqp Hc] Hin. unfold messages, dropped.
  rewrite (proj2 (dlq_at_set_list q pq c _ _ (conj Hqp Hc))).
  rewrite list_at_set_list, list_at_set_list_ne by done.
  rewrite (remove_first_perm k (list_at pq d) Hin) at 1. simpl. by rewrite <-Permutation_middle.
Qed.

Lemma requeued_dropped_messages q pq c i k d d' :
  distinct_keys q pq c → payload i = content k → is_usize (num_receives i) →
  k ∈ list_at pq d → requeued q c i d d' →
  messages q pq c d ≡ₚ messages q pq c (dropped pq k d').
Proof.
  intros Hk Hp Hn Hin Hr.
  destruct (requeued_messages _ _ _ _ _ _ _ Hk Hp Hn Hr) as [Hm Hpq].
  assert (k ∈ list_at pq d') as Hin' by (by rewrite Hpq).
  pose proof (dropped_messages q pq c k d' Hk Hin') as Hd. rewrite Hd in Hm.
  symmetry. by eapply Permutation_cons_inv.
Qed.

Lemma lrange_sublist a b l : lrange a b l `sublist_of` l.
Proof.
  unfold lrange. case_match; [apply sublist_nil_l|].
  etrans; [apply sublist_take|apply sublist_drop].
Qed.

(** The entries that one round of the background task deals with: those
    within the last 50 that are not above the limit [L], when the very last
    one is not. *)
Definition timed_out (L : bytes) (l : list bytes) : list bytes :=
  match lrange (-1) (-1) l with
  | k :: _ =>
      if bytes_le k L then filter (λ k, bytes_le k L = true) (lrange (- BATCH_SIZE) (-1) l)
      else []
  | [] => []
  end.

(** ** One operation at a time *)

Section specs.
Context (oc faulty : bool) {S : Type} (h : handler redisE S) (view : S → db)
  `{!Lawful (redis_doc faulty) h view}.

Abbreviation wpr := (wp (redis_doc faulty)).

Lemma wp_send_raw p v d (Q : db → Result unit → Prop) :
  (∀ d', sent (rp_queue_key p) v d d' → Q d' (Ok tt)) →
  (∀ d' err, faulty = true → list_at (rp_queue_key p) d' = list_at (rp_queue_key p) d →
     Q d' (Err (Generic err))) →
  (∀ d' err, faulty = true → sent (rp_queue_key p) v d d' → Q d' (Err (Generic err))) →
  wpr (send_raw p v) d Q.
Proof.
  intros Hok Hlost Happlied. unfold send_raw.
  apply wp_bind_ok, wp_pool_get; [|by eauto].
  apply wp_bind, wp_to_list_payload. intros id Hid Hnew.
  eapply wp_becomes; [done|done|..].
  - apply Hok. by exists id.
  - intros err Hf. by apply Hlost.
  - intros err Hf. apply Happlied; [done|]. by exists id.
Qed.

(** Sending puts one entry with a fresh identifier and no receives on the
    left end of the main list and touches nothing else; when it fails the
    entry is either not there or, if only the reply was lost, there once. *)
Theorem fallback_send p v s :
  returns h view (send_raw p v) s (λ d r,
    match r with
    | Ok _ => sent (rp_queue_key p) v (view s) d
    | Err e => faulty = true ∧ (∃ err, e = Generic err) ∧
        (list_at (rp_queue_key p) d = list_at (rp_queue_key p) (view s) ∨
         sent (rp_queue_key p) v (view s) d)
    end).
Proof. start_wp. intros d. apply wp_send_raw; eauto 10. Qed.

(** What a receive leaves behind. *)
Lemma wp_receive c rest raw p n d (Q : db → Result (Delivery redisE) → Prop) :
  list_at (rc_queue_key c) d = rest ++ [raw] → holds raw (p, n) → n < USIZE_MAX →
  let d' := claimed (rc_queue_key c) (rc_processing_queue_key c) rest raw d in
  Q d' (Ok (internal_to_delivery oc (mkInternalPayload p (n + 1)) c raw)) →
  (∀ err, faulty = true → Q d (Err (Generic err))) →
  (∀ err, faulty = true → Q d' (Err (Generic err))) →
  wpr (receive oc c) d Q.
Proof.
  intros Hl Hraw Hn d' Hok Hlost Happlied.
  unfold receive, receive_with_timeout. apply wp_bind_ok, wp_bind_ok, wp_pool_get; [|by eauto].
  apply wp_bind_ok. eapply (wp_command _ (Brpoplpush _ _ _)); [done|right|..]; cbv beta.
  - rewrite Hl. by destruct rest.
  - rewrite Hl, last_snoc. eauto.
  - rewrite Hl, last_snoc, removelast_last. intros d1 y [-> ->].
    by rewrite (fallback_holds_parse oc _ _ _ Hraw Hn).
  - eauto.
  - rewrite Hl, last_snoc, removelast_last. intros d1 y err Hf [-> ->]. by apply Happlied.
Qed.

(** When the main list is not empty, [receive] returns its right-most
    message with its payload and one more receive, moves the entry to the
    left end of the processing list, and touches nothing else; when it
    fails, the entry is in one of the two lists. *)
Theorem fallback_receive c rest raw p n s :
  list_at (rc_queue_key c) (view s) = rest ++ [raw] → holds raw (p, n) → n < USIZE_MAX →
  returns h view (receive oc c) s (λ d r,
    let d' := claimed (rc_queue_key c) (rc_processing_queue_key c) rest raw (view s) in
    match r with
    | Ok del => d = d' ∧ del = internal_to_delivery oc (mkInternalPayload p (n + 1)) c raw
    | Err e => faulty = true ∧ (∃ err, e = Generic err) ∧ (d = view s ∨ d = d')
    end).
Proof. intros Hl Hraw Hn. start_wp. intros d Hl. eapply wp_receive; eauto 10. Qed.

Lemma wp_fallback_ack a d (Q : db → RedisFallbackAcker * Result unit → Prop) :
  (already_acked_or_nacked a = true → Q d (a, Err CannotAckOrNackTwice)) →
  (already_acked_or_nacked a = false →
   Q (dropped (processing_queue_key a) (old_payload a) d) (set_acked a, Ok tt)) →
  (∀ err, faulty = true → already_acked_or_nacked a = false → Q d (a, Err (Generic err))) →
  (∀ err, faulty = true → already_acked_or_nacked a = false →
     Q (dropped (processing_queue_key a) (old_payload a) d) (a, Err (Generic err))) →
  wpr (ack a) d Q.
Proof.
  intros Htwice Hok Hlost Happlied. unfold ack.
  destruct (already_acked_or_nacked a); [by apply Htwice|].
  apply wp_bind, wp_bind_ok, wp_pool_get; [|intros; by apply Hlost].
  eapply (wp_command _ (Lrem _ _ _)); [done|done|..]; cbv beta.
  - by exists (dropped (processing_queue_key a) (old_payload a) d), tt.
  - intros d' [] ->. by apply Hok.
  - intros. by apply Hlost.
  - intros d' [] err Hf ->. by apply Happlied.
Qed.

(** Acknowledging a delivery removes one occurrence of its entry from the
    processing list, nothing else, and settles it.  A failed attempt can be
    repeated: the acker is unchanged.  A settled acker makes no call. *)
Theorem fallback_ack a s :
  returns h view (ack a) s (λ d '(a', r),
    let d' := dropped (processing_queue_key a) (old_payload a) (view s) in
    match r with
    | Ok _ => already_acked_or_nacked a = false ∧ a' = set_acked a ∧ d = d'
    | Err e => a' = a ∧
        (already_acked_or_nacked a = true ∧ e = CannotAckOrNackTwice ∧ d = view s ∨
         faulty = true ∧ already_acked_or_nacked a = false ∧ (∃ err, e = Generic err) ∧
         (d = view s ∨ d = d'))
    end).
Proof.
  start_wp. intros d. apply wp_fallback_ack; [naive_solver..| |].
  - intros err Hf Ha. split; [done|]. right. split_and!; eauto.
  - intros err Hf Ha. split; [done|]. right. split_and!; eauto.
Qed.

Lemma wp_fallback_send_to_dlq c v d (Q : db → Result unit → Prop) :
  Q (dead_lettered (dlq_queue_key c) v d) (Ok tt) →
  (∀ err, faulty = true → Q d (Err (Generic err))) →
  (∀ err, faulty = true → Q (dead_lettered (dlq_queue_key c) v d) (Err (Generic err))) →
  wpr (send_to_dlq c v) d Q.
Proof.
  intros. unfold send_to_dlq. apply wp_bind_ok, wp_pool_get; [|by eauto].
  by eapply wp_becomes.
Qed.

Lemma nack_parse a : internal_from_list oc (old_payload a) ≠ Panics →
  ∃ o, internal_from_list oc (old_payload a) = Done o ∧
    match o with Ok i => payload i | Err _ => old_payload a end = content (old_payload a).
Proof.
  destruct (internal_from_list oc (old_payload a)) as [o|] eqn:Ho; [|done]. intros _.
  exists o. split; [done|]. apply parse_content in Ho. by destruct o as [i|]; [destruct Ho|].
Qed.

(** C26: a delivery that is nacked stays in the processing list, and no call
    is made, unless its receives have reached the maximum: then its payload
    is appended to the dead-letter queue and the entry is removed as by
    [ack].  The dead-letter queue is written before the acker looks whether
    it is settled and before the entry is removed, so that a second [nack],
    or one repeated after a failure, writes the payload once more. *)
Theorem fallback_nack a s :
  internal_from_list oc (old_payload a) ≠ Panics →
  returns h view (nack oc a) s (λ d '(a', r),
    match exhausted (acker_dlq_config a) (acker_num_receives a) with
    | None => d = view s ∧
        if already_acked_or_nacked a then a' = a ∧ r = Err CannotAckOrNackTwice
        else a' = set_acked a ∧ r = Ok tt
    | Some dlq =>
        let d1 := dead_lettered dlq (content (old_payload a)) (view s) in
        let d2 := dropped (processing_queue_key a) (old_payload a) d1 in
        match r with
        | Ok _ => already_acked_or_nacked a = false ∧ a' = set_acked a ∧ d = d2
        | Err e => a' = a ∧
            (already_acked_or_nacked a = true ∧ e = CannotAckOrNackTwice ∧ d = d1 ∨
             faulty = true ∧ (∃ err, e = Generic err) ∧ (d = view s ∨ d = d1 ∨ d = d2))
        end
    end).
Proof.
  intros Hp. destruct (nack_parse a Hp) as (o&Ho&Hc).
  start_wp. intros d. unfold nack, exhausted.
  destruct (acker_dlq_config a) as [c|]; [destruct (max_retries_reached c _)|].
  - rewrite Ho. cbn [lift bind]. rewrite Hc. apply wp_bind, wp_fallback_send_to_dlq.
    + apply wp_fallback_ack; [naive_solver..| |]; intros err Hf Ha; (split; [done|]); right;
        split_and!; eauto.
    + intros err Hf. split; [done|]. right. split_and!; eauto.
    + intros err Hf. split; [done|]. right. split_and!; eauto.
  - unfold nack_end. by destruct (already_acked_or_nacked a).
  - unfold nack_end. by destruct (already_acked_or_nacked a).
Qed.

Lemma wp_try_queue {Y} (p : prog redisE (Result Y)) d (Q : db → result Y BoxedError → Prop) :
  wpr p d (λ d' r, Q d' (map_err FromQueue r)) → wpr (try_queue p) d Q.
Proof. intros. by apply wp_bind. Qed.

Lemma wp_try_client (e : redisE (result unit StdError)) f d
    (Q : db → result unit BoxedError → Prop) :
  redis_documented faulty _ e = fallible faulty (becomes f) → redis_ready _ e d →
  Q (f d) (Ok tt) →
  (∀ err, faulty = true → Q d (Err err)) →
  (∀ err, faulty = true → Q (f d) (Err err)) →
  wpr (try_client e) d Q.
Proof.
  intros Hdoc Hr Hok Hlost Happlied. unfold try_client. apply wp_bind.
  eapply wp_client; [done|done|..]; unfold becomes; simpl.
  - by exists (f d), tt.
  - by intros d' [] ->.
  - auto.
  - intros d' [] err Hf ->. auto.
Qed.

Lemma wp_try_lrem k v d (Q : db → result unit BoxedError → Prop) :
  Q (dropped k v d) (Ok tt) →
  (∀ err, faulty = true → Q d (Err err)) →
  (∀ err, faulty = true → Q (dropped k v d) (Err err)) →
  wpr (try_client (Lrem k 1 v)) d Q.
Proof.
  intros Hok Hlost Happlied. unfold try_client. apply wp_bind.
  eapply wp_client; [done|done|..]; cbv beta; simpl.
  - by exists (dropped k v d), tt.
  - by intros d' [] ->.
  - auto.
  - intros d' [] err Hf ->. auto.
Qed.

Lemma wp_lrange k a b d (Q : db → result (list bytes) BoxedError → Prop) :
  Q d (Ok (lrange a b (list_at k d))) → (∀ err, faulty = true → Q d (Err err)) →
  wpr (try_client (Lrange k a b)) d Q.
Proof.
  intros Hok Herr. unfold try_client. apply wp_bind.
  eapply wp_client; [done|done|..]; cbv beta; simpl.
  - eauto.
  - by intros d' l [-> ->].
  - auto.
  - intros d' l err Hf [_ ->]. auto.
Qed.

(** The three commands that move one timed-out entry, and how far a faulty
    server may have got. *)
Lemma wp_requeue q pq c i k d (Q : db → result unit BoxedError → Prop) :
  (∀ d', requeued q c i d d' → Q (dropped pq k d') (Ok tt)) →
  (∀ d' e, faulty = true →
     lists d' = lists d ∨ requeued q c i d d' ∨
     (∃ d1, requeued q c i d d1 ∧ d' = dropped pq k d1) → Q d' (Err e)) →
  wpr (let? _ :=
         match c with
         | Some c =>
             if max_retries_reached c (num_receives i)
             then try_queue (send_to_dlq c (payload i))
             else let* m := to_list_payload i in try_client (Rpush q m)
         | None => let* m := to_list_payload i in try_client (Rpush q m)
         end in
       try_client (Lrem pq 1 k)) d Q.
Proof.
  intros Hok Herr.
  assert (wpr (let* m := to_list_payload i in try_client (Rpush q m)) d
    (λ d' r, exhausted c (num_receives i) = None →
             match r with
             | Ok _ => requeued q c i d d'
             | Err _ => faulty = true ∧ (lists d' = lists d ∨ requeued q c i d d')
             end)) as Hpush.
  { apply wp_bind, wp_to_list_payload. intros id Hid Hnew.
    eapply wp_try_client; [done|done|..]; unfold requeued.
    - intros Hx. rewrite Hx. eauto.
    - intros err Hf Hx. split; [done|]. by left.
    - intros err Hf Hx. split; [done|]. right. rewrite Hx. eauto. }
  apply wp_bind_ok, wp_mono with (λ d' r, match r with
    | Ok _ => requeued q c i d d'
    | Err _ => faulty = true ∧ (lists d' = lists d ∨ requeued q c i d d') end).
  - unfold exhausted in Hpush. destruct c as [c|]; [|eapply wp_mono; [exact Hpush|intros d' a Hx; exact (Hx eq_refl)]].
    destruct (max_retries_reached c (num_receives i)) eqn:Hm;
      [|eapply wp_mono; [exact Hpush|intros d' a Hx; exact (Hx eq_refl)]].
    apply wp_try_queue, wp_fallback_send_to_dlq; unfold requeued, exhausted; simpl; rewrite Hm; auto.
  - intros d' [[]|e]; [|intros [Hf [?|?]]; eauto].
    intros Hreq. apply wp_try_lrem; eauto 10.
Qed.

(** The loop over a batch of entries keeps every message, and brings
    nothing into the processing list. *)
Definition kept q pq c (r : result unit BoxedError) (d d' : db) : Prop :=
  messages q pq c d ⊆+ messages q pq c d' ∧
  (r = Ok tt ∨ faulty = false → messages q pq c d ≡ₚ messages q pq c d') ∧
  list_at pq d' ⊆+ list_at pq d.

Lemma wp_reenqueue_batch q pq L c batch d :
  distinct_keys q pq c → batch ⊆+ list_at pq d →
  Forall (λ k, internal_from_list oc k ≠ Panics) batch →
  wpr (for_each (reenqueue_key oc q pq L c) batch) d (λ d' r, kept q pq c r d d').
Proof.
  intros Hk Hb Hp.
  apply wp_for_each with (λ rest d', rest ⊆+ list_at pq d' ∧
    Forall (λ k, internal_from_list oc k ≠ Panics) rest ∧
    messages q pq c d ≡ₚ messages q pq c d' ∧ list_at pq d' ⊆+ list_at pq d); [done| |].
  2:{ intros d' (_&_&Hm&Hl). split_and!; [by rewrite Hm|done..]. }
  clear Hb Hp. intros k rest d1 (Hb&[Hpk Hp]%Forall_cons&Hm&Hl).
  assert (k ∈ list_at pq d1) as Hin by (eapply elem_of_submseteq; [|exact Hb]; by left).
  assert (messages q pq c d ⊆+ messages q pq c d1) as Hm' by (by rewrite Hm).
  unfold reenqueue_key. destruct (bytes_le k L).
  2:{ apply wp_Ret. split_and!; [|done..]. etrans; [|exact Hb]. by apply submseteq_cons. }
  apply wp_bind_ok, wp_try_queue.
  destruct (internal_from_list oc k) as [[i|e]|] eqn:Hk'; [| |done].
  2:{ simpl. split_and!; [done| |done]. by intros _. }
  simpl. apply parse_content in Hk' as [Hpi Hni].
  assert (∀ d', requeued q c i d1 d' →
    list_at pq d' = list_at pq d1 ∧ list_at pq (dropped pq k d') ⊆+ list_at pq d1) as Hpq.
  { intros d' Hr. destruct (requeued_messages _ pq _ _ _ _ _ Hk Hpi Hni Hr) as [_ Heq].
    split; [done|]. unfold dropped. rewrite list_at_set_list, Heq.
    apply sublist_submseteq, remove_first_sublist. }
  apply wp_requeue.
  - intros d' Hr. split_and!; [|done| |].
    + unfold dropped. rewrite list_at_set_list, (proj1 (Hpq d' Hr)).
      by apply remove_first_submseteq.
    + rewrite Hm. by eapply requeued_dropped_messages.
    + rewrite <-Hl. by apply Hpq.
  - intros d' e Hf Hd'. unfold kept.
    split_and!; [rewrite Hm'|intros [?|?]; congruence|rewrite <-Hl].
    + destruct Hd' as [Hls|[Hr|(d2&Hr&->)]].
      * by rewrite (messages_lists _ _ _ _ _ Hls).
      * destruct (requeued_messages _ pq _ _ _ _ _ Hk Hpi Hni Hr) as [-> _].
        by apply submseteq_cons.
      * by rewrite (requeued_dropped_messages _ _ _ _ _ _ _ Hk Hpi Hni Hin Hr).
    + destruct Hd' as [Hls|[Hr|(d2&Hr&->)]].
      * by rewrite (list_at_lists _ _ _ Hls).
      * by rewrite (proj1 (Hpq d' Hr)).
      * by apply Hpq.
Qed.

(** One round, up to its loop. *)
Lemma wp_reenqueue q pq deadline c d (Q : db → result unit BoxedError → Prop) :
  as_secs deadline <= SAFE_DEADLINE →
  (∀ err, faulty = true → Q d (Err err)) →
  (∀ L, timed_out L (list_at pq d) = [] → Q d (Ok tt)) →
  (∀ L, timed_out L (list_at pq d) =
          filter (λ k, bytes_le k L = true) (lrange (- BATCH_SIZE) (-1) (list_at pq d)) →
     wpr (for_each (reenqueue_key oc q pq L c) (lrange (- BATCH_SIZE) (-1) (list_at pq d))) d Q) →
  wpr (reenqueue_timed_out_messages oc q pq deadline c) d Q.
Proof.
  intros Hdl Herr Hnone Hsome. unfold reenqueue_timed_out_messages, timed_out in *.
  apply wp_bind_ok, (wp_try_client PoolGet id); [done|done| |auto..].
  apply wp_bind_ok, wp_lrange; [|auto].
  apply wp_bind, wp_call. split; [done|]. intros d' o (->&Ho&_).
  destruct (Ho Hdl) as [L ->]. cbn [lift bind].
  assert (∀ d1, Q d1 (Ok tt) →
    wpr (let* _ := call (Sleep (from_millis 500)) in Ret (Ok tt)) d1 Q) as Hsleep.
  { intros d1 HQ. apply wp_bind, wp_call. split; [done|]. by intros d' x ->. }
  unfold id. specialize (Hnone L). specialize (Hsome L).
  destruct (lrange (-1) (-1) (list_at pq d)) as [|k ks]; [by apply Hsleep, Hnone|].
  destruct (bytes_le k L); [|by apply Hsleep, Hnone].
  apply wp_bind_ok, wp_lrange; auto.
Qed.

Lemma wp_reenqueue_kept q pq deadline c d :
  distinct_keys q pq c → as_secs deadline <= SAFE_DEADLINE →
  Forall (λ k, internal_from_list oc k ≠ Panics) (list_at pq d) →
  wpr (reenqueue_timed_out_messages oc q pq deadline c) d (λ d' r, kept q pq c r d d').
Proof.
  intros Hk Hdl Hp. apply wp_reenqueue; [done| | |].
  - intros err Hf. split_and!; [done| |done]. intros [?|?]; congruence.
  - done.
  - intros L _. pose proof (lrange_sublist (- BATCH_SIZE) (-1) (list_at pq d)) as Hs.
    apply wp_reenqueue_batch; [done|by apply sublist_submseteq|].
    rewrite Forall_forall in *. intros k Hin. apply Hp.
    by eapply elem_of_submseteq, sublist_submseteq.
Qed.

(** C13: re-enqueueing loses no message.  Whatever a faulty server does, the
    messages that the main, processing and dead-letter lists held between
    them before a round are still there after it; if the round succeeds, or
    no command failed, there are no new ones either. *)
Theorem reenqueue_conserves q pq deadline c s :
  distinct_keys q pq c → as_secs deadline <= SAFE_DEADLINE →
  Forall (λ k, internal_from_list oc k ≠ Panics) (list_at pq (view s)) →
  returns h view (reenqueue_timed_out_messages oc q pq deadline c) s (λ d r,
    messages q pq c (view s) ⊆+ messages q pq c d ∧
    (r = Ok tt ∨ faulty = false → messages q pq c (view s) ≡ₚ messages q pq c d)).
Proof.
  intros Hk Hdl Hp. start_wp. intros d Hp.
  eapply wp_mono; [by apply wp_reenqueue_kept|]. intros d' r (?&?&_). done.
Qed.

(** C14: the background task never ends and loses no message: after any
    number of rounds, on a server as faulty as it may be, it is still
    running, and the messages of the three lists are still there. *)
Theorem background_task_keeps_running fuel q pq ack_deadline_ms c s :
  distinct_keys q pq c → (0 <= ack_deadline_ms <= 315360000000000)%Z →
  Forall (λ k, internal_from_list oc k ≠ Panics) (list_at pq (view s)) →
  ∃ s', run h (background_task_processing oc fuel q pq ack_deadline_ms c) s = Exhausted s' ∧
    messages q pq c (view s) ⊆+ messages q pq c (view s').
Proof.
  intros Hk Hms Hp. set (deadline := ack_deadline_of ack_deadline_ms).
  assert (as_secs deadline <= SAFE_DEADLINE) as Hdl.
  { unfold deadline, ack_deadline_of, from_millis, as_secs, SAFE_DEADLINE. simpl.
    rewrite Z.mod_small by lia. apply N.Div0.div_le_upper_bound. lia. }
  assert (∃ s', run h (background_task_processing oc fuel q pq ack_deadline_ms c) s = Exhausted s' ∧
    messages q pq c (view s) ⊆+ messages q pq c (view s') ∧
    list_at pq (view s') ⊆+ list_at pq (view s)) as (s'&Hr&Hm&_); [|by exists s'].
  apply (run_loop_forever h _ (λ s', messages q pq c (view s) ⊆+ messages q pq c (view s') ∧
    list_at pq (view s') ⊆+ list_at pq (view s))); [|done].
  intros s1 [Hm Hl]. fold deadline.
  assert (returns h view (reenqueue_timed_out_messages oc q pq deadline c) s1
    (λ d' r, kept q pq c r (view s1) d')) as (s2&r&Hr&Hm2&_&Hl2).
  { start_wp. intros d Hm Hl. apply wp_reenqueue_kept; [done|done|].
    rewrite Forall_forall in *. intros k Hin. apply Hp. by eapply elem_of_submseteq. }
  rewrite run_bind, Hr. destruct r as [[]|e].
  - exists s2. split; [done|]. split; by etrans.
  - rewrite run_bind, run_call.
    destruct (lawful_live (R := redis_doc faulty) _ (Sleep (from_millis 500)) s2 I)
      as [[s3 []] Hs3].
    rewrite Hs3. exists s3. split; [done|].
    apply (lawful_sound (R := redis_doc faulty)) in Hs3. simpl in Hs3. rewrite Hs3.
    split; by etrans.
Qed.
End specs.

(** ** On a server that answers *)

(** The timed-out messages that go back to the main list, and the payloads
    that go to the dead-letter queue. *)
Definition back_to_main (oc : bool) (c : option DeadLetterQueueConfig) (ks : list bytes)
    : list (bytes * N) :=
  omap (λ k, match internal_from_list oc k with
             | Done (Ok i) => match exhausted c (num_receives i) with
                              | None => Some (payload i, num_receives i)
                              | Some _ => None
                              end
             | _ => None
             end) ks.
Definition to_dead (oc : bool) (c : option DeadLetterQueueConfig) (ks : list bytes)
    : list bytes :=
  omap (λ k, match internal_from_list oc k with
             | Done (Ok i) => match exhausted c (num_receives i) with
                              | None => None
                              | Some _ => Some (payload i)
                              end
             | _ => None
             end) ks.

Definition remove_each (ks l : list bytes) : list bytes := foldl (λ l k, remove_first k l) l ks.

(** ** The queue that the lists implement *)

Definition represents (c : RedisConsumer) (d : db) (m : mqueue) : Prop :=
  Forall2 holds (list_at (rc_queue_key c) d) (waiting m) ∧
  Forall2 holds (list_at (rc_processing_queue_key c) d) (pending m) ∧
  dlq_at (rc_dlq_config c) d = dead m ∧
  Forall (λ x, x.2 < USIZE_MAX) (waiting m).

Section reliable.
Context (oc : bool) {S : Type} (h : handler redisE S) (view : S → db)
  `{!Lawful (redis_doc false) h view}.

Abbreviation wpr := (wp (redis_doc false)).

(** What the loop has done after the entries [ks]. *)
Definition moved (q pq : key) (c : option DeadLetterQueueConfig) (ks : list bytes)
    (d d' : db) : Prop :=
  list_at pq d' = remove_each ks (list_at pq d) ∧
  dlq_at c d' = dlq_at c d ++ to_dead oc c ks ∧
  ∃ back, list_at q d' = list_at q d ++ back ∧ Forall2 holds back (back_to_main oc c ks).

Lemma moved_one q pq c ks k i d d1 d2 :
  distinct_keys q pq c → internal_from_list oc k = Done (Ok i) → is_usize (num_receives i) →
  moved q pq c ks d d1 → requeued q c i d1 d2 →
  moved q pq c (ks ++ [k]) d (dropped pq k d2).
Proof.
  intros Hk Hi Hn (Hpq&Hdlq&back&Hq&Hback). pose proof Hk as [Hqp _].
  unfold moved, requeued, back_to_main, to_dead, remove_each, dropped.
  rewrite list_at_set_list, foldl_app, !omap_app. simpl. rewrite Hi.
  rewrite (proj2 (dlq_at_set_list q pq c _ _ Hk)), (list_at_set_list_ne pq q) by done.
  destruct (exhausted c (num_receives i)) as [dlq|] eqn:Hx.
  - intros ->. destruct (exhausted_dlq_at _ _ _ _ _ Hk Hx) as (Hdq&Hdpq&Hd).
    unfold dead_lettered. rewrite !Hd in *. rewrite list_at_set_list, !list_at_set_list_ne by done.
    rewrite Hpq, Hdlq, Hq, app_nil_r, <-app_assoc. eauto.
  - intros (id&Hid&_&->).
    rewrite (proj1 (dlq_at_set_list q pq c _ _ Hk)), list_at_set_list,
      list_at_set_list_ne, !list_at_set_issued, Hpq, Hq, app_nil_r by done.
    split_and!; [done| |].
    + transitivity (dlq_at c d1); [by destruct c|]. by rewrite Hdlq.
    + exists (back ++ [internal_to_list_payload id i]). split; [by rewrite <-app_assoc|].
      apply Forall2_app; [done|]. constructor; [|done]. destruct i. by apply holds_written.
Qed.

Lemma moved_nil q pq c d : moved q pq c [] d d.
Proof.
  unfold moved. simpl. rewrite app_nil_r. split_and!; [done..|]. exists [].
  by rewrite app_nil_r.
Qed.

(** Going over a batch of well-formed entries. *)
Lemma wp_reenqueue_moved q pq L c batch d :
  distinct_keys q pq c → Forall (λ k, ∃ p n, holds k (p, n) ∧ n < USIZE_MAX) batch →
  wpr (for_each (reenqueue_key oc q pq L c) batch) d (λ d' r,
    r = Ok tt ∧ moved q pq c (filter (λ k, bytes_le k L = true) batch) d d').
Proof.
  intros Hk Hb.
  apply wp_for_each with (λ rest d', ∃ ks, batch = ks ++ rest ∧
    moved q pq c (filter (λ k, bytes_le k L = true) ks) d d').
  - exists []. split; [done|]. apply moved_nil.
  - intros k rest d1 (ks&Hks&Hm). unfold reenqueue_key.
    assert (∃ p n, holds k (p, n) ∧ n < USIZE_MAX) as (p&n&Hh&Hn).
    { rewrite Forall_forall in Hb. apply Hb. rewrite Hks. set_solver. }
    assert (∀ d', moved q pq c (filter (λ k, bytes_le k L = true) (ks ++ [k])) d d' →
      ∃ ks', batch = ks' ++ rest ∧
        moved q pq c (filter (λ k, bytes_le k L = true) ks') d d') as Hnext.
    { intros d' Hd'. exists (ks ++ [k]). by rewrite <-app_assoc. }
    rewrite filter_app in Hnext. destruct (bytes_le k L) eqn:HL.
    2:{ apply wp_Ret, Hnext. rewrite filter_cons_False by (by rewrite HL).
        by rewrite filter_nil, app_nil_r. }
    rewrite filter_cons_True, filter_nil in Hnext by done.
    rewrite (fallback_holds_parse oc _ _ _ Hh Hn). apply wp_bind_ok, wp_try_queue. simpl.
    apply (wp_requeue _ q pq c (mkInternalPayload p (n + 1))); [|done].
    intros d2 Hr. apply Hnext.
    eapply moved_one; [done|by apply fallback_holds_parse| |done|done].
    simpl. unfold is_usize. lia.
  - intros d' (ks&Hks&Hm). rewrite app_nil_r in Hks. by subst.
Qed.

(** Settling what has just been received. *)
Lemma wp_fallback_settle c verdict p n raw d m (Q : db → Result unit → Prop) :
  distinct_keys (rc_queue_key c) (rc_processing_queue_key c) (rc_dlq_config c) →
  represents c (dropped (rc_processing_queue_key c) raw d) m →
  (∃ l, list_at (rc_processing_queue_key c) d = raw :: l) →
  holds raw (p, n) → n < USIZE_MAX →
  (∀ d', represents c d' (settle_abs (rc_dlq_config c) verdict p n m) → Q d' (Ok tt)) →
  wpr (delivery_settle verdict
         (internal_to_delivery oc (mkInternalPayload p (n + 1)) c raw)) d Q.
Proof.
  intros Hk (Hw&Hp&Hdead&Hsmall) [l Hl] Hraw Hn HQ.
  assert (∀ d', list_at (rc_queue_key c) d' = list_at (rc_queue_key c) d →
    list_at (rc_processing_queue_key c) d' = list_at (rc_processing_queue_key c) d →
    dlq_at (rc_dlq_config c) d' = dead (settle_abs (rc_dlq_config c) verdict p n m) →
    (verdict = OpAck ∨ exhausted (rc_dlq_config c) (n + 1) ≠ None) →
    Q (dropped (rc_processing_queue_key c) raw d') (Ok tt)) as Hdrop.
  { intros d' Hq Hpq Hd Hv. apply HQ. pose proof Hk as [Hqp _].
    unfold represents, dropped in *. rewrite (proj2 (dlq_at_set_list _ _ _ _ _ Hk)) in *.
    rewrite list_at_set_list, list_at_set_list_ne in * by done.
    rewrite Hq, Hpq, Hd. unfold settle_abs in *. destruct verdict; [done|].
    destruct (exhausted _ _); [done|]. by destruct Hv as [|[]]. }
  unfold delivery_settle, Delivery.ack, Delivery.nack. destruct verdict; simpl;
    apply wp_bind, wp_bind, wp_bind, wp_bind.
  - apply wp_fallback_ack; [done| |done..]. intros _. apply Hdrop; [done..| |by left].
    unfold dropped in Hdead. by rewrite (proj2 (dlq_at_set_list _ _ _ _ _ Hk)) in Hdead.
  - assert (exhausted (rc_dlq_config c) (n + 1) = None → Q d (Ok tt)) as Hstay.
    { intros Hx. apply HQ. pose proof Hk as [Hqp _].
      unfold represents, dropped in *. rewrite (proj2 (dlq_at_set_list _ _ _ _ _ Hk)) in *.
      rewrite list_at_set_list, list_at_set_list_ne in * by done.
      unfold settle_abs. rewrite Hx. simpl. rewrite Hl in *. rewrite remove_first_head in Hp.
      split_and!; [done| |done..]. by constructor. }
    unfold nack. cbn [acker_dlq_config acker_num_receives num_receives].
    destruct (rc_dlq_config c) as [dc|] eqn:Hdc; [|by apply Hstay].
    unfold exhausted in *. destruct (max_retries_reached dc (n + 1)) eqn:Hm;
      [|by apply Hstay].
    cbn [old_payload]. rewrite (fallback_holds_parse oc _ _ _ Hraw Hn). cbn [lift bind payload].
    apply wp_bind, wp_fallback_send_to_dlq; [|done..]. apply wp_fallback_ack; [done| |done..]. intros _. simpl.
    destruct Hk as [_ [Hk1 Hk2]]. unfold dead_lettered.
    apply Hdrop; [by rewrite list_at_set_list_ne..| |by right].
    simpl in *. unfold dropped in Hdead. rewrite list_at_set_list_ne in Hdead by done.
    rewrite list_at_set_list, Hm. simpl. by rewrite Hdead.
Qed.

#[local] Instance fallback_queue p c :
  rp_queue_key p = rc_queue_key c →
  distinct_keys (rc_queue_key c) (rc_processing_queue_key c) (rc_dlq_config c) →
  RedisQueue (rc_dlq_config c) (send_raw p) (receive oc c) (represents c).
Proof.
  intros Hp Hk. pose proof Hk as [Hqp Hdk]. split.
  - intros v d m (Hw&Hpe&Hd&Hs). apply wp_send_raw; [|done..]. intros d' (id&Hid&_&->).
    split; [done|]. rewrite Hp.
    unfold represents. rewrite (proj1 (dlq_at_set_list _ _ _ _ _ Hk)).
    rewrite list_at_set_list, list_at_set_list_ne, !list_at_set_issued by done.
    split_and!; simpl; [|done|by rewrite <-Hd; destruct (rc_dlq_config c)|by constructor].
    constructor; [|done]. by apply holds_written.
  - intros w v n pend dd d (Hq&Hpe&Hd&Hs). cbn [waiting pending dead] in *.
    apply Forall2_app_inv_r in Hq as (rest&raw'&Hrest&Hraw&Hq).
    apply Forall2_cons_inv_r in Hraw as (raw&[|]&Hraw&Hnil&->); [|by inversion Hnil].
    apply Forall_app in Hs as [Hs [Hn _]%Forall_cons].
    apply (wp_receive _ _ _ rest raw v n); [done|done|done| |done..].
    eexists. split; [done|]. split; [done|]. intros verdict.
    apply wp_fallback_settle with (mkMqueue w pend dd); [done| | |done|done|done].
    + unfold represents, dropped, claimed.
      rewrite !(proj2 (dlq_at_set_list _ _ _ _ _ Hk)), (proj1 (dlq_at_set_list _ _ _ _ _ Hk)).
      by rewrite !list_at_set_list, remove_first_head,
        !(list_at_set_list_ne (rc_processing_queue_key c)), list_at_set_list,
        list_at_set_list_ne by done.
    + unfold claimed. rewrite list_at_set_list. eauto.
Qed.

(** C4: on a server that answers, the two lists and the dead-letter queue
    implement a queue of messages with a count of receives.  Whatever
    sequence of sends and of receives settled by [ack] or [nack] a client
    performs, it gets the payloads that the abstract queue gives, in that
    order; acked messages are gone, nacked ones are pending, or given up
    when their receives have reached the maximum. *)
Theorem fallback_refines_mqueue p c ops s m outs m' :
  rp_queue_key p = rc_queue_key c →
  distinct_keys (rc_queue_key c) (rc_processing_queue_key c) (rc_dlq_config c) →
  represents c (view s) m →
  mqueue_run (rc_dlq_config c) ops m = Some (outs, m') →
  returns h view (client (send_raw p) (receive oc c) ops) s
    (λ d r, r = Ok (Some <$> outs) ∧ represents c d m').
Proof.
  intros Hp Hk Hrep Hrun. start_wp. intros d Hrep.
  pose proof (fallback_queue p c Hp Hk). by eapply client_refines.
Qed.

(** A negative [ack_deadline_ms] kills the background task: the cast to
    [u64] wraps to a moment that no clock can represent, and the first round
    panics. *)
Theorem negative_deadline_panics fuel q pq ack_deadline_ms c s :
  (- 2 ^ 63 <= ack_deadline_ms < 0)%Z →
  ∃ s', run h (background_task_processing oc (Datatypes.S fuel) q pq ack_deadline_ms c) s =
    Panicked s'.
Proof.
  intros Hms. unfold background_task_processing. cbn [loop].
  set (deadline := ack_deadline_of ack_deadline_ms).
  assert (WILD_DEADLINE < as_secs deadline) as Hdl.
  { unfold deadline, ack_deadline_of, from_millis, as_secs, WILD_DEADLINE. simpl.
    rewrite <-(Z_mod_plus_full ack_deadline_ms 1), Z.mod_small by lia.
    apply N.lt_le_trans with 632448000001; [lia|].
    apply N.div_le_lower_bound; [done|]. lia. }
  unfold reenqueue_timed_out_messages.
  destruct (wp_sound (redis_doc false) h view (try_client PoolGet) s (λ _ r, r = Ok tt))
    as (s1&r&Hr1&->).
  { by eapply wp_try_client. }
  destruct (wp_sound (redis_doc false) h view (try_client (Lrange pq (-1) (-1))) s1
    (λ _ r, ∃ l, r = Ok l)) as (s2&r&Hr2&l&->).
  { apply wp_lrange; [eauto|done]. }
  destruct (lawful_live (R := redis_doc false) _ (KsuidMsBefore deadline) s2 I)
    as [[s3 o] Hs3].
  pose proof (lawful_sound (R := redis_doc false) _ _ _ _ _ Hs3) as (_&_&Ho).
  exists s3. rewrite !run_bind, run_bind_ok, Hr1, run_bind_ok, Hr2, run_bind, run_call, Hs3.
  by rewrite Ho by done.
Qed.
End reliable.

(** ** A round at a known time *)

(** The identifier that the library makes for the moment [dl] ago is [L]. *)
Definition limit_is (dl : Duration) (L : bytes) X (e : redisE X) (_ _ : db) : X → Prop :=
  match e in redisE X return X → Prop with
  | KsuidMsBefore t => λ o, t = dl → o = Done L
  | _ => λ _, True
  end.

Section at_limit.
Context (oc : bool) (deadline : Duration) (L : bytes).
Abbreviation wpl := (wp (restrict (redis_doc false) (limit_is deadline L))).

Lemma wp_limit_sleep q pq c t d :
  wpl (let* _ := call (Sleep t) in Ret (Ok tt)) d
    (λ d' r, r = @Ok _ BoxedError tt ∧ moved oc q pq c [] d d').
Proof.
  apply wp_bind, wp_call. split; [done|]. intros d' x [-> _]. split; [done|]. apply moved_nil.
Qed.

Lemma wp_limit_round q pq c d :
  distinct_keys q pq c →
  Forall (λ k, ∃ p n, holds k (p, n) ∧ n < USIZE_MAX) (list_at pq d) →
  wpl (reenqueue_timed_out_messages oc q pq deadline c) d (λ d' r,
    r = Ok tt ∧ moved oc q pq c (timed_out L (list_at pq d)) d d').
Proof.
  intros Hk Hp. unfold reenqueue_timed_out_messages, timed_out.
  apply wp_bind_ok, wp_restrict, (wp_try_client _ PoolGet id); [done|done| |done..].
  unfold id. apply wp_bind_ok, wp_restrict, wp_lrange; [|done].
  apply wp_bind, wp_call. split; [done|]. intros d' o [(->&_) Ho]. rewrite Ho by done.
  cbn [lift bind].
  destruct (lrange (-1) (-1) (list_at pq d)) as [|k ks]; [apply wp_limit_sleep|].
  destruct (bytes_le k L); [|apply wp_limit_sleep].
  apply wp_bind_ok, wp_restrict, wp_lrange; [|done].
  apply wp_restrict, (wp_reenqueue_moved oc serve_healthy sdb); [done|].
  rewrite Forall_forall in *. intros x Hin. apply Hp.
  by eapply elem_of_submseteq, sublist_submseteq, lrange_sublist.
Qed.

(** C22: one round of the background task, exactly.  Let [L] be the
    identifier that the library makes for the moment one deadline ago.  The
    round looks at the last 50 entries of the processing list, provided the
    very last one is not above [L], and removes each of them that is not above
    [L]: those that have reached the maximum of receives are appended to the
    dead-letter queue, the others to the end of the main list that is received
    from next, with their receives counted, in the order of the processing
    list, so that the one that has waited longest is received first.  All
    other entries stay where they are. *)
Theorem reenqueue_exact {S : Type} (h : handler redisE S) (view : S → db)
    `{!Lawful (restrict (redis_doc false) (limit_is deadline L)) h view} q pq c s :
  distinct_keys q pq c →
  Forall (λ k, ∃ p n, holds k (p, n) ∧ n < USIZE_MAX) (list_at pq (view s)) →
  returns h view (reenqueue_timed_out_messages oc q pq deadline c) s (λ d r,
    r = Ok tt ∧ moved oc q pq c (timed_out L (list_at pq (view s))) (view s) d).
Proof. intros Hk Hp. refine (wp_sound _ h view _ s _ _). by apply wp_limit_round. Qed.
End at_limit.

Lemma serve_late_limit dl L :
  as_secs dl <= WILD_DEADLINE →
  Lawful (restrict (redis_doc false) (limit_is dl L)) (serve_late L) sdb.
Proof.
  intros Hdl. split; intros X e s; unfold serve_late; [intros s' x Hx|intros Hr].
  - split; [exact (lawful_sound (R := redis_doc false) X e (mkServer (sdb s) [] (wall s) L) s' x Hx)|].
    destruct e; try done. unfold serve_healthy in Hx. simpl in Hx. injection Hx as <- <-.
    intros ->. by destruct (N.leb_spec (as_secs dl) WILD_DEADLINE); [|lia].
  - exact (lawful_live (R := redis_doc false) X e (mkServer (sdb s) [] (wall s) L) Hr).
Qed.

(** ** Witnesses *)

Definition raw1 : bytes := bstr "k1#0|a".
Definition raw2 : bytes := bstr "k2#4|b".
Definition db0 : db :=
  mkDb {[ "q"%string := [raw1; raw2]; "p"%string := [raw2; raw1] ]} ∅ ∅ ∅ ∅ 0%Z.
(** A server that loses its second reply. *)
Definition s0 : server := mkServer db0 [Healthy; Applied] 0%Z (bstr "k3").
Definition p0 : RedisProducer := mkRedisProducer "q" "d" "payload" false (Some (mkDlq "dlq" 5)).
Definition c0 : RedisConsumer :=
  mkRedisConsumer "q" "p" "g" "c" "payload" false (Some (mkDlq "dlq" 5)).
Definition a0 : RedisFallbackAcker := mkFallbackAcker "p" raw1 false 5 (Some (mkDlq "dlq" 5)).

Lemma holds_raw1 : holds raw1 (bstr "a", 0).
Proof.
  assert (wf_id (bstr "k1")) as Hid.
  { unfold wf_id, no_byte. split_and!; [| |done]; apply (bool_decide_unpack _); done. }
  exact (entry_count (bstr "k1") (bstr "0") 0 (bstr "a") Hid eq_refl).
Qed.

Lemma holds_raw2 : holds raw2 (bstr "b", 4).
Proof.
  assert (wf_id (bstr "k2")) as Hid.
  { unfold wf_id, no_byte. split_and!; [| |done]; apply (bool_decide_unpack _); done. }
  exact (entry_count (bstr "k2") (bstr "4") 4 (bstr "b") Hid eq_refl).
Qed.

Lemma distinct0 : distinct_keys "q" "p" (Some (mkDlq "dlq" 5)).
Proof. by split. Qed.

Lemma fallback_parses0 : Forall (λ k, internal_from_list true k ≠ Panics) (list_at "p" db0).
Proof. by repeat constructor. Qed.

Lemma sent_length q v d d' :
  sent q v d d' → length (list_at q d') = Datatypes.S (length (list_at q d)).
Proof. intros (id&_&_&->). by rewrite list_at_set_list. Qed.

Lemma fallback_send_witness :
  returns serve sdb (send_raw p0 (bstr "x")) s0 (λ d r,
    r = Ok tt ∧ length (list_at "q" d) = 3%nat ∨ (2 <= length (list_at "q" d))%nat).
Proof.
  eapply returns_mono; [exact (fallback_send true serve sdb p0 (bstr "x") s0)|].
  intros d [[]|e]; simpl.
  - intros ->%sent_length. by left.
  - intros (_&_&[->| ->%sent_length]); right; vm_compute; lia.
Defined.

Lemma fallback_receive_witness :
  returns serve_healthy sdb (receive true c0) s0 (λ d r,
    r = Ok (internal_to_delivery true (mkInternalPayload (bstr "b") (4 + 1)) c0 raw2) ∧
    list_at "q" d = [raw1] ∧ list_at "p" d = [raw2; raw2; raw1]).
Proof.
  eapply returns_mono;
    [exact (fallback_receive true false serve_healthy sdb c0 [raw1] raw2 (bstr "b") 4 s0
       eq_refl holds_raw2 eq_refl)|].
  intros d [del|e]; simpl; [|by intros [? _]]. intros [-> ->]. done.
Defined.

Lemma fallback_ack_witness :
  returns serve_healthy sdb (ack a0) s0 (λ d '(a, r),
    r = Ok tt ∧ already_acked_or_nacked a = true ∧ list_at "p" d = [raw2]).
Proof.
  eapply returns_mono; [exact (fallback_ack false serve_healthy sdb a0 s0)|].
  intros d [a [[]|e]]; simpl; [by intros (_&->&->)|]. by intros (_&[(?&_)|(?&_)]).
Defined.

Lemma fallback_nack_witness :
  returns serve_healthy sdb (nack true a0) s0 (λ d '(a, r),
    r = Ok tt ∧ list_at "dlq" d = [bstr "a"] ∧ list_at "p" d = [raw2]).
Proof.
  eapply returns_mono;
    [apply (fallback_nack true false serve_healthy sdb a0 s0); by vm_compute|].
  intros d [a [[]|e]]; simpl; [by intros (_&->&->)|]. by intros (_&[(?&_)|(?&_)]).
Defined.

Lemma reenqueue_conserves_witness :
  returns serve sdb (reenqueue_timed_out_messages true "q" "p" (from_secs 30)
    (Some (mkDlq "dlq" 5))) s0 (λ d _,
    [bstr "a"; bstr "b"; bstr "b"; bstr "a"] ⊆+ messages "q" "p" (Some (mkDlq "dlq" 5)) d).
Proof.
  eapply returns_mono; [exact (reenqueue_conserves true true serve sdb "q" "p" (from_secs 30)
    (Some (mkDlq "dlq" 5)) s0 distinct0 ltac:(by vm_compute) fallback_parses0)|].
  intros d r [Hm _]. exact Hm.
Defined.

Lemma background_task_keeps_running_witness :
  ∃ s', run serve (background_task_processing true 7 "q" "p" 30000 (Some (mkDlq "dlq" 5))) s0 =
      Exhausted s' ∧
    [bstr "a"; bstr "b"; bstr "b"; bstr "a"] ⊆+
      messages "q" "p" (Some (mkDlq "dlq" 5)) (sdb s').
Proof.
  exact (background_task_keeps_running true true serve sdb 7 "q" "p" 30000
    (Some (mkDlq "dlq" 5)) s0 distinct0 ltac:(lia) fallback_parses0).
Defined.

(** Only the first of the two entries is old enough; it is the only one that
    is moved, and it has exhausted its receives. *)
Lemma reenqueue_exact_witness :
  returns (serve_late (bstr "k1#z")) sdb (reenqueue_timed_out_messages true "q" "p" (from_secs 30)
    (Some (mkDlq "dlq" 5))) s0 (λ d r,
    r = Ok tt ∧ timed_out (bstr "k1#z") (list_at "p" db0) = [raw1] ∧
    moved true "q" "p" (Some (mkDlq "dlq" 5)) [raw1] db0 d).
Proof.
  pose proof (serve_late_limit (from_secs 30) (bstr "k1#z") ltac:(by vm_compute)) as Hlaw.
  eapply returns_mono.
  - apply (reenqueue_exact true (from_secs 30) (bstr "k1#z") (serve_late (bstr "k1#z")) sdb
      "q" "p" (Some (mkDlq "dlq" 5)) s0 distinct0).
    repeat constructor; do 2 eexists; (split; [apply holds_raw2 || apply holds_raw1|done]).
  - intros d r [-> Hm]. exact (conj eq_refl (conj eq_refl Hm)).
Defined.

Lemma fallback_refines_mqueue_witness :
  returns serve_healthy sdb
    (client (send_raw p0) (receive true c0) [ClientReceive OpNack; ClientSend (bstr "x"); ClientReceive OpAck]) s0
    (λ d r, r = Ok [Some (bstr "b"); Some (bstr "a")] ∧
       represents c0 d (mkMqueue [(bstr "x", 0)] [(bstr "b", 4); (bstr "a", 0)] [bstr "b"])).
Proof.
  apply (fallback_refines_mqueue true serve_healthy sdb p0 c0 _ s0
    (mkMqueue [(bstr "a", 0); (bstr "b", 4)] [(bstr "b", 4); (bstr "a", 0)] [])
    [bstr "b"; bstr "a"]); [done|exact distinct0| |done].
  split_and!; repeat constructor; apply holds_raw1 || apply holds_raw2.
Defined.

Lemma negative_deadline_panics_witness :
  ∃ s', run serve_healthy (background_task_processing true 1 "q" "p" (-1) None) s0 = Panicked s'.
Proof. apply (negative_deadline_panics true serve_healthy sdb 0 "q" "p" (-1) None s0). lia. Defined.
