(* ===== verification/RedisStreams.v ===== *)
(** * The stream-based redis queue ([backends/redis/streams.rs])

    Messages are entries of a redis stream, read through a consumer group:
    received entries are in the group's pending list until they are acked
    (and deleted), dead-lettered, or added anew by the background task. *)
From S2P Require Import Prelude RustStd Effects Omniqueue Queue RedisCodec RedisApi RedisConfig.
From S2P Require Import RedisSpec.
Open Scope N_scope.

Definition PENDING_BATCH_SIZE : N := 1000.
Definition NUM_RECEIVES : string := "num_receives".

(** [internal_to_stream_payload!] *)
Definition internal_to_stream_payload (i : InternalPayload) (payload_key : string)
    : list (string * bytes) :=
  [(payload_key, payload i); (NUM_RECEIVES, usize_to_string (num_receives i))].

Record RedisStreamsAcker := mkStreamsAcker {
  queue_key : key;
  consumer_group : string;
  entry_id : RedisApi.entry_id;
  payload_key : string;
  already_acked_or_nacked : bool;
  acker_num_receives : N;
  acker_dlq_config : option DeadLetterQueueConfig;
}.

Definition set_acked (a : RedisStreamsAcker) : RedisStreamsAcker :=
  mkStreamsAcker (queue_key a) (consumer_group a) (entry_id a) (payload_key a) true
    (acker_num_receives a) (acker_dlq_config a).

(** The payload of an entry as [internal_from_stream] and [send_to_dlq] get
    it. *)
Definition payload_of (entry : StreamId) (payload_key : string) : Result bytes :=
  and_then (ok_or (smap entry !! payload_key) NoData)
    (λ x, map_err QueueError.generic (from_redis_value x)).

Definition ack (a : RedisStreamsAcker) : prog redisE (RedisStreamsAcker * Result unit) :=
  if already_acked_or_nacked a then Ret (a, Err CannotAckOrNackTwice)
  else
    let* r := (let? _ := pool_get in
               pipeline [PXack (queue_key a) (consumer_group a) [entry_id a];
                         PXdel (queue_key a) [entry_id a]]) in
    match r with
    | Ok _ => Ret (set_acked a, Ok tt)
    | Err e => Ret (a, Err e)
    end.

Definition send_to_dlq (main_queue_key : key) (dlq_config : DeadLetterQueueConfig)
    (entry_id : RedisApi.entry_id) (payload_key : string) : prog redisE (Result unit) :=
  let? _ := pool_get in
  let? ids := command (Xrange main_queue_key entry_id entry_id) in
  let? entry := Ret (ok_or (head ids) NoData) in
  let? payload := Ret (payload_of entry payload_key) in
  let? _ := pool_get in
  command (Rpush (dlq_queue_key dlq_config) payload).

Definition nack_end (a : RedisStreamsAcker) : prog redisE (RedisStreamsAcker * Result unit) :=
  if already_acked_or_nacked a then Ret (a, Err CannotAckOrNackTwice)
  else Ret (set_acked a, Ok tt).

Definition nack (a : RedisStreamsAcker) : prog redisE (RedisStreamsAcker * Result unit) :=
  match acker_dlq_config a with
  | Some dlq_config =>
      if max_retries_reached dlq_config (acker_num_receives a) then
        let* r := send_to_dlq (queue_key a) dlq_config (entry_id a) (payload_key a) in
        match r with
        | Ok _ => ack a
        | Err e => Ret (a, Err e)
        end
      else nack_end a
  | None => nack_end a
  end.

Definition set_ack_deadline (a : RedisStreamsAcker) (_ : Duration)
    : prog redisE (RedisStreamsAcker * Result unit) :=
  Ret (a, Err (Unsupported "set_ack_deadline is not yet supported by redis streams backend")).

Definition streams_acker : Acker redisE RedisStreamsAcker :=
  {| Queue.ack := ack; Queue.nack := nack; Queue.set_ack_deadline := set_ack_deadline |}.

#[local] Existing Instance streams_acker.

Definition internal_to_delivery (i : InternalPayloadOwned) (consumer : RedisConsumer)
    (entry_id : RedisApi.entry_id) : Delivery redisE :=
  Delivery.new (payload i)
    (mkStreamsAcker (rc_queue_key consumer) (rc_consumer_group consumer) entry_id
       (rc_payload_key consumer) false (num_receives i) (rc_dlq_config consumer)).

Definition send_raw (producer : RedisProducer) (payload : bytes) : prog redisE (Result unit) :=
  let? _ := pool_get in
  command (Xadd (rp_queue_key producer)
             (internal_to_stream_payload (InternalPayload.new payload) (rp_payload_key producer))).

Definition add_to_main_queue (keys : list InternalPayload) (main_queue_name : key)
    (payload_key : string) : prog redisE (Result unit) :=
  let pipe := (λ i, PXadd main_queue_name
                      (internal_to_stream_payload (InternalPayload.new (payload i)) payload_key))
              <$> keys in
  pipeline pipe.

Section streams.
(** Whether the build has overflow checks, and [size_of::<Delivery>()]. *)
Variables (oc : bool) (delivery_size : N).

Definition internal_from_stream (stream_id : StreamId) (payload_key : string)
    : outcome (Result InternalPayloadOwned) :=
  outcome_try
    (match smap stream_id !! NUM_RECEIVES with
     | Some (BulkString data) =>
         outcome_try (Done (if utf8_valid data then Ok data
                            else Err (Generic (boxed "Improper key format")))) (λ data,
         outcome_try (Done (map_err (λ k, QueueError.generic (parse_int_error k))
                              (parse_usize data))) (λ count,
         outcome_bind (usize_add oc count 1) (λ n, Done (Ok n))))
     | _ => Done (Ok 1)
     end) (λ num_receives,
  outcome_try (Done (payload_of stream_id payload_key)) (λ payload,
  Done (Ok (mkInternalPayload payload num_receives)))).

Definition receive (consumer : RedisConsumer) : prog redisE (Result (Delivery redisE)) :=
  let? _ := pool_get in
  let? read_out := command (XreadGroup (rc_queue_key consumer) (rc_consumer_group consumer)
                              (rc_consumer_name consumer) 100000 1) in
  let? queue := Ret (ok_or (head read_out) NoData) in
  let? entry := Ret (ok_or (head queue.2) NoData) in
  let? internal := lift (internal_from_stream entry (rc_payload_key consumer)) in
  Ret (Ok (internal_to_delivery internal consumer (sid entry))).

(** [for entry in queue.ids] *)
Fixpoint deliveries (consumer : RedisConsumer) (ids : list StreamId)
    (out : list (Delivery redisE)) : prog redisE (Result (list (Delivery redisE))) :=
  match ids with
  | [] => Ret (Ok out)
  | entry :: ids' =>
      let? internal := lift (internal_from_stream entry (rc_payload_key consumer)) in
      deliveries consumer ids' (out ++ [internal_to_delivery internal consumer (sid entry)])
  end.

Definition receive_all (consumer : RedisConsumer) (deadline : Duration) (max_messages : N)
    : prog redisE (Result (list (Delivery redisE))) :=
  let? _ := pool_get in
  let? block := Ret (map_err QueueError.generic
                       (ok_or (try_into USIZE_MAX (as_millis deadline)) try_from_int_error)) in
  let? read_out := command (XreadGroup (rc_queue_key consumer) (rc_consumer_group consumer)
                              (rc_consumer_name consumer) block max_messages) in
  let* _ := lift (vec_with_capacity delivery_size max_messages) in
  match head read_out with
  | Some queue => deliveries consumer queue.2 []
  | None => Ret (Ok [])
  end.

(** The loop over the claimed entries, which collects the commands that add
    them anew. *)
Fixpoint readd (main_queue_name : key) (payload_key : string)
    (dlq_config : option DeadLetterQueueConfig) (ids : list StreamId) (pipe : list pipe_cmd)
    : prog redisE (Result (list pipe_cmd)) :=
  match ids with
  | [] => Ret (Ok pipe)
  | stream_id :: ids' =>
      let? internal := lift (internal_from_stream stream_id payload_key) in
      let add := readd main_queue_name payload_key dlq_config ids'
        (pipe ++ [PXadd main_queue_name (internal_to_stream_payload internal payload_key)]) in
      match dlq_config with
      | Some c =>
          if max_receives c <=? num_receives internal then
            let? _ := send_to_dlq main_queue_name c (sid stream_id) payload_key in
            readd main_queue_name payload_key dlq_config ids' pipe
          else add
      | None => add
      end
  end.

Definition reenqueue_timed_out_messages (main_queue_name : key) (consumer_group : string)
    (consumer_name : string) (ack_deadline_ms : Z) (payload_key : string)
    (dlq_config : option DeadLetterQueueConfig) : prog redisE (Result unit) :=
  let? _ := pool_get in
  let? ids := command (Xautoclaim main_queue_name consumer_group consumer_name ack_deadline_ms
                         PENDING_BATCH_SIZE) in
  match ids with
  | [] => let* _ := call (Sleep (from_millis 500)) in Ret (Ok tt)
  | _ =>
      let? pipe := readd main_queue_name payload_key dlq_config ids [] in
      let? _ := pipeline pipe in
      pipeline [PXack main_queue_name consumer_group (sid <$> ids);
                PXdel main_queue_name (sid <$> ids)]
  end.

(** The endless loop, cut after [fuel] rounds. *)
Definition background_task_pending (fuel : nat) (queue_key : key) (consumer_group : string)
    (consumer_name : string) (ack_deadline_ms : Z) (payload_key : string)
    (dlq_config : option DeadLetterQueueConfig) : prog redisE (Result unit) :=
  loop fuel (λ _ : unit,
    let* r := reenqueue_timed_out_messages queue_key consumer_group consumer_name
                ack_deadline_ms payload_key dlq_config in
    match r with
    | Err _ => let* _ := call (Sleep (from_millis 500)) in Ret (inl tt)
    | Ok _ => Ret (inl tt)
    end) tt.
End streams.

(** ** The entry format *)

(** [e] is an entry for the message [m.1], received [m.2] times so far. *)
Definition holds (payload_key : string) (e : RedisApi.entry_id * list (string * bytes))
    (m : bytes * N) : Prop :=
  e.2 = internal_to_stream_payload (mkInternalPayload m.1 m.2) payload_key.

Lemma usize_to_string_utf8 n : utf8_valid (usize_to_string n) = true.
Proof. apply utf8_valid_ascii, digits_ascii, usize_to_string_digits. Qed.

(** The fields of an entry, as read. *)
Lemma smap_written id i payload_key :
  smap (read_entry (id, internal_to_stream_payload i payload_key)) =
  <[NUM_RECEIVES := BulkString (usize_to_string (num_receives i))]>
    (<[payload_key := BulkString (payload i)]> ∅).
Proof. done. Qed.

Lemma stream_entry_parse oc payload_key id p n :
  n < USIZE_MAX →
  internal_from_stream oc
    (read_entry (id, internal_to_stream_payload (mkInternalPayload p n) payload_key)) payload_key =
  Done (Ok (mkInternalPayload
              (if decide (payload_key = NUM_RECEIVES) then usize_to_string n else p) (n + 1))).
Proof.
  intros Hn. unfold internal_from_stream, payload_of.
  rewrite smap_written, lookup_insert_eq. cbn [payload num_receives]. cbn [outcome_try].
  rewrite usize_to_string_utf8. cbn [outcome_try].
  rewrite parse_usize_to_string by (unfold is_usize; lia). cbn [map_err outcome_try].
  rewrite usize_add_small by lia. cbn [outcome_bind outcome_try].
  case_decide as Hk.
  - by rewrite Hk, lookup_insert_eq.
  - by rewrite lookup_insert_ne, lookup_insert_eq by done.
Qed.

(** C36: an entry written to the stream is read back with the same payload and
    one more receive, whatever bytes the payload holds, except when the
    configured payload key is [num_receives]: then the count has overwritten
    the payload, which is lost. *)
Theorem stream_entry_roundtrip oc payload_key id p n :
  n < USIZE_MAX →
  internal_from_stream oc
    (read_entry (id, internal_to_stream_payload (mkInternalPayload p n) payload_key)) payload_key =
  Done (Ok (mkInternalPayload
              (if decide (payload_key = NUM_RECEIVES) then usize_to_string n else p) (n + 1))).
Proof. apply stream_entry_parse. Qed.

Lemma stream_entry_roundtrip_witness :
  internal_from_stream true
    (read_entry (7, internal_to_stream_payload (mkInternalPayload (bstr "a|#b") 4) "payload"))
    "payload" = Done (Ok (mkInternalPayload (bstr "a|#b") (4 + 1))).
Proof. exact (stream_entry_roundtrip true "payload" 7 (bstr "a|#b") 4 eq_refl). Defined.

(** ** On a server that answers *)

Definition before (a b : RedisApi.entry_id * list (string * bytes)) : Prop := a.1 < b.1.

(** The stream of the consumer [c], split into what its group has been
    delivered ([old], all of it pending) and what it has not ([new]). *)
Record stream_split (c : RedisConsumer) (d : db) (g : cgroup)
    (old new : list (RedisApi.entry_id * list (string * bytes))) : Prop := {
  split_group : groups (stream_at (rc_queue_key c) d) !! rc_consumer_group c = Some g;
  split_entries : entries (stream_at (rc_queue_key c) d) = old ++ new;
  split_pel : pel g = old.*1;
  split_old : Forall (λ e, e.1 <= last_delivered g) old;
  split_new : Forall (λ e, last_delivered g < e.1 <= top_id (stream_at (rc_queue_key c) d)) new;
  split_top : last_delivered g <= top_id (stream_at (rc_queue_key c) d);
  split_sorted : StronglySorted before (old ++ new);
}.

Definition represents (c : RedisConsumer) (d : db) (m : mqueue) : Prop :=
  ∃ g old new, stream_split c d g old new ∧
    Forall2 (holds (rc_payload_key c)) old (reverse (pending m)) ∧
    Forall2 (holds (rc_payload_key c)) new (reverse (waiting m)) ∧
    dlq_at (rc_dlq_config c) d = dead m ∧
    Forall (λ x, x.2 < USIZE_MAX) (waiting m).

Lemma sorted_app_cons l e k :
  StronglySorted before (l ++ e :: k) ↔
  StronglySorted before (l ++ k) ∧ Forall (λ x, before x e) l ∧ Forall (before e) k.
Proof.
  induction l as [|x l IH]; simpl.
  - split; [intros [? ?]%StronglySorted_inv; by split_and!|].
    intros (?&_&?). by constructor.
  - split.
    + intros [H1 H2]%StronglySorted_inv. apply IH in H1 as (Hlk&Hl&Hk).
      apply Forall_app in H2 as [Hx [He Hk']%Forall_cons].
      split_and!; [|by constructor|done]. constructor; [done|]. by apply Forall_app.
    + intros ([H1 H2]%StronglySorted_inv&[Hx Hl]%Forall_cons&Hk).
      apply Forall_app in H2 as [H2 H3]. constructor; [by apply IH|].
      apply Forall_app; split; [done|]. by constructor.
Qed.

(** Adding an entry. *)
Lemma split_xadd c d g old new fs i :
  stream_split c d g old new → top_id (stream_at (rc_queue_key c) d) < i →
  stream_split c (xadd (rc_queue_key c) fs i d) g old (new ++ [(i, fs)]).
Proof.
  intros [Hg He Hp Ho Hn Ht Hs] Hi. unfold xadd.
  split; rewrite ?stream_at_set_stream; simpl; try done.
  - by rewrite He, app_assoc.
  - apply Forall_app. split; [|constructor; [simpl; lia|done]].
    eapply Forall_impl; [exact Hn|]. simpl. intros e. lia.
  - lia.
  - rewrite app_assoc. apply sorted_app_cons. rewrite app_nil_r. split_and!; [done| |done].
    unfold before. simpl. apply Forall_app. split.
    + eapply Forall_impl; [exact Ho|]. simpl. intros e. lia.
    + eapply Forall_impl; [exact Hn|]. simpl. intros e. lia.
Qed.

Lemma represents_xadd c d m v i :
  represents c d m → top_id (stream_at (rc_queue_key c) d) < i →
  represents c
    (xadd (rc_queue_key c)
       (internal_to_stream_payload (InternalPayload.new v) (rc_payload_key c)) i d)
    (mkMqueue ((v, 0) :: waiting m) (pending m) (dead m)).
Proof.
  intros (g&old&new&Hsp&Hold&Hnew&Hd&Hsm) Hi. do 3 eexists.
  split_and!; [by apply split_xadd|done|..]; cbn [waiting pending dead].
  - rewrite reverse_cons. apply Forall2_app; [done|]. by repeat constructor.
  - rewrite <-Hd. by destruct (rc_dlq_config c).
  - by constructor.
Qed.

(** What becomes of the group when its first new entry is read. *)
Definition delivered (c : RedisConsumer) (d : db) (g : cgroup) (i : RedisApi.entry_id) : db :=
  set_stream (rc_queue_key c)
    (with_group (rc_consumer_group c) (mkCgroup i (pel g ++ [i])) (stream_at (rc_queue_key c) d)) d.

Lemma split_delivered c d g old e new :
  stream_split c d g old (e :: new) →
  stream_split c (delivered c d g e.1) (mkCgroup e.1 (pel g ++ [e.1])) (old ++ [e]) new.
Proof.
  intros [Hg He Hp Ho [Hn Hn']%Forall_cons Ht Hs].
  pose proof Hs as Hs'. apply sorted_app_cons in Hs' as (Hs1&_&Hb).
  split; unfold delivered; rewrite ?stream_at_set_stream; simpl.
  - by rewrite lookup_insert_eq.
  - by rewrite He, <-app_assoc.
  - by rewrite Hp, fmap_app.
  - apply Forall_app. split; [|by constructor].
    eapply Forall_impl; [exact Ho|]. simpl. intros x. lia.
  - rewrite Forall_forall in *. intros x Hx. split; [by apply Hb|]. by apply Hn'.
  - lia.
  - by rewrite <-app_assoc.
Qed.

(** Acking the entry read last. *)
Definition removed (c : RedisConsumer) (d : db) (i : RedisApi.entry_id) : db :=
  xdel (rc_queue_key c) [i] (xack (rc_queue_key c) (rc_consumer_group c) [i] d).

Lemma split_removed c d g old e new :
  stream_split c d g (old ++ [e]) new →
  stream_split c (removed c d e.1)
    (mkCgroup (last_delivered g) (filter (λ i, i ∉ [e.1]) (pel g))) old new.
Proof.
  intros [Hg He Hp Ho Hn Ht Hs]. pose proof Hs as Hs'.
  rewrite <-app_assoc in Hs'. simpl in Hs'. apply sorted_app_cons in Hs' as (Hs1&Hb&Ha).
  assert (stream_at (rc_queue_key c) (removed c d e.1) =
    mkStream (filter (λ x, x.1 ∉ [e.1]) ((old ++ [e]) ++ new)) (top_id (stream_at (rc_queue_key c) d))
      (<[rc_consumer_group c :=
           mkCgroup (last_delivered g) (filter (λ i, i ∉ [e.1]) (pel g))]>
         (groups (stream_at (rc_queue_key c) d)))) as Hst.
  { unfold removed, xdel, xack. rewrite Hg, !stream_at_set_stream. simpl. by rewrite He. }
  split; rewrite ?Hst; simpl.
  - by rewrite lookup_insert_eq.
  - rewrite !filter_app, (filter_cons_False _ e), filter_nil, app_nil_r by set_solver.
    rewrite !filter_all; [done|..]; unfold before in *;
      [eapply Forall_impl; [exact Ha|]|eapply Forall_impl; [exact Hb|]];
      simpl; intros x Hx Heq%list_elem_of_singleton; lia.
  - rewrite Hp, fmap_app, filter_app. simpl.
    rewrite (filter_cons_False _ e.1), filter_nil, app_nil_r by set_solver.
    apply filter_all, Forall_fmap. eapply Forall_impl; [exact Hb|]. unfold before. simpl.
    intros x Hx Heq%list_elem_of_singleton. lia.
  - by apply Forall_app in Ho as [? _].
  - done.
  - done.
  - done.
Qed.

(** ** On a server that may fail *)

(** What an entry holds: its payload, and nothing when it is malformed. *)
Definition entry_content (payload_key : string) (e : RedisApi.entry_id * list (string * bytes))
    : bytes :=
  match payload_of (read_entry e) payload_key with Ok p => p | Err _ => [] end.

(** Every message that the queue has, in the stream or given up. *)
Definition messages (q : key) (payload_key : string) (c : option DeadLetterQueueConfig) (d : db)
    : list bytes :=
  (entry_content payload_key <$> entries (stream_at q d)) ++ dlq_at c d.

(** The IDs of a stream are unique and not above its last one. *)
Definition wf_stream (s : stream) : Prop :=
  NoDup (entry_ids s) ∧ Forall (λ i, i <= top_id s) (entry_ids s).

Lemma entry_content_written payload_key id i :
  payload_key ≠ NUM_RECEIVES →
  entry_content payload_key (id, internal_to_stream_payload i payload_key) = payload i.
Proof.
  intros Hk. unfold entry_content, payload_of.
  by rewrite smap_written, lookup_insert_ne, lookup_insert_eq by done.
Qed.

Lemma parse_payload oc entry payload_key i :
  internal_from_stream oc entry payload_key = Done (Ok i) →
  payload_of entry payload_key = Ok (payload i).
Proof.
  unfold internal_from_stream, outcome_try, outcome_bind. intros H.
  split_matches; by simplify_eq/=.
Qed.

(** The entry of an ID. *)
Lemma xrange_one s e :
  wf_stream s → e ∈ entries s → filter (λ x, e.1 <= x.1 <= e.1) (entries s) = [e].
Proof.
  intros [Hnd _] He. unfold entry_ids in Hnd.
  apply list_elem_of_split in He as (l&k&He). rewrite He in *.
  rewrite fmap_app in Hnd. simpl in Hnd. apply NoDup_app in Hnd as (_&Hl&[Hk _]%NoDup_cons).
  rewrite filter_app, filter_cons_True by lia.
  rewrite !filter_none; [done|..]; apply Forall_forall; intros x Hx Heq;
    (assert (x.1 = e.1) as Hxe by lia).
  - apply Hk. rewrite <-Hxe. by apply list_elem_of_fmap_2.
  - apply (Hl x.1); [by apply list_elem_of_fmap_2|]. rewrite Hxe. by left.
Qed.

(** Adding entries by a pipeline, or the part of it that a faulty server has
    executed. *)
Lemma pipe_xadd_steps q adds d d' :
  wf_stream (stream_at q d) → pipe_steps (PXadd q <$> adds) d d' →
  ∃ news, news.*2 = adds ∧
    entries (stream_at q d') = entries (stream_at q d) ++ news ∧
    Forall (λ e, top_id (stream_at q d) < e.1) news ∧
    wf_stream (stream_at q d') ∧ lists d' = lists d ∧
    groups (stream_at q d') = groups (stream_at q d).
Proof.
  revert d. induction adds as [|fs adds IH]; intros d Hwf; simpl.
  { intros ->. exists []. by rewrite app_nil_r. }
  intros (d1&(i&Hi&->)&Hsteps). pose proof Hwf as [Hnd Hle].
  assert (stream_at q (xadd q fs i d) =
    mkStream (entries (stream_at q d) ++ [(i, fs)]) i (groups (stream_at q d))) as Hst.
  { unfold xadd. by rewrite stream_at_set_stream. }
  apply IH in Hsteps as (news&Hn&He&Hb&Hwf'&Hl&Hg).
  - rewrite Hst in *. simpl in *. exists ((i, fs) :: news).
    split_and!; simpl; [by f_equal|by rewrite He, <-app_assoc| |done|done|done].
    constructor; [done|]. eapply Forall_impl; [exact Hb|]. simpl. intros e. lia.
  - rewrite Hst. unfold wf_stream, entry_ids in *. simpl. rewrite fmap_app. simpl.
    rewrite Forall_forall in Hle. split.
    + apply NoDup_app. split_and!; [done| |apply NoDup_singleton].
      intros x Hx ->%list_elem_of_singleton. apply Hle in Hx. lia.
    + apply Forall_app. split; [|by repeat constructor]. apply Forall_forall.
      intros x Hx%Hle. lia.
Qed.

Lemma take_fmap_adds q adds n : take n (PXadd q <$> adds) = PXadd q <$> take n adds.
Proof. by rewrite fmap_take. Qed.

(** Acking and deleting entries. *)
Lemma entries_xack q gn ids d : entries (stream_at q (xack q gn ids d)) = entries (stream_at q d).
Proof.
  unfold xack. destruct (groups _ !! gn); [|done]. by rewrite stream_at_set_stream.
Qed.
Lemma top_id_xack q gn ids d : top_id (stream_at q (xack q gn ids d)) = top_id (stream_at q d).
Proof.
  unfold xack. destruct (groups _ !! gn); [|done]. by rewrite stream_at_set_stream.
Qed.
Lemma lists_xack q gn ids d : lists (xack q gn ids d) = lists d.
Proof. unfold xack. by destruct (groups _ !! gn). Qed.
Lemma entries_xdel q ids d :
  entries (stream_at q (xdel q ids d)) = filter (λ e, e.1 ∉ ids) (entries (stream_at q d)).
Proof. unfold xdel. by rewrite stream_at_set_stream. Qed.

(** What stays of a stream when the entries [find_entries chosen] of it are
    deleted after others have been added. *)
Lemma delete_claimed chosen s news payload_key :
  wf_stream s → Forall (λ e, top_id s < e.1) news →
  let ids := (find_entries chosen s).*1 in
  entry_content payload_key <$> (entries s ++ news) ≡ₚ
    (entry_content payload_key <$> find_entries chosen s) ++
    (entry_content payload_key <$> filter (λ e, e.1 ∉ ids) (entries s ++ news)).
Proof.
  intros [_ Hle] Hnews ids. rewrite filter_app, (filter_all _ news).
  2:{ eapply Forall_impl; [exact Hnews|]. simpl. intros e He Hin.
      apply list_elem_of_fmap in Hin as (e'&Heq&Hin). apply list_elem_of_filter in Hin as [_ Hin].
      rewrite Forall_forall in Hle. specialize (Hle e'.1).
      unfold entry_ids in Hle. rewrite Heq in He. specialize (Hle ltac:(by apply list_elem_of_fmap_2)).
      lia. }
  assert (filter (λ e, e.1 ∉ ids) (entries s) = filter (λ e, ¬ e.1 ∈ chosen) (entries s)) as ->.
  { apply filter_same, Forall_forall. intros e He. unfold ids. split.
    - intros Hn Hin. apply Hn. apply list_elem_of_fmap_2. by apply list_elem_of_filter.
    - intros Hn Hin. apply list_elem_of_fmap in Hin as (e'&Heq&Hin).
      apply list_elem_of_filter in Hin as [Hin _]. apply Hn. by rewrite Heq. }
  rewrite <-fmap_app, app_assoc. unfold find_entries. by rewrite filter_app_complement.
Qed.

Definition given_up (c : DeadLetterQueueConfig) (p : bytes) (d : db) : db :=
  set_list (dlq_queue_key c) (list_at (dlq_queue_key c) d ++ [p]) d.

Lemma dlq_at_given_up c p d : dlq_at (Some c) (given_up c p d) = dlq_at (Some c) d ++ [p].
Proof. unfold given_up. simpl. by rewrite list_at_set_list. Qed.

Section specs.
Context (oc faulty : bool) {S : Type} (h : handler redisE S) (view : S → db)
  `{!Lawful (redis_doc faulty) h view}.

Abbreviation wpr := (wp (redis_doc faulty)).

Lemma wp_streams_send_to_dlq q c e p payload_key d (Q : db → Result unit → Prop) :
  filter (λ x, e.1 <= x.1 <= e.1) (entries (stream_at q d)) = [e] →
  payload_of (read_entry e) payload_key = Ok p →
  Q (given_up c p d) (Ok tt) →
  (∀ err, faulty = true → Q d (Err err)) →
  (∀ err, faulty = true → Q (given_up c p d) (Err err)) →
  wpr (send_to_dlq q c e.1 payload_key) d Q.
Proof.
  intros He Hp HQ Hlost Happlied. unfold send_to_dlq. apply wp_bind_ok, wp_pool_get; [|auto].
  apply wp_bind_ok. eapply (wp_command _ (Xrange _ _ _)); [done|done|..]; cbv beta;
    [eauto| |auto|by intros d' y err Hf [-> _]; auto].
  rewrite He. intros d' y [-> ->]. cbn [fmap list_fmap head ok_or].
  apply wp_bind_ok, wp_Ret, wp_bind_ok. rewrite Hp.
  apply wp_Ret, wp_bind_ok, wp_pool_get; [|auto]. eapply wp_becomes; [done|done|auto..].
Qed.

Lemma wp_readd q payload_key c l pipe d :
  payload_key ≠ NUM_RECEIVES → wf_stream (stream_at q d) →
  Forall (λ e, e ∈ entries (stream_at q d) ∧
               internal_from_stream oc (read_entry e) payload_key ≠ Panics) l →
  wpr (readd oc q payload_key c (read_entry <$> l) pipe) d (λ d' r,
    streams d' = streams d ∧ dlq_at c d ⊆+ dlq_at c d' ∧
    ∀ pipe', r = Ok pipe' → ∃ adds, pipe' = pipe ++ (PXadd q <$> adds) ∧
      (entry_content payload_key <$> l) ++ dlq_at c d ≡ₚ
      ((λ fs, entry_content payload_key (0, fs)) <$> adds) ++ dlq_at c d').
Proof.
  intros Hk Hwf Hl. revert pipe d Hwf Hl. induction l as [|e l IH]; intros pipe d Hwf Hl.
  { simpl. split_and!; [done|done|]. intros pipe' [= <-]. exists []. by rewrite app_nil_r. }
  apply Forall_cons in Hl as [[He Hp] Hl]. cbn [fmap list_fmap readd].
  destruct (internal_from_stream oc (read_entry e) payload_key) as [[i|err]|] eqn:Hi; [| |done].
  2:{ simpl. split_and!; [done|done|]. by intros pipe' [=]. }
  pose proof (parse_payload _ _ _ _ Hi) as Hpay.
  assert (entry_content payload_key e = payload i) as Hc by (unfold entry_content; by rewrite Hpay).
  apply wp_bind_ok. cbn [lift]. apply wp_Ret.
  assert (wpr (readd oc q payload_key c (read_entry <$> l)
    (pipe ++ [PXadd q (internal_to_stream_payload i payload_key)])) d (λ d' r,
    streams d' = streams d ∧ dlq_at c d ⊆+ dlq_at c d' ∧
    ∀ pipe', r = Ok pipe' → ∃ adds, pipe' = pipe ++ (PXadd q <$> adds) ∧
      entry_content payload_key e :: (entry_content payload_key <$> l) ++ dlq_at c d ≡ₚ
      ((λ fs, entry_content payload_key (0, fs)) <$> adds) ++ dlq_at c d')) as Hadd.
  { eapply wp_mono; [by apply IH|]. intros d' r (Hs&Hd&Hr). split_and!; [done|done|].
    intros pipe' Heq. destruct (Hr pipe' Heq) as (adds&->&Hperm).
    exists (internal_to_stream_payload i payload_key :: adds). split; [by rewrite <-app_assoc|].
    cbn [fmap list_fmap app]. rewrite entry_content_written, Hc by done. by constructor. }
  destruct c as [dc|]; [|exact Hadd].
  destruct (max_receives dc <=? num_receives i); [|exact Hadd].
  assert (∀ (err : QueueError) pipe', Err err = Ok pipe' → ∃ adds,
      pipe' = pipe ++ (PXadd q <$> adds) ∧
      entry_content payload_key e :: (entry_content payload_key <$> l) ++ dlq_at (Some dc) d ≡ₚ
      ((λ fs, entry_content payload_key (0, fs)) <$> adds) ++ dlq_at (Some dc) d) as Hno by done.
  apply wp_bind_ok.
  eapply (wp_streams_send_to_dlq q dc e); [by apply xrange_one|exact Hpay|..].
  - eapply wp_mono; [by apply IH|]. intros d' r (Hs&Hd&Hr). split_and!; [done| |].
    + rewrite <-Hd, dlq_at_given_up. by apply submseteq_inserts_r.
    + intros pipe' Heq. destruct (Hr pipe' Heq) as (adds&->&Hperm). exists adds.
      split; [done|]. rewrite <-Hperm, dlq_at_given_up, Hc, app_assoc.
      by rewrite <-Permutation_cons_append.
  - intros err Hf. split_and!; [done|done|]. by intros pipe' [=].
  - intros err Hf. split_and!; [done| |by intros pipe' [=]].
    rewrite dlq_at_given_up. by apply submseteq_inserts_r.
Qed.

(** No message is lost, and there are no new ones after success. *)
Definition kept q payload_key c (r : Result unit) (d d' : db) : Prop :=
  messages q payload_key c d ⊆+ messages q payload_key c d' ∧
  (r = Ok tt → messages q payload_key c d ≡ₚ messages q payload_key c d').

Lemma kept_error q payload_key c err d d' :
  (∃ news, entries (stream_at q d') = entries (stream_at q d) ++ news) →
  dlq_at c d ⊆+ dlq_at c d' → kept q payload_key c (Err err) d d'.
Proof.
  intros [news Hs] Hd. split; [|done]. unfold messages. rewrite Hs, fmap_app, <-app_assoc.
  apply submseteq_skips_l. rewrite Hd. by apply submseteq_inserts_l.
Qed.

Lemma dlq_at_lists c d d' : lists d' = lists d → dlq_at c d' = dlq_at c d.
Proof. unfold dlq_at, list_at. by intros ->. Qed.

(** What a round does with the entries that it has claimed, when the state
    [d] is that from before the claim. *)
Definition move q gn payload_key c (claimed : list StreamId) : prog redisE (Result unit) :=
  let? pipe := readd oc q payload_key c claimed [] in
  let? _ := pipeline pipe in
  pipeline [PXack q gn (sid <$> claimed); PXdel q (sid <$> claimed)].

(** Deleting the claimed entries, once [news] has been added for them. *)
Lemma deleted_messages q gn payload_key c chosen adds news d d3 :
  let claimed := find_entries chosen (stream_at q d) in
  wf_stream (stream_at q d) → Forall (λ e, top_id (stream_at q d) < e.1) news →
  news.*2 = adds → entries (stream_at q d3) = entries (stream_at q d) ++ news →
  (entry_content payload_key <$> claimed) ++ dlq_at c d ≡ₚ
    ((λ fs, entry_content payload_key (0, fs)) <$> adds) ++ dlq_at c d3 →
  messages q payload_key c d ≡ₚ
    messages q payload_key c (xdel q claimed.*1 (xack q gn claimed.*1 d3)).
Proof.
  intros claimed Hwf Hb Hn He3 Hperm. unfold messages. rewrite entries_xdel, entries_xack, He3.
  rewrite (dlq_at_lists c d3 (xdel _ _ _)) by apply lists_xack.
  pose proof (delete_claimed chosen _ _ payload_key Hwf Hb) as Hdel. rewrite fmap_app in Hdel.
  assert ((λ fs, entry_content payload_key (0, fs)) <$> adds =
          entry_content payload_key <$> news) as Hx.
  { rewrite <-Hn, <-list_fmap_compose. by apply list_fmap_ext. }
  rewrite Hx in Hperm. by eapply Permutation_exchange.
Qed.

Lemma wp_move q gn payload_key c chosen d d1 :
  let claimed := find_entries chosen (stream_at q d) in
  payload_key ≠ NUM_RECEIVES → wf_stream (stream_at q d) →
  Forall (λ e, internal_from_stream oc (read_entry e) payload_key ≠ Panics)
    (entries (stream_at q d)) →
  entries (stream_at q d1) = entries (stream_at q d) →
  top_id (stream_at q d1) = top_id (stream_at q d) → lists d1 = lists d →
  wpr (move q gn payload_key c (read_entry <$> claimed)) d1
    (λ d' r, kept q payload_key c r d d').
Proof.
  intros claimed Hk Hwf Hp He Ht Hl. unfold move.
  assert (wf_stream (stream_at q d1)) as Hwf1.
  { unfold wf_stream, entry_ids in *. by rewrite He, Ht. }
  apply wp_bind_ok. eapply wp_mono.
  { apply wp_readd; [done|done|]. rewrite Forall_forall in Hp. apply Forall_forall.
    intros e Hin. apply list_elem_of_filter in Hin as [_ Hin]. rewrite He. auto. }
  intros d2 r (Hs2&Hd2&Hr).
  assert (stream_at q d2 = stream_at q d1) as Hst2 by (unfold stream_at; by rewrite Hs2).
  rewrite (dlq_at_lists c _ _ Hl) in Hd2, Hr.
  destruct r as [pipe|err].
  2:{ apply kept_error; [exists []; by rewrite app_nil_r, Hst2, He|done]. }
  destruct (Hr pipe eq_refl) as (adds&->&Hperm). cbn [app].
  assert (∀ n d3, pipe_steps (PXadd q <$> take n adds) d2 d3 →
    ∃ news, news.*2 = take n adds ∧ entries (stream_at q d3) = entries (stream_at q d) ++ news ∧
      Forall (λ e, top_id (stream_at q d) < e.1) news ∧ dlq_at c d3 = dlq_at c d2) as Hadds.
  { intros n d3 Hsteps. apply pipe_xadd_steps in Hsteps as (news&Hn&He3&Hb&_&Hl3&_);
      [|by rewrite Hst2]. rewrite Hst2, ?He, ?Ht in *.
    exists news. by rewrite (dlq_at_lists c d2 d3). }
  apply wp_bind_ok, wp_pipeline.
  2:{ intros d3 err n Hf. rewrite take_fmap_adds.
      intros (news&_&He3&_&Hd3)%Hadds. apply kept_error; [by exists news|by rewrite Hd3]. }
  intros d3 Hsteps. destruct (Hadds (length adds) d3) as (news&Hn&He3&Hb&Hd3).
  { by rewrite firstn_all. }
  rewrite firstn_all in Hn.
  assert (sid <$> (read_entry <$> claimed) = claimed.*1) as ->.
  { rewrite <-list_fmap_compose. by apply list_fmap_ext. }
  pose proof (deleted_messages q gn payload_key c chosen adds news d d3 Hwf Hb Hn He3) as Hdone.
  rewrite Hd3 in Hdone. specialize (Hdone Hperm).
  apply wp_pipeline.
  - intros d4 (?&->&?&->&->). split; [by rewrite Hdone|done].
  - intros d4 err n Hf. destruct n as [|[|n]]; cbn [take pipe_steps].
    + intros ->. apply kept_error; [by exists news|by rewrite Hd3].
    + intros (?&->&->). apply kept_error; [exists news; by rewrite entries_xack|].
      rewrite (dlq_at_lists c d3 (xack _ _ _ _)) by apply lists_xack. by rewrite Hd3.
    + rewrite firstn_nil. intros (?&->&?&->&->). split; [by rewrite Hdone|done].
Qed.

(** C15: the background task of the stream loses no message: whatever a
    faulty server does in a round, the messages that the stream and the
    dead-letter queue held between them are still there after it, and when
    the round succeeds there are no new ones. *)
Theorem streams_reenqueue_conserves q gn cn deadline payload_key c s g :
  payload_key ≠ NUM_RECEIVES →
  groups (stream_at q (view s)) !! gn = Some g →
  wf_stream (stream_at q (view s)) →
  Forall (λ e, internal_from_stream oc (read_entry e) payload_key ≠ Panics)
    (entries (stream_at q (view s))) →
  returns h view (reenqueue_timed_out_messages oc q gn cn deadline payload_key c) s (λ d r,
    messages q payload_key c (view s) ⊆+ messages q payload_key c d ∧
    (r = Ok tt → messages q payload_key c (view s) ≡ₚ messages q payload_key c d)).
Proof.
  intros Hk Hg Hwf Hp. start_wp. intros d Hg Hwf Hp. fold (kept q payload_key c).
  change (wpr (reenqueue_timed_out_messages oc q gn cn deadline payload_key c) d
    (λ d' r, kept q payload_key c r d d')).
  assert (∀ d' err, entries (stream_at q d') = entries (stream_at q d) → lists d' = lists d →
    kept q payload_key c (Err err) d d') as Herr.
  { intros d' err Hs Hl. apply kept_error; [exists []; by rewrite app_nil_r|].
    by rewrite (dlq_at_lists c _ _ Hl). }
  unfold reenqueue_timed_out_messages. apply wp_bind_ok, wp_pool_get; [|by eauto].
  apply wp_bind_ok. eapply (wp_command _ (Xautoclaim _ _ _ _ _)); [done|done|..]; cbv beta.
  { do 2 eexists. exists g, (pel g), []. rewrite find_entries_nil.
    split_and!; done || (simpl; lia) || set_solver. }
  2:{ by eauto. }
  2:{ intros d' y err Hf (g'&pel'&chosen&_&_&_&_&_&_&->). apply Herr; [|done].
      by rewrite stream_at_set_stream. }
  intros d1 ids (g'&pel'&chosen&_&_&_&_&->&_&Hd1).
  assert (wpr (move q gn payload_key c (read_entry <$> find_entries chosen (stream_at q d))) d1
    (λ d' r, kept q payload_key c r d d')) as Hmove.
  { apply wp_move; [done|done|done|..]; by rewrite Hd1, ?stream_at_set_stream. }
  destruct (find_entries chosen (stream_at q d)) as [|e l]; [|exact Hmove].
  simpl. apply wp_bind, wp_call. split; [done|]. intros d' x ->. rewrite Hd1. apply wp_Ret.
  unfold kept, messages. rewrite stream_at_set_stream.
  by destruct c.
Qed.
End specs.

Section reliable.
Context (oc : bool) {S : Type} (h : handler redisE S) (view : S → db)
  `{!Lawful (redis_doc false) h view}.

Abbreviation wpr := (wp (redis_doc false)).

Lemma streams_holds_parse payload_key e p n :
  payload_key ≠ NUM_RECEIVES → n < USIZE_MAX → holds payload_key e (p, n) →
  internal_from_stream oc (read_entry e) payload_key = Done (Ok (mkInternalPayload p (n + 1))) ∧
  payload_of (read_entry e) payload_key = Ok p.
Proof.
  destruct e as [i fs]. unfold holds. simpl. intros Hk Hn ->. split.
  - rewrite stream_entry_parse by done. by rewrite decide_False.
  - unfold payload_of. rewrite smap_written, lookup_insert_ne, lookup_insert_eq by done. done.
Qed.

Lemma wp_streams_ack a d (Q : db → RedisStreamsAcker * Result unit → Prop) :
  already_acked_or_nacked a = false →
  Q (xdel (queue_key a) [entry_id a] (xack (queue_key a) (consumer_group a) [entry_id a] d))
    (set_acked a, Ok tt) →
  wpr (ack a) d Q.
Proof.
  intros Ha HQ. unfold ack. rewrite Ha. apply wp_bind, wp_bind_ok, wp_pool_get; [|done].
  apply wp_pipeline; [|done]. intros d' (?&->&?&->&->). done.
Qed.

(** Settling what has just been received. *)
(** Removing the delivered entry [e] settles its message. *)
Lemma removed_represents c g old e new verdict p n w pend dd d d1 :
  let m := settle_abs (rc_dlq_config c) verdict p n (mkMqueue w pend dd) in
  stream_split c d g (old ++ [e]) new →
  Forall2 (holds (rc_payload_key c)) old (reverse pend) →
  Forall2 (holds (rc_payload_key c)) new (reverse w) → Forall (λ x, x.2 < USIZE_MAX) w →
  streams d1 = streams d → dlq_at (rc_dlq_config c) d1 = dead m →
  (verdict = OpAck ∨ exhausted (rc_dlq_config c) (n + 1) ≠ None) →
  represents c (removed c d1 e.1) m.
Proof.
  intros m Hsp Hold Hnew Hs Hd1 Hdlq Hv. subst m.
  assert (stream_split c d1 g (old ++ [e]) new) as Hsp1.
  { assert (stream_at (rc_queue_key c) d1 = stream_at (rc_queue_key c) d) as Heq.
    { unfold stream_at. by rewrite Hd1. }
    destruct Hsp. split; by rewrite ?Heq. }
  apply split_removed in Hsp1.
  assert (dlq_at (rc_dlq_config c) (removed c d1 e.1) = dlq_at (rc_dlq_config c) d1) as Hdl.
  { unfold removed, xdel, xack. destruct (groups _ !! _); by destruct (rc_dlq_config c). }
  do 3 eexists. split_and!; [exact Hsp1|..]; try rewrite Hdl; try done;
    unfold settle_abs; (destruct verdict; [done|]);
    (destruct (exhausted _ _); [done|by destruct Hv as [|[]]]).
Qed.

Lemma wp_streams_settle c g old e new verdict p n w pend dd d :
  rc_payload_key c ≠ NUM_RECEIVES →
  stream_split c d g (old ++ [e]) new →
  holds (rc_payload_key c) e (p, n) → n < USIZE_MAX →
  Forall2 (holds (rc_payload_key c)) old (reverse pend) →
  Forall2 (holds (rc_payload_key c)) new (reverse w) →
  dlq_at (rc_dlq_config c) d = dd → Forall (λ x, x.2 < USIZE_MAX) w →
  wpr (delivery_settle verdict
         (internal_to_delivery (mkInternalPayload p (n + 1)) c e.1)) d
    (λ d' r, r = Ok tt ∧
       represents c d' (settle_abs (rc_dlq_config c) verdict p n (mkMqueue w pend dd))).
Proof.
  intros Hk Hsp He Hn Hold Hnew Hd Hs.
  assert (∀ d1, streams d1 = streams d → _ → _ → _) as Hrem
    by exact (λ d1, removed_represents c g old e new verdict p n w pend dd d d1 Hsp Hold Hnew Hs).
  unfold delivery_settle, Delivery.ack, Delivery.nack. destruct verdict; simpl;
    apply wp_bind, wp_bind, wp_bind, wp_bind.
  - apply wp_streams_ack; [done|]. split; [done|]. apply (Hrem d); [done|done|by left].
  - assert (exhausted (rc_dlq_config c) (n + 1) = None → represents c d
      (settle_abs (rc_dlq_config c) OpNack p n (mkMqueue w pend dd))) as Hstay.
    { intros Hx. unfold settle_abs. rewrite Hx. exists g, (old ++ [e]), new.
      split_and!; [done| |done..]. simpl. rewrite reverse_cons.
      apply Forall2_app; [done|]. by constructor. }
    unfold nack. cbn [acker_dlq_config acker_num_receives num_receives].
    destruct (rc_dlq_config c) as [dc|] eqn:Hdc; [|by split; [|apply Hstay]].
    unfold exhausted in *. destruct (max_retries_reached dc (n + 1)) eqn:Hm;
      [|unfold settle_abs, exhausted in Hstay; rewrite Hm in Hstay; by split; [|apply Hstay]].
    apply wp_bind. cbn [queue_key RedisStreams.entry_id payload_key].
    destruct (streams_holds_parse _ _ _ _ Hk Hn He) as [_ Hpay].
    eapply wp_streams_send_to_dlq; [|exact Hpay| |done..].
    + destruct Hsp as [_ Hent _ _ _ _ Hsort]. rewrite Hent.
      rewrite <-app_assoc in Hsort. simpl in Hsort.
      apply sorted_app_cons in Hsort as (_&Hb&Ha).
      rewrite !filter_app, filter_cons_True, filter_nil by lia.
      rewrite !filter_none; [done|..];
        [eapply Forall_impl; [exact Ha|]|eapply Forall_impl; [exact Hb|]];
        unfold before; simpl; intros x; lia.
    + apply wp_streams_ack; [done|]. split; [done|].
      unfold settle_abs, exhausted in Hrem. rewrite Hm in Hrem.
      apply (Hrem (set_list _ _ _)); [done| |by right].
      simpl. rewrite list_at_set_list. by rewrite <-Hd.
Qed.

#[local] Instance streams_queue p c :
  rp_queue_key p = rc_queue_key c → rp_payload_key p = rc_payload_key c →
  rc_payload_key c ≠ NUM_RECEIVES →
  RedisQueue (rc_dlq_config c) (send_raw p) (receive oc c) (represents c).
Proof.
  intros Hq Hpk Hk. split.
  - intros v d m Hrep. unfold send_raw. apply wp_bind_ok, wp_pool_get; [|done].
    rewrite Hq, Hpk. eapply (wp_command _ (Xadd _ _)); [done|done|..]; cbv beta.
    + do 2 eexists; [exact tt|]. exists (top_id (stream_at (rc_queue_key c) d) + 1).
      split; [lia|done].
    + intros d' [] (i&Hi&->). split; [done|]. by apply represents_xadd.
    + done.
    + done.
  - intros w v n pend dd d (g&old&new&Hsp&Hold&Hnew&Hd&Hs).
    cbn [waiting pending dead] in *. rewrite reverse_app, reverse_singleton in Hnew. simpl in Hnew.
    apply Forall2_cons_inv_r in Hnew as (e&new'&He&Hnew&->).
    apply Forall_app in Hs as [Hs [Hn _]%Forall_cons].
    destruct (streams_holds_parse _ _ _ _ Hk Hn He) as [Hparse _].
    assert (undelivered g (stream_at (rc_queue_key c) d) = e :: new') as Hun.
    { unfold undelivered. destruct Hsp as [_ Hent _ Ho Hnw _ _].
      rewrite Hent, filter_app, filter_none, filter_all; [done|..].
      - eapply Forall_impl; [exact Hnw|]. simpl. intros x. lia.
      - eapply Forall_impl; [exact Ho|]. simpl. intros x. lia. }
    pose proof (split_group _ _ _ _ _ Hsp) as Hg.
    unfold receive. apply wp_bind_ok, wp_pool_get; [|done]. apply wp_bind_ok.
    eapply (wp_command _ (XreadGroup _ _ _ _ _)); [done|by left|..]; cbv beta; [| |done|done].
    { do 2 eexists. exists g. split; [done|]. rewrite Hun. simpl. done. }
    intros d' y (g'&Hg'&Hr). rewrite Hg in Hg'. injection Hg' as <-. rewrite Hun in Hr.
    simpl in Hr. destruct Hr as [-> ->].
    apply wp_bind_ok, wp_Ret. apply wp_bind_ok, wp_Ret. apply wp_bind_ok.
    cbn [snd fmap list_fmap head ok_or]. rewrite Hparse. simpl.
    eexists. split; [done|]. split; [done|]. intros verdict.
    eapply wp_streams_settle; [done|by apply split_delivered|done..].
Qed.

(** C5: on a server that answers, the stream with its consumer group and the
    dead-letter queue implement the same abstract queue as the lists do:
    whatever sequence of sends and of receives settled by [ack] or [nack] a
    client performs, it gets the payloads that the abstract queue gives, in
    that order, provided the payload key is not [num_receives]. *)
Theorem streams_refine_mqueue p c ops s m outs m' :
  rp_queue_key p = rc_queue_key c → rp_payload_key p = rc_payload_key c →
  rc_payload_key c ≠ NUM_RECEIVES →
  represents c (view s) m →
  mqueue_run (rc_dlq_config c) ops m = Some (outs, m') →
  returns h view (client (send_raw p) (receive oc c) ops) s
    (λ d r, r = Ok (Some <$> outs) ∧ represents c d m').
Proof.
  intros Hp Hpk Hk Hrep Hrun. start_wp. intros d Hrep.
  pose proof (streams_queue p c Hp Hpk Hk). by eapply client_refines.
Qed.
End reliable.

(** ** Witnesses *)

(** A stream with one pending and one new entry. *)
Definition e1 : RedisApi.entry_id * list (string * bytes) :=
  (1, internal_to_stream_payload (mkInternalPayload (bstr "a") 4) "payload").
Definition e2 : RedisApi.entry_id * list (string * bytes) :=
  (2, internal_to_stream_payload (mkInternalPayload (bstr "b") 4) "payload").
Definition st0 : stream := mkStream [e1; e2] 2 {[ "g"%string := mkCgroup 1 [1] ]}.
Definition db0 : db := mkDb ∅ ∅ {[ "q"%string := st0 ]} ∅ ∅ 0%Z.
Definition s0 : server := mkServer db0 [Healthy; Healthy; Applied] 0%Z (bstr "k3").
Definition p0 : RedisProducer := mkRedisProducer "q" "d" "payload" true (Some (mkDlq "dlq" 5)).
Definition c0 : RedisConsumer :=
  mkRedisConsumer "q" "p" "g" "c" "payload" true (Some (mkDlq "dlq" 5)).

Lemma represents0 : represents c0 db0 (mkMqueue [(bstr "b", 4)] [(bstr "a", 4)] []).
Proof.
  exists (mkCgroup 1 [1]), [e1], [e2]. split_and!; [|by repeat constructor..].
  split; try done; repeat constructor; done.
Qed.

Lemma streams_refine_mqueue_witness :
  returns serve_healthy sdb
    (client (send_raw p0) (receive true c0) [ClientSend (bstr "x"); ClientReceive OpNack;
       ClientReceive OpAck]) s0
    (λ d r, r = Ok [Some (bstr "b"); Some (bstr "x")] ∧
       represents c0 d (mkMqueue [] [(bstr "a", 4)] [bstr "b"])).
Proof.
  apply (streams_refine_mqueue true serve_healthy sdb p0 c0 _ s0
    (mkMqueue [(bstr "b", 4)] [(bstr "a", 4)] []) [bstr "b"; bstr "x"]); try done.
  exact represents0.
Defined.

Lemma streams_reenqueue_conserves_witness :
  returns serve sdb (reenqueue_timed_out_messages true "q" "g" "c" 30000 "payload"
    (Some (mkDlq "dlq" 5))) s0
    (λ d _, [bstr "a"; bstr "b"] ⊆+ messages "q" "payload" (Some (mkDlq "dlq" 5)) d).
Proof.
  eapply returns_mono.
  - apply (streams_reenqueue_conserves true true serve sdb "q" "g" "c" 30000 "payload"
      (Some (mkDlq "dlq" 5)) s0 (mkCgroup 1 [1])); [done|done| |by repeat constructor].
    split; [by apply (bool_decide_unpack _)|repeat constructor; done].
  - intros d r [Hm _]. exact Hm.
Defined.
