(* ===== verification/RedisMain.v ===== *)
(** * The redis backend ([backends/redis/mod.rs])

    Builder, producer and consumer, which choose between the list and the
    stream implementation; delayed messages; redriving the dead-letter queue;
    the check of the eviction policy. *)
From S2P Require Import RedisFallback RedisStreams.
From S2P Require Import Prelude RustStd Effects Omniqueue Queue RedisCodec RedisApi RedisConfig.
From S2P Require Import RedisSpec.
Open Scope N_scope.

(** ** Time *)

Definition unix_timestamp (time : SystemTime) : result N StdError :=
  match duration_since_epoch time with
  | Some d => Ok (as_secs d)
  | None => Err (boxed systime_error)
  end.

(** ** Eviction policy *)

Inductive EvictionCheckError := CheckEvictionPolicyFailed | UnsafeEvictionPolicy.

Definition safe_policies : list string :=
  ["noeviction"; "volatile-lru"; "volatile-lfu"; "volatile-random"; "volatile-ttl"]%string.

Definition check_eviction_policy : prog redisE (result unit EvictionCheckError) :=
  let failed {Y} (r : result Y StdError) := map_err (λ _, CheckEvictionPolicyFailed) r in
  let* r := call PoolGet in
  let? _ := Ret (failed r) in
  let* r := call (ConfigGet "maxmemory-policy") in
  let? results := Ret (failed r) in
  let? eviction_policy := Ret (ok_or (results !! 1%nat) CheckEvictionPolicyFailed) in
  if bool_decide (eviction_policy ∈ safe_policies) then Ret (Ok tt)
  else Ret (Err UnsafeEvictionPolicy).

Section redis.
(** Whether the build has overflow checks, and [size_of::<Delivery>()]. *)
Variables (oc : bool) (delivery_size : N).

(** ** The producer *)

Definition send_raw (self : RedisProducer) (payload : bytes) : prog redisE (Result unit) :=
  if rp_use_redis_streams self then RedisStreams.send_raw self payload
  else RedisFallback.send_raw self payload.

Definition send_serde_json {V} `{Serialize V} (self : RedisProducer) (v : V)
    : prog redisE (Result unit) :=
  let? payload := Ret (map_err Serde (to_vec v)) in send_raw self payload.

Definition send_raw_scheduled (self : RedisProducer) (payload : bytes) (delay : Duration)
    : prog redisE (Result unit) :=
  let* now := call SystemTimeNow in
  let* due := lift (systime_add now delay) in
  let? timestamp := Ret (map_err QueueError.generic (unix_timestamp due)) in
  let? _ := pool_get in
  let* m := to_list_payload (InternalPayload.new payload) in
  command (Zadd (rp_delayed_queue_key self) m timestamp).

Definition send_serde_json_scheduled {V} `{Serialize V} (self : RedisProducer) (v : V)
    (delay : Duration) : prog redisE (Result unit) :=
  let? payload := Ret (map_err Serde (to_vec v)) in send_raw_scheduled self payload delay.

Definition add_to_main_queue (use_redis_streams : bool) (keys : list InternalPayload)
    (main_queue_name : key) (payload_key : string) : prog redisE (Result unit) :=
  if use_redis_streams then RedisStreams.add_to_main_queue keys main_queue_name payload_key
  else RedisFallback.add_to_main_queue keys main_queue_name.

(** [LRANGE dlq 0 BATCH_SIZE]: both ends are inclusive. *)
Definition BATCH_SIZE : Z := 50.

(** One round of the loop in [redrive_dlq]. *)
Definition redrive_round (self : RedisProducer) (dlq : key) (_ : unit)
    : prog redisE (unit + Result unit) :=
  let* r := (let? _ := pool_get in
             let? old_payloads := command (Lrange dlq 0 BATCH_SIZE) in
             match old_payloads with
             | [] => Ret (Ok false)
             | _ =>
                 let? _ := add_to_main_queue (rp_use_redis_streams self)
                             (InternalPayload.new <$> old_payloads) (rp_queue_key self)
                             (rp_payload_key self) in
                 let? _ := for_each (λ payload, command (Lrem dlq 1 payload)) old_payloads in
                 Ret (Ok true)
             end) in
  Ret match r with
      | Ok true => inl tt
      | Ok false => inr (Ok tt)
      | Err e => inr (Err e)
      end.

Definition redrive_dlq (fuel : nat) (self : RedisProducer) : prog redisE (Result unit) :=
  match rp_dlq_config self with
  | None => Ret (Err (Unsupported "Missing DeadLetterQueueConfig"))
  | Some c => loop fuel (redrive_round self (dlq_queue_key c)) tt
  end.

Definition redis_producer (fuel : nat) : QueueProducer redisE RedisProducer :=
  Delegate.producer send_raw (@send_serde_json) (redrive_dlq fuel).

Definition redis_scheduled (fuel : nat) :
    @ScheduledQueueProducer redisE RedisProducer (redis_producer fuel) :=
  @delegate_scheduled _ _ (redis_producer fuel) send_raw_scheduled (@send_serde_json_scheduled).

(** ** The consumer *)

Definition receive (self : RedisConsumer) : prog redisE (Result (Delivery redisE)) :=
  if rc_use_redis_streams self then RedisStreams.receive oc self
  else RedisFallback.receive oc self.

Definition receive_all (self : RedisConsumer) (max_messages : N) (deadline : Duration)
    : prog redisE (Result (list (Delivery redisE))) :=
  if rc_use_redis_streams self
  then RedisStreams.receive_all oc delivery_size self deadline max_messages
  else RedisFallback.receive_all oc self deadline max_messages.

Definition redis_consumer : QueueConsumer redisE RedisConsumer :=
  DelegateConsumer.consumer receive receive_all.

(** ** Delayed messages *)

(** What is done while the lock is held. *)
Definition move_due (main_queue_name delayed_queue_name delayed_lock : key)
    (payload_key : string) (use_redis_streams : bool) : prog redisE (Result unit) :=
  let* now := call SystemTimeNow in
  let* before := lift (systime_sub now (from_secs 1)) in
  let? timestamp := Ret (map_err QueueError.generic (unix_timestamp before)) in
  let? old_keys := command (ZrangebyscoreLimit delayed_queue_name 0 timestamp 0 BATCH_SIZE) in
  match old_keys with
  | _ :: _ =>
      let? new_keys := lift (outcome_collect (internal_from_list oc <$> old_keys)) in
      let? _ := add_to_main_queue use_redis_streams new_keys main_queue_name payload_key in
      let? _ := command (Zrem delayed_queue_name old_keys) in
      command (Del delayed_lock)
  | [] =>
      let? _ := command (Del delayed_lock) in
      let* _ := call (Sleep (from_millis 500)) in Ret (Ok tt)
  end.

Definition background_task_delayed (main_queue_name delayed_queue_name delayed_lock : key)
    (payload_key : string) (use_redis_streams : bool) : prog redisE (Result unit) :=
  let? _ := pool_get in
  let? resp := command (SetNxPx delayed_lock 5000) in
  if bool_decide (resp = Some "OK"%string) then
    move_due main_queue_name delayed_queue_name delayed_lock payload_key use_redis_streams
  else let* _ := call (Sleep (from_millis 500)) in Ret (Ok tt).

(** The endless loop around it, cut after [fuel] rounds. *)
Definition delayed_task (fuel : nat) (main_queue_name delayed_queue_name delayed_lock : key)
    (payload_key : string) (use_redis_streams : bool) : prog redisE (Result unit) :=
  loop fuel (λ _ : unit,
    let* r := background_task_delayed main_queue_name delayed_queue_name delayed_lock
                payload_key use_redis_streams in
    match r with
    | Err _ => let* _ := call (Sleep (from_millis 500)) in Ret (inl tt)
    | Ok _ => Ret (inl tt)
    end) tt.
End redis.

(** ** The builder *)

(** The connection managers: the type parameter [R] of the builder. *)
Inductive Manager := RedisConnectionManager | RedisClusterConnectionManager
| RedisSentinelConnectionManager.

(** What the sentinel manager is made from. *)
Record SentinelNode := mkSentinelNode {
  sn_service : string;
  sn_secure : option unit;
  sn_db : Z;
  sn_username : option string;
  sn_password : option string;
  sn_resp3 : bool;
}.

(** The tasks that the builder spawns, with what they are given. *)
Inductive BackgroundTask :=
| TaskDelayed (queue_key delayed_queue_key delayed_lock_key : key) (payload_key : string)
    (use_redis_streams : bool)
| TaskPending (queue_key : key) (consumer_group consumer_name : string) (ack_deadline_ms : Z)
    (payload_key : string) (dlq_config : option DeadLetterQueueConfig)
| TaskProcessing (queue_key processing_queue_key : key) (ack_deadline_ms : Z)
    (dlq_config : option DeadLetterQueueConfig)
| TaskEvictionPolicy.

Inductive buildE : Type → Type :=
| ManagerNew (r : Manager) (dsn : string) (node : option SentinelNode)
    : buildE (result unit StdError)
| PoolBuild (max_size : N) : buildE (result unit StdError)
| Spawn (t : BackgroundTask) : buildE unit.

(** The program that a spawned task runs. *)
Definition run_task (oc : bool) (fuel : nat) (t : BackgroundTask) : prog redisE (Result unit) :=
  match t with
  | TaskDelayed q dq lock pk streams => delayed_task oc fuel q dq lock pk streams
  | TaskPending q g n ms pk dlq => RedisStreams.background_task_pending oc fuel q g n ms pk dlq
  | TaskProcessing q pq ms dlq => RedisFallback.background_task_processing oc fuel q pq ms dlq
  | TaskEvictionPolicy => let* _ := check_eviction_policy in Ret (Ok tt)
  end.

(** [R::from_config] *)
Definition from_config (r : Manager) (config : RedisConfig) : prog buildE (Result unit) :=
  let generic {Y} (p : prog buildE (result Y StdError)) :=
    let* x := p in Ret (map_err QueueError.generic x) in
  match r with
  | RedisSentinelConnectionManager =>
      let? cfg := Ret (ok_or (sentinel_config config)
                         (Unsupported "Missing sentinel configuration")) in
      let tls_mode := if redis_tls_mode_secure cfg then Some tt else None in
      generic (call (ManagerNew r (dsn config) (Some
        (mkSentinelNode (service_name cfg) tls_mode (default 0%Z (redis_db cfg))
           (redis_username cfg) (redis_password cfg) (redis_use_resp3 cfg)))))
  | _ => generic (call (ManagerNew r (dsn config) None))
  end.

Record RedisBackendBuilder := mkBuilder {
  config : RedisConfig;
  use_redis_streams : bool;
  processing_queue_key : option key;
}.

Module Builder.
Definition new (config : RedisConfig) : RedisBackendBuilder := mkBuilder config true None.

(** [RedisBackend::builder], [cluster_builder], [sentinel_builder], with the
    connection manager that each fixes. *)
Definition builder (config : RedisConfig) : Manager * RedisBackendBuilder :=
  (RedisConnectionManager, new config).
Definition cluster_builder (config : RedisConfig) : Manager * RedisBackendBuilder :=
  (RedisClusterConnectionManager, new config).
Definition sentinel_builder (config : RedisConfig) : Manager * RedisBackendBuilder :=
  (RedisSentinelConnectionManager, new config).

Definition map_phantom (self : RedisBackendBuilder) : RedisBackendBuilder :=
  mkBuilder (config self) (use_redis_streams self) (processing_queue_key self).

(** [connection_manager], [cluster]: only the type [R] changes. *)
Definition connection_manager (self : RedisBackendBuilder) : RedisBackendBuilder :=
  map_phantom self.

Definition with_use_redis_streams (self : RedisBackendBuilder) (value : bool)
    : RedisBackendBuilder :=
  mkBuilder (config self) value (processing_queue_key self).

Definition with_processing_queue_key (self : RedisBackendBuilder) (value : key)
    : RedisBackendBuilder :=
  mkBuilder (config self) (use_redis_streams self) (Some value).

Definition get_processing_queue_key (self : RedisBackendBuilder) : key :=
  default (cfg_queue_key (config self) +:+ "_processing") (processing_queue_key self).

Definition start_background_tasks (self : RedisBackendBuilder) : prog buildE unit :=
  let c := config self in
  let* _ :=
    if bool_decide (cfg_delayed_queue_key c = EmptyString) then Ret tt
    else call (Spawn (TaskDelayed (cfg_queue_key c) (cfg_delayed_queue_key c)
           (cfg_delayed_lock_key c) (cfg_payload_key c) (use_redis_streams self))) in
  let* _ :=
    if use_redis_streams self
    then call (Spawn (TaskPending (cfg_queue_key c) (cfg_consumer_group c)
           (cfg_consumer_name c) (cfg_ack_deadline_ms c) (cfg_payload_key c) (cfg_dlq_config c)))
    else call (Spawn (TaskProcessing (cfg_queue_key c) (get_processing_queue_key self)
           (cfg_ack_deadline_ms c) (cfg_dlq_config c))) in
  call (Spawn TaskEvictionPolicy).

(** The producer and the consumer that the three [build_*] make. *)
Definition producer_of (self : RedisBackendBuilder) : RedisProducer :=
  let c := config self in
  mkRedisProducer (cfg_queue_key c) (cfg_delayed_queue_key c) (cfg_payload_key c)
    (use_redis_streams self) (cfg_dlq_config c).
Definition consumer_of (self : RedisBackendBuilder) : RedisConsumer :=
  let c := config self in
  mkRedisConsumer (cfg_queue_key c) (get_processing_queue_key self) (cfg_consumer_group c)
    (cfg_consumer_name c) (cfg_payload_key c) (use_redis_streams self) (cfg_dlq_config c).

(** The pool, as the three [build_*] make it. *)
Definition build_pool (r : Manager) (self : RedisBackendBuilder) : prog buildE (Result unit) :=
  let? _ := from_config r (config self) in
  let* x := call (PoolBuild (max_connections (config self))) in
  Ret (map_err QueueError.generic x).

Definition build_pair (r : Manager) (self : RedisBackendBuilder)
    : prog buildE (Result (RedisProducer * RedisConsumer)) :=
  let? _ := build_pool r self in
  let* _ := start_background_tasks self in
  Ret (Ok (producer_of self, consumer_of self)).

Definition build_producer (r : Manager) (self : RedisBackendBuilder)
    : prog buildE (Result RedisProducer) :=
  let? _ := build_pool r self in
  let* _ := start_background_tasks self in
  Ret (Ok (producer_of self)).

Definition build_consumer (r : Manager) (self : RedisBackendBuilder)
    : prog buildE (Result RedisConsumer) :=
  let? _ := build_pool r self in
  let* _ := start_background_tasks self in
  Ret (Ok (consumer_of self)).

Definition make_dynamic (self : RedisBackendBuilder) : RedisBackendBuilder := map_phantom self.
End Builder.

(** [QueueBackend for RedisBackend] *)
Definition new_pair (r : Manager) (cfg : RedisConfig) := Builder.build_pair r (Builder.new cfg).
Definition producing_half (r : Manager) (cfg : RedisConfig) :=
  Builder.build_producer r (Builder.new cfg).
Definition consuming_half (r : Manager) (cfg : RedisConfig) :=
  Builder.build_consumer r (Builder.new cfg).

(** The builder with [S = Dynamic]. *)
Module DynBuilder.
Section dyn.
Variables (oc : bool) (delivery_size : N) (fuel : nat).

#[local] Existing Instance redis_producer.
#[local] Existing Instance redis_consumer.

Definition wrap_producer (p : RedisProducer) : DynProducer redisE :=
  @producer_into_dyn _ _ (redis_producer fuel) p.
Definition wrap_consumer (c : RedisConsumer) : DynConsumer redisE :=
  @consumer_into_dyn _ _ (redis_consumer oc delivery_size) c.

Definition build_pair (r : Manager) (self : RedisBackendBuilder)
    : prog buildE (Result (DynProducer redisE * DynConsumer redisE)) :=
  let? '(p, c) := new_pair r (config self) in
  Ret (Ok (wrap_producer p, wrap_consumer c)).

Definition build_producer (r : Manager) (self : RedisBackendBuilder)
    : prog buildE (Result (DynProducer redisE)) :=
  let? p := producing_half r (config self) in Ret (Ok (wrap_producer p)).

Definition build_consumer (r : Manager) (self : RedisBackendBuilder)
    : prog buildE (Result (DynConsumer redisE)) :=
  let? c := consuming_half r (config self) in Ret (Ok (wrap_consumer c)).
End dyn.
End DynBuilder.

(** *** Properties of the builder *)

Lemma build_pair_inv {S} (h : handler buildE S) r b s s' p c :
  run h (Builder.build_pair r b) s = Returned s' (Ok (p, c)) →
  p = Builder.producer_of b ∧ c = Builder.consumer_of b.
Proof.
  intros (s1&[]&_&Hr)%run_bind_ok_inv. apply run_bind_inv in Hr as (s2&[]&_&Hr). by simplify_eq/=.
Qed.

(** A pair that the static builder returns fits together, whatever the
    builder's settings and the server: producer and consumer use the same
    keys, the same payload key and the same implementation, the consumer's
    processing list is the configured one, and the task that re-enqueues
    what the consumer leaves unsettled watches the queue that it reads. *)
Theorem builder_pair_fits {S} (h : handler buildE S) r b s s' p c :
  run h (Builder.build_pair r b) s = Returned s' (Ok (p, c)) →
  rp_queue_key p = rc_queue_key c ∧ rp_payload_key p = rc_payload_key c ∧
  rp_use_redis_streams p = use_redis_streams b ∧ rc_use_redis_streams c = use_redis_streams b ∧
  rp_dlq_config p = rc_dlq_config c ∧
  rc_processing_queue_key c = Builder.get_processing_queue_key b ∧
  existT _ (Spawn (if use_redis_streams b
                   then TaskPending (rc_queue_key c) (rc_consumer_group c) (rc_consumer_name c)
                          (cfg_ack_deadline_ms (config b)) (rc_payload_key c) (rc_dlq_config c)
                   else TaskProcessing (rc_queue_key c) (rc_processing_queue_key c)
                          (cfg_ack_deadline_ms (config b)) (rc_dlq_config c)))
    ∈ calls h (Builder.build_pair r b) s.
Proof.
  intros Hr. pose proof Hr as [-> ->]%build_pair_inv. split_and!; [done..|].
  apply run_bind_ok_inv in Hr as (s1&[]&Hpool&Hr).
  apply run_bind_inv in Hr as (s2&[]&Htasks&_).
  unfold Builder.build_pair, bind_ok. rewrite calls_bind, Hpool, calls_bind.
  apply elem_of_app; right. apply elem_of_app; left. unfold Builder.start_background_tasks in *.
  apply run_bind_inv in Htasks as (s3&[]&Hdelayed&_). rewrite calls_bind, Hdelayed.
  apply elem_of_app; right. rewrite calls_bind. apply elem_of_app; left.
  destruct (use_redis_streams b); rewrite calls_call; by left.
Qed.

(** The dynamic builder does not keep the settings of the static one.  A
    dynamic pair always uses streams and the default processing list,
    whatever [use_redis_streams] and [processing_queue_key] were called with
    before [make_dynamic]. *)
Theorem dynamic_builder_drops_settings {S} oc delivery_size fuel (h : handler buildE S) r b s s' p c :
  run h (DynBuilder.build_pair oc delivery_size fuel r (Builder.make_dynamic b)) s =
    Returned s' (Ok (p, c)) →
  ∃ p' c', p = DynBuilder.wrap_producer fuel p' ∧
    c = DynBuilder.wrap_consumer oc delivery_size c' ∧
    rp_use_redis_streams p' = true ∧ rc_use_redis_streams c' = true ∧
    rc_processing_queue_key c' = cfg_queue_key (config b) +:+ "_processing".
Proof.
  intros (s1&[p' c']&Hr&Hret)%run_bind_ok_inv. apply build_pair_inv in Hr as [-> ->].
  simpl in Hret. simplify_eq. by do 2 eexists.
Qed.

(** ** What enters the main queue *)

(** The payloads [ms] have been added to the main queue, as messages that
    nobody has received, behind those that were there; nothing else in lists
    and streams has changed, the lists [ex] apart. *)
Definition added (ex : list key) (use_redis_streams : bool) (q : key) (payload_key : string)
    (ms : list bytes) (d d' : db) : Prop :=
  if use_redis_streams then
    (∀ k, k ∉ ex → list_at k d' = list_at k d) ∧
    (∀ k, k ≠ q → stream_at k d' = stream_at k d) ∧
    ∃ news, entries (stream_at q d') = entries (stream_at q d) ++ news ∧
      Forall2 (RedisStreams.holds payload_key) news ((λ m, (m, 0)) <$> ms)
  else
    (∀ k, stream_at k d' = stream_at k d) ∧
    (∀ k, k ≠ q → k ∉ ex → list_at k d' = list_at k d) ∧
    ∃ news, list_at q d' = reverse news ++ list_at q d ∧
      Forall2 RedisFallback.holds news ((λ m, (m, 0)) <$> ms).

Definition same_rest (d d' : db) : Prop :=
  zsets d' = zsets d ∧ locks d' = locks d ∧ read_clock d' = read_clock d.

Lemma added_nil ex streams q pk d d' :
  (streams = false → q ∉ ex) →
  (∀ k, k ∉ ex → list_at k d' = list_at k d) → (∀ k, stream_at k d' = stream_at k d) →
  added ex streams q pk [] d d'.
Proof.
  intros Hq Hl Hs. unfold added. destruct streams.
  - split_and!; [done|done|]. exists []. by rewrite app_nil_r, Hs.
  - split_and!; [done|auto|]. exists []. by rewrite Hl by auto.
Qed.

Lemma added_refl streams q pk d d' :
  lists d' = lists d → RedisApi.streams d' = RedisApi.streams d → added [] streams q pk [] d d'.
Proof.
  intros Hl Hs. apply added_nil.
  - intros _. apply not_elem_of_nil.
  - intros k _. unfold list_at. by rewrite Hl.
  - intros k. unfold stream_at. by rewrite Hs.
Qed.

Lemma added_app ex streams q pk ms1 ms2 d d1 d2 :
  added ex streams q pk ms1 d d1 → added ex streams q pk ms2 d1 d2 →
  added ex streams q pk (ms1 ++ ms2) d d2.
Proof.
  unfold added. destruct streams.
  - intros (Hl1&Hs1&n1&He1&Hn1) (Hl2&Hs2&n2&He2&Hn2). split_and!.
    + intros k Hk. by rewrite Hl2, Hl1.
    + intros k Hk. by rewrite Hs2, Hs1.
    + exists (n1 ++ n2). rewrite fmap_app. split; [by rewrite He2, He1, app_assoc|].
      by apply Forall2_app.
  - intros (Hs1&Hl1&n1&He1&Hn1) (Hs2&Hl2&n2&He2&Hn2). split_and!.
    + intros k. by rewrite Hs2, Hs1.
    + intros k Hk Hex. by rewrite Hl2, Hl1.
    + exists (n1 ++ n2). rewrite fmap_app, reverse_app. split; [by rewrite He2, He1, app_assoc|].
      by apply Forall2_app.
Qed.

(** What happens to the lists [ex] afterwards does not matter. *)
Lemma added_then ex streams q pk ms d d1 d2 :
  (streams = false → q ∉ ex) →
  added ex streams q pk ms d d1 →
  (∀ k, k ∉ ex → list_at k d2 = list_at k d1) → (∀ k, stream_at k d2 = stream_at k d1) →
  added ex streams q pk ms d d2.
Proof.
  intros Hq Ha Hl Hs. rewrite <-(app_nil_r ms). eapply added_app; [exact Ha|].
  by apply added_nil.
Qed.

Lemma added_weaken ex streams q pk ms d d' :
  added [] streams q pk ms d d' → added ex streams q pk ms d d'.
Proof.
  unfold added. destruct streams; intros (H1&H2&H3); split_and!; try done.
  - intros k _. apply H1, not_elem_of_nil.
  - intros k Hk _. apply H2; [done|]. apply not_elem_of_nil.
Qed.

Lemma pipe_xadds q pk ms d d' :
  pipe_steps ((λ m, PXadd q (internal_to_stream_payload (InternalPayload.new m) pk)) <$> ms) d d' →
  added [] true q pk ms d d' ∧ same_rest d d'.
Proof.
  revert d. induction ms as [|m ms IH]; intros d; simpl.
  - intros ->. split; [exact (added_refl true q pk d d eq_refl eq_refl)|done].
  - intros (d1&(i&Hi&->)&Hsteps). apply IH in Hsteps as [Ha Hr]. split; [|exact Hr].
    refine (added_app [] true q pk [m] ms d _ d' _ Ha). unfold added, xadd. split_and!; [done| |].
    + intros k Hk. by apply stream_at_set_stream_ne.
    + rewrite stream_at_set_stream. simpl. eexists. split; [done|]. by repeat constructor.
Qed.

Section specs.
Context (oc faulty : bool) {S : Type} (h : handler redisE S) (view : S → db)
  `{!Lawful (redis_doc faulty) h view}.

Abbreviation wpr := (wp (redis_doc faulty)).

Lemma wp_to_list_payloads ps d (Q : db → list bytes → Prop) :
  (∀ i ms, Forall2 RedisFallback.holds ms ((λ m, (m, 0)) <$> ps) → Q (set_issued i d) ms) →
  wpr (to_list_payloads ps) d Q.
Proof.
  revert d Q. induction ps as [|p ps IH]; intros d Q HQ.
  - simpl. replace d with (set_issued (issued d) d) by (by destruct d). by apply HQ.
  - cbn [to_list_payloads]. apply wp_bind, wp_to_list_payload. intros id Hid _.
    apply wp_bind, IH. intros i ms Hms. apply wp_Ret. apply (HQ i). simpl.
    constructor; [|done]. by apply RedisFallback.holds_written.
Qed.

Lemma wp_add_to_main_queue use_streams keys q pk d (Q : db → Result unit → Prop) :
  (∀ d', added [] use_streams q pk (payload <$> keys) d d' → same_rest d d' → Q d' (Ok tt)) →
  (∀ d' err ms, faulty = true → ms `prefix_of` (payload <$> keys) →
     added [] use_streams q pk ms d d' → same_rest d d' → Q d' (Err err)) →
  wpr (add_to_main_queue use_streams keys q pk) d Q.
Proof.
  intros Hok Herr. unfold add_to_main_queue. destruct use_streams.
  - unfold RedisStreams.add_to_main_queue.
    replace ((λ i, PXadd q (internal_to_stream_payload (InternalPayload.new (payload i)) pk)) <$> keys)
      with ((λ m, PXadd q (internal_to_stream_payload (InternalPayload.new m) pk)) <$>
            (payload <$> keys)) by (by rewrite <-list_fmap_compose).
    apply wp_pipeline.
    + intros d' [Ha Hr]%pipe_xadds. by apply Hok.
    + intros d' err n Hf. rewrite <-fmap_take. intros [Ha Hr]%pipe_xadds.
      eapply Herr; [done| |done|done]. apply prefix_take.
  - unfold RedisFallback.add_to_main_queue. apply wp_bind, wp_to_list_payloads.
    intros i ms Hms.
    assert (added [] false q pk (payload <$> keys) d
      (set_list q (reverse ms ++ list_at q (set_issued i d)) (set_issued i d))) as Ha.
    { unfold added. split_and!; [done| |].
      - intros k Hk _. by rewrite list_at_set_list_ne.
      - exists ms. by rewrite list_at_set_list. }
    eapply wp_becomes; [done|done|..].
    + by apply Hok.
    + intros err Hf. apply (Herr _ _ []); [done|apply prefix_nil| |done].
      by apply added_refl.
    + intros err Hf. by apply (Herr _ _ (payload <$> keys)).
Qed.

Lemma wp_now d (Q : db → SystemTime → Prop) :
  (∀ t, clock_sane t = true → Q (set_clock t d) t) → wpr (call SystemTimeNow) d Q.
Proof. intros HQ. apply wp_call. split; [done|]. intros d' t [Ht ->]. by apply HQ. Qed.

(** One second before a sane clock can be represented. *)
Lemma sane_sub t : clock_sane t = true → systime_sub t (from_secs 1) = Done (t - 1000000000)%Z.
Proof.
  unfold clock_sane, systime_sub, systime_in_range. intros Ht. bool_prop.
  change (Z.of_N (as_nanos (from_secs 1))) with 1000000000%Z.
  set (u := (t - 1000000000)%Z).
  assert (- 2 ^ 63 <= u / 1000000000)%Z by (apply Z.div_le_lower_bound; lia).
  assert (u / 1000000000 < 2 ^ 63)%Z by (apply Z.div_lt_upper_bound; lia).
  replace (- 2 ^ 63 <=? u / 1000000000)%Z with true by (symmetry; apply Z.leb_le; lia).
  by replace (u / 1000000000 <? 2 ^ 63)%Z with true by (symmetry; apply Z.ltb_lt; lia).
Qed.

Lemma unix_timestamp_Ok t sc :
  unix_timestamp t = Ok sc → (0 <= t)%Z ∧ Z.of_N sc = (t / 1000000000)%Z.
Proof.
  unfold unix_timestamp, duration_since_epoch, as_secs.
  destruct (Z.ltb_spec t 0); [done|]. intros [= <-]. cbn [secs].
  rewrite Z2N.id; [done|]. by apply Z.div_pos.
Qed.

(** The score limit of a round excludes every message not yet due. *)
Lemma due_before now sc ts t :
  unix_timestamp (now - 1000000000) = Ok ts → sc <= ts → unix_timestamp t = Ok sc → (t <= now)%Z.
Proof.
  intros [_ Hts]%unix_timestamp_Ok Hle [_ Hsc]%unix_timestamp_Ok.
  pose proof (Z.mul_div_le (now - 1000000000) 1000000000).
  pose proof (Z.mod_pos_bound t 1000000000). pose proof (Z.div_mod t 1000000000). lia.
Qed.

Lemma collect_contents old iis :
  outcome_collect (internal_from_list oc <$> old) = Done (Ok iis) →
  payload <$> iis = RedisFallback.content <$> old.
Proof.
  intros H. apply outcome_collect_Ok in H.
  induction H as [|raw i old iis Hraw _ IH]; [done|]. cbn [fmap list_fmap].
  apply RedisFallback.parse_content in Hraw as [-> _]. by f_equal.
Qed.

Lemma collect_total l :
  Forall (λ m, internal_from_list oc m ≠ Panics) l →
  ∃ r, outcome_collect (internal_from_list oc <$> l) = Done r.
Proof.
  induction 1 as [|m l Hm _ [r IH]]; [eauto|]. cbn [fmap list_fmap outcome_collect].
  destruct (internal_from_list oc m) as [[i|e]|]; cbn [outcome_try]; [|eauto|done].
  rewrite IH. destruct r; cbn [outcome_try]; eauto.
Qed.

(** What a round under the lock may leave behind: [due] is what it has
    taken from the delayed set, [z] what that holds after it. *)
Inductive move_result streams q dq lock pk (d d' : db) : Result unit → Prop :=
| move_moved due ts :
    unix_timestamp (read_clock d' - 1000000000) = Ok ts →
    zrange_result (zset_at dq d) 0 ts 50 due →
    added [] streams q pk (RedisFallback.content <$> due) d d' →
    zset_at dq d' = foldr delete (zset_at dq d) due →
    locks d' = locks d ∖ {[lock]} →
    move_result streams q dq lock pk d d' (Ok tt)
| move_failed e ms :
    added [] streams q pk ms d d' → zset_at dq d' = zset_at dq d → locks d' = locks d →
    (faulty = false → ms = [] ∧
       ((∃ err, unix_timestamp (read_clock d' - 1000000000) = Err err) ∨
        ∃ ts due err, unix_timestamp (read_clock d' - 1000000000) = Ok ts ∧
          zrange_result (zset_at dq d) 0 ts 50 due ∧
          outcome_collect (internal_from_list oc <$> due) = Done (Err err))) →
    move_result streams q dq lock pk d d' (Err e)
| move_lost e due ts :
    faulty = true →
    unix_timestamp (read_clock d' - 1000000000) = Ok ts →
    zrange_result (zset_at dq d) 0 ts 50 due →
    added [] streams q pk (RedisFallback.content <$> due) d d' →
    zset_at dq d' = foldr delete (zset_at dq d) due →
    move_result streams q dq lock pk d d' (Err e).

(** The end of a round that has moved [due] and removed it from the delayed
    set, or has found nothing to move: the lock is released. *)
Lemma wp_release streams q dq lock pk now ts due f d d2 :
  unix_timestamp (now - 1000000000) = Ok ts →
  zrange_result (zset_at dq d) 0 ts 50 due →
  added [] streams q pk (RedisFallback.content <$> due) d d2 →
  same_rest (set_clock now d) d2 →
  f = set_zset dq (foldr delete (zset_at dq d) due) ∨ due = [] ∧ f = id →
  wpr (command (Del lock)) (f d2) (λ d' r, move_result streams q dq lock pk d d' r).
Proof.
  intros Hts Hdue Ha (Hz&Hl&Hc) Hfz.
  assert (∀ d3, (∀ k, list_at k d3 = list_at k d2) → (∀ k, stream_at k d3 = stream_at k d2) →
    added [] streams q pk (RedisFallback.content <$> due) d d3) as Ha3.
  { intros d3 H1 H2. eapply added_then; [|exact Ha|..]; auto. intros _. apply not_elem_of_nil. }
  assert (zset_at dq (f d2) = foldr delete (zset_at dq d) due ∧
    (∀ k, list_at k (f d2) = list_at k d2) ∧ (∀ k, stream_at k (f d2) = stream_at k d2) ∧
    read_clock (f d2) = now ∧ locks (f d2) = locks d) as (Hz'&Hl'&Hs'&Hc'&Hk').
  { destruct Hfz as [->|[-> ->]]; unfold id.
    - split_and!; [apply zset_at_set_zset|done|done|exact Hc|exact Hl].
    - split_and!; [unfold zset_at; by rewrite Hz|done|done|exact Hc|exact Hl]. }
  eapply wp_becomes; [done|done|..].
  - apply (move_moved _ _ _ _ _ _ _ due ts); simpl; rewrite ?Hc'; auto. by rewrite Hk'.
  - intros err Hf. apply (move_lost _ _ _ _ _ _ _ _ due ts); simpl; rewrite ?Hc'; auto.
  - intros err Hf. apply (move_lost _ _ _ _ _ _ _ _ due ts); simpl; rewrite ?Hc'; auto.
Qed.

Lemma wp_move_due streams q dq lock pk d :
  map_Forall (λ m _, internal_from_list oc m ≠ Panics) (zset_at dq d) →
  wpr (move_due oc q dq lock pk streams) d (λ d' r, move_result streams q dq lock pk d d' r).
Proof.
  intros Hp. unfold move_due. apply wp_bind, wp_now. intros now Hnow.
  rewrite (sane_sub _ Hnow). cbn [lift bind].
  assert (∀ ms d2 e, added [] streams q pk ms d d2 → same_rest (set_clock now d) d2 →
    faulty = true → move_result streams q dq lock pk d d2 (Err e)) as Hfail.
  { intros ms d2 e Ha (Hz&Hl&_) Hf. apply (move_failed _ _ _ _ _ _ _ _ ms); [done| | |by rewrite Hf].
    - unfold zset_at. by rewrite Hz.
    - by rewrite Hl. }
  apply wp_bind_ok. destruct (unix_timestamp (now - 1000000000)) as [ts|err] eqn:Hts.
  2:{ apply wp_Ret. apply (move_failed _ _ _ _ _ _ _ _ []); [by apply added_refl|done|done|].
      intros _. split; [done|]. left. eauto. }
  cbn [map_err]. apply wp_Ret, wp_bind_ok.
  eapply (wp_command _ (ZrangebyscoreLimit _ _ _ _ _)); [done|done|..]; cbv beta.
  { do 2 eexists. split; [done|]. intros _ _. apply zrange_spec. }
  2:{ intros err Hf. by apply (Hfail []); [apply added_refl|..]. }
  2:{ intros d' y err Hf [-> _]. by apply (Hfail []); [apply added_refl|..]. }
  intros d' due [-> Hdue]. specialize (Hdue eq_refl ltac:(done)).
  change (zset_at dq (set_clock now d)) with (zset_at dq d) in Hdue.
  change (Z.to_nat BATCH_SIZE) with 50%nat in Hdue.
  destruct due as [|m l].
  { apply wp_bind_ok. eapply wp_mono.
    { apply (wp_release streams q dq lock pk now ts [] id d (set_clock now d)); auto.
      - by apply added_refl.
      - done. }
    intros d2 [[]|e] Hr; [|exact Hr]. apply wp_bind, wp_call. split; [done|]. by intros d3 x ->. }
  set (due := m :: l) in *.
  destruct (collect_total due) as [[iis|err] Hcol].
  { destruct Hdue as (_&Hin&_). apply Forall_forall. intros x Hx.
    destruct (Hin x Hx) as (sc&Hsc&_). exact (Hp x sc Hsc). }
  2:{ rewrite Hcol. apply wp_bind_ok, wp_Ret.
      apply (move_failed _ _ _ _ _ _ _ _ []); [by apply added_refl|done|done|].
      intros _. split; [done|]. right. by exists ts, due, err. }
  rewrite Hcol. apply wp_bind_ok, wp_Ret, wp_bind_ok, wp_add_to_main_queue.
  2:{ intros d2 err ms Hf _ Ha Hs. by apply (Hfail ms). }
  rewrite (collect_contents _ _ Hcol). intros d2 Ha Hs.
  apply wp_bind_ok. eapply wp_becomes; [done|done|..].
  - cbv beta. replace (zset_at dq d2) with (zset_at dq d) by (unfold zset_at; by rewrite (proj1 Hs)).
    apply (wp_release streams q dq lock pk now ts due (set_zset dq (foldr delete (zset_at dq d) due))); auto.
  - intros err Hf. by apply (Hfail (RedisFallback.content <$> due)).
  - intros err Hf. apply (move_lost _ _ _ _ _ _ _ _ due ts); simpl; auto.
    + by rewrite (proj2 (proj2 Hs)).
    + rewrite zset_at_set_zset. unfold zset_at. by rewrite (proj1 Hs).
Qed.

(** A round: either the lock is taken and nothing happens, or the round is
    one under the lock. *)
Lemma wp_delayed streams q dq lock pk d :
  map_Forall (λ m _, internal_from_list oc m ≠ Panics) (zset_at dq d) →
  let locked := set_locks ({[lock]} ∪ locks d) d in
  wpr (background_task_delayed oc q dq lock pk streams) d (λ d' r,
    (d' = d ∧ (r = Ok tt → lock ∈ locks d) ∧ (∀ e, r = Err e → faulty = true)) ∨
    (d' = locked ∧ faulty = true ∧ ∃ e, r = Err e) ∨
    move_result streams q dq lock pk locked d' r).
Proof.
  intros Hp locked. unfold background_task_delayed. apply wp_bind_ok, wp_pool_get.
  2:{ intros err Hf. by left. }
  apply wp_bind_ok. eapply (wp_command _ (SetNxPx _ _)); [done|done|..]; cbv beta.
  - exists locked, (Some "OK"%string). by left.
  - intros d1 o [[-> ->]|(->&Hin&->)]; cbn [bool_decide].
    + rewrite bool_decide_eq_true_2 by done. eapply wp_mono; [by apply wp_move_due|].
      intros d2 r Hr. by right; right.
    + rewrite bool_decide_eq_false_2 by done. apply wp_bind, wp_call. split; [done|].
      intros d2 x ->. left. split_and!; [done..|]. by intros e.
  - intros err Hf. by left.
  - intros d1 o err Hf [[_ ->]|(_&_&->)]; [right; left; by eauto|by left].
Qed.

Lemma lookup_foldr_delete_ne (z : gmap bytes N) due m :
  m ∉ due → foldr delete z due !! m = z !! m.
Proof.
  induction due as [|x l IH]; [done|]. intros [Hne Hl]%not_elem_of_cons. cbn [foldr].
  rewrite lookup_delete_ne by done. by apply IH.
Qed.

(** C16: delayed messages are neither delivered early nor lost.  Whatever a
    faulty server does during a round of the background task, a message can
    only leave the delayed set when the moment it was scheduled for is not
    after the clock that the round has read, and then its payload has been
    added to the main queue. *)
Theorem delayed_never_early_never_lost streams q dq lock pk s :
  map_Forall (λ m _, internal_from_list oc m ≠ Panics) (zset_at dq (view s)) →
  returns h view (background_task_delayed oc q dq lock pk streams) s (λ d r,
    ∀ m sc, zset_at dq (view s) !! m = Some sc → zset_at dq d !! m = None →
      (∀ t, unix_timestamp t = Ok sc → (t <= read_clock d)%Z) ∧
      ∃ due, m ∈ due ∧ added [] streams q pk (RedisFallback.content <$> due) (view s) d).
Proof.
  intros Hp. start_wp. intros d Hp. eapply wp_mono; [by apply wp_delayed|].
  intros d' r Hr m sc Hm Hgone.
  assert (∀ due ts, unix_timestamp (read_clock d' - 1000000000) = Ok ts →
    zrange_result (zset_at dq d) 0 ts 50 due →
    zset_at dq d' = foldr delete (zset_at dq d) due →
    m ∈ due ∧ ∀ t, unix_timestamp t = Ok sc → (t <= read_clock d')%Z) as Hleft.
  { intros due ts Hts (_&Hin&_) Hz. destruct (decide (m ∈ due)) as [Hd|Hd].
    - split; [done|]. intros t Ht. destruct (Hin m Hd) as (sc'&Hsc'&Hle).
      rewrite Hm in Hsc'. injection Hsc' as <-. eapply due_before; [exact Hts| |exact Ht]; lia.
    - rewrite Hz, lookup_foldr_delete_ne, Hm in Hgone by done. done. }
  destruct Hr as [[-> _]|[[-> _]|Hr]]; [congruence|change (zset_at dq d !! m = None) in Hgone; congruence|].
  destruct Hr as [due ts Hts Hz Ha Hdel|e ms Ha Hz|e due ts Hf Hts Hz Ha Hdel].
  - destruct (Hleft due ts) as [? ?]; eauto.
  - change (zset_at dq d' = zset_at dq d) in Hz. congruence.
  - destruct (Hleft due ts) as [? ?]; eauto.
Qed.

(** A scheduled message is put into the delayed set with a fresh
    identifier, no receives, and the second in which it is due, and nothing
    else changes but the clock reading. *)
Theorem send_scheduled_entry p v delay s :
  as_secs delay <= 2 ^ 62 - 1 → subsec_nanos delay < NANOS_PER_SEC →
  returns h view (send_raw_scheduled p v delay) s (λ d r, ∀ u, r = Ok u →
    ∃ id sc, is_base62 id ∧ (id ∉ issued (view s)) ∧
      unix_timestamp (read_clock d + Z.of_N (as_nanos delay)) = Ok sc ∧
      zset_at (rp_delayed_queue_key p) d =
        <[internal_to_list_payload id (mkInternalPayload v 0) := sc]>
          (zset_at (rp_delayed_queue_key p) (view s)) ∧
      lists d = lists (view s) ∧ RedisApi.streams d = RedisApi.streams (view s)).
Proof.
  intros Hsec Hns. start_wp. intros d. unfold send_raw_scheduled.
  apply wp_bind, wp_now. intros now Hnow.
  assert (systime_add now delay = Done (now + Z.of_N (as_nanos delay))%Z) as ->.
  { unfold clock_sane, systime_add, systime_in_range, as_nanos, as_secs, NANOS_PER_SEC in *.
    bool_prop. change (2 ^ 62 - 1) with 4611686018427387903 in Hsec.
    assert (Z.of_N (secs delay * 1000000000 + subsec_nanos delay) < 2 ^ 62 * 1000000000)%Z by lia.
    set (u := (now + Z.of_N (secs delay * 1000000000 + subsec_nanos delay))%Z).
    assert (- 2 ^ 63 <= u / 1000000000)%Z by (apply Z.div_le_lower_bound; lia).
    assert (u / 1000000000 < 2 ^ 63)%Z by (apply Z.div_lt_upper_bound; lia).
    replace (- 2 ^ 63 <=? u / 1000000000)%Z with true by (symmetry; apply Z.leb_le; lia).
    by replace (u / 1000000000 <? 2 ^ 63)%Z with true by (symmetry; apply Z.ltb_lt; lia). }
  cbn [lift bind]. apply wp_bind_ok.
  destruct (unix_timestamp (now + Z.of_N (as_nanos delay))) as [sc|err] eqn:Hsc; [|done].
  apply wp_Ret, wp_bind_ok, wp_pool_get; [|done].
  apply wp_bind, wp_to_list_payload. intros id Hid Hnew.
  eapply wp_becomes; [done|done| |done..]. intros [] _. exists id, sc.
  split_and!; [done|done|done| |done|done]. by rewrite zset_at_set_zset.
Qed.

(** *** Batches *)

Lemma wp_send_added self v d (Q : db → Result unit → Prop) :
  let add := added [] (rp_use_redis_streams self) (rp_queue_key self) (rp_payload_key self) in
  (∀ d', add [v] d d' → same_rest d d' → Q d' (Ok tt)) →
  (∀ d' err ms, faulty = true → ms `prefix_of` [v] → add ms d d' → same_rest d d' →
     Q d' (Err (Generic err))) →
  wpr (send_raw self v) d Q.
Proof.
  intros add Hok Herr. subst add. unfold send_raw. destruct (rp_use_redis_streams self).
  - unfold RedisStreams.send_raw. apply wp_bind_ok, wp_pool_get.
    2:{ intros err Hf. apply (Herr _ _ []); [done|apply prefix_nil|by apply added_refl|done]. }
    assert (∀ d', pipe_step (PXadd (rp_queue_key self)
        (internal_to_stream_payload (InternalPayload.new v) (rp_payload_key self))) d d' →
      added [] true (rp_queue_key self) (rp_payload_key self) [v] d d' ∧ same_rest d d') as Hadd.
    { intros d' Hs. apply pipe_xadds. simpl. eauto. }
    eapply wp_command; [done|done|..]; cbv beta.
    + exists (xadd (rp_queue_key self) (internal_to_stream_payload (InternalPayload.new v)
        (rp_payload_key self)) (top_id (stream_at (rp_queue_key self) d) + 1) d), tt.
      eexists. split; [|done]. lia.
    + intros d' [] [Ha Hr]%Hadd. by apply Hok.
    + intros err Hf. apply (Herr _ _ []); [done|apply prefix_nil|by apply added_refl|done].
    + intros d' [] err Hf [Ha Hr]%Hadd. by apply (Herr _ _ [v]).
  - unfold RedisFallback.send_raw. apply wp_bind_ok, wp_pool_get.
    2:{ intros err Hf. apply (Herr _ _ []); [done|apply prefix_nil|by apply added_refl|done]. }
    apply wp_bind, wp_to_list_payload. intros id Hid Hnew.
    set (d1 := set_issued _ d). set (m := internal_to_list_payload id _).
    assert (added [] false (rp_queue_key self) (rp_payload_key self) [v] d
      (set_list (rp_queue_key self) (reverse [m] ++ list_at (rp_queue_key self) d1) d1)) as Ha.
    { unfold added. split_and!; [done| |].
      - intros k Hk _. by rewrite list_at_set_list_ne.
      - exists [m]. rewrite list_at_set_list. split; [done|].
        constructor; [|constructor]. by apply RedisFallback.holds_written. }
    eapply wp_becomes; [done|done|..].
    + by apply Hok.
    + intros err Hf. apply (Herr _ _ []); [done|apply prefix_nil|by apply added_refl|done].
    + intros err Hf. by apply (Herr _ _ [v]).
Qed.

(** A batch adds its payloads in order, and stops at the first error. *)
Definition batch_added (self : RedisProducer) (payloads : list bytes) (d d' : db)
    (r : Result unit) : Prop :=
  same_rest d d' ∧
  ∃ ms, added [] (rp_use_redis_streams self) (rp_queue_key self) (rp_payload_key self) ms d d' ∧
    match r with
    | Ok _ => ms = payloads
    | Err e => faulty = true ∧ ms `prefix_of` payloads ∧ ∃ err, e = Generic err
    end.

Lemma wp_batch_added self payloads d :
  wpr (for_each (send_raw self) payloads) d (batch_added self payloads d).
Proof.
  apply wp_for_each with (λ rest d', same_rest d d' ∧ ∃ ms, payloads = ms ++ rest ∧
    added [] (rp_use_redis_streams self) (rp_queue_key self) (rp_payload_key self) ms d d').
  - split; [done|]. exists []. split; [done|]. by apply added_refl.
  - intros v rest d1 [Hr (ms&->&Ha)].
    assert (∀ ms' d', added [] (rp_use_redis_streams self) (rp_queue_key self)
        (rp_payload_key self) ms' d1 d' → same_rest d1 d' →
      same_rest d d' ∧ added [] (rp_use_redis_streams self) (rp_queue_key self)
        (rp_payload_key self) (ms ++ ms') d d') as Hstep.
    { intros ms' d' Ha' (H1&H2&H3). destruct Hr as (H1'&H2'&H3').
      split; [|by eapply added_app]. unfold same_rest. split_and!; congruence. }
    apply wp_send_added.
    + intros d' Ha' Hr'. destruct (Hstep _ _ Ha' Hr') as [Hr2 Ha2]. split; [done|].
      exists (ms ++ [v]). by rewrite <-app_assoc.
    + intros d' err ms' Hf Hpre Ha' Hr'. destruct (Hstep _ _ Ha' Hr') as [Hr2 Ha2].
      split; [done|]. exists (ms ++ ms'). split_and!; [done|done| |eauto].
      apply prefix_app. etrans; [exact Hpre|]. by exists rest.
  - intros d' [Hr (ms&->&Ha)]. split; [done|]. exists ms. by rewrite app_nil_r.
Qed.

(** C37: batches.  Whatever a faulty server does, a batch adds its payloads to
    the main queue in their order, as messages that nobody has received, up to
    some payload, and touches nothing else; all of them when it succeeds.  It
    fails only if a command does; then nothing behind the payload concerned
    has been added, and that one at most once.  A batch of values is
    serialized as a whole before anything is sent.  A dynamic producer does
    the same. *)
Theorem redis_batch_prefix {V} `{Serialize V} fuel self payloads (values : list V) s :
  let json := λ d r,
    (d = view s ∧ ∃ e, r = Err e ∧ unserializable values e) ∨
    (∃ texts, Forall2 (λ v b, to_vec v = Ok b) values texts ∧
       batch_added self texts (view s) d r) in
  let dyn := DynBuilder.wrap_producer fuel self in
  returns h view (@send_raw_batch _ _ (redis_producer fuel) self payloads) s
    (batch_added self payloads (view s)) ∧
  returns h view (@send_serde_json_batch _ _ (redis_producer fuel) V _ self values) s json ∧
  returns h view (@send_raw_batch _ _ DynProducer_producer dyn payloads) s
    (batch_added self payloads (view s)) ∧
  returns h view (@send_serde_json_batch _ _ DynProducer_producer V _ dyn values) s json.
Proof.
  intros json dyn.
  assert (∀ ps, returns h view (for_each (send_raw self) ps) s (batch_added self ps (view s))) as Hraw.
  { intros ps. start_wp. apply wp_batch_added. }
  assert (∀ send, (∀ ps, returns h view (for_each send ps) s (batch_added self ps (view s))) →
    returns h view (ProducerDefaults.send_serde_json_batch
      (λ _ : RedisProducer, for_each send) self values) s json) as Hjson.
  { intros send Hsend. unfold ProducerDefaults.send_serde_json_batch.
    replace (_ <$> values) with ((λ v, map_err Serde (to_vec v)) <$> values)
      by (apply list_fmap_ext; intros _ v _; by destruct (to_vec v)).
    pose proof (collect_json values) as Hc. destruct (collect_results _) as [texts|e];
      cbn [bind_ok bind].
    - eapply returns_mono; [apply Hsend|]. intros d r Hr. right. by exists texts.
    - exists s, (Err e). split; [done|]. left. eauto. }
  split_and!; [apply Hraw|by apply Hjson|apply Hraw|by apply Hjson].
Qed.
End specs.

(** ** Redriving *)

Lemma lrange_first l : lrange 0 BATCH_SIZE l = take 51 l.
Proof.
  unfold lrange, BATCH_SIZE. change (0 <? 0)%Z with false. change (50 <? 0)%Z with false.
  cbn [Z.to_nat]. rewrite drop_0. destruct (Z.ltb_spec (Z.min 50 (Z.of_nat (length l) - 1)) 0).
  - destruct l; [done|]. simpl in *. lia.
  - replace (Z.to_nat _) with (Nat.min 51 (length l)) by lia.
    by rewrite <-take_take, firstn_all.
Qed.

Section redrive.
Context (oc faulty : bool) {S : Type} (h : handler redisE S) (view : S → db)
  `{!Lawful (redis_doc faulty) h view}.
Context (p : RedisProducer) (dlq : key).
Context (Hdlq : rp_use_redis_streams p = false → rp_queue_key p ≠ dlq).

Abbreviation wpr := (wp (redis_doc faulty)).
Abbreviation added_to := (added [dlq] (rp_use_redis_streams p) (rp_queue_key p) (rp_payload_key p)).

(** [ms] have been added, [list_at dlq d'] are still there. *)
Definition redriven (d d' : db) (r : Result unit) : Prop :=
  ∃ ms, added_to ms d d' ∧ list_at dlq d ⊆+ ms ++ list_at dlq d' ∧
    (r = Ok tt → ms = list_at dlq d ∧ list_at dlq d' = []) ∧
    (∀ e, r = Err e → faulty = true).

Lemma added_dlq d0 d ms l :
  added_to ms d0 d → added_to ms d0 (set_list dlq l d).
Proof.
  intros Ha. eapply added_then; [|exact Ha|..].
  - intros Hs Hin%list_elem_of_singleton. by apply (Hdlq Hs).
  - intros k Hk. apply list_at_set_list_ne. set_solver.
  - done.
Qed.

Lemma redriven_err d0 d ms kept e :
  faulty = true → added_to ms d0 d → list_at dlq d = kept → list_at dlq d0 ⊆+ ms ++ kept →
  redriven d0 d (Err e).
Proof. intros Hf Ha <- Hsub. exists ms. by split_and!. Qed.

(** The list of the dead-letter queue after adding to the main queue. *)
Lemma added_keeps_dlq ms d d' :
  added [] (rp_use_redis_streams p) (rp_queue_key p) (rp_payload_key p) ms d d' →
  list_at dlq d' = list_at dlq d.
Proof.
  unfold added. destruct (rp_use_redis_streams p) eqn:Hs; intros (H1&H2&_).
  - apply H1, not_elem_of_nil.
  - apply H2; [|apply not_elem_of_nil]. intros Heq. by apply Hdlq.
Qed.

(** The removal of a batch that has been added. *)
Lemma wp_remove_batch batch ms rest d0 d :
  added_to ms d0 d → list_at dlq d0 ⊆+ ms ++ rest → list_at dlq d = batch ++ rest →
  wpr (for_each (λ payload, command (Lrem dlq 1 payload)) batch) d (λ d' r,
    match r with
    | Ok _ => added_to ms d0 d' ∧ list_at dlq d' = rest
    | Err e => redriven d0 d' (Err e)
    end).
Proof.
  intros Ha Hsub Hl.
  apply wp_for_each with (λ bs d', added_to ms d0 d' ∧ list_at dlq d' = bs ++ rest);
    [done| |by intros d' [? ?]].
  clear Hl Ha. intros b bs d' [Ha Hl].
  assert (∀ bs' d1 e, faulty = true → added_to ms d0 d1 → list_at dlq d1 = bs' ++ rest →
    redriven d0 d1 (Err e)) as Herr.
  { intros bs' d1 e Hf H1 H2. eapply redriven_err; [done|done|done|]. rewrite Hsub.
    rewrite (Permutation_app_comm bs'), app_assoc. by apply submseteq_inserts_r. }
  assert (∀ d1, d1 = set_list dlq (remove_first b (list_at dlq d')) d' →
    added_to ms d0 d1 ∧ list_at dlq d1 = bs ++ rest) as Hrem.
  { intros d1 ->. split; [by apply added_dlq|].
    rewrite list_at_set_list, Hl. apply remove_first_head. }
  eapply (wp_command _ (Lrem _ _ _)); [done|done|..]; cbv beta.
  - by eexists _, tt.
  - intros d1 [] Hd1. by apply Hrem.
  - intros err Hf. by apply (Herr (b :: bs)).
  - intros d1 [] err Hf Hd1. destruct (Hrem d1 Hd1). by apply (Herr bs).
Qed.

Lemma wp_redrive_round d0 d done :
  added_to done d0 d → list_at dlq d0 = done ++ list_at dlq d →
  wpr (redrive_round p dlq tt) d (λ d' r,
    match r with
    | inl _ => ∃ batch rest, batch ≠ [] ∧ list_at dlq d = batch ++ rest ∧
        added_to (done ++ batch) d0 d' ∧ list_at dlq d' = rest
    | inr r' => redriven d0 d' r'
    end).
Proof.
  intros Ha Hl. unfold redrive_round. apply wp_bind.
  assert (∀ d1 e, faulty = true → d1 = d → redriven d0 d1 (Err e)) as Hsame.
  { intros d1 e Hf ->. eapply redriven_err; [done|exact Ha|done|by rewrite Hl]. }
  apply wp_bind_ok, wp_pool_get; [|intros; by apply Hsame].
  apply wp_bind_ok. eapply (wp_command _ (Lrange _ _ _)); [done|done|..]; cbv beta;
    [eauto| |intros; by apply Hsame|by intros d' y err Hf [_ ->]; apply Hsame].
  intros d' old [-> ->]. rewrite lrange_first.
  destruct (take 51 (list_at dlq d)) as [|x xs] eqn:Hbatch.
  { apply wp_Ret, wp_Ret. apply take_nil_inv in Hbatch as [|Hnil]; [done|].
    rewrite Hnil, app_nil_r in Hl. exists done. rewrite Hl, Hnil, app_nil_r. by split_and!. }
  set (batch := x :: xs) in *. set (rest := drop 51 (list_at dlq d)).
  assert (list_at dlq d = batch ++ rest) as Hbr by (unfold rest; by rewrite <-Hbatch, take_drop).
  assert (payload <$> (InternalPayload.new <$> batch) = batch) as Hpay.
  { rewrite <-list_fmap_compose. apply list_fmap_id. }
  assert (∀ ms d2, added [] (rp_use_redis_streams p) (rp_queue_key p) (rp_payload_key p) ms d d2 →
    added_to (done ++ ms) d0 d2 ∧ list_at dlq d2 = batch ++ rest) as Hadd.
  { intros ms d2 Ha2. split; [|by rewrite (added_keeps_dlq _ _ _ Ha2)].
    eapply added_app; [exact Ha|]. by apply added_weaken. }
  apply wp_bind_ok, wp_add_to_main_queue; rewrite Hpay.
  2:{ intros d2 err ms Hf _ Ha2 _. destruct (Hadd _ _ Ha2) as [Ha3 Hl3].
      eapply redriven_err; [done|exact Ha3|exact Hl3|]. rewrite Hl, Hbr, <-app_assoc.
      by apply submseteq_skips_l, submseteq_inserts_l. }
  intros d2 Ha2 _. destruct (Hadd _ _ Ha2) as [Ha3 Hl3].
  apply wp_bind_ok. eapply wp_mono.
  { eapply wp_remove_batch; [exact Ha3| |exact Hl3]. by rewrite Hl, Hbr, app_assoc. }
  intros d3 [[]|e]; [|done]. intros [Ha4 Hl4]. apply wp_Ret. by exists batch, rest.
Qed.

(** C24: redriving the dead-letter queue terminates and moves every message.
    After success the queue is empty and all its messages, in order, are
    behind those of the main queue, as messages that nobody has received;
    a server that answers makes it succeed.  When it fails, no message is
    lost: each one has been added or is still there. *)
Theorem redrive_dlq_moves_all max fuel s :
  rp_dlq_config p = Some (mkDlq dlq max) →
  (length (list_at dlq (view s)) < fuel)%nat →
  returns h view (redrive_dlq fuel p) s (λ d r, redriven (view s) d r).
Proof.
  intros Hc Hfuel. start_wp. intros d Hfuel. unfold redrive_dlq. rewrite Hc.
  apply wp_loop with (λ n _ d', n = length (list_at dlq d') ∧
    ∃ done, added_to done d d' ∧ list_at dlq d = done ++ list_at dlq d')
    (length (list_at dlq d)); [done| |].
  { split; [done|]. exists []. split; [|done]. apply added_weaken. by apply added_refl. }
  intros n [] d' (->&done&Ha&Hl). eapply wp_mono; [by eapply wp_redrive_round|].
  intros d2 [[]|r]; [|done]. intros (batch&rest&Hne&Hbr&Ha2&Hl2).
  exists (length rest). rewrite Hbr, length_app. split; [destruct batch; simpl; [done|lia]|].
  split; [by rewrite Hl2|]. exists (done ++ batch). split; [done|].
  by rewrite Hl, Hbr, Hl2, app_assoc.
Qed.
End redrive.

Section reliable.
Context (oc : bool) {S : Type} (h : handler redisE S) (view : S → db)
  `{!Lawful (redis_doc false) h view}.

Abbreviation wpr := (wp (redis_doc false)).

(** C23: a round of the delayed task on a server that answers, exactly.
    Either the lock is taken and nothing happens; or the round takes at most
    50 due messages, the earliest first, adds their payloads to the main
    queue in that order, removes exactly them from the delayed set, and
    releases the lock; or it fails, because the clock is before 1970 or
    because one of the due messages does not parse: then nothing is moved,
    and the lock stays taken. *)
Theorem delayed_round streams q dq lock pk s :
  map_Forall (λ m _, internal_from_list oc m ≠ Panics) (zset_at dq (view s)) →
  returns h view (background_task_delayed oc q dq lock pk streams) s (λ d r,
    (lock ∈ locks (view s) ∧ d = view s ∧ r = Ok tt) ∨
    (∃ due ts, r = Ok tt ∧
       unix_timestamp (read_clock d - 1000000000) = Ok ts ∧
       zrange_result (zset_at dq (view s)) 0 ts 50 due ∧
       added [] streams q pk (RedisFallback.content <$> due) (view s) d ∧
       zset_at dq d = foldr delete (zset_at dq (view s)) due ∧ lock ∉ locks d) ∨
    (∃ e, r = Err e ∧ added [] streams q pk [] (view s) d ∧
       zset_at dq d = zset_at dq (view s) ∧ lock ∈ locks d ∧
       ((∃ err, unix_timestamp (read_clock d - 1000000000) = Err err) ∨
        ∃ ts due err, unix_timestamp (read_clock d - 1000000000) = Ok ts ∧
          zrange_result (zset_at dq (view s)) 0 ts 50 due ∧
          outcome_collect (internal_from_list oc <$> due) = Done (Err err)))).
Proof.
  intros Hp. start_wp. intros d Hp. eapply wp_mono; [by apply (wp_delayed oc false)|].
  intros d' r [(->&Hlock&Herr)|[(_&?&_)|Hr]]; [| done |].
  { left. destruct r as [[]|e]; [by auto|]. by specialize (Herr e eq_refl). }
  right. destruct Hr as [due ts Hts Hz Ha Hdel Hl|e ms Ha Hz Hl Hwhy|e due ts Hf]; [| |done].
  - left. exists due, ts. split_and!; try done. rewrite Hl.
    intros [_ Hn]%elem_of_difference. by apply Hn, elem_of_singleton_2.
  - right. destruct (Hwhy eq_refl) as [-> Hw]. exists e. split_and!; try done.
    rewrite Hl. by apply elem_of_union_l, elem_of_singleton_2.
Qed.
End reliable.

(** ** Witnesses *)

Definition cfg0 : RedisConfig :=
  mkRedisConfig "redis://localhost" 8 true "q" "d" "l" "g" "c" "payload" 30000
    (Some (mkDlq "dlq" 5)) None.

(** A server that accepts every connection. *)
Definition accept X (e : buildE X) (s : unit) : option (unit * X) :=
  match e in buildE X return option (unit * X) with
  | ManagerNew _ _ _ => Some (tt, Ok tt)
  | PoolBuild _ => Some (tt, Ok tt)
  | Spawn _ => Some (tt, tt)
  end.

Definition b0 : RedisBackendBuilder :=
  Builder.with_processing_queue_key (Builder.with_use_redis_streams (Builder.new cfg0) false) "mine".

Lemma builder_pair_fits_witness :
  rc_processing_queue_key (Builder.consumer_of b0) = "mine"%string ∧
  rc_use_redis_streams (Builder.consumer_of b0) = false.
Proof.
  destruct (builder_pair_fits accept RedisConnectionManager b0 tt tt (Builder.producer_of b0)
    (Builder.consumer_of b0) eq_refl) as (_&_&_&Hs&_&Hk&_).
  split; [exact Hk|exact Hs].
Defined.

Lemma dynamic_builder_drops_settings_witness :
  ∃ c', rc_use_redis_streams c' = true ∧ rc_processing_queue_key c' = "q_processing"%string.
Proof.
  destruct (dynamic_builder_drops_settings true 40 9 accept RedisConnectionManager b0 tt tt
    (DynBuilder.wrap_producer 9 (Builder.producer_of (Builder.new cfg0)))
    (DynBuilder.wrap_consumer true 40 (Builder.consumer_of (Builder.new cfg0))) eq_refl)
    as (_&c'&_&_&_&Hs&Hk).
  exists c'. split; [exact Hs|exact Hk].
Defined.

(** A delayed set with one message due and one not. *)
Definition due1 : bytes := bstr "k1#0|a".
Definition due2 : bytes := bstr "k2#0|b".
Definition db0 : db :=
  mkDb {[ "dlq"%string := [bstr "x"; bstr "y"] ]} {[ "d"%string := {[ due1 := 10; due2 := 900 ]} ]}
    ∅ ∅ ∅ 0%Z.
Definition s0 : server := mkServer db0 [Healthy; Healthy; Healthy; Applied] 100000000000%Z [].
Definition p0 : RedisProducer := Builder.producer_of b0.

Lemma due_parse : map_Forall (λ m _, internal_from_list true m ≠ Panics) (zset_at "d" db0).
Proof.
  unfold zset_at, db0. cbn [zsets]. rewrite lookup_singleton_eq. cbn [default].
  apply map_Forall_insert_2; [done|]. by apply map_Forall_singleton.
Qed.

Lemma delayed_never_early_never_lost_witness :
  returns serve sdb (background_task_delayed true "q" "d" "l" "payload" false) s0 (λ d r,
    zset_at "d" d !! due1 = None → (10000000000 <= read_clock d)%Z).
Proof.
  eapply returns_mono; [exact (delayed_never_early_never_lost true true serve sdb false "q" "d" "l"
    "payload" s0 due_parse)|].
  intros d r Hd Hgone. destruct (Hd due1 10 eq_refl Hgone) as [Ht _]. by apply Ht.
Defined.

Lemma send_scheduled_entry_witness :
  returns serve_healthy sdb (send_raw_scheduled p0 (bstr "x") (from_secs 60)) s0 (λ d r,
    ∀ u, r = Ok u → lists d = lists db0).
Proof.
  eapply returns_mono;
    [exact (send_scheduled_entry false serve_healthy sdb p0 (bstr "x") (from_secs 60) s0
       ltac:(done) ltac:(done))|].
  intros d r Hd u Hu. by destruct (Hd u Hu) as (id&sc&_&_&_&_&Hl&_).
Defined.

Lemma delayed_round_witness :
  returns serve_healthy sdb (background_task_delayed true "q" "d" "l" "payload" false) s0
    (λ d r, r = Ok tt → "l"%string ∉ locks d).
Proof.
  eapply returns_mono; [exact (delayed_round true serve_healthy sdb false "q" "d" "l" "payload" s0
    due_parse)|].
  intros d r [(Hin&_&_)|[(due&ts&_&_&_&_&_&Hl)|(e&->&_)]] Hr; [|exact Hl|discriminate].
  by apply not_elem_of_empty in Hin.
Defined.

Lemma redrive_dlq_moves_all_witness :
  returns serve_healthy sdb (redrive_dlq 9 p0) s0 (λ d r,
    r = Ok tt → list_at "dlq" d = []).
Proof.
  eapply returns_mono; [apply (redrive_dlq_moves_all false serve_healthy sdb p0 "dlq"
    ltac:(by intros _) 5 9 s0); [done|vm_compute; lia]|].
  intros d r (ms&_&_&Hok&_) Hr. by apply Hok.
Defined.

(** The third command fails: the second payload may or may not be there. *)
#[local] Instance text_json : Serialize bytes := {|
  to_vec b := match b with [] => Err (boxed "empty") | _ => Ok b end;
  to_string _ := Err (boxed "not text");
|}.

Lemma redis_batch_prefix_witness :
  returns serve sdb (@send_raw_batch _ _ (redis_producer 9) p0 [bstr "x"; bstr "y"; bstr "z"]) s0
    (batch_added true p0 [bstr "x"; bstr "y"; bstr "z"] db0) ∧
  returns serve sdb (@send_serde_json_batch _ _ (redis_producer 9) _ text_json p0 [bstr "x"; []])
    s0 (λ _ r, ∃ e, r = Err (Serde e)).
Proof.
  destruct (redis_batch_prefix true serve sdb 9 p0 [bstr "x"; bstr "y"; bstr "z"]
    [bstr "x"; []] s0) as (Hraw&Hjson&_).
  split; [exact Hraw|]. eapply returns_mono; [exact Hjson|].
  intros d r [(_&e&->&_&_&_&err&_&_&_&->)|(texts&Ht&_)]; [by exists err|].
  apply Forall2_cons_inv_l in Ht as (?&?&_&Ht&->). apply Forall2_cons_inv_l in Ht as (?&?&Hbad&_).
  discriminate Hbad.
Defined.
