(* ===== verification/RedisReceiveAll.v ===== *)
(** * Receiving several messages from redis ([receive_all] of
    [backends/redis/fallback.rs] and [backends/redis/streams.rs])

    What the two implementations of [receive_all] take from the abstract
    queue that both represent: the lists one message whatever is asked for,
    the stream as many as are asked for, and all of them when none is. *)
From S2P Require Import Prelude RustStd Effects Omniqueue Queue RedisCodec RedisApi RedisConfig.
From S2P Require Import RedisSpec RedisFallback RedisStreams RedisMain.
Open Scope N_scope.

(** The [k] messages that have waited longest, oldest first, and the queue
    once they have been received. *)
Definition oldest (k : nat) (m : mqueue) : list (bytes * N) := take k (reverse (waiting m)).
Definition received (k : nat) (m : mqueue) : mqueue :=
  mkMqueue (reverse (drop k (reverse (waiting m)))) (reverse (oldest k m) ++ pending m) (dead m).

(** How many messages [receive_all(max_messages, ..)] takes when so many are
    waiting. *)
Definition batch (streams : bool) (max_messages : N) (m : mqueue) : nat :=
  if streams
  then if max_messages =? 0 then length (waiting m) else N.to_nat max_messages
  else 1.

(** The database of a consumer's queue. *)
Definition represents (c : RedisConsumer) : db → mqueue → Prop :=
  if rc_use_redis_streams c then RedisStreams.represents c else RedisFallback.represents c.

Lemma received_none m : waiting m = [] → ∀ k, oldest k m = [] ∧ received k m = m.
Proof.
  intros Hm k. unfold received, oldest. rewrite Hm. destruct m as [w p dd]. simpl in *.
  subst w. by destruct k.
Qed.

Lemma received_one w x pend dd :
  oldest 1 (mkMqueue (w ++ [x]) pend dd) = [x] ∧
  received 1 (mkMqueue (w ++ [x]) pend dd) = mkMqueue w (x :: pend) dd.
Proof.
  unfold received, oldest. cbn [waiting pending dead].
  rewrite reverse_app, reverse_singleton. cbn [app take drop].
  by rewrite take_0, reverse_singleton, drop_0, reverse_involutive.
Qed.

Lemma as_millis_nanos t : 0 < as_millis t → as_nanos t ≠ 0.
Proof.
  unfold as_millis, as_nanos, NANOS_PER_SEC. intros H.
  destruct (N.eqb_spec (subsec_nanos t) 0) as [Hz|]; [|lia].
  rewrite Hz, N.Div0.div_0_l in H. lia.
Qed.

(** ** The stream *)

(** The first entries that the group has not been delivered, delivered. *)
Definition delivered_to (c : RedisConsumer) (d : db) (g : cgroup)
    (k : list (RedisApi.entry_id * list (string * bytes))) (i : RedisApi.entry_id) : db :=
  set_stream (rc_queue_key c)
    (with_group (rc_consumer_group c) (mkCgroup i (pel g ++ k.*1)) (stream_at (rc_queue_key c) d)) d.

Lemma split_delivered_to c d g old l e new :
  stream_split c d g old ((l ++ [e]) ++ new) →
  stream_split c (delivered_to c d g (l ++ [e]) e.1) (mkCgroup e.1 (pel g ++ (l ++ [e]).*1))
    (old ++ l ++ [e]) new.
Proof.
  intros [Hg He Hp Ho Hn Ht Hs]. rewrite <-!app_assoc in Hs. simpl in Hs.
  rewrite app_assoc in Hs. pose proof Hs as Hs'. apply sorted_app_cons in Hs as (_&Hl&Hb).
  rewrite !Forall_app, Forall_singleton in Hn. destruct Hn as [[Hnl Hne] Hn].
  apply Forall_app in Hl as [_ Hl]. split; unfold delivered_to; rewrite ?stream_at_set_stream; simpl.
  - by rewrite lookup_insert_eq.
  - by rewrite He, <-!app_assoc.
  - by rewrite Hp, <-fmap_app.
  - rewrite !Forall_app, Forall_singleton. split_and!.
    + eapply Forall_impl; [exact Ho|]. simpl. intros x. lia.
    + eapply Forall_impl; [exact Hl|]. intros x. unfold before. lia.
    + done.
  - rewrite Forall_forall in *. intros x Hx. split; [by apply Hb|]. by apply Hn.
  - lia.
  - rewrite <-!app_assoc. simpl. by rewrite app_assoc.
Qed.

Section receive_all.
Context (oc : bool) (delivery_size : N) {S : Type} (h : handler redisE S) (view : S → db)
  `{!Lawful (redis_doc false) h view}.
Abbreviation wpr := (wp (redis_doc false)).

(** The deliveries of messages, and nothing else. *)
Definition delivers (taken : list (bytes * N)) (ds : list (Delivery redisE)) : Prop :=
  Delivery.borrow_payload <$> ds = Some <$> taken.*1.

Lemma wp_deliveries c es taken out done_ d (Q : db → Result (list (Delivery redisE)) → Prop) :
  rc_payload_key c ≠ NUM_RECEIVES →
  Forall2 (RedisStreams.holds (rc_payload_key c)) es taken →
  Forall (λ x, x.2 < USIZE_MAX) taken → delivers done_ out →
  (∀ ds, delivers (done_ ++ taken) ds → Q d (Ok ds)) →
  wpr (deliveries oc c (read_entry <$> es) out) d Q.
Proof.
  intros Hk Hes. revert out done_. induction Hes as [|e [p n] es taken He Hes IH]; intros out done_ Hn Hout HQ.
  - cbn. apply HQ. by rewrite app_nil_r.
  - apply Forall_cons in Hn as [Hn Hns]. simpl in Hn. cbn [fmap list_fmap deliveries].
    destruct (streams_holds_parse oc _ _ _ _ Hk Hn He) as [Hparse _]. rewrite Hparse.
    apply wp_bind_ok, wp_Ret. eapply (IH _ (done_ ++ [(p, n)])); [done| |].
    + unfold delivers in *. rewrite !fmap_app, Hout. done.
    + intros ds Hds. apply HQ. by rewrite <-app_assoc in Hds.
Qed.

Lemma wp_streams_receive_all c n deadline m d :
  rc_payload_key c ≠ NUM_RECEIVES → 0 < as_millis deadline <= USIZE_MAX →
  delivery_size * n <= ISIZE_MAX → RedisStreams.represents c d m →
  wpr (RedisStreams.receive_all oc delivery_size c deadline n) d (λ d' r,
    ∃ ds, r = Ok ds ∧ delivers (oldest (batch true n m) m) ds ∧
      RedisStreams.represents c d' (received (batch true n m) m)).
Proof.
  intros Hk Hdl Hcap (g&old&new&Hsp&Hold&Hnew&Hd&Hs). set (k := batch true n m).
  unfold RedisStreams.receive_all. apply wp_bind_ok, wp_pool_get; [|done].
  apply wp_bind_ok, wp_Ret. unfold try_into.
  destruct (N.leb_spec (as_millis deadline) USIZE_MAX); [|lia]. simpl.
  assert (undelivered g (stream_at (rc_queue_key c) d) = new) as Hun.
  { unfold undelivered. destruct Hsp as [_ Hent _ Ho Hnw _ _].
    rewrite Hent, filter_app, filter_none, filter_all; [done|..].
    - eapply Forall_impl; [exact Hnw|]. simpl. intros x. lia.
    - eapply Forall_impl; [exact Ho|]. simpl. intros x. lia. }
  assert (count_limit n new = take k new) as Hcount.
  { unfold count_limit, k, batch. destruct (N.eqb_spec n 0); [|done].
    rewrite firstn_all2; [done|]. apply Forall2_length in Hnew. rewrite Hnew, length_reverse. lia. }
  pose proof (split_group _ _ _ _ _ Hsp) as Hg.
  apply wp_bind_ok. eapply (wp_command _ (XreadGroup _ _ _ _ _)); [done| | | |done|done].
  - left. lia.
  - destruct (last (take k new)) eqn:Hlast.
    + do 2 eexists. exists g. split; [done|]. cbv zeta. rewrite Hun, Hcount, Hlast. done.
    + do 2 eexists. exists g. split; [done|]. cbv zeta. rewrite Hun, Hcount, Hlast.
      split; [lia|done].
  - intros d' y (g'&Hg'&Hr). rewrite Hg in Hg'. injection Hg' as <-.
    cbv zeta in Hr. rewrite Hun, Hcount in Hr. unfold vec_with_capacity.
    apply N.leb_le in Hcap. rewrite Hcap. cbn [lift bind].
    assert (Forall2 (RedisStreams.holds (rc_payload_key c)) (take k new) (oldest k m)) as Htaken
      by (by apply Forall2_take).
    destruct (last (take k new)) as [e|] eqn:Hlast.
    + destruct Hr as [-> ->]. apply last_Some in Hlast as [l Hl]. cbn [head snd].
      eapply (wp_deliveries c _ _ _ []); [done|exact Htaken| |done|].
      { apply Forall_take, Forall_reverse. exact Hs. }
      intros ds Hds. exists ds. split; [done|]. split; [exact Hds|].
      pose proof (take_drop k new) as Hnew'. rewrite Hl in Hnew'. rewrite <-Hnew' in Hsp.
      apply split_delivered_to in Hsp. fold (delivered_to c d g (take k new) e.1). rewrite Hl.
      do 3 eexists. split; [exact Hsp|]. cbn [received pending waiting dead].
      rewrite reverse_app, !reverse_involutive, <-Hl. split_and!.
      * by apply Forall2_app.
      * by apply Forall2_drop.
      * rewrite <-Hd. unfold delivered_to. by destruct (rc_dlq_config c).
      * by apply Forall_reverse, Forall_drop, Forall_reverse.
    + destruct Hr as (_&->&->). cbn [head]. apply last_None in Hlast. rewrite Hlast in Htaken.
      apply Forall2_nil_inv_l in Htaken. exists []. rewrite Htaken.
      split_and!; [done|done|]. unfold received. rewrite Htaken, reverse_nil. simpl.
      assert (drop k (reverse (waiting m)) = reverse (waiting m)) as ->.
      { unfold oldest in Htaken. rewrite <-(take_drop k (reverse (waiting m))) at 2.
        by rewrite Htaken. }
      rewrite reverse_involutive. destruct m. by exists g, old, new.
Qed.

Lemma wp_fallback_receive_all c n deadline m d :
  distinct_keys (rc_queue_key c) (rc_processing_queue_key c) (rc_dlq_config c) →
  0 < as_millis deadline → RedisFallback.represents c d m →
  wpr (RedisFallback.receive_all oc c deadline n) d (λ d' r,
    ∃ ds, r = Ok ds ∧ delivers (oldest (batch false n m) m) ds ∧
      RedisFallback.represents c d' (received (batch false n m) m)).
Proof.
  intros Hk Hdl (Hq&Hpe&Hd&Hs). cbn [batch]. pose proof Hk as [Hqp Hdk].
  unfold RedisFallback.receive_all, receive_with_timeout.
  apply wp_bind_ok, wp_bind_ok, wp_pool_get; [|done]. apply wp_bind_ok.
  eapply (wp_command _ (Brpoplpush _ _ _)); [done|left|..]; cbv beta; [| | |done|done].
  - by apply as_millis_nanos.
  - destruct (last _); eauto 10 using as_millis_nanos.
  - intros d' y Hr. destruct m as [w pend dd]. cbn [waiting pending dead] in *.
    destruct (last (list_at (rc_queue_key c) d)) as [raw|] eqn:Hlast.
    + destruct Hr as [-> ->]. apply last_Some in Hlast as [rest Hl]. rewrite Hl in Hq |- *.
      apply Forall2_app_inv_l in Hq as (w'&x&Hrest&Hraw&->).
      apply Forall2_cons_inv_l in Hraw as ([p k]&?&Hraw&Hnil&->). apply Forall2_nil_inv_l in Hnil as ->.
      apply Forall_app in Hs as [Hs [Hn _]%Forall_cons]. rewrite removelast_last.
      destruct (received_one w' (p, k) pend dd) as [-> ->].
      rewrite (fallback_holds_parse oc _ _ _ Hraw Hn). simpl.
      eexists. split; [done|]. split; [done|].
      unfold RedisFallback.represents. cbn [waiting pending dead].
      rewrite !(proj2 (dlq_at_set_list _ _ _ _ _ Hk)), (proj1 (dlq_at_set_list _ _ _ _ _ Hk)).
      rewrite list_at_set_list, !list_at_set_list_ne, list_at_set_list by done.
      rewrite list_at_set_list_ne by done. split_and!; try done. by constructor.
    + destruct Hr as (_&->&->). apply last_None in Hlast. rewrite Hlast in Hq.
      apply Forall2_nil_inv_l in Hq as ->. cbn.
      exists []. split_and!; try done. unfold RedisFallback.represents. simpl. by rewrite Hlast.
Qed.

(** The keys of a consumer's queue do not get in each other's way. *)
Definition wf_consumer (c : RedisConsumer) : Prop :=
  if rc_use_redis_streams c then rc_payload_key c ≠ NUM_RECEIVES
  else distinct_keys (rc_queue_key c) (rc_processing_queue_key c) (rc_dlq_config c).

(** C29: [receive_all] on a server that answers, whichever implementation is
    configured.  It returns deliveries of the messages that have waited
    longest, oldest first, which are received and not settled from then on,
    and leaves the others waiting in their order: with streams as many as are
    asked for (all of them when none is), with lists one, whatever is asked
    for. *)
Theorem redis_receive_all c n deadline s m :
  wf_consumer c → 0 < as_millis deadline <= USIZE_MAX → delivery_size * n <= ISIZE_MAX →
  represents c (view s) m →
  let k := batch (rc_use_redis_streams c) n m in
  returns h view (RedisMain.receive_all oc delivery_size c n deadline) s (λ d r,
    ∃ ds, r = Ok ds ∧ delivers (oldest k m) ds ∧ represents c d (received k m)).
Proof.
  unfold wf_consumer, represents, RedisMain.receive_all. intros Hc Hdl Hcap Hm. start_wp.
  intros d Hm. destruct (rc_use_redis_streams c).
  - by apply wp_streams_receive_all.
  - apply wp_fallback_receive_all; [done|apply Hdl|done].
Qed.
End receive_all.

(** ** Witness *)

Lemma redis_receive_all_witness :
  returns serve_healthy sdb
    (RedisMain.receive_all true 40 RedisStreams.c0 0 (from_secs 1)) RedisStreams.s0 (λ d r,
    ∃ ds, r = Ok ds ∧ delivers [(bstr "b", 4)] ds ∧
      represents RedisStreams.c0 d (mkMqueue [] [(bstr "b", 4); (bstr "a", 4)] [])).
Proof.
  apply (redis_receive_all true 40 serve_healthy sdb RedisStreams.c0 0 (from_secs 1)
    RedisStreams.s0 (mkMqueue [(bstr "b", 4)] [(bstr "a", 4)] [])); [done|done|done|].
  exact represents0.
Defined.
