(* ===== verification/RedisProgress.v ===== *)
(** * What comes of waiting

    The background tasks of a redis queue ([backends/redis/fallback.rs] and
    [backends/redis/mod.rs]) on a server that answers, once the time has come:
    how many rounds they need, and what has become of the messages then. *)
From S2P Require Import Prelude RustStd Effects Omniqueue Queue RedisCodec RedisApi RedisConfig.
From S2P Require Import RedisSpec RedisFallback RedisMain.
Open Scope N_scope.

(** ** Time *)

(** The deadline [dl] has passed since each of the identifiers in front of
    [ks] was made: the moment [dl] ago has a later one. *)
Definition overdue (dl : Duration) (ks : list bytes) X (e : redisE X) (_ _ : db) : X → Prop :=
  match e in redisE X return X → Prop with
  | KsuidMsBefore t => λ o, t = dl → ∃ L, o = Done L ∧ Forall (λ k, bytes_le k L = true) ks
  | _ => λ _, True
  end.

(** The clock shows [T] or later. *)
Definition clock_from (T : SystemTime) X (e : redisE X) (_ _ : db) : X → Prop :=
  match e in redisE X return X → Prop with
  | SystemTimeNow => λ t, (T <= t)%Z
  | _ => λ _, True
  end.

(** ** Timed-out messages *)

Lemma holds_returned oc c ks ms :
  Forall2 RedisFallback.holds ks ms → Forall (λ m, m.2 < USIZE_MAX) ms →
  back_to_main oc c ks = returned c ms ∧ to_dead oc c ks = discarded c ms.
Proof.
  intros Hks. induction Hks as [|k [p n] ks ms Hk _ IH]; [done|].
  intros [Hn [IH1 IH2]%IH]%Forall_cons. unfold back_to_main, to_dead, returned, discarded in *.
  csimpl. rewrite (fallback_holds_parse oc _ _ _ Hk Hn). simpl.
  destruct (exhausted c (n + 1)); csimpl; by rewrite ?IH1, ?IH2.
Qed.

(** The last [n] elements of a list, as [LRANGE -n -1] gives them. *)
Lemma lrange_last n l :
  (0 < n)%nat → lrange (- Z.of_nat n) (-1) l = drop (length l - n) l.
Proof.
  intros Hn. unfold lrange. replace (- Z.of_nat n <? 0)%Z with true by (symmetry; apply Z.ltb_lt; lia).
  change (-1 <? 0)%Z with true. cbv match.
  destruct l as [|x l]; [by destruct n|]. set (k := x :: l).
  assert (0 < length k)%nat by (simpl; lia).
  destruct (Z.ltb_spec (Z.of_nat (length k) + -1) (Z.max 0 (Z.of_nat (length k) + - Z.of_nat n)));
    [lia|].
  replace (Z.to_nat (Z.max 0 (Z.of_nat (length k) + - Z.of_nat n))) with (length k - n)%nat by lia.
  apply take_ge. rewrite length_drop. lia.
Qed.

Lemma moved_app oc q pq c ks1 ks2 d d1 d2 :
  moved oc q pq c ks1 d d1 → moved oc q pq c ks2 d1 d2 → moved oc q pq c (ks1 ++ ks2) d d2.
Proof.
  intros (Hpq1&Hd1&b1&Hq1&Hb1) (Hpq2&Hd2&b2&Hq2&Hb2). unfold moved, remove_each, to_dead, back_to_main in *.
  rewrite foldl_app, !omap_app, Hpq2, Hpq1, Hd2, Hd1, Hq2, Hq1, <-!app_assoc.
  split_and!; [done..|]. exists (b1 ++ b2). split; [by rewrite app_assoc|]. by apply Forall2_app.
Qed.

Lemma remove_each_perm ks l : ks ⊆+ l → ks ++ remove_each ks l ≡ₚ l.
Proof.
  revert l. induction ks as [|k ks IH]; intros l Hks; [done|]. unfold remove_each. simpl.
  assert (k ∈ l) as Hin by (eapply elem_of_submseteq; [|exact Hks]; by left).
  pose proof (remove_first_perm k l Hin) as Hl. rewrite Hl at 2. apply Permutation_skip, IH.
  apply (submseteq_app_inv_l _ _ [k]). by rewrite Hl in Hks.
Qed.

Section lists.
Context (oc : bool) {S : Type} (h : handler redisE S) (view : S → db).
Context (dl : Duration) (ks : list bytes).
Abbreviation late_doc := (restrict (redis_doc false) (overdue dl ks)).
Abbreviation wpl := (wp late_doc).

(** A round when everything in the processing list is overdue. *)
Lemma wp_late_round q pq c d :
  distinct_keys q pq c → as_secs dl <= SAFE_DEADLINE → list_at pq d ⊆+ ks →
  Forall (λ k, ∃ p n, RedisFallback.holds k (p, n) ∧ n < USIZE_MAX) (list_at pq d) →
  wpl (reenqueue_timed_out_messages oc q pq dl c) d (λ d' r,
    r = Ok tt ∧ moved oc q pq c (drop (length (list_at pq d) - 50) (list_at pq d)) d d').
Proof.
  intros Hk Hdl Hks Hwf. set (l := list_at pq d) in *. unfold reenqueue_timed_out_messages.
  apply wp_bind_ok, wp_restrict, (wp_try_client _ PoolGet id); [done|done| |done..].
  unfold id.
  apply wp_bind_ok, wp_restrict, wp_lrange; [|done]. fold l.
  apply wp_bind, wp_call. split; [done|]. intros d' o [(->&Ho&_) Hlate].
  destruct (Hlate eq_refl) as (L&->&HL). cbn [lift bind].
  assert (Forall (λ k, bytes_le k L = true) l) as HlL.
  { rewrite Forall_forall in *. intros k Hin. apply HL. by eapply elem_of_submseteq. }
  change (-1)%Z with (- Z.of_nat 1)%Z at 1. rewrite lrange_last by lia.
  destruct (drop (length l - 1) l) as [|k rest] eqn:Hlast.
  { assert (l = []) as Hl.
    { apply (f_equal length) in Hlast. rewrite length_drop in Hlast. destruct l; simpl in *; [done|lia]. }
    apply wp_bind, wp_call. split; [done|]. intros d' x [-> _]. split; [done|].
    rewrite Hl. simpl. apply moved_nil. }
  assert (k ∈ l) as Hin.
  { eapply elem_of_submseteq; [|apply sublist_submseteq, (sublist_drop l (length l - 1))].
    rewrite Hlast. by left. }
  rewrite Forall_forall in HlL. rewrite (HlL k Hin).
  apply wp_bind_ok, wp_restrict, wp_lrange; [|done]. fold l.
  change (- RedisFallback.BATCH_SIZE)%Z with (- Z.of_nat 50)%Z. rewrite lrange_last by lia.
  set (batch := drop (length l - 50) l).
  assert (∀ x, x ∈ batch → x ∈ l) as Hsub.
  { intros x Hx. eapply elem_of_submseteq; [exact Hx|]. apply sublist_submseteq, sublist_drop. }
  eapply wp_restrict, wp_mono; [apply (wp_reenqueue_moved oc serve_healthy sdb); [done|]|].
  - rewrite Forall_forall in *. auto.
  - intros d' r [-> Hm]. split; [done|]. rewrite filter_all in Hm; [exact Hm|].
    apply Forall_forall. auto.
Qed.

Context `{!Lawful late_doc h view}.

(** What is known after [n] rounds: [done] entries of the processing list have
    been dealt with. *)
Definition drained q pq c (s : S) (n : nat) (s' : S) : Prop :=
  ∃ done, moved oc q pq c done (view s) (view s') ∧
    done ++ list_at pq (view s') ≡ₚ list_at pq (view s) ∧
    length (list_at pq (view s')) = (length (list_at pq (view s)) - 50 * n)%nat.

Lemma drained_step q pq c s n s1 :
  distinct_keys q pq c → as_secs dl <= SAFE_DEADLINE → list_at pq (view s) ⊆+ ks →
  Forall (λ k, ∃ p n, RedisFallback.holds k (p, n) ∧ n < USIZE_MAX) (list_at pq (view s)) →
  drained q pq c s n s1 →
  returns h view (reenqueue_timed_out_messages oc q pq dl c) s1 (λ d r, r = Ok tt ∧
    ∀ s2, view s2 = d → drained q pq c s (Datatypes.S n) s2).
Proof.
  intros Hk Hdl Hks Hwf (done&Hm&Hperm&Hlen).
  assert (list_at pq (view s1) ⊆+ list_at pq (view s)) as Hsub.
  { rewrite <-Hperm. by apply submseteq_inserts_l. }
  eapply returns_mono.
  { apply (wp_sound late_doc h view), wp_late_round; [exact Hk|done|by etrans|].
    rewrite Forall_forall in *. intros k Hin. apply Hwf. by eapply elem_of_submseteq. }
  intros d r [-> Hm2]. split; [done|]. intros s2 <-.
  set (l1 := list_at pq (view s1)) in *. set (batch := drop (length l1 - 50) l1) in *.
  pose proof (moved_app _ _ _ _ _ _ _ _ _ Hm Hm2) as Hm'. exists (done ++ batch).
  destruct Hm2 as (Hpq&_). fold l1 in Hpq.
  assert (batch ⊆+ l1) as Hb by apply sublist_submseteq, sublist_drop.
  pose proof (remove_each_perm batch l1 Hb) as Hrest. rewrite <-Hpq in Hrest.
  split_and!; [exact Hm'|by rewrite <-app_assoc, Hrest|].
  apply Permutation_length in Hrest. rewrite length_app in Hrest.
  unfold batch in Hrest. rewrite length_drop in Hrest. lia.
Qed.

(** After enough rounds nothing is left. *)
Lemma late_drains q pq c ms fuel s :
  distinct_keys q pq c → (0 <= ms <= 315360000000000)%Z → dl = ack_deadline_of ms →
  list_at pq (view s) ⊆+ ks →
  Forall (λ k, ∃ p n, RedisFallback.holds k (p, n) ∧ n < USIZE_MAX) (list_at pq (view s)) →
  (length (list_at pq (view s)) <= 50 * fuel)%nat →
  ∃ s' done, run h (background_task_processing oc fuel q pq ms c) s = Exhausted s' ∧
    done ≡ₚ list_at pq (view s) ∧ list_at pq (view s') = [] ∧
    moved oc q pq c done (view s) (view s').
Proof.
  intros Hk Hms Hdl Hks Hwf Hfuel.
  assert (as_secs dl <= SAFE_DEADLINE) as Hsafe.
  { rewrite Hdl. unfold ack_deadline_of, from_millis, as_secs, SAFE_DEADLINE. simpl.
    rewrite Z.mod_small by lia. apply N.Div0.div_le_upper_bound. lia. }
  destruct (run_loop_rounds h (λ _ : unit,
    let* r := reenqueue_timed_out_messages oc q pq dl c in
    match r with
    | Err _ => let* _ := call (Sleep (from_millis 500)) in Ret (inl tt)
    | Ok _ => Ret (inl tt : unit + Result unit)
    end) (drained q pq c s) fuel s O) as (s'&Hrun&done&Hm&Hperm&Hlen).
  - intros n s1 Hn. destruct (drained_step q pq c s n s1 Hk Hsafe Hks Hwf Hn)
      as (s2&r&Hr&->&Hd). exists s2. rewrite run_bind, Hr. split; [done|by apply Hd].
  - exists []. split_and!; [apply moved_nil; apply _|done|lia].
  - exists s', done. rewrite Hdl in Hrun.
    assert (list_at pq (view s') = []) as Hnil.
    { apply length_zero_iff_nil. lia. }
    rewrite Hnil, app_nil_r in Hperm. by split_and!.
Qed.

(** C10: what has not been settled comes back.  Let the list queue hold the
    messages [m], and let the deadline have passed for each of those that have
    been received and not settled.  On a server that answers, the background
    task of the queue needs one round for every 50 of them: then none is
    pending any more, and each is at the end of the main list that is received
    from next, with one more receive, or in the dead-letter queue, if its
    receives have reached the maximum; the other messages stay where they
    are. *)
Theorem unsettled_come_back cs ms fuel s m :
  let c := rc_dlq_config cs in
  distinct_keys (rc_queue_key cs) (rc_processing_queue_key cs) c →
  (0 <= ms <= 315360000000000)%Z → dl = ack_deadline_of ms →
  ks = list_at (rc_processing_queue_key cs) (view s) →
  RedisFallback.represents cs (view s) m → Forall (λ x, x.2 + 1 < USIZE_MAX) (pending m) →
  (length (pending m) <= 50 * fuel)%nat →
  ∃ s' order,
    run h (background_task_processing oc fuel (rc_queue_key cs) (rc_processing_queue_key cs) ms c) s
      = Exhausted s' ∧
    order ≡ₚ pending m ∧
    RedisFallback.represents cs (view s')
      (mkMqueue (waiting m ++ returned c order) [] (dead m ++ discarded c order)).
Proof.
  intros c Hk Hms Hdl Hks (Hw&Hp&Hd&Hs) Hsmall Hfuel. fold c in Hd.
  assert (Forall (λ x, x.2 < USIZE_MAX) (pending m)) as Hsmall'.
  { eapply Forall_impl; [exact Hsmall|]. simpl. lia. }
  destruct (late_drains _ _ c ms fuel s Hk Hms Hdl) as (s'&done&Hrun&Hperm&Hnil&Hm).
  - by rewrite Hks.
  - clear -Hp Hsmall'. induction Hp as [|k [p n] l l' Hk _ IH]; [done|].
    apply Forall_cons in Hsmall' as [Hn Hs]. constructor; eauto.
  - by rewrite (Forall2_length _ _ _ Hp).
  - symmetry in Hperm. destruct (Permutation_Forall2 Hperm Hp) as (order&Horder&Hdone).
    rewrite Horder in Hsmall, Hsmall'.
    destruct (holds_returned oc c done order Hdone Hsmall') as [Hback Hdead].
    destruct Hm as (_&Hdq&back&Hq&Hb). rewrite Hback in Hb. rewrite Hdead in Hdq.
    exists s', order. split_and!; [done|done|]. unfold RedisFallback.represents. cbn [waiting pending dead].
    fold c. rewrite Hq, Hnil, Hdq, Hd. split_and!; [by apply Forall2_app|done|done|].
    apply Forall_app. split; [done|]. by apply returned_small.
Qed.

(** A client that receives a message and acknowledges it, with a round of the
    background task between the two, and then receives again. *)
Definition ack_after_round (cs : RedisConsumer)
    : prog redisE (Result (option bytes * Result unit * option bytes)) :=
  let? first := RedisFallback.receive oc cs in
  let* _ := reenqueue_timed_out_messages oc (rc_queue_key cs) (rc_processing_queue_key cs) dl
              (rc_dlq_config cs) in
  let* settled := delivery_settle OpAck first in
  let? again := RedisFallback.receive oc cs in
  Ret (Ok (Delivery.borrow_payload first, settled, Delivery.borrow_payload again)).

(** C27: the deadline counts from the moment the message was sent, not from
    its receipt.  A message that has waited in the main list for longer than
    the deadline can be re-enqueued as soon as it is received: its ack
    succeeds, in time, on a server that answers, and the message is received
    once more. *)
Theorem deadline_counts_from_sending cs rest raw p n s :
  let c := rc_dlq_config cs in
  distinct_keys (rc_queue_key cs) (rc_processing_queue_key cs) c →
  as_secs dl <= SAFE_DEADLINE → ks = [raw] →
  list_at (rc_queue_key cs) (view s) = rest ++ [raw] →
  list_at (rc_processing_queue_key cs) (view s) = [] →
  RedisFallback.holds raw (p, n) → n + 1 < USIZE_MAX → exhausted c (n + 1) = None →
  returns h view (ack_after_round cs) s (λ _ r, r = Ok (Some p, Ok tt, Some p)).
Proof.
  intros c Hk Hdl Hks Hq Hpq Hraw Hn Hx. pose proof Hk as [Hqp _].
  refine (wp_sound late_doc h view _ s _ _). generalize dependent (view s). intros d Hq Hpq.
  apply wp_bind_ok, wp_restrict, (wp_receive oc false cs rest raw p n);
    [done|done|lia| |done..].
  set (d1 := claimed _ _ _ _ _).
  assert (list_at (rc_processing_queue_key cs) d1 = [raw]) as Hpq1.
  { unfold d1, claimed. by rewrite list_at_set_list, list_at_set_list_ne, Hpq by done. }
  assert (list_at (rc_queue_key cs) d1 = rest) as Hq1.
  { unfold d1, claimed. by rewrite list_at_set_list_ne, list_at_set_list by done. }
  apply wp_bind. eapply wp_mono; [apply wp_late_round; [exact Hk|done|by rewrite Hpq1, Hks|]|].
  { rewrite Hpq1. constructor; [|done]. exists p, n. split; [done|lia]. }
  intros d2 r [-> (Hpq2&_&back&Hq2&Hback)]. rewrite Hpq1 in *. rewrite Hq1 in Hq2.
  change (drop (length [raw] - 50) [raw]) with [raw] in *.
  destruct (holds_returned oc c [raw] [(p, n)]) as [Hret _];
    [by repeat constructor|constructor; simpl; [lia|done]|].
  fold c in Hback. rewrite Hret in Hback. unfold returned in Hback. csimpl in Hback.
  rewrite Hx in Hback. simpl in Hback.
  apply Forall2_cons_inv_r in Hback as (raw'&[|]&Hraw'&Hnil&->); [|by inversion Hnil].
  apply wp_bind. unfold delivery_settle, Delivery.ack. simpl.
  apply wp_bind, wp_bind, wp_bind, wp_bind, wp_restrict.
  apply (wp_fallback_ack false); [done| |done..]. intros _. simpl.
  apply wp_bind_ok, wp_restrict.
  apply (wp_receive oc false cs rest raw' p (n + 1)); [|done|done|done..].
  unfold dropped. by rewrite list_at_set_list_ne.
Qed.
End lists.

(** ** Delayed messages *)

(** The score [sc], in seconds, lies a full second before [T]. *)
Definition ripe (T : SystemTime) (sc : N) : Prop := ((Z.of_N sc + 1) * 1000000000 <= T)%Z.

Definition earlier (z : gmap bytes N) (a b : bytes) : Prop := default 0 (z !! a) <= default 0 (z !! b).

(** The members [order] have been taken out of [z], the earliest first. *)
Record taken (z z' : gmap bytes N) (order : list bytes) : Prop := {
  taken_nodup : NoDup order;
  taken_rest m : z' !! m = if decide (m ∈ order) then None else z !! m;
  taken_members m : m ∈ order → is_Some (z !! m);
  taken_sorted : StronglySorted (earlier z) order;
  taken_first a b : a ∈ order → b ∉ order → is_Some (z !! b) → earlier z a b;
}.

Lemma lookup_foldr_delete (z : gmap bytes N) l m :
  foldr delete z l !! m = if decide (m ∈ l) then None else z !! m.
Proof.
  induction l as [|x l IH]; cbn [foldr]; [done|]. destruct (decide (x = m)) as [->|Hne].
  - rewrite lookup_delete_eq, decide_True; [done|by left].
  - rewrite lookup_delete_ne, IH by done.
    destruct (decide (m ∈ l)) as [Hm|Hm], (decide (m ∈ x :: l)) as [Hm'|Hm']; try done;
      rewrite elem_of_cons in Hm'; exfalso; intuition congruence.
Qed.

Lemma taken_nil z : taken z z [].
Proof.
  split; [constructor|done| |constructor|].
  - by intros m ?%not_elem_of_nil.
  - by intros a b ?%not_elem_of_nil.
Qed.

Lemma StronglySorted_ext {A} (R R' : relation A) l :
  (∀ a b, a ∈ l → b ∈ l → R a b → R' a b) → StronglySorted R l → StronglySorted R' l.
Proof.
  intros HR. induction 1 as [|a l Hl IH Ha]; constructor.
  - apply IH. intros x y Hx Hy. apply HR; by right.
  - rewrite Forall_forall in *. intros b Hb. apply HR; [by left|by right|by apply Ha].
Qed.

(** One more batch. *)
Lemma taken_more z z1 order ts l :
  taken z z1 order → zrange_result z1 0 ts 50 l → taken z (foldr delete z1 l) (order ++ l).
Proof.
  intros [Hnd Hrest Hmem Hsort Hfirst] (Hndl&Hl&_&Hsl&Hfl).
  assert (∀ m, m ∈ l → (m ∉ order) ∧ ∃ sc, z !! m = Some sc ∧ z1 !! m = Some sc ∧ sc <= ts) as Hlz.
  { intros m (sc&Hsc&_&Hts)%Hl. pose proof (Hrest m) as Hr. rewrite Hsc in Hr.
    case_decide; [done|]. eauto 10. }
  assert (∀ m, m ∈ l → z1 !! m = z !! m) as Heq.
  { intros m (_&sc&Hz&Hz1&_)%Hlz. by rewrite Hz. }
  split.
  - apply NoDup_app. split_and!; [done| |done]. intros m Hm Hm'. by destruct (Hlz m Hm').
  - intros m. rewrite lookup_foldr_delete, Hrest.
    destruct (decide (m ∈ order ++ l)) as [Hm|Hm]; rewrite elem_of_app in Hm;
      destruct (decide (m ∈ l)), (decide (m ∈ order)); done || tauto.
  - intros m [Hm|Hm]%elem_of_app; [by apply Hmem|]. apply Hlz in Hm as (_&sc&Hz&_). eauto.
  - apply StronglySorted_app_2; [|done|].
    + intros a b Ha Hb. apply Hfirst; [done|by apply Hlz|]. apply Hlz in Hb as (_&sc&Hz&_). eauto.
    + eapply StronglySorted_ext; [|exact Hsl]. intros a b Ha Hb. unfold earlier.
      by rewrite !Heq by done.
  - intros a b [Ha|Ha]%elem_of_app Hb [sc Hsc]; rewrite elem_of_app in Hb;
      [by apply Hfirst; [|tauto|exists sc]|].
    assert (z1 !! b = Some sc) as Hb1 by (rewrite Hrest, decide_False; tauto).
    unfold earlier. rewrite <-(Heq a), Hsc by done. simpl.
    destruct (N.le_gt_cases sc ts) as [Hle|Hgt]; [apply Hfl with b; [done|tauto|done|lia]|].
    destruct (Hlz a Ha) as (_&sca&_&->&Hsca). simpl. lia.
Qed.

(** A batch that is not full has taken everything within its bounds. *)
Lemma zrange_short z lo hi count l b sc :
  zrange_result z lo hi count l → (length l < count)%nat →
  z !! b = Some sc → lo <= sc <= hi → b ∈ l.
Proof.
  intros (Hnd&Hl&Hlen&_) Hshort Hb Hsc.
  set (k := (filter (λ p : bytes * N, lo <= p.2 <= hi) (map_to_list z)).*1).
  assert (∀ m sc, z !! m = Some sc → lo <= sc <= hi → m ∈ k) as Hk.
  { intros m sc' Hm Hsc'. apply list_elem_of_fmap. exists (m, sc'). split; [done|].
    apply list_elem_of_filter. split; [done|]. by apply elem_of_map_to_list. }
  assert (l ⊆+ k) as Hsub.
  { apply NoDup_submseteq; [done|]. intros m (sc'&Hm&Hsc')%Hl. by eapply Hk. }
  apply submseteq_length_Permutation in Hsub as ->; [by eapply Hk|].
  unfold k. rewrite length_fmap. lia.
Qed.

#[export] Instance ripe_dec T sc : Decision (ripe T sc).
Proof. unfold ripe. apply _. Defined.

(** The members of [z] that are ripe at [T]. *)
Definition ripe_in (T : SystemTime) (z : gmap bytes N) : list bytes :=
  (filter (λ p, ripe T p.2) (map_to_list z)).*1.

Lemma elem_of_ripe_in T z m : m ∈ ripe_in T z ↔ ∃ sc, z !! m = Some sc ∧ ripe T sc.
Proof.
  unfold ripe_in. rewrite list_elem_of_fmap. setoid_rewrite list_elem_of_filter. split.
  - intros ([m' sc]&->&Hsc&Hm%elem_of_map_to_list). eauto.
  - intros (sc&Hm%elem_of_map_to_list&Hsc). by exists (m, sc).
Qed.

(** When enough have been taken, all the ripe ones have. *)
Lemma taken_enough T z z' order :
  taken z z' order → (length (ripe_in T z) <= length order)%nat →
  ∀ m, m ∈ ripe_in T z → m ∈ order.
Proof.
  intros Ht Hlen m Hm. destruct (decide (m ∈ order)) as [|Hout]; [done|].
  pose proof Hm as (sc&Hsc&Hripe)%elem_of_ripe_in.
  assert (m :: order ⊆+ ripe_in T z) as Hsub.
  { apply NoDup_submseteq; [constructor; [done|apply Ht]|].
    intros a [->|Ha]%elem_of_cons; [done|]. apply elem_of_ripe_in.
    destruct (taken_members _ _ _ Ht _ Ha) as [sca Hsca]. exists sca. split; [done|].
    pose proof (taken_first _ _ _ Ht a m Ha Hout ltac:(eauto)) as Hle.
    unfold earlier in Hle. rewrite Hsc, Hsca in Hle. simpl in Hle. unfold ripe in *. lia. }
  apply submseteq_length in Hsub. simpl in Hsub. lia.
Qed.

(** No command turns the clock back. *)
Lemma fallible_kept {Y B} faulty (eff : db → db → Y → Prop) (f : db → B) d d' r :
  (∀ y, eff d d' y → f d' = f d) → fallible faulty eff d d' r → f d' = f d.
Proof.
  intros Heff. destruct r as [y|e]; [apply Heff|].
  intros [[_ [->|[y Hy]]]|[-> _]]; [done|by eapply Heff|done].
Qed.

Lemma pipe_step_clock c d d' : pipe_step c d d' → read_clock d' = read_clock d.
Proof. destruct c; simpl; [by intros (i&_&->)|intros ->; unfold xack; by case_match|by intros ->]. Qed.

Ltac destruct_eff :=
  repeat match goal with
  | H : _ ∧ _ |- _ => destruct H
  | H : ∃ _, _ |- _ => destruct H
  | H : _ ∨ _ |- _ => destruct H
  end.

Lemma clock_kept faulty T X (e : redisE X) d d' x :
  redis_documented faulty X e d d' x → clock_from T X e d d' x →
  (T <= read_clock d)%Z → (T <= read_clock d')%Z.
Proof.
  assert (read_clock d' = read_clock d → (T <= read_clock d)%Z → (T <= read_clock d')%Z) as Hsame
    by (by intros ->).
  destruct e; simpl; intros Hdoc Hkn;
    try (apply Hsame; revert Hdoc; apply fallible_kept; unfold becomes; intros; destruct_eff;
         cbv zeta in *; split_matches; destruct_eff; subst; done).
  - apply Hsame. revert Hdoc. apply fallible_kept. intros _. apply pipe_step_clock.
  - destruct Hdoc as [_ ->]. done.
  - destruct Hdoc as (_&_&->). by apply Hsame.
  - destruct Hdoc as (->&_). by apply Hsame.
  - subst d'. by apply Hsame.
Qed.

Section delayed.
Context (oc : bool) {S : Type} (h : handler redisE S) (view : S → db) (T : SystemTime).
Abbreviation later_doc := (restrict (redis_doc false) (clock_from T)).
Context (streams : bool) (q dq lock : key) (pk : string).

Definition well_formed_set (z : gmap bytes N) : Prop :=
  map_Forall (λ m _, ∃ p n, RedisFallback.holds m (p, n) ∧ n < USIZE_MAX) z.

Lemma well_formed_parse z due :
  well_formed_set z → (∀ m, m ∈ due → is_Some (z !! m)) →
  ∀ err, outcome_collect (internal_from_list oc <$> due) ≠ Done (Err err).
Proof.
  intros Hz Hdue err. revert Hdue. induction due as [|m due IH]; intros Hdue; [done|].
  destruct (Hdue m ltac:(by left)) as [sc Hsc]. destruct (Hz m sc Hsc) as (p&n&Hm&Hn).
  cbn [fmap list_fmap outcome_collect]. rewrite (fallback_holds_parse oc _ _ _ Hm Hn).
  cbn [outcome_try]. specialize (IH ltac:(intros x Hx; apply Hdue; by right)).
  destruct (outcome_collect _) as [[iis|e]|]; cbn [outcome_try]; done.
Qed.

(** A round when the lock is free and the clock has reached [T]. *)
Lemma wp_later_round d :
  lock ∉ locks d → (1000000000 <= T)%Z → well_formed_set (zset_at dq d) →
  wp later_doc (background_task_delayed oc q dq lock pk streams) d (λ d' r,
    r = Ok tt ∧ (lock ∉ locks d') ∧ ∃ due ts,
      zrange_result (zset_at dq d) 0 ts 50 due ∧ (∀ sc, ripe T sc → sc <= ts) ∧
      added [] streams q pk (RedisFallback.content <$> due) d d' ∧
      zset_at dq d' = foldr delete (zset_at dq d) due).
Proof.
  intros Hlock HT Hwf. unfold background_task_delayed.
  apply wp_bind_ok, wp_restrict, wp_pool_get; [|done].
  apply wp_bind_ok, wp_restrict. eapply (wp_command _ (SetNxPx _ _)); [done|done|..]; cbv beta;
    [do 2 eexists; by left| |done|done].
  intros d1 o [[-> ->]|(_&?&_)]; [|done]. rewrite bool_decide_eq_true_2 by done.
  set (d1 := set_locks _ d).
  pose proof (wp_move_due oc false streams q dq lock pk d1) as Hmove. unfold move_due in *.
  rewrite wp_bind, wp_call in Hmove. destruct Hmove as [_ Hmove].
  { intros m sc Hm. destruct (Hwf m sc Hm) as (p&n&Hh&Hn).
    by rewrite (fallback_holds_parse oc _ _ _ Hh Hn). }
  apply wp_bind, wp_call. split; [done|]. intros d2 now [Hdoc Hnow].
  assert (T <= read_clock d2)%Z as Hclock by (by destruct Hdoc as [_ ->]).
  eapply wp_mono.
  { refine (wp_restrict_inv _ _ (λ d, T <= read_clock d)%Z _ d2 _ _ Hclock (Hmove _ _ Hdoc)).
    intros X e d3 d4 x ??. by apply (clock_kept false T X e d3 d4 x). }
  intros d' r [Hr Hc].
  destruct Hr as [due ts Hts Hz Ha Hdel Hl|e ms _ _ _ Hwhy|e due ts Hf]; [|exfalso|done].
  - do 2 (split; [try done|]);
      [rewrite Hl; by intros [_ Hn%not_elem_of_singleton]%elem_of_difference|]. exists due, ts.
    split_and!; [done| |done|done].
    intros sc Hsc. apply unix_timestamp_Ok in Hts as [_ Hts]. unfold ripe in Hsc.
    apply N2Z.inj_le. rewrite Hts. apply Z.div_le_lower_bound; lia.
  - destruct (Hwhy eq_refl) as [_ [[err Herr]|(ts&due&err&_&(_&Hin&_)&Herr)]].
    + unfold unix_timestamp, duration_since_epoch in Herr.
      destruct (Z.ltb_spec (read_clock d' - 1000000000) 0); [lia|done].
    + eapply (well_formed_parse (zset_at dq d)); [exact Hwf| |exact Herr].
      intros m (sc&Hsc&_)%Hin. eauto.
Qed.

Context `{!Lawful later_doc h view}.

(** What is known after [n] rounds. *)
Definition promoted (s : S) (n : nat) (s' : S) : Prop :=
  (lock ∉ locks (view s')) ∧ ∃ order,
    taken (zset_at dq (view s)) (zset_at dq (view s')) order ∧
    added [] streams q pk (RedisFallback.content <$> order) (view s) (view s') ∧
    ((50 * n <= length order)%nat ∨ ∀ m, m ∈ ripe_in T (zset_at dq (view s)) → m ∈ order).

Lemma promoted_step s n s1 :
  (1000000000 <= T)%Z → well_formed_set (zset_at dq (view s)) → promoted s n s1 →
  returns h view (background_task_delayed oc q dq lock pk streams) s1 (λ d r, r = Ok tt ∧
    ∀ s2, view s2 = d → promoted s (Datatypes.S n) s2).
Proof.
  intros HT Hwf (Hlock&order&Ht&Ha&Hn). eapply returns_mono.
  { apply (wp_sound later_doc h view), wp_later_round; [done|done|].
    intros m sc Hm. rewrite (taken_rest _ _ _ Ht) in Hm. case_decide; [done|]. by eapply Hwf. }
  intros d r (->&Hl&due&ts&Hz&Hts&Ha2&Hdel). split; [done|]. intros s2 <-.
  split; [done|]. exists (order ++ due). rewrite fmap_app. split_and!.
  - rewrite Hdel. by eapply taken_more.
  - by eapply added_app.
  - destruct Hn as [Hn|Hall]; [|right; intros m Hm; apply elem_of_app; auto].
    destruct (decide (50 <= length due)%nat) as [Hfull|Hshort].
    + left. rewrite length_app. lia.
    + right. intros m (sc&Hm&Hsc)%elem_of_ripe_in. apply elem_of_app.
      destruct (decide (m ∈ order)) as [|Hout]; [by left|]. right.
      eapply (zrange_short _ _ _ _ _ m sc Hz); [lia| |specialize (Hts sc Hsc); lia].
      by rewrite (taken_rest _ _ _ Ht), decide_False.
Qed.

(** C12: delayed messages come out.  Once the clock has gone a second past
    the moments some delayed messages are scheduled for, the background task
    of a server that answers, the lock being free, needs one round for every
    50 of them: then all of them are in the main queue.  What has been taken
    from the delayed set has been added to the main queue, each message once,
    with its payload, and in the order of the scheduled moments; the rest is
    still in the delayed set. *)
Theorem due_messages_come_out fuel s :
  lock ∉ locks (view s) → (1000000000 <= T)%Z → well_formed_set (zset_at dq (view s)) →
  (length (ripe_in T (zset_at dq (view s))) <= 50 * fuel)%nat →
  ∃ s' order,
    run h (delayed_task oc fuel q dq lock pk streams) s = Exhausted s' ∧
    taken (zset_at dq (view s)) (zset_at dq (view s')) order ∧
    added [] streams q pk (RedisFallback.content <$> order) (view s) (view s') ∧
    ∀ m, m ∈ ripe_in T (zset_at dq (view s)) → m ∈ order.
Proof.
  intros Hlock HT Hwf Hfuel.
  destruct (run_loop_rounds h (λ _ : unit,
    let* r := background_task_delayed oc q dq lock pk streams in
    match r with
    | Err _ => let* _ := call (Sleep (from_millis 500)) in Ret (inl tt)
    | Ok _ => Ret (inl tt : unit + Result unit)
    end) (promoted s) fuel s O) as (s'&Hrun&_&order&Ht&Ha&Hn).
  - intros n s1 Hs1. destruct (promoted_step s n s1 HT Hwf Hs1) as (s2&r&Hr&->&Hd).
    exists s2. rewrite run_bind, Hr. split; [done|by apply Hd].
  - split; [done|]. exists []. split_and!; [apply taken_nil|by apply added_refl|left; lia].
  - exists s', order. split_and!; [done|done|done|].
    destruct Hn as [Hn|]; [|done]. eapply taken_enough; [done|lia].
Qed.
End delayed.

(** ** Witnesses *)

(** A server whose clock shows [T]. *)
Definition serve_at (T : SystemTime) X (e : redisE X) (s : server) : option (server * X) :=
  serve_healthy X e (mkServer (sdb s) [] T (limit s)).

Lemma serve_late_lawful L dl ks :
  as_secs dl <= WILD_DEADLINE → Forall (λ k, bytes_le k L = true) ks →
  Lawful (restrict (redis_doc false) (overdue dl ks)) (serve_late L) sdb.
Proof.
  intros Hdl HL. split; intros X e s; unfold serve_late; [intros s' x Hx|intros Hr].
  - split; [exact (lawful_sound (R := redis_doc false) X e (mkServer (sdb s) [] (wall s) L) s' x Hx)|].
    destruct e; try done. unfold serve_healthy in Hx. simpl in Hx. injection Hx as <- <-.
    intros ->. exists L. split; [|done]. by destruct (N.leb_spec (as_secs dl) WILD_DEADLINE); [|lia].
  - exact (lawful_live (R := redis_doc false) X e (mkServer (sdb s) [] (wall s) L) Hr).
Qed.

Lemma serve_at_lawful T :
  clock_sane T = true → Lawful (restrict (redis_doc false) (clock_from T)) (serve_at T) sdb.
Proof.
  intros HT. split; intros X e s; unfold serve_at; [intros s' x Hx|intros Hr].
  - split; [exact (lawful_sound (R := redis_doc false) X e (mkServer (sdb s) [] T (limit s)) s' x Hx)|].
    destruct e; try done. unfold serve_healthy in Hx. simpl in Hx. rewrite HT in Hx.
    injection Hx as <- <-. simpl. lia.
  - exact (lawful_live (R := redis_doc false) X e (mkServer (sdb s) [] T (limit s)) Hr).
Qed.

Lemma late0 : Lawful (restrict (redis_doc false) (overdue (ack_deadline_of 30000) [raw2; raw1]))
  (serve_late (bstr "k3")) sdb.
Proof. apply serve_late_lawful; [by vm_compute|by repeat constructor]. Qed.

Lemma late1 : Lawful (restrict (redis_doc false) (overdue (from_secs 30) [raw1]))
  (serve_late (bstr "k3")) sdb.
Proof. apply serve_late_lawful; [by vm_compute|by repeat constructor]. Qed.

Lemma list_represents0 : RedisFallback.represents c0 RedisFallback.db0
  (mkMqueue [(bstr "a", 0); (bstr "b", 4)] [(bstr "b", 4); (bstr "a", 0)] []).
Proof. split_and!; repeat constructor; apply holds_raw1 || apply holds_raw2. Qed.

(** A message that waits to be received, and nothing else. *)
Definition s_waiting : server :=
  mkServer (mkDb {[ "q"%string := [raw1] ]} ∅ ∅ ∅ ∅ 0%Z) [] 0%Z [].

(** One of the two pending messages has exhausted its receives. *)
Lemma unsettled_come_back_witness :
  ∃ s' order,
    run (serve_late (bstr "k3")) (background_task_processing true 1 "q" "p" 30000
      (Some (mkDlq "dlq" 5))) RedisFallback.s0 = Exhausted s' ∧
    order ≡ₚ [(bstr "b", 4); (bstr "a", 0)] ∧
    RedisFallback.represents c0 (sdb s')
      (mkMqueue ([(bstr "a", 0); (bstr "b", 4)] ++ returned (Some (mkDlq "dlq" 5)) order) []
         ([] ++ discarded (Some (mkDlq "dlq" 5)) order)).
Proof.
  pose proof late0 as Hlaw.
  apply (unsettled_come_back true (serve_late (bstr "k3")) sdb (ack_deadline_of 30000) [raw2; raw1]
    c0 30000 1 RedisFallback.s0
    (mkMqueue [(bstr "a", 0); (bstr "b", 4)] [(bstr "b", 4); (bstr "a", 0)] []));
    [exact distinct0|lia|done|done|exact list_represents0|by repeat constructor|simpl; lia].
Defined.

Lemma deadline_counts_from_sending_witness :
  returns (serve_late (bstr "k3")) sdb (ack_after_round true (from_secs 30) c0) s_waiting
    (λ _ r, r = Ok (Some (bstr "a"), Ok tt, Some (bstr "a"))).
Proof.
  pose proof late1 as Hlaw.
  apply (deadline_counts_from_sending true (serve_late (bstr "k3")) sdb (from_secs 30) [raw1]
    c0 [] raw1 (bstr "a") 0 s_waiting);
    [exact distinct0|by vm_compute|done|done|done|exact holds_raw1|done|done].
Defined.

Lemma holds_due2 : RedisFallback.holds due2 (bstr "b", 0).
Proof.
  assert (wf_id (bstr "k2")) as Hid.
  { unfold wf_id, no_byte. split_and!; [| |done]; apply (bool_decide_unpack _); done. }
  exact (entry_count (bstr "k2") (bstr "0") 0 (bstr "b") Hid eq_refl).
Qed.

Lemma well_formed_set0 : well_formed_set (zset_at "d" RedisMain.db0).
Proof.
  unfold zset_at, RedisMain.db0. cbn [zsets]. rewrite lookup_singleton_eq. cbn [default].
  apply map_Forall_insert_2; [exists (bstr "a"), 0; split; [apply holds_raw1|done]|].
  apply map_Forall_singleton. exists (bstr "b"), 0. split; [apply holds_due2|done].
Qed.

(** At 100 seconds past 1970 one of the two delayed messages is due. *)
Lemma due_messages_come_out_witness :
  ∃ s', run (serve_at 100000000000) (delayed_task true 1 "q" "d" "l" "payload" false) RedisMain.s0
      = Exhausted s' ∧
    zset_at "d" (sdb s') !! due1 = None.
Proof.
  pose proof (serve_at_lawful 100000000000 eq_refl) as Hlaw.
  destruct (due_messages_come_out true (serve_at 100000000000) sdb 100000000000 false "q" "d" "l"
    "payload" 1 RedisMain.s0 ltac:(by apply not_elem_of_empty) ltac:(lia) well_formed_set0
    ltac:(vm_compute; lia)) as (s'&order&Hrun&Ht&_&Hall).
  exists s'. split; [exact Hrun|]. rewrite (taken_rest _ _ _ Ht), decide_True; [done|].
  apply Hall, elem_of_ripe_in. exists 10. split; [done|]. unfold ripe. lia.
Defined.
