(* ===== verification/RedisStreamsProgress.v ===== *)
(** * What comes of waiting, with streams

    The background task of the stream-based queue ([backends/redis/streams.rs])
    on a server that answers, once everything that is pending has been idle
    for longer than the deadline: one round exactly, how many rounds are
    needed, and what has become of the messages then. *)
From S2P Require Import Prelude RustStd Effects Omniqueue Queue RedisCodec RedisApi RedisConfig.
From S2P Require Import RedisSpec RedisStreams.
Open Scope N_scope.

Abbreviation sentry := (RedisApi.entry_id * list (string * bytes))%type.

(** What the group [gn] of the stream [q] has pending has been idle for
    longer than [ms]: XAUTOCLAIM claims as many entries as it is asked for, if
    there are so many. *)
Definition all_idle (q : key) (gn : string) (ms : Z) X (e : redisE X) (d _ : db) : X → Prop :=
  match e in redisE X return X → Prop with
  | Xautoclaim k gn' _ min_idle count => λ r, k = q → gn' = gn → min_idle = ms →
      wf_stream (stream_at q d) → ∀ ids g, r = Ok ids → groups (stream_at q d) !! gn = Some g →
        length ids = Nat.min (N.to_nat count) (length (find_entries (pel g) (stream_at q d)))
  | _ => λ _, True
  end.

(** ** Lists *)

Lemma sorted_sublist {A} (R : relation A) l k :
  l `sublist_of` k → StronglySorted R k → StronglySorted R l.
Proof.
  intros Hl. induction Hl as [|x l k Hl IH|x l k Hl IH]; [done|..];
    intros [Hk Hx]%StronglySorted_inv; [|by apply IH].
  constructor; [by apply IH|]. rewrite Forall_forall in *. intros y Hy. apply Hx.
  eapply elem_of_submseteq; [exact Hy|by apply sublist_submseteq].
Qed.

Lemma sublist_all {A} (l k : list A) : l `sublist_of` k → (length k <= length l)%nat → l = k.
Proof.
  induction 1 as [|x l k Hl IH|x l k Hl IH]; intros Hlen; [done|f_equal; apply IH; simpl in *; lia|].
  apply sublist_length in Hl. simpl in Hlen. lia.
Qed.

Lemma Forall2_partition {A B} (R : A → B → Prop) (P : A → Prop) `{∀ x, Decision (P x)} l k :
  Forall2 R l k → ∃ k1 k2, k1 ++ k2 ≡ₚ k ∧
    Forall2 R (filter P l) k1 ∧ Forall2 R (filter (λ x, ¬ P x) l) k2.
Proof.
  induction 1 as [|x y l k Hxy _ (k1&k2&Hp&H1&H2)]; [by exists [], []|].
  destruct (decide (P x)) as [Hx|Hx].
  - exists (y :: k1), k2. rewrite filter_cons_True, filter_cons_False by tauto.
    split_and!; [by simpl; rewrite Hp|by constructor|done].
  - exists k1, (y :: k2). rewrite filter_cons_False, filter_cons_True by tauto.
    split_and!; [by rewrite <-Permutation_middle, Hp|done|by constructor].
Qed.

(** ** The stream and its pending entries *)

Lemma split_wf c d g old new : stream_split c d g old new → wf_stream (stream_at (rc_queue_key c) d).
Proof.
  intros [_ He _ Ho Hn Ht Hs]. unfold wf_stream, entry_ids. rewrite He. split.
  - clear -Hs. induction Hs as [|e l _ IH He]; [constructor|]. cbn [fmap list_fmap].
    constructor; [|done]. intros (x&Heq&Hx)%list_elem_of_fmap. rewrite Forall_forall in He.
    specialize (He x Hx). unfold before in He. lia.
  - apply Forall_fmap, Forall_app. split; eapply Forall_impl; [exact Ho| |exact Hn|];
      simpl; intros x; lia.
Qed.

Lemma split_lists c d d' g old new :
  stream_at (rc_queue_key c) d' = stream_at (rc_queue_key c) d →
  stream_split c d g old new → stream_split c d' g old new.
Proof. intros Heq []. split; by rewrite ?Heq. Qed.

(** A claim changes the owners of entries only. *)
Lemma split_claimed c d g pel' old new :
  stream_split c d g old new → pel' `sublist_of` pel g →
  (∀ i, i ∈ pel g → i ∈ entry_ids (stream_at (rc_queue_key c) d) → i ∈ pel') →
  stream_split c (set_stream (rc_queue_key c) (with_group (rc_consumer_group c)
      (mkCgroup (last_delivered g) pel') (stream_at (rc_queue_key c) d)) d)
    (mkCgroup (last_delivered g) pel') old new.
Proof.
  intros Hsp Hsub Hall. pose proof (split_wf _ _ _ _ _ Hsp) as [Hnd _].
  destruct Hsp as [Hg He Hp Ho Hn Ht Hs]. unfold entry_ids in *.
  rewrite He, fmap_app in *.
  assert (pel' = pel g) as ->.
  { apply sublist_all; [done|]. apply submseteq_length, NoDup_submseteq.
    - rewrite Hp. by apply NoDup_app in Hnd as [? _].
    - intros i Hi. apply Hall; [done|]. rewrite Hp in Hi. apply elem_of_app. by left. }
  split; rewrite ?stream_at_set_stream; simpl; try done. by rewrite lookup_insert_eq.
Qed.

(** The pending entries are those delivered. *)
Lemma find_pending c d g old new chosen :
  stream_split c d g old new → chosen ⊆ old.*1 →
  find_entries chosen (stream_at (rc_queue_key c) d) = filter (λ e, e.1 ∈ chosen) old.
Proof.
  intros [_ He _ Ho Hn _ _] Hch. unfold find_entries. rewrite He, filter_app.
  rewrite (filter_none _ new); [by rewrite app_nil_r|].
  eapply Forall_impl; [exact Hn|]. simpl. intros e He' Hin.
  apply Hch, list_elem_of_fmap in Hin as (x&Heq&Hx).
  rewrite Forall_forall in Ho. specialize (Ho x Hx). simpl in Ho. rewrite Heq in He'. lia.
Qed.

Lemma split_xadds c adds d d' g old new :
  stream_split c d g old new → pipe_steps (PXadd (rc_queue_key c) <$> adds) d d' →
  ∃ news, news.*2 = adds ∧ stream_split c d' g old (new ++ news) ∧ lists d' = lists d.
Proof.
  revert d new. induction adds as [|fs adds IH]; intros d new Hsp.
  { intros ->. exists []. by rewrite app_nil_r. }
  intros (d1&(i&Hi&->)&Hsteps).
  apply (split_xadd _ _ _ _ _ fs i) in Hsp; [|done].
  destruct (IH _ _ Hsp Hsteps) as (news&Hn&Hsp'&Hl). exists ((i, fs) :: news).
  rewrite <-app_assoc in Hsp'. split_and!; [cbn [fmap list_fmap]; by f_equal|done|by rewrite Hl].
Qed.

(** Removing delivered entries. *)
Lemma split_deleted c ids d g old new :
  stream_split c d g old new → ids ⊆ old.*1 →
  let d' := xdel (rc_queue_key c) ids (xack (rc_queue_key c) (rc_consumer_group c) ids d) in
  stream_split c d' (mkCgroup (last_delivered g) (filter (λ i, i ∉ ids) (pel g)))
    (filter (λ e, e.1 ∉ ids) old) new ∧ lists d' = lists d.
Proof.
  intros [Hg He Hp Ho Hn Ht Hs] Hids d'.
  assert (Forall (λ e, e.1 ∉ ids) new) as Hnew.
  { eapply Forall_impl; [exact Hn|]. simpl. intros e He' Hin.
    apply Hids, list_elem_of_fmap in Hin as (x&Heq&Hx).
    rewrite Forall_forall in Ho. specialize (Ho x Hx). simpl in Ho. rewrite Heq in He'. lia. }
  assert (stream_at (rc_queue_key c) d' =
    mkStream (filter (λ x, x.1 ∉ ids) (old ++ new)) (top_id (stream_at (rc_queue_key c) d))
      (<[rc_consumer_group c :=
           mkCgroup (last_delivered g) (filter (λ i, i ∉ ids) (pel g))]>
         (groups (stream_at (rc_queue_key c) d)))) as Hst.
  { unfold d', xdel, xack. rewrite Hg, !stream_at_set_stream. simpl. by rewrite He. }
  assert (filter (λ x, x.1 ∉ ids) (old ++ new) = filter (λ x, x.1 ∉ ids) old ++ new) as Hf.
  { by rewrite filter_app, (filter_all _ new). }
  split; [split; rewrite ?Hst; cbn [groups entries top_id pel last_delivered]|].
  - by rewrite lookup_insert_eq.
  - exact Hf.
  - rewrite Hp. clear. induction old as [|e l IH]; [done|]. cbn [fmap list_fmap].
    destruct (decide (e.1 ∈ ids)).
    + by rewrite !filter_cons_False by tauto.
    + rewrite !filter_cons_True by done. cbn [fmap list_fmap]. by f_equal.
  - rewrite Forall_forall in *. intros e [_ Hin]%list_elem_of_filter. auto.
  - done.
  - done.
  - rewrite <-Hf. eapply sorted_sublist; [apply sublist_filter|done].
  - unfold d', xdel, xack. by rewrite Hg.
Qed.

(** ** A round, exactly *)

Definition written (payload_key : string) (m : bytes * N) : list (string * bytes) :=
  internal_to_stream_payload (mkInternalPayload m.1 m.2) payload_key.

Section streams.
Context (oc : bool) (cs : RedisConsumer).
Abbreviation q := (rc_queue_key cs).
Abbreviation pk := (rc_payload_key cs).
Abbreviation dlq := (rc_dlq_config cs).
Context (Hpk : pk ≠ NUM_RECEIVES).

(** The loop over the claimed entries. *)
Lemma wp_readd_exact l ms pipe d :
  wf_stream (stream_at q d) → Forall (λ e, e ∈ entries (stream_at q d)) l →
  Forall2 (holds pk) l ms → Forall (λ x, x.2 + 1 < USIZE_MAX) ms →
  wp (redis_doc false) (readd oc q pk dlq (read_entry <$> l) pipe) d (λ d' r,
    streams d' = streams d ∧ dlq_at dlq d' = dlq_at dlq d ++ discarded dlq ms ∧
    r = Ok (pipe ++ (PXadd q <$> (written pk <$> returned dlq ms)))).
Proof.
  intros Hwf Hin Hl. revert pipe d Hwf Hin. induction Hl as [|e [p n] l ms He _ IH];
    intros pipe d Hwf Hin Hs; [by rewrite !app_nil_r|].
  apply Forall_cons in Hin as [Hine Hin]. apply Forall_cons in Hs as [Hn Hs]. simpl in Hn.
  destruct (streams_holds_parse oc pk e p n Hpk ltac:(lia) He) as [Hparse Hpay].
  cbn [fmap list_fmap readd]. rewrite Hparse. apply wp_bind_ok. cbn [lift]. apply wp_Ret.
  assert (exhausted dlq (n + 1) = None →
    wp (redis_doc false) (readd oc q pk dlq (read_entry <$> l)
        (pipe ++ [PXadd q (internal_to_stream_payload (mkInternalPayload p (n + 1)) pk)])) d
      (λ d' r, streams d' = streams d ∧
         dlq_at dlq d' = dlq_at dlq d ++ discarded dlq ((p, n) :: ms) ∧
         r = Ok (pipe ++ (PXadd q <$> (written pk <$> returned dlq ((p, n) :: ms)))))) as Hadd.
  { intros Hx. unfold discarded, returned. csimpl. rewrite Hx.
    eapply wp_mono; [by apply IH|]. intros d' r (Hst&Hd&->). by rewrite <-app_assoc. }
  clear He. destruct dlq as [c|] eqn:Hdlq; [|by apply Hadd]. cbn [num_receives].
  unfold exhausted, max_retries_reached in Hadd. destruct (max_receives c <=? n + 1) eqn:Hm;
    [|by apply Hadd].
  apply wp_bind_ok. eapply (wp_streams_send_to_dlq false q c e); [by apply xrange_one|exact Hpay| |done..].
  eapply wp_mono; [apply IH; [exact Hwf|exact Hin|done]|]. intros d' r (Hst&Hd&->).
  rewrite Hd, dlq_at_given_up, <-app_assoc. unfold discarded, returned. csimpl.
  unfold exhausted, max_retries_reached. by rewrite Hm.
Qed.

Lemma stream_holds_written news ms : news.*2 = written pk <$> ms → Forall2 (holds pk) news ms.
Proof.
  revert ms. induction news as [|e news IH]; intros [|m ms] H; try done.
  cbn [fmap list_fmap] in H. injection H as He H. constructor; [exact He|by apply IH].
Qed.

(** The claimed entries leave the stream, and those that go back are behind
    all others. *)
Lemma wp_move_exact g old new chosen m d d1 :
  stream_split cs d1 g old new → lists d1 = lists d →
  Forall2 (holds pk) old (reverse (pending m)) → Forall2 (holds pk) new (reverse (waiting m)) →
  dlq_at dlq d = dead m → Forall (λ x, x.2 < USIZE_MAX) (waiting m) →
  Forall (λ x, x.2 + 1 < USIZE_MAX) (pending m) → chosen ⊆ old.*1 →
  let claimed := filter (λ e, e.1 ∈ chosen) old in
  wp (redis_doc false) (move oc q (rc_consumer_group cs) pk dlq (read_entry <$> claimed)) d1 (λ d' r,
    r = Ok tt ∧ ∃ order rest, order ++ rest ≡ₚ pending m ∧ length order = length claimed ∧
      represents cs d' (mkMqueue (reverse (returned dlq order) ++ waiting m) rest
        (dead m ++ discarded dlq order))).
Proof.
  intros Hsp Hl Hold Hnew Hd Hsw Hs Hch claimed.
  destruct (Forall2_partition (holds pk) (λ e, e.1 ∈ chosen) old _ Hold)
    as (order&rest&Hperm&Horder&Hrest). fold claimed in Horder.
  assert (Forall (λ x, x.2 + 1 < USIZE_MAX) order) as Hso.
  { rewrite <-(reverse_Permutation (pending m)), <-Hperm in Hs. by apply Forall_app in Hs as [? _]. }
  unfold move. apply wp_bind_ok. eapply wp_mono.
  { apply wp_readd_exact; [by eapply split_wf| |exact Horder|exact Hso].
    apply Forall_forall. intros e [_ He]%list_elem_of_filter.
    rewrite (split_entries _ _ _ _ _ Hsp). apply elem_of_app. by left. }
  intros d2 r (Hst&Hd2&->). rewrite app_nil_l.
  apply split_lists with (d' := d2) in Hsp; [|by unfold stream_at; rewrite Hst].
  apply wp_bind_ok, wp_pipeline; [|done]. intros d3 Hsteps.
  destruct (split_xadds _ _ _ _ _ _ _ Hsp Hsteps) as (news&Hn&Hsp3&Hl3).
  apply wp_pipeline; [|done]. intros d4 (?&->&?&->&->). split; [done|].
  assert (sid <$> (read_entry <$> claimed) = claimed.*1) as ->.
  { rewrite <-list_fmap_compose. by apply list_fmap_ext. }
  assert (claimed.*1 ⊆ old.*1) as Hids.
  { intros i (e&->&[_ He]%list_elem_of_filter)%list_elem_of_fmap. by apply list_elem_of_fmap_2. }
  destruct (split_deleted _ claimed.*1 _ _ _ _ Hsp3 Hids) as [Hsp4 Hl4].
  exists order, (reverse rest). split_and!.
  - by rewrite (reverse_Permutation rest), Hperm, reverse_Permutation.
  - by rewrite (Forall2_length _ _ _ Horder).
  - do 3 eexists. split; [exact Hsp4|]. cbn [waiting pending dead].
    rewrite reverse_involutive, reverse_app, reverse_involutive.
    split_and!; [|by apply Forall2_app; [|apply stream_holds_written]| |].
    + erewrite filter_same; [exact Hrest|]. apply Forall_forall. intros e He. simpl. split.
      * intros Hout Hin. apply Hout, list_elem_of_fmap_2. by apply list_elem_of_filter.
      * intros Hout (x&Heq&[Hin _]%list_elem_of_filter)%list_elem_of_fmap. by rewrite Heq in Hout.
    + rewrite (dlq_at_lists _ d3), (dlq_at_lists _ d2 d3), Hd2, (dlq_at_lists _ d), Hd by done. done.
    + apply Forall_app. split; [|done]. apply Forall_reverse. by apply returned_small.
Qed.

(** One round, when everything pending is idle. *)
Lemma wp_idle_round ms m d :
  represents cs d m → Forall (λ x, x.2 + 1 < USIZE_MAX) (pending m) →
  wp (restrict (redis_doc false) (all_idle q (rc_consumer_group cs) ms))
    (reenqueue_timed_out_messages oc q (rc_consumer_group cs) (rc_consumer_name cs) ms pk dlq) d
    (λ d' r, r = Ok tt ∧ ∃ order rest, order ++ rest ≡ₚ pending m ∧
      length order = Nat.min (N.to_nat PENDING_BATCH_SIZE) (length (pending m)) ∧
      represents cs d' (mkMqueue (reverse (returned dlq order) ++ waiting m) rest
        (dead m ++ discarded dlq order))).
Proof.
  intros (g&old&new&Hsp&Hold&Hnew&Hd&Hsw) Hs. unfold reenqueue_timed_out_messages.
  apply wp_bind_ok, wp_restrict, wp_pool_get; [|done].
  apply wp_bind_ok. unfold command. apply wp_bind, wp_call. split; [done|].
  intros d1 x [Hdoc Hidle]. simpl in Hdoc, Hidle. specialize (Hidle eq_refl eq_refl eq_refl).
  pose proof (split_group _ _ _ _ _ Hsp) as Hg. pose proof (split_pel _ _ _ _ _ Hsp) as Hp.
  destruct x as [ids|err].
  2:{ exfalso. destruct Hdoc as [[? _]|[-> Hno]]; [done|]. eapply Hno.
      exists g, (pel g), []. rewrite find_entries_nil. split_and!; done || (simpl; lia) || set_solver. }
  destruct Hdoc as (g'&pel'&chosen&Hg'&Hsub&Hall&Hch&->&_&->).
  rewrite Hg in Hg'. injection Hg' as <-. specialize (Hidle (split_wf _ _ _ _ _ Hsp) _ g eq_refl Hg).
  assert (chosen ⊆ old.*1) as Hcho.
  { intros i Hi%Hch. rewrite <-Hp. eapply elem_of_submseteq; [exact Hi|by apply sublist_submseteq]. }
  rewrite !(find_pending _ _ _ _ _ _ Hsp), length_fmap in * by (done || by rewrite Hp).
  assert (filter (λ e, e.1 ∈ pel g) old = old) as Hf.
  { apply filter_all, Forall_forall. intros e He. rewrite Hp. by apply list_elem_of_fmap_2. }
  rewrite Hf in Hidle. pose proof (Forall2_length _ _ _ Hold) as Hlen. rewrite length_reverse in Hlen.
  rewrite Hlen in Hidle.
  pose proof (split_claimed _ _ _ _ _ _ Hsp Hsub Hall) as Hsp1.
  pose proof (wp_move_exact _ old new chosen m d _ Hsp1 eq_refl Hold Hnew Hd Hsw Hs Hcho) as Hmove.
  cbv zeta in Hmove. set (claimed := filter (λ e, e.1 ∈ chosen) old) in *.
  destruct claimed as [|e l] eqn:Hc.
  - apply wp_bind, wp_call. split; [done|]. intros d' x [-> _]. split; [done|].
    exists [], (pending m). split_and!; [done|done|]. rewrite app_nil_r.
    by exists (mkCgroup (last_delivered g) pel'), old, new.
  - refine (wp_mono _ _ _ _ _ (wp_restrict _ _ _ _ _ Hmove) _).
    intros d' r (->&order&rest&Hperm&Hlo&Hrep). split; [done|]. exists order, rest.
    split; [exact Hperm|]. split; [by rewrite Hlo|exact Hrep].
Qed.
End streams.

(** ** Round after round *)

Lemma returned_app c l k : returned c (l ++ k) = returned c l ++ returned c k.
Proof. apply omap_app. Qed.
Lemma discarded_app c l k : discarded c (l ++ k) = discarded c l ++ discarded c k.
Proof. apply omap_app. Qed.

Section rounds.
Context (oc : bool) (cs : RedisConsumer) (ms : Z) {S : Type} (h : handler redisE S) (view : S → db)
  `{!Lawful (restrict (redis_doc false) (all_idle (rc_queue_key cs) (rc_consumer_group cs) ms)) h view}.

(** What is known after [n] rounds. *)
Definition reclaimed (m : mqueue) (n : nat) (s' : S) : Prop :=
  ∃ order rest, order ++ rest ≡ₚ pending m ∧
    length rest = (length (pending m) - N.to_nat PENDING_BATCH_SIZE * n)%nat ∧
    represents cs (view s') (mkMqueue (reverse (returned (rc_dlq_config cs) order) ++ waiting m) rest
      (dead m ++ discarded (rc_dlq_config cs) order)).

Lemma reclaimed_step m n s1 :
  rc_payload_key cs ≠ NUM_RECEIVES → Forall (λ x, x.2 + 1 < USIZE_MAX) (pending m) →
  reclaimed m n s1 →
  returns h view (reenqueue_timed_out_messages oc (rc_queue_key cs) (rc_consumer_group cs)
      (rc_consumer_name cs) ms (rc_payload_key cs) (rc_dlq_config cs)) s1
    (λ d r, r = Ok tt ∧ ∀ s2, view s2 = d → reclaimed m (Datatypes.S n) s2).
Proof.
  intros Hpk Hs (order&rest&Hperm&Hlen&Hrep).
  assert (Forall (λ x, x.2 + 1 < USIZE_MAX) rest) as Hsr.
  { rewrite <-Hperm in Hs. by apply Forall_app in Hs as [_ ?]. }
  eapply returns_mono.
  { apply (wp_sound (restrict (redis_doc false) _) h view), (wp_idle_round oc cs Hpk ms _ _ Hrep Hsr). }
  cbn [waiting pending dead]. intros d r (->&order2&rest2&Hperm2&Hlen2&Hrep2).
  split; [done|]. intros s2 <-. exists (order ++ order2), rest2.
  rewrite returned_app, discarded_app, reverse_app, <-!app_assoc. rewrite <-!app_assoc in Hrep2.
  split_and!; [by rewrite Hperm2| |exact Hrep2].
  apply Permutation_length in Hperm2. rewrite length_app, Hlen2, Hlen in Hperm2.
  set (B := N.to_nat PENDING_BATCH_SIZE) in *. rewrite Nat.mul_succ_r. clear -Hperm2. lia.
Qed.

(** C11: what has not been settled comes back, with streams.  Let the stream
    hold the messages [m], and let those that have been received and not
    settled have been idle for longer than the deadline.  On a server that
    answers, the background task needs one round for every 1000 of them: then
    none is pending any more, and each is in the stream again, behind those
    that were waiting, with one more receive, or in the dead-letter queue, if
    its receives have reached the maximum. *)
Theorem stream_unsettled_come_back fuel s m :
  rc_payload_key cs ≠ NUM_RECEIVES → represents cs (view s) m →
  Forall (λ x, x.2 + 1 < USIZE_MAX) (pending m) →
  N.of_nat (length (pending m)) <= PENDING_BATCH_SIZE * N.of_nat fuel →
  ∃ s' order,
    run h (background_task_pending oc fuel (rc_queue_key cs) (rc_consumer_group cs)
      (rc_consumer_name cs) ms (rc_payload_key cs) (rc_dlq_config cs)) s = Exhausted s' ∧
    order ≡ₚ pending m ∧
    represents cs (view s') (mkMqueue (reverse (returned (rc_dlq_config cs) order) ++ waiting m) []
      (dead m ++ discarded (rc_dlq_config cs) order)).
Proof.
  intros Hpk Hrep Hs Hfuel.
  destruct (run_loop_rounds h (λ _ : unit,
    let* r := reenqueue_timed_out_messages oc (rc_queue_key cs) (rc_consumer_group cs)
                (rc_consumer_name cs) ms (rc_payload_key cs) (rc_dlq_config cs) in
    match r with
    | Err _ => let* _ := call (Sleep (from_millis 500)) in Ret (inl tt)
    | Ok _ => Ret (inl tt : unit + Result unit)
    end) (reclaimed m) fuel s O) as (s'&Hrun&order&rest&Hperm&Hlen&Hrep').
  - intros n s1 Hs1. destruct (reclaimed_step m n s1 Hpk Hs Hs1) as (s2&r&Hr&->&Hd).
    exists s2. rewrite run_bind, Hr. split; [done|by apply Hd].
  - exists [], (pending m). rewrite app_nil_r, Nat.mul_0_r, Nat.sub_0_r. by destruct m.
  - exists s', order. split; [exact Hrun|].
    assert (rest = []) as ->.
    { apply length_zero_iff_nil. rewrite Hlen, Nat.add_0_r. apply Nat.sub_0_le.
      rewrite <-(Nat2N.id fuel), <-N2Nat.inj_mul. lia. }
    by rewrite app_nil_r in Hperm.
Qed.
End rounds.

(** ** Witness *)

#[local] Instance wf_stream_dec s : Decision (wf_stream s).
Proof. unfold wf_stream. apply _. Defined.

(** A server on which everything pending is idle: it claims the first entries
    that are. *)
Definition first_pending (g : cgroup) (s : stream) (count : N) : list RedisApi.entry_id :=
  if decide (wf_stream s) then (take (N.to_nat count) (find_entries (pel g) s)).*1 else [].

Definition serve_idle X (e : redisE X) (s : server) : option (server * X) :=
  match e in redisE X return option (server * X) with
  | Xautoclaim k gn _ _ count =>
      let st := stream_at k (sdb s) in
      match groups st !! gn with
      | None => Some (s, Err (boxed "NOGROUP"))
      | Some g =>
          Some (mkServer (set_stream k (with_group gn (mkCgroup (last_delivered g) (pel g)) st) (sdb s))
                  [] (wall s) (limit s),
                Ok (read_entry <$> find_entries (first_pending g st count) st))
      end
  | e => serve_healthy _ e s
  end.

Lemma unique_ids (l : list sentry) e e' : NoDup l.*1 → e ∈ l → e' ∈ l → e.1 = e'.1 → e = e'.
Proof.
  destruct e as [i x], e' as [i' y]. simpl. intros Hnd Hx Hy <-.
  pose proof (elem_of_list_to_map_1 (M := gmap RedisApi.entry_id) l i x Hnd Hx).
  pose proof (elem_of_list_to_map_1 (M := gmap RedisApi.entry_id) l i y Hnd Hy). congruence.
Qed.

Lemma find_first_pending g s count :
  wf_stream s →
  find_entries (first_pending g s count) s ≡ₚ take (N.to_nat count) (find_entries (pel g) s).
Proof.
  intros Hwf. unfold first_pending. rewrite decide_True by done. destruct Hwf as [Hnd _].
  set (l := take _ _). assert (∀ e, e ∈ l → e ∈ entries s) as Hl.
  { intros e He. apply elem_of_take in He as (i&Hi&_). apply list_elem_of_lookup_2 in Hi.
    by apply list_elem_of_filter in Hi as [_ ?]. }
  unfold entry_ids in Hnd. pose proof (NoDup_fmap_1 _ _ Hnd) as Hnd1.
  apply NoDup_Permutation.
  - by apply NoDup_filter.
  - eapply sublist_NoDup; [exact Hnd1|]. etrans; [apply sublist_take|apply sublist_filter].
  - intros e. unfold find_entries. rewrite list_elem_of_filter. split.
    + intros [(e'&Heq&He')%list_elem_of_fmap He].
      by rewrite (unique_ids _ e e' Hnd He (Hl e' He') Heq).
    + intros He. split; [by apply list_elem_of_fmap_2|by apply Hl].
Qed.

Lemma first_pending_sub g s count : first_pending g s count ⊆ pel g.
Proof.
  unfold first_pending. case_decide; [|set_solver].
  intros i (e&->&He)%list_elem_of_fmap. apply elem_of_take in He as (j&Hj&_).
  apply list_elem_of_lookup_2 in Hj. by apply list_elem_of_filter in Hj as [? _].
Qed.

Lemma first_pending_length g s count :
  (length (find_entries (first_pending g s count) s) <= N.to_nat count)%nat.
Proof.
  destruct (decide (wf_stream s)) as [Hwf|Hwf].
  - rewrite (find_first_pending g s count Hwf), length_take. lia.
  - unfold first_pending. rewrite decide_False, find_entries_nil by done. simpl. lia.
Qed.

Lemma serve_idle_lawful q gn ms :
  Lawful (restrict (redis_doc false) (all_idle q gn ms)) serve_idle sdb.
Proof.
  split; intros X e s.
  - intros s' x Hx. destruct e;
      try (split; [|done];
        exact (lawful_sound (R := redis_doc false) (h := serve_healthy) (view := sdb) _ _ s s' x Hx)).
    unfold serve_idle in Hx. cbv zeta in Hx.
    destruct (groups (stream_at k (sdb s)) !! _) as [g|] eqn:Hg; simplify_eq/=; split.
    + exists g, (pel g), (first_pending g (stream_at k (sdb s)) count). split_and!; try done.
      * apply first_pending_sub.
      * rewrite length_fmap. apply first_pending_length.
    + intros <- <- _ Hwf ids g' [= <-] Hg'. rewrite Hg in Hg'. injection Hg' as <-.
      by rewrite length_fmap, (find_first_pending g _ count Hwf), length_take.
    + right. split; [done|]. intros d1 y (g&pel'&ch&Hg'&_). congruence.
    + intros <- <- _ _ ids g' [=].
  - intros Hr. destruct e;
      try exact (lawful_live (R := redis_doc false) (h := serve_healthy) (view := sdb) _ _ s Hr).
    unfold serve_idle. cbv zeta. destruct (groups _ !! _); eauto.
Qed.

Lemma stream_unsettled_come_back_witness :
  ∃ s' order,
    run serve_idle (background_task_pending true 1 "q" "g" "c" 30000 "payload"
      (Some (mkDlq "dlq" 5))) RedisStreams.s0 = Exhausted s' ∧
    order ≡ₚ [(bstr "a", 4)] ∧
    represents RedisStreams.c0 (sdb s')
      (mkMqueue (reverse (returned (Some (mkDlq "dlq" 5)) order) ++ [(bstr "b", 4)]) []
         ([] ++ discarded (Some (mkDlq "dlq" 5)) order)).
Proof.
  pose proof (serve_idle_lawful "q" "g" 30000) as Hlaw.
  apply (stream_unsettled_come_back true RedisStreams.c0 30000 serve_idle sdb 1 RedisStreams.s0
    (mkMqueue [(bstr "b", 4)] [(bstr "a", 4)] []));
    [done|exact represents0|by repeat constructor|by vm_compute].
Defined.
