(* ===== verification/RedisLedger.v ===== *)
(** * What the redis server holds of a queue

    Accounts ([Threads.books]) of the parts of the database that a queue
    uses: the dead-letter list, the delayed set, the main and the processing
    list, and the stream.  Each part is proved to agree with every documented
    call of a server whose replies may get lost; the account of a queue is a
    product of parts. *)
From S2P Require Import RedisFallback RedisStreams RedisMain.
From S2P Require Import Prelude RustStd Effects Omniqueue Queue RedisCodec RedisApi RedisConfig.
From S2P Require Import RedisSpec Threads.
Open Scope N_scope.

(** A message, by its payload, or the right to use a fresh identifier
    once. *)
Inductive item := Msg (v : bytes) | Token (id : bytes).
Definition is_msg (i : item) : Prop := match i with Msg _ => True | Token _ => False end.

Definition get_msg (i : item) : option bytes := match i with Msg v => Some v | Token _ => None end.

Lemma omap_msgs (l : list bytes) : omap get_msg (Msg <$> l) = l.
Proof. induction l as [|v l IH]; [done|]. csimpl. by f_equal. Qed.

Lemma msgs_soft (l : list bytes) i : i ∈ Msg <$> l → is_msg i.
Proof. by intros (v&->&_)%list_elem_of_fmap. Qed.

(** The messages among the items. *)
Lemma submseteq_msgs (A B T1 T2 : list bytes) :
  (Msg <$> A) ++ (Token <$> T1) ⊆+ (Msg <$> B) ++ (Token <$> T2) → A ⊆+ B.
Proof.
  intros [k Hk]%submseteq_Permutation. apply (omap_Permutation get_msg) in Hk.
  rewrite !omap_app, !omap_msgs in Hk.
  assert (∀ T, omap get_msg (Token <$> T) = []) as HT by (by induction T).
  rewrite !HT, !app_nil_r in Hk. rewrite Hk. by apply submseteq_inserts_r.
Qed.

Abbreviation rdoc := (redis_doc true).

(** ** Calls that leave a part of the database alone *)

Lemma fallible_keeps {Y T} (f : db → T) (eff : db → db → Y → Prop) d d' r :
  fallible true eff d d' r → (∀ d1 y, eff d d1 y → f d1 = f d) → f d' = f d.
Proof.
  intros Hr Hf. destruct r as [y|e]; [by eapply Hf|].
  destruct Hr as [[_ [->|[y Hy]]]|[-> _]]; [done|by eapply Hf|done].
Qed.

Lemma pipe_step_rest c d d' :
  pipe_step c d d' → lists d' = lists d ∧ zsets d' = zsets d ∧ issued d' = issued d.
Proof.
  destruct c; simpl.
  - by intros (i&_&->).
  - intros ->. unfold xack. by case_match.
  - by intros ->.
Qed.

Definition is_list_command {X} (e : redisE X) : bool :=
  match e with Lpush _ _ | Rpush _ _ | Lrem _ _ _ | Brpoplpush _ _ _ => true | _ => false end.
Definition is_zset_command {X} (e : redisE X) : bool :=
  match e with Zadd _ _ _ | Zrem _ _ | KsuidNew => true | _ => false end.
Definition is_stream_command {X} (e : redisE X) : bool :=
  match e with
  | Xadd _ _ | PipeCmd _ | XreadGroup _ _ _ _ _ | Xautoclaim _ _ _ _ _ => true
  | _ => false
  end.

(** A call that is not about a part: each effect of its documentation. *)
Ltac solve_keeps f He Hdoc :=
  match type of Hdoc with redis_documented _ _ ?e _ _ _ =>
    destruct e; try discriminate He; cbn [redis_documented] in Hdoc;
    try (apply (fallible_keeps f) in Hdoc; [exact Hdoc|];
         intros ? ? (?&?&?)%pipe_step_rest; simpl; congruence);
    try (apply (fallible_keeps f) in Hdoc; [exact Hdoc|];
         unfold becomes; intros d1 y Heff; first
           [ by rewrite Heff | by destruct Heff as [_ ->] | by destruct Heff as [-> _] | by destruct Heff as [? ->]
           | by destruct Heff as (g&_&Heff); destruct (last _); destruct_and?; subst
           | by destruct Heff as (g&pel'&chosen&_&_&_&_&_&_&->)
           | by destruct (last _); destruct_and?; subst
           | by destruct Heff as [[_ ->]|(_&_&->)]
           | by destruct Heff as (i&_&->) ])
  end; try (by destruct_and?; subst).

Lemma keeps_lists {X} (e : redisE X) d d' x :
  is_list_command e = false → redis_documented true X e d d' x → lists d' = lists d.
Proof. intros He Hdoc. solve_keeps lists He Hdoc. Qed.

Lemma keeps_zsets {X} (e : redisE X) d d' x :
  is_zset_command e = false → redis_documented true X e d d' x →
  zsets d' = zsets d ∧ issued d' = issued d.
Proof.
  intros He Hdoc. cut ((zsets d', issued d') = (zsets d, issued d)); [by intros [=]|].
  solve_keeps (λ d, (zsets d, issued d)) He Hdoc.
Qed.

Lemma keeps_streams {X} (e : redisE X) d d' x :
  is_stream_command e = false → redis_documented true X e d d' x →
  streams d' = streams d.
Proof. intros He Hdoc. solve_keeps streams He Hdoc. Qed.

Section laws.
Context (B : books redisE db item).

(** The law of a call that may fail, given what it does when it takes
    effect. *)
Lemma fallible_sound {Y} (e : redisE (result Y StdError)) eff d d' r :
  redis_documented true _ e = fallible true eff → redis_documented true _ e d d' r → ok B d →
  (∀ d1 y, eff d d1 y → ok B d1 ∧ holdings B d ++ gain B e (Ok y) ⊆+ holdings B d1 ++ cost B e) →
  (∀ err, gain B e (Err err) = []) →
  ok B d' ∧ holdings B d ++ gain B e r ⊆+ holdings B d' ++ cost B e.
Proof.
  intros -> Hf Hok Heff Hg. destruct r as [y|e']; [by apply Heff|]. rewrite Hg, app_nil_r.
  destruct Hf as [[_ [->|[y Hy]]]|[-> _]].
  - split; [done|]. by apply submseteq_inserts_r.
  - destruct (Heff _ _ Hy) as [Hok' Hsub]. split; [done|].
    etrans; [|exact Hsub]. by apply submseteq_inserts_r.
  - split; [done|]. by apply submseteq_inserts_r.
Qed.

(** The law of a call that leaves the part alone. *)
Lemma untouched_sound {X} (e : redisE X) d d' x :
  ok B d → (ok B d → ok B d') → holdings B d' = holdings B d → gain B e x = [] →
  ok B d' ∧ holdings B d ++ gain B e x ⊆+ holdings B d' ++ cost B e.
Proof.
  intros Hok Hok' -> ->. split; [by apply Hok'|]. rewrite app_nil_r.
  by apply submseteq_inserts_r.
Qed.
End laws.

Lemma list_at_set_list_case k k' l d :
  list_at k' (set_list k l d) = if bool_decide (k = k') then l else list_at k' d.
Proof.
  case_bool_decide; [subst; apply list_at_set_list|by apply list_at_set_list_ne].
Qed.

(** Removing an element, which may not be there. *)
Lemma pull_list (v : bytes) l : l ⊆+ remove_first v l ++ [v].
Proof.
  destruct (decide (v ∈ l)) as [Hv|Hv].
  - rewrite (remove_first_perm v l) at 1 by done. by rewrite <-Permutation_cons_append.
  - rewrite remove_first_notin by done. by apply submseteq_inserts_r.
Qed.

Lemma Forall_remove_first (Q : bytes → Prop) v l : Forall Q l → Forall Q (remove_first v l).
Proof.
  rewrite !Forall_forall. intros Hl y Hy. apply Hl.
  eapply elem_of_submseteq; [exact Hy|]. apply sublist_submseteq, remove_first_sublist.
Qed.

Lemma Forall_lrange (Q : bytes → Prop) a b l : Forall Q l → Forall Q (lrange a b l).
Proof. intros Hl. unfold lrange. case_match; [done|]. by apply Forall_take, Forall_drop. Qed.

(** ** The dead-letter list *)

Section dlq.
(** [G] is any property that the payloads that are given up have. *)
Context (c : option DeadLetterQueueConfig) (G : bytes → Prop).

Definition is_dlq (k : key) : bool :=
  match c with Some c => bool_decide (k = dlq_queue_key c) | None => false end.

Definition dlq_books : books redisE db item := {|
  ok d := Forall G (dlq_at c d);
  known d := True;
  holdings d := Msg <$> dlq_at c d;
  allowed X e :=
    match e with
    | Lpush k vs => is_dlq k = true → Forall G vs
    | Rpush k v => is_dlq k = true → G v
    | Brpoplpush src dst _ => is_dlq src || is_dlq dst = false
    | Lrem k count _ => is_dlq k = true → count = 1%Z
    | _ => True
    end;
  cost X e := match e with Lrem k _ v => if is_dlq k then [Msg v] else [] | _ => [] end;
  gain X e :=
    match e in redisE X return X → list item with
    | Rpush k v => λ r, if r is Ok _ then if is_dlq k then [Msg v] else [] else []
    | _ => λ _, []
    end;
|}.

Lemma dlq_at_set_list_case k l d :
  dlq_at c (set_list k l d) = if is_dlq k then l else dlq_at c d.
Proof. unfold dlq_at, is_dlq. destruct c as [c'|]; [apply list_at_set_list_case|done]. Qed.

Lemma dlq_at_is_dlq k d : is_dlq k = true → dlq_at c d = list_at k d.
Proof.
  unfold dlq_at, is_dlq. destruct c as [c'|]; [|done]. by intros ->%bool_decide_eq_true_1.
Qed.

Lemma dlq_at_keeps d d' : lists d' = lists d → dlq_at c d' = dlq_at c d.
Proof. intros H. unfold dlq_at, list_at. by rewrite H. Qed.

#[export] Instance dlq_sound : Sound rdoc is_msg dlq_books.
Proof.
  intros X e d d' x Hok _ _ Ha _ Hdoc. cbn [doc redis_doc] in Hdoc.
  destruct (is_list_command e) eqn:He.
  2:{ apply keeps_lists in Hdoc; [|done]. apply untouched_sound; [done|simpl..].
      - by rewrite (dlq_at_keeps d d').
      - by rewrite (dlq_at_keeps d d').
      - by destruct e; try discriminate He. }
  destruct e; try discriminate He; (eapply fallible_sound; [reflexivity|exact Hdoc|done| |done]);
    simpl in Ha, Hok |- *.
  - intros d1 y ->. rewrite !app_nil_r, dlq_at_set_list_case.
    destruct (is_dlq k) eqn:Hk; [|done]. rewrite fmap_app, <-(dlq_at_is_dlq _ _ Hk). split.
    + apply Forall_app. split; [apply Forall_reverse; by apply Ha|done].
    + by apply submseteq_inserts_l.
  - intros d1 y ->. rewrite app_nil_r, dlq_at_set_list_case.
    destruct (is_dlq k) eqn:Hk; [|by rewrite app_nil_r].
    rewrite fmap_app, <-(dlq_at_is_dlq _ _ Hk). split; [|done].
    apply Forall_app. split; [done|]. constructor; [by apply Ha|done].
  - intros d1 y ->. rewrite app_nil_r, dlq_at_set_list_case.
    destruct (is_dlq k) eqn:Hk; [|by rewrite app_nil_r]. rewrite <-(dlq_at_is_dlq _ _ Hk).
    rewrite (Ha eq_refl). cbn [lrem Pos.to_nat Pos.iter_op Nat.iter]. split.
    + by apply Forall_remove_first.
    + change [Msg v] with (Msg <$> [v]). rewrite <-fmap_app. apply fmap_submseteq, pull_list.
  - apply orb_false_iff in Ha as [Hsrc Hdst]. intros d1 y Heff.
    rewrite !app_nil_r. destruct (last (list_at src d)); [|by destruct Heff as (_&_&->)].
    destruct Heff as [_ ->]. by rewrite !dlq_at_set_list_case, Hsrc, Hdst.
Qed.

#[export] Instance dlq_soft : Soft is_msg dlq_books.
Proof.
  split; simpl.
  - intros d i. apply msgs_soft.
  - intros X [] i; try (by intros []%not_elem_of_nil).
    destruct (is_dlq _); [by intros ->%list_elem_of_singleton|by intros []%not_elem_of_nil].
Qed.
End dlq.

(** ** The main and the processing list *)

Section lists.
(** [P] is any property that the entries that are written have. *)
Context (q pq : key) (P : bytes → Prop).

Definition list_msgs (d : db) : list bytes :=
  content <$> (list_at q d ++ list_at pq d).

Definition list_books : books redisE db item := {|
  ok d := Forall P (list_at q d) ∧ Forall P (list_at pq d);
  known d := True;
  holdings d := Msg <$> list_msgs d;
  allowed X e :=
    match e with
    | Lpush k vs => k = q ∨ k = pq → Forall P vs
    | Rpush k v => k = q ∨ k = pq → P v
    | Lrem k count _ => k ≠ q ∧ (k = pq → count = 1%Z)
    | Brpoplpush src dst _ => src = q ∧ dst = pq
    | _ => True
    end;
  cost X e :=
    match e with Lrem k _ v => if bool_decide (k = pq) then [Msg (content v)] else [] | _ => [] end;
  gain X e :=
    match e in redisE X return X → list item with
    | Lpush k vs => λ r,
        if r is Ok _ then if bool_decide (k = q) then Msg <$> (content <$> vs) else [] else []
    | Rpush k v => λ r,
        if r is Ok _ then if bool_decide (k = q) then [Msg (content v)] else [] else []
    | _ => λ _, []
    end;
|}.

Hypothesis Hqpq : q ≠ pq.

Lemma list_books_lists d d' :
  lists d' = lists d →
  (ok list_books d → ok list_books d') ∧ holdings list_books d' = holdings list_books d.
Proof. intros H. simpl. unfold list_msgs, list_at. by rewrite H. Qed.

(** Adding [vs] to a list, at either end. *)
Lemma list_push_sound k vs l d :
  l ≡ₚ vs ++ list_at k d → (k = q ∨ k = pq → Forall P vs) → ok list_books d →
  ok list_books (set_list k l d) ∧
  holdings list_books d ++ (if bool_decide (k = q) then Msg <$> (content <$> vs) else [])
    ⊆+ holdings list_books (set_list k l d).
Proof.
  intros Hl HP [Hq Hpq]. simpl. unfold list_msgs. rewrite !list_at_set_list_case.
  destruct (bool_decide_reflect (k = q)) as [->|Hk].
  - rewrite (bool_decide_eq_false_2 (q = pq)) by done. split.
    + split; [|done]. rewrite Hl. apply Forall_app. auto.
    + rewrite Hl, !fmap_app. apply Permutation_submseteq. solve_Permutation.
  - rewrite app_nil_r. destruct (bool_decide_reflect (k = pq)) as [->|]; [|done]. split.
    + split; [done|]. rewrite Hl. apply Forall_app. auto.
    + rewrite Hl, !fmap_app. apply submseteq_skips_l. by apply submseteq_inserts_l.
Qed.

Lemma list_pull_sound k n v d :
  k ≠ q → (k = pq → n = 1%Z) → ok list_books d →
  ok list_books (set_list k (lrem n v (list_at k d)) d) ∧
  holdings list_books d ⊆+ holdings list_books (set_list k (lrem n v (list_at k d)) d) ++
    (if bool_decide (k = pq) then [Msg (content v)] else []).
Proof.
  intros Hk Hn [Hq Hpq]. simpl. unfold list_msgs. rewrite !list_at_set_list_case.
  rewrite (bool_decide_eq_false_2 (k = q)) by done.
  destruct (bool_decide_reflect (k = pq)) as [->|]; [|by rewrite app_nil_r].
  rewrite (Hn eq_refl). simpl. split.
  - split; [done|by apply Forall_remove_first].
  - rewrite !fmap_app, <-app_assoc. apply submseteq_skips_l.
    change [Msg (content v)] with (Msg <$> (content <$> [v])). rewrite <-!fmap_app.
    apply fmap_submseteq, fmap_submseteq, pull_list.
Qed.

Lemma list_move_sound x d :
  last (list_at q d) = Some x → ok list_books d →
  let d1 := set_list q (removelast (list_at q d)) d in
  ok list_books (set_list pq (x :: list_at pq d1) d1) ∧
  holdings list_books d ≡ₚ holdings list_books (set_list pq (x :: list_at pq d1) d1).
Proof.
  intros [l Hl]%last_Some [Hq Hpq]. simpl. unfold list_msgs. rewrite !list_at_set_list_case.
  rewrite (bool_decide_eq_true_2 (q = q)), (bool_decide_eq_true_2 (pq = pq)),
    (bool_decide_eq_false_2 (pq = q)), (bool_decide_eq_false_2 (q = pq)) by done.
  rewrite Hl in *. rewrite removelast_last. apply Forall_app in Hq as [Hl' [Hx _]%Forall_cons].
  split; [by split; [|constructor]|]. rewrite <-!list_fmap_compose.
  apply Permutation_map. simpl. solve_Permutation.
Qed.

#[export] Instance list_sound : Sound rdoc is_msg list_books.
Proof.
  intros X e d d' x Hok _ _ Ha _ Hdoc. cbn [doc redis_doc] in Hdoc.
  destruct (is_list_command e) eqn:He.
  2:{ apply keeps_lists in Hdoc; [|done]. destruct (list_books_lists d d' Hdoc) as [Hok' Hh].
      apply untouched_sound; [done..|]. by destruct e; try discriminate He. }
  destruct e; try discriminate He; (eapply fallible_sound; [reflexivity|exact Hdoc|done| |done]).
  - intros d1 y ->. cbn [cost gain list_books]. rewrite app_nil_r.
    apply list_push_sound; [by rewrite reverse_Permutation|done..].
  - intros d1 y ->. cbn [cost gain list_books]. rewrite app_nil_r.
    apply (list_push_sound k [v]); [by rewrite Permutation_app_comm| |done]. auto.
  - intros d1 y ->. cbn [cost gain list_books]. rewrite app_nil_r.
    destruct Ha as [Hk Hn]. by apply list_pull_sound.
  - destruct Ha as [-> ->]. intros d1 y Heff. cbn [cost gain list_books]. rewrite !app_nil_r.
    destruct (last (list_at q d)) as [v|] eqn:Hlast; [|by destruct Heff as (_&_&->)].
    destruct Heff as [_ ->]. destruct (list_move_sound v d Hlast Hok) as [Hok' Hperm].
    split; [exact Hok'|]. by apply Permutation_submseteq.
Qed.

#[export] Instance list_soft : Soft is_msg list_books.
Proof.
  split.
  - intros d i. apply msgs_soft.
  - intros X [] i; simpl; try (by intros []%not_elem_of_nil).
    case_bool_decide; [by intros ->%list_elem_of_singleton|by intros []%not_elem_of_nil].
Qed.
End lists.

(** ** The delayed set *)

Section delayed.
Context (dq : key) (P : bytes → Prop).

(** The identifier at the front of an entry. *)
Definition id_of (raw : bytes) : bytes :=
  match position (λ b, bool_decide (b = b_hash)) raw with Some n => take n raw | None => raw end.

Lemma id_of_written id i : is_base62 id → id_of (internal_to_list_payload id i) = id.
Proof.
  intros Hid. unfold id_of, internal_to_list_payload. simpl.
  rewrite position_sep by apply (base62_wf_id _ Hid). by rewrite take_app_length.
Qed.

Definition members (d : db) : gset bytes := dom (zset_at dq d).
Definition delayed_msgs (d : db) : list bytes := content <$> elements (members d).
Definition ids (M : gset bytes) : gset bytes := set_map id_of M.
(** The identifiers that no member has. *)
Definition unused (d : db) : list bytes := elements (issued d ∖ ids (members d)).

Definition delayed_books : books redisE db item := {|
  ok d := set_Forall P (members d) ∧ ids (members d) ⊆ issued d;
  known d := True;
  holdings d := (Msg <$> delayed_msgs d) ++ (Token <$> unused d);
  allowed X e :=
    match e with Zadd k m _ => k = dq → P m | _ => True end;
  cost X e :=
    match e with
    | Zadd k m _ => if bool_decide (k = dq) then [Token (id_of m)] else []
    | Zrem k ms => if bool_decide (k = dq) then Msg <$> (content <$> ms) else []
    | _ => []
    end;
  gain X e :=
    match e in redisE X return X → list item with
    | Zadd k m _ => λ r,
        if r is Ok _ then if bool_decide (k = dq) then [Msg (content m)] else [] else []
    | KsuidNew => λ id, [Token id]
    | _ => λ _, []
    end;
|}.

Lemma members_set_zset k z d :
  members (set_zset k z d) = if bool_decide (k = dq) then dom z else members d.
Proof.
  unfold members. case_bool_decide as Hk; [subst; by rewrite zset_at_set_zset|].
  unfold zset_at, set_zset. simpl. by rewrite lookup_insert_ne.
Qed.

Lemma dom_delete_all (z : gmap bytes N) ms : dom (foldr delete z ms) = dom z ∖ list_to_set ms.
Proof.
  induction ms as [|m ms IH]; simpl; [set_solver|]. rewrite dom_delete_L, IH. set_solver.
Qed.

(** A set gets smaller by what is listed at most. *)
Lemma elements_submseteq (X Y : gset bytes) l :
  (∀ x, x ∈ X → x ∈ Y ∨ x ∈ l) → elements X ⊆+ elements Y ++ l.
Proof.
  intros H. apply NoDup_submseteq; [apply NoDup_elements|]. intros x Hx%elem_of_elements.
  rewrite elem_of_app, elem_of_elements. auto.
Qed.

Lemma elements_submseteq_0 (X Y : gset bytes) : X ⊆ Y → elements X ⊆+ elements Y.
Proof. intros H. rewrite <-(app_nil_r (elements Y)). apply elements_submseteq. set_solver. Qed.

Lemma elem_of_ids (i : bytes) (M : gset bytes) : i ∈ ids M ↔ ∃ m, i = id_of m ∧ m ∈ M.
Proof. unfold ids. set_solver. Qed.

(** Adding a member that uses up an unused identifier. *)
Lemma zadd_sound m sc d :
  Token (id_of m) ∈ holdings delayed_books d → P m → ok delayed_books d →
  let d' := set_zset dq (<[m := sc]> (zset_at dq d)) d in
  ok delayed_books d' ∧
  holdings delayed_books d ++ [Msg (content m)] ⊆+ holdings delayed_books d' ++ [Token (id_of m)].
Proof.
  intros Hfree HP [HM Hids]. cbn zeta.
  assert (id_of m ∈ issued d ∧ id_of m ∉ ids (members d)) as [Hiss Hnew].
  { simpl in Hfree. apply elem_of_app in Hfree as [(?&?&_)%list_elem_of_fmap|Hfree]; [done|].
    apply list_elem_of_fmap in Hfree as (i&[= ->]&Hi). unfold unused in Hi. set_solver. }
  assert (m ∉ members d) as Hm by (intros Hm; apply Hnew; apply elem_of_ids; eauto).
  assert (members (set_zset dq (<[m := sc]> (zset_at dq d)) d) = {[m]} ∪ members d) as Hmem.
  { rewrite members_set_zset, bool_decide_eq_true_2 by done. by rewrite dom_insert_L. }
  simpl. unfold delayed_msgs, unused. rewrite Hmem. simpl.
  assert (ids ({[m]} ∪ members d) = {[id_of m]} ∪ ids (members d)) as -> by (unfold ids; set_solver).
  split.
  { split; [|set_solver]. apply set_Forall_union; [by apply set_Forall_singleton|done]. }
  rewrite elements_union_singleton by done.
  transitivity ((Msg <$> (content <$> m :: elements (members d))) ++
    (Token <$> elements (issued d ∖ ids (members d)))).
  { apply Permutation_submseteq. csimpl. solve_Permutation. }
  rewrite <-app_assoc. apply submseteq_skips_l.
  change [Token (id_of m)] with (Token <$> [id_of m]). rewrite <-fmap_app.
  apply fmap_submseteq, elements_submseteq. intros x Hx.
  destruct (decide (x = id_of m)) as [->|]; [right; by left|left; set_solver].
Qed.

Lemma zrem_sound ms d :
  ok delayed_books d →
  let d' := set_zset dq (foldr delete (zset_at dq d) ms) d in
  ok delayed_books d' ∧
  holdings delayed_books d ⊆+ holdings delayed_books d' ++ (Msg <$> (content <$> ms)).
Proof.
  intros [HM Hids]. cbn zeta.
  assert (members (set_zset dq (foldr delete (zset_at dq d) ms) d) =
    members d ∖ list_to_set ms) as Hmem.
  { by rewrite members_set_zset, bool_decide_eq_true_2, dom_delete_all. }
  simpl. unfold delayed_msgs, unused. rewrite Hmem. simpl.
  assert (ids (members d ∖ list_to_set ms) ⊆ ids (members d)) as Hsub by (unfold ids; set_solver).
  split; [split; [|set_solver]|].
  { intros x Hx. apply HM. set_solver. }
  transitivity ((Msg <$> (content <$> (elements (members d ∖ list_to_set ms) ++ ms))) ++
    (Token <$> elements (issued d ∖ ids (members d ∖ list_to_set ms)))).
  - apply submseteq_app; apply fmap_submseteq.
    + apply fmap_submseteq, elements_submseteq. intros x Hx.
      destruct (decide (x ∈ ms)); [by right|left; set_solver].
    + apply elements_submseteq_0. set_solver.
  - apply Permutation_submseteq. rewrite !fmap_app. solve_Permutation.
Qed.

Lemma ksuid_sound id d :
  id ∉ issued d → ok delayed_books d →
  ok delayed_books (set_issued ({[id]} ∪ issued d) d) ∧
  holdings delayed_books d ++ [Token id]
    ⊆+ holdings delayed_books (set_issued ({[id]} ∪ issued d) d).
Proof.
  intros Hnew [HM Hids]. simpl. unfold delayed_msgs, unused, members in *. simpl in *.
  fold (zset_at dq d) in *.
  change (zset_at dq (set_issued ({[id]} ∪ issued d) d)) with (zset_at dq d).
  split; [split; [done|set_solver]|]. rewrite <-app_assoc. apply submseteq_skips_l.
  assert (({[id]} ∪ issued d) ∖ ids (dom (zset_at dq d)) =
    {[id]} ∪ (issued d ∖ ids (dom (zset_at dq d)))) as -> by set_solver.
  rewrite elements_union_singleton by set_solver. csimpl.
  by rewrite <-Permutation_cons_append.
Qed.

#[export] Instance delayed_sound : Sound rdoc is_msg delayed_books.
Proof.
  intros X e d d' x Hok _ _ Ha Hfirm Hdoc. cbn [doc redis_doc] in Hdoc.
  destruct (is_zset_command e) eqn:He.
  2:{ destruct (keeps_zsets e d d' x He Hdoc) as [Hz Hi].
      assert (members d' = members d) as Hm by (unfold members, zset_at; by rewrite Hz).
      apply untouched_sound; [done|..]; simpl.
      - by rewrite Hm, Hi.
      - unfold delayed_msgs, unused. by rewrite Hm, Hi.
      - by destruct e; try discriminate He. }
  destruct e; try discriminate He.
  - eapply fallible_sound; [reflexivity|exact Hdoc|done| |done].
    intros d1 y ->. cbn [cost gain delayed_books] in *.
    case_bool_decide as Hk; [subst k; apply zadd_sound; [|by apply Ha|done]|].
    + destruct (Hfirm (Token (id_of member))) as [[]|Hf]; [by left|exact Hf].
    + rewrite !app_nil_r. simpl. unfold delayed_msgs, unused.
      by rewrite !members_set_zset, bool_decide_eq_false_2.
  - eapply fallible_sound; [reflexivity|exact Hdoc|done| |done].
    intros d1 y ->. cbn [cost gain delayed_books] in *. rewrite app_nil_r.
    case_bool_decide as Hk; [subst k; by apply zrem_sound|].
    rewrite app_nil_r. simpl. unfold delayed_msgs, unused.
    by rewrite !members_set_zset, bool_decide_eq_false_2.
  - destruct Hdoc as (_&Hnew&->). cbn [cost gain delayed_books] in *. rewrite app_nil_r.
    by apply ksuid_sound.
Qed.
End delayed.

(** ** The stream *)

Section stream.
(** [PS] is any property that the fields of the entries that are added have;
    [H i] is the payload of the entry with the ID [i], whenever there is
    one: IDs are never used twice. *)
Context (q : key) (payload_key : string) (PS : list (string * bytes) → Prop)
  (H : RedisApi.entry_id → bytes).

Abbreviation entries_at d := (entries (stream_at q d)).

Definition fields_content (fs : list (string * bytes)) : bytes := entry_content payload_key (0, fs).

Definition stream_msgs (d : db) : list bytes := entry_content payload_key <$> entries_at d.

Definition pipe_cost (cmd : pipe_cmd) : list item :=
  match cmd with
  | PXdel k ids => if bool_decide (k = q) then Msg <$> (H <$> ids) else []
  | _ => []
  end.
Definition pipe_gain (cmd : pipe_cmd) : list item :=
  match cmd with
  | PXadd k fs => if bool_decide (k = q) then [Msg (fields_content fs)] else []
  | _ => []
  end.

Definition adds (cmd : pipe_cmd) : Prop :=
  match cmd with PXadd k fs => k = q → PS fs | _ => False end.

Definition stream_books : books redisE db item := {|
  ok d := wf_stream (stream_at q d) ∧ Forall (λ e, PS e.2) (entries_at d);
  known d := Forall (λ e, entry_content payload_key e = H e.1) (entries_at d);
  holdings d := Msg <$> stream_msgs d;
  allowed X e :=
    match e with
    | Xadd k fs => k = q → PS fs
    | PipeCmd (PXadd k fs) => k = q → PS fs
    | _ => True
    end;
  cost X e := match e with PipeCmd cmd => pipe_cost cmd | _ => [] end;
  gain X e :=
    match e in redisE X return X → list item with
    | Xadd k fs => λ r, if r is Ok _ then pipe_gain (PXadd k fs) else []
    | PipeCmd cmd => λ r, if r is Ok _ then pipe_gain cmd else []
    | _ => λ _, []
    end;
|}.

Lemma stream_at_set_stream_case k s d :
  stream_at q (set_stream k s d) = if bool_decide (k = q) then s else stream_at q d.
Proof.
  case_bool_decide; [subst; apply stream_at_set_stream|by apply stream_at_set_stream_ne].
Qed.

(** Calls that change no entry. *)
Lemma stream_books_entries d d' :
  entries_at d' = entries_at d → top_id (stream_at q d') = top_id (stream_at q d) →
  (ok stream_books d → ok stream_books d') ∧ holdings stream_books d' = holdings stream_books d.
Proof. intros He Ht. simpl. unfold wf_stream, entry_ids, stream_msgs. by rewrite He, Ht. Qed.

Lemma set_stream_sound k s d :
  entries s = entries (stream_at k d) → top_id s = top_id (stream_at k d) →
  ok stream_books d →
  ok stream_books (set_stream k s d) ∧
  holdings stream_books d ⊆+ holdings stream_books (set_stream k s d).
Proof.
  intros He Ht Hok. destruct (stream_books_entries d (set_stream k s d)) as [Hok' Hh].
  - rewrite stream_at_set_stream_case. by case_bool_decide; subst.
  - rewrite stream_at_set_stream_case. by case_bool_decide; subst.
  - split; [by apply Hok'|]. by rewrite Hh.
Qed.

Lemma wf_stream_add s i fs g :
  wf_stream s → top_id s < i → wf_stream (mkStream (entries s ++ [(i, fs)]) i g).
Proof.
  intros [Hnd Hle] Hi. unfold wf_stream, entry_ids in *. simpl. rewrite fmap_app. simpl.
  rewrite Forall_forall in Hle. split.
  - apply NoDup_app. split_and!; [done| |apply NoDup_singleton].
    intros x Hx ->%list_elem_of_singleton. apply Hle in Hx. lia.
  - apply Forall_app. split; [|by repeat constructor]. apply Forall_forall.
    intros x Hx%Hle. lia.
Qed.

Lemma xadd_sound k fs d d' :
  pipe_step (PXadd k fs) d d' → (k = q → PS fs) → ok stream_books d →
  ok stream_books d' ∧
  holdings stream_books d ++ pipe_gain (PXadd k fs) ⊆+ holdings stream_books d'.
Proof.
  intros (i&Hi&->) HP [Hwf Hall]. unfold xadd. simpl. unfold stream_msgs.
  rewrite !stream_at_set_stream_case. case_bool_decide as Hk; [subst k|by rewrite app_nil_r].
  split; [split|].
  - by apply wf_stream_add.
  - apply Forall_app. split; [done|]. constructor; [by apply HP|done].
  - simpl. by rewrite !fmap_app.
Qed.

Lemma xack_entries k gn js d :
  entries_at (xack k gn js d) = entries_at d ∧
  top_id (stream_at q (xack k gn js d)) = top_id (stream_at q d).
Proof.
  unfold xack. destruct (groups _ !! gn); [|done]. rewrite stream_at_set_stream_case.
  by case_bool_decide; subst.
Qed.

Lemma NoDup_fmap_filter {A B} (f : A → B) (Q : A → Prop) `{∀ x, Decision (Q x)} l :
  NoDup (f <$> l) → NoDup (f <$> filter Q l).
Proof.
  induction l as [|x l IH]; [done|]. csimpl. intros [Hx Hl]%NoDup_cons.
  destruct (decide (Q x)).
  - rewrite filter_cons_True by done. csimpl. constructor; [|by apply IH].
    intros (y&Hy&[_ Hin]%list_elem_of_filter)%list_elem_of_fmap. apply Hx.
    rewrite Hy. by apply list_elem_of_fmap_2.
  - rewrite filter_cons_False by done. by apply IH.
Qed.

Lemma xdel_sound k js d :
  ok stream_books d → known stream_books d →
  ok stream_books (xdel k js d) ∧ known stream_books (xdel k js d) ∧
  holdings stream_books d ⊆+ holdings stream_books (xdel k js d) ++ pipe_cost (PXdel k js).
Proof.
  intros [[Hnd Hle] Hall] Hknown. unfold xdel. simpl in *. unfold stream_msgs.
  rewrite !stream_at_set_stream_case. case_bool_decide as Hk; [subst k|by rewrite app_nil_r].
  simpl. unfold wf_stream, entry_ids in *. simpl.
  assert (∀ Q : RedisApi.entry_id * list (string * bytes) → Prop, Forall Q (entries_at d) →
    Forall Q (filter (λ e, e.1 ∉ js) (entries_at d))) as Hfilter.
  { intros Q HQ. rewrite Forall_forall in *. intros e [_ He]%list_elem_of_filter. auto. }
  split_and!.
  - by apply NoDup_fmap_filter.
  - rewrite Forall_fmap in *. by apply Hfilter.
  - by apply Hfilter.
  - by apply Hfilter.
  - rewrite <-(filter_app_complement (λ e, e.1 ∈ js) (entries_at d)) at 1.
    rewrite !fmap_app, (Permutation_app_comm (Msg <$> _)). apply submseteq_skips_l.
    apply fmap_submseteq.
    assert (entry_content payload_key <$> filter (λ e, e.1 ∈ js) (entries_at d) =
      H <$> (filter (λ e, e.1 ∈ js) (entries_at d)).*1) as ->.
    { rewrite <-list_fmap_compose. apply list_fmap_ext. intros j e He.
      apply list_elem_of_lookup_2, list_elem_of_filter in He as [_ He].
      rewrite Forall_forall in Hknown. by apply Hknown. }
    apply fmap_submseteq, NoDup_submseteq.
    + by apply NoDup_fmap_filter.
    + intros i (e&->&[He _]%list_elem_of_filter)%list_elem_of_fmap. done.
Qed.

Lemma pipe_cmd_sound cmd d d' y :
  pipe_step cmd d d' → ok stream_books d → known stream_books d →
  allowed stream_books (PipeCmd cmd) →
  ok stream_books d' ∧ holdings stream_books d ++ gain stream_books (PipeCmd cmd) (Ok y)
    ⊆+ holdings stream_books d' ++ cost stream_books (PipeCmd cmd).
Proof.
  intros Hs Hok Hkn Ha. cbn [gain cost stream_books].
  destruct cmd as [k fs|k gn js|k js].
  - cbn [pipe_cost]. rewrite app_nil_r. by apply xadd_sound.
  - simpl in Hs. subst. destruct (xack_entries k gn js d) as [He Ht].
    destruct (stream_books_entries d _ He Ht) as [Hok1 Hh].
    split; [by apply Hok1|]. by rewrite Hh.
  - simpl in Hs. subst. cbn [pipe_gain]. rewrite app_nil_r.
    by destruct (xdel_sound k js d Hok Hkn) as (Hok1&_&Hsub).
Qed.

#[export] Instance stream_sound : Sound rdoc is_msg stream_books.
Proof.
  intros X e d d' x Hok Hkn _ Ha _ Hdoc. cbn [doc redis_doc] in Hdoc.
  destruct (is_stream_command e) eqn:He.
  2:{ apply keeps_streams in Hdoc; [|done].
      destruct (stream_books_entries d d') as [Hok' Hh]; [unfold stream_at; by rewrite Hdoc..|].
      apply untouched_sound; [done..|]. by destruct e; try discriminate He. }
  destruct e; try discriminate He; (eapply fallible_sound; [reflexivity|exact Hdoc|done| |done]).
  - intros d1 y Hs. cbn [cost gain stream_books]. rewrite app_nil_r. by apply xadd_sound.
  - intros d1 y (g&Hg&Heff). cbn [cost gain stream_books]. rewrite !app_nil_r.
    cbn zeta in Heff. case_match; [|by destruct Heff as (_&_&->)]. destruct Heff as [_ ->].
    by apply set_stream_sound.
  - intros d1 y (g&pel'&chosen&_&_&_&_&_&_&->). cbn [cost gain stream_books].
    rewrite !app_nil_r.
    by apply set_stream_sound.
  - intros d1 y Hs. by apply pipe_cmd_sound.
Qed.

#[export] Instance stream_soft : Soft is_msg stream_books.
Proof.
  split.
  - intros d i. apply msgs_soft.
  - intros X [] i; simpl; try (by intros []%not_elem_of_nil).
    destruct c; simpl; try (by intros []%not_elem_of_nil).
    case_bool_decide; [by apply msgs_soft|by intros []%not_elem_of_nil].
Qed.
End stream.
