(* ===== verification/RedisClients.v ===== *)
(** * The clients and tasks of one redis queue

    What the threads of a queue may run, and what the parts of it that do not
    depend on the kind of the main queue pay for: delayed messages, redriving
    the dead-letter queue, the check of the eviction policy.  [MainBooks] and
    [MainQueue] are the interface to the main queue: [RedisConcurrent]
    implements it with lists, [RedisStreamsConcurrent] with a stream. *)
From S2P Require Import Prelude RustStd Effects Omniqueue Queue RedisCodec RedisApi RedisConfig.
From S2P Require Import RedisSpec RedisFallback RedisStreams RedisMain Threads RedisLedger.
Open Scope N_scope.

(** Calls that put nothing into a queue and take nothing out. *)
Definition free_call {X} (e : redisE X) : bool :=
  match e with
  | Lpush _ _ | Rpush _ _ | Lrem _ _ _ | Brpoplpush _ _ _ | Zadd _ _ _ | Zrem _ _
  | Xadd _ _ | PipeCmd _ => false
  | _ => true
  end.

(** Calls about the delayed set and the dead-letter list only. *)
Definition side_call (c : option DeadLetterQueueConfig) {X} (e : redisE X) : bool :=
  match e with
  | Zadd _ _ _ | Zrem _ _ => true
  | Rpush k _ => is_dlq c k
  | Lrem k count _ => is_dlq c k && bool_decide (count = 1%Z)
  | _ => free_call e
  end.

(** What the counts of entries may be: integers of the machine, among them
    that of a new message, and any that does not take its message to the
    dead-letter queue. *)
Class Counts (c : option DeadLetterQueueConfig) (K : N → Prop) : Prop := {
  count_usize n : K n → is_usize n;
  count_new : K 0;
  count_again n : is_usize n → exhausted c n = None → K n;
}.

#[export] Instance usize_counts c : Counts c is_usize.
Proof. by split. Qed.

(** The counts that leave room for another receive. *)
Definition within (c : option DeadLetterQueueConfig) (n : N) : Prop :=
  is_usize n ∧ (n = 0 ∨ exhausted c n = None).

#[export] Instance within_counts c : Counts c (within c).
Proof. split; [by intros n []|by split; [|left]|by split; [|right]]. Qed.

Lemma within_lt dlq n : within (Some dlq) n → n < N.max 1 (max_receives dlq).
Proof.
  intros [_ [->|Hn]]; [lia|]. simpl in Hn. unfold max_retries_reached in Hn.
  destruct (N.leb_spec (max_receives dlq) n); [done|lia].
Qed.

(** An entry in the format of [internal_to_list_payload], its count one of
    [K] and its payload of the type [G]. *)
Definition well_formed (K : N → Prop) (G : bytes → Prop) (raw : bytes) : Prop :=
  ∃ n p, entry raw n p ∧ K n ∧ G p.

Lemma well_formed_written `{Counts c K} (G : bytes → Prop) id i :
  is_base62 id → K (num_receives i) → G (payload i) →
  well_formed K G (internal_to_list_payload id i).
Proof.
  destruct i as [p n]. intros Hid Hn Hp. exists n, p. split; [|done].
  apply (RedisFallback.holds_written id p n); [done|]. by eapply count_usize.
Qed.

Lemma well_formed_content K G raw : well_formed K G raw → G (content raw).
Proof. intros (n&p&He&_&Hp). by rewrite (content_holds raw p n). Qed.

Section shop.
Context (streams : bool) (q dq : key) (payload_key : string)
  (c : option DeadLetterQueueConfig) (K : N → Prop) (G P : bytes → Prop).

(** Everything that a queue with the main part [M] holds; [G] is any property
    of payloads, [P] one of entries. *)
Definition shop (M : books redisE db item) : books redisE db item :=
  delayed_books dq P ⊗ dlq_books c G ⊗ M.

(** A main part that is sound and that side calls do not concern. *)
Class SideBooks (M : books redisE db item) : Prop := {
  main_sound :: Sound rdoc is_msg M;
  main_soft :: Soft is_msg M;
  main_side X (e : redisE X) : side_call c e = true → allowed M e ∧ cost M e = [];
}.

Context `{HS : !SideBooks M}.
(** The entries that are written have the property [P] when their payloads
    have [G], and the other way round. *)
Context `{HK : !Counts c K}.
Hypothesis HP : ∀ id i, is_base62 id → K (num_receives i) → G (payload i) →
  P (internal_to_list_payload id i).
Hypothesis HG : ∀ raw, P raw → G (content raw).

Abbreviation paysm := (pays rdoc (shop M)).

Lemma side_free {X} (e : redisE X) : free_call e = true → side_call c e = true.
Proof. by destruct e. Qed.

Lemma shop_free {X} (e : redisE X) :
  free_call e = true → allowed (shop M) e ∧ cost (shop M) e = [].
Proof.
  intros He. destruct (main_side X e (side_free e He)) as [Ha Hc].
  cbn [shop books_prod allowed cost]. rewrite Hc.
  destruct e; try discriminate He; split; try done; by split_and!.
Qed.

(** *** Free calls *)

Lemma pays_free {X A} (e : redisE X) (f : X → prog redisE A) m Q :
  free_call e = true → (∀ x, possible rdoc (shop M) e x → paysm (f x) m Q) →
  paysm (bind (call e) f) m Q.
Proof. intros [Ha Hc]%shop_free Hf. by apply pays_call_free. Qed.

Lemma pays_free_ok {Y A F} (e : redisE (result Y StdError)) (g : StdError → F)
    (f : Y → prog redisE (result A F)) m Q :
  free_call e = true → (∀ y, possible rdoc (shop M) e (Ok y) → paysm (f y) m Q) →
  (∀ err, Q (Err err) = []) →
  paysm (bind_ok (bind (call e) (λ r, Ret (map_err g r))) f) m Q.
Proof. intros [Ha Hc]%shop_free. by apply pays_wrapped_ok. Qed.

Lemma pays_free_last {Y F} (e : redisE (result Y StdError)) (g : StdError → F) m :
  free_call e = true → paysm (bind (call e) (λ r, Ret (map_err g r))) m (λ _, []).
Proof. intros [Ha Hc]%shop_free. by apply pays_wrapped_free. Qed.

Lemma pays_sleep {A} d (a : A) m Q :
  Q a = [] → paysm (let* _ := call (Sleep d) in Ret a) m Q.
Proof. intros HQ. apply pays_free; [done|]. intros x _. by apply pays_nil. Qed.

(** *** Entries *)

(** A new entry comes with the right to use its identifier. *)
Lemma pays_entry {A} i (f : bytes → prog redisE A) m Q :
  K (num_receives i) → G (payload i) →
  (∀ raw, content raw = payload i → P raw → paysm (f raw) (Token (id_of raw) :: m) Q) →
  paysm (bind (to_list_payload i) f) m Q.
Proof.
  intros Hn Hgi Hf. unfold to_list_payload, delayed_key_id. apply pays_assoc.
  destruct (shop_free KsuidNew eq_refl) as [Ha Hc].
  apply (pays_call _ _ _ _ _ m); [done|by rewrite Hc|].
  intros id (d&d'&_&_&_&Hid&_). simpl. eapply pays_mono; [apply Hf| |done].
  - apply content_written; [done|]. by eapply count_usize.
  - by apply HP.
  - rewrite id_of_written by done. apply submseteq_skip. by apply submseteq_inserts_l.
Qed.

Lemma pays_to_list_payload {A} i (f : bytes → prog redisE A) m Q :
  K (num_receives i) → G (payload i) →
  (∀ raw, content raw = payload i → P raw → paysm (f raw) m Q) →
  paysm (bind (to_list_payload i) f) m Q.
Proof.
  intros Hn Hgi Hf. apply pays_entry; [done..|]. intros raw Hc Hr.
  eapply pays_mono; [by apply Hf|by apply submseteq_cons|done].
Qed.

Lemma pays_to_list_payloads {A} ps (f : list bytes → prog redisE A) m Q :
  Forall G ps →
  (∀ raws, content <$> raws = ps → Forall P raws → paysm (f raws) m Q) →
  paysm (bind (to_list_payloads ps) f) m Q.
Proof.
  intros Hps. revert f.
  induction Hps as [|p ps Hp Hps IH]; intros f Hf; [by apply (Hf [])|].
  cbn [to_list_payloads]. apply pays_assoc, pays_to_list_payload; [apply (count_new (c := c))|done|]. intros raw Hraw HPr.
  apply pays_assoc, IH. intros raws Hraws HPrs. apply Hf; [|by constructor].
  csimpl. by rewrite Hraw, Hraws.
Qed.

(** *** Scheduling *)

Lemma pays_send_raw_scheduled p v delay :
  rp_delayed_queue_key p = dq → G v →
  paysm (send_raw_scheduled p v delay) [] (λ r, if r is Ok _ then [Msg v] else []).
Proof.
  intros Hdq Hv. unfold send_raw_scheduled. apply pays_free; [done|]. intros now _.
  apply pays_lift. intros due _. apply pays_bind_ok_free; [by apply pays_nil| |done]. intros ts.
  apply pays_free_ok; [done| |done]. intros [] _.
  apply pays_entry; [apply (count_new (c := c))|done|]. intros raw Hraw Hr. rewrite Hdq.
  destruct (main_side _ (Zadd dq raw ts) eq_refl) as [Ha Hc].
  apply (pays_wrapped _ _ _ _ _ []); [split; [by intros _|by split]| | |intros; apply submseteq_nil_l].
  - cbn [shop books_prod cost delayed_books dlq_books]. rewrite Hc, bool_decide_eq_true_2 by done.
    done.
  - intros [] _. cbn [shop books_prod gain delayed_books]. rewrite bool_decide_eq_true_2 by done.
    simpl. rewrite Hraw. apply submseteq_skip, submseteq_nil_l.
Qed.

(** *** Adding to the main queue *)

(** The rest of the interface: the messages of the main part are [main], and
    adding messages to the main queue adds them there. *)
Class MainBooks (main : db → list bytes) : Prop := {
  main_holdings d : holdings M d = Msg <$> main d;
  main_add keys : Forall G (payload <$> keys) →
    paysm (add_to_main_queue streams keys q payload_key) []
      (λ r, if r is Ok _ then Msg <$> (payload <$> keys) else []);
}.

Context `{HM : !MainBooks main}.

(** *** Moving what is due *)

(** The entries of a part of the delayed set. *)
Lemma due_entries hi l :
  possible rdoc (shop M) (ZrangebyscoreLimit dq 0 hi 0 BATCH_SIZE) (Ok l) → Forall P l.
Proof.
  intros (d&d'&[[HPs _] _]&_&_&_&Hl). destruct (Hl eq_refl) as (_&Hin&_); [done|].
  apply Forall_forall. intros m Hm. apply HPs. apply Hin in Hm as (sc&Hm&_).
  by apply elem_of_dom_2 in Hm.
Qed.

Lemma pays_move_due oc lock : paysm (move_due oc q dq lock payload_key streams) [] (λ _, []).
Proof.
  unfold move_due. apply pays_free; [done|]. intros now _.
  apply pays_lift. intros before _. apply pays_bind_ok_free; [by apply pays_nil| |done].
  intros ts. apply pays_free_ok; [done| |done]. intros [|k keys] Hkeys.
  - apply pays_free_ok; [done| |done]. intros [] _. by apply pays_sleep.
  - unfold bind_ok at 1. apply pays_lift. intros [new|e] Hnew; [|by apply pays_nil].
    apply (outcome_collect_Ok _ (k :: keys)) in Hnew.
    assert (payload <$> new = content <$> k :: keys) as Hpay.
    { clear -Hnew. induction Hnew as [|raw i raws js [Hp _]%parse_content _ IH]; [done|].
      csimpl. by rewrite Hp, IH. }
    apply due_entries in Hkeys.
    eapply pays_bind_ok with (Q1 := λ _, Msg <$> (content <$> k :: keys)).
    { eapply pays_mono; [apply main_add|done|].
      - rewrite Hpay. apply Forall_fmap. by eapply Forall_impl.
      - intros [[]|e]; [|done]. by rewrite Hpay. }
    intros []. eapply pays_bind_ok with (Q1 := λ _, []).
    + destruct (main_side _ (Zrem dq (k :: keys)) eq_refl) as [Ha Hc].
      apply (pays_wrapped _ _ _ _ _ []); [by repeat split| |intros; apply submseteq_nil_l..].
      cbn [shop books_prod cost delayed_books dlq_books]. rewrite Hc, bool_decide_eq_true_2 by done.
      by rewrite !app_nil_r.
    + intros []. by apply pays_free_last.
Qed.

Lemma pays_background_task_delayed oc lock :
  paysm (background_task_delayed oc q dq lock payload_key streams) [] (λ _, []).
Proof.
  unfold background_task_delayed. apply pays_free_ok; [done| |done]. intros [] _.
  apply pays_free_ok; [done| |done]. intros resp _.
  case_bool_decide; [apply pays_move_due|by apply pays_sleep].
Qed.

(** The endless loops around a round. *)
Lemma pays_forever {F} fuel (round : prog redisE (result unit F)) (Q : Result unit → list item) :
  paysm round [] (λ _, []) →
  paysm (loop fuel (λ _ : unit,
          let* r := round in
          match r with
          | Err _ => let* _ := call (Sleep (from_millis 500)) in Ret (inl tt)
          | Ok _ => Ret (inl tt)
          end) tt) [] Q.
Proof.
  intros Hr. apply pays_loop. intros []. apply pays_bind_free; [exact Hr|].
  intros [[]|e]; [by apply pays_nil|by apply pays_sleep].
Qed.

(** *** The dead-letter queue *)

(** The entries of a part of the dead-letter list. *)
Lemma dead_entries dlq a b l :
  c = Some dlq → possible rdoc (shop M) (Lrange (dlq_queue_key dlq) a b) (Ok l) → Forall G l.
Proof.
  intros Hc (d&d'&(_&HGs&_)&_&_&->&_). rewrite Hc in HGs. by apply Forall_lrange.
Qed.

Lemma pays_dead_letter {F} dlq v (g : StdError → F) m :
  c = Some dlq → G v →
  paysm (bind (call (Rpush (dlq_queue_key dlq) v)) (λ r, Ret (map_err g r))) m
    (λ r, if r is Ok _ then [Msg v] else []).
Proof.
  intros Hc Hv. assert (is_dlq c (dlq_queue_key dlq) = true) as Hk.
  { rewrite Hc. simpl. by apply bool_decide_eq_true_2. }
  destruct (main_side _ (Rpush (dlq_queue_key dlq) v) Hk) as [Ha Hcost].
  apply (pays_wrapped _ _ _ _ _ []); [split; [done|split; [by intros _|done]]| | |done].
  - cbn [shop books_prod cost delayed_books dlq_books]. rewrite Hcost. apply submseteq_nil_l.
  - intros [] _. cbn [shop books_prod gain delayed_books dlq_books]. rewrite Hk. simpl.
    apply submseteq_skip, submseteq_nil_l.
Qed.

(** Removing what has been copied. *)
Lemma pays_remove_copied dlq l :
  c = Some dlq →
  paysm (for_each (λ v, command (Lrem (dlq_queue_key dlq) 1 v)) l) (Msg <$> l) (λ _, []).
Proof.
  intros Hc. assert (is_dlq c (dlq_queue_key dlq) = true) as Hk.
  { rewrite Hc. simpl. by apply bool_decide_eq_true_2. }
  induction l as [|x l IH]; [by apply pays_nil|]. cbn [for_each fmap list_fmap].
  apply pays_bind_ok with (Q1 := λ _, Msg <$> l); [|by intros []].
  destruct (main_side _ (Lrem (dlq_queue_key dlq) 1 x)) as [Ha Hcost].
  { cbn [side_call]. by rewrite Hk. }
  apply (pays_wrapped _ _ _ _ _ (Msg <$> l)); [by repeat split| |..].
  - cbn [shop books_prod cost delayed_books dlq_books]. by rewrite Hcost, Hk.
  - intros [] _. by apply submseteq_inserts_l.
  - intros. apply submseteq_nil_l.
Qed.

Lemma pays_redrive fuel p :
  rp_queue_key p = q → rp_payload_key p = payload_key → rp_dlq_config p = c →
  rp_use_redis_streams p = streams → paysm (redrive_dlq fuel p) [] (λ _, []).
Proof.
  intros Hq Hpk Hc Hs. unfold redrive_dlq. rewrite Hc. destruct c as [dlq|] eqn:Hdlq;
    [|by apply pays_nil]. rewrite <-Hdlq in *.
  apply pays_loop. intros []. unfold redrive_round. rewrite Hs, Hq, Hpk.
  apply pays_bind_free; [|intros [[]|e]; by apply pays_nil].
  apply pays_free_ok; [done| |done]. intros [] _.
  apply pays_free_ok; [done| |done]. intros old Hold.
  destruct old as [|x old]; [by apply pays_nil|].
  eapply pays_bind_ok with (Q1 := λ _, Msg <$> x :: old).
  - apply dead_entries in Hold; [|done].
    assert (payload <$> (InternalPayload.new <$> x :: old) = x :: old) as Hpay
      by (by rewrite <-list_fmap_compose, list_fmap_id).
    eapply pays_mono; [apply main_add|done|].
    + by rewrite Hpay.
    + intros [[]|e]; [|done]. by rewrite Hpay.
  - intros []. eapply pays_bind_ok with (Q1 := λ _, []); [|intros []; by apply pays_nil].
    eapply pays_mono; [by apply pays_remove_copied|done|]. by intros [[]|e].
Qed.

(** *** The eviction policy *)

Lemma pays_check_eviction_policy : paysm check_eviction_policy [] (λ _, []).
Proof.
  unfold check_eviction_policy. apply pays_free; [done|].
  intros r _. apply pays_bind_ok_free; [by apply pays_nil| |done]. intros [].
  apply pays_free; [done|]. intros results _.
  apply pays_bind_ok_free; [by apply pays_nil| |done]. intros l.
  apply pays_bind_ok_free; [by apply pays_nil| |done]. intros policy.
  by case_bool_decide; apply pays_nil.
Qed.
End shop.

(** ** What may be started *)

(** [T] is the type of the ackers, whose methods are [settle]. *)
Section operations.
Context (oc : bool) (delivery_size : N).
Context {T : Type} (settle : settle_op → T → prog redisE (T * Result unit)).

Inductive operation :=
| OpSend (p : RedisProducer) (v : bytes)
| OpSendScheduled (p : RedisProducer) (v : bytes) (delay : Duration)
| OpReceive (cs : RedisConsumer)
| OpReceiveAll (cs : RedisConsumer) (max_messages : N) (deadline : Duration)
| OpSettle (verdict : settle_op) (a : T)
| OpRedrive (fuel : nat) (p : RedisProducer)
| OpTask (fuel : nat) (t : BackgroundTask).

Definition program (o : operation) : prog redisE (Result unit) :=
  match o with
  | OpSend p v => RedisMain.send_raw p v
  | OpSendScheduled p v delay => RedisMain.send_raw_scheduled p v delay
  | OpReceive cs => let? _ := RedisMain.receive oc cs in Ret (Ok tt)
  | OpReceiveAll cs n deadline =>
      let? _ := RedisMain.receive_all oc delivery_size cs n deadline in Ret (Ok tt)
  | OpSettle verdict a => let* '(_, r) := settle verdict a in Ret r
  | OpRedrive fuel p => RedisMain.redrive_dlq fuel p
  | OpTask fuel t => run_task oc fuel t
  end.

Section fits.
Context (streams : bool) (q pq dq : key) (payload_key : string)
  (c : option DeadLetterQueueConfig) (acker_fits : T → Prop).

Definition producer_fits (p : RedisProducer) : Prop :=
  rp_queue_key p = q ∧ rp_delayed_queue_key p = dq ∧ rp_payload_key p = payload_key ∧
  rp_use_redis_streams p = streams ∧ rp_dlq_config p = c.

Definition consumer_fits (cs : RedisConsumer) : Prop :=
  rc_queue_key cs = q ∧ rc_processing_queue_key cs = pq ∧ rc_payload_key cs = payload_key ∧
  rc_use_redis_streams cs = streams ∧ rc_dlq_config cs = c.

Definition task_fits (t : BackgroundTask) : Prop :=
  match t with
  | TaskDelayed q' dq' _ pk s => q' = q ∧ dq' = dq ∧ pk = payload_key ∧ s = streams
  | TaskPending q' _ _ _ pk c' => streams = true ∧ q' = q ∧ pk = payload_key ∧ c' = c
  | TaskProcessing q' pq' _ c' => streams = false ∧ q' = q ∧ pq' = pq ∧ c' = c
  | TaskEvictionPolicy => True
  end.

(** Producers, consumers, ackers and tasks of one queue: those that builders
    with the same keys make ([RedisMain.builder_pair_fits]).  Consumer groups and names,
    deadlines and lock keys may differ. *)
Definition fits (o : operation) : Prop :=
  match o with
  | OpSend p _ | OpSendScheduled p _ _ | OpRedrive _ p => producer_fits p
  | OpReceive cs | OpReceiveAll cs _ _ => consumer_fits cs
  | OpSettle _ a => acker_fits a
  | OpTask _ t => task_fits t
  end.

(** The messages of the sends that have succeeded, and of the acks that have
    been started; [message] is the message that an acker is for. *)
Definition owed (o : operation) (r : Result unit) : list bytes :=
  match o, r with OpSend _ v, Ok _ | OpSendScheduled _ v _, Ok _ => [v] | _, _ => [] end.
Definition granted (message : T → bytes) (o : operation) : list bytes :=
  match o with OpSettle OpAck a => [message a] | _ => [] end.

Abbreviation event := (@event db operation (Result unit)).

Definition sent_by (tr : list event) : list bytes :=
  tr ≫= λ ev, match ev with EvDone o r => owed o r | _ => [] end.
Definition acked_by (message : T → bytes) (tr : list event) : list bytes :=
  tr ≫= λ ev, match ev with EvStart o => granted message o | _ => [] end.

Lemma bind_msgs (f : event → list bytes) (g : event → list item) (tr : list event) :
  (∀ ev, g ev = Msg <$> f ev) → tr ≫= g = Msg <$> (tr ≫= f).
Proof.
  intros H. induction tr as [|ev tr IH]; [done|].
  cbn [mbind list_bind]. by rewrite fmap_app, H, IH.
Qed.

(** *** A main queue *)

Context (K : N → Prop) (G P : bytes → Prop) (acker_carries : T → Prop) (message : T → bytes).

(** The operation puts only payloads with the property [G] into the queue. *)
Definition carries (o : operation) : Prop :=
  match o with
  | OpSend _ v | OpSendScheduled _ v _ => G v
  | OpSettle _ a => acker_carries a
  | _ => True
  end.

(** The operations of a main queue pay for themselves; an ack is given the
    message that it is for. *)
Class MainQueue (M : books redisE db item) : Prop := {
  mq_send p v : producer_fits p → G v →
    pays rdoc (shop dq c G P M) (RedisMain.send_raw p v) []
      (λ r, if r is Ok _ then [Msg v] else []);
  mq_receive cs : consumer_fits cs →
    pays rdoc (shop dq c G P M) (RedisMain.receive oc cs) [] (λ _, []);
  mq_receive_all cs n deadline : consumer_fits cs →
    pays rdoc (shop dq c G P M) (RedisMain.receive_all oc delivery_size cs n deadline) []
      (λ _, []);
  mq_settle verdict a : acker_fits a → acker_carries a →
    pays rdoc (shop dq c G P M) (settle verdict a)
      (match verdict with OpAck => [Msg (message a)] | OpNack => [] end) (λ _, []);
  mq_pending fuel q' g n ms pk c' : task_fits (TaskPending q' g n ms pk c') →
    pays rdoc (shop dq c G P M) (run_task oc fuel (TaskPending q' g n ms pk c')) [] (λ _, []);
  mq_processing fuel q' pq' ms c' : task_fits (TaskProcessing q' pq' ms c') →
    pays rdoc (shop dq c G P M) (run_task oc fuel (TaskProcessing q' pq' ms c')) [] (λ _, []);
}.

Context `{HS : !SideBooks c M, HB : !@MainBooks streams q dq payload_key c G P M main,
  HQ : !MainQueue M}.
Context `{HK : !Counts c K}.
Hypothesis HP : ∀ id i, is_base62 id → K (num_receives i) → G (payload i) →
  P (internal_to_list_payload id i).
Hypothesis HG : ∀ raw, P raw → G (content raw).

Lemma pays_program o :
  fits o ∧ carries o → pays rdoc (shop dq c G P M) (program o) (Msg <$> granted message o)
    (λ r, Msg <$> owed o r).
Proof.
  destruct o as [p v|p v delay|cs|cs n t|verdict a|fuel p|fuel t]; cbn [fits carries program granted];
    intros [Hfits Hcarries]; revert Hfits.
  - intros Hp. eapply pays_mono; [by apply mq_send|done|]. by intros [[]|e].
  - intros (_&Hdq&_). eapply pays_mono; [by eapply pays_send_raw_scheduled|done|].
    by intros [[]|e].
  - intros Hcs. apply pays_bind_ok_free; [by apply mq_receive| |done].
    intros d. by apply pays_nil.
  - intros Hcs. apply pays_bind_ok_free; [by apply mq_receive_all| |done].
    intros d. by apply pays_nil.
  - intros Ha. eapply pays_bind with (Q1 := λ _, []); [|intros [a' r]; by apply pays_nil].
    eapply pays_mono; [by apply mq_settle|by destruct verdict|done].
  - intros (Hq&_&Hpk&Hs&Hc). eapply pays_mono; [by eapply pays_redrive|done|done].
  - destruct t; cbn [task_fits].
    + intros (->&->&->&->). eapply pays_forever, pays_background_task_delayed; done.
    + intros Ht. by apply mq_pending.
    + intros Ht. by apply mq_processing.
    + intros _. eapply pays_bind_free; [by eapply pays_check_eviction_policy|].
      intros r. by apply pays_nil.
Qed.

Abbreviation run_to d0 tr s :=
  (steps rdoc program (λ o, fits o ∧ carries o) (mkSystem d0 []) tr s).

(** Every message that was in the delayed set, the dead-letter list or the
    main queue, or has been sent with success, is in one of them, unless its
    ack has been started. *)
Lemma queue_balanced d0 tr s :
  ok (shop dq c G P M) d0 → run_to d0 tr s → Forall (known M) (states d0 tr) →
  ok (shop dq c G P M) (shared s) ∧
  (delayed_msgs dq d0 ++ dlq_at c d0 ++ main d0) ++ sent_by tr ⊆+
    (delayed_msgs dq (shared s) ++ dlq_at c (shared s) ++ main (shared s)) ++
    acked_by message tr.
Proof.
  intros Hok Hs Hk. pose proof HB as [Hhold _].
  destruct (steps_balanced rdoc program _ is_msg (shop dq c G P M)
    (λ o, Msg <$> granted message o) (λ o r, Msg <$> owed o r)
    pays_program (λ o i, msgs_soft _ i) d0 tr s Hok Hs) as [Hok' Hsub].
  { eapply Forall_impl; [exact Hk|]. intros d Hd. by split_and!. }
  split; [done|]. unfold all_owed, all_granted in Hsub.
  rewrite (bind_msgs (λ ev, match ev with EvDone o r => owed o r | _ => [] end)) in Hsub
    by (by intros []).
  rewrite (bind_msgs (λ ev, match ev with EvStart o => granted message o | _ => [] end)) in Hsub
    by (by intros []).
  fold (sent_by tr) (acked_by message tr) in Hsub.
  cbn [shop books_prod holdings delayed_books dlq_books] in Hsub. rewrite !Hhold in Hsub.
  apply (submseteq_msgs _ _ (unused dq d0) (unused dq (shared s))).
  etrans; [|etrans; [exact Hsub|]]; apply Permutation_submseteq;
    rewrite !fmap_app; solve_Permutation.
Qed.
End fits.
End operations.
