(* ===== verification/RedisConcurrent.v ===== *)
(** * Any number of clients and tasks of a list queue at once

    Clients and background tasks of the list-based redis queue run as threads
    that are interleaved call by call, on a server whose replies may get
    lost; a thread may be started at any time and may crash between any two
    calls.  What the queue promises then is that a message is not lost
    between being sent, or scheduled, and being acked, and that the entries
    of its lists and of the delayed set stay readable. *)
From S2P Require Import Prelude RustStd Effects Omniqueue Queue RedisCodec RedisApi RedisConfig.
From S2P Require Import RedisSpec RedisMain Threads RedisLedger RedisClients RedisFallback.
Open Scope N_scope.

Section lists.
Context (oc : bool) (delivery_size : N) (q pq dq : key) (payload_key : string)
  (c : option DeadLetterQueueConfig) (K : N → Prop) (G P : bytes → Prop).
Hypothesis Hkeys : distinct_keys q pq c.
Context `{HK : !Counts c K}.
Hypothesis HP : ∀ id i, is_base62 id → K (num_receives i) → G (payload i) →
  P (internal_to_list_payload id i).
Hypothesis HG : ∀ raw, P raw → G (content raw).

Abbreviation main := (list_books q pq P).
Abbreviation paysl := (pays rdoc (shop dq c G P main)).

Lemma is_dlq_keys k : is_dlq c k = true → k ≠ q ∧ k ≠ pq.
Proof.
  destruct Hkeys as [_ Hc]. unfold is_dlq. destruct c as [c'|]; [|done].
  intros ->%bool_decide_eq_true_1. exact Hc.
Qed.

Lemma is_dlq_q : is_dlq c q = false.
Proof. destruct (is_dlq c q) eqn:Hd; [|done]. by apply is_dlq_keys in Hd as []. Qed.
Lemma is_dlq_pq : is_dlq c pq = false.
Proof. destruct (is_dlq c pq) eqn:Hd; [|done]. by apply is_dlq_keys in Hd as []. Qed.

Lemma list_side {X} (e : redisE X) :
  side_call c e = true → allowed main e ∧ cost main e = [].
Proof.
  destruct e; try discriminate; intros He; try (by repeat split).
  - apply is_dlq_keys in He as [? ?]. split; [by intros [|]|done].
  - apply andb_true_iff in He as [[? ?]%is_dlq_keys Hn].
    cbn [cost allowed list_books]. apply bool_decide_eq_true_1 in Hn.
    by rewrite bool_decide_eq_false_2.
Qed.

(** *** Putting entries into the main list *)

Lemma pays_lpush raws {F} (g : StdError → F) m :
  Forall P raws →
  paysl (bind (call (Lpush q raws)) (λ r, Ret (map_err g r))) m
    (λ r, if r is Ok _ then Msg <$> (content <$> raws) else []).
Proof.
  intros HPr. apply (pays_wrapped _ _ _ _ _ []); [split; [done|split; [by intros Hd; rewrite is_dlq_q in Hd|by intros _]]|apply submseteq_nil_l| |done].
  intros [] _. cbn [shop books_prod gain delayed_books dlq_books list_books].
  rewrite bool_decide_eq_true_2 by done. by rewrite app_nil_r.
Qed.

Lemma pays_rpush raw {F} (g : StdError → F) m :
  P raw →
  paysl (bind (call (Rpush q raw)) (λ r, Ret (map_err g r))) m
    (λ r, if r is Ok _ then [Msg (content raw)] else []).
Proof.
  intros HPr. apply (pays_wrapped _ _ _ _ _ []); [split; [done|split; [by intros Hd; rewrite is_dlq_q in Hd|by intros _]]| | |done].
  - apply submseteq_nil_l.
  - intros [] _. cbn [shop books_prod gain delayed_books dlq_books list_books].
    rewrite is_dlq_q, bool_decide_eq_true_2 by done. done.
Qed.

Lemma pays_drop_entry {F} k (g : StdError → F) :
  paysl (bind (call (Lrem pq 1 k)) (λ r, Ret (map_err g r))) [Msg (content k)] (λ _, []).
Proof.
  destruct Hkeys as [Hqpq _].
  apply (pays_wrapped _ _ _ _ _ []); [split; [done|split; [done|by split]]| |intros; apply submseteq_nil_l..].
  cbn [shop books_prod cost delayed_books dlq_books list_books].
  by rewrite is_dlq_pq, bool_decide_eq_true_2.
Qed.

#[local] Instance list_side_books : SideBooks c main.
Proof.
  destruct Hkeys as [Hqpq _]. split; [by apply list_sound|apply _|apply @list_side].
Qed.

#[local] Instance list_main_books :
  @MainBooks false q dq payload_key c G P main (list_msgs q pq).
Proof.
  split; [done|]. intros keys Hkeys'. unfold RedisMain.add_to_main_queue, add_to_main_queue.
  eapply pays_to_list_payloads; [apply _|exact HK|exact HP|done|]. intros raws <- HPr. by apply pays_lpush.
Qed.

Lemma pays_pool_get m : paysl pool_get m (λ _, []).
Proof. eapply pays_free_last; [apply _|done]. Qed.

(** *** Clients *)

Lemma pays_send_raw p v :
  rp_queue_key p = q → G v →
  paysl (RedisFallback.send_raw p v) [] (λ r, if r is Ok _ then [Msg v] else []).
Proof.
  intros Hq Hv. unfold RedisFallback.send_raw.
  apply pays_bind_ok_free; [apply pays_pool_get| |done]. intros [].
  eapply pays_to_list_payload; [apply _|exact HK|exact HP|apply (count_new (c := c))|done|].
  intros raw Hraw HPr. rewrite Hq.
  eapply pays_mono; [apply (pays_lpush [raw]); by constructor|done|].
  intros [[]|e]; [|done]. csimpl. by rewrite Hraw.
Qed.

Lemma pays_receive_with_timeout cs t :
  rc_queue_key cs = q → rc_processing_queue_key cs = pq →
  paysl (receive_with_timeout oc cs t) [] (λ _, []).
Proof.
  intros Hq Hpq. unfold receive_with_timeout.
  apply pays_bind_ok_free; [apply pays_pool_get| |done]. intros [].
  apply pays_bind_ok_free; [|intros [raw|]|done].
  - apply pays_wrapped_free; [|done]. rewrite Hq, Hpq. split; [done|].
    cbn [books_prod allowed dlq_books list_books]. by rewrite is_dlq_q, is_dlq_pq.
  - unfold bind_ok. apply pays_lift. intros [i|e] _; by apply pays_nil.
  - by apply pays_nil.
Qed.

(** *** Ackers *)

Definition settle (verdict : settle_op) : RedisFallbackAcker →
    prog redisE (RedisFallbackAcker * Result unit) :=
  match verdict with OpAck => ack | OpNack => nack oc end.

Definition acker_fits (a : RedisFallbackAcker) : Prop :=
  processing_queue_key a = pq ∧ acker_dlq_config a = c.

Definition message (a : RedisFallbackAcker) : bytes := content (old_payload a).

Lemma pays_send_to_dlq dlq v :
  c = Some dlq → G v →
  paysl (send_to_dlq dlq v) [] (λ r, if r is Ok _ then [Msg v] else []).
Proof.
  intros Hc Hv. unfold send_to_dlq. apply pays_bind_ok_free; [apply pays_pool_get| |done].
  intros []. eapply pays_dead_letter; [apply _|done|done].
Qed.

Lemma pays_ack a :
  processing_queue_key a = pq → paysl (ack a) [Msg (message a)] (λ _, []).
Proof.
  intros Hpq. unfold ack. destruct (already_acked_or_nacked a); [by apply pays_nil|].
  eapply pays_bind with (Q1 := λ _, []); [|intros [[]|e]; by apply pays_nil].
  eapply pays_free_ok; [apply _|done| |done]. intros [] _. rewrite Hpq. apply pays_drop_entry.
Qed.

Lemma pays_nack_end a : paysl (nack_end a) [] (λ _, []).
Proof. unfold nack_end. by case_match; apply pays_nil. Qed.

Lemma pays_nack a :
  processing_queue_key a = pq → acker_dlq_config a = c → G (message a) →
  paysl (nack oc a) [] (λ _, []).
Proof.
  intros Hpq Hc Hm. unfold nack.
  destruct (acker_dlq_config a) as [dlq|] eqn:Hdlq; [|apply pays_nack_end].
  destruct (max_retries_reached _ _); [|apply pays_nack_end].
  apply pays_lift. intros parsed Hparsed.
  assert (match parsed with Ok i => payload i | Err _ => old_payload a end = message a) as ->.
  { unfold message. apply parse_content in Hparsed. destruct parsed; [apply Hparsed|done]. }
  eapply pays_bind; [by apply pays_send_to_dlq|].
  intros [[]|e]; [by apply pays_ack|by apply pays_nil].
Qed.

(** *** The background task *)

Lemma pays_try_lift {A B} (o : outcome (Result A)) (f : A → prog redisE (result B BoxedError)) m Q :
  (∀ a, o = Done (Ok a) → paysl (f a) m Q) → (∀ e, Q (Err e) = []) →
  paysl (bind_ok (try_queue (lift o)) f) m Q.
Proof. intros Hf HQ. destruct o as [[a|e]|]; [by apply Hf|by apply pays_nil|done]. Qed.

(** Putting an overdue entry back, or into the dead-letter queue. *)
Lemma pays_requeue c' i k :
  c' = c → payload i = content k → is_usize (num_receives i) → G (payload i) →
  paysl (match c' with
         | Some dlq =>
             if max_retries_reached dlq (num_receives i)
             then try_queue (send_to_dlq dlq (payload i))
             else let* m := to_list_payload i in try_client (Rpush q m)
         | None => let* m := to_list_payload i in try_client (Rpush q m)
         end) [] (λ r, if r is Ok _ then [Msg (content k)] else []).
Proof.
  intros Hc Hp Hn Hgi.
  assert (exhausted c' (num_receives i) = None →
    paysl (let* m := to_list_payload i in try_client (Rpush q m)) []
      (λ r, if r is Ok _ then [Msg (content k)] else [])) as Hpush.
  { rewrite Hc. intros Hx. eapply pays_to_list_payload; [apply _|exact HK|exact HP|by apply count_again|done|].
    intros raw Hraw HPr. rewrite <-Hp, <-Hraw. by apply pays_rpush. }
  unfold exhausted in Hpush. destruct c' as [dlq|]; [|by apply Hpush].
  destruct (max_retries_reached _ _); [|by apply Hpush]. rewrite Hp in *.
  eapply pays_bind; [by apply pays_send_to_dlq|].
  intros [[]|e]; simpl; done.
Qed.

(** The body of the loop over the batch of timed-out entries. *)
Lemma pays_reenqueue_key L k : P k → paysl (reenqueue_key oc q pq L c k) [] (λ _, []).
Proof.
  intros Hk. unfold reenqueue_key. destruct (bytes_le k L); [|by apply pays_nil].
  apply pays_try_lift; [|done]. intros i Hi. apply parse_content in Hi as [Hp Hn].
  eapply pays_bind_ok with (Q1 := λ _, [Msg (content k)]); [|intros []; apply pays_drop_entry].
  eapply pays_mono; [apply (pays_requeue c i k); try done; rewrite Hp; by apply HG|done|]. by intros [[]|e].
Qed.

Lemma pays_reenqueue deadline :
  paysl (reenqueue_timed_out_messages oc q pq deadline c) [] (λ _, []).
Proof.
  unfold reenqueue_timed_out_messages.
  eapply pays_free_ok; [apply _|done| |done]. intros [] _.
  eapply pays_free_ok; [apply _|done| |done]. intros keys _.
  eapply pays_free; [apply _|done|]. intros o _. apply pays_lift. intros L _.
  assert (paysl (let* _ := call (Sleep (from_millis 500)) in Ret (Ok tt : result unit BoxedError))
            [] (λ _, [])) as Hsleep by (eapply pays_sleep; [apply _|done]).
  destruct keys as [|k keys]; [exact Hsleep|]. destruct (bytes_le k L); [|exact Hsleep].
  eapply pays_free_ok; [apply _|done| |done].
  intros batch (d&d'&(_&_&_&HPs)&_&_&->&_).
  apply (pays_for_each _ _ P); [by apply Forall_lrange|]. apply pays_reenqueue_key.
Qed.

#[local] Instance list_main_queue :
  MainQueue oc delivery_size settle false q pq dq payload_key c acker_fits G P
    (λ a, G (message a)) message main.
Proof.
  split.
  - intros p v (Hq&_&_&Hs&_) Hv. unfold RedisMain.send_raw. rewrite Hs. by apply pays_send_raw.
  - intros cs (Hq&Hpq&_&Hs&_). unfold RedisMain.receive. rewrite Hs.
    apply pays_bind_ok_free; [by apply pays_receive_with_timeout| |done].
    intros o. by apply pays_nil.
  - intros cs n deadline (Hq&Hpq&_&Hs&_). unfold RedisMain.receive_all. rewrite Hs.
    apply pays_bind_ok_free; [by apply pays_receive_with_timeout| |done].
    intros o. by apply pays_nil.
  - intros [] a [Hpq Hc] Hm; [by apply pays_ack|by apply pays_nack].
  - intros fuel q' g n ms pk c' [Hs _]. done.
  - intros fuel q' pq' ms c' (_&->&->&->). eapply pays_forever; [apply _|apply pays_reenqueue].
Qed.
(** *** Runs *)

(** From [d0], threads of the queue have run as [tr] says. *)
Definition run_lists (d0 : db) (tr : list (event (O := operation) (A := Result unit)))
    (s : system) : Prop :=
  steps rdoc (program oc delivery_size settle)
    (fits false q pq dq payload_key c acker_fits) (mkSystem d0 []) tr s.

(** Every message that the queue has, due or not. *)
Definition in_queue (d : db) : list bytes := messages q pq c d ++ delayed_msgs dq d.

Lemma in_queue_parts d :
  delayed_msgs dq d ++ dlq_at c d ++ list_msgs q pq d ≡ₚ in_queue d.
Proof.
  unfold in_queue, messages, list_msgs. rewrite fmap_app. solve_Permutation.
Qed.

(** All the entries, of the two lists and of the delayed set. *)
Definition all_entries (d : db) : list bytes :=
  list_at q d ++ list_at pq d ++ elements (members dq d).

Lemma shop_ok d :
  Forall P (all_entries d) ∧ Forall G (dlq_at c d) ∧ ids (members dq d) ⊆ issued d ↔
  ok (shop dq c G P main) d.
Proof.
  unfold all_entries. rewrite !Forall_app. simpl.
  assert (Forall P (elements (members dq d)) ↔ set_Forall P (members dq d)) as ->.
  { rewrite Forall_forall. unfold set_Forall. set_solver. }
  tauto.
Qed.

Lemma lists_balanced d0 tr s :
  Forall P (all_entries d0) → Forall G (dlq_at c d0) → ids (members dq d0) ⊆ issued d0 →
  run_lists d0 tr s → Forall (carries G (λ a, G (message a))) (started tr) →
  Forall P (all_entries (shared s)) ∧ Forall G (dlq_at c (shared s)) ∧
  in_queue d0 ++ sent_by tr ⊆+ in_queue (shared s) ++ acked_by message tr.
Proof.
  intros HPs HGs Hids Hrun Hcarries.
  destruct (queue_balanced oc delivery_size settle false q pq dq payload_key c
    acker_fits K G P (λ a, G (message a)) message (M := main) HP HG d0 tr s) as [Hok Hsub].
  - by apply shop_ok.
  - eapply steps_mono; [|exact (steps_only _ _ _ _ _ _ Hrun)]. 
    rewrite Forall_forall in Hcarries. intros o [Ho Hin]. auto.
  - by apply Forall_true.
  - apply shop_ok in Hok as (Hok&Hdead&_). by rewrite !in_queue_parts in Hsub.
Qed.
End lists.

Section claims.
Context (oc : bool) (delivery_size : N) (q pq dq : key) (payload_key : string)
  (c : option DeadLetterQueueConfig).

Abbreviation run d0 tr s := (run_lists oc delivery_size q pq dq payload_key c d0 tr s).

(** The balance alone, whatever the entries are. *)
Lemma plain_lists_balanced d0 tr s :
  distinct_keys q pq c → ids (members dq d0) ⊆ issued d0 → run d0 tr s →
  in_queue q pq dq c d0 ++ sent_by tr ⊆+ in_queue q pq dq c (shared s) ++ acked_by message tr.
Proof.
  intros Hk Hids Hrun.
  destruct (lists_balanced oc delivery_size q pq dq payload_key c is_usize (λ _, True) (λ _, True) Hk)
    with d0 tr s as (_&_&Hsub); [done|done|by apply Forall_true..|done|done| |done].
  apply Forall_forall. by intros [].
Qed.

(** C1: at-least-once delivery.  Whatever clients and background tasks of a
    list queue run, in whatever interleaving of their calls, on a server
    whose replies may get lost, with threads that crash at any point: at
    every moment, each message that was in the queue or has been sent or
    scheduled with success is in the main list, the processing list, the
    delayed set or the dead-letter queue, unless an ack of an entry with its
    payload has been started.  Messages are counted: as many copies as were
    sent and not given up. *)
Theorem at_least_once d0 tr s :
  distinct_keys q pq c → ids (members dq d0) ⊆ issued d0 → run d0 tr s →
  in_queue q pq dq c d0 ++ sent_by tr ⊆+ in_queue q pq dq c (shared s) ++ acked_by message tr.
Proof. apply plain_lists_balanced. Qed.

(** C6: the type of a queue.  Let the payloads of the queue have any property
    [G]: its main list, its processing list and its delayed set hold
    well-formed entries of such payloads, and its dead-letter queue such
    payloads.  Then after any interleaving of clients and tasks, with lost
    replies and crashes, in which only such payloads have been sent, and only
    deliveries of such payloads have been settled, this is still so, and each
    entry is parsed with its payload, unless it has been received
    [usize::MAX] times.  So no payload comes out that has not been put
    in. *)
Theorem entries_well_formed (G : bytes → Prop) d0 tr s :
  distinct_keys q pq c → ids (members dq d0) ⊆ issued d0 →
  Forall (well_formed is_usize G) (all_entries q pq dq d0) → Forall G (dlq_at c d0) →
  run d0 tr s → Forall (carries G (λ a, G (message a))) (started tr) →
  Forall (λ raw, ∃ n p, entry raw n p ∧ is_usize n ∧ G p ∧
      (n < USIZE_MAX → internal_from_list oc raw = Done (Ok (mkInternalPayload p (n + 1)))))
    (all_entries q pq dq (shared s)) ∧
  Forall G (dlq_at c (shared s)).
Proof.
  intros Hk Hids Hwf Hdead Hrun Hcarries.
  destruct (lists_balanced oc delivery_size q pq dq payload_key c is_usize G (well_formed is_usize G) Hk)
    with d0 tr s as (Hall&HGs&_); [|apply well_formed_content|done..|].
  - apply (well_formed_written (c := c)).
  - split; [|done]. eapply Forall_impl; [exact Hall|]. intros raw (n&p&He&Hn&Hp). exists n, p.
    split_and!; [done..|]. by apply fallback_holds_parse.
Qed.

(** C8: the counts of receives stay within what is configured.  With a
    dead-letter queue, every entry of the main list, the processing list and
    the delayed set carries a count of receives below [max_receives] (or zero,
    if that is zero), after any interleaving of clients and tasks, with lost
    replies and crashes, if this was so at the start.  So every entry is
    parsed, without panic or overflow, and a receive of it counts at most
    [max_receives] (or one).  The bound is on each entry: a message of which a
    lost reply has left two entries has a count in each of them. *)
Theorem receives_bounded dlq d0 tr s :
  c = Some dlq → max_receives dlq <= USIZE_MAX →
  distinct_keys q pq c → ids (members dq d0) ⊆ issued d0 →
  Forall (well_formed (within c) (λ _, True)) (all_entries q pq dq d0) → run d0 tr s →
  Forall (λ raw, ∃ n p, entry raw n p ∧ n < N.max 1 (max_receives dlq) ∧
      internal_from_list oc raw = Done (Ok (mkInternalPayload p (n + 1))))
    (all_entries q pq dq (shared s)).
Proof.
  intros Hc Hmax Hk Hids Hwf Hrun.
  destruct (lists_balanced oc delivery_size q pq dq payload_key c (within c) (λ _, True)
    (well_formed (within c) (λ _, True)) Hk) with d0 tr s as (Hall&_&_); try done.
  - apply (well_formed_written (c := c) (λ _, True)).
  - by apply Forall_true.
  - apply Forall_forall. by intros [].
  - eapply Forall_impl; [exact Hall|]. rewrite Hc. intros raw (n&p&He&Hn%within_lt&_).
    exists n, p. split_and!; [done..|]. apply fallback_holds_parse; [done|].
    unfold USIZE_MAX in *. lia.
Qed.
End claims.

(** ** Witnesses *)

(** A send and a scheduled send that succeed, then a receive that crashes
    with the message. *)
Definition dlq0 : option DeadLetterQueueConfig := Some (mkDlq "dlq" 5).
Definition server0 : server := mkServer db0 [] 0%Z (bstr "k3").
Definition op : Type := operation (T := RedisFallbackAcker).
Definition send0 : op := OpSend p0 (bstr "c").
Definition schedule0 : op := OpSendScheduled p0 (bstr "d") (from_secs 3).
Definition receive0 : op := OpReceive c0.
Definition prog0 (o : op) : prog redisE (Result unit) := program false 40 (settle false) o.
Definition run0 (o : op) (s : server) : server :=
  match run serve (prog0 o) s with Returned s' _ => s' | _ => s end.
Definition server1 : server := run0 send0 server0.
Definition server2 : server := run0 schedule0 server1.

Abbreviation runs0 := (run_lists false 40 "q" "p" "d" "payload" dlq0 db0).

Lemma starts0 :
  runs0 [EvStart receive0; EvStart schedule0; EvStart send0]
    (mkSystem (sdb server0) [(receive0, prog0 receive0); (schedule0, prog0 schedule0);
                   (send0, prog0 send0)]).
Proof.
  pose proof (steps_nil rdoc (program false 40 (settle false))
    (fits false "q" "p" "d" "payload" dlq0 (acker_fits "p" dlq0)) (mkSystem db0 [])) as H0.
  eapply steps_snoc in H0; [|by apply (step_start _ _ _ receive0)].
  eapply steps_snoc in H0; [|by apply (step_start _ _ _ schedule0)].
  eapply steps_snoc in H0; [|by apply (step_start _ _ _ send0)].
  exact H0.
Qed.

(** The threads run one after the other. *)
Lemma run0_example :
  ∃ tr d, EvDone send0 (Ok tt) ∈ tr ∧ EvDone schedule0 (Ok tt) ∈ tr ∧ EvCrash ∈ tr ∧
    started tr = [receive0; schedule0; send0] ∧
    runs0 tr (mkSystem d []).
Proof.
  assert (run serve (prog0 send0) server0 = Returned server1 (Ok tt)) as Hsend
    by (vm_compute; reflexivity).
  assert (run serve (prog0 schedule0) server1 = Returned server2 (Ok tt)) as Hsched
    by (vm_compute; reflexivity).
  assert (run serve (prog0 receive0) server2 = Returned (run0 receive0 server2) (Ok tt)) as Hrecv
    by (vm_compute; reflexivity).
  destruct (steps_run rdoc _ _ serve sdb _ _ [(receive0, prog0 receive0);
    (schedule0, prog0 schedule0)] [] _ _ _ _ _ starts0 Hsend) as (t1&N1&H1).
  pose proof (steps_snoc _ _ _ _ _ _ _ _ H1 (step_done _ _ _ _ _ _ _ _)) as H2.
  destruct (steps_run rdoc _ _ serve sdb _ _ [(receive0, prog0 receive0)] []
    _ _ _ _ _ H2 Hsched) as (t2&N2&H3).
  pose proof (steps_snoc _ _ _ _ _ _ _ _ H3 (step_done _ _ _ _ _ _ _ _)) as H4.
  destruct (steps_run rdoc _ _ serve sdb _ _ [] [] _ _ _ _ _ H4 Hrecv) as (t3&N3&H5).
  pose proof (steps_snoc _ _ _ _ _ _ _ _ H5 (step_crash _ _ _ _ _ [] [])) as H.
  eexists _, _. split_and!; [| | | |exact H].
  1-3: rewrite !elem_of_app, !list_elem_of_singleton; auto 10.
  by rewrite !started_app, N1, N2, N3.
Qed.

Lemma shop_distinct0 : distinct_keys "q" "p" dlq0.
Proof. done. Qed.
Lemma ids0 : ids (members "d" db0) ⊆ issued db0.
Proof. by vm_compute. Qed.

Lemma at_least_once_witness :
  ∃ tr d, EvDone send0 (Ok tt) ∈ tr ∧ EvDone schedule0 (Ok tt) ∈ tr ∧ EvCrash ∈ tr ∧
    runs0 tr (mkSystem d []) ∧
    in_queue "q" "p" "d" dlq0 db0 ++ sent_by tr ⊆+
      in_queue "q" "p" "d" dlq0 d ++ acked_by message tr.
Proof.
  destruct run0_example as (tr&d&H1&H2&H3&_&Hrun). exists tr, d.
  split_and!; [done..|].
  exact (at_least_once false 40 "q" "p" "d" "payload" dlq0 db0 tr (mkSystem _ [])
    shop_distinct0 ids0 Hrun).
Defined.

(** Payloads of one byte. *)
Definition short (p : bytes) : Prop := length p = 1%nat.

Lemma entries_well_formed_witness :
  ∃ tr d, EvDone send0 (Ok tt) ∈ tr ∧ EvCrash ∈ tr ∧ runs0 tr (mkSystem d []) ∧
    Forall (λ raw, ∃ n p, entry raw n p ∧ is_usize n ∧ short p ∧
        (n < USIZE_MAX → internal_from_list false raw = Done (Ok (mkInternalPayload p (n + 1)))))
      (all_entries "q" "p" "d" d) ∧
    Forall short (dlq_at dlq0 d).
Proof.
  destruct run0_example as (tr&d&H1&H2&H3&Hstarts&Hrun). exists tr, d.
  do 3 (split; [done|]).
  apply (entries_well_formed false 40 "q" "p" "d" "payload" dlq0 short db0 tr (mkSystem d [])
    shop_distinct0 ids0); [| |exact Hrun|].
  - assert (all_entries "q" "p" "d" db0 = [raw1; raw2; raw2; raw1]) as -> by (vm_compute; reflexivity).
    repeat constructor; eexists _, _; (split; [apply holds_raw1 || apply holds_raw2|]); done.
  - assert (dlq_at dlq0 db0 = []) as -> by (vm_compute; reflexivity). constructor.
  - refine (eq_ind_r (Forall _) _ Hstarts). by repeat constructor.
Defined.

Lemma receives_bounded_witness :
  ∃ tr d, EvDone send0 (Ok tt) ∈ tr ∧ EvCrash ∈ tr ∧ runs0 tr (mkSystem d []) ∧
    Forall (λ raw, ∃ n p, entry raw n p ∧ n < 5 ∧
        internal_from_list false raw = Done (Ok (mkInternalPayload p (n + 1))))
      (all_entries "q" "p" "d" d).
Proof.
  destruct run0_example as (tr&d&H1&H2&H3&_&Hrun). exists tr, d.
  do 3 (split; [done|]).
  apply (receives_bounded false 40 "q" "p" "d" "payload" dlq0 (mkDlq "dlq" 5) db0 tr
    (mkSystem d []) eq_refl ltac:(done) shop_distinct0 ids0); [|exact Hrun].
  assert (all_entries "q" "p" "d" db0 = [raw1; raw2; raw2; raw1]) as -> by (vm_compute; reflexivity).
  repeat constructor; eexists _, _; (split; [apply holds_raw1 || apply holds_raw2|]);
    (split; [split; [done|by right]|done]).
Defined.
