(* ===== verification/RedisStreamsConcurrent.v ===== *)
(** * Any number of clients and tasks of a stream queue at once

    The same for the stream-based redis queue as [RedisConcurrent] has for
    the list-based one: threads of clients, ackers and background tasks,
    interleaved call by call on a server whose replies may get lost.  An
    acker names an entry by its ID, so what it gives up depends on the
    history of the stream. *)
From S2P Require Import Prelude RustStd Effects Omniqueue Queue RedisCodec RedisApi RedisConfig.
From S2P Require Import RedisSpec RedisFallback RedisMain Threads RedisLedger RedisClients.
From S2P Require Import RedisStreams.
Open Scope N_scope.

Section stream.
Context (oc : bool) (delivery_size : N) (q pq dq : key) (payload_key : string)
  (c : option DeadLetterQueueConfig) (K : N → Prop) (G P : bytes → Prop)
  (PS : list (string * bytes) → Prop) (H : RedisApi.entry_id → bytes).
Hypothesis Hpk : payload_key ≠ NUM_RECEIVES.
Context `{HK : !Counts c K}.
Hypothesis HP : ∀ id i, is_base62 id → K (num_receives i) → G (payload i) →
  P (internal_to_list_payload id i).
Hypothesis HG : ∀ raw, P raw → G (content raw).
Hypothesis HPS : ∀ i, K (num_receives i) → G (payload i) →
  PS (internal_to_stream_payload i payload_key).
Hypothesis HGS : ∀ fs, PS fs → G (fields_content payload_key fs).

Abbreviation main := (stream_books q payload_key PS H).
Abbreviation payss := (pays rdoc (shop dq c G P main)).

#[local] Instance stream_side_books : SideBooks c main.
Proof.
  split; [apply _|apply _|]. intros X e He.
  by destruct e; try discriminate He.
Qed.

(** *** Pipelines *)

Definition add_entry (i : InternalPayload) : pipe_cmd :=
  PXadd q (internal_to_stream_payload i payload_key).

Lemma add_entry_gain i : pipe_gain q payload_key (add_entry i) = [Msg (payload i)].
Proof.
  unfold add_entry, pipe_gain, fields_content. rewrite bool_decide_eq_true_2 by done.
  by rewrite entry_content_written.
Qed.

Abbreviation gains := (λ cs, cs ≫= pipe_gain q payload_key).

Lemma add_entries_gain keys : gains (add_entry <$> keys) = Msg <$> (payload <$> keys).
Proof.
  induction keys as [|i keys IH]; [done|]. cbn [fmap list_fmap mbind list_bind].
  by rewrite add_entry_gain, <-IH.
Qed.

Lemma pays_adds cs m :
  Forall (adds q PS) cs →
  payss (pipeline cs) m (λ r, if r is Ok _ then gains cs ++ m else []).
Proof.
  intros Hcs. unfold pipeline. revert m. induction Hcs as [|cmd cs Hc _ IH]; intros m.
  { simpl. reflexivity. }
  cbn [for_each]. eapply pays_bind_ok with (Q1 := λ _, pipe_gain q payload_key cmd ++ m).
  - destruct cmd as [k fs| |]; [|done..]. apply (pays_wrapped _ _ _ _ _ m).
    + by repeat split.
    + by cbn [shop books_prod cost delayed_books dlq_books stream_books pipe_cost].
    + intros [] _. by cbn [shop books_prod gain delayed_books dlq_books stream_books].
    + intros. apply submseteq_nil_l.
  - intros []. eapply pays_mono; [apply IH|done|]. intros [[]|e]; [|done].
    cbn [mbind list_bind]. apply Permutation_submseteq. solve_Permutation.
Qed.

(** Acking and deleting entries. *)
Lemma pays_removes gn js :
  payss (pipeline [PXack q gn js; PXdel q js]) (Msg <$> (H <$> js)) (λ _, []).
Proof.
  unfold pipeline. cbn [for_each].
  apply pays_bind_ok with (Q1 := λ _, Msg <$> (H <$> js)).
  { apply (pays_wrapped _ _ _ _ _ (Msg <$> (H <$> js))); [by repeat split|done| |].
    - intros [] _. by cbn [shop books_prod gain delayed_books dlq_books stream_books pipe_gain].
    - intros. apply submseteq_nil_l. }
  intros []. apply pays_bind_ok with (Q1 := λ _, []); [|intros []; by apply pays_nil].
  apply (pays_wrapped _ _ _ _ _ []); [by repeat split| |intros; apply submseteq_nil_l..].
  cbn [shop books_prod cost delayed_books dlq_books stream_books pipe_cost].
  by rewrite bool_decide_eq_true_2, app_nil_r by done.
Qed.

#[local] Instance stream_main_books :
  @MainBooks true q dq payload_key c G P main (stream_msgs q payload_key).
Proof.
  split; [done|]. intros keys Hkeys. unfold RedisMain.add_to_main_queue, add_to_main_queue.
  change (λ i, PXadd q (internal_to_stream_payload (InternalPayload.new (payload i)) payload_key))
    with (λ i, add_entry (InternalPayload.new (payload i))).
  eapply pays_mono; [apply pays_adds|done|].
  - rewrite Forall_fmap in Hkeys. apply Forall_fmap. eapply Forall_impl; [exact Hkeys|].
    intros i Hi _. apply HPS; [apply (count_new (c := c))|done].
  - intros [[]|e]; [|done]. rewrite app_nil_r.
    rewrite (list_fmap_compose (λ i, InternalPayload.new (payload i)) add_entry).
    by rewrite add_entries_gain, <-!list_fmap_compose.
Qed.

(** *** Clients *)

Lemma stream_pays_send_raw p v :
  rp_queue_key p = q → rp_payload_key p = payload_key → G v →
  payss (send_raw p v) [] (λ r, if r is Ok _ then [Msg v] else []).
Proof.
  intros Hq Hk Hv. unfold send_raw. eapply pays_free_ok; [apply _|done| |done]. intros [] _.
  rewrite Hq, Hk. apply (pays_wrapped _ _ _ _ _ []); [|done| |done].
  - repeat split. intros _. apply HPS; [apply (count_new (c := c))|done].
  - intros [] _. cbn [shop books_prod gain delayed_books dlq_books stream_books].
    pose proof (add_entry_gain (InternalPayload.new v)) as Hg. unfold add_entry in Hg.
    by rewrite Hg.
Qed.

Lemma pays_lift_ok {A B} (o : outcome (Result A)) (f : A → prog redisE (Result B)) m Q :
  (∀ a, o = Done (Ok a) → payss (f a) m Q) → (∀ e, Q (Err e) = []) →
  payss (bind_ok (lift o) f) m Q.
Proof. intros Hf HQ. destruct o as [[a|e]|]; [by apply Hf|by apply pays_nil|done]. Qed.

Lemma pays_receive cs : payss (receive oc cs) [] (λ _, []).
Proof.
  unfold receive. eapply pays_free_ok; [apply _|done| |done]. intros [] _.
  eapply pays_free_ok; [apply _|done| |done]. intros read_out _.
  apply pays_bind_ok_free; [by apply pays_nil| |done]. intros queue.
  apply pays_bind_ok_free; [by apply pays_nil| |done]. intros entry.
  apply pays_lift_ok; [|done]. intros i _. by apply pays_nil.
Qed.

Lemma pays_deliveries cs js out : payss (deliveries oc cs js out) [] (λ _, []).
Proof.
  revert out. induction js as [|entry js IH]; intros out; [by apply pays_nil|].
  apply pays_lift_ok; [|done]. intros i _. apply IH.
Qed.

Lemma pays_receive_all cs deadline n :
  payss (receive_all oc delivery_size cs deadline n) [] (λ _, []).
Proof.
  unfold receive_all. eapply pays_free_ok; [apply _|done| |done]. intros [] _.
  apply pays_bind_ok_free; [by apply pays_nil| |done]. intros block.
  eapply pays_free_ok; [apply _|done| |done]. intros read_out _.
  apply pays_lift. intros _ _. destruct (head read_out); [apply pays_deliveries|by apply pays_nil].
Qed.

(** *** Entries that have been read *)

(** What is known of an entry that the server has shown. *)
Definition seen (s : StreamId) : Prop := ∀ p, payload_of s payload_key = Ok p → p = H (sid s) ∧ G p.

Lemma seen_entry d e :
  ok main d → known main d → e ∈ entries (stream_at q d) → seen (read_entry e).
Proof.
  intros [_ HPs] Hk He p Hp. simpl in Hk. rewrite Forall_forall in Hk, HPs.
  change (sid (read_entry e)) with e.1. rewrite <-(Hk e He).
  assert (entry_content payload_key e = p) as Hc by (unfold entry_content; by rewrite Hp).
  split; [done|]. rewrite <-Hc. apply (HGS e.2), (HPs e He).
Qed.

Lemma possible_known {X} (e : redisE X) x :
  possible rdoc (shop dq c G P main) e x →
  ∃ d d', ok main d ∧ known main d ∧ redis_documented true X e d d' x.
Proof. intros (d&d'&(_&_&Hok)&(_&_&Hk)&_&Hdoc). by exists d, d'. Qed.

Lemma seen_xrange i l s :
  possible rdoc (shop dq c G P main) (Xrange q i i) (Ok l) → head l = Some s →
  seen s ∧ sid s = i.
Proof.
  intros (d&d'&Hok&Hk&_&->)%possible_known Hs.
  destruct (filter _ _) as [|e es] eqn:Hf; [done|]. injection Hs as <-.
  assert (e ∈ filter (λ e, i <= e.1 <= i) (entries (stream_at q d))) as Hin
    by (rewrite Hf; by left).
  apply list_elem_of_filter in Hin as [Hi Hin]. split; [by eapply seen_entry|]. simpl. lia.
Qed.

Lemma seen_xautoclaim gn cn ms n l :
  possible rdoc (shop dq c G P main) (Xautoclaim q gn cn ms n) (Ok l) → Forall seen l.
Proof.
  intros (d&d'&Hok&Hk&g&pel'&chosen&_&_&_&_&->&_)%possible_known.
  apply Forall_fmap, Forall_forall. intros e [_ He]%list_elem_of_filter. by eapply seen_entry.
Qed.

Lemma parse_usize_stream s i :
  internal_from_stream oc s payload_key = Done (Ok i) → is_usize (num_receives i).
Proof.
  unfold internal_from_stream, outcome_try, outcome_bind. intros Hi.
  split_matches; simplify_eq/=; try done; by eapply usize_add_bound.
Qed.

(** *** Ackers *)

Definition settle (verdict : settle_op) : RedisStreamsAcker →
    prog redisE (RedisStreamsAcker * Result unit) :=
  match verdict with OpAck => ack | OpNack => nack end.

Definition acker_fits (a : RedisStreamsAcker) : Prop :=
  queue_key a = q ∧ RedisStreams.payload_key a = payload_key ∧ acker_dlq_config a = c.

Definition message (a : RedisStreamsAcker) : bytes := H (entry_id a).

Lemma stream_pays_send_to_dlq dlq i m :
  c = Some dlq →
  payss (send_to_dlq q dlq i payload_key) m (λ r, if r is Ok _ then Msg (H i) :: m else []).
Proof.
  intros Hc. unfold send_to_dlq. eapply pays_free_ok; [apply _|done| |done]. intros [] _.
  eapply pays_free_ok; [apply _|done| |done]. intros l Hl.
  apply pays_ret; [|done]. intros s Hs.
  assert (head l = Some s) as [Hseen <-]%(seen_xrange i l s Hl) by (destruct (head l); by simplify_eq/=).
  apply pays_ret; [|done]. intros p Hp. destruct (Hseen p Hp) as [<- Hv].
  eapply pays_free_ok; [apply _|done| |done]. intros [] _.
  eapply pays_mono.
  - apply (pays_frame _ _ _ [] m). eapply (pays_dead_letter dq c G P dlq p QueueError.generic []);
      [exact Hc|exact Hv].
  - reflexivity.
  - intros [[]|e]; [done|]. apply submseteq_nil_l.
Qed.

Lemma stream_pays_ack a :
  queue_key a = q → payss (ack a) [Msg (message a)] (λ _, []).
Proof.
  intros Hq. unfold ack. destruct (already_acked_or_nacked a); [by apply pays_nil|].
  eapply pays_bind with (Q1 := λ _, []); [|intros [[]|e]; by apply pays_nil].
  eapply pays_free_ok; [apply _|done| |done]. intros [] _. rewrite Hq.
  apply (pays_removes (consumer_group a) [entry_id a]).
Qed.

Lemma stream_pays_nack_end a : payss (nack_end a) [] (λ _, []).
Proof. unfold nack_end. by case_match; apply pays_nil. Qed.

Lemma stream_pays_nack a : acker_fits a → payss (nack a) [] (λ _, []).
Proof.
  intros (Hq&Hk&Hc). unfold nack.
  destruct (acker_dlq_config a) as [dlq|] eqn:Hdlq; [|apply stream_pays_nack_end].
  destruct (max_retries_reached _ _); [|apply stream_pays_nack_end]. rewrite Hq, Hk.
  eapply pays_bind; [by apply stream_pays_send_to_dlq|].
  intros [[]|e]; [by apply stream_pays_ack|by apply pays_nil].
Qed.

(** *** The background task *)

(** Going over claimed entries: what the pipeline will add, and what has gone
    to the dead-letter queue, make up for them. *)
Lemma pays_readd c' ss pipe (f : list pipe_cmd → prog redisE (Result unit)) m Q :
  c' = c → Forall seen ss → Forall (adds q PS) pipe → (∀ e, Q (Err e) = []) →
  (∀ pipe' m', Forall (adds q PS) pipe' →
     (Msg <$> (H <$> (sid <$> ss))) ++ gains pipe ++ m ⊆+ gains pipe' ++ m' →
     payss (f pipe') m' Q) →
  payss (bind_ok (readd oc q payload_key c' ss pipe) f) m Q.
Proof.
  intros Hc Hss Hpipe HQ Hf. revert pipe m Hpipe Hf.
  induction Hss as [|s ss Hs _ IH]; intros pipe m Hpipe Hf; cbn [readd]; [by apply Hf|].
  apply pays_assoc_ok, pays_lift_ok; [|done]. intros i Hi.
  pose proof (parse_usize_stream s i Hi) as Hn. apply parse_payload, Hs in Hi as [Hp Hv].
  fold (add_entry i).
  assert (exhausted c' (num_receives i) = None →
    payss (bind_ok (readd oc q payload_key c' ss (pipe ++ [add_entry i])) f) m Q) as Hadd.
  { intros Hx. rewrite Hc in Hx. apply IH.
    { apply Forall_app. split; [done|]. repeat constructor. intros _. apply HPS; [|done].
      by apply count_again. }
    intros pipe' m' Hpipe' Hsub. apply Hf; [done|]. etrans; [|exact Hsub].
    rewrite bind_app. cbn [mbind list_bind fmap list_fmap].
    rewrite add_entry_gain, Hp, app_nil_r. apply Permutation_submseteq. solve_Permutation. }
  unfold exhausted, max_retries_reached in Hadd. destruct c' as [dlq|]; [|by apply Hadd].
  destruct (max_receives dlq <=? num_receives i); [|by apply Hadd].
  apply pays_assoc_ok. apply pays_bind_ok with (Q1 := λ _, Msg (H (sid s)) :: m).
  - eapply pays_mono; [by apply stream_pays_send_to_dlq|done|]. intros [[]|e]; [done|]. by rewrite HQ.
  - intros []. apply IH; [done|]. intros pipe' m' Hpipe' Hsub. apply Hf; [done|].
    etrans; [|exact Hsub]. apply Permutation_submseteq. csimpl. solve_Permutation.
Qed.

Lemma stream_pays_reenqueue gn cn ms :
  payss (reenqueue_timed_out_messages oc q gn cn ms payload_key c) [] (λ _, []).
Proof.
  unfold reenqueue_timed_out_messages. eapply pays_free_ok; [apply _|done| |done]. intros [] _.
  eapply pays_free_ok; [apply _|done| |done]. intros ss Hss%seen_xautoclaim.
  assert (payss (let? pipe := readd oc q payload_key c ss [] in
      let? _ := pipeline pipe in
      pipeline [PXack q gn (sid <$> ss); PXdel q (sid <$> ss)]) [] (λ _, [])) as Hmove.
  { apply pays_readd; [done|done|done|done|]. intros pipe m Hpipe Hsub.
    cbn [mbind list_bind app] in Hsub. rewrite app_nil_r in Hsub.
    eapply pays_bind_ok with (Q1 := λ _, gains pipe ++ m).
    - eapply pays_mono; [by apply pays_adds|done|]. by intros [[]|e].
    - intros []. eapply pays_mono; [apply pays_removes|exact Hsub|done]. }
  destruct ss; [|exact Hmove]. eapply pays_sleep; [apply _|done].
Qed.

#[local] Instance stream_main_queue :
  MainQueue oc delivery_size settle true q pq dq payload_key c acker_fits G P (λ _, True) message main.
Proof.
  split.
  - intros p v (Hq&_&Hk&Hs&_) Hv. unfold RedisMain.send_raw. rewrite Hs. by apply stream_pays_send_raw.
  - intros cs (_&_&_&Hs&_). unfold RedisMain.receive. rewrite Hs. apply pays_receive.
  - intros cs n deadline (_&_&_&Hs&_). unfold RedisMain.receive_all. rewrite Hs.
    apply pays_receive_all.
  - intros [] a Ha _; [|by apply stream_pays_nack]. destruct Ha as (Hq&_&_). by apply stream_pays_ack.
  - intros fuel q' g n ms pk c' (_&->&->&->).
    eapply pays_forever; [apply _|apply stream_pays_reenqueue].
  - by intros fuel q' pq' ms c' [Hs _].
Qed.

(** *** Runs *)

(** From [d0], threads of the queue have run as [tr] says. *)
Definition run_stream (d0 : db) (tr : list (event (O := operation) (A := Result unit)))
    (s : system) : Prop :=
  steps rdoc (program oc delivery_size settle)
    (fits true q pq dq payload_key c acker_fits) (mkSystem d0 []) tr s.

(** Every message that the queue has, due or not. *)
Definition in_stream_queue (d : db) : list bytes :=
  messages q payload_key c d ++ delayed_msgs dq d.

Lemma in_stream_queue_parts d :
  delayed_msgs dq d ++ dlq_at c d ++ stream_msgs q payload_key d ≡ₚ in_stream_queue d.
Proof. unfold in_stream_queue, messages, stream_msgs. solve_Permutation. Qed.

(** What is needed of a database at the start. *)
Definition wf_queue (d : db) : Prop :=
  wf_stream (stream_at q d) ∧ ids (members dq d) ⊆ issued d.

Lemma stream_balanced d0 tr s :
  wf_queue d0 → Forall (λ e, PS e.2) (entries (stream_at q d0)) →
  Forall P (elements (members dq d0)) → Forall G (dlq_at c d0) →
  Forall (known main) (states d0 tr) → run_stream d0 tr s →
  Forall (carries G (λ _, True)) (started tr) →
  Forall (λ e, PS e.2) (entries (stream_at q (shared s))) ∧
  Forall P (elements (members dq (shared s))) ∧ Forall G (dlq_at c (shared s)) ∧
  in_stream_queue d0 ++ sent_by tr ⊆+ in_stream_queue (shared s) ++ acked_by message tr.
Proof.
  intros [Hwf Hids] HPSs HPs HGs Hkn Hrun Hcarries.
  assert (∀ d, Forall P (elements (members dq d)) ↔ set_Forall P (members dq d)) as Hset.
  { intros d. rewrite Forall_forall. unfold set_Forall. set_solver. }
  destruct (queue_balanced oc delivery_size settle true q pq dq payload_key c
    acker_fits K G P (λ _, True) message (M := main) HP HG d0 tr s) as [Hok Hsub]; [| |exact Hkn|].
  - apply Hset in HPs. split; [by split|]. split; [done|by split].
  - eapply steps_mono; [|exact (steps_only _ _ _ _ _ _ Hrun)].
    rewrite Forall_forall in Hcarries. intros o [Ho Hin]. auto.
  - destruct Hok as ([HPs' _]&HGs'&_&HPSs'). split_and!; [done|by apply Hset|done|].
    by rewrite !in_stream_queue_parts in Hsub.
Qed.
End stream.

(** ** The history of a stream *)

Section history.
Context (q : key) (payload_key : string).

Abbreviation entry := (RedisApi.entry_id * list (string * bytes))%type.

(** Documented calls only add entries with new IDs. *)
Definition evolves (s s' : stream) : Prop :=
  wf_stream s' ∧ top_id s <= top_id s' ∧
  Forall (λ e, e ∈ entries s ∨ top_id s < e.1) (entries s').

Lemma evolves_refl s : wf_stream s → evolves s s.
Proof. intros Hwf. split_and!; [done|lia|]. apply Forall_forall. auto. Qed.

Lemma evolves_same s s' :
  wf_stream s → entries s' = entries s → top_id s' = top_id s → evolves s s'.
Proof.
  intros Hwf He Ht. unfold evolves, wf_stream, entry_ids. rewrite He, Ht. by apply evolves_refl.
Qed.

Lemma evolves_trans s1 s2 s3 : evolves s1 s2 → evolves s2 s3 → evolves s1 s3.
Proof.
  intros (_&Ht1&He1) (Hwf&Ht2&He2). split_and!; [done|lia|]. rewrite Forall_forall in *.
  intros e He. destruct (He2 e He) as [Hin|Hlt]; [by apply He1|right; lia].
Qed.

Lemma pipe_step_evolves cmd d d' :
  wf_stream (stream_at q d) → pipe_step cmd d d' → evolves (stream_at q d) (stream_at q d').
Proof.
  intros Hwf. destruct cmd as [k fs|k gn js|k js]; simpl.
  - intros (i&Hi&->). unfold xadd. rewrite stream_at_set_stream_case. case_bool_decide; subst;
      [|by apply evolves_refl]. split_and!; simpl; [by apply wf_stream_add|lia|].
    apply Forall_app. split; [apply Forall_forall; auto|]. apply Forall_singleton. by right.
  - intros ->. destruct (xack_entries q k gn js d). by apply evolves_same.
  - intros ->. unfold xdel. rewrite stream_at_set_stream_case. case_bool_decide; subst;
      [|by apply evolves_refl]. destruct Hwf as [Hnd Hle]. unfold evolves, wf_stream, entry_ids in *.
    simpl. rewrite !Forall_fmap, !Forall_forall in *.
    split_and!; [by apply NoDup_fmap_filter| |lia|].
    + intros e [_ He]%list_elem_of_filter. by apply Hle.
    + intros e [_ He]%list_elem_of_filter. by left.
Qed.

Lemma fallible_evolves {Y} (eff : db → db → Y → Prop) d d' r :
  fallible true eff d d' r → wf_stream (stream_at q d) →
  (∀ d1 y, eff d d1 y → evolves (stream_at q d) (stream_at q d1)) →
  evolves (stream_at q d) (stream_at q d').
Proof.
  intros Hf Hwf Heff. destruct r as [y|e]; [by eapply Heff|].
  destruct Hf as [[_ [->|[y Hy]]]|[-> _]]; [by apply evolves_refl|by eapply Heff|].
  by apply evolves_refl.
Qed.

Lemma set_stream_evolves k s d :
  wf_stream (stream_at q d) → entries s = entries (stream_at k d) →
  top_id s = top_id (stream_at k d) → evolves (stream_at q d) (stream_at q (set_stream k s d)).
Proof.
  intros Hwf He Ht. rewrite stream_at_set_stream_case.
  case_bool_decide; subst; [by apply evolves_same|by apply evolves_refl].
Qed.

Lemma doc_evolves {X} (e : redisE X) d d' x :
  redis_documented true X e d d' x → wf_stream (stream_at q d) →
  evolves (stream_at q d) (stream_at q d').
Proof.
  intros Hdoc Hwf. destruct (is_stream_command e) eqn:He.
  2:{ apply keeps_streams in Hdoc; [|done]. unfold stream_at in *. rewrite Hdoc.
      by apply evolves_refl. }
  destruct e; try discriminate He.
  - eapply fallible_evolves; [exact Hdoc|done|]. intros d1 y Hs.
    by apply (pipe_step_evolves (PXadd k fields)).
  - eapply fallible_evolves; [exact Hdoc|done|]. intros d1 y (g&_&Heff). cbn zeta in Heff.
    case_match; [|destruct Heff as (_&_&->); by apply evolves_refl]. destruct Heff as [_ ->].
    by apply set_stream_evolves.
  - eapply fallible_evolves; [exact Hdoc|done|]. intros d1 y (g&pel'&chosen&_&_&_&_&_&_&->).
    by apply set_stream_evolves.
  - eapply fallible_evolves; [exact Hdoc|done|]. intros d1 y Hs. by apply (pipe_step_evolves c).
Qed.

(** Every entry that a sequence of states shows, by its payload. *)
Definition log (ds : list db) : list (RedisApi.entry_id * bytes) :=
  ds ≫= λ d, (λ e, (e.1, entry_content payload_key e)) <$> entries (stream_at q d).

(** The payload of the entry with the ID [i], wherever it is shown. *)
Definition payload_in (ds : list db) (i : RedisApi.entry_id) : bytes :=
  default [] ((list_to_map (log ds) : gmap RedisApi.entry_id bytes) !! i).

(** An ID is used once, and not above the last one. *)
Definition consistent (l : list (RedisApi.entry_id * bytes)) (s : stream) : Prop :=
  wf_stream s ∧ (∀ i p, (i, p) ∈ l → i <= top_id s) ∧
  (∀ i p1 p2, (i, p1) ∈ l → (i, p2) ∈ l → p1 = p2).

Lemma log_snoc ds d :
  log (ds ++ [d]) = log ds ++ ((λ e, (e.1, entry_content payload_key e)) <$> entries (stream_at q d)).
Proof. unfold log. rewrite bind_app. simpl. by rewrite app_nil_r. Qed.

Lemma elem_of_log ds i p :
  (i, p) ∈ log ds ↔
  ∃ d e, d ∈ ds ∧ e ∈ entries (stream_at q d) ∧ i = e.1 ∧ p = entry_content payload_key e.
Proof.
  unfold log. rewrite list_elem_of_bind. split.
  - intros (d&(e&[= -> ->]&He)%list_elem_of_fmap&Hd). by exists d, e.
  - intros (d&e&Hd&He&->&->). exists d. split; [|done]. apply list_elem_of_fmap. by exists e.
Qed.

(** Entries with the same ID are the same entry. *)
Lemma same_entry s e1 e2 :
  wf_stream s → e1 ∈ entries s → e2 ∈ entries s → e1.1 = e2.1 → e1 = e2.
Proof.
  intros [Hnd _] H1 H2 Heq. destruct e1 as [i fs1], e2 as [j fs2]. simpl in Heq. subst j.
  f_equal. unfold entry_ids in Hnd.
  apply list_elem_of_lookup in H1 as [n1 H1]. apply list_elem_of_lookup in H2 as [n2 H2].
  assert (n1 = n2) as ->; [|congruence].
  eapply (NoDup_lookup _ n1 n2 i Hnd); rewrite list_lookup_fmap; by rewrite ?H1, ?H2.
Qed.

(** New entries of a stream do not clash with what has been shown. *)
Lemma consistent_step ds d d' :
  d ∈ ds → consistent (log ds) (stream_at q d) → evolves (stream_at q d) (stream_at q d') →
  consistent (log (ds ++ [d'])) (stream_at q d').
Proof.
  intros Hd (Hwf&Htop&Hfun) (Hwf'&Ht&Hev). rewrite log_snoc. rewrite Forall_forall in Hev.
  assert (∀ i p, (i, p) ∈ (λ e, (e.1, entry_content payload_key e)) <$> entries (stream_at q d') →
    ∃ e, i = e.1 ∧ p = entry_content payload_key e ∧ e ∈ entries (stream_at q d') ∧
      ((i, p) ∈ log ds ∨ top_id (stream_at q d) < i)) as Hnew.
  { intros i p (e&[= -> ->]&He)%list_elem_of_fmap. exists e. split_and!; [done..|].
    destruct (Hev e He) as [Hin|Hlt]; [left|by right]. apply elem_of_log. by exists d, e. }
  split_and!; [done|..].
  - intros i p [Hin|Hin]%elem_of_app; [apply Htop in Hin; lia|].
    apply Hnew in Hin as (e&->&_&He&_). destruct Hwf' as [_ Hle].
    rewrite Forall_forall in Hle. apply Hle. by apply list_elem_of_fmap_2.
  - intros i p1 p2 [H1|H1]%elem_of_app [H2|H2]%elem_of_app; [by eapply Hfun|..].
    + apply Hnew in H2 as (e&_&_&_&[H2|Hlt]); [by eapply Hfun|]. apply Htop in H1. lia.
    + apply Hnew in H1 as (e&_&_&_&[H1|Hlt]); [by eapply Hfun|]. apply Htop in H2. lia.
    + apply Hnew in H1 as (e1&->&->&He1&_). apply Hnew in H2 as (e2&Heq&->&He2&_).
      f_equal. by eapply same_entry.
Qed.

(** What the log says of the entries of a state that it covers. *)
Lemma consistent_known ds d s PS :
  consistent (log ds) s → d ∈ ds → known (stream_books q payload_key PS (payload_in ds)) d.
Proof.
  intros (_&_&Hfun) Hd. simpl. apply Forall_forall. intros e He.
  assert ((e.1, entry_content payload_key e) ∈ log ds) as Hin.
  { apply elem_of_log. by exists d, e. }
  unfold payload_in. destruct (list_to_map (log ds) !! e.1) as [p|] eqn:Hp.
  - apply elem_of_list_to_map_2 in Hp. simpl. by eapply Hfun.
  - apply not_elem_of_list_to_map in Hp. destruct Hp.
    by apply (list_elem_of_fmap_2 fst) in Hin.
Qed.

Section runs.
Context {O A : Type} (program : O → prog redisE A) (fits : O → Prop).

Lemma steps_consistent d0 tr s :
  wf_stream (stream_at q d0) → steps rdoc program fits (mkSystem d0 []) tr s →
  consistent (log (states d0 tr)) (stream_at q (shared s)).
Proof.
  intros Hwf Hs. induction Hs as [|tr s1 ev s2 Hs IH Hstep].
  - unfold states, log. cbn [mbind list_bind app shared]. rewrite app_nil_r. split_and!; [done|..].
    + intros i p (e&[= -> ->]&He)%list_elem_of_fmap. destruct Hwf as [_ Hle].
      rewrite Forall_forall in Hle. apply Hle. by apply list_elem_of_fmap_2.
    + intros i p1 p2 (e1&[= -> ->]&He1)%list_elem_of_fmap (e2&[= Heq ->]&He2)%list_elem_of_fmap.
      f_equal. by eapply same_entry.
  - apply shared_states in Hs. rewrite states_snoc.
    inversion Hstep as [|o X e k x d d' ts1 ts2 Hdoc| |]; subst;
      cbn [shared state_of] in *; rewrite ?app_nil_r; try done.
    eapply consistent_step; [exact Hs|done|]. eapply doc_evolves; [exact Hdoc|]. apply IH.
Qed.
End runs.
End history.

Section claims.
Context (oc : bool) (delivery_size : N) (q pq dq : key) (payload_key : string)
  (c : option DeadLetterQueueConfig).

Abbreviation run d0 tr s := (run_stream oc delivery_size q pq dq payload_key c d0 tr s).
Abbreviation history d0 tr := (payload_in q payload_key (states d0 tr)).

Lemma run_known d0 tr s PS :
  wf_queue q dq d0 → run d0 tr s →
  Forall (known (stream_books q payload_key PS (history d0 tr))) (states d0 tr).
Proof.
  intros [Hwf _] Hrun. apply (steps_consistent q payload_key) in Hrun; [|done].
  apply Forall_forall. intros d Hd. by eapply consistent_known.
Qed.

(** The balance alone, whatever the entries are. *)
Lemma plain_balanced d0 tr s :
  payload_key ≠ NUM_RECEIVES → wf_queue q dq d0 → run d0 tr s →
  in_stream_queue q dq payload_key c d0 ++ sent_by tr ⊆+
    in_stream_queue q dq payload_key c (shared s) ++ acked_by (message (history d0 tr)) tr.
Proof.
  intros Hpk Hwf Hrun.
  destruct (stream_balanced oc delivery_size q pq dq payload_key c is_usize (λ _, True)
    (λ _, True) (λ _, True) (history d0 tr) Hpk) with d0 tr s as (_&_&_&Hsub);
    [done..|by apply Forall_true|by apply Forall_true|by apply Forall_true|by eapply run_known
    |done| |done].
  apply Forall_forall. by intros [].
Qed.

(** C2: at-least-once delivery of the stream queue.  Whatever clients and
    background tasks of a stream queue run, in whatever interleaving of their
    calls, on a server whose replies may get lost, with threads that crash at
    any point: at every moment, each message that was in the queue or has been
    sent or scheduled with success is in the stream, the delayed set or the
    dead-letter queue, unless an ack has been started of an entry of the
    stream that had it.  Messages are counted, and an entry that an acker
    names is looked up in the history of the stream. *)
Theorem streams_at_least_once d0 tr s :
  payload_key ≠ NUM_RECEIVES → wf_queue q dq d0 → run d0 tr s →
  in_stream_queue q dq payload_key c d0 ++ sent_by tr ⊆+
    in_stream_queue q dq payload_key c (shared s) ++ acked_by (message (history d0 tr)) tr.
Proof. apply plain_balanced. Qed.

(** The fields of an entry that [internal_to_stream_payload] writes. *)
Definition well_formed_fields (K : N → Prop) (G : bytes → Prop) (fs : list (string * bytes)) : Prop :=
  ∃ p n, K n ∧ G p ∧ fs = internal_to_stream_payload (mkInternalPayload p n) payload_key.

Lemma well_formed_fields_content K (G : bytes → Prop) fs :
  payload_key ≠ NUM_RECEIVES → well_formed_fields K G fs → G (fields_content payload_key fs).
Proof.
  intros Hpk (p&n&_&Hp&->). unfold fields_content. by rewrite entry_content_written.
Qed.

(** C7: the type of a stream queue.  Let the payloads of the queue have any
    property [G]: its stream and its delayed set hold well-formed entries of
    such payloads, and its dead-letter queue such payloads.  Then after any
    interleaving of clients and tasks, with lost replies and crashes, in which
    only such payloads have been sent, this is still so, and each entry of the
    stream is parsed with its payload, unless it has been received
    [usize::MAX] times.  Unlike the list queue's, deliveries need not be of
    such payloads: an acker holds an ID only. *)
Theorem stream_entries_well_formed (G : bytes → Prop) d0 tr s :
  payload_key ≠ NUM_RECEIVES → wf_queue q dq d0 →
  Forall (λ e, well_formed_fields is_usize G e.2) (entries (stream_at q d0)) →
  Forall (well_formed is_usize G) (elements (members dq d0)) → Forall G (dlq_at c d0) →
  run d0 tr s → Forall (carries G (λ _, True)) (started tr) →
  Forall (λ e, ∃ p n, is_usize n ∧ G p ∧ holds payload_key e (p, n) ∧
      (n < USIZE_MAX → internal_from_stream oc (read_entry e) payload_key =
                       Done (Ok (mkInternalPayload p (n + 1)))))
    (entries (stream_at q (shared s))) ∧
  Forall (well_formed is_usize G) (elements (members dq (shared s))) ∧ Forall G (dlq_at c (shared s)).
Proof.
  intros Hpk Hwf Hfs Hdelayed Hdead Hrun Hcarries.
  destruct (stream_balanced oc delivery_size q pq dq payload_key c is_usize G (well_formed is_usize G)
    (well_formed_fields is_usize G) (history d0 tr) Hpk (well_formed_written (c := c) G) (well_formed_content _ G))
    with d0 tr s as (Hall&Hmem&HGs&_); [| |done|done|done|done|by eapply run_known|done|done|].
  - intros [p n] Hn Hp. by exists p, n.
  - intros fs. by apply well_formed_fields_content.
  - split; [|done]. eapply Forall_impl; [exact Hall|]. intros [i fs] (p&n&Hn&Hp&Heq).
    simpl in Heq. subst fs. exists p, n. split_and!; [done|done|done|]. intros Hlt.
    rewrite stream_entry_parse by done. by rewrite decide_False.
Qed.

(** C9: the same for the stream queue: with a dead-letter queue, every entry
    of the stream has been received less than [max_receives] times (or never),
    after any interleaving of clients and tasks, with lost replies and crashes,
    if this was so at the start.  So every entry is parsed, without panic or
    overflow, and a receive of it counts at most [max_receives] (or one). *)
Theorem stream_receives_bounded dlq d0 tr s :
  c = Some dlq → max_receives dlq <= USIZE_MAX →
  payload_key ≠ NUM_RECEIVES → wf_queue q dq d0 →
  Forall (λ e, well_formed_fields (within c) (λ _, True) e.2) (entries (stream_at q d0)) →
  Forall (well_formed (within c) (λ _, True)) (elements (members dq d0)) → run d0 tr s →
  Forall (λ e, ∃ p n, holds payload_key e (p, n) ∧ n < N.max 1 (max_receives dlq) ∧
      internal_from_stream oc (read_entry e) payload_key =
        Done (Ok (mkInternalPayload p (n + 1))))
    (entries (stream_at q (shared s))).
Proof.
  intros Hc Hmax Hpk Hwf Hfs Hdelayed Hrun.
  destruct (stream_balanced oc delivery_size q pq dq payload_key c (within c) (λ _, True)
    (well_formed (within c) (λ _, True)) (well_formed_fields (within c) (λ _, True))
    (history d0 tr) Hpk (well_formed_written (c := c) (λ _, True)) (λ _ _, Logic.I))
    with d0 tr s as (Hall&_);
    [|done|done|done|done|by apply Forall_true|by eapply run_known|done|..].
  - intros [p n] Hn _. by exists p, n.
  - apply Forall_forall. by intros [].
  - eapply Forall_impl; [exact Hall|]. rewrite Hc. intros [i fs] (p&n&Hn&_&Heq).
    simpl in Heq. subst fs. pose proof Hn as [Hu _]. apply within_lt in Hn.
    exists p, n. split_and!; [done|done|].
    rewrite stream_entry_parse; [by rewrite decide_False|]. unfold USIZE_MAX in *. lia.
Qed.
End claims.

(** ** Witnesses *)

(** A send that succeeds, the ack of the first entry, and a receive that
    crashes. *)
Definition dlq0 : option DeadLetterQueueConfig := Some (mkDlq "dlq" 5).
Definition server0 : server := mkServer db0 [] 0%Z (bstr "k3").
Definition op : Type := operation (T := RedisStreamsAcker).
Definition acker0 : RedisStreamsAcker := mkStreamsAcker "q" "g" 1 "payload" false 5 dlq0.
Definition send0 : op := OpSend p0 (bstr "c").
Definition ack0 : op := OpSettle OpAck acker0.
Definition receive0 : op := OpReceive c0.
Definition prog0 (o : op) : prog redisE (Result unit) := program false 40 settle o.
Definition run0 (o : op) (s : server) : server :=
  match Effects.run serve (prog0 o) s with Returned s' _ => s' | _ => s end.
Definition server1 : server := run0 send0 server0.
Definition server2 : server := run0 ack0 server1.

Abbreviation runs0 := (run_stream false 40 "q" "p" "d" "payload" dlq0 db0).

Lemma stream_starts0 :
  runs0 [EvStart receive0; EvStart ack0; EvStart send0]
    (mkSystem (sdb server0) [(receive0, prog0 receive0); (ack0, prog0 ack0);
                             (send0, prog0 send0)]).
Proof.
  pose proof (steps_nil rdoc (program false 40 settle)
    (fits true "q" "p" "d" "payload" dlq0 (acker_fits "q" "payload" dlq0)) (mkSystem db0 [])) as H0.
  eapply steps_snoc in H0; [|by apply (step_start _ _ _ receive0)].
  eapply steps_snoc in H0; [|by apply (step_start _ _ _ ack0)].
  eapply steps_snoc in H0; [|by apply (step_start _ _ _ send0)].
  exact H0.
Qed.

(** The threads run one after the other. *)
Lemma stream_run0_example :
  ∃ tr d, EvDone send0 (Ok tt) ∈ tr ∧ EvDone ack0 (Ok tt) ∈ tr ∧ EvCrash ∈ tr ∧
    started tr = [receive0; ack0; send0] ∧
    runs0 tr (mkSystem d []) ∧ entry_ids (stream_at "q" d) = [2; 3].
Proof.
  assert (Effects.run serve (prog0 send0) server0 = Returned server1 (Ok tt)) as Hsend
    by (vm_compute; reflexivity).
  assert (Effects.run serve (prog0 ack0) server1 = Returned server2 (Ok tt)) as Hack
    by (vm_compute; reflexivity).
  assert (Effects.run serve (prog0 receive0) server2 = Returned (run0 receive0 server2) (Ok tt))
    as Hrecv by (vm_compute; reflexivity).
  destruct (steps_run rdoc _ _ serve sdb _ _ [(receive0, prog0 receive0); (ack0, prog0 ack0)] []
    _ _ _ _ _ stream_starts0 Hsend) as (t1&N1&H1).
  pose proof (steps_snoc _ _ _ _ _ _ _ _ H1 (step_done _ _ _ _ _ _ _ _)) as H2.
  destruct (steps_run rdoc _ _ serve sdb _ _ [(receive0, prog0 receive0)] []
    _ _ _ _ _ H2 Hack) as (t2&N2&H3).
  pose proof (steps_snoc _ _ _ _ _ _ _ _ H3 (step_done _ _ _ _ _ _ _ _)) as H4.
  destruct (steps_run rdoc _ _ serve sdb _ _ [] [] _ _ _ _ _ H4 Hrecv) as (t3&N3&H5).
  pose proof (steps_snoc _ _ _ _ _ _ _ _ H5 (step_crash _ _ _ _ _ [] [])) as H.
  eexists _, _. split_and!; [| | | |exact H|vm_compute; reflexivity].
  1-3: rewrite !elem_of_app, !list_elem_of_singleton; auto 10.
  by rewrite !started_app, N1, N2, N3.
Qed.

Lemma wf_queue0 : wf_queue "q" "d" db0.
Proof.
  split; [|by vm_compute]. split; [by apply (bool_decide_unpack _)|by repeat constructor].
Qed.

(** Payloads of one byte. *)
Definition short (p : bytes) : Prop := length p = 1%nat.

Lemma fields0 :
  Forall (λ e, well_formed_fields "payload" is_usize short e.2) (entries (stream_at "q" db0)).
Proof.
  assert (is_usize 4) as Hn by done.
  change (entries (stream_at "q" db0)) with [e1; e2].
  constructor; [exists (bstr "a"), 4; split_and!; [exact Hn|done|reflexivity]|].
  constructor; [exists (bstr "b"), 4; split_and!; [exact Hn|done|reflexivity]|constructor].
Qed.
Lemma members0 : Forall (well_formed is_usize short) (elements (members "d" db0)).
Proof.
  assert (elements (members "d" db0) = []) as -> by (vm_compute; reflexivity). constructor.
Qed.
Lemma dead0 : Forall short (dlq_at dlq0 db0).
Proof. assert (dlq_at dlq0 db0 = []) as -> by (vm_compute; reflexivity). constructor. Qed.

Lemma streams_at_least_once_witness :
  ∃ tr d, EvDone send0 (Ok tt) ∈ tr ∧ EvDone ack0 (Ok tt) ∈ tr ∧ EvCrash ∈ tr ∧
    runs0 tr (mkSystem d []) ∧ entry_ids (stream_at "q" d) = [2; 3] ∧
    in_stream_queue "q" "d" "payload" dlq0 db0 ++ sent_by tr ⊆+
      in_stream_queue "q" "d" "payload" dlq0 d ++
      acked_by (message (payload_in "q" "payload" (states db0 tr))) tr.
Proof.
  destruct stream_run0_example as (tr&d&H1&H2&H3&_&Hrun&Hd). exists tr, d. split_and!; [done..|].
  exact (streams_at_least_once false 40 "q" "p" "d" "payload" dlq0 db0 tr (mkSystem d [])
    ltac:(done) wf_queue0 Hrun).
Defined.

Lemma stream_entries_well_formed_witness :
  ∃ tr d, EvDone send0 (Ok tt) ∈ tr ∧ EvCrash ∈ tr ∧ runs0 tr (mkSystem d []) ∧
    Forall (λ e, ∃ p n, is_usize n ∧ short p ∧ holds "payload" e (p, n) ∧
        (n < USIZE_MAX → internal_from_stream false (read_entry e) "payload" =
                         Done (Ok (mkInternalPayload p (n + 1)))))
      (entries (stream_at "q" d)) ∧
    Forall (well_formed is_usize short) (elements (members "d" d)) ∧ Forall short (dlq_at dlq0 d).
Proof.
  destruct stream_run0_example as (tr&d&H1&H2&H3&Hstarts&Hrun&Hd). exists tr, d.
  do 3 (split; [done|]).
  apply (stream_entries_well_formed false 40 "q" "p" "d" "payload" dlq0 short db0 tr
    (mkSystem d []) ltac:(done) wf_queue0 fields0 members0 dead0 Hrun).
  refine (eq_ind_r (Forall _) _ Hstarts). by repeat constructor.
Defined.

Lemma fields_within0 :
  Forall (λ e, well_formed_fields "payload" (within dlq0) (λ _, True) e.2)
    (entries (stream_at "q" db0)).
Proof.
  assert (within dlq0 4) as Hn by (split; [done|by right]).
  change (entries (stream_at "q" db0)) with [e1; e2].
  constructor; [exists (bstr "a"), 4; split_and!; [exact Hn|done|reflexivity]|].
  constructor; [exists (bstr "b"), 4; split_and!; [exact Hn|done|reflexivity]|constructor].
Qed.

Lemma members_within0 :
  Forall (well_formed (within dlq0) (λ _, True)) (elements (members "d" db0)).
Proof.
  assert (elements (members "d" db0) = []) as -> by (vm_compute; reflexivity). constructor.
Qed.

Lemma stream_receives_bounded_witness :
  ∃ tr d, EvDone send0 (Ok tt) ∈ tr ∧ EvCrash ∈ tr ∧ runs0 tr (mkSystem d []) ∧
    Forall (λ e, ∃ p n, holds "payload" e (p, n) ∧ n < 5 ∧
        internal_from_stream false (read_entry e) "payload" =
          Done (Ok (mkInternalPayload p (n + 1))))
      (entries (stream_at "q" d)).
Proof.
  destruct stream_run0_example as (tr&d&H1&H2&H3&_&Hrun&Hd). exists tr, d.
  do 3 (split; [done|]).
  exact (stream_receives_bounded false 40 "q" "p" "d" "payload" dlq0 (mkDlq "dlq" 5) db0 tr
    (mkSystem d []) eq_refl ltac:(done) ltac:(done) wf_queue0 fields_within0 members_within0 Hrun).
Defined.
