(* ===== verification/RedisDeployment.v ===== *)
(** * Deployments of a redis queue

    Processes that share a queue: each makes producers and consumers with its
    own builder ([backends/redis/mod.rs]), which starts background tasks, and
    uses them.  Where the builders agree on the keys of the queue, everything
    that the processes run is an operation of that one queue, and no
    interleaving of it loses a message. *)
From S2P Require Import Prelude RustStd Effects Omniqueue Queue RedisCodec RedisApi RedisConfig.
From S2P Require Import RedisSpec RedisFallback RedisStreams RedisMain Threads RedisLedger.
From S2P Require Import RedisClients RedisConcurrent RedisStreamsConcurrent.
Open Scope N_scope.

(** ** What a process makes *)

(** The tasks that building spawns. *)
Definition spawn_of (e : {X & buildE X}) : option BackgroundTask :=
  match projT2 e with Spawn t => Some t | _ => None end.
Definition spawned {S A} (h : handler buildE S) (p : prog buildE A) (s : S)
    : list BackgroundTask := omap spawn_of (calls h p s).

Section processes.
(** The settings of the queue. *)
Context (b : RedisBackendBuilder).

(** Another builder for the same queue; consumer names and groups, deadlines,
    the lock key, the pool and the connection manager may differ. *)
Definition same_queue (b' : RedisBackendBuilder) : Prop :=
  cfg_queue_key (config b') = cfg_queue_key (config b) ∧
  Builder.get_processing_queue_key b' = Builder.get_processing_queue_key b ∧
  cfg_delayed_queue_key (config b') = cfg_delayed_queue_key (config b) ∧
  cfg_payload_key (config b') = cfg_payload_key (config b) ∧
  use_redis_streams b' = use_redis_streams b ∧
  cfg_dlq_config (config b') = cfg_dlq_config (config b).

(** A producer, a consumer and a task of some process that built them. *)
Definition made_producer (p : RedisProducer) : Prop :=
  ∃ b' r (S : Type) (h : handler buildE S) s s', same_queue b' ∧
    ((∃ cs, run h (Builder.build_pair r b') s = Returned s' (Ok (p, cs))) ∨
     run h (Builder.build_producer r b') s = Returned s' (Ok p)).
Definition made_consumer (cs : RedisConsumer) : Prop :=
  ∃ b' r (S : Type) (h : handler buildE S) s s', same_queue b' ∧
    ((∃ p, run h (Builder.build_pair r b') s = Returned s' (Ok (p, cs))) ∨
     run h (Builder.build_consumer r b') s = Returned s' (Ok cs)).
Definition made_task (t : BackgroundTask) : Prop :=
  ∃ b' r (S : Type) (h : handler buildE S) s, same_queue b' ∧
    (t ∈ spawned h (Builder.build_pair r b') s ∨ t ∈ spawned h (Builder.build_producer r b') s ∨
     t ∈ spawned h (Builder.build_consumer r b') s).

(** What processes run: operations of what they have made.  [acker_of cs a]
    says that [a] is an acker of a delivery that [cs] receives. *)
Definition launched {T} (acker_of : RedisConsumer → T → Prop) (o : operation) : Prop :=
  match o with
  | OpSend p _ | OpSendScheduled p _ _ | OpRedrive _ p => made_producer p
  | OpReceive cs | OpReceiveAll cs _ _ => made_consumer cs
  | OpSettle _ a => ∃ cs, made_consumer cs ∧ acker_of cs a
  | OpTask _ t => made_task t
  end.

(** ** It fits the queue *)

Abbreviation q := (cfg_queue_key (config b)).
Abbreviation pq := (Builder.get_processing_queue_key b).
Abbreviation dq := (cfg_delayed_queue_key (config b)).
Abbreviation payload_key := (cfg_payload_key (config b)).
Abbreviation c := (cfg_dlq_config (config b)).
Abbreviation streams := (use_redis_streams b).

Lemma producer_of_fits b' : same_queue b' →
  producer_fits streams q dq payload_key c (Builder.producer_of b').
Proof. by intros (?&?&?&?&?&?). Qed.

Lemma consumer_of_fits b' : same_queue b' →
  consumer_fits streams q pq payload_key c (Builder.consumer_of b').
Proof. by intros (?&?&?&?&?&?). Qed.

Lemma made_producer_fits p : made_producer p → producer_fits streams q dq payload_key c p.
Proof.
  intros (b'&r&S&h&s&s'&Hb&[[cs Hr]|Hr]).
  - apply build_pair_inv in Hr as [-> _]. by apply producer_of_fits.
  - apply run_bind_ok_inv in Hr as (s1&[]&_&Hr).
    apply run_bind_inv in Hr as (s2&[]&_&Hr). simplify_eq/=. by apply producer_of_fits.
Qed.

Lemma made_consumer_fits cs : made_consumer cs → consumer_fits streams q pq payload_key c cs.
Proof.
  intros (b'&r&S&h&s&s'&Hb&[[p Hr]|Hr]).
  - apply build_pair_inv in Hr as [_ ->]. by apply consumer_of_fits.
  - apply run_bind_ok_inv in Hr as (s1&[]&_&Hr).
    apply run_bind_inv in Hr as (s2&[]&_&Hr). simplify_eq/=. by apply consumer_of_fits.
Qed.

Lemma spawned_bind {S A B} (h : handler buildE S) (p : prog buildE A) (f : A → prog buildE B)
    s t :
  t ∈ spawned h (bind p f) s →
  t ∈ spawned h p s ∨ ∃ s' a, run h p s = Returned s' a ∧ t ∈ spawned h (f a) s'.
Proof.
  unfold spawned. rewrite calls_bind, omap_app, elem_of_app.
  intros [Ht|Ht]; [by left|]. destruct (run h p s) as [s' a| | |]; [eauto|..];
    by apply not_elem_of_nil in Ht.
Qed.

Lemma spawned_call {S X} (h : handler buildE S) (e : buildE X) s t :
  t ∈ spawned h (call e) s → spawn_of (existT X e) = Some t.
Proof.
  unfold spawned. rewrite calls_call. simpl. destruct (spawn_of _); [|by intros ?%not_elem_of_nil].
  intros Ht%list_elem_of_singleton. by subst.
Qed.

Lemma background_tasks_fit {S} (h : handler buildE S) b' s t :
  same_queue b' → t ∈ spawned h (Builder.start_background_tasks b') s →
  task_fits streams q pq dq payload_key c t.
Proof.
  intros (Hq&Hpq&Hdq&Hpk&Hs&Hc). unfold Builder.start_background_tasks.
  intros [Ht|(s1&[]&_&[Ht|(s2&[]&_&Ht)]%spawned_bind)]%spawned_bind.
  - case_bool_decide; [by apply not_elem_of_nil in Ht|].
    apply spawned_call in Ht as [= <-]. simpl. by rewrite Hq, Hdq, Hpk, Hs.
  - rewrite Hs in Ht. destruct streams eqn:Hst; apply spawned_call in Ht as [= <-]; simpl.
    + by rewrite Hq, Hpk, Hc.
    + by rewrite Hq, Hpq, Hc.
  - by apply spawned_call in Ht as [= <-].
Qed.

Lemma built_tasks_fit {S A} (h : handler buildE S) b' r (x : A) s t :
  same_queue b' →
  t ∈ spawned h (let? _ := Builder.build_pool r b' in
                 let* _ := Builder.start_background_tasks b' in Ret (Ok x : Result A)) s →
  task_fits streams q pq dq payload_key c t.
Proof.
  intros Hb. unfold bind_ok. intros [Ht|(s1&[[]|e]&_&Ht)]%spawned_bind.
  - exfalso. unfold Builder.build_pool, from_config in Ht.
    apply spawned_bind in Ht as [Ht|(s1&[[]|e]&_&Ht)];
      [|by apply spawned_bind in Ht as [Ht%spawned_call|(s2&a&_&Ht%not_elem_of_nil)]
       |by apply not_elem_of_nil in Ht].
    destruct r; [by apply spawned_bind in Ht as [Ht%spawned_call|(s2&a&_&Ht%not_elem_of_nil)]..|].
    apply spawned_bind in Ht as [Ht%not_elem_of_nil|(s1&[cfg|e]&_&Ht)]; [done| |by apply not_elem_of_nil in Ht].
    by apply spawned_bind in Ht as [Ht%spawned_call|(s2&a&_&Ht%not_elem_of_nil)].
  - apply spawned_bind in Ht as [Ht|(s2&[]&_&Ht%not_elem_of_nil)]; [|done].
    by eapply background_tasks_fit.
  - by apply not_elem_of_nil in Ht.
Qed.

Lemma made_task_fits t : made_task t → task_fits streams q pq dq payload_key c t.
Proof.
  intros (b'&r&S&h&s&Hb&[Ht|[Ht|Ht]]); by eapply built_tasks_fit.
Qed.

Lemma launched_fits {T} (acker_of : RedisConsumer → T → Prop) (acker_fits : T → Prop) o :
  (∀ cs a, consumer_fits streams q pq payload_key c cs → acker_of cs a → acker_fits a) →
  launched acker_of o → fits streams q pq dq payload_key c acker_fits o.
Proof.
  intros Ha. destruct o; cbn [launched fits]; eauto using made_producer_fits,
    made_consumer_fits, made_task_fits.
  intros (cs&Hcs&Hacker). eauto using made_consumer_fits.
Qed.
End processes.

(** ** Nothing is lost *)

(** The ackers of the deliveries that a consumer receives, used or not. *)
Definition list_acker (cs : RedisConsumer) (a : RedisFallbackAcker) : Prop :=
  ∃ entry used n,
    a = mkFallbackAcker (rc_processing_queue_key cs) entry used n (rc_dlq_config cs).
Definition stream_acker (cs : RedisConsumer) (a : RedisStreamsAcker) : Prop :=
  ∃ i used n,
    a = mkStreamsAcker (rc_queue_key cs) (rc_consumer_group cs) i (rc_payload_key cs) used n
      (rc_dlq_config cs).

Section deployments.
Context (oc : bool) (delivery_size : N) (b : RedisBackendBuilder).
Abbreviation q := (cfg_queue_key (config b)).
Abbreviation pq := (Builder.get_processing_queue_key b).
Abbreviation dq := (cfg_delayed_queue_key (config b)).
Abbreviation payload_key := (cfg_payload_key (config b)).
Abbreviation c := (cfg_dlq_config (config b)).

(** Processes of one queue have run from [d0] as [tr] says. *)
Definition list_deployment (d0 : db) (tr : list (event (O := operation) (A := Result unit)))
    (s : system) : Prop :=
  steps (redis_doc true) (program oc delivery_size (RedisConcurrent.settle oc))
    (launched b list_acker) (mkSystem d0 []) tr s.
Definition stream_deployment (d0 : db) (tr : list (event (O := operation) (A := Result unit)))
    (s : system) : Prop :=
  steps (redis_doc true) (program oc delivery_size RedisStreamsConcurrent.settle)
    (launched b stream_acker) (mkSystem d0 []) tr s.

(** C3: at-least-once delivery, from the builder on.  Processes build
    producers and consumers with builders that agree on the keys of the
    queue, each with its own client handler, and run what they have built
    and the background tasks that building has started, in whatever
    interleaving, on a server whose replies may get lost, crashing at any
    point: at every moment each message that was in the queue or has been
    sent or scheduled with success is in it, unless an ack of it has been
    started. *)
Theorem deployment_at_least_once d0 :
  (use_redis_streams b = false → distinct_keys q pq c → ids (members dq d0) ⊆ issued d0 →
   ∀ tr s, list_deployment d0 tr s →
     in_queue q pq dq c d0 ++ sent_by tr ⊆+
       in_queue q pq dq c (shared s) ++ acked_by RedisConcurrent.message tr) ∧
  (use_redis_streams b = true → payload_key ≠ NUM_RECEIVES → wf_queue q dq d0 →
   ∀ tr s, stream_deployment d0 tr s →
     in_stream_queue q dq payload_key c d0 ++ sent_by tr ⊆+
       in_stream_queue q dq payload_key c (shared s) ++
       acked_by (RedisStreamsConcurrent.message (payload_in q payload_key (states d0 tr))) tr).
Proof.
  split; intros Hs.
  - intros Hk Hids tr s Hrun.
    eapply (plain_lists_balanced oc delivery_size q pq dq payload_key c); [done|exact Hids|].
    eapply steps_mono; [|exact Hrun]. rewrite <-Hs. intros o. apply launched_fits.
    by intros cs a (_&Hpq&_&_&Hc) (entry&used&n&->).
  - intros Hpk Hwf tr s Hrun.
    assert (run_stream oc delivery_size q pq dq payload_key c d0 tr s) as Hrun'.
    { eapply steps_mono; [|exact Hrun]. rewrite <-Hs. intros o. apply launched_fits.
      by intros cs a (Hq&_&Hk&_&Hc) (i&used&n&->). }
    by eapply plain_balanced.
Qed.
End deployments.

(** ** Witness *)

(** Two processes, one with another consumer name and manager: the first
    sends, and the second, whose task has been started, crashes. *)
Definition other_cfg : RedisConfig :=
  mkRedisConfig "redis://elsewhere" 2 true "q" "d" "l" "g" "c2" "payload" 500
    (Some (mkDlq "dlq" 5)) None.
Definition other_b : RedisBackendBuilder :=
  Builder.with_processing_queue_key (Builder.with_use_redis_streams (Builder.new other_cfg) false)
    "mine".
Definition stream_b : RedisBackendBuilder := Builder.new cfg0.

Definition a_server (d : db) : server := mkServer d [] 0%Z (bstr "k3").
Definition sending {T} (b : RedisBackendBuilder) : operation (T := T) :=
  OpSend (Builder.producer_of b) (bstr "z").
Definition tending {T} : operation (T := T) :=
  OpTask 7 (TaskProcessing "q" "mine" 500 (Some (mkDlq "dlq" 5))).
Definition tending_stream {T} : operation (T := T) :=
  OpTask 7 (TaskPending "q" "g" "c" 30000 "payload" (Some (mkDlq "dlq" 5))).

Lemma made0 b : made_producer b (Builder.producer_of b).
Proof.
  exists b, RedisConnectionManager, unit, accept, tt, tt. split; [by repeat split|].
  left. exists (Builder.consumer_of b). unfold Builder.build_pair.
  destruct b as [cfg [] pk]; unfold Builder.start_background_tasks;
    with_strategy transparent [call] simpl; by case_bool_decide.
Qed.

Lemma made_task0 {T} (acker_of : RedisConsumer → T → Prop) : launched b0 acker_of tending.
Proof.
  exists other_b, RedisClusterConnectionManager, unit, accept, tt. split; [by repeat split|].
  left. unfold spawned. with_strategy transparent [call] vm_compute. by right; left.
Qed.

Lemma made_task1 {T} (acker_of : RedisConsumer → T → Prop) :
  launched stream_b acker_of tending_stream.
Proof.
  exists stream_b, RedisConnectionManager, unit, accept, tt. split; [by repeat split|].
  left. unfold spawned. with_strategy transparent [call] vm_compute. by right; left.
Qed.

(** The server once the send is done. *)
Definition sent {T} settle (b : RedisBackendBuilder) (d0 : db) : server :=
  match run serve (program (T := T) false 40 settle (sending b)) (a_server d0) with
  | Returned s _ => s
  | _ => a_server d0
  end.

Lemma deployed_send {T} settle b d0 (acker_of : RedisConsumer → T → Prop) o :
  launched b acker_of o →
  run serve (program false 40 settle (sending b)) (a_server d0) =
    Returned (sent settle b d0) (Ok tt) →
  ∃ tr, EvDone (sending b) (Ok tt) ∈ tr ∧ EvCrash ∈ tr ∧
    steps (redis_doc true) (program false 40 settle) (launched b acker_of) (mkSystem d0 []) tr
      (mkSystem (sdb (sent settle b d0)) []).
Proof.
  set (prog := program false 40 settle). intros Ho Hrun.
  assert (steps (redis_doc true) prog (launched b acker_of) (mkSystem d0 [])
    [EvStart o; EvStart (sending b)] (mkSystem (sdb (a_server d0))
      ([(o, prog o)] ++ (sending b, prog (sending b)) :: []))) as H0.
  { eapply (steps_snoc _ _ _ _ [EvStart o] _ (EvStart (sending b)));
      [eapply (steps_snoc _ _ _ _ [] _ (EvStart o)); [constructor|]|].
    - by apply (step_start _ _ _ o d0 []).
    - apply (step_start _ _ _ (sending b) d0 [(o, prog o)]). apply made0. }
  destruct (steps_run _ _ _ serve sdb _ _ _ _ _ _ _ _ _ H0 Hrun) as (t1&N1&H1).
  pose proof (steps_snoc _ _ _ _ _ _ _ _ H1 (step_done _ _ _ _ _ _ _ _)) as H2.
  pose proof (steps_snoc _ _ _ _ _ _ _ _ H2 (step_crash _ _ _ _ _ [] [])) as H3.
  eexists. split_and!; [| |exact H3]; rewrite !elem_of_app, !list_elem_of_singleton; auto 10.
Qed.

Lemma deployed_distinct : distinct_keys "q" "mine" (Some (mkDlq "dlq" 5)).
Proof. done. Qed.

Lemma wf_deployed : wf_queue "q" "d" RedisStreams.db0.
Proof. exact wf_queue0. Qed.

Lemma deployment_at_least_once_witness :
  (∃ tr d, EvDone (sending b0) (Ok tt) ∈ tr ∧ EvCrash ∈ tr ∧
     list_deployment false 40 b0 RedisFallback.db0 tr (mkSystem d []) ∧
     in_queue "q" "mine" "d" (Some (mkDlq "dlq" 5)) RedisFallback.db0 ++ sent_by tr ⊆+
       in_queue "q" "mine" "d" (Some (mkDlq "dlq" 5)) d ++ acked_by RedisConcurrent.message tr) ∧
  (∃ tr d, EvDone (sending stream_b) (Ok tt) ∈ tr ∧ EvCrash ∈ tr ∧
     stream_deployment false 40 stream_b RedisStreams.db0 tr (mkSystem d []) ∧
     in_stream_queue "q" "d" "payload" (Some (mkDlq "dlq" 5)) RedisStreams.db0 ++ sent_by tr ⊆+
       in_stream_queue "q" "d" "payload" (Some (mkDlq "dlq" 5)) d ++
       acked_by (RedisStreamsConcurrent.message
         (payload_in "q" "payload" (states RedisStreams.db0 tr))) tr).
Proof.
  split.
  - destruct (deployed_send (RedisConcurrent.settle false) b0 RedisFallback.db0 list_acker tending)
      as (tr&H1&H2&Hrun); [apply made_task0|vm_compute; reflexivity|].
    exists tr. eexists. split_and!; [exact H1|exact H2|exact Hrun|].
    exact (proj1 (deployment_at_least_once false 40 b0 RedisFallback.db0) eq_refl
      deployed_distinct ids0 tr _ Hrun).
  - destruct (deployed_send RedisStreamsConcurrent.settle stream_b RedisStreams.db0 stream_acker
      tending_stream)
      as (tr&H1&H2&Hrun); [apply made_task1|vm_compute; reflexivity|].
    exists tr. eexists. split_and!; [exact H1|exact H2|exact Hrun|].
    exact (proj2 (deployment_at_least_once false 40 stream_b RedisStreams.db0) eq_refl
      ltac:(done) wf_deployed tr _ Hrun).
Defined.
