(* ===== verification/Sqs.v ===== *)
(** * The Amazon SQS backend ([backends/sqs.rs])

    The SDK's client is a parameter: its operations are the events of
    [sqsE], its configuration and its builders are variables. *)
From S2P Require Import Prelude RustStd Effects Omniqueue Queue.
Open Scope N_scope.

Definition MAX_PAYLOAD_SIZE : N := 262144.
Definition MAX_BATCH_SIZE : nat := 10.

(** [aws_sdk_sqs::types::Message] and [SendMessageBatchRequestEntry]. *)
Record Message := mkMessage { body : option RString; message_receipt_handle : option string }.
Record BatchEntry := mkEntry { entry_id : bytes; message_body : RString }.

(** The calls of the SDK, by the client [C]; a batch answers with the
    identifiers of the entries that failed. *)
Inductive sqsE (C : Type) : Type → Type :=
| LoadConfig (endpoint_url : option string) : sqsE C C
| DeleteMessage (client : C) (queue_url receipt_handle : string) : sqsE C (result unit StdError)
| ChangeMessageVisibility (client : C) (queue_url receipt_handle : string) (timeout : N)
    : sqsE C (result unit StdError)
| SendMessage (client : C) (queue_url : string) (message_body : RString) (delay_seconds : N)
    : sqsE C (result unit StdError)
| SendMessageBatch (client : C) (queue_url : string) (entries : list BatchEntry)
    : sqsE C (result (list bytes) StdError)
| ReceiveMessage (client : C) (queue_url : string) (wait_time_seconds : option N)
    (max_number_of_messages : N) : sqsE C (result (list Message) StdError).
Arguments LoadConfig {C}.
Arguments DeleteMessage {C}.
Arguments ChangeMessageVisibility {C}.
Arguments SendMessage {C}.
Arguments SendMessageBatch {C}.
Arguments ReceiveMessage {C}.

(** [write_err]: an error and its sources. *)
Fixpoint write_err (err : StdError) : string :=
  match err with
  | StdErr s source =>
      s +:+ match source with Some e => ": " +:+ write_err e | None => EmptyString end
  end.

Definition aws_to_queue_error (err : StdError) : QueueError := Generic (boxed (write_err err)).

Definition text (b : bytes) : string := String.string_of_list_byte b.

Record SqsConfig := mkSqsConfig { cfg_queue_dsn : string; cfg_override_endpoint : bool }.

Section sqs.
(** The SDK's configuration, of which a client is made; the error that the
    code builds for a missing receipt handle; the builder of a batch
    entry. *)
Context {C : Type}.
Variable receipt_handle_is_invalid : string → StdError.
Variable build_entry : bytes → RString → result BatchEntry StdError.

Record SqsConfigFull := mkSqsConfigFull {
  full_queue_dsn : string;
  override_endpoint : bool;
  sqs_config : option C;
}.

Definition from_SqsConfig (cfg : SqsConfig) : SqsConfigFull :=
  mkSqsConfigFull (cfg_queue_dsn cfg) (cfg_override_endpoint cfg) None.
Definition from_dsn (dsn : string) : SqsConfigFull := mkSqsConfigFull dsn false None.

Definition take_sqs_config (self : SqsConfigFull) : prog (sqsE C) (SqsConfigFull * C) :=
  match sqs_config self with
  | Some cfg =>
      Ret (mkSqsConfigFull (full_queue_dsn self) (override_endpoint self) None, cfg)
  | None =>
      let* cfg := call (LoadConfig (if override_endpoint self then Some (full_queue_dsn self)
                                    else None)) in
      Ret (self, cfg)
  end.

Definition with_sqs_config (self : SqsConfigFull) (value : C) : SqsConfigFull :=
  mkSqsConfigFull (full_queue_dsn self) (override_endpoint self) (Some value).
Definition with_override_endpoint (self : SqsConfigFull) (value : bool) : SqsConfigFull :=
  mkSqsConfigFull (full_queue_dsn self) value (sqs_config self).

(** *** The acker *)

Record SqsAcker := mkSqsAcker {
  ack_client : C;
  acker_queue_dsn : string;
  receipt_handle : option string;
  has_been_acked_or_nacked : bool;
}.

Definition set_acked (a : SqsAcker) : SqsAcker :=
  mkSqsAcker (ack_client a) (acker_queue_dsn a) (receipt_handle a) true.

Definition ack (a : SqsAcker) : prog (sqsE C) (SqsAcker * Result unit) :=
  if has_been_acked_or_nacked a then Ret (a, Err CannotAckOrNackTwice)
  else match receipt_handle a with
       | Some handle =>
           let* r := call (DeleteMessage (ack_client a) (acker_queue_dsn a) handle) in
           match map_err aws_to_queue_error r with
           | Ok _ => Ret (set_acked a, Ok tt)
           | Err e => Ret (a, Err e)
           end
       | None =>
           Ret (set_acked a, Err (QueueError.generic
             (receipt_handle_is_invalid "receipt handle must be Some to be acked")))
       end.

Definition nack (a : SqsAcker) : prog (sqsE C) (SqsAcker * Result unit) := Ret (a, Ok tt).

Definition set_ack_deadline (a : SqsAcker) (duration : Duration)
    : prog (sqsE C) (SqsAcker * Result unit) :=
  let* r :=
    match receipt_handle a with
    | Some handle =>
        let? duration_secs := Ret (ok_or (try_into I32_MAX (as_secs duration))
          (Generic (boxed ("set_ack_deadline duration " +:+ text (debug_duration duration) +:+
                           " is too large: TryFromIntError(())")))) in
        let* r := call (ChangeMessageVisibility (ack_client a) (acker_queue_dsn a) handle
                          duration_secs) in
        let? _ := Ret (map_err aws_to_queue_error r) in
        Ret (Ok tt)
    | None =>
        Ret (Err (QueueError.generic
          (receipt_handle_is_invalid "receipt handle must be Some to set ack deadline")))
    end in
  Ret (a, r).

Definition sqs_acker : Acker (sqsE C) SqsAcker :=
  {| Queue.ack := ack; Queue.nack := nack; Queue.set_ack_deadline := set_ack_deadline |}.
#[local] Existing Instance sqs_acker.

(** *** The producer *)

Record SqsProducer := mkSqsProducer { client : C; queue_dsn : string }.

Definition send_raw_scheduled (self : SqsProducer) (payload : RString) (delay : Duration)
    : prog (sqsE C) (Result unit) :=
  let len := N.of_nat (length (as_bytes payload)) in
  if MAX_PAYLOAD_SIZE <? len then Ret (Err (PayloadTooLarge len MAX_PAYLOAD_SIZE))
  else
    let? secs := Ret (map_err QueueError.generic
                        (ok_or (try_into I32_MAX (as_secs delay)) try_from_int_error)) in
    let* r := call (SendMessage (client self) (queue_dsn self) payload secs) in
    let? _ := Ret (map_err aws_to_queue_error r) in
    Ret (Ok tt).

Definition send_raw (self : SqsProducer) (payload : RString) : prog (sqsE C) (Result unit) :=
  send_raw_scheduled self payload Duration_ZERO.

Definition send_serde_json {V} `{Serialize V} (self : SqsProducer) (v : V)
    : prog (sqsE C) (Result unit) :=
  let? payload := Ret (map_err Serde (to_string v)) in send_raw self payload.

Definition send_serde_json_scheduled {V} `{Serialize V} (self : SqsProducer) (v : V)
    (delay : Duration) : prog (sqsE C) (Result unit) :=
  let? payload := Ret (map_err Serde (to_string v)) in send_raw_scheduled self payload delay.

(** The payloads that are too large are looked for in all of them first. *)
Fixpoint check_sizes (payloads : list RString) : Result unit :=
  match payloads with
  | [] => Ok tt
  | p :: ps =>
      let len := N.of_nat (length (as_bytes p)) in
      if MAX_PAYLOAD_SIZE <? len then Err (PayloadTooLarge len MAX_PAYLOAD_SIZE)
      else check_sizes ps
  end.

(** [.iter().enumerate().map(...).collect()] *)
Definition batch_entries (payloads : list RString) : Result (list BatchEntry) :=
  collect_results (imap (λ i p, map_err QueueError.generic
                                  (build_entry (usize_to_string (N.of_nat i)) p)) payloads).

Definition send_chunk (self : SqsProducer) (payloads : list RString)
    : prog (sqsE C) (Result unit) :=
  let? entries := Ret (batch_entries payloads) in
  let* r := call (SendMessageBatch (client self) (queue_dsn self) entries) in
  let? _ := Ret (map_err aws_to_queue_error r) in
  Ret (Ok tt).

Definition send_batch_inner {I} (self : SqsProducer) (payloads : list I)
    (convert_payload : I → Result RString) : prog (sqsE C) (Result unit) :=
  let? payloads := Ret (collect_results (convert_payload <$> payloads)) in
  let? _ := Ret (check_sizes payloads) in
  for_each (send_chunk self) (chunks MAX_BATCH_SIZE payloads).

Definition redrive_dlq (self : SqsProducer) : prog (sqsE C) (Result unit) :=
  Ret (Err (Unsupported "redrive_dlq is not supported by SqsBackend")).

Definition send_raw_batch (self : SqsProducer) (payloads : list RString)
    : prog (sqsE C) (Result unit) := send_batch_inner self payloads (λ p, Ok p).

Definition send_serde_json_batch {V} `{Serialize V} (self : SqsProducer) (payloads : list V)
    : prog (sqsE C) (Result unit) :=
  send_batch_inner self payloads (λ v, map_err Serde (to_string v)).

Definition sqs_producer : QueueProducer (sqsE C) SqsProducer :=
  Delegate.producer_with send_raw (@send_serde_json) redrive_dlq send_raw_batch
    (@send_serde_json_batch).

Definition sqs_scheduled : @ScheduledQueueProducer (sqsE C) SqsProducer sqs_producer :=
  @delegate_scheduled _ _ sqs_producer send_raw_scheduled (@send_serde_json_scheduled).

(** *** The consumer *)

Record SqsConsumer := mkSqsConsumer { c_client : C; c_queue_dsn : string }.

Definition wrap_message (self : SqsConsumer) (message : Message) : Delivery (sqsE C) :=
  Delivery.new (match body message with Some b => as_bytes b | None => [] end)
    (mkSqsAcker (c_client self) (c_queue_dsn self) (message_receipt_handle message) false).

Definition receive (self : SqsConsumer) : prog (sqsE C) (Result (Delivery (sqsE C))) :=
  let* r := call (ReceiveMessage (c_client self) (c_queue_dsn self) None 1) in
  let? (messages : list Message) := Ret (map_err aws_to_queue_error r) in
  Ret (ok_or (head (wrap_message self <$> messages)) NoData).

Definition receive_all (self : SqsConsumer) (max_messages : N) (deadline : Duration)
    : prog (sqsE C) (Result (list (Delivery (sqsE C)))) :=
  let? wait := Ret (map_err QueueError.generic
                      (ok_or (try_into I32_MAX (as_secs deadline)) try_from_int_error)) in
  let? max := Ret (map_err QueueError.generic
                     (ok_or (try_into I32_MAX max_messages) try_from_int_error)) in
  let* r := call (ReceiveMessage (c_client self) (c_queue_dsn self) (Some wait) max) in
  let? (messages : list Message) := Ret (map_err aws_to_queue_error r) in
  Ret (Ok (wrap_message self <$> messages)).

Definition max_messages (self : SqsConsumer) : option N := NonZeroUsize_new 10.

Definition sqs_consumer : QueueConsumer (sqsE C) SqsConsumer :=
  DelegateConsumer.consumer_with receive receive_all max_messages.

(** *** The backend *)

Definition new_pair (cfg : SqsConfigFull) : prog (sqsE C) (Result (SqsProducer * SqsConsumer)) :=
  let* '(cfg, aws_cfg) := take_sqs_config cfg in
  Ret (Ok (mkSqsProducer aws_cfg (full_queue_dsn cfg), mkSqsConsumer aws_cfg (full_queue_dsn cfg))).

Definition producing_half (cfg : SqsConfigFull) : prog (sqsE C) (Result SqsProducer) :=
  let* '(cfg, aws_cfg) := take_sqs_config cfg in
  Ret (Ok (mkSqsProducer aws_cfg (full_queue_dsn cfg))).

Definition consuming_half (cfg : SqsConfigFull) : prog (sqsE C) (Result SqsConsumer) :=
  let* '(cfg, aws_cfg) := take_sqs_config cfg in
  Ret (Ok (mkSqsConsumer aws_cfg (full_queue_dsn cfg))).

Inductive SqsBackend := Sqs.

Definition sqs_backend : QueueBackend (sqsE C) SqsBackend := {|
  Config := SqsConfigFull;
  Producer := SqsProducer;
  Consumer := SqsConsumer;
  backend_producer := sqs_producer;
  backend_consumer := sqs_consumer;
  Queue.new_pair := new_pair;
  Queue.producing_half := producing_half;
  Queue.consuming_half := consuming_half;
|}.

(** [SqsBackend::builder] and the deprecated constructors, for a
    [T: Into<SqsConfigFull>]. *)
Section into.
Context {T : Type} (into : T → SqsConfigFull).

Definition builder (cfg : T) : @QueueBuilder (sqsE C) SqsBackend sqs_backend Static :=
  @QueueBuilder.new (sqsE C) SqsBackend sqs_backend (into cfg).

Definition deprecated_new_pair (cfg : T) : prog (sqsE C) (Result (SqsProducer * SqsConsumer)) :=
  new_pair (into cfg).
Definition deprecated_producing_half (cfg : T) : prog (sqsE C) (Result SqsProducer) :=
  producing_half (into cfg).
Definition deprecated_consuming_half (cfg : T) : prog (sqsE C) (Result SqsConsumer) :=
  consuming_half (into cfg).
End into.
End sqs.

(** ** Lemmas *)

Lemma calls_bind_ok {E S A B F} (h : handler E S) (p : prog E (result A F))
    (f : A → prog E (result B F)) s :
  calls h (bind_ok p f) s =
  calls h p s ++ match run h p s with Returned s' (Ok a) => calls h (f a) s' | _ => [] end.
Proof.
  unfold bind_ok. rewrite calls_bind. by destruct (run h p s) as [? []| | |].
Qed.

Lemma check_sizes_Err payloads e :
  check_sizes payloads = Err e ↔
  ∃ good big rest, payloads = good ++ big :: rest ∧
    Forall (λ p, N.of_nat (length (as_bytes p)) <= MAX_PAYLOAD_SIZE) good ∧
    MAX_PAYLOAD_SIZE < N.of_nat (length (as_bytes big)) ∧
    e = PayloadTooLarge (N.of_nat (length (as_bytes big))) MAX_PAYLOAD_SIZE.
Proof.
  induction payloads as [|p ps IH]; cbn [check_sizes].
  { split; [done|]. by intros ([|]&?&?&?&_). }
  destruct (N.ltb_spec MAX_PAYLOAD_SIZE (N.of_nat (length (as_bytes p)))) as [Hp|Hp].
  - split.
    + intros [= <-]. by exists [], p, ps.
    + intros ([|g good]&big&rest&Heq&Hg&Hbig&->); simplify_eq/=; [done|].
      apply Forall_cons in Hg as [Hg _]. lia.
  - rewrite IH. split.
    + intros (good&big&rest&->&Hg&Hbig&->). exists (p :: good), big, rest.
      split_and!; [done|by constructor|done|done].
    + intros ([|g good]&big&rest&Heq&Hg&Hbig&->); simplify_eq/=; [lia|].
      apply Forall_cons in Hg as [_ Hg]. by exists good, big, rest.
Qed.

Section batch.
Context {C S : Type} (h : handler (sqsE C) S).
Context (build_entry : bytes → RString → result BatchEntry StdError).

(** The SDK's builder succeeds when it is given an identifier. *)
Context (build_entry_ok : ∀ id body, build_entry id body = Ok (mkEntry id body)).

(** The entries of one request, numbered from 0. *)
Definition numbered (payloads : list RString) : list BatchEntry :=
  imap (λ i p, mkEntry (usize_to_string (N.of_nat i)) p) payloads.

Lemma batch_entries_ok payloads : batch_entries build_entry payloads = Ok (numbered payloads).
Proof.
  unfold batch_entries, numbered. apply collect_results_Ok. rewrite fmap_imap.
  apply imap_ext. intros i p _. simpl. by rewrite build_entry_ok.
Qed.

Definition batch_call (self : SqsProducer) (payloads : list RString) : {X & sqsE C X} :=
  existT _ (SendMessageBatch (client self) (queue_dsn self) (numbered payloads)).

Lemma run_send_chunk self payloads s :
  calls h (send_chunk build_entry self payloads) s = [batch_call self payloads] ∧
  run h (send_chunk build_entry self payloads) s =
    match h _ (SendMessageBatch (client self) (queue_dsn self) (numbered payloads)) s with
    | Some (s', r) => Returned s' (match r with Ok _ => Ok tt | Err e => Err (aws_to_queue_error e) end)
    | None => Blocked s
    end.
Proof.
  unfold send_chunk. rewrite batch_entries_ok. cbn [bind_ok bind].
  rewrite calls_bind, run_bind, calls_call, run_call.
  unfold batch_call. by destruct (h _ _ s) as [[s' [failed|e]]|].
Qed.

Lemma calls_chunks self groups s s' :
  run h (for_each (send_chunk build_entry self) groups) s = Returned s' (Ok tt) →
  calls h (for_each (send_chunk build_entry self) groups) s = batch_call self <$> groups.
Proof.
  revert s. induction groups as [|g groups IH]; intros s; [done|]. cbn [for_each fmap list_fmap].
  rewrite run_bind_ok, calls_bind_ok. destruct (run_send_chunk self g s) as [-> Hr].
  destruct (run h (send_chunk build_entry self g) s) as [s1 [[]|e]| | |]; try done.
  intros Hrest. by rewrite (IH s1 Hrest).
Qed.

(** C33: a batch is converted and checked as a whole before anything is sent:
    when a payload does not convert or is larger than 262144 bytes, the
    result is the error of the first such payload, and no request is made.
    When the result is a success, the requests made are those of the
    payloads cut into groups of at most 10, none empty, in order and
    nothing left out, each entry numbered within its group. *)
Theorem send_batch_all_or_checked {I} self (payloads : list I) convert s :
  match collect_results (convert <$> payloads) with
  | Err e => send_batch_inner build_entry self payloads convert = Ret (Err e)
  | Ok ps =>
      (∀ good big rest, ps = good ++ big :: rest →
         Forall (λ p, N.of_nat (length (as_bytes p)) <= MAX_PAYLOAD_SIZE) good →
         MAX_PAYLOAD_SIZE < N.of_nat (length (as_bytes big)) →
         send_batch_inner build_entry self payloads convert =
           Ret (Err (PayloadTooLarge (N.of_nat (length (as_bytes big))) MAX_PAYLOAD_SIZE))) ∧
      (∀ s', run h (send_batch_inner build_entry self payloads convert) s = Returned s' (Ok tt) →
         ∃ groups, concat groups = ps ∧ Forall (λ g, 0 < length g <= 10)%nat groups ∧
           Forall (λ p, N.of_nat (length (as_bytes p)) <= MAX_PAYLOAD_SIZE) ps ∧
           calls h (send_batch_inner build_entry self payloads convert) s =
             batch_call self <$> groups)
  end.
Proof.
  unfold send_batch_inner. destruct (collect_results (convert <$> payloads)) as [ps|e]; [|done].
  cbn [bind_ok bind]. split.
  - intros good big rest Hps Hg Hbig.
    assert (check_sizes ps =
      Err (PayloadTooLarge (N.of_nat (length (as_bytes big))) MAX_PAYLOAD_SIZE)) as ->.
    { apply check_sizes_Err. by exists good, big, rest. }
    done.
  - intros s'. destruct (check_sizes ps) as [[]|e] eqn:Hc; [|done]. cbn [bind_ok bind].
    intros Hr. exists (chunks MAX_BATCH_SIZE ps). split_and!.
    + apply chunks_concat. unfold MAX_BATCH_SIZE. lia.
    + apply chunks_size. unfold MAX_BATCH_SIZE. lia.
    + clear Hr. revert Hc. induction ps as [|p ps IH]; [constructor|]. cbn [check_sizes].
      destruct (N.ltb_spec MAX_PAYLOAD_SIZE (N.of_nat (length (as_bytes p)))); [done|].
      intros Hc. constructor; [done|]. by apply IH.
    + by eapply calls_chunks.
Qed.

(** A batch succeeds even when the service reports that every entry of
    every request has failed: the list of failed entries in the answers is
    not looked at. *)
Theorem send_batch_ignores_failed_entries self ps s :
  (∀ c url es s, ∃ s', h _ (SendMessageBatch c url es) s = Some (s', Ok (entry_id <$> es))) →
  Forall (λ p, N.of_nat (length (as_bytes p)) <= MAX_PAYLOAD_SIZE) ps →
  ∃ s', run h (send_raw_batch build_entry self ps) s = Returned s' (Ok tt).
Proof.
  intros Hfail Hps. unfold send_raw_batch, send_batch_inner.
  replace (collect_results ((λ p, Ok p) <$> ps)) with (Ok (E := QueueError) ps).
  2:{ symmetry. by apply collect_results_Ok. }
  cbn [bind_ok bind]. destruct (check_sizes ps) as [[]|e] eqn:Hc.
  2:{ apply check_sizes_Err in Hc as (good&big&rest&->&_&Hbig&_).
      apply Forall_app in Hps as [_ [Hb _]%Forall_cons]. lia. }
  cbn [bind_ok bind]. generalize (chunks MAX_BATCH_SIZE ps) as groups. intros groups.
  revert s. induction groups as [|g groups IH]; intros s; cbn [for_each]; [by eexists|].
  rewrite run_bind_ok. destruct (run_send_chunk self g s) as [_ ->].
  destruct (Hfail (client self) (queue_dsn self) (numbered g) s) as [s1 ->]. apply IH.
Qed.
End batch.

Section acker.
Context {C S : Type} (h : handler (sqsE C) S) (invalid : string → StdError).

#[local] Instance acker : Acker (sqsE C) SqsAcker := sqs_acker invalid.

(** A settled acker refuses to ack and accepts to nack. *)
Lemma settled_all ops (a : SqsAcker) s :
  has_been_acked_or_nacked a = true →
  run h (settle_all ops a) s =
  Returned s ((λ op, match op with OpAck => Err CannotAckOrNackTwice | OpNack => Ok tt end)
              <$> ops).
Proof.
  intros Ha. revert s. induction ops as [|op ops IH]; intros s; [done|].
  cbn [settle_all fmap list_fmap]. rewrite run_bind. destruct op; simpl.
  - unfold ack. rewrite Ha. simpl. by rewrite run_bind, IH.
  - by rewrite run_bind, IH.
Qed.

(** C39: among any sequence of attempts to settle an SQS delivery, [nack]
    always succeeds and settles nothing (the message just becomes visible
    again later), while at most one [ack] succeeds: every later one fails
    with [CannotAckOrNackTwice]. *)
Theorem sqs_ack_at_most_once ops (a : SqsAcker) s s' rs :
  run h (settle_all ops a) s = Returned s' rs →
  (∀ i, ops !! i = Some OpNack → rs !! i = Some (Ok tt)) ∧
  (∀ i j, ops !! i = Some OpAck → rs !! i = Some (Ok tt) → (i < j)%nat →
     ops !! j = Some OpAck → rs !! j = Some (Err CannotAckOrNackTwice)).
Proof.
  revert a s rs. induction ops as [|op ops IH]; intros a s rs; cbn [settle_all].
  { intros [= <- <-]. done. }
  rewrite run_bind.
  destruct (run h (settle op a) s) as [s1 [a1 r1]| | |] eqn:Hop; try done. rewrite run_bind.
  destruct (run h (settle_all ops a1) s1) as [s2 rs2| | |] eqn:Hrest; try done.
  intros [= <- <-]. pose proof (IH _ _ _ Hrest) as [Hnack Hack]. split.
  - intros [|i] Hi; simpl in *; [|by apply Hnack]. injection Hi as ->. simpl in Hop.
    by simplify_eq/=.
  - intros [|i] [|j] Hi Hok Hij Hj; simpl in *; try lia; [|apply (Hack i j); auto with lia].
    injection Hi as ->. injection Hok as ->.
    assert (has_been_acked_or_nacked a1 = true) as Ha1.
    { simpl in Hop. unfold ack in Hop. destruct (has_been_acked_or_nacked a); [by simplify_eq/=|].
      destruct (receipt_handle a) as [handle|]; [|by simplify_eq/=].
      rewrite run_bind, run_call in Hop.
      destruct (h _ _ s) as [[s3 [[]|e]]|]; by simplify_eq/=. }
    rewrite settled_all in Hrest by done. injection Hrest as _ <-.
    by rewrite list_lookup_fmap, Hj.
Qed.
End acker.

(** ** Witnesses *)

(** A service that takes every request and fails every entry of a batch. *)
Definition reject {C} (c : C) X (e : sqsE C X) (s : unit) : option (unit * X) :=
  match e in sqsE _ X return option (unit * X) with
  | LoadConfig _ => Some (tt, c)
  | DeleteMessage _ _ _ => Some (tt, Ok tt)
  | ChangeMessageVisibility _ _ _ _ => Some (tt, Ok tt)
  | SendMessage _ _ _ _ => Some (tt, Ok tt)
  | SendMessageBatch _ _ es => Some (tt, Ok (entry_id <$> es))
  | ReceiveMessage _ _ _ _ => Some (tt, Ok [])
  end.

Definition entry0 (id : bytes) (body : RString) : result BatchEntry StdError :=
  Ok (mkEntry id body).
Definition hello : RString := mkRString (bstr "hello") eq_refl.
Definition p0 : SqsProducer := mkSqsProducer 7%nat "https://sqs/q".

Lemma send_batch_all_or_checked_witness :
  ∃ groups, concat groups = replicate 12 hello ∧
    calls (reject 7%nat) (send_raw_batch entry0 p0 (replicate 12 hello)) tt =
      batch_call p0 <$> groups ∧ Forall (λ g, 0 < length g <= 10)%nat groups.
Proof.
  pose proof (send_batch_all_or_checked (reject 7%nat) entry0 (λ _ _, eq_refl) p0
    (replicate 12 hello) (λ p, Ok p) tt) as H.
  destruct H as [_ H]. destruct (H tt eq_refl) as (groups&Hc&Hs&_&Hcalls).
  exists groups. split; [exact Hc|]. split; [exact Hcalls|exact Hs].
Defined.

Lemma send_batch_ignores_failed_entries_witness :
  ∃ s', run (reject 7%nat) (send_raw_batch entry0 p0 [hello]) tt = Returned s' (Ok tt).
Proof.
  apply (send_batch_ignores_failed_entries (reject 7%nat) entry0 (λ _ _, eq_refl) p0 [hello] tt).
  - intros c url es []. by exists tt.
  - repeat constructor. vm_compute. by intros [=].
Defined.

Lemma sqs_ack_at_most_once_witness :
  [Ok tt; Ok tt; Err CannotAckOrNackTwice; Ok tt] !! 2%nat =
    Some (Err CannotAckOrNackTwice) :> option (Result unit).
Proof.
  destruct (sqs_ack_at_most_once (reject 7%nat) boxed [OpNack; OpAck; OpAck; OpNack]
    (mkSqsAcker 7%nat "u" (Some "r"%string) false) tt tt
    [Ok tt; Ok tt; Err CannotAckOrNackTwice; Ok tt] eq_refl) as [_ H].
  by apply (H 1%nat 2%nat); auto.
Defined.
