(* ===== verification/Aqs.v ===== *)
(** * The Azure Queue Storage backend ([backends/azure_queue_storage.rs])

    The Azure client is a parameter: its builders are variables and its
    operations the events of [aqsE], with the clock and [tokio]'s interval
    timer. *)
From S2P Require Import Prelude RustStd Effects Omniqueue Queue.
Open Scope N_scope.

Definition DEFAULT_RECV_TIMEOUT : Duration := from_secs 180.
Definition DEFAULT_EMPTY_RECV_DELAY : Duration := from_millis 200.

(** [azure_storage_queues::operations::Message] and its pop receipt. *)
Record PopReceipt := mkPopReceipt { message_id : string; receipt : string }.
Record Message := mkMessage { message_text : RString; pop_receipt : PopReceipt }.

(** A [tokio] interval: when it was made, and its period. *)
Record Interval := mkInterval { int_start : Instant; int_period : Duration }.

(** The calls, by the client [Q]; a tick is numbered from 0. *)
Inductive aqsE (Q : Type) : Type → Type :=
| PutMessage (client : Q) (payload : RString) (visibility_timeout ttl : Duration)
    : aqsE Q (result unit StdError)
| GetMessages (client : Q) (number_of_messages : option N) (visibility_timeout : Duration)
    : aqsE Q (result (list Message) StdError)
| DeleteMessage (client : Q) (r : PopReceipt) : aqsE Q (result unit StdError)
| InstantNow : aqsE Q Instant
| IntervalNew (period : Duration) : aqsE Q Interval
| Tick (i : Interval) (k : nat) : aqsE Q unit.
Arguments PutMessage {Q}.
Arguments GetMessages {Q}.
Arguments DeleteMessage {Q}.
Arguments InstantNow {Q}.
Arguments IntervalNew {Q}.
Arguments Tick {Q}.

Section aqs.
(** The client library: credentials, the builder of a service, the service
    and its queue clients. *)
Context {Creds Builder Service Q : Type}.
Variable new_builder : string → Creds → Builder.
Variable cloud_location : Builder → string → string → Builder.
Variable build : Builder → Service.
Variable queue_client : Service → string → Q.

Record AqsConfig := mkAqsConfig {
  queue_name : string;
  empty_receive_delay : option Duration;
  message_ttl : Duration;
  storage_account : string;
  credentials : Creds;
  cloud_uri : option string;
  receive_timeout : option Duration;
}.

Definition get_client (cfg : AqsConfig) : Q :=
  let builder := new_builder (storage_account cfg) (credentials cfg) in
  let builder := match cloud_uri cfg with
                 | Some uri => cloud_location builder (storage_account cfg) uri
                 | None => builder
                 end in
  queue_client (build builder) (queue_name cfg).

Record AqsProducer := mkAqsProducer { p_client : Q; p_config : AqsConfig }.
Record AqsConsumer := mkAqsConsumer { c_client : Q; c_config : AqsConfig }.

Definition new_pair (config : AqsConfig) : prog (aqsE Q) (Result (AqsProducer * AqsConsumer)) :=
  let client := get_client config in
  Ret (Ok (mkAqsProducer client config, mkAqsConsumer client config)).
Definition producing_half (config : AqsConfig) : prog (aqsE Q) (Result AqsProducer) :=
  Ret (Ok (mkAqsProducer (get_client config) config)).
Definition consuming_half (config : AqsConfig) : prog (aqsE Q) (Result AqsConsumer) :=
  Ret (Ok (mkAqsConsumer (get_client config) config)).

(** *** The producer *)

Definition send_raw_scheduled (self : AqsProducer) (payload : RString) (delay : Duration)
    : prog (aqsE Q) (Result unit) :=
  let* r := call (PutMessage (p_client self) payload delay (message_ttl (p_config self))) in
  Ret (map_err QueueError.generic r).

Definition send_raw (self : AqsProducer) (payload : RString) : prog (aqsE Q) (Result unit) :=
  send_raw_scheduled self payload Duration_ZERO.

Definition send_serde_json {V} `{Serialize V} (self : AqsProducer) (v : V)
    : prog (aqsE Q) (Result unit) :=
  let? payload := Ret (map_err Serde (to_string v)) in send_raw self payload.

Definition send_serde_json_scheduled {V} `{Serialize V} (self : AqsProducer) (v : V)
    (delay : Duration) : prog (aqsE Q) (Result unit) :=
  let? payload := Ret (map_err Serde (to_string v)) in send_raw_scheduled self payload delay.

Definition redrive_dlq (self : AqsProducer) : prog (aqsE Q) (Result unit) :=
  Ret (Err (Unsupported "redrive_dlq is not supported by AqsBackend")).

Definition aqs_producer : QueueProducer (aqsE Q) AqsProducer :=
  Delegate.producer send_raw (@send_serde_json) redrive_dlq.

Definition aqs_scheduled : @ScheduledQueueProducer (aqsE Q) AqsProducer aqs_producer :=
  @delegate_scheduled _ _ aqs_producer send_raw_scheduled (@send_serde_json_scheduled).

(** *** The acker *)

Record AqsAcker := mkAqsAcker {
  a_client : Q;
  already_acked_or_nacked : bool;
  a_pop_receipt : PopReceipt;
}.

Definition ack (a : AqsAcker) : prog (aqsE Q) (AqsAcker * Result unit) :=
  if already_acked_or_nacked a then Ret (a, Err CannotAckOrNackTwice)
  else
    let* r := call (DeleteMessage (a_client a) (a_pop_receipt a)) in
    match map_err QueueError.generic r with
    | Ok _ => Ret (mkAqsAcker (a_client a) true (a_pop_receipt a), Ok tt)
    | Err e => Ret (a, Err e)
    end.

Definition nack (a : AqsAcker) : prog (aqsE Q) (AqsAcker * Result unit) := Ret (a, Ok tt).

Definition set_ack_deadline (a : AqsAcker) (_ : Duration)
    : prog (aqsE Q) (AqsAcker * Result unit) :=
  Ret (a, Err (Unsupported "set_ack_deadline is not yet supported by AqsBackend")).

Definition aqs_acker : Acker (aqsE Q) AqsAcker :=
  {| Queue.ack := ack; Queue.nack := nack; Queue.set_ack_deadline := set_ack_deadline |}.
#[local] Existing Instance aqs_acker.

(** *** The consumer *)

Definition wrap_message (self : AqsConsumer) (message : Message) : Delivery (aqsE Q) :=
  Delivery.new (as_bytes (message_text message))
    (mkAqsAcker (c_client self) false (pop_receipt message)).

Definition visibility_timeout (self : AqsConsumer) : Duration :=
  default DEFAULT_RECV_TIMEOUT (receive_timeout (c_config self)).

Definition receive (self : AqsConsumer) : prog (aqsE Q) (Result (Delivery (aqsE Q))) :=
  let* r := call (GetMessages (c_client self) None (visibility_timeout self)) in
  Ret (result_map (wrap_message self)
         (and_then (map_err QueueError.generic r) (λ m : list Message, ok_or (head m) NoData))).

(** [tokio::time::interval] panics when the period is zero. *)
Definition interval (period : Duration) : prog (aqsE Q) Interval :=
  if as_nanos period =? 0 then Panic else call (IntervalNew period).

(** One round of the loop: [k] ticks have passed. *)
Definition poll (self : AqsConsumer) (max_messages : N) (end_ : Instant) (i : Interval) (k : nat)
    : prog (aqsE Q) (nat + Result (list (Delivery (aqsE Q)))) :=
  let* _ := call (Tick i k) in
  let* r := call (GetMessages (c_client self) (Some (default U8_MAX (try_into U8_MAX max_messages)))
                    (visibility_timeout self)) in
  match result_map (λ m : list Message, wrap_message self <$> m) (map_err QueueError.generic r) with
  | Err e => Ret (inr (Err e))
  | Ok [] =>
      let* now := call InstantNow in
      if end_ <? now then Ret (inr (Ok [])) else Ret (inl (S k))
  | Ok msgs => Ret (inr (Ok msgs))
  end.

Definition receive_all (fuel : nat) (self : AqsConsumer) (max_messages : N) (deadline : Duration)
    : prog (aqsE Q) (Result (list (Delivery (aqsE Q)))) :=
  let* now := call InstantNow in
  let* end_ := lift (instant_add now deadline) in
  let* i := interval (default DEFAULT_EMPTY_RECV_DELAY (empty_receive_delay (c_config self))) in
  loop fuel (poll self max_messages end_ i) O.

Definition max_messages (self : AqsConsumer) : option N := NonZeroUsize_new 32.

Definition aqs_consumer (fuel : nat) : QueueConsumer (aqsE Q) AqsConsumer :=
  DelegateConsumer.consumer_with receive (receive_all fuel) max_messages.

Inductive AqsBackend := Aqs.

Definition aqs_backend (fuel : nat) : QueueBackend (aqsE Q) AqsBackend := {|
  Config := AqsConfig;
  Producer := AqsProducer;
  Consumer := AqsConsumer;
  backend_producer := aqs_producer;
  backend_consumer := aqs_consumer fuel;
  Queue.new_pair := new_pair;
  Queue.producing_half := producing_half;
  Queue.consuming_half := consuming_half;
|}.

(** [AqsBackend::builder], for a [T: Into<AqsConfig>]. *)
Definition builder (fuel : nat) {T} (into : T → AqsConfig) (cfg : T)
    : @QueueBuilder (aqsE Q) AqsBackend (aqs_backend fuel) Static :=
  @QueueBuilder.new (aqsE Q) AqsBackend (aqs_backend fuel) (into cfg).
End aqs.

(** ** Documented behaviour *)

(** The observable state is the monotonic clock.  A request may take any time
    and give any answer, but no more messages than asked for (1 by default);
    the [k]-th tick of an interval does not come before [k] periods have
    passed.  The clock is not about to pass 2^62 seconds. *)
Definition CLOCK_MAX : N := 2 ^ 62 * NANOS_PER_SEC.

Definition aqs_documented (Q : Type) X (e : aqsE Q X) : Instant → Instant → X → Prop :=
  match e in aqsE _ X return Instant → Instant → X → Prop with
  | PutMessage _ _ _ _ => λ d d' _, d <= d'
  | GetMessages _ n _ => λ d d' r,
      d <= d' ∧ ∀ ms, r = Ok ms → N.of_nat (length ms) <= default 1 n
  | DeleteMessage _ _ => λ d d' _, d <= d'
  | InstantNow => λ d d' t, d <= d' ∧ t = d' ∧ (d < CLOCK_MAX → t < CLOCK_MAX)
  | IntervalNew p => λ d d' i, d <= d' ∧ i = mkInterval d' p
  | Tick i k => λ d d' _, d <= d' ∧ int_start i + N.of_nat k * as_nanos (int_period i) <= d'
  end.

Definition aqs_doc (Q : Type) : env_doc (aqsE Q) Instant :=
  EnvDoc (λ _ _ _, True) (aqs_documented Q).

Section specs.
Context {Creds Q : Type} {S : Type} (h : handler (aqsE Q) S) (view : S → Instant)
  `{!Lawful (aqs_doc Q) h view}.

Lemma take_period (period : Duration) (n : nat) deadline :
  as_nanos period ≠ 0 → (N.to_nat (deadline / as_nanos period) < n)%nat →
  deadline < N.of_nat n * as_nanos period.
Proof.
  intros Hp Hn. pose proof (N.mul_succ_div_gt deadline (as_nanos period) Hp).
  assert (N.succ (deadline / as_nanos period) <= N.of_nat n) by lia. nia.
Qed.

Abbreviation wpr := (wp (aqs_doc Q)).

(** The answer of a [receive_all] that was called at [t0]. *)
Definition polled (n : N) (t0 : Instant) (deadline : Duration) (d : Instant)
    (r : Result (list (Delivery (aqsE Q)))) : Prop :=
  match r with
  | Ok ds => N.of_nat (length ds) <= N.min n U8_MAX ∧ (ds = [] → t0 + as_nanos deadline < d)
  | Err e => ∃ err, e = Generic err
  end.

(** One round: an answer, or another round before the deadline. *)
Lemma wp_poll (c : AqsConsumer (Creds := Creds) (Q := Q)) n t0 deadline i k d :
  wpr (poll c n (t0 + as_nanos deadline) i k) d (λ d' r,
    match r with
    | inl k' => k' = Datatypes.S k ∧
        int_start i + N.of_nat k * as_nanos (int_period i) <= t0 + as_nanos deadline
    | inr r => polled n t0 deadline d' r
    end).
Proof.
  unfold poll. apply wp_bind, wp_call. split; [done|]. intros d1 [] [_ Htick].
  apply wp_bind, wp_call. split; [done|]. intros d2 [ms|err] [Hd2 Hlen]; simpl; [|by eexists].
  specialize (Hlen ms eq_refl). simpl in Hlen.
  assert (N.of_nat (length ms) <= N.min n U8_MAX) as Hms.
  { revert Hlen. unfold try_into, U8_MAX. destruct (N.leb_spec n 255); simpl; lia. }
  destruct ms as [|m ms]; simpl.
  - apply wp_bind, wp_call. split; [done|]. intros d3 now (Hd3&->&_).
    destruct (N.ltb_spec (t0 + as_nanos deadline) d3); apply wp_Ret; simpl.
    + split; [done|]. by intros _.
    + split; [done|]. lia.
  - split; [|done]. rewrite length_fmap. exact Hms.
Qed.

(** C35: [receive_all] ends, however slow the service is: with a polling
    period [p > 0], after at most [deadline / p + 2] rounds.  It returns no
    message only when the deadline has passed, never more messages than the
    at most 255 that it asks for, and the error of a request that fails. *)
Theorem aqs_receive_all_terminates fuel (c : AqsConsumer (Creds := Creds) (Q := Q)) n deadline s :
  as_nanos (default DEFAULT_EMPTY_RECV_DELAY (empty_receive_delay (c_config c))) ≠ 0 →
  view s < CLOCK_MAX → as_nanos deadline < CLOCK_MAX →
  (N.to_nat (as_nanos deadline /
     as_nanos (default DEFAULT_EMPTY_RECV_DELAY (empty_receive_delay (c_config c)))) + 2
   <= fuel)%nat →
  returns h view (receive_all fuel c n deadline) s (λ d r, ∃ t0, view s <= t0 ∧
    match r with
    | Ok ds => N.of_nat (length ds) <= N.min n U8_MAX ∧ (ds = [] → t0 + as_nanos deadline < d)
    | Err e => ∃ err, e = Generic err
    end).
Proof.
  intros Hp Hnow Hdl Hfuel. start_wp. intros d Hnow. unfold receive_all, interval.
  set (period := default DEFAULT_EMPTY_RECV_DELAY _) in *.
  apply wp_bind, wp_call. split; [done|]. intros d0 t0 (Hd0&->&Hclock).
  specialize (Hclock Hnow).
  assert (instant_add d0 deadline = Done (d0 + as_nanos deadline)) as ->.
  { unfold instant_add, CLOCK_MAX in *.
    destruct (N.ltb_spec (d0 + as_nanos deadline) (2 ^ 63 * NANOS_PER_SEC)); [done|].
    unfold NANOS_PER_SEC in *. lia. }
  cbn [lift bind]. destruct (N.eqb_spec (as_nanos period) 0); [done|].
  apply wp_bind, wp_call. split; [done|]. intros d1 i [Hd1 ->].
  set (K := Datatypes.S (N.to_nat (as_nanos deadline / as_nanos period))).
  apply (wp_mono _ _ _ (λ d' r, polled n d0 deadline d' r)).
  2:{ intros d' r Hr. exists d0. split; [exact Hd0|exact Hr]. }
  apply wp_loop with (λ m k _, m = (K - k)%nat ∧ (k <= K)%nat) K; [lia|lia|].
  intros m k d2 [-> Hk]. eapply wp_mono; [apply wp_poll|].
  intros d3 [k'|r]; [|done]. intros [-> Hbefore]. exists (K - Datatypes.S k)%nat.
  assert (k ≠ K) as Hne; [|lia]. intros ->.
  pose proof (take_period period K (as_nanos deadline) Hp ltac:(lia)) as Hlate.
  cbn [int_start int_period] in Hbefore. lia.
Qed.
End specs.

(** ** Witness *)

(** An empty queue, with a clock that advances from tick to tick. *)
Definition empty_queue X (e : aqsE unit X) (t : Instant) : option (Instant * X) :=
  match e in aqsE _ X return option (Instant * X) with
  | PutMessage _ _ _ _ => Some (t, Ok tt)
  | GetMessages _ _ _ => Some (t, Ok [])
  | DeleteMessage _ _ => Some (t, Ok tt)
  | InstantNow => Some (t, t)
  | IntervalNew p => Some (t, mkInterval t p)
  | Tick i k => Some (N.max t (int_start i + N.of_nat k * as_nanos (int_period i)), tt)
  end.

#[local] Instance empty_queue_lawful : Lawful (aqs_doc unit) empty_queue id.
Proof.
  split.
  - intros X e t t' x He. destruct e; simpl in He; simplify_eq/=; unfold id in *;
      split_and?; try (done || lia).
    intros ms [= <-]. simpl. lia.
  - intros X e t _. destruct e; by eexists.
Qed.

Definition c0 : AqsConsumer (Creds := unit) (Q := unit) :=
  mkAqsConsumer tt (mkAqsConfig "q" None (from_secs 60) "account" tt None None).

Lemma aqs_receive_all_terminates_witness :
  returns empty_queue id (receive_all 12 c0 10 (from_secs 1)) 5 (λ d r,
    r = Ok [] → 5 + as_nanos (from_secs 1) < d).
Proof.
  eapply returns_mono; [apply (aqs_receive_all_terminates empty_queue id 12 c0 10 (from_secs 1) 5)|].
  - done.
  - done.
  - done.
  - vm_compute. lia.
  - intros d r (t0&Ht0&Hr) ->. destruct Hr as [_ Hr]. specialize (Hr eq_refl).
    unfold id in Ht0. lia.
Defined.
