(* ===== verification/Rabbit.v ===== *)
(** * The RabbitMQ backend ([backends/rabbitmq.rs])

    The [lapin] library is the parameter [Lapin]: its types and the pure
    functions that the code calls; its network operations, the consumer's
    stream and the clock are the events of [rabbitE]. *)
From S2P Require Import Prelude RustStd Effects Omniqueue Queue.
Open Scope N_scope.

(** [AMQPValue::LongUInt] is the one value that the code makes. *)
Inductive AMQPValue := LongUInt (n : N).

Class Lapin := {
  ConnectionProperties : Type;
  Connection : Type;
  Channel : Type;
  LConsumer : Type;
  LapinAcker : Type;
  BasicPublishOptions : Type;
  BasicConsumeOptions : Type;
  BasicProperties : Type;
  FieldTable : Type;
  with_message_id : BasicProperties → bytes → BasicProperties;
  with_headers : BasicProperties → FieldTable → BasicProperties;
  FieldTable_default : FieldTable;
  FieldTable_insert : FieldTable → string → AMQPValue → FieldTable;
}.

Record BasicNackOptions := mkNackOptions { nack_multiple : bool; requeue : bool }.
Record BasicAckOptions := mkAckOptions { ack_multiple : bool }.

Section rabbit.
Context `{Lapin}.

(** [lapin::message::Delivery] *)
Record LDelivery := mkLDelivery { data : bytes; acker_of : LapinAcker }.

Inductive rabbitE : Type → Type :=
| Connect (uri : string) (properties : ConnectionProperties)
    : rabbitE (result Connection StdError)
| CreateChannel (conn : Connection) : rabbitE (result Channel StdError)
| BasicQos (channel : Channel) (prefetch_count : N) : rabbitE (result unit StdError)
| BasicConsume (channel : Channel) (queue tag : string) (options : BasicConsumeOptions)
    (arguments : FieldTable) : rabbitE (result LConsumer StdError)
| BasicPublish (channel : Channel) (exchange routing_key : string)
    (options : BasicPublishOptions) (payload : bytes) (properties : BasicProperties)
    : rabbitE (result unit StdError)
| KsuidMsNow : rabbitE bytes
| Next (c : LConsumer) : rabbitE (option (result LDelivery StdError))
| TimeoutNext (deadline : Duration) (c : LConsumer)
    : rabbitE (option (option (result LDelivery StdError)))
| NextNowOrNever (c : LConsumer) : rabbitE (option (option (result LDelivery StdError)))
| AckerAck (a : LapinAcker) (options : BasicAckOptions) : rabbitE (result unit StdError)
| AckerNack (a : LapinAcker) (options : BasicNackOptions) : rabbitE (result unit StdError)
| InstantNow : rabbitE Instant.

Record RabbitMqConfig := mkRabbitMqConfig {
  uri : string;
  connection_properties : ConnectionProperties;
  publish_exchange : string;
  publish_routing_key : string;
  publish_options : BasicPublishOptions;
  publish_properties : BasicProperties;
  consume_queue : string;
  consumer_tag : string;
  consume_options : BasicConsumeOptions;
  consume_arguments : FieldTable;
  consume_prefetch_count : option N;
  cfg_requeue_on_nack : bool;
}.

(** The feature [rabbitmq-with-message-ids], and [size_of::<Delivery>()]. *)
Variables (with_message_ids : bool) (delivery_size : N).

(** A call whose error becomes a [QueueError]. *)
Definition request {Y} (e : rabbitE (result Y StdError)) : prog rabbitE (Result Y) :=
  let* r := call e in Ret (map_err QueueError.generic r).

(** *** The acker *)

Record RabbitMqAcker := mkRabbitMqAcker {
  acker : option LapinAcker;
  a_requeue_on_nack : bool;
}.

(** [self.acker.take()] *)
Definition taken (a : RabbitMqAcker) : RabbitMqAcker :=
  mkRabbitMqAcker None (a_requeue_on_nack a).

Definition ack (a : RabbitMqAcker) : prog rabbitE (RabbitMqAcker * Result unit) :=
  match acker a with
  | None => Ret (taken a, Err CannotAckOrNackTwice)
  | Some l => let* r := request (AckerAck l (mkAckOptions false)) in Ret (taken a, r)
  end.

Definition nack (a : RabbitMqAcker) : prog rabbitE (RabbitMqAcker * Result unit) :=
  match acker a with
  | None => Ret (taken a, Err CannotAckOrNackTwice)
  | Some l =>
      let* r := request (AckerNack l (mkNackOptions false (a_requeue_on_nack a))) in
      Ret (taken a, r)
  end.

Definition set_ack_deadline (a : RabbitMqAcker) (_ : Duration)
    : prog rabbitE (RabbitMqAcker * Result unit) :=
  Ret (a, Err (Unsupported "set_ack_deadline is not supported by RabbitMQ")).

Definition rabbit_acker : Acker rabbitE RabbitMqAcker :=
  {| Queue.ack := ack; Queue.nack := nack; Queue.set_ack_deadline := set_ack_deadline |}.
#[local] Existing Instance rabbit_acker.

(** *** The producer *)

Record RabbitMqProducer := mkRabbitMqProducer {
  channel : Channel;
  exchange : string;
  routing_key : string;
  options : BasicPublishOptions;
  properties : BasicProperties;
}.

Definition send_raw_with_headers (self : RabbitMqProducer) (payload : bytes)
    (headers : option FieldTable) : prog rabbitE (Result unit) :=
  let* properties :=
    if with_message_ids
    then let* id := call KsuidMsNow in Ret (with_message_id (properties self) id)
    else Ret (properties self) in
  let properties := match headers with
                    | Some headers => with_headers properties headers
                    | None => properties
                    end in
  let? _ := request (BasicPublish (channel self) (exchange self) (routing_key self)
                       (options self) payload properties) in
  Ret (Ok tt).

Definition send_raw (self : RabbitMqProducer) (payload : bytes) : prog rabbitE (Result unit) :=
  send_raw_with_headers self payload None.

Definition send_serde_json {V} `{Serialize V} (self : RabbitMqProducer) (v : V)
    : prog rabbitE (Result unit) :=
  let? payload := Ret (map_err Serde (to_vec v)) in send_raw self payload.

Definition send_raw_scheduled (self : RabbitMqProducer) (payload : bytes) (delay : Duration)
    : prog rabbitE (Result unit) :=
  let headers := FieldTable_default in
  let? delay_ms := Ret (ok_or (try_into U32_MAX (as_millis delay))
                          (Generic (boxed "delay is too large"))) in
  let headers := FieldTable_insert headers "x-delay" (LongUInt delay_ms) in
  send_raw_with_headers self payload (Some headers).

Definition send_serde_json_scheduled {V} `{Serialize V} (self : RabbitMqProducer) (v : V)
    (delay : Duration) : prog rabbitE (Result unit) :=
  let? payload := Ret (map_err Serde (to_vec v)) in send_raw_scheduled self payload delay.

Definition redrive_dlq (self : RabbitMqProducer) : prog rabbitE (Result unit) :=
  Ret (Err (Unsupported "redrive_dlq is not supported by RabbitMqBackend")).

Definition rabbit_producer : QueueProducer rabbitE RabbitMqProducer :=
  Delegate.producer send_raw (@send_serde_json) redrive_dlq.

Definition rabbit_scheduled :
    @ScheduledQueueProducer rabbitE RabbitMqProducer rabbit_producer :=
  @delegate_scheduled _ _ rabbit_producer send_raw_scheduled (@send_serde_json_scheduled).

(** *** The consumer *)

Record RabbitMqConsumer := mkRabbitMqConsumer {
  consumer : LConsumer;
  requeue_on_nack : bool;
}.

Definition wrap_delivery (self : RabbitMqConsumer) (delivery : LDelivery) : Delivery rabbitE :=
  Delivery.new (data delivery)
    (mkRabbitMqAcker (Some (acker_of delivery)) (requeue_on_nack self)).

(** The closure mapped over the stream. *)
Definition wrap_item (self : RabbitMqConsumer) (l : result LDelivery StdError)
    : Result (Delivery rabbitE) :=
  result_map (wrap_delivery self) (map_err QueueError.generic l).

Definition receive (self : RabbitMqConsumer) : prog rabbitE (Result (Delivery rabbitE)) :=
  let* x := call (Next (consumer self)) in
  Ret match x with Some l => wrap_item self l | None => Err NoData end.

(** The body of the [while let]; the loop's state is [out]. *)
Definition fill (self : RabbitMqConsumer) (max_messages : N) (start : Instant)
    (deadline : Duration) (out : list (Delivery rabbitE))
    : prog rabbitE (list (Delivery rabbitE) + Result (list (Delivery rabbitE))) :=
  let* x := call (NextNowOrNever (consumer self)) in
  match x with
  | Some (Some l) =>
      match wrap_item self l with
      | Err e => Ret (inr (Err e))
      | Ok d =>
          let out := out ++ [d] in
          if max_messages <=? N.of_nat (length out) then Ret (inr (Ok out))
          else
            let* now := call InstantNow in
            if as_nanos deadline <=? now - start then Ret (inr (Ok out)) else Ret (inl out)
      end
  | _ => Ret (inr (Ok out))
  end.

Definition receive_all (self : RabbitMqConsumer) (max_messages : N) (deadline : Duration)
    : prog rabbitE (Result (list (Delivery rabbitE))) :=
  let* start := call InstantNow in
  let* _ := lift (vec_with_capacity delivery_size max_messages) in
  let* first := call (TimeoutNext deadline (consumer self)) in
  match first with
  | Some (Some x) =>
      let? d := Ret (wrap_item self x) in
      if 1 <? max_messages
      then loop (N.to_nat max_messages) (fill self max_messages start deadline) [d]
      else Ret (Ok [d])
  | _ => Ret (Ok [])
  end.

Definition rabbit_consumer : QueueConsumer rabbitE RabbitMqConsumer :=
  DelegateConsumer.consumer receive receive_all.

(** *** The backend *)

Definition make_consumer (conn : Connection) (cfg : RabbitMqConfig)
    : prog rabbitE (Result RabbitMqConsumer) :=
  let? channel_rx := request (CreateChannel conn) in
  let? _ :=
    match consume_prefetch_count cfg with
    | Some n => request (BasicQos channel_rx n)
    | None => Ret (Ok tt)
    end in
  let? c := request (BasicConsume channel_rx (consume_queue cfg) (consumer_tag cfg)
                       (consume_options cfg) (consume_arguments cfg)) in
  Ret (Ok (mkRabbitMqConsumer c (cfg_requeue_on_nack cfg))).

Definition make_producer (conn : Connection) (cfg : RabbitMqConfig)
    : prog rabbitE (Result RabbitMqProducer) :=
  let? channel_tx := request (CreateChannel conn) in
  Ret (Ok (mkRabbitMqProducer channel_tx (publish_exchange cfg) (publish_routing_key cfg)
             (publish_options cfg) (publish_properties cfg))).

Definition new_pair (cfg : RabbitMqConfig)
    : prog rabbitE (Result (RabbitMqProducer * RabbitMqConsumer)) :=
  let? conn := request (Connect (uri cfg) (connection_properties cfg)) in
  let? p := make_producer conn cfg in
  let? c := make_consumer conn cfg in
  Ret (Ok (p, c)).

Definition producing_half (cfg : RabbitMqConfig) : prog rabbitE (Result RabbitMqProducer) :=
  let? conn := request (Connect (uri cfg) (connection_properties cfg)) in
  make_producer conn cfg.

Definition consuming_half (cfg : RabbitMqConfig) : prog rabbitE (Result RabbitMqConsumer) :=
  let? conn := request (Connect (uri cfg) (connection_properties cfg)) in
  make_consumer conn cfg.

Inductive RabbitMqBackend := Rabbit.

Definition rabbit_backend : QueueBackend rabbitE RabbitMqBackend := {|
  Config := RabbitMqConfig;
  Producer := RabbitMqProducer;
  Consumer := RabbitMqConsumer;
  backend_producer := rabbit_producer;
  backend_consumer := rabbit_consumer;
  Queue.new_pair := new_pair;
  Queue.producing_half := producing_half;
  Queue.consuming_half := consuming_half;
|}.

(** [RabbitMqBackend::builder] *)
Definition builder (config : RabbitMqConfig)
    : @QueueBuilder rabbitE RabbitMqBackend rabbit_backend Static :=
  @QueueBuilder.new rabbitE RabbitMqBackend rabbit_backend config.
End rabbit.

(** ** Settling *)

#[export] Instance rabbit_acker_once `{Lapin} : @AckOnce rabbitE RabbitMqAcker rabbit_acker.
Proof.
  refine {| settled (a : RabbitMqAcker) := acker a = None |}.
  - intros S h [] [[l|] rq] s s' a'; simpl; intros Hr; try by simplify_eq/=.
    + unfold ack, request in Hr. simpl in Hr. rewrite !run_bind, run_call in Hr.
      destruct (h _ _ s) as [[s1 r]|]; by simplify_eq/=.
    + unfold nack, request in Hr. simpl in Hr. rewrite !run_bind, run_call in Hr.
      destruct (h _ _ s) as [[s1 r]|]; by simplify_eq/=.
  - intros [] [l rq] Ha; simpl in *; by subst.
Defined.

(** The request of an attempt. *)
Definition attempt `{Lapin} (op : settle_op) (l : LapinAcker) (requeue_on_nack : bool)
    : rabbitE (result unit StdError) :=
  match op with
  | OpAck => AckerAck l (mkAckOptions false)
  | OpNack => AckerNack l (mkNackOptions false requeue_on_nack)
  end.

(** The first attempt takes the acker out, whatever comes of it. *)
Lemma settle_takes `{Lapin} {S} (h : handler rabbitE S) op (a : RabbitMqAcker) s s1 a1 r :
  run h (@settle _ _ rabbit_acker op a) s = Returned s1 (a1, r) →
  acker a1 = None ∧
  match acker a with
  | None => r = Err CannotAckOrNackTwice ∧ s1 = s ∧ calls h (@settle _ _ rabbit_acker op a) s = []
  | Some l => ∃ reply, h _ (attempt op l (a_requeue_on_nack a)) s = Some (s1, reply) ∧
      r = map_err QueueError.generic reply ∧
      calls h (@settle _ _ rabbit_acker op a) s = [existT _ (attempt op l (a_requeue_on_nack a))]
  end.
Proof.
  destruct op; simpl; unfold ack, nack, request; destruct (acker a) as [l|];
    try (by intros [= <- <- <-]); rewrite !calls_bind, calls_call, !run_bind, run_call;
    destruct (h _ _ s) as [[s2 reply]|]; try done; simpl; intros [= <- <- <-];
    (split; [done|]); by exists reply.
Qed.

Lemma calls_settled `{Lapin} {S} (h : handler rabbitE S) ops (a : RabbitMqAcker) s :
  acker a = None → calls h (@settle_all _ _ rabbit_acker ops a) s = [].
Proof.
  intros Ha. induction ops as [|op ops IH]; [done|]. cbn [settle_all].
  rewrite (@settle_again _ _ rabbit_acker rabbit_acker_once op a Ha). cbn [bind calls].
  by rewrite calls_bind, IH,
    (@run_settle_all_settled _ _ _ rabbit_acker rabbit_acker_once h ops a s Ha).
Qed.

(** C38: the first attempt to settle a RabbitMQ delivery, through the wrapper
    that deliveries carry, makes the one request that the attempt stands for,
    an ack or a nack of this delivery alone with the configured requeueing,
    and returns what comes of it.  It uses the delivery up, whether it
    succeeds or not: every later attempt fails with [CannotAckOrNackTwice] and
    makes no request, so that a failed attempt cannot be repeated. *)
Theorem rabbit_one_attempt `{Lapin} {S} (h : handler rabbitE S) op ops (a : RabbitMqAcker) s s' rs :
  let attempts := settle_all (op :: ops) (@DynAcker_new _ _ rabbit_acker a) in
  run h attempts s = Returned s' rs →
  match acker a with
  | Some l =>
      calls h attempts s = [existT _ (attempt op l (a_requeue_on_nack a))] ∧
      ∃ reply, h _ (attempt op l (a_requeue_on_nack a)) s = Some (s', reply) ∧
        rs = map_err QueueError.generic reply :: replicate (length ops) (Err CannotAckOrNackTwice)
  | None =>
      calls h attempts s = [] ∧ s' = s ∧
      rs = replicate (Datatypes.S (length ops)) (Err CannotAckOrNackTwice)
  end.
Proof.
  intros attempts. unfold attempts. rewrite run_settle_all_dyn, calls_settle_all_dyn.
  cbn [settle_all]. intros (s1&[a1 r]&Hop&Hr)%run_bind_inv.
  apply settle_takes in Hop as Ht. destruct Ht as [Ha1 Hfirst].
  apply run_bind_inv in Hr as (s2&rs2&Hrest&Hret).
  rewrite (@run_settle_all_settled _ _ _ rabbit_acker rabbit_acker_once h ops a1 s1 Ha1) in Hrest.
  injection Hrest as <- <-. cbn [run] in Hret. injection Hret as <- <-.
  rewrite calls_bind, Hop, calls_bind, calls_settled by done.
  rewrite (@run_settle_all_settled _ _ _ rabbit_acker rabbit_acker_once h ops a1 s1 Ha1).
  cbn [calls app]. rewrite app_nil_r. destruct (acker a) as [l|].
  - destruct Hfirst as (reply&Hh&->&Hc). split; [exact Hc|]. by exists reply.
  - destruct Hfirst as (->&->&Hc). by split.
Qed.

(** ** Receiving *)

(** What a consumer's stream has buffered, and the monotonic clock. *)
Record rstream `{Lapin} := mkRstream { items : list (result LDelivery StdError); rclock : Instant }.

(** One consumer, nothing arriving meanwhile: the stream yields what it has
    buffered, in order; then it ends or has nothing ready. *)
Definition rabbit_documented `{Lapin} X (e : rabbitE X) : rstream → rstream → X → Prop :=
  let next (d d' : rstream) (o : option (option (result LDelivery StdError))) :=
    rclock d <= rclock d' ∧
    match items d with
    | x :: rest => o = Some (Some x) ∧ items d' = rest
    | [] => (o = None ∨ o = Some None) ∧ items d' = []
    end in
  match e in rabbitE X return rstream → rstream → X → Prop with
  | Next _ => λ d d' o, next d d' (Some o)
  | TimeoutNext _ _ => next
  | NextNowOrNever _ => next
  | InstantNow => λ d d' t, items d' = items d ∧ rclock d <= rclock d' ∧ t = rclock d'
  | _ => λ d d' _, items d' = items d ∧ rclock d <= rclock d'
  end.

Definition rabbit_doc `{Lapin} : env_doc rabbitE rstream :=
  EnvDoc (λ _ _ _, True) rabbit_documented.

Section specs.
Context `{Lapin} {S : Type} (h : handler rabbitE S) (view : S → rstream)
  `{!Lawful rabbit_doc h view}.

(** What [receive_all] makes of the items [buf], having taken [ds]. *)
Definition received (c : RabbitMqConsumer) (n : N) (buf : list (result LDelivery StdError))
    (d : rstream) (r : Result (list (Delivery rabbitE))) : Prop :=
  ∃ ds, N.of_nat (length ds) <= N.max 1 n ∧
    match r with
    | Ok out => out = wrap_delivery c <$> ds ∧ buf = (Ok <$> ds) ++ items d ∧
        (buf ≠ [] → ds ≠ [])
    | Err e => ∃ err, e = Generic err ∧ buf = (Ok <$> ds) ++ Err err :: items d
    end.

Lemma wp_fill c n start deadline buf ds d :
  buf = (Ok <$> ds) ++ items d → ds ≠ [] → N.of_nat (length ds) < n →
  wp rabbit_doc (fill c n start deadline (wrap_delivery c <$> ds)) d (λ d' r,
    match r with
    | inl out => ∃ x, out = wrap_delivery c <$> (ds ++ [x]) ∧
        buf = (Ok <$> (ds ++ [x])) ++ items d' ∧ N.of_nat (length (ds ++ [x])) < n
    | inr r => received c n buf d' r
    end).
Proof.
  intros Hbuf Hds Hn. unfold fill. apply wp_bind, wp_call. split; [done|].
  intros d1 o [_ Ho]. simpl in Ho. destruct (items d) as [|x rest] eqn:Hitems.
  - destruct Ho as [[->| ->] Hd1]; exists ds; (split; [lia|]); by rewrite Hd1.
  - destruct Ho as [-> Hd1]. destruct x as [l|err]; simpl.
    2:{ exists ds. split; [lia|]. exists err. by rewrite Hd1. }
    assert ((wrap_delivery c <$> ds) ++ [wrap_delivery c l] = wrap_delivery c <$> (ds ++ [l]))
      as -> by (by rewrite fmap_app).
    assert (buf = (Ok <$> (ds ++ [l])) ++ rest) as Hbuf'.
    { by rewrite fmap_app, <-app_assoc. }
    assert (∀ d2, items d2 = rest →
      received c n buf d2 (Ok (wrap_delivery c <$> (ds ++ [l])))) as Hfull.
    { intros d2 Hd2. exists (ds ++ [l]). rewrite Hd2, length_app. simpl.
      split_and!; [lia|done|done|]. intros _. by destruct ds. }
    rewrite length_fmap. destruct (N.leb_spec n (N.of_nat (length (ds ++ [l])))).
    { apply wp_Ret. by apply Hfull. }
    apply wp_bind, wp_call. split; [done|]. intros d2 now (Hd2&_&->). rewrite Hd1 in Hd2.
    destruct (_ <=? _); apply wp_Ret; [by apply Hfull|].
    exists l. split_and!; [done|by rewrite Hd2|done].
Qed.

(** C34: [receive_all] ends and takes a prefix of what the stream holds, in
    order, each as a fresh delivery: at least one when there is one, never
    more than [max(1, max_messages)] (one when [max_messages] is 0).  When
    it comes to an error of the stream it returns that, and the deliveries
    taken before it are dropped. *)
Theorem rabbit_receive_all delivery_size c n deadline s :
  delivery_size * n <= ISIZE_MAX →
  returns h view (receive_all delivery_size c n deadline) s (λ d r, ∃ ds,
    N.of_nat (length ds) <= N.max 1 n ∧
    match r with
    | Ok out => out = wrap_delivery c <$> ds ∧ items (view s) = (Ok <$> ds) ++ items d ∧
        (items (view s) ≠ [] → ds ≠ [])
    | Err e => ∃ err, e = Generic err ∧ items (view s) = (Ok <$> ds) ++ Err err :: items d
    end).
Proof.
  intros Hcap. start_wp. intros d. unfold receive_all, vec_with_capacity.
  apply N.leb_le in Hcap. rewrite Hcap. cbn [lift bind].
  apply wp_bind, wp_call. split; [done|]. intros d1 start (Hd1&_&->). cbn [bind].
  apply wp_bind, wp_call. split; [done|]. intros d2 o [_ Ho]. simpl in Ho. rewrite Hd1 in Ho.
  destruct (items d) as [|x rest] eqn:Hitems.
  { destruct Ho as [[->| ->] Hd2]; exists []; simpl; rewrite Hd2; split_and!; done || lia. }
  destruct Ho as [-> Hd2]. destruct x as [l|err].
  2:{ apply wp_bind_ok, wp_Ret. exists []. split; [simpl; lia|]. exists err. by rewrite Hd2. }
  apply wp_bind_ok, wp_Ret. cbn [wrap_item result_map map_err].
  destruct (N.ltb_spec 1 n) as [Hn|Hn].
  2:{ apply wp_Ret. exists [l]. rewrite Hd2. split_and!; done || (simpl; lia). }
  apply wp_loop with (λ m out d', ∃ ds, out = wrap_delivery c <$> ds ∧
    Ok l :: rest = (Ok <$> ds) ++ items d' ∧ ds ≠ [] ∧ N.of_nat (length ds) < n ∧
    m = (N.to_nat n - length ds)%nat) (N.to_nat n - 1)%nat; [lia| |].
  { exists [l]. rewrite Hd2. split_and!; done || (simpl; lia). }
  intros m out d3 (ds&->&Hbuf&Hds&Hlen&->). eapply wp_mono; [by apply wp_fill|].
  intros d4 [out'|r]; [|done]. intros (x&->&Hbuf'&Hlen').
  exists (N.to_nat n - length (ds ++ [x]))%nat. rewrite length_app in *. simpl in *.
  split; [lia|]. exists (ds ++ [x]). rewrite length_app. simpl.
  split_and!; try done. all: by destruct ds || lia.
Qed.
End specs.

(** ** Witnesses *)

Definition toy : Lapin := {|
  ConnectionProperties := unit; Connection := unit; Channel := unit; LConsumer := unit;
  LapinAcker := N; BasicPublishOptions := unit; BasicConsumeOptions := unit;
  BasicProperties := list AMQPValue; FieldTable := list AMQPValue;
  with_message_id p _ := p; with_headers _ t := t;
  FieldTable_default := []; FieldTable_insert t _ v := v :: t;
|}.
#[local] Existing Instance toy.

(** A broker that confirms everything, with a stream that yields its items. *)
Definition broker X (e : rabbitE X) (d : rstream) : option (rstream * X) :=
  let next {Y} (f : option (result LDelivery StdError) → Y) : option (rstream * Y) :=
    Some (@mkRstream toy (tail (items d)) (rclock d), f (head (items d))) in
  match e in rabbitE X return option (rstream * X) with
  | Connect _ _ => Some (d, Ok tt)
  | CreateChannel _ => Some (d, Ok tt)
  | BasicQos _ _ => Some (d, Ok tt)
  | BasicConsume _ _ _ _ _ => Some (d, Ok tt)
  | BasicPublish _ _ _ _ _ _ => Some (d, Ok tt)
  | KsuidMsNow => Some (d, [])
  | Next _ => next id
  | TimeoutNext _ _ => next (λ o, match o with Some _ => Some o | None => None end)
  | NextNowOrNever _ => next (λ o, match o with Some _ => Some o | None => None end)
  | AckerAck _ _ => Some (d, Err (boxed "channel closed"))
  | AckerNack _ _ => Some (d, Err (boxed "channel closed"))
  | InstantNow => Some (d, rclock d)
  end.

#[local] Instance broker_lawful : Lawful rabbit_doc broker id.
Proof.
  split.
  - intros X e [buf t] d' x He. destruct e; simpl in He; simplify_eq/=; unfold id; simpl;
      split_and?; try (done || lia); destruct buf; simpl; auto.
  - intros X e d _. destruct e; by eexists.
Qed.

Definition stream0 : rstream :=
  @mkRstream toy [Ok (@mkLDelivery toy (bstr "a") 1); Ok (@mkLDelivery toy (bstr "b") 2)] 5.

Lemma rabbit_one_attempt_witness :
  let a : @RabbitMqAcker toy := @mkRabbitMqAcker toy (Some 1) true in
  let attempts := settle_all [OpNack; OpAck] (@DynAcker_new _ _ (@rabbit_acker toy) a) in
  run broker attempts stream0 =
    Returned stream0 [Err (Generic (boxed "channel closed")); Err CannotAckOrNackTwice] ∧
  calls broker attempts stream0 = [existT _ (@AckerNack toy 1 (mkNackOptions false true))].
Proof.
  intros a attempts.
  assert (run broker attempts stream0 =
    Returned stream0 [Err (Generic (boxed "channel closed")); Err CannotAckOrNackTwice]) as Hr
    by reflexivity.
  split; [exact Hr|].
  exact (proj1 (rabbit_one_attempt broker OpNack [OpAck] a stream0 stream0 _ Hr)).
Defined.

Lemma rabbit_receive_all_witness :
  returns broker id (receive_all 40 (@mkRabbitMqConsumer toy tt true) 2 (from_secs 1)) stream0 (λ d r,
    ∀ out, r = Ok out → out ≠ []).
Proof.
  eapply returns_mono; [apply (rabbit_receive_all broker id 40 (@mkRabbitMqConsumer toy tt true) 2
    (from_secs 1) stream0); done|].
  intros d r (ds&_&Hr) out ->. destruct Hr as (->&_&Hne). specialize (Hne ltac:(done)).
  by destruct ds.
Defined.
