(* ===== verification/Gcp.v ===== *)
(** * The Google Cloud Pub/Sub backend ([backends/gcp_pubsub.rs])

    The client library is a parameter: its operations are the events of
    [gcpE], its handles the types of [Gcloud]. *)
From S2P Require Import Prelude RustStd Effects Omniqueue Queue.
Open Scope N_scope.

Class Gcloud := {
  CredentialsFile : Type;
  ClientConfig : Type;
  Client : Type;
  Awaiter : Type;
  (** [serde_json] on a credentials file. *)
  credentials_from_slice : bytes → result CredentialsFile StdError;
}.

Section gcp.
Context `{Gcloud}.

(** [ReceivedMessage]: its data, and what it is acked by. *)
Record ReceivedMessage := mkReceivedMessage { msg_data : bytes; ack_id : string }.

(** A publisher is of a topic of a client.  [publish_bulk] gives an awaiter
    for each message. *)
#[warnings="-register-all"]
Inductive gcpE : Type → Type :=
| FsRead (path : string) : gcpE (result bytes StdError)
| WithCredentials (creds : CredentialsFile) : gcpE (result ClientConfig StdError)
| WithAuth : gcpE (result ClientConfig StdError)
| ClientNew (config : ClientConfig) : gcpE (result Client StdError)
| TopicExists (client : Client) (topic_id : string) : gcpE (result bool StdError)
| SubscriptionExists (client : Client) (subscription_id : string) : gcpE (result bool StdError)
| Publish (client : Client) (topic_id : string) (data : bytes) : gcpE Awaiter
| PublishBulk (client : Client) (topic_id : string) (data : list bytes) : gcpE (list Awaiter)
| AwaiterGet (a : Awaiter) : gcpE (result unit StdError)
| TryJoinAll (futures : list (gcpE (result unit StdError))) : gcpE (result unit StdError)
| Subscribe (client : Client) (subscription_id : string) : gcpE (result unit StdError)
| StreamNext (client : Client) (subscription_id : string) : gcpE (option ReceivedMessage)
| PullTimeout (deadline : Duration) (client : Client) (subscription_id : string) (size : Z)
    : gcpE (option (result (list ReceivedMessage) StdError))
| MsgAck (m : ReceivedMessage) : gcpE (result unit StdError)
| MsgNack (m : ReceivedMessage) : gcpE (result unit StdError)
| ModifyAckDeadline (m : ReceivedMessage) (secs : N) : gcpE (result unit StdError).

Record GcpPubSubConfig := mkGcpPubSubConfig {
  cfg_topic_id : string;
  cfg_subscription_id : string;
  credentials_file : option string;
}.

(** A call whose error becomes a [QueueError]. *)
Definition request {Y} (e : gcpE (result Y StdError)) : prog gcpE (Result Y) :=
  let* r := call e in Ret (map_err QueueError.generic r).

Definition configure_client_from_file (cred_file_path : string)
    : prog gcpE (Result ClientConfig) :=
  let? bytes := request (FsRead cred_file_path) in
  let? creds := Ret (map_err QueueError.generic (credentials_from_slice bytes)) in
  request (WithCredentials creds).

Definition configure_client_from_env : prog gcpE (Result ClientConfig) := request WithAuth.

Definition get_client (cfg : GcpPubSubConfig) : prog gcpE (Result Client) :=
  let? config := match credentials_file cfg with
                 | Some fp => configure_client_from_file fp
                 | None => configure_client_from_env
                 end in
  request (ClientNew config).

(** *** The producer *)

Record GcpPubSubProducer := mkGcpPubSubProducer { p_client : Client; topic_id : string }.

(** A missing topic is only worth a warning here. *)
Definition producer_new (client : Client) (topic_id : string)
    : prog gcpE (Result GcpPubSubProducer) :=
  let? _ := request (TopicExists client topic_id) in
  Ret (Ok (mkGcpPubSubProducer client topic_id)).

Definition publisher (self : GcpPubSubProducer) : prog gcpE (Result unit) :=
  let? exists_ := request (TopicExists (p_client self) (topic_id self)) in
  if negb exists_
  then Ret (Err (Generic (boxed ("topic " +:+ topic_id self +:+ " does not exist"))))
  else Ret (Ok tt).

Definition send_raw (self : GcpPubSubProducer) (payload : bytes) : prog gcpE (Result unit) :=
  let? _ := publisher self in
  let* awaiter := call (Publish (p_client self) (topic_id self) payload) in
  let? _ := request (AwaiterGet awaiter) in
  Ret (Ok tt).

Definition send_serde_json {V} `{Serialize V} (self : GcpPubSubProducer) (v : V)
    : prog gcpE (Result unit) :=
  let? payload := Ret (map_err Serde (to_vec v)) in send_raw self payload.

Definition redrive_dlq (self : GcpPubSubProducer) : prog gcpE (Result unit) :=
  Ret (Err (Unsupported "redrive_dlq is not supported by GcpPubSubBackend")).

Definition publish_all (self : GcpPubSubProducer) (msgs : list bytes)
    : prog gcpE (Result unit) :=
  let? _ := publisher self in
  let* (awaiters : list Awaiter) := call (PublishBulk (p_client self) (topic_id self) msgs) in
  let? _ := request (TryJoinAll (AwaiterGet <$> awaiters)) in
  Ret (Ok tt).

Definition send_raw_batch (self : GcpPubSubProducer) (payloads : list bytes)
    : prog gcpE (Result unit) := publish_all self payloads.

Definition send_serde_json_batch {V} `{Serialize V} (self : GcpPubSubProducer)
    (payloads : list V) : prog gcpE (Result unit) :=
  let? msgs := Ret (collect_results ((λ v, map_err Serde (to_vec v)) <$> payloads)) in
  publish_all self msgs.

Definition gcp_producer : QueueProducer gcpE GcpPubSubProducer :=
  Delegate.producer_with send_raw (@send_serde_json) redrive_dlq send_raw_batch
    (@send_serde_json_batch).

(** *** The acker *)

Record GcpPubSubAcker := mkGcpPubSubAcker { recv_msg : ReceivedMessage; a_subscription : string }.

Definition ack (a : GcpPubSubAcker) : prog gcpE (GcpPubSubAcker * Result unit) :=
  let* r := request (MsgAck (recv_msg a)) in Ret (a, r).

Definition nack (a : GcpPubSubAcker) : prog gcpE (GcpPubSubAcker * Result unit) :=
  let* r := request (MsgNack (recv_msg a)) in Ret (a, r).

Definition set_ack_deadline (a : GcpPubSubAcker) (duration : Duration)
    : prog gcpE (GcpPubSubAcker * Result unit) :=
  let* r :=
    (let? duration_secs := Ret (ok_or (try_into I32_MAX (as_secs duration))
       (Generic (boxed ("set_ack_deadline duration " +:+
          String.string_of_list_byte (debug_duration duration) +:+
          " is too large: TryFromIntError(())")))) in
     request (ModifyAckDeadline (recv_msg a) duration_secs)) in
  Ret (a, r).

Definition gcp_acker : Acker gcpE GcpPubSubAcker :=
  {| Queue.ack := ack; Queue.nack := nack; Queue.set_ack_deadline := set_ack_deadline |}.
#[local] Existing Instance gcp_acker.

(** *** The consumer *)

Record GcpPubSubConsumer := mkGcpPubSubConsumer { c_client : Client; subscription_id : string }.

Definition consumer_new (client : Client) (subscription_id : string)
    : prog gcpE (Result GcpPubSubConsumer) :=
  Ret (Ok (mkGcpPubSubConsumer client subscription_id)).

Definition subscription (client : Client) (subscription_id : string) : prog gcpE (Result unit) :=
  let? exists_ := request (SubscriptionExists client subscription_id) in
  if negb exists_
  then Ret (Err (Generic (boxed ("subscription " +:+ subscription_id +:+ " does not exist"))))
  else Ret (Ok tt).

(** The data is drained out of the message that the acker keeps. *)
Definition wrap_recv_msg (self : GcpPubSubConsumer) (m : ReceivedMessage) : Delivery gcpE :=
  Delivery.new (msg_data m)
    (mkGcpPubSubAcker (mkReceivedMessage [] (ack_id m)) (subscription_id self)).

Definition receive (self : GcpPubSubConsumer) : prog gcpE (Result (Delivery gcpE)) :=
  let? _ := subscription (c_client self) (subscription_id self) in
  let? _ := request (Subscribe (c_client self) (subscription_id self)) in
  let* o := call (StreamNext (c_client self) (subscription_id self)) in
  let? m := Ret (ok_or o NoData) in
  Ret (Ok (wrap_recv_msg self m)).

(** [max_messages as i32]: the low 32 bits, as a signed number. *)
Definition as_i32 (n : N) : Z :=
  let r := (Z.of_N n mod 2 ^ 32)%Z in if (r <? 2 ^ 31)%Z then r else (r - 2 ^ 32)%Z.

Definition receive_all (self : GcpPubSubConsumer) (max_messages : N) (deadline : Duration)
    : prog gcpE (Result (list (Delivery gcpE))) :=
  let? _ := subscription (c_client self) (subscription_id self) in
  let* o := call (PullTimeout deadline (c_client self) (subscription_id self)
                    (as_i32 max_messages)) in
  match o with
  | Some messages =>
      let? (messages : list ReceivedMessage) := Ret (map_err QueueError.generic messages) in
      Ret (Ok (wrap_recv_msg self <$> messages))
  | None => Ret (Ok [])
  end.

Definition gcp_consumer : QueueConsumer gcpE GcpPubSubConsumer :=
  DelegateConsumer.consumer receive receive_all.

(** *** The backend *)

Definition new_pair (config : GcpPubSubConfig)
    : prog gcpE (Result (GcpPubSubProducer * GcpPubSubConsumer)) :=
  let? client := get_client config in
  let? p := producer_new client (cfg_topic_id config) in
  let? c := consumer_new client (cfg_subscription_id config) in
  Ret (Ok (p, c)).

Definition producing_half (config : GcpPubSubConfig) : prog gcpE (Result GcpPubSubProducer) :=
  let? client := get_client config in producer_new client (cfg_topic_id config).

Definition consuming_half (config : GcpPubSubConfig) : prog gcpE (Result GcpPubSubConsumer) :=
  let? client := get_client config in consumer_new client (cfg_subscription_id config).

Inductive GcpPubSubBackend := Gcp.

Definition gcp_backend : QueueBackend gcpE GcpPubSubBackend := {|
  Config := GcpPubSubConfig;
  Producer := GcpPubSubProducer;
  Consumer := GcpPubSubConsumer;
  backend_producer := gcp_producer;
  backend_consumer := gcp_consumer;
  Queue.new_pair := new_pair;
  Queue.producing_half := producing_half;
  Queue.consuming_half := consuming_half;
|}.

(** [GcpPubSubBackend::builder] *)
Definition builder (config : GcpPubSubConfig)
    : @QueueBuilder gcpE GcpPubSubBackend gcp_backend Static :=
  @QueueBuilder.new gcpE GcpPubSubBackend gcp_backend config.

End gcp.

(** ** What the service documents

    The observable state: the topics that exist, and the requests to publish,
    oldest first, each with its topic and, for each message, the answer that
    the service gives about it, sooner or later. *)
Definition fate : Type := result unit StdError.

Record pubsub := mkPubsub {
  topics : list string;
  requests : list (string * list (bytes * fate));
}.

Definition add_request (t : string) (ms : list (bytes * fate)) (d : pubsub) : pubsub :=
  mkPubsub (topics d) (requests d ++ [(t, ms)]).

Section documentation.
(** The request and the place in it of the message that an awaiter is for;
    [faulty] when questions to the service may fail. *)
Context `{Gcloud} (awaits : Awaiter → nat * nat) (faulty : bool).

(** What [get] has for an answer. *)
Definition fate_at (d : pubsub) (a : Awaiter) : option fate :=
  snd <$> (requests d !! (awaits a).1 ≫= λ r, r.2 !! (awaits a).2).

Definition future_fate (d : pubsub) (f : gcpE (result unit StdError)) : option fate :=
  match f with AwaiterGet a => fate_at d a | _ => None end.

(** An answer comes when the topic of the request exists. *)
Definition answered (d : pubsub) (a : Awaiter) : Prop :=
  is_Some (fate_at d a) ∧ ∃ r, requests d !! (awaits a).1 = Some r ∧ r.1 ∈ topics d.

Definition future_answered (d : pubsub) (f : gcpE (result unit StdError)) : Prop :=
  match f with AwaiterGet a => answered d a | _ => False end.

(** The operations of a producer.  [publish] and [publish_bulk] make one
    request, and give one awaiter per message.  [try_join_all] of the
    [futures] crate succeeds when all its futures do, and fails with the error
    of one of them otherwise.  Nobody else publishes, or makes or deletes
    topics, meanwhile. *)
Definition gcp_documented X (e : gcpE X) : pubsub → pubsub → X → Prop :=
  match e in gcpE X return pubsub → pubsub → X → Prop with
  | TopicExists _ t => λ d d' r, d' = d ∧
      match r with
      | Ok b => b = bool_decide (t ∈ topics d)
      | Err _ => faulty = true
      end
  | Publish _ t m => λ d d' a, ∃ x : fate,
      d' = add_request t [(m, x)] d ∧ awaits a = (length (requests d), O)
  | PublishBulk _ t ms => λ d d' l, ∃ fates : list fate,
      length fates = length ms ∧ d' = add_request t (zip ms fates) d ∧
      awaits <$> l = pair (length (requests d)) <$> seq 0 (length ms)
  | AwaiterGet a => λ d d' r, d' = d ∧ ∀ x, fate_at d a = Some x → r = x
  | TryJoinAll fs => λ d d' r, d' = d ∧ ∀ fates,
      Forall2 (λ f x, future_fate d f = Some x) fs fates →
      match r with
      | Ok _ => Forall (λ x, x = Ok tt) fates
      | Err e => Err e ∈ fates
      end
  | _ => λ _ _ _, True
  end.

(** Of the other operations nothing is said. *)
Definition gcp_ready X (e : gcpE X) (d : pubsub) : Prop :=
  match e with
  | TopicExists _ _ | Publish _ _ _ | PublishBulk _ _ _ => True
  | AwaiterGet a => answered d a
  | TryJoinAll fs => Forall (future_answered d) fs
  | _ => False
  end.

Definition gcp_doc : env_doc gcpE pubsub := EnvDoc gcp_ready gcp_documented.

(** *** Lemmas *)

Lemma fates_of_request d t ms fates l :
  length fates = length ms →
  awaits <$> l = pair (length (requests d)) <$> seq 0 (length ms) →
  Forall2 (λ f x, future_fate (add_request t (zip ms fates) d) f = Some x) (AwaiterGet <$> l) fates.
Proof.
  intros Hlen Hl. apply Forall2_fmap_l, Forall2_same_length_lookup_2.
  { apply (f_equal length) in Hl. rewrite !length_fmap, length_seq in Hl. lia. }
  intros i a x Ha Hx. simpl.
  assert (awaits a = (length (requests d), i)) as Hi.
  { apply (f_equal (.!! i)) in Hl. rewrite !list_lookup_fmap, Ha in Hl. simpl in Hl.
    assert (i < length ms)%nat by (rewrite <-Hlen; by eapply lookup_lt_Some).
    rewrite lookup_seq_lt in Hl by done. by injection Hl as ->. }
  assert (∃ m, ms !! i = Some m) as [m Hm].
  { apply lookup_lt_is_Some. rewrite <-Hlen. by eapply lookup_lt_Some. }
  unfold fate_at, add_request. rewrite Hi. simpl. rewrite lookup_app_r, Nat.sub_diag by done. simpl.
  rewrite lookup_zip_with, Hm. simpl. by rewrite Hx.
Qed.

Lemma futures_answered d t ms fates l :
  t ∈ topics d → length fates = length ms →
  awaits <$> l = pair (length (requests d)) <$> seq 0 (length ms) →
  Forall (future_answered (add_request t (zip ms fates) d)) (AwaiterGet <$> l).
Proof.
  intros Ht Hlen Hl. pose proof (fates_of_request d t ms fates l Hlen Hl) as Hf.
  apply Forall_fmap, Forall_forall. intros a Ha. simpl.
  apply Forall2_fmap_l in Hf. split.
  - apply list_elem_of_lookup in Ha as [i Hi].
    destruct (Forall2_lookup_l _ _ _ _ _ Hf Hi) as (x&_&Hx). by exists x.
  - apply (list_elem_of_fmap_2 awaits) in Ha. rewrite Hl in Ha.
    apply list_elem_of_fmap in Ha as (i&Hi&_). exists (t, zip ms fates). rewrite Hi. simpl.
    rewrite lookup_app_r, Nat.sub_diag by done. by split.
Qed.

Abbreviation wpg := (wp gcp_doc).

Lemma wp_publisher self d (Q : pubsub → Result unit → Prop) :
  (topic_id self ∈ topics d → Q d (Ok tt)) →
  (topic_id self ∉ topics d →
     Q d (Err (Generic (boxed ("topic " +:+ topic_id self +:+ " does not exist"))))) →
  (∀ e, faulty = true → Q d (Err (Generic e))) →
  wpg (publisher self) d Q.
Proof.
  intros Hin Hout Herr. unfold publisher, request.
  apply wp_bind_ok, wp_bind, wp_call. split; [done|]. intros d' [b|e] [-> Hb]; simpl; [|by apply Herr].
  subst b. case_bool_decide; [by apply Hin|by apply Hout].
Qed.

(** What has become of a batch: [fates] are the answers to its messages. *)
Definition batch_sent (self : GcpPubSubProducer) (msgs : list bytes) (d d' : pubsub)
    (r : Result unit) : Prop :=
  topic_id self ∈ topics d ∧
  ∃ fates, length fates = length msgs ∧
    d' = add_request (topic_id self) (zip msgs fates) d ∧
    match r with
    | Ok _ => Forall (λ x, x = Ok tt) fates
    | Err e => ∃ err, e = Generic err ∧ Err err ∈ fates
    end.

Definition batch_refused (self : GcpPubSubProducer) (d d' : pubsub) (r : Result unit) : Prop :=
  d' = d ∧
  ((topic_id self ∉ topics d) ∧
     r = Err (Generic (boxed ("topic " +:+ topic_id self +:+ " does not exist"))) ∨
   faulty = true ∧ ∃ err, r = Err (Generic err)).

Lemma wp_publish_all self msgs d :
  wpg (publish_all self msgs) d (λ d' r, batch_sent self msgs d d' r ∨ batch_refused self d d' r).
Proof.
  unfold publish_all. apply wp_bind_ok, wp_publisher.
  2:{ intros Ht. right. split; [done|]. by left. }
  2:{ intros e Hf. right. split; [done|]. eauto. }
  intros Ht. apply wp_bind, wp_call. split; [done|].
  intros d' l (fates&Hlen&->&Hl). unfold request.
  apply wp_bind_ok, wp_bind, wp_call. split; [by eapply futures_answered|].
  intros d' r [-> Hr]. specialize (Hr fates (fates_of_request _ _ _ _ _ Hlen Hl)).
  destruct r as [[]|e]; simpl; left; (split; [done|]); exists fates; [done|].
  split_and!; [done..|]. unfold QueueError.generic. eauto.
Qed.

(** *** Properties *)

Context {S : Type} (h : handler gcpE S) (view : S → pubsub) `{!Lawful gcp_doc h view}.

(** C40: a batch asks first whether the topic exists.  When it does not, or
    when the question fails, the call ends with that error and nothing is
    published.  Otherwise all the messages are published, in order, in one
    request; the batch succeeds only when the service has confirmed every one
    of them, and fails only with an error that the service has given for one
    of them.  It ends in any case, although a message that is published to a
    topic that does not exist is never answered. *)
Theorem gcp_batch_checks_topic self msgs s :
  returns h view (send_raw_batch self msgs) s (λ d r,
    batch_sent self msgs (view s) d r ∨ batch_refused self (view s) d r).
Proof. start_wp. apply wp_publish_all. Qed.

(** A batch of values serializes all of them before it asks anything of
    the service: if one of them does not serialize, the error of the first
    such is returned and nothing has changed; otherwise it publishes the JSON
    texts as a raw batch does. *)
Theorem gcp_json_batch_serializes_first {V} `{Serialize V} self (payloads : list V) s :
  returns h view (send_serde_json_batch self payloads) s (λ d r,
    (d = view s ∧ ∃ e, r = Err e ∧ unserializable payloads e) ∨
    (∃ msgs, Forall2 (λ v b, to_vec v = Ok b) payloads msgs ∧
       (batch_sent self msgs (view s) d r ∨ batch_refused self (view s) d r))).
Proof.
  start_wp. intros d. unfold send_serde_json_batch.
  pose proof (collect_json payloads) as Hc.
  destruct (collect_results _) as [msgs|e]; cbn [bind_ok bind].
  - eapply wp_mono; [apply wp_publish_all|]. intros d' r Hr. right. by exists msgs.
  - apply wp_Ret. left. eauto.
Qed.
End documentation.

(** ** Witnesses *)

Definition toy : Gcloud := {|
  CredentialsFile := unit; ClientConfig := unit; Client := unit; Awaiter := nat * nat;
  credentials_from_slice _ := Ok tt;
|}.

(** A service that does not accept empty messages. *)
Definition judge (m : bytes) : fate :=
  match m with [] => Err (boxed "message is empty") | _ => Ok tt end.

Fixpoint first_error (fates : list (option fate)) : fate :=
  match fates with
  | [] => Ok tt
  | Some (Err e) :: _ => Err e
  | _ :: fates' => first_error fates'
  end.

Definition service X (e : @gcpE toy X) (s : pubsub) : option (pubsub * X) :=
  match e in @gcpE _ X return option (pubsub * X) with
  | TopicExists _ t => Some (s, Ok (bool_decide (t ∈ topics s)))
  | Publish _ t m => Some (add_request t [(m, judge m)] s, (length (requests s), O))
  | PublishBulk _ t ms =>
      Some (add_request t (zip ms (judge <$> ms)) s,
            pair (length (requests s)) <$> seq 0 (length ms))
  | AwaiterGet a => match @fate_at toy id s a with Some x => Some (s, x) | None => None end
  | TryJoinAll fs => Some (s, first_error (@future_fate toy id s <$> fs))
  | _ => None
  end.

Lemma first_error_spec fates : 
  match first_error (Some <$> fates) with
  | Ok _ => Forall (λ x, x = Ok tt) fates
  | Err e => Err e ∈ fates
  end.
Proof.
  induction fates as [|[[]|e] fates IH]; simpl; [constructor| |by left].
  destruct (first_error _); [by constructor|by right].
Qed.


#[local] Instance service_lawful : Lawful (@gcp_doc toy id false) service id.
Proof.
  split; intros X e s; [intros s' x|]; unfold id; destruct e; simpl; intros Hs; try done; eauto.
  - by injection Hs as <- <-.
  - injection Hs as <- <-. by exists (judge data).
  - injection Hs as <- <-. exists (judge <$> data). rewrite length_fmap.
    split_and!; [done|done|]. apply list_fmap_id.
  - destruct (fate_at _ _ _) as [y|] eqn:Hy; [|done]. injection Hs as <- <-.
    split; [done|]. intros z Hz. congruence.
  - injection Hs as <- <-. split; [done|]. intros fates Hf.
    match goal with |- context [first_error ?l] => assert (l = Some <$> fates) as -> end.
    { induction Hf as [|g y gs ys Hg _ IH]; csimpl; [done|]. f_equal; [exact Hg|exact IH]. }
    apply first_error_spec.
  - destruct Hs as [[x Hx] _]. destruct (fate_at _ _ _) as [y|] eqn:Hy; [eauto|].
    done.
Qed.

Definition producer0 : @GcpPubSubProducer toy := @mkGcpPubSubProducer toy tt "orders".
Definition service0 : pubsub := mkPubsub ["orders"] [].

(** The service refuses one of the two messages. *)
Lemma gcp_batch_checks_topic_witness :
  returns service id (send_raw_batch producer0 [bstr "a"; []]) service0 (λ d r,
    (∃ fates, d = add_request "orders" (zip [bstr "a"; []] fates) service0 ∧
       length fates = 2%nat ∧ ∀ err, r = Err (Generic err) → Err err ∈ fates)).
Proof.
  eapply returns_mono;
    [exact (gcp_batch_checks_topic (H := toy) id false service id producer0 [bstr "a"; []] service0)|].
  intros d r [(_&fates&Hlen&->&Hr)|(->&[[Ht _]|[Hf _]])]; [|by destruct Ht; left|done].
  exists fates. split_and!; [done|done|]. intros err ->. destruct Hr as (e&He&Hin).
  by injection He as ->.
Defined.

#[local] Instance text_json : Serialize bytes := {|
  to_vec b := match b with [] => Err (boxed "empty") | _ => Ok b end;
  to_string _ := Err (boxed "not text");
|}.

Lemma gcp_json_batch_serializes_first_witness :
  returns service id (send_serde_json_batch producer0 [bstr "a"; []]) service0 (λ d r,
    (∃ e, r = Err (Serde e)) ∨
    (∃ msgs, Forall2 (λ v b : bytes, to_vec v = Ok b) [bstr "a"; []] msgs)).
Proof.
  eapply returns_mono; [exact (gcp_json_batch_serializes_first (H := toy) id false service id
    producer0 [bstr "a"; []] service0)|].
  intros d r [(_&_&->&_&_&_&e&_&_&_&->)|(msgs&Hm&_)]; [left|right]; eauto.
Defined.
